(* ===== verification/_CoqProject ===== *)
-Q . S2P
Prelude.v
Errors.v
Slices.v
ByteView.v
Sinks.v
Lru.v
MutexCache.v
Singleflight.v
Md5.v
Picker.v
CacheIface.v
Otter.v
Pb.v
Group.v
Recorder.v
GroupCorrect.v
GroupTargets.v
GroupWrites.v
Goroutines.v
Critical.v
Flights.v
GroupConc.v
GroupRace.v
GroupOnce.v
Metrics.v
Instance.v
Mock.v
ClusterHelper.v
Url.v
Http.v
HttpCluster.v
Tracer.v
HttpServer.v
Server.v
