(* ===== verification/Prelude.v ===== *)
(** * groupcache-go: a verification development

    groupcache is a distributed cache that fills itself.  Every process of a
    cluster runs an instance with named groups of values; a consistent-hash
    ring gives each key one owner; a [Get] for a key that is not cached here
    asks the owner, which loads the value with the user's getter; [Set],
    [Remove] and [RemoveKeys] are sent to the whole cluster.  This library
    models the Go sources under src/ as executable definitions and proves
    what makes them correct.

    ** The parts and how they fit together

    A call [group.Get] (group.go) looks the key up in two caches (cache.go,
    on top of internal/lru), runs the load under duplicate suppression
    (internal/singleflight), picks the owner on the ring (transport/peer),
    sends it a message (transport/pb) through a transport
    (transport/http_transport.go) and hands the value, a byte view
    (transport/byteview.go), to the caller's sink (transport/sinks.go).
    Instances and daemons (instance.go, daemon.go) own the groups and the
    ring; cluster/cluster.go starts several daemons in one process.  Metrics
    (stats.go) and spans (transport/tracer.go) go to OpenTelemetry.  There is
    a second cache (contrib/otter.go), a second transport for tests
    (transport/mock_transport.go) and an example server (cmd/server).

    - Prelude.v: 64-bit integers with wrap-around, instants, the monad of
      computations that may panic or diverge, the orders Go leaves open (map
      iteration, goroutines of a fan-out) as interfaces, shared lemmas.
    - Errors.v: errors.go and transport/errors.go; [errors.Is].
    - Slices.v: Go's byte slices over a memory of shared backing arrays.
    - ByteView.v: transport/byteview.go.
    - Sinks.v: transport/sinks.go; protobuf messages are the interface [Proto].
    - Lru.v: internal/lru/lru.go, a list of element addresses, a map and the
      elements, with an abstract specification as a recency list.
    - MutexCache.v: [mutexCache] of cache.go.
    - CacheIface.v: the interface [Cache] of cache.go with the laws a group
      relies on (nothing appears in a cache that was not added, and a pair the
      cache has room for is kept when it is added), and [mutexCache] as an
      instance of both: it has room for what fits its limit.
    - Singleflight.v: internal/singleflight/singleflight.go under every
      interleaving of goroutines.
    - Md5.v, Picker.v: transport/peer/picker.go and client.go; the ring, Go's
      binary search, and the MD5 and text functions [Add] applies.
    - Pb.v: the messages of transport/pb/groupcache.pb.go.
    - Group.v: the operations of group.go, a client of the interfaces [Cache],
      [Client], [Peer] and [Env]; the counters of stats.go.
    - Recorder.v: peers that record the requests they get, and a concrete
      three-peer cluster for instantiating theorems.
    - Otter.v: contrib/otter.go over an interface for the otter cache.  It is
      an instance of [Cache] but not of its laws: a rejected [Add] leaves the
      old value under the key, so the theorems about groups do not cover it.
    - GroupCorrect.v, GroupTargets.v, GroupWrites.v: the theorems about reads,
      the peers a write has to reach, and writes.
    - Goroutines.v: goroutines as trees of atomic actions around [Group.Do]
      and [Group.Lock], their schedules, and a program logic whose soundness
      gives invariants, freedom from deadlock and termination.
    - Critical.v: the critical sections of [Group.Do] action by action, and
      the simulation that transfers the theorems of Goroutines.v to them.
    - Flights.v: two goroutines that call [Do] for one key, the second of which
      joins the flight of the first.
    - GroupConc.v: the operations of group.go as such goroutines.
    - GroupRace.v: a load that overtakes a removal.
    - GroupOnce.v: concurrent [Get]s of one missing key.
    - Metrics.v: the instruments and callbacks of stats.go and group.go over
      the interface [Meter].
    - Instance.v: instance.go and daemon.go over the interface [Transport].
    - Mock.v, ClusterHelper.v: transport/mock_transport.go and
      cluster/cluster.go; the mock transport is an instance of [Transport] and
      of the laws the cluster relies on.
    - Url.v, Http.v: the request handler and the client of
      transport/http_transport.go over interfaces for the groups, the message
      encodings and the network; the ServeMux in front of the handler.
    - HttpCluster.v: the composition: groups whose peers are HTTP clients, and
      a network that delivers to the handlers of the other nodes.
    - Tracer.v: transport/tracer.go and the spans of the HTTP client.
    - HttpServer.v: the life of an HTTP transport (construction, listening,
      [waitForConnect], shutdown), another instance of [Transport].
    - Server.v: cmd/server/main.go.

    ** What the theorems show

    - Byte views and sinks: the comparisons mean what they say; [SetSinkView]
      delivers the bytes and expiry to every kind of sink; slices handed in or
      out are never shared with cached values.
    - Caches: the LRU cache refines the recency list, callbacks included; the
      default cache terminates, never panics, keeps its byte count exact and
      its contents within the limit, and evicts exactly the least recent.
    - Singleflight: one execution per key at a time, every duplicate gets the
      leader's results (or the panic error), every call finishes, and what
      [Lock] does and does not exclude.
    - Picker: the owner is the clockwise successor on the ring; adding a peer
      moves keys only to it; all processes agree on every owner.
    - Groups: every path of [Get] (hit, owner's answer, owner's error, load
      here, fallback) with its effect on caches, statistics and the world;
      which peers each write reaches, in which order, and with which result.
    - Groups under concurrency: in every interleaving of any number of
      operations the caches hold, and [Get] delivers, only values that were
      supplied for the key ([group_concurrent_legit]); all operations end
      ([group_concurrent_returns]); concurrent misses of a key share one run of
      the getter when that run succeeds with a value that never expires, the
      main cache has room for it and the sinks accept it
      ([group_concurrent_one_load]); an operation that is not interrupted does
      what its sequential definition does ([group_alone]).  Two things go wrong
      as the code is written: a [Set] that waits for the flight of another is
      dropped under every continuation ([group_concurrent_Set_dropped]), and
      a [Get] can store a value from before a [Remove] that has returned
      ([group_concurrent_Remove_overtaken]).
    - Instances: all daemons given the same peers agree on one owner per key;
      [SetPeers] is all or nothing; the registry of groups is consistent.
    - Clusters: after [StartWith] all daemons agree on owners and
      [FindOwningDaemon] finds the one that treats the key as its own.
    - HTTP: a client connected to a handler acts as direct calls on the remote
      group, and paths route back to the group and key they were made from;
      [waitForConnect] returns within 100 ms and the scheduler's delays after
      the deadline of its context, or with the first dial that connects;
      [Shutdown] ends what [ListenAndServe] started.
    - The whole: a [Set] or a [Remove] on one node of a cluster over HTTP
      leaves every node with the new value or none, or without the key
      ([cluster_Set_coherent], [cluster_Remove_coherent]).
    - Otter, mock transport, metrics, spans, server: the adapter answers with
      what otter holds and counts what otter rejects; mock clients reach the
      group of their peer; a collection reports exactly the statistics; tracing
      changes no result and its pooled slices are never shared; what /set
      stores /cache returns unless the key is cached already.

    Some theorems and examples record behaviour a reader of the comments would not expect:
    [group_Set_without_logger_panics], [group_RemoveKeys_leaves_copies_at_owners],
    [singleflight_Lock_lets_flights_finish],
    [group_concurrent_Remove_overtaken], [group_concurrent_Set_dropped],
    [tiny_limit_is_unlimited],
    [expire_not_preserved], [http_unknown_group_panics],
    [http_dotted_key_unreachable], [http_clones_wrap_shared_client],
    [http_second_listen_blocks_shutdown], [NewGroup_metrics_failure],
    [cluster_Restart_loses_peers], [OtterCache_rejected_Add_keeps_old] and
    [View_Slice_past_end_differs].

    ** Bounds and fuel

    Three loops are not structural.  [removeOldest] (cache.go) gets one round per
    stored entry and one more, which [mutexCache_invariant] shows is enough
    for any non-negative limit; [sort.Search] gets as many rounds as the slice
    has elements, and its interval shrinks in each ([Search_spec]);
    [waitForConnect] gets one round per 100 ms until the deadline of its
    context and two more, or more rounds than it takes to connect when there is
    no deadline, which [waitForConnect_returns] shows is enough.  The
    HTTP client follows at most 10 redirects, as net/http does.  Integers
    are [Z] with the wrap-around of int64 written out where the code adds or
    converts.

    ** What is not modelled

    The operations of Group.v run without interference from other goroutines
    on the same group; GroupConc.v interleaves them, on a fixed set of peers
    and with a request to a peer or to the getter as one action; the
    goroutines of one fan-out run one after the other, in any order.  Concurrent
    changes of the peers or of the groups of an instance, and
    [ResetCacheSize], which is documented as not thread safe, are not
    interleaved.  The default hash function, the otter cache and
    OpenTelemetry (third-party packages), protobuf and JSON encodings, the
    network, TLS, the user's getter, the clock and the caller's context are
    parameters with the laws that are used stated as classes.  The generated
    reflection code of the messages, the labels otelhttp attaches to requests,
    the [Context] option of the transport and the flags, printing and signals
    of the example server are left out: no result depends on them. *)

From stdpp Require Export base gmap strings list fin_maps sorting.
From Stdlib Require Export ZArith Lia Strings.Byte.

#[global] Open Scope Z_scope.
#[global] Set Default Goal Selector "!".

(** ** Development-wide tactics *)

(** [groupcache] proves side conditions (ranges of machine integers, new
    caches); [wrap64] normalises nested wrap-arounds. *)
Create HintDb groupcache.
Create Rewrite HintDb wrap64.

(** ** Machine integers

    Go's [int64] and, on the 64-bit platforms the library targets, [int]:
    integers modulo 2^64 in two's complement. *)

Definition two63 : Z := 2 ^ 63.
Definition two64 : Z := 2 ^ 64.

Definition wrap64 (z : Z) : Z := (z + two63) mod two64 - two63.

Definition in_i64 (z : Z) : Prop := - two63 <= z < two63.

(** Conversion [int(x)] of a [uint64] (an unsigned 64-bit value). *)
Definition int_of_uint64 (u : Z) : Z := wrap64 u.

Definition add64 (a b : Z) : Z := wrap64 (a + b).
Definition sub64 (a b : Z) : Z := wrap64 (a - b).

Lemma two63_val : two63 = 9223372036854775808.
Proof. reflexivity. Qed.
Lemma two64_val : two64 = 18446744073709551616.
Proof. reflexivity. Qed.

Lemma wrap64_range z : in_i64 (wrap64 z).
Proof.
  unfold in_i64, wrap64. rewrite two63_val, two64_val.
  pose proof (Z.mod_pos_bound (z + 9223372036854775808) 18446744073709551616). lia.
Qed.

Lemma wrap64_id z : in_i64 z → wrap64 z = z.
Proof.
  unfold in_i64, wrap64. rewrite two63_val, two64_val. intros.
  rewrite Z.mod_small; lia.
Qed.

Lemma wrap64_add_l a b : wrap64 (wrap64 a + b) = wrap64 (a + b).
Proof.
  unfold wrap64. f_equal.
  replace ((a + two63) mod two64 - two63 + b + two63)
    with ((a + two63) mod two64 + b) by lia.
  rewrite Zplus_mod_idemp_l. f_equal. lia.
Qed.

Lemma wrap64_add_r a b : wrap64 (a + wrap64 b) = wrap64 (a + b).
Proof. rewrite Z.add_comm, wrap64_add_l. f_equal. lia. Qed.

Lemma wrap64_sub_l a b : wrap64 (wrap64 a - b) = wrap64 (a - b).
Proof. unfold Z.sub. apply wrap64_add_l. Qed.

Lemma wrap64_sub_r a b : wrap64 (a - wrap64 b) = wrap64 (a - b).
Proof.
  unfold wrap64. f_equal.
  replace (a - ((b + two63) mod two64 - two63) + two63)
    with ((a + two63 + two63) - (b + two63) mod two64) by lia.
  rewrite Zminus_mod_idemp_r. f_equal. lia.
Qed.

#[export] Hint Rewrite wrap64_add_l wrap64_add_r wrap64_sub_l wrap64_sub_r : wrap64.
#[export] Hint Resolve wrap64_range : groupcache.

(** ** Time

    A [time.Time] is an instant, written as the number of nanoseconds since
    the Unix epoch.  The zero [time.Time] is January 1, year 1, 00:00 UTC.
    Monotonic clock readings and locations do not influence [IsZero],
    [Before] on wall-clock instants, [UnixNano] or [time.Unix]. *)

Definition Time : Type := Z.
Definition Second : Z := 1000000000.
Definition Millisecond : Z := 1000000.
Definition zero_time : Time := -62135596800 * Second.

Definition IsZero (t : Time) : bool := bool_decide (t = zero_time).
Definition Before (t u : Time) : bool := bool_decide (t < u).

(** [t.UnixNano()]: an [int64]; the result wraps for instants outside
    1678..2262. *)
Definition UnixNano (t : Time) : Z := wrap64 t.

(** [t.Sub(u)]: a [Duration]; it saturates. *)
Definition time_Sub (t u : Time) : Z := Z.max (- two63) (Z.min (t - u) (two63 - 1)).

(** [time.Unix(sec, nsec)] accepts any [nsec]. *)
Definition time_Unix (sec nsec : Z) : Time := sec * Second + nsec.

(** ** Panics and state

    A Go computation over a state [S] ends with a value, panics, or runs
    forever (in the executable model: a loop used up its fuel).  The state it
    leaves behind is observable when it panics: deferred functions and
    recovering callers see it. *)

Inductive res (A : Type) : Type :=
| Val (a : A)
| Panicked
| Diverged.
Arguments Val {A} a.
Arguments Panicked {A}.
Arguments Diverged {A}.

Definition M (S A : Type) : Type := S → res A * S.

#[export] Instance M_ret S : MRet (M S) := λ A a s, (Val a, s).
#[export] Instance M_bind S : MBind (M S) := λ A B f m s,
  match m s with
  | (Val a, s') => f a s'
  | (Panicked, s') => (Panicked, s')
  | (Diverged, s') => (Diverged, s')
  end.

Definition get_state {S} : M S S := λ s, (Val s, s).
Definition put_state {S} (s : S) : M S unit := λ _, (Val tt, s).
Definition panic {S A} : M S A := λ s, (Panicked, s).
Definition diverge {S A} : M S A := λ s, (Diverged, s).

(** [for _, x := range l { f(x) }], collecting the results. *)
Fixpoint for_each {S A B} (f : A → M S B) (l : list A) : M S (list B) :=
  match l with
  | [] => mret []
  | x :: l => y ← f x; ys ← for_each f l; mret (y :: ys)
  end.

Lemma M_bind_val {S A B} (m : M S A) (f : A → M S B) s a s' :
  m s = (Val a, s') → (m ≫= f) s = f a s'.
Proof. unfold mbind, M_bind. by intros ->. Qed.

(** One step of a computation whose outcome is known: [mstep H] uses [H], which
    states the outcome of the first action; [mstep] computes it. *)
Tactic Notation "mstep" uconstr(H) := erewrite M_bind_val by (apply H).
Tactic Notation "mstep" := erewrite M_bind_val by done.

Lemma M_bind_assoc {S A B D} (m : M S A) (f : A → M S B) (g : B → M S D) s :
  ((m ≫= f) ≫= g) s = (m ≫= λ x, f x ≫= g) s.
Proof. unfold mbind, M_bind. by destruct (m s) as [[] ?]. Qed.

Lemma M_bind_panic {S A B} (m : M S A) (f : A → M S B) s s' :
  m s = (Panicked, s') → (m ≫= f) s = (Panicked, s').
Proof. unfold mbind, M_bind. by intros ->. Qed.

(** A loop in which the step for [x] establishes [Q x] and keeps what the
    other steps established. *)
Lemma for_each_establishes {S A B} (f : A → M S B) (P : S → Prop) (Q : A → S → Prop) (R : B → Prop) l s :
  NoDup l → P s →
  (∀ x s, x ∈ l → P s → ∃ y s', f x s = (Val y, s') ∧ R y ∧ P s' ∧ Q x s' ∧ ∀ x', x' ≠ x → Q x' s → Q x' s') →
  ∃ ys s', for_each f l s = (Val ys, s') ∧ Forall R ys ∧ P s' ∧ (∀ x, x ∈ l → Q x s') ∧
    ∀ x, x ∉ l → Q x s → Q x s'.
Proof.
  intros Hnd. revert s. induction Hnd as [|x l Hx Hnd IH]; intros s HP Hf; simpl.
  { exists [], s. split_and!; [done|constructor|done| |done]. intros x []%elem_of_nil. }
  destruct (Hf x s) as (y & s1 & Hy & HR & HP1 & HQ1 & Hkeep1); [by left|done|].
  destruct (IH s1 HP1) as (ys & s2 & Hys & HRs & HP2 & HQ2 & Hkeep2).
  { intros x' s' Hx'. apply Hf. by right. }
  mstep Hy. mstep Hys. exists (y :: ys), s2. split_and!; [done|by constructor|done| |].
  - intros x' [->|Hx']%elem_of_cons; auto.
  - intros x' [Hne Hni]%not_elem_of_cons HQ. auto.
Qed.

(** ** Iteration over Go maps

    [for k, v := range m] visits every entry once, in an order the language
    leaves open.  The order is an interface: theorems hold for every
    instance. *)

Class MapRange (K : Type) `{Countable K} (A : Type) := {
  map_range : gmap K A → list (K * A);
  map_range_perm : ∀ m, map_range m ≡ₚ map_to_list m;
}.
#[global] Hint Mode MapRange ! - - ! : typeclass_instances.

(** The order of stdpp's enumeration is one possible order. *)
#[export] Program Instance map_range_default K `{Countable K} A : MapRange K A | 100 :=
  {| map_range := map_to_list |}.
Next Obligation. done. Qed.

(** ** Goroutines that only meet at the end

    A fan-out starts one goroutine per element and waits for all of them; each
    performs one atomic request.  The order in which the requests take effect
    (and, independently, in which results arrive on a channel) is the
    scheduler's choice: theorems hold for every instance. *)

Class GoOrder := {
  go_order : ∀ {A : Type}, list A → list A;
  go_order_perm : ∀ {A : Type} (l : list A), go_order l ≡ₚ l;
}.

#[export] Program Instance go_order_default : GoOrder | 100 := {| go_order A l := l |}.
Next Obligation. done. Qed.

(** ** Lists *)

Lemma elem_of_map_range `{MapRange K A} (m : gmap K A) k a :
  (k, a) ∈ map_range m ↔ m !! k = Some a.
Proof. rewrite map_range_perm. apply elem_of_map_to_list. Qed.

(** The first element of a list that satisfies a test. *)
Fixpoint find_first {A} (f : A → bool) (l : list A) : option A :=
  match l with
  | [] => None
  | x :: l => if f x then Some x else find_first f l
  end.

Lemma find_first_Some {A} (f : A → bool) l x :
  find_first f l = Some x ↔
  ∃ i, l !! i = Some x ∧ f x = true ∧ ∀ j y, (j < i)%nat → l !! j = Some y → f y = false.
Proof.
  induction l as [|y l IH]; simpl.
  - split; [done|]. by intros (i & ? & _).
  - destruct (f y) eqn:Hy.
    + split.
      * intros [= ->]. exists 0%nat. split_and!; [done..|lia].
      * intros (i & Hi & Hx & Hmin). destruct i as [|i]; [by simplify_eq/=|].
        specialize (Hmin 0%nat y ltac:(lia) eq_refl). congruence.
    + rewrite IH. split.
      * intros (i & Hi & Hx & Hmin). exists (S i). split_and!; [done..|].
        intros [|j] z ? Hz; simplify_eq/=; [done|]. eapply Hmin; [|done]. lia.
      * intros (i & Hi & Hx & Hmin). destruct i as [|i]; [simplify_eq/=; congruence|].
        exists i. split_and!; [done..|]. intros j z ? Hz. apply (Hmin (S j)); [lia|done].
Qed.

Lemma find_first_None {A} (f : A → bool) l :
  find_first f l = None ↔ ∀ x, x ∈ l → f x = false.
Proof.
  induction l as [|y l IH]; simpl.
  - split; [|done]. intros _ x ?%elem_of_nil. done.
  - destruct (f y) eqn:Hy.
    + split; [done|]. intros Hf. rewrite Hf in Hy; [done|]. set_solver.
    + rewrite IH. set_unfold. naive_solver.
Qed.

Lemma sum_list_with_insert_lt {A} (f : A → nat) (l : list A) t x y :
  l !! t = Some x → (f y < f x)%nat → (sum_list_with f (<[t := y]> l) < sum_list_with f l)%nat.
Proof.
  revert t. induction l as [|z l IH]; intros [|t] Hx Hy; simplify_eq/=; [lia|].
  specialize (IH _ Hx Hy). lia.
Qed.

Lemma filter_fmap {A B} (f : A → B) (P : B → Prop) `{∀ x, Decision (P x)} (l : list A) :
  filter P (f <$> l) = f <$> filter (λ x, P (f x)) l.
Proof.
  induction l as [|x l IH]; [done|]. rewrite fmap_cons, !filter_cons, IH.
  by repeat case_decide.
Qed.

Lemma filter_ext_in {A} (P Q : A → Prop) `{∀ x, Decision (P x), ∀ x, Decision (Q x)} (l : list A) :
  (∀ x, x ∈ l → (P x ↔ Q x)) → filter P l = filter Q l.
Proof.
  induction l as [|x l IH]; intros Hx; [done|].
  rewrite !filter_cons, IH by (intros; apply Hx; set_solver).
  destruct (Hx x) as [? ?]; [set_solver|].
  repeat case_decide; naive_solver.
Qed.

Lemma filter_all {A} (P : A → Prop) `{∀ x, Decision (P x)} (l : list A) :
  Forall P l → filter P l = l.
Proof. induction 1; [done|]. by rewrite filter_cons_True, IHForall. Qed.

Definition sumZ (l : list Z) : Z := foldr Z.add 0 l.

Lemma sumZ_cons x l : sumZ (x :: l) = x + sumZ l.
Proof. done. Qed.

Lemma sumZ_app l k : sumZ (l ++ k) = sumZ l + sumZ k.
Proof. unfold sumZ. induction l; simpl; lia. Qed.

#[export] Instance sumZ_perm : Proper ((≡ₚ) ==> (=)) sumZ.
Proof. induction 1; simpl in *; unfold sumZ in *; simpl; lia. Qed.

Lemma sumZ_nonneg l : Forall (λ z, 0 <= z) l → 0 <= sumZ l.
Proof. induction 1; unfold sumZ in *; simpl; lia. Qed.

