(* ===== verification/Errors.v ===== *)
(** * Error values

    Models [src/errors.go] ([MultiError]) and [src/transport/errors.go]
    ([ErrNotFound], [ErrRemoteCall] and their [Is] methods), together with the
    standard library's [errors.Is]/[errors.As] on the error shapes the sources
    create: sentinels, [errors.New]/[fmt.Errorf] texts, wrapping errors
    ([fmt.Errorf] with [%w], [url.Error]) and the package's own types. *)

From S2P Require Import Prelude.

(** A Go [error] that is not nil.  A possibly-nil error is an [option error]. *)
Inductive error : Type :=
| Canceled
| DeadlineExceeded
| EOF
| ErrShortWrite
| ErrorString (msg : string)
| WrapError (msg : string) (inner : error)
| ErrNotFound (Msg : string)
| ErrRemoteCall (Msg : string)
| MultiError (errors : list error).

Definition newline : string := String (Ascii.ascii_of_nat 10) EmptyString.

(** [err.Error()]; [MultiError.Error] joins the texts with newlines. *)
Fixpoint Error (err : error) : string :=
  match err with
  | Canceled => "context canceled"
  | DeadlineExceeded => "context deadline exceeded"
  | EOF => "EOF"
  | ErrShortWrite => "short write"
  | ErrorString msg => msg
  | WrapError msg _ => msg
  | ErrNotFound Msg => Msg
  | ErrRemoteCall Msg => Msg
  | MultiError errors =>
      match errors with
      | [] => ""
      | _ => String.concat newline (map Error errors)
      end
  end.

(** [errors.As(target, &e)] for the two pointer types. *)
Fixpoint as_ErrNotFound (target : error) : bool :=
  match target with
  | ErrNotFound _ => true
  | WrapError _ inner => as_ErrNotFound inner
  | _ => false
  end.

Fixpoint as_ErrRemoteCall (target : error) : bool :=
  match target with
  | ErrRemoteCall _ => true
  | WrapError _ inner => as_ErrRemoteCall inner
  | _ => false
  end.

(** Methods [ErrNotFound.Is] and [ErrRemoteCall.Is]; the other errors
    have no such method. *)
Definition ErrNotFound_Is (target : error) : bool := as_ErrNotFound target.
Definition ErrRemoteCall_Is (target : error) : bool := as_ErrRemoteCall target.

Definition is_method (err target : error) : bool :=
  match err with
  | ErrNotFound _ => ErrNotFound_Is target
  | ErrRemoteCall _ => ErrRemoteCall_Is target
  | _ => false
  end.

(** [err == target]: true for the same sentinel; a target built at the call
    ([&ErrNotFound{}]) is a new pointer, different from every error. *)
Definition same_sentinel (err target : error) : bool :=
  match err, target with
  | Canceled, Canceled | DeadlineExceeded, DeadlineExceeded
  | EOF, EOF | ErrShortWrite, ErrShortWrite => true
  | _, _ => false
  end.

Fixpoint errors_Is (err target : error) : bool :=
  same_sentinel err target || is_method err target ||
  match err with
  | WrapError _ inner => errors_Is inner target
  | _ => false
  end.

(** [MultiError]: the accumulating list behind [m.errors]. *)
Definition MultiError_Add (m : list error) (err : option error) : list error :=
  match err with
  | Some e => m ++ [e]
  | None => m
  end.

Definition MultiError_NilOrError (m : list error) : option error :=
  match m with
  | [] => None
  | _ => Some (MultiError m)
  end.

(** The loop [for err := range errCh { m.Add(err) }] over the errors in the
    order the channel delivers them. *)
Definition collect (errs : list (option error)) : option error :=
  MultiError_NilOrError (foldl MultiError_Add [] errs).

(** [x, err := m; if err != nil { return err }; k], for results that are a value
    or an error and for plain errors. *)
Definition or_return {S A B} (m : M S (error + A)) (k : A → M S (error + B)) : M S (error + B) :=
  r ← m;
  match r with
  | inl err => mret (inl err)
  | inr a => k a
  end.

Definition or_return_err {S} (m k : M S (option error)) : M S (option error) :=
  r ← m;
  match r with
  | Some err => mret (Some err)
  | None => k
  end.

(** ** Lemmas *)

Lemma foldl_MultiError_Add m errs :
  foldl MultiError_Add m errs = m ++ omap id errs.
Proof.
  revert m. induction errs as [|[e|] errs IH]; intros m; simpl.
  - by rewrite app_nil_r.
  - rewrite IH. by rewrite <-app_assoc.
  - apply IH.
Qed.

Lemma collect_eq errs : collect errs = MultiError_NilOrError (omap id errs).
Proof. unfold collect. by rewrite foldl_MultiError_Add. Qed.

Lemma collect_None errs : collect errs = None ↔ Forall (.= None) errs.
Proof.
  rewrite collect_eq. induction errs as [|[e|] errs IH]; simpl.
  - split; [constructor|done].
  - rewrite Forall_cons. naive_solver.
  - change (None :: errs) with ([None] ++ errs). rewrite Forall_app, <-IH.
    split; [intros ?; split; [by repeat constructor|done]|naive_solver].
Qed.

(** Whatever order the goroutines deliver their errors in, the same errors are
    reported. *)
Lemma collect_perm errs errs' :
  errs ≡ₚ errs' →
  match collect errs, collect errs' with
  | None, None => True
  | Some (MultiError m), Some (MultiError m') => m ≡ₚ m'
  | _, _ => False
  end.
Proof.
  intros Hp. rewrite !collect_eq.
  assert (omap id errs ≡ₚ omap id errs') as Ho by by rewrite Hp.
  destruct (omap id errs) eqn:E1, (omap id errs') eqn:E2; simpl; [done|..|done].
  - by apply Permutation_nil_cons in Ho.
  - symmetry in Ho. by apply Permutation_nil_cons in Ho.
Qed.

(** [errors.Is(err, &ErrNotFound{})] and its sibling recognise an error at any
    wrapping depth. *)
Lemma errors_Is_NotFound err Msg :
  errors_Is err (ErrNotFound Msg) = as_ErrNotFound err.
Proof. induction err; simpl; try done. Qed.

Lemma errors_Is_RemoteCall err Msg :
  errors_Is err (ErrRemoteCall Msg) = as_ErrRemoteCall err.
Proof. induction err; simpl; try done. Qed.

