(* ===== verification/Slices.v ===== *)
(** * Byte slices

    Go's [[]byte] as the sources use it: a memory of backing arrays shared by
    slices, with [make], [copy], indexing, slicing, [append]-free aliasing and
    the conversions to and from [string].  The operations panic exactly where
    Go's bounds checks do. *)

From S2P Require Import Prelude.

(** The memory: the backing array at address [l] is the [l]-th element, and
    allocation appends. *)
Abbreviation Mem := (list (list byte)).

Record slice : Type := Slice {
  arr : nat;
  off : nat;
  len : nat;
  cap : nat;
}.

#[export] Instance slice_eq_dec : EqDecision slice.
Proof. solve_decision. Defined.
#[export] Instance byte_eq_decision : EqDecision byte := byte_eq_dec.

(** A [[]byte] value; [None] is the nil slice. *)
Abbreviation bytes := (option slice).

Definition array_at (m : Mem) (l : nat) : list byte := default [] (m !! l).

(** The bytes a slice denotes. *)
Definition contents (m : Mem) (b : bytes) : list byte :=
  match b with
  | Some s => take (len s) (drop (off s) (array_at m (arr s)))
  | None => []
  end.

(** [len(b)] *)
Definition blen (b : bytes) : Z :=
  match b with Some s => Z.of_nat (len s) | None => 0 end.

(** A slice that lies inside an allocated array. *)
Definition slice_wf (m : Mem) (s : slice) : Prop :=
  (arr s < length m)%nat ∧ (len s ≤ cap s)%nat ∧
  (off s + cap s ≤ length (array_at m (arr s)))%nat.

Definition bytes_wf (m : Mem) (b : bytes) : Prop :=
  match b with Some s => slice_wf m s | None => True end.

(** Conversions between [string] and its bytes. *)
Definition string_bytes (s : string) : list byte := String.list_byte_of_string s.
Definition bytes_string (l : list byte) : string := String.string_of_list_byte l.

(** A new array holding [l], and the slice over all of it: [[]byte(s)], and
    what a decoder returns for a bytes field. *)
Definition alloc (l : list byte) : M Mem slice := λ m,
  (Val (Slice (length m) 0 (length l) (length l)), m ++ [l]).

(** [make([]byte, n)] for [n >= 0]. *)
Definition make (n : nat) : M Mem slice := alloc (replicate n x00).

(** Writing [l] at the start of slice [s] ([length l <= len s]). *)
Definition write_slice (s : slice) (l : list byte) : M Mem unit := λ m,
  let a := array_at m (arr s) in
  (Val tt, <[arr s := take (off s) a ++ l ++ drop (off s + length l) a]> m).

(** [copy(dst, src)] where the source bytes are [l]; returns the number of
    bytes copied. *)
Definition copy (dst : bytes) (l : list byte) : M Mem Z :=
  match dst with
  | None => mret 0
  | Some s =>
      let n := Nat.min (len s) (length l) in
      _ ← write_slice s (take n l);
      mret (Z.of_nat n)
  end.

(** [b[i]] *)
Definition index (b : bytes) (i : Z) : M Mem byte := λ m,
  if bool_decide (0 <= i < blen b)
  then (match contents m b !! Z.to_nat i with Some x => Val x | None => Panicked end, m)
  else (Panicked, m).

(** [s[i]] of a string. *)
Definition index_string (s : string) (i : Z) : M Mem byte := λ m,
  if bool_decide (0 <= i)
  then (match string_bytes s !! Z.to_nat i with Some x => Val x | None => Panicked end, m)
  else (Panicked, m).

(** [b[from:to]]: the bound is the capacity, not the length. *)
Definition reslice (b : bytes) (from to : Z) : M Mem bytes :=
  match b with
  | None => if bool_decide (from = 0 ∧ to = 0) then mret None else panic
  | Some s =>
      if bool_decide (0 <= from <= to ∧ to <= Z.of_nat (cap s))
      then mret (Some (Slice (arr s) (off s + Z.to_nat from)
                         (Z.to_nat (to - from)) (cap s - Z.to_nat from)))
      else panic
  end.

(** [b[from:]] *)
Definition reslice_from (b : bytes) (from : Z) : M Mem bytes := reslice b from (blen b).

(** [s[from:to]] and [s[from:]] of a string: the bound is the length. *)
Definition substring (s : string) (from to : Z) : M Mem string :=
  if bool_decide (0 <= from <= to ∧ to <= Z.of_nat (String.length s))
  then mret (bytes_string (take (Z.to_nat (to - from)) (drop (Z.to_nat from) (string_bytes s))))
  else panic.

Definition substring_from (s : string) (from : Z) : M Mem string :=
  substring s from (Z.of_nat (String.length s)).

(** ** Lemmas *)

Lemma bytes_string_bytes s : bytes_string (string_bytes s) = s.
Proof. apply String.string_of_list_byte_of_string. Qed.
Lemma string_bytes_string l : string_bytes (bytes_string l) = l.
Proof. apply String.list_byte_of_string_of_list_byte. Qed.
Lemma string_bytes_inj s t : string_bytes s = string_bytes t → s = t.
Proof. intros H. by rewrite <-(bytes_string_bytes s), H, bytes_string_bytes. Qed.

Lemma length_string_bytes s : length (string_bytes s) = String.length s.
Proof.
  unfold string_bytes, String.list_byte_of_string. rewrite length_map.
  induction s; simpl; [done|]. f_equal. apply IHs.
Qed.

Lemma array_at_app m l i : (i < length m)%nat → array_at (m ++ l) i = array_at m i.
Proof. intros ?. unfold array_at. by rewrite lookup_app_l. Qed.

Lemma array_at_app_new m l : array_at (m ++ [l]) (length m) = l.
Proof. unfold array_at. by rewrite list_lookup_middle. Qed.

Lemma array_at_insert_eq m i a :
  (i < length m)%nat → array_at (<[i:=a]> m) i = a.
Proof. intros ?. unfold array_at. by rewrite list_lookup_insert_eq. Qed.

Lemma array_at_insert_ne m i j a :
  i ≠ j → array_at (<[i:=a]> m) j = array_at m j.
Proof. intros ?. unfold array_at. by rewrite list_lookup_insert_ne. Qed.

Lemma length_contents m b : bytes_wf m b → Z.of_nat (length (contents m b)) = blen b.
Proof.
  destruct b as [s|]; simpl; [|done]. unfold slice_wf.
  rewrite length_take, length_drop. lia.
Qed.

(** Allocation keeps what every existing slice denotes. *)
Lemma contents_alloc m l b : bytes_wf m b → contents (m ++ [l]) b = contents m b.
Proof.
  destruct b as [s|]; simpl; [|done]. unfold slice_wf.
  intros (? & _ & _). by rewrite array_at_app.
Qed.

Lemma bytes_wf_alloc m l b : bytes_wf m b → bytes_wf (m ++ [l]) b.
Proof.
  destruct b as [s|]; simpl; [|done]. unfold slice_wf.
  intros (? & ? & ?). rewrite array_at_app, length_app by done. simpl. lia.
Qed.

Lemma alloc_new m l :
  let s := Slice (length m) 0 (length l) (length l) in
  slice_wf (m ++ [l]) s ∧ contents (m ++ [l]) (Some s) = l.
Proof.
  unfold slice_wf. simpl. rewrite array_at_app_new, drop_0, length_app. simpl.
  split; [lia|]. by rewrite take_ge.
Qed.

Lemma length_write_array m s l :
  slice_wf m s → (length l ≤ len s)%nat →
  length (take (off s) (array_at m (arr s)) ++ l ++ drop (off s + length l) (array_at m (arr s)))
  = length (array_at m (arr s)).
Proof.
  unfold slice_wf. intros. rewrite !length_app, length_take, length_drop. lia.
Qed.

(** What a write leaves in the slice written to: the new bytes, then the old
    ones. *)
Lemma contents_write m s l :
  slice_wf m s → (length l ≤ len s)%nat →
  contents (write_slice s l m).2 (Some s) = l ++ drop (length l) (contents m (Some s)).
Proof.
  intros Hwf Hl. destruct Hwf as (Ha & Hc & Ho). simpl.
  rewrite array_at_insert_eq by done.
  rewrite drop_app_ge by (rewrite length_take; lia).
  rewrite length_take, Nat.min_l by lia. rewrite Nat.sub_diag, drop_0.
  rewrite take_app_ge by lia. f_equal.
  rewrite skipn_firstn_comm, !drop_drop. done.
Qed.

(** A write to one array leaves the slices of the others alone. *)
Lemma contents_write_other m s l b :
  match b with Some t => arr t ≠ arr s | None => True end →
  contents (write_slice s l m).2 b = contents m b.
Proof.
  destruct b as [t|]; simpl; [|done]. intros. by rewrite array_at_insert_ne.
Qed.

Lemma bytes_wf_write m s l b :
  slice_wf m s → (length l ≤ len s)%nat → bytes_wf m b → bytes_wf (write_slice s l m).2 b.
Proof.
  intros Hs Hl. destruct b as [t|]; simpl; [|done]. unfold slice_wf at 1 2.
  rewrite length_insert. intros (? & ? & ?). split_and!; [done..|].
  destruct (decide (arr s = arr t)) as [He|He].
  - rewrite <-He, array_at_insert_eq by (destruct Hs; lia).
    rewrite length_write_array by done. by rewrite He.
  - by rewrite array_at_insert_ne.
Qed.

#[export] Hint Resolve bytes_wf_alloc bytes_wf_write : groupcache.
