(* ===== verification/ByteView.v ===== *)
(** * Byte views

    Models [src/transport/byteview.go] (all of it but [Reader], which only
    wraps the bytes in a standard-library reader) and [cloneBytes] of
    [src/transport/sinks.go].  A view is a pair of a possibly-nil slice and a
    string, of which the slice wins when it is not nil; the theorems show that
    this detail is invisible: every operation depends on the bytes the view
    denotes and not on which of the two fields holds them. *)

From S2P Require Import Prelude Errors Slices.

Record ByteView : Type := mkByteView {
  bv_b : bytes;
  bv_s : string;
  bv_e : Time;
}.

(** The zero value [ByteView{}]. *)
Definition zero_view : ByteView := mkByteView None "" zero_time.

(** The dynamic types [ByteViewFrom] can meet. *)
Inductive any : Type :=
| AnyBytes (b : bytes)
| AnyString (s : string)
| AnyOther.

Definition ByteViewFrom (x : any) : M Mem ByteView :=
  match x with
  | AnyBytes b => mret (mkByteView b "" zero_time)
  | AnyString s => mret (mkByteView None s zero_time)
  | AnyOther => panic
  end.

Definition ByteViewWithExpire (b : bytes) (expire : Time) : ByteView :=
  mkByteView b "" expire.

Definition Expire (v : ByteView) : Time := bv_e v.

Definition Len (v : ByteView) : Z :=
  match bv_b v with
  | Some _ => blen (bv_b v)
  | None => Z.of_nat (String.length (bv_s v))
  end.

(** [cloneBytes]: [c := make([]byte, len(b)); copy(c, b); return c]. *)
Definition cloneBytes (b : bytes) : M Mem slice :=
  c ← make (Z.to_nat (blen b));
  m ← get_state;
  _ ← copy (Some c) (contents m b);
  mret c.

Definition ByteSlice (v : ByteView) : M Mem slice :=
  match bv_b v with
  | Some _ => cloneBytes (bv_b v)
  | None => alloc (string_bytes (bv_s v))
  end.

(** [ByteView.String] *)
Definition View_String (v : ByteView) : M Mem string :=
  match bv_b v with
  | Some _ => m ← get_state; mret (bytes_string (contents m (bv_b v)))
  | None => mret (bv_s v)
  end.

Definition At (v : ByteView) (i : Z) : M Mem byte :=
  match bv_b v with
  | Some _ => index (bv_b v) i
  | None => index_string (bv_s v) i
  end.

(** [ByteView.Slice]; the resulting view has no expiration. *)
Definition View_Slice (v : ByteView) (from to : Z) : M Mem ByteView :=
  match bv_b v with
  | Some _ => b ← reslice (bv_b v) from to; mret (mkByteView b "" zero_time)
  | None => s ← substring (bv_s v) from to; mret (mkByteView None s zero_time)
  end.

Definition SliceFrom (v : ByteView) (from : Z) : M Mem ByteView :=
  match bv_b v with
  | Some _ => b ← reslice_from (bv_b v) from; mret (mkByteView b "" zero_time)
  | None => s ← substring_from (bv_s v) from; mret (mkByteView None s zero_time)
  end.

(** [ByteView.Copy] *)
Definition View_Copy (v : ByteView) (dest : bytes) : M Mem Z :=
  match bv_b v with
  | Some _ => m ← get_state; copy dest (contents m (bv_b v))
  | None => copy dest (string_bytes (bv_s v))
  end.

(** The loop [for i, bi := range bs { if bi != s[i] { return false } }]. *)
Fixpoint range_neq (bs : list byte) (s : string) (i : Z) : M Mem bool :=
  match bs with
  | [] => mret true
  | bi :: bs =>
      si ← index_string s i;
      if decide (bi = si) then range_neq bs s (i + 1) else mret false
  end.

Definition EqualString (v : ByteView) (s : string) : M Mem bool :=
  match bv_b v with
  | None => mret (String.eqb (bv_s v) s)
  | Some _ =>
      let l := Len v in
      if decide (Z.of_nat (String.length s) = l)
      then m ← get_state; range_neq (contents m (bv_b v)) s 0
      else mret false
  end.

Definition EqualBytes (v : ByteView) (b2 : bytes) : M Mem bool :=
  match bv_b v with
  | Some _ => m ← get_state; mret (bool_decide (contents m (bv_b v) = contents m b2))
  | None =>
      let l := Len v in
      if decide (blen b2 = l)
      then m ← get_state; range_neq (contents m b2) (bv_s v) 0
      else mret false
  end.

Definition Equal (v b2 : ByteView) : M Mem bool :=
  match bv_b b2 with
  | None => EqualString v (bv_s b2)
  | Some _ => EqualBytes v (bv_b b2)
  end.

Definition ReadAt (v : ByteView) (p : bytes) (off : Z) : M Mem (Z * option error) :=
  if decide (off < 0) then mret (0, Some (ErrorString "view: invalid offset"))
  else if decide (Len v <= off) then mret (0, Some EOF)
  else
    w ← SliceFrom v off;
    n ← View_Copy w p;
    mret (n, if decide (n < blen p) then Some EOF else None).

(** [WriteTo]: [Write] is the writer's method (its count and error for the
    bytes handed to it). *)
Definition WriteTo (v : ByteView) (Write : list byte → Z * option error)
  : M Mem (Z * option error) :=
  m ← get_state;
  let '(n, err) :=
    match bv_b v with
    | Some _ => Write (contents m (bv_b v))
    | None => Write (string_bytes (bv_s v))
    end in
  let err := match err with
             | None => if decide (n < Len v) then Some ErrShortWrite else None
             | Some _ => err
             end in
  mret (n, err).

(** ** What a view denotes *)

Definition view_bytes (m : Mem) (v : ByteView) : list byte :=
  match bv_b v with
  | Some _ => contents m (bv_b v)
  | None => string_bytes (bv_s v)
  end.

Definition view_wf (m : Mem) (v : ByteView) : Prop := bytes_wf m (bv_b v).

(** [Reader]: a [bytes.Reader] or a [strings.Reader] at its start. *)
Record byte_reader := mkReader { rd_source : ByteView; rd_pos : nat }.
Definition Reader (v : ByteView) : byte_reader :=
  match bv_b v with
  | Some _ => mkReader (mkByteView (bv_b v) "" zero_time) 0
  | None => mkReader (mkByteView None (bv_s v) zero_time) 0
  end.

(** [Read] of such a reader: at the end EOF, else a copy of what fits. *)
Definition Reader_Read (r : byte_reader) (p : bytes) : M Mem (byte_reader * (Z * option error)) :=
  m ← get_state;
  let data := drop (rd_pos r) (view_bytes m (rd_source r)) in
  if bool_decide (data = []) then mret (r, (0, Some EOF)) else
  n ← copy p data;
  mret (mkReader (rd_source r) (rd_pos r + Z.to_nat n), (n, None)).

Lemma Len_view m v : view_wf m v → Len v = Z.of_nat (length (view_bytes m v)).
Proof.
  unfold view_wf, Len, view_bytes. destruct (bv_b v) as [s|]; intros Hwf.
  - by rewrite length_contents.
  - by rewrite length_string_bytes.
Qed.

Lemma Len_nonneg v : 0 <= Len v.
Proof. unfold Len, blen. destruct (bv_b v); lia. Qed.

Lemma view_wf_alloc m l v : view_wf m v → view_wf (m ++ [l]) v.
Proof. apply bytes_wf_alloc. Qed.

Lemma view_bytes_alloc m l v : view_wf m v → view_bytes (m ++ [l]) v = view_bytes m v.
Proof.
  unfold view_wf, view_bytes. destruct (bv_b v) as [s|] eqn:E; [|done].
  intros. by rewrite contents_alloc.
Qed.

(** A write through a slice of another array does not show in the view. *)
Lemma view_bytes_write m s l v :
  match bv_b v with Some t => arr t ≠ arr s | None => True end →
  view_bytes (write_slice s l m).2 v = view_bytes m v.
Proof.
  unfold view_bytes. destruct (bv_b v) as [t|]; [|done].
  intros. by apply contents_write_other.
Qed.

Lemma range_neq_spec bs s i m :
  length bs = (String.length s - i)%nat → (i ≤ String.length s)%nat →
  range_neq bs s (Z.of_nat i) m = (Val (bool_decide (bs = drop i (string_bytes s))), m).
Proof.
  revert i. induction bs as [|x bs IH]; intros i Hlen Hi; simpl in *.
  - rewrite drop_ge by (rewrite length_string_bytes; lia). by rewrite bool_decide_eq_true_2.
  - destruct (lookup_lt_is_Some_2 (string_bytes s) i) as [y Hy].
    { rewrite length_string_bytes. lia. }
    erewrite M_bind_val; [|unfold index_string; rewrite bool_decide_eq_true_2 by lia;
                           rewrite Nat2Z.id, Hy; done].
    rewrite (drop_S _ y i) by done. destruct (decide (x = y)) as [->|Hne].
    + replace (Z.of_nat i + 1) with (Z.of_nat (S i)) by lia.
      rewrite IH by lia. do 2 f_equal. apply bool_decide_ext. naive_solver.
    + rewrite bool_decide_eq_false_2; [done|naive_solver].
Qed.

(** [cloneBytes] allocates a new array with the same contents. *)
Lemma cloneBytes_spec m b :
  bytes_wf m b →
  cloneBytes b m =
    (Val (Slice (length m) 0 (Z.to_nat (blen b)) (Z.to_nat (blen b))), m ++ [contents m b]).
Proof.
  intros Hwf. unfold cloneBytes, make, alloc, mbind, M_bind. simpl.
  rewrite !length_replicate, contents_alloc by done.
  pose proof (length_contents m b Hwf) as Hl.
  replace (Z.to_nat (blen b)) with (length (contents m b)) by lia.
  rewrite Nat.min_id. f_equal.
  rewrite take_ge, array_at_app_new by done. simpl.
  rewrite drop_ge by (rewrite length_replicate; lia).
  rewrite app_nil_r, insert_app_r_alt by lia. by rewrite Nat.sub_diag.
Qed.

Lemma contents_reslice m s from to :
  0 <= from <= to → to <= Z.of_nat (len s) →
  contents m (Some (Slice (arr s) (off s + Z.to_nat from)
                      (Z.to_nat (to - from)) (cap s - Z.to_nat from)))
  = take (Z.to_nat (to - from)) (drop (Z.to_nat from) (contents m (Some s))).
Proof.
  intros. simpl. rewrite skipn_firstn_comm, drop_drop, take_take. f_equal. lia.
Qed.

(** In-range slicing succeeds and denotes the sub-range, whichever field holds
    the bytes. *)
Lemma View_Slice_in_range m v from to :
  view_wf m v → 0 <= from <= to → to <= Len v →
  ∃ w, View_Slice v from to m = (Val w, m) ∧ view_wf m w ∧ Expire w = zero_time ∧
       Len w = to - from ∧
       view_bytes m w = take (Z.to_nat (to - from)) (drop (Z.to_nat from) (view_bytes m v)).
Proof.
  unfold view_wf, View_Slice, view_bytes, Len. intros Hwf Hf Ht.
  destruct (bv_b v) as [s|] eqn:E; simpl in *.
  - destruct Hwf as (? & ? & ?).
    rewrite bool_decide_eq_true_2 by lia. eexists. split; [done|]. simpl.
    split_and!; [split_and!; simpl; lia|done|lia|].
    by apply (contents_reslice m s from to).
  - unfold substring. rewrite bool_decide_eq_true_2 by lia.
    eexists. split; [done|]. simpl. split_and!; [done..| |].
    + rewrite <-length_string_bytes, string_bytes_string, length_take, length_drop,
        length_string_bytes. lia.
    + by rewrite string_bytes_string.
Qed.

Lemma SliceFrom_eq v from m : SliceFrom v from m = View_Slice v from (Len v) m.
Proof.
  unfold SliceFrom, View_Slice, reslice_from, substring_from, Len.
  by destruct (bv_b v).
Qed.

(** [copy] into a slice: the prefix is replaced, the rest kept. *)
Lemma copy_spec m p l :
  bytes_wf m p →
  ∃ m', copy p l m = (Val (Z.min (blen p) (Z.of_nat (length l))), m') ∧
        contents m' p = take (Z.to_nat (blen p)) l ++ drop (length l) (contents m p) ∧
        (∀ b, bytes_wf m b → bytes_wf m' b) ∧
        (∀ b, match b, p with Some t, Some s => arr t ≠ arr s | _, _ => True end →
              contents m' b = contents m b).
Proof.
  destruct p as [s|]; intros Hwf; simpl in *.
  - eexists. split.
    { unfold mbind, M_bind. simpl. unfold mret, M_ret. f_equal. f_equal. lia. }
    set (l' := take (len s `min` length l)%nat l).
    assert (length l' = len s `min` length l)%nat as Hl'
      by (unfold l'; rewrite length_take; lia).
    assert (length l' ≤ len s)%nat by lia.
    pose proof (length_contents m (Some s) Hwf) as Hlc.
    change (length (contents m (Some s))) with
      (length (take (len s) (drop (off s) (array_at m (arr s))))) in Hlc. simpl in Hlc.
    split_and!.
    + change (contents (write_slice s l' m).2 (Some s) =
        take (Z.to_nat (Z.of_nat (len s))) l ++ drop (length l) (contents m (Some s))).
      rewrite contents_write by done. unfold l'. rewrite Nat2Z.id.
      destruct (decide (len s ≤ length l)%nat).
      * rewrite Nat.min_l by done. f_equal.
        rewrite length_take, Nat.min_l by done. rewrite !drop_ge; simpl; [done|lia|lia].
      * rewrite Nat.min_r by lia. rewrite !take_ge by lia. done.
    + intros b Hb. by apply (bytes_wf_write m s l' b).
    + intros b Hb. apply (contents_write_other m s l' b). by destruct b.
  - exists m. rewrite Z.min_l by lia. split_and!; [done|by rewrite drop_nil|done|done].
Qed.

(** A [Read] delivers the next bytes of the view and leaves the rest. *)
Lemma Reader_Read_spec m r p :
  bytes_wf m p → let data := drop (rd_pos r) (view_bytes m (rd_source r)) in
  let n := Z.min (blen p) (Z.of_nat (length data)) in data ≠ [] →
  ∃ m', Reader_Read r p m = (Val (mkReader (rd_source r) (rd_pos r + Z.to_nat n), (n, None)), m') ∧
    take (Z.to_nat n) (contents m' p) = take (Z.to_nat n) data.
Proof.
  intros Hwf data n Hd. destruct (copy_spec m p data Hwf) as (m' & Hc & Hct & _).
  exists m'. split.
  - unfold Reader_Read. mstep. cbv zeta. rewrite bool_decide_false by done. by mstep Hc.
  - rewrite Hct. rewrite take_app_le by (rewrite length_take; unfold n; lia).
    rewrite take_take. f_equal. unfold n. lia.
Qed.

(** ** Theorems *)

(** The representation of a view is invisible: the length, the text, the byte
    at an index (with the bounds panic) and the bytes returned by [ByteSlice]
    are functions of the bytes the view denotes. *)
Theorem view_observations (m : Mem) (v : ByteView) (Hwf : view_wf m v) :
  Len v = Z.of_nat (length (view_bytes m v)) ∧
  View_String v m = (Val (bytes_string (view_bytes m v)), m) ∧
  (∀ i, At v i m =
     (if decide (0 <= i)
      then match view_bytes m v !! Z.to_nat i with Some x => Val x | None => Panicked end
      else Panicked, m)) ∧
  (∃ c m', ByteSlice v m = (Val c, m') ∧ contents m' (Some c) = view_bytes m v).
Proof.
  split_and!.
  - by apply Len_view.
  - unfold View_String, view_bytes. destruct (bv_b v); [done|].
    by rewrite bytes_string_bytes.
  - intros i. pose proof (Len_view m v Hwf) as HL. revert HL.
    unfold At, view_bytes, index, index_string, Len. destruct (bv_b v) as [s|]; intros HL.
    + destruct (decide (0 <= i)); [|by rewrite bool_decide_eq_false_2 by lia].
      case_bool_decide; [done|]. rewrite lookup_ge_None_2; [done|lia].
    + destruct (decide (0 <= i)).
      * by rewrite bool_decide_eq_true_2.
      * by rewrite bool_decide_eq_false_2.
  - unfold ByteSlice, view_bytes. destruct (bv_b v) as [s|] eqn:E.
    + rewrite cloneBytes_spec by (unfold view_wf in Hwf; by rewrite E in Hwf).
      eexists _, _. split; [done|].
      pose proof (length_contents m (Some s)) as Hl. unfold view_wf in Hwf. rewrite E in Hwf.
      specialize (Hl Hwf).
      pose proof (alloc_new m (contents m (Some s))) as [_ Hn].
      replace (Z.to_nat (blen (Some s))) with (length (contents m (Some s))) by lia.
      exact Hn.
    + eexists _, _. split; [done|].
      pose proof (alloc_new m (string_bytes (bv_s v))) as [_ Hn]. exact Hn.
Qed.

Lemma view_observations_witness :
  View_String (mkByteView None "ab" 0) [] = (Val "ab", []).
Proof. apply (view_observations [] (mkByteView None "ab" 0)). exact I. Defined.

(** [Equal] decides equality of the denoted bytes, for all four combinations of
    slice- and string-backed views, and never panics. *)
Theorem Equal_correct (m : Mem) (v b2 : ByteView) (Hv : view_wf m v) (Hb2 : view_wf m b2) :
  Equal v b2 m = (Val (bool_decide (view_bytes m v = view_bytes m b2)), m).
Proof.
  unfold Equal, EqualString, EqualBytes.
  pose proof (Len_view m v Hv) as HL. pose proof (Len_view m b2 Hb2) as HL2.
  revert HL HL2. unfold Len, view_bytes.
  destruct (bv_b b2) as [s2|] eqn:E2, (bv_b v) as [s1|] eqn:E1; intros HL HL2.
  - done.
  - case_decide as Hd; cycle 1.
    { rewrite bool_decide_eq_false_2; [done|]. intros Heq. rewrite Heq in HL. lia. }
    change (range_neq (contents m (Some s2)) (bv_s v) (Z.of_nat 0) m = (Val (bool_decide (string_bytes (bv_s v) = contents m (Some s2))), m)).
    rewrite range_neq_spec by lia. rewrite drop_0. do 2 f_equal. by apply bool_decide_ext.
  - case_decide as Hd; cycle 1.
    { rewrite bool_decide_eq_false_2; [done|]. intros Heq. rewrite Heq in HL. lia. }
    change (range_neq (contents m (Some s1)) (bv_s b2) (Z.of_nat 0) m = (Val (bool_decide (contents m (Some s1) = string_bytes (bv_s b2))), m)).
    rewrite range_neq_spec by lia. by rewrite drop_0.
  - unfold mret, M_ret. do 2 f_equal. destruct (String.eqb_spec (bv_s v) (bv_s b2)) as [->|Hne].
    + by rewrite bool_decide_eq_true_2.
    + rewrite bool_decide_eq_false_2; [done|]. intros ?. by apply Hne, string_bytes_inj.
Qed.

Lemma Equal_correct_witness :
  Equal (mkByteView (Some (Slice 0 0 2 2)) "" 0) (mkByteView None "ab" 0) [[x61; x62]]
  = (Val true, [[x61; x62]]).
Proof.
  rewrite (Equal_correct [[x61; x62]]); [reflexivity| |exact I].
  unfold view_wf, bytes_wf, slice_wf; simpl; lia.
Defined.

(** [ReadAt] from an offset inside the view: it copies
    [min(len(p), Len() - off)] bytes of the view into the front of [p], keeps
    the rest of [p], and reports [io.EOF] exactly when it could not fill [p]. *)
Theorem ReadAt_correct (m : Mem) (v : ByteView) (p : bytes) (off : Z)
  (Hv : view_wf m v) (Hp : bytes_wf m p) (Hoff : 0 <= off < Len v) :
  ∃ m', let n := Z.min (blen p) (Len v - off) in
    ReadAt v p off m = (Val (n, if decide (n < blen p) then Some EOF else None), m') ∧
    contents m' p = take (Z.to_nat n) (drop (Z.to_nat off) (view_bytes m v))
                    ++ drop (Z.to_nat n) (contents m p).
Proof.
  destruct (View_Slice_in_range m v off (Len v) Hv) as (w & Hw & Hwwf & _ & HwL & Hwb);
    [lia..|].
  destruct (copy_spec m p (view_bytes m w) Hp) as (m' & Hc & Hct & _).
  pose proof (Len_view m w Hwwf) as HL.
  pose proof (length_contents m p Hp) as Hpl.
  exists m'. simpl. split.
  - unfold ReadAt. rewrite decide_False, decide_False by lia.
    erewrite M_bind_val; [|by rewrite SliceFrom_eq].
    assert (View_Copy w p m = copy p (view_bytes m w) m) as HVC
      by (unfold View_Copy, view_bytes; by destruct (bv_b w)).
    erewrite M_bind_val; [|rewrite HVC; exact Hc].
    unfold mret, M_ret. by rewrite <-HL, HwL.
  - rewrite Hct, Hwb. rewrite take_take, length_take, length_drop.
    pose proof (Len_view m v Hv). f_equal.
    + f_equal. lia.
    + destruct (decide (blen p <= Len v - off)).
      * rewrite !drop_ge by lia. done.
      * f_equal. lia.
Qed.

Lemma ReadAt_correct_witness :
  ∃ m', ReadAt (mkByteView None "hello" 0) (Some (Slice 0 0 4 4)) 3 [[x00; x01; x02; x03]]
        = (Val (2, Some EOF), m') ∧
        contents m' (Some (Slice 0 0 4 4)) = [x6c; x6f; x02; x03].
Proof.
  destruct (ReadAt_correct [[x00; x01; x02; x03]] (mkByteView None "hello" 0)
              (Some (Slice 0 0 4 4)) 3) as (m' & H1 & H2).
  - exact I.
  - unfold bytes_wf, slice_wf; simpl; lia.
  - unfold Len; simpl; lia.
  - exists m'. split; [exact H1|exact H2].
Defined.



(** Past the end of the view the two representations do differ: a slice-backed
    view whose slice has spare capacity yields the bytes behind its end, while
    a string-backed view with the same bytes panics. *)
Theorem View_Slice_past_end_differs :
  let m := [[x61; x62; x63]] in
  let v := mkByteView (Some (Slice 0 0 2 3)) "" zero_time in
  let v' := mkByteView None "ab" zero_time in
  view_wf m v ∧ view_wf m v' ∧ view_bytes m v = view_bytes m v' ∧
  (∃ w, View_Slice v 0 3 m = (Val w, m) ∧ view_bytes m w = [x61; x62; x63]) ∧
  View_Slice v' 0 3 m = (Panicked, m).
Proof.
  simpl. split_and!; try done.
  - unfold view_wf, bytes_wf, slice_wf; simpl; lia.
  - eexists. split; [reflexivity|]. reflexivity.
Qed.
