(* ===== verification/Sinks.v ===== *)
(** * Sinks

    Models [src/transport/sinks.go].  A sink is the value behind the [Sink]
    interface: one constructor per implementation, holding the variable its
    destination pointer points to and the encoded view it keeps for caching.
    [proto.Message], [proto.Marshal] and [proto.Unmarshal] belong to the
    protobuf library: they are the interface [Proto]. *)

From S2P Require Import Prelude Errors Slices ByteView.

(** What the sinks use of google.golang.org/protobuf: [Marshal] returns new
    bytes (or a nil slice) or an error; [Unmarshal] fills the destination
    message, possibly partially when it fails. *)
Class Proto (message : Type) := {
  Marshal : message → error + option (list byte);
  Unmarshal : list byte → message → option error * message;
}.

Section Sinks.
Context `{Proto message}.

(** [sp] may be a nil pointer; otherwise it points to a [string] variable. *)
Record stringSink : Type := mkStringSink {
  ss_sp : option string;
  ss_v : ByteView;
}.

Record byteViewSink : Type := mkByteViewSink {
  bs_dst : ByteView;        (* the view behind dst *)
}.

Record protoSink : Type := mkProtoSink {
  ps_dst : message;
  ps_v : ByteView;
}.

(** [dst] may be a nil pointer; otherwise it points to a [[]byte] variable. *)
Record allocBytesSink : Type := mkAllocBytesSink {
  as_dst : option bytes;
  as_v : ByteView;
}.

Record truncBytesSink : Type := mkTruncBytesSink {
  ts_dst : option bytes;
  ts_v : ByteView;
}.

Inductive Sink : Type :=
| SStringSink (s : stringSink)
| SByteViewSink (s : byteViewSink)
| SProtoSink (s : protoSink)
| SAllocBytesSink (s : allocBytesSink)
| STruncBytesSink (s : truncBytesSink).

(** Constructors of the sinks. *)
Definition StringSink (sp : option string) : Sink := SStringSink (mkStringSink sp zero_view).
Definition ByteViewSink (dst : option ByteView) : M Mem Sink :=
  match dst with
  | None => panic
  | Some d => mret (SByteViewSink (mkByteViewSink d))
  end.
Definition ProtoSink (m : message) : Sink := SProtoSink (mkProtoSink m zero_view).
Definition AllocatingByteSliceSink (dst : option bytes) : Sink :=
  SAllocBytesSink (mkAllocBytesSink dst zero_view).
Definition TruncatingByteSliceSink (dst : option bytes) : Sink :=
  STruncBytesSink (mkTruncBytesSink dst zero_view).

(** [View()] *)
Definition View (k : Sink) : ByteView :=
  match k with
  | SStringSink s => ss_v s
  | SByteViewSink s => bs_dst s
  | SProtoSink s => ps_v s
  | SAllocBytesSink s => as_v s
  | STruncBytesSink s => ts_v s
  end.

(** A set operation returns the updated sink and the error, if any. *)
Abbreviation set_op := (M Mem (Sink * option error)).

(** *** stringSink *)
Definition stringSink_SetString (s : stringSink) (v : string) (e : Time) : set_op :=
  match ss_sp s with
  | None => panic
  | Some _ => mret (SStringSink (mkStringSink (Some v) (mkByteView None v e)), None)
  end.

Definition stringSink_SetBytes (s : stringSink) (v : bytes) (e : Time) : set_op :=
  m ← get_state; stringSink_SetString s (bytes_string (contents m v)) e.

(** The slice [proto.Marshal] returns. *)
Definition marshalled (o : option (list byte)) : M Mem bytes :=
  match o with
  | Some l => c ← alloc l; mret (Some c)
  | None => mret None
  end.

Definition stringSink_SetProto (s : stringSink) (p : message) (e : Time) : set_op :=
  match Marshal p with
  | inl err => mret (SStringSink s, Some err)
  | inr o =>
      b ← marshalled o;
      m ← get_state;
      match ss_sp s with
      | None => panic
      | Some _ => mret (SStringSink (mkStringSink (Some (bytes_string (contents m b)))
                                       (mkByteView b (bv_s (ss_v s)) e)), None)
      end
  end.

(** *** byteViewSink *)
Definition byteViewSink_setView (s : byteViewSink) (v : ByteView) : set_op :=
  mret (SByteViewSink (mkByteViewSink v), None).

Definition byteViewSink_SetProto (s : byteViewSink) (p : message) (e : Time) : set_op :=
  match Marshal p with
  | inl err => mret (SByteViewSink s, Some err)
  | inr o => b ← marshalled o; mret (SByteViewSink (mkByteViewSink (mkByteView b "" e)), None)
  end.

Definition byteViewSink_SetBytes (s : byteViewSink) (b : bytes) (e : Time) : set_op :=
  c ← cloneBytes b;
  mret (SByteViewSink (mkByteViewSink (mkByteView (Some c) "" e)), None).

Definition byteViewSink_SetString (s : byteViewSink) (v : string) (e : Time) : set_op :=
  mret (SByteViewSink (mkByteViewSink (mkByteView None v e)), None).

(** *** protoSink *)
Definition protoSink_SetBytes (s : protoSink) (b : bytes) (e : Time) : set_op :=
  m ← get_state;
  let '(err, dst) := Unmarshal (contents m b) (ps_dst s) in
  match err with
  | Some err => mret (SProtoSink (mkProtoSink dst (ps_v s)), Some err)
  | None => c ← cloneBytes b; mret (SProtoSink (mkProtoSink dst (mkByteView (Some c) "" e)), None)
  end.

Definition protoSink_SetString (s : protoSink) (v : string) (e : Time) : set_op :=
  b ← alloc (string_bytes v);
  let '(err, dst) := Unmarshal (string_bytes v) (ps_dst s) in
  match err with
  | Some err => mret (SProtoSink (mkProtoSink dst (ps_v s)), Some err)
  | None => mret (SProtoSink (mkProtoSink dst (mkByteView (Some b) "" e)), None)
  end.

Definition protoSink_SetProto (s : protoSink) (p : message) (e : Time) : set_op :=
  match Marshal p with
  | inl err => mret (SProtoSink s, Some err)
  | inr o =>
      b ← marshalled o;
      m ← get_state;
      let '(err, dst) := Unmarshal (contents m b) (ps_dst s) in
      match err with
      | Some err => mret (SProtoSink (mkProtoSink dst (ps_v s)), Some err)
      | None => mret (SProtoSink (mkProtoSink dst (mkByteView b "" e)), None)
      end
  end.

(** *** allocBytesSink *)
Definition allocBytesSink_setView (s : allocBytesSink) (v : ByteView) : set_op :=
  match as_dst s with
  | None => panic
  | Some _ =>
      c ← (match bv_b v with
           | Some _ => cloneBytes (bv_b v)
           | None => alloc (string_bytes (bv_s v))
           end);
      mret (SAllocBytesSink (mkAllocBytesSink (Some (Some c)) v), None)
  end.

Definition allocBytesSink_setBytesOwned (s : allocBytesSink) (b : bytes) (e : Time) : set_op :=
  match as_dst s with
  | None => mret (SAllocBytesSink s,
                  Some (ErrorString "nil AllocatingByteSliceSink *[]byte dst"))
  | Some _ =>
      c ← cloneBytes b;
      mret (SAllocBytesSink (mkAllocBytesSink (Some (Some c)) (mkByteView b "" e)), None)
  end.

Definition allocBytesSink_SetProto (s : allocBytesSink) (p : message) (e : Time) : set_op :=
  match Marshal p with
  | inl err => mret (SAllocBytesSink s, Some err)
  | inr o => b ← marshalled o; allocBytesSink_setBytesOwned s b e
  end.

Definition allocBytesSink_SetBytes (s : allocBytesSink) (b : bytes) (e : Time) : set_op :=
  c ← cloneBytes b; allocBytesSink_setBytesOwned s (Some c) e.

Definition allocBytesSink_SetString (s : allocBytesSink) (v : string) (e : Time) : set_op :=
  match as_dst s with
  | None => mret (SAllocBytesSink s,
                  Some (ErrorString "nil AllocatingByteSliceSink *[]byte dst"))
  | Some _ =>
      c ← alloc (string_bytes v);
      mret (SAllocBytesSink (mkAllocBytesSink (Some (Some c)) (mkByteView None v e)), None)
  end.

(** *** truncBytesSink *)

(** [n := copy(dst, src); if n < len(dst) { dst = dst[:n] }] *)
Definition trunc_copy (dst : bytes) (src : list byte) : M Mem bytes :=
  n ← copy dst src;
  if decide (n < blen dst) then reslice dst 0 n else mret dst.

Definition truncBytesSink_setBytesOwned (s : truncBytesSink) (b : bytes) (e : Time) : set_op :=
  match ts_dst s with
  | None => mret (STruncBytesSink s,
                  Some (ErrorString "nil TruncatingByteSliceSink *[]byte dst"))
  | Some d =>
      m ← get_state;
      d' ← trunc_copy d (contents m b);
      mret (STruncBytesSink (mkTruncBytesSink (Some d') (mkByteView b "" e)), None)
  end.

Definition truncBytesSink_SetProto (s : truncBytesSink) (p : message) (e : Time) : set_op :=
  match Marshal p with
  | inl err => mret (STruncBytesSink s, Some err)
  | inr o => b ← marshalled o; truncBytesSink_setBytesOwned s b e
  end.

Definition truncBytesSink_SetBytes (s : truncBytesSink) (b : bytes) (e : Time) : set_op :=
  c ← cloneBytes b; truncBytesSink_setBytesOwned s (Some c) e.

Definition truncBytesSink_SetString (s : truncBytesSink) (v : string) (e : Time) : set_op :=
  match ts_dst s with
  | None => mret (STruncBytesSink s,
                  Some (ErrorString "nil TruncatingByteSliceSink *[]byte dst"))
  | Some d =>
      d' ← trunc_copy d (string_bytes v);
      mret (STruncBytesSink (mkTruncBytesSink (Some d') (mkByteView None v e)), None)
  end.

(** *** The interface: dynamic dispatch *)
Definition SetString (k : Sink) (v : string) (e : Time) : set_op :=
  match k with
  | SStringSink s => stringSink_SetString s v e
  | SByteViewSink s => byteViewSink_SetString s v e
  | SProtoSink s => protoSink_SetString s v e
  | SAllocBytesSink s => allocBytesSink_SetString s v e
  | STruncBytesSink s => truncBytesSink_SetString s v e
  end.

Definition SetBytes (k : Sink) (v : bytes) (e : Time) : set_op :=
  match k with
  | SStringSink s => stringSink_SetBytes s v e
  | SByteViewSink s => byteViewSink_SetBytes s v e
  | SProtoSink s => protoSink_SetBytes s v e
  | SAllocBytesSink s => allocBytesSink_SetBytes s v e
  | STruncBytesSink s => truncBytesSink_SetBytes s v e
  end.

Definition SetProto (k : Sink) (p : message) (e : Time) : set_op :=
  match k with
  | SStringSink s => stringSink_SetProto s p e
  | SByteViewSink s => byteViewSink_SetProto s p e
  | SProtoSink s => protoSink_SetProto s p e
  | SAllocBytesSink s => allocBytesSink_SetProto s p e
  | STruncBytesSink s => truncBytesSink_SetProto s p e
  end.

(** [SetSinkView]: the fast path for the sinks that have [setView]. *)
Definition SetSinkView (k : Sink) (v : ByteView) : set_op :=
  match k with
  | SByteViewSink s => byteViewSink_setView s v
  | SAllocBytesSink s => allocBytesSink_setView s v
  | _ =>
      match bv_b v with
      | Some _ => SetBytes k (bv_b v) (Expire v)
      | None => SetString k (bv_s v) (Expire v)
      end
  end.

(** ** What a sink has received *)

(** The sink can take [data]: its destination pointer is not nil and, for a
    proto sink, the message decodes. *)
Definition accepts (m : Mem) (k : Sink) (data : list byte) : Prop :=
  match k with
  | SStringSink s => is_Some (ss_sp s)
  | SByteViewSink _ => True
  | SProtoSink s => (Unmarshal data (ps_dst s)).1 = None
  | SAllocBytesSink s => is_Some (as_dst s)
  | STruncBytesSink s => ∃ d, ts_dst s = Some d ∧ bytes_wf m d
  end.

(** What the caller finds behind the destination pointer of [k], now [k']. *)
Definition delivered (k : Sink) (data : list byte) (m' : Mem) (k' : Sink) : Prop :=
  match k, k' with
  | SStringSink _, SStringSink s' => ss_sp s' = Some (bytes_string data)
  | SByteViewSink _, SByteViewSink s' => view_bytes m' (bs_dst s') = data
  | SProtoSink s, SProtoSink s' => ps_dst s' = (Unmarshal data (ps_dst s)).2
  | SAllocBytesSink _, SAllocBytesSink s' =>
      ∃ c, as_dst s' = Some (Some c) ∧ contents m' (Some c) = data
  | STruncBytesSink s, STruncBytesSink s' =>
      ∃ d d', ts_dst s = Some d ∧ ts_dst s' = Some d' ∧
              contents m' d' = take (Z.to_nat (blen d)) data
  | _, _ => False
  end.

Definition received (k : Sink) (data : list byte) (e : Time) (m' : Mem) (k' : Sink) : Prop :=
  view_wf m' (View k') ∧ view_bytes m' (View k') = data ∧ Expire (View k') = e ∧
  delivered k data m' k'.

Lemma clone_contents m b :
  bytes_wf m b →
  let c := Slice (length m) 0 (Z.to_nat (blen b)) (Z.to_nat (blen b)) in
  cloneBytes b m = (Val c, m ++ [contents m b]) ∧
  slice_wf (m ++ [contents m b]) c ∧ contents (m ++ [contents m b]) (Some c) = contents m b.
Proof.
  intros Hwf. split; [by apply cloneBytes_spec|].
  pose proof (length_contents m b Hwf) as Hl.
  replace (Z.to_nat (blen b)) with (length (contents m b)) by lia.
  apply alloc_new.
Qed.

Lemma trunc_copy_spec m d data :
  bytes_wf m d →
  ∃ d' m', trunc_copy d data m = (Val d', m') ∧
    contents m' d' = take (Z.to_nat (blen d)) data ∧
    (∀ b, bytes_wf m b → bytes_wf m' b) ∧
    (∀ b, match b, d with Some t, Some s => arr t ≠ arr s | _, _ => True end →
          contents m' b = contents m b).
Proof.
  intros Hwf. destruct (copy_spec m d data Hwf) as (m' & Hc & Hct & Hw & Hf).
  pose proof (length_contents m d Hwf) as Hl.
  unfold trunc_copy. mstep Hc. case_decide as Hn.
  - destruct d as [s|]; [|simpl in *; lia]. simpl blen in *.
    assert (length data < len s)%nat by lia.
    unfold reslice. destruct Hwf as (? & ? & ?). rewrite bool_decide_eq_true_2 by lia.
    eexists _, m'. split_and!; [done| |done|done].
    rewrite contents_reslice, Hct by lia. simpl. rewrite drop_0.
    replace (Z.to_nat (Z.min (Z.of_nat (len s)) (Z.of_nat (length data)) - 0))
      with (length data) by lia.
    rewrite Nat2Z.id, (take_ge data) by lia. by rewrite take_app_length.
  - eexists d, m'. split_and!; [done| |done|done].
    rewrite Hct, drop_ge by lia. by rewrite app_nil_r.
Qed.

(** [trunc_copy] after a fresh allocation leaves the new array alone. *)
Lemma trunc_copy_after_alloc m d data l c :
  bytes_wf m d → arr c = length m → slice_wf (m ++ [l]) c →
  ∃ d' m', trunc_copy d data (m ++ [l]) = (Val d', m') ∧
    contents m' d' = take (Z.to_nat (blen d)) data ∧
    slice_wf m' c ∧ contents m' (Some c) = contents (m ++ [l]) (Some c).
Proof.
  intros Hd Hc Hwc.
  destruct (trunc_copy_spec (m ++ [l]) d data) as (d' & m' & ? & ? & Hw & Hf);
    [by apply bytes_wf_alloc|].
  exists d', m'. split_and!; [done..|by apply (Hw (Some c))|].
  apply Hf. destruct d as [s|]; [|done]. destruct Hd as (? & _). lia.
Qed.

Lemma SetString_spec m k v e :
  accepts m k (string_bytes v) →
  ∃ k' m', SetString k v e m = (Val (k', None), m') ∧ received k (string_bytes v) e m' k'.
Proof.
  unfold received. destruct k as [s|s|s|s|s]; simpl; intros Hacc.
  - unfold stringSink_SetString. destruct Hacc as [p ->].
    eexists _, _. split; [done|]. simpl. by rewrite bytes_string_bytes.
  - by eexists _, _.
  - unfold protoSink_SetString, alloc, mbind, M_bind.
    destruct (Unmarshal _ _) as [err dst] eqn:E; simpl in *. subst err.
    eexists _, _. split; [done|]. simpl.
    pose proof (alloc_new m (string_bytes v)) as [? ?]. by split_and!.
  - unfold allocBytesSink_SetString. destruct Hacc as [d ->].
    eexists _, _. split; [done|]. simpl. split_and!; [done..|].
    eexists. split; [done|]. apply (alloc_new m (string_bytes v)).
  - unfold truncBytesSink_SetString. destruct Hacc as (d & -> & Hd).
    destruct (trunc_copy_spec m d (string_bytes v) Hd) as (d' & m' & Ht & ? & _ & _).
    mstep Ht.
    eexists _, _. split; [done|]. simpl. split_and!; [done..|]. by eexists _, _.
Qed.

Lemma SetBytes_spec m k b e :
  bytes_wf m b → accepts m k (contents m b) →
  ∃ k' m', SetBytes k b e m = (Val (k', None), m') ∧ received k (contents m b) e m' k' ∧
    match bv_b (View k') with Some t => arr t = length m | None => True end.
Proof.
  intros Hb. destruct (clone_contents m b Hb) as (Hcl & Hcw & Hcc). unfold received.
  destruct k as [s|s|s|s|s]; simpl; intros Hacc.
  - unfold stringSink_SetBytes, stringSink_SetString. destruct Hacc as [p Hp].
    eexists _, _. split; [unfold mbind, M_bind; simpl; rewrite Hp; done|]. simpl.
    unfold view_bytes. simpl. by rewrite string_bytes_string.
  - unfold byteViewSink_SetBytes. mstep Hcl.
    by eexists _, _.
  - unfold protoSink_SetBytes. unfold mbind at 1, M_bind at 1; simpl.
    destruct (Unmarshal _ _) as [err dst] eqn:E; simpl in *. subst err.
    mstep Hcl.
    eexists _, _. split; [done|]. simpl. by split_and!.
  - unfold allocBytesSink_SetBytes. mstep Hcl.
    unfold allocBytesSink_setBytesOwned. destruct Hacc as [d ->].
    destruct (clone_contents (m ++ [contents m b]) (Some (Slice (length m) 0 (Z.to_nat (blen b)) (Z.to_nat (blen b))))) as (Hcl2 & Hcw2 & Hcc2); [done|].
    mstep Hcl2.
    eexists _, _. split; [done|]. simpl View. unfold view_bytes, view_wf, Expire. simpl bv_b. simpl bv_e.
    split_and!; [by apply (bytes_wf_alloc _ _ (Some _))|by rewrite contents_alloc by done|done| |done].
    eexists. split; [done|]. etrans; [exact Hcc2|exact Hcc].
  - unfold truncBytesSink_SetBytes. mstep Hcl.
    unfold truncBytesSink_setBytesOwned. destruct Hacc as (d & -> & Hd).
    edestruct (trunc_copy_after_alloc m d (contents m b) (contents m b)) as (d' & m' & Ht & Hdd & Hcw' & Hcc');
      [done| |exact Hcw|]; [done|].
    unfold mbind at 1, M_bind at 1, get_state. rewrite Hcc.
    mstep Ht.
    eexists _, _. split; [done|]. simpl View. unfold view_bytes, view_wf, Expire. simpl bv_b. simpl bv_e.
    split_and!; [done|by rewrite Hcc'|done| |done]. by eexists _, _.
Qed.

Lemma allocBytesSink_setView_spec m s v :
  view_wf m v → is_Some (as_dst s) →
  ∃ c l, allocBytesSink_setView s v m =
           (Val (SAllocBytesSink (mkAllocBytesSink (Some (Some c)) v), None), m ++ [l]) ∧
         arr c = length m ∧ slice_wf (m ++ [l]) c ∧ contents (m ++ [l]) (Some c) = view_bytes m v.
Proof.
  intros Hv [d Hd]. unfold allocBytesSink_setView, view_bytes. rewrite Hd.
  destruct (bv_b v) as [t|] eqn:E.
  - destruct (clone_contents m (bv_b v) Hv) as (Hcl & Hcw & Hcc). rewrite E in *.
    mstep Hcl. eexists _, _. by split_and!.
  - eexists _, _. split; [done|]. pose proof (alloc_new m (string_bytes (bv_s v))) as [? ?].
    by split_and!.
Qed.
End Sinks.

(** A protobuf library for witnesses: messages are their own encoding. *)
#[export] Instance raw_proto : Proto (list byte) | 100 :=
  {| Marshal := λ p, inr (Some p); Unmarshal := λ b _, (None, b) |}.

(** ** Theorems *)

Section SinkTheorems.
Context `{Proto message}.

Lemma SetSinkView_spec (m : Mem) (k : Sink) (v : ByteView)
  (Hv : view_wf m v) (Hacc : accepts m k (view_bytes m v)) :
  ∃ k' m', SetSinkView k v m = (Val (k', None), m') ∧
           received k (view_bytes m v) (Expire v) m' k'.
Proof.
  assert (∃ k' m', match bv_b v with
                   | Some _ => SetBytes k (bv_b v) (Expire v)
                   | None => SetString k (bv_s v) (Expire v)
                   end m = (Val (k', None), m') ∧
                   received k (view_bytes m v) (Expire v) m' k') as Hslow.
  { unfold view_bytes, view_wf in *. destruct (bv_b v) as [t|] eqn:E.
    - edestruct SetBytes_spec as (k' & m' & ? & ? & _); [done|exact Hacc|]. eauto.
    - by apply SetString_spec. }
  destruct k as [s|s|s|s|s]; try exact Hslow.
  - by eexists _, _.
  - destruct (allocBytesSink_setView_spec (message:=message) m s v Hv Hacc) as (c & l & Hs & _ & Hcw & Hcc).
    eexists _, _. split; [exact Hs|]. unfold received. simpl.
    split_and!; [by apply view_wf_alloc|by apply view_bytes_alloc|done|].
    eexists. split; [done|]. exact Hcc.
Qed.

(** C31: [SetSinkView] fills every kind of sink with the bytes and the expiration of
    the view: the caller's destination receives them (truncated for a
    [TruncatingByteSliceSink], decoded for a [ProtoSink]) and [View] returns
    them for caching. *)
Theorem SetSinkView_delivers (m : Mem) (k : Sink) (v : ByteView)
  (Hv : view_wf m v) (Hacc : accepts m k (view_bytes m v)) :
  ∃ k' m', SetSinkView k v m = (Val (k', None), m') ∧
           received k (view_bytes m v) (Expire v) m' k'.
Proof. by apply SetSinkView_spec. Qed.

(** C32: [SetBytes]: "the caller retains ownership of v".  Whatever the caller
    writes into its slice afterwards, the view the sink keeps (and the cache
    stores) does not change. *)
Theorem SetBytes_caller_retains_ownership (m : Mem) (k : Sink) (s : slice) (e : Time)
  (Hs : slice_wf m s) (Hacc : accepts m k (contents m (Some s))) :
  ∃ k' m', SetBytes k (Some s) e m = (Val (k', None), m') ∧
           received k (contents m (Some s)) e m' k' ∧
           ∀ l, view_bytes (write_slice s l m').2 (View k') = contents m (Some s).
Proof.
  destruct (SetBytes_spec m k (Some s) e) as (k' & m' & Hset & Hrec & Hfresh); [done..|].
  exists k', m'. split_and!; [done..|]. intros l. rewrite view_bytes_write; [apply Hrec|].
  destruct (bv_b (View k')); [|done]. destruct Hs. lia.
Qed.

(** [AllocatingByteSliceSink]: "the memory is not retained by groupcache".  On
    a cache hit the caller gets a slice of its own: writing into it changes
    neither the cached view nor the view of the sink. *)
Theorem AllocatingByteSliceSink_memory_not_retained (m : Mem) (d : bytes) (v : ByteView)
  (Hv : view_wf m v) :
  ∃ c m', SetSinkView (AllocatingByteSliceSink (Some d)) v m =
            (Val (SAllocBytesSink (mkAllocBytesSink (Some (Some c)) v), None), m') ∧
          contents m' (Some c) = view_bytes m v ∧
          ∀ l, view_bytes (write_slice c l m').2 v = view_bytes m v.
Proof.
  destruct (allocBytesSink_setView_spec (message:=message) m (mkAllocBytesSink (Some d) zero_view) v Hv)
    as (c & l & Hset & Ha & _ & Hcc); [by eexists|].
  exists c, (m ++ [l]). split_and!; [exact Hset|done|]. intros l'.
  rewrite view_bytes_write, view_bytes_alloc by
    (done || (unfold view_wf in Hv; destruct (bv_b v); [destruct Hv; lia|done])).
  done.
Qed.

(** A message stored with [SetProto] comes back equal through the cached view,
    given that the protobuf library decodes what it encodes. *)
Theorem proto_sink_roundtrip (m : Mem) (d d2 p : message) (o : option (list byte)) (e : Time)
  (Hproto : ∀ q l dst, Marshal q = inr l → Unmarshal (default [] l) dst = (None, q))
  (Hp : Marshal p = inr o) :
  ∃ k' m' k2 m2,
    SetProto (ProtoSink d) p e m = (Val (k', None), m') ∧ Expire (View k') = e ∧
    SetSinkView (ProtoSink d2) (View k') m' = (Val (k2, None), m2) ∧
    match k2 with SProtoSink s => ps_dst s = p | _ => False end.
Proof.
  assert (∃ b m', marshalled o m = (Val b, m') ∧ bytes_wf m' b ∧ contents m' b = default [] o)
    as (b & m' & Hb & Hbw & Hbc).
  { destruct o as [l|]; [|by eexists None, _].
    unfold marshalled, alloc, mbind, M_bind. simpl. eexists _, _. split; [done|].
    pose proof (alloc_new m l) as [? ?]. by split. }
  assert (SetProto (ProtoSink d) p e m =
            (Val (SProtoSink (mkProtoSink p (mkByteView b "" e)), None), m')) as Hset.
  { unfold SetProto, protoSink_SetProto. simpl. rewrite Hp. mstep Hb.
    unfold mbind, M_bind, get_state. rewrite Hbc. simpl. by rewrite (Hproto p o d Hp). }
  destruct (SetSinkView_delivers m' (ProtoSink d2) (mkByteView b "" e)) as (k2 & m2 & H2 & Hr).
  - done.
  - assert (view_bytes m' (mkByteView b "" e) = default [] o) as ->
      by (unfold view_bytes; simpl; by destruct b).
    simpl. by rewrite (Hproto p o d2 Hp).
  - eexists _, _, k2, m2. split_and!; [exact Hset|done|exact H2|].
    assert (view_bytes m' (mkByteView b "" e) = default [] o) as Hvb
      by (unfold view_bytes; simpl; by destruct b).
    destruct Hr as (_ & _ & _ & Hd). rewrite Hvb in Hd. simpl in Hd.
    destruct k2; [done|done| |done|done]. by rewrite Hd, (Hproto p o d2 Hp).
Qed.
End SinkTheorems.

Lemma SetSinkView_delivers_witness :
  ∃ k' m', SetSinkView (StringSink (Some "")) (mkByteView None "hi" 7) [] = (Val (k', None), m') ∧
           received (StringSink (Some "")) (string_bytes "hi") 7 m' k'.
Proof.
  apply (SetSinkView_delivers [] (StringSink (Some "")) (mkByteView None "hi" 7)).
  - exact I.
  - by eexists.
Defined.

Lemma SetBytes_caller_retains_ownership_witness :
  ∃ k' m', SetBytes (TruncatingByteSliceSink (Some (Some (Slice 0 0 2 2))))
             (Some (Slice 1 0 3 3)) 7 [[x00; x00]; [x61; x62; x63]] = (Val (k', None), m') ∧
           received (TruncatingByteSliceSink (Some (Some (Slice 0 0 2 2)))) [x61; x62; x63] 7 m' k' ∧
           ∀ l, view_bytes (write_slice (Slice 1 0 3 3) l m').2 (View k') = [x61; x62; x63].
Proof.
  apply (SetBytes_caller_retains_ownership [[x00; x00]; [x61; x62; x63]]
           (TruncatingByteSliceSink (Some (Some (Slice 0 0 2 2)))) (Slice 1 0 3 3) 7).
  - unfold slice_wf; simpl; lia.
  - eexists. split; [reflexivity|]. unfold bytes_wf, slice_wf; simpl; lia.
Defined.

Lemma AllocatingByteSliceSink_memory_not_retained_witness :
  ∃ c m', SetSinkView (AllocatingByteSliceSink (Some None))
            (mkByteView (Some (Slice 0 0 1 1)) "" 0) [[x61]] =
            (Val (SAllocBytesSink (mkAllocBytesSink (Some (Some c))
                    (mkByteView (Some (Slice 0 0 1 1)) "" 0)), None), m') ∧
          contents m' (Some c) = [x61] ∧
          ∀ l, view_bytes (write_slice c l m').2 (mkByteView (Some (Slice 0 0 1 1)) "" 0) = [x61].
Proof.
  apply (AllocatingByteSliceSink_memory_not_retained [[x61]] None
           (mkByteView (Some (Slice 0 0 1 1)) "" 0)).
  unfold view_wf, bytes_wf, slice_wf; simpl; lia.
Defined.

Lemma proto_sink_roundtrip_witness :
  ∃ k' m' k2 m2,
    SetProto (ProtoSink []) [x61] 7 [] = (Val (k', None), m') ∧ Expire (View k') = 7 ∧
    SetSinkView (ProtoSink []) (View k') m' = (Val (k2, None), m2) ∧
    match k2 with SProtoSink s => ps_dst s = [x61] | _ => False end.
Proof.
  apply (proto_sink_roundtrip [] [] [] [x61] (Some [x61]) 7).
  - intros q l dst Hq. simpl in Hq. by simplify_eq.
  - reflexivity.
Defined.
