(* ===== verification/Lru.v ===== *)
(** * The LRU cache

    Models [src/internal/lru/lru.go].  The cache is a doubly linked list of
    elements ([container/list]) and a map from keys to elements: an element
    is an address into a store of entries, the list is the sequence of
    addresses from front to back, and the map holds addresses, so that the
    in-place update of an entry by [Add] is seen through both.  The callback
    [OnEvicted] acts on a state [S] of its owner (the byte and eviction
    counters of [mutexCache]).  The clock is read through the argument [now].

    The abstract specification [spec_*] is a list of entries, most recently
    used first; the refinement theorem runs both sides on every sequence of
    operations. *)

From S2P Require Import Prelude.

Section Lru.
Context {K : Type} `{Countable K} {V S : Type}.

Record entry : Type := mkEntry {
  key : K;
  value : V;
  expire : Time;
}.

Record Cache : Type := mkCache {
  MaxEntries : Z;
  OnEvicted : option (K → V → S → S);
  ll : option (list nat);            (* nil or the elements, front first *)
  cache : option (gmap K nat);       (* nil or the map *)
  elems : list entry;                (* the entries behind the elements *)
}.

Definition set_ll (l : option (list nat)) (c : Cache) : Cache :=
  mkCache (MaxEntries c) (OnEvicted c) l (cache c) (elems c).
Definition set_cache (m : option (gmap K nat)) (c : Cache) : Cache :=
  mkCache (MaxEntries c) (OnEvicted c) (ll c) m (elems c).
Definition set_elems (es : list entry) (c : Cache) : Cache :=
  mkCache (MaxEntries c) (OnEvicted c) (ll c) (cache c) es.

(** A method runs on the cache and on the state its callback acts on. *)
Abbreviation LM := (M (Cache * S)).

Definition modify (f : Cache → Cache) : LM unit := λ '(c, s), (Val tt, (f c, s)).
Definition this : LM Cache := λ '(c, s), (Val c, (c, s)).
Definition deref {A} (o : option A) : LM A :=
  match o with Some a => mret a | None => panic end.

(** [if c.OnEvicted != nil { c.OnEvicted(key, value) }] *)
Definition call_OnEvicted (k : K) (v : V) : LM unit := λ '(c, s),
  (Val tt, (c, match OnEvicted c with Some f => f k v s | None => s end)).

(** *** container/list on element addresses *)
Definition list_Remove (e : nat) (l : list nat) : list nat := filter (λ x, x ≠ e) l.
Definition list_MoveToFront (e : nat) (l : list nat) : list nat :=
  if decide (e ∈ l) then e :: list_Remove e l else l.
Definition list_Back (l : list nat) : option nat := last l.

(** [New(maxEntries)] *)
Definition New (maxEntries : Z) : Cache :=
  mkCache maxEntries None (Some []) (Some ∅) [].

Definition removeElement (e : nat) : LM unit :=
  c ← this;
  l ← deref (ll c);
  _ ← modify (set_ll (Some (list_Remove e l)));
  kv ← deref (elems c !! e);
  m ← deref (cache c);
  _ ← modify (set_cache (Some (delete (key kv) m)));
  call_OnEvicted (key kv) (value kv).

Definition RemoveOldest : LM unit :=
  c ← this;
  match cache c with
  | None => mret tt
  | Some _ =>
      l ← deref (ll c);
      match list_Back l with
      | Some ele => removeElement ele
      | None => mret tt
      end
  end.

Definition Add (k : K) (v : V) (exp : Time) : LM unit :=
  c ← this;
  _ ← (match cache c with
       | None => _ ← modify (set_cache (Some ∅)); modify (set_ll (Some []))
       | Some _ => mret tt
       end);
  c ← this;
  m ← deref (cache c);
  match m !! k with
  | Some ee =>
      eee ← deref (elems c !! ee);
      _ ← call_OnEvicted k (value eee);
      l ← deref (ll c);
      _ ← modify (set_ll (Some (list_MoveToFront ee l)));
      modify (set_elems (<[ee := mkEntry (key eee) v exp]> (elems c)))
  | None =>
      l ← deref (ll c);
      let ele := length (elems c) in
      _ ← modify (set_elems (elems c ++ [mkEntry k v exp]));
      _ ← modify (set_ll (Some (ele :: l)));
      _ ← modify (set_cache (Some (<[k := ele]> m)));
      if decide (MaxEntries c ≠ 0 ∧ MaxEntries c < Z.of_nat (length (ele :: l)))
      then RemoveOldest else mret tt
  end.

Definition Get (k : K) (now : Time) : LM (option V) :=
  c ← this;
  match cache c with
  | None => mret None
  | Some m =>
      match m !! k with
      | None => mret None
      | Some ele =>
          en ← deref (elems c !! ele);
          if decide (IsZero (expire en) = false ∧ Before (expire en) now = true)
          then _ ← removeElement ele; mret None
          else l ← deref (ll c);
               _ ← modify (set_ll (Some (list_MoveToFront ele l)));
               mret (Some (value en))
      end
  end.

Definition Remove (k : K) : LM unit :=
  c ← this;
  match cache c with
  | None => mret tt
  | Some m =>
      match m !! k with
      | None => mret tt
      | Some ele => removeElement ele
      end
  end.

Definition Len : LM Z :=
  c ← this;
  match cache c with
  | None => mret 0
  | Some _ => l ← deref (ll c); mret (Z.of_nat (length l))
  end.

(** [for _, e := range c.cache { kv := ...; c.OnEvicted(kv.key, kv.value) }] *)
Fixpoint evict_each (es : list (K * nat)) : LM unit :=
  match es with
  | [] => mret tt
  | (_, e) :: es =>
      c ← this;
      kv ← deref (elems c !! e);
      _ ← call_OnEvicted (key kv) (value kv);
      evict_each es
  end.

Definition Clear `{!MapRange K nat} : LM unit :=
  c ← this;
  _ ← (match OnEvicted c with
       | Some _ => evict_each (map_range (default ∅ (cache c)))
       | None => mret tt
       end);
  _ ← modify (set_ll None);
  modify (set_cache None).
End Lru.
Arguments entry : clear implicits.
Arguments Cache K {_ _} V S.

(** ** Abstract specification *)

Section LruSpec.
Context {K : Type} `{Countable K} {V S : Type}.
Implicit Types (l : list (entry K V)) (s : S) (f : option (K → V → S → S)).

Definition spec_evict f (k : K) (v : V) s : S :=
  match f with Some g => g k v s | None => s end.

Definition spec_lookup (k : K) l : option (entry K V) :=
  find_first (λ en, bool_decide (key en = k)) l.
Definition spec_delete (k : K) l : list (entry K V) := filter (λ en, key en ≠ k) l.

Definition spec_RemoveOldest f l s : list (entry K V) * S :=
  match last l with
  | Some en => (spec_delete (key en) l, spec_evict f (key en) (value en) s)
  | None => (l, s)
  end.

Definition spec_Add f (max : Z) (k : K) (v : V) (exp : Time) l s : list (entry K V) * S :=
  match spec_lookup k l with
  | Some old => (mkEntry k v exp :: spec_delete k l, spec_evict f k (value old) s)
  | None =>
      let l := mkEntry k v exp :: l in
      if decide (max ≠ 0 ∧ max < Z.of_nat (length l)) then spec_RemoveOldest f l s else (l, s)
  end.

(** An entry is expired when it has an expiration and it is in the past. *)
Definition expired (now : Time) (en : entry K V) : bool :=
  negb (IsZero (expire en)) && Before (expire en) now.

Definition spec_Remove f (k : K) l s : list (entry K V) * S :=
  match spec_lookup k l with
  | Some en => (spec_delete k l, spec_evict f (key en) (value en) s)
  | None => (l, s)
  end.

Definition spec_Get f (k : K) (now : Time) l s : option V * (list (entry K V) * S) :=
  match spec_lookup k l with
  | None => (None, (l, s))
  | Some en =>
      if expired now en then (None, spec_Remove f k l s)
      else (Some (value en), (en :: spec_delete k l, s))
  end.

(** Operations and their answers, for the refinement over sequences. *)
Inductive op : Type :=
| OpAdd (k : K) (v : V) (exp : Time)
| OpGet (k : K) (now : Time)
| OpRemove (k : K)
| OpRemoveOldest
| OpLen.

Inductive answer : Type :=
| Done
| Found (v : option V)
| Count (n : Z).

Definition run_op (o : op) : M (Cache K V S * S) answer :=
  match o with
  | OpAdd k v exp => _ ← Add k v exp; mret Done
  | OpGet k now => r ← Get k now; mret (Found r)
  | OpRemove k => _ ← Remove k; mret Done
  | OpRemoveOldest => _ ← RemoveOldest; mret Done
  | OpLen => n ← Len; mret (Count n)
  end.

Fixpoint run_ops (os : list op) : M (Cache K V S * S) (list answer) :=
  match os with
  | [] => mret []
  | o :: os => a ← run_op o; r ← run_ops os; mret (a :: r)
  end.

Definition spec_op f (max : Z) (o : op) l s : answer * (list (entry K V) * S) :=
  match o with
  | OpAdd k v exp => (Done, spec_Add f max k v exp l s)
  | OpGet k now => let '(r, x) := spec_Get f k now l s in (Found r, x)
  | OpRemove k => (Done, spec_Remove f k l s)
  | OpRemoveOldest => (Done, spec_RemoveOldest f l s)
  | OpLen => (Count (Z.of_nat (length l)), (l, s))
  end.

Fixpoint spec_ops f max (os : list op) l s : list answer * (list (entry K V) * S) :=
  match os with
  | [] => ([], (l, s))
  | o :: os =>
      let '(a, (l, s)) := spec_op f max o l s in
      let '(r, x) := spec_ops f max os l s in (a :: r, x)
  end.

(** ** Representation

    [rep c L]: the list is the elements of [L] front to back, each behind its
    address, keys are distinct, and the map indexes exactly these elements. *)
Definition rep (c : Cache K V S) (L : list (nat * entry K V)) : Prop :=
  NoDup L.*1 ∧ NoDup (key <$> L.*2) ∧
  (∀ e en, (e, en) ∈ L → elems c !! e = Some en) ∧
  match ll c, cache c with
  | Some l, Some m =>
      l = L.*1 ∧ (∀ k e, m !! k = Some e ↔ ∃ en, (e, en) ∈ L ∧ key en = k)
  | None, None => L = []
  | _, _ => False
  end.

Definition same_config (c c' : Cache K V S) : Prop :=
  MaxEntries c' = MaxEntries c ∧ OnEvicted c' = OnEvicted c.

(** [models c l]: the cache [c] represents the abstract list [l]. *)
Definition models (c : Cache K V S) l : Prop := ∃ L, rep c L ∧ L.*2 = l.

Definition rm (e : nat) (L : list (nat * entry K V)) := filter (λ p, p.1 ≠ e) L.

Lemma rm_addrs e (L : list (nat * entry K V)) : list_Remove e L.*1 = (rm e L).*1.
Proof.
  unfold list_Remove, rm. rewrite filter_fmap. done.
Qed.

Lemma keys_inj (L : list (nat * entry K V)) e en e' en' :
  NoDup L.*1 → NoDup (key <$> L.*2) →
  (e, en) ∈ L → (e', en') ∈ L → (e = e' ↔ key en = key en').
Proof.
  intros H1 H2 (i & Hi)%list_elem_of_lookup (j & Hj)%list_elem_of_lookup. split; intros Heq.
  - assert (i = j) as ->.
    { eapply (NoDup_lookup L.*1 i j e); [done|..]; rewrite list_lookup_fmap.
      - by rewrite Hi.
      - rewrite Hj. simpl. congruence. }
    congruence.
  - assert (i = j) as ->.
    { eapply (NoDup_lookup (key <$> L.*2) i j (key en)); [done|..]; rewrite !list_lookup_fmap.
      - by rewrite Hi.
      - rewrite Hj. simpl. congruence. }
    congruence.
Qed.

Lemma rm_entries (L : list (nat * entry K V)) e en :
  NoDup L.*1 → NoDup (key <$> L.*2) → (e, en) ∈ L →
  spec_delete (key en) L.*2 = (rm e L).*2.
Proof.
  intros H1 H2 Hin. unfold spec_delete, rm. rewrite filter_fmap. f_equal.
  apply filter_ext_in. intros [e' en'] Hin'. simpl.
  pose proof (keys_inj L e en e' en' H1 H2 Hin Hin'). naive_solver.
Qed.

Lemma spec_lookup_in (L : list (nat * entry K V)) e en :
  NoDup (key <$> L.*2) → (e, en) ∈ L → spec_lookup (key en) L.*2 = Some en.
Proof.
  intros HN Hin. apply find_first_Some.
  apply list_elem_of_lookup in Hin as (i & Hi).
  exists i. rewrite list_lookup_fmap, Hi. split_and!; [done|by apply bool_decide_eq_true|].
  intros j y Hj Hy. apply bool_decide_eq_false. intros Hk.
  assert (i = j); [|lia].
  eapply (NoDup_lookup (key <$> L.*2) i j (key en)); [done|..]; rewrite list_lookup_fmap.
  - by rewrite list_lookup_fmap, Hi.
  - by rewrite Hy, <-Hk.
Qed.

Lemma spec_lookup_out (L : list (nat * entry K V)) k :
  (∀ e en, (e, en) ∈ L → key en ≠ k) → spec_lookup k L.*2 = None.
Proof.
  intros HL. apply find_first_None. intros en ([e en'] & -> & Hin)%list_elem_of_fmap.
  apply bool_decide_eq_false. by eapply HL.
Qed.

Lemma rep_ready c L : rep c L → L ≠ [] → ∃ m, ll c = Some L.*1 ∧ cache c = Some m ∧
  ∀ k e, m !! k = Some e ↔ ∃ en, (e, en) ∈ L ∧ key en = k.
Proof.
  intros (_ & _ & _ & Hm) Hne. destruct (ll c), (cache c) as [m|]; try done.
  destruct Hm as [-> ?]. by exists m.
Qed.

Lemma NoDup_rm_addrs (L : list (nat * entry K V)) e : NoDup L.*1 → NoDup (rm e L).*1.
Proof. intros. rewrite <-rm_addrs. by apply NoDup_filter. Qed.

Lemma NoDup_rm_keys (L : list (nat * entry K V)) e :
  NoDup (key <$> L.*2) → NoDup (key <$> (rm e L).*2).
Proof.
  intros Hd. eapply sublist_NoDup; [exact Hd|]. unfold rm. apply fmap_sublist, fmap_sublist, sublist_filter.
Qed.

Lemma elem_of_rm (L : list (nat * entry K V)) e e' en : (e', en) ∈ rm e L ↔ e' ≠ e ∧ (e', en) ∈ L.
Proof. unfold rm. rewrite list_elem_of_filter. done. Qed.

Lemma removeElement_spec c s L e en :
  rep c L → (e, en) ∈ L →
  ∃ c', removeElement e (c, s)
        = (Val tt, (c', spec_evict (OnEvicted c) (key en) (value en) s)) ∧
        rep c' (rm e L) ∧ same_config c c'.
Proof.
  intros Hrep Hin. pose proof Hrep as (Ha & Hk & He & _).
  destruct (rep_ready c L Hrep) as (m & Hll & Hc & Hm); [by intros ->; apply elem_of_nil in Hin|].
  eexists. split.
  { unfold removeElement, mbind, M_bind, this, deref, modify, call_OnEvicted. simpl.
    rewrite Hll. simpl. rewrite (He e en Hin). simpl. rewrite Hc. simpl. done. }
  split; [|done]. split_and!; simpl.
  - by apply NoDup_rm_addrs.
  - by apply NoDup_rm_keys.
  - intros e' en' [_ ?]%elem_of_rm. by apply He.
  - split; [apply rm_addrs|].
    intros k' e'. rewrite lookup_delete_Some, Hm. setoid_rewrite elem_of_rm. split.
    + intros (Hne & en' & Hin' & <-). exists en'. split_and!; [|done..]. intros ->.
      apply Hne. by apply (keys_inj L e en e en').
    + intros (en' & [Hne Hin'] & <-). split; [|by eexists]. intros Hkk. apply Hne.
      symmetry. by apply (keys_inj L e en e' en').
Qed.

Lemma RemoveOldest_spec c s L :
  rep c L →
  ∃ c' L', RemoveOldest (c, s) = (Val tt, (c', (spec_RemoveOldest (OnEvicted c) L.*2 s).2)) ∧
    rep c' L' ∧ L'.*2 = (spec_RemoveOldest (OnEvicted c) L.*2 s).1 ∧ same_config c c'.
Proof.
  intros Hrep. unfold spec_RemoveOldest. rewrite fmap_last.
  destruct (last L) as [[e en]|] eqn:El; simpl.
  - assert ((e, en) ∈ L) as Hin by (by apply last_Some_elem_of).
    destruct (rep_ready c L Hrep) as (m & Hll & Hc & Hm);
      [by intros ->; apply elem_of_nil in Hin|].
    destruct (removeElement_spec c s L e en Hrep Hin) as (c' & Hr & Hrep' & Hcfg).
    exists c', (rm e L). split_and!; [|done| |done].
    + unfold RemoveOldest, this. unfold mbind at 1, M_bind at 1. rewrite Hc, Hll. simpl.
      unfold mbind, M_bind. simpl. unfold list_Back. rewrite fmap_last, El. exact Hr.
    + destruct Hrep as (? & ? & _). symmetry. by apply rm_entries.
  - exists c, L. apply last_None in El as ->. split_and!; [|done..].
    unfold RemoveOldest, this, mbind, M_bind. simpl.
    destruct Hrep as (_ & _ & _ & Hm).
    destruct (ll c), (cache c); try done. by destruct Hm as [-> _].
Qed.

(** Moving an element to the front, its entry possibly updated in place. *)
Lemma rep_front c L e en en' :
  rep c L → (e, en) ∈ L → key en' = key en →
  rep (set_elems (<[e:=en']> (elems c)) (set_ll (Some (list_MoveToFront e L.*1)) c))
      ((e, en') :: rm e L).
Proof.
  intros Hrep Hin Hkey. pose proof Hrep as (Ha & Hk & He & _).
  destruct (rep_ready c L Hrep) as (m & Hll & Hc & Hm); [by intros ->; apply elem_of_nil in Hin|].
  split_and!; simpl.
  - apply NoDup_cons. split; [|by apply NoDup_rm_addrs].
    rewrite <-rm_addrs. unfold list_Remove. rewrite list_elem_of_filter. naive_solver.
  - apply NoDup_cons. split; [|by apply NoDup_rm_keys].
    rewrite Hkey. intros (en2 & Hk2 & ([e2 ?] & -> & [Hne Hin2]%elem_of_rm)%list_elem_of_fmap)%list_elem_of_fmap.
    apply Hne. symmetry. by apply (keys_inj L e en e2 e0).
  - intros e2 en2 [?|[Hne ?]%elem_of_rm]%elem_of_cons; simplify_eq.
    + apply list_lookup_insert_eq. by eapply lookup_lt_Some, He.
    + rewrite list_lookup_insert_ne by done. by apply He.
  - rewrite Hc. split.
    + unfold list_MoveToFront. rewrite decide_True; [by rewrite rm_addrs|].
      apply list_elem_of_fmap. by exists (e, en).
    + intros k e2. rewrite Hm. setoid_rewrite elem_of_cons. setoid_rewrite elem_of_rm. split.
      * intros (en2 & Hin2 & <-). destruct (decide (e2 = e)) as [->|].
        { exists en'. split; [by left|]. rewrite Hkey. by apply (keys_inj L e en e en2). }
        exists en2. auto.
      * intros (en2 & [?|[_ ?]] & <-); simplify_eq; eauto.
Qed.

Lemma rep_not_nil c L k e m :
  rep c L → cache c = Some m → m !! k = Some e →
  ∃ en, (e, en) ∈ L ∧ key en = k ∧ ll c = Some L.*1 ∧ elems c !! e = Some en.
Proof.
  intros (_ & _ & He & Hm) Hc Hk. rewrite Hc in Hm. destruct (ll c); [|done].
  destruct Hm as [-> Hm]. apply Hm in Hk as (en & Hin & Hk). exists en. eauto.
Qed.

Lemma rep_lookup_None c L k m :
  rep c L → cache c = Some m → m !! k = None → spec_lookup k L.*2 = None.
Proof.
  intros (_ & _ & _ & Hm) Hc Hk. rewrite Hc in Hm. destruct (ll c); [|done].
  apply spec_lookup_out. intros e en Hin Heq. destruct Hm as [_ Hm].
  assert (m !! k = Some e); [|congruence]. apply Hm. eauto.
Qed.

Lemma rep_cache_None c L : rep c L → cache c = None → L = [].
Proof. intros (_ & _ & _ & Hm) Hc. rewrite Hc in Hm. by destruct (ll c). Qed.

(** Lazy initialisation keeps the representation. *)
Lemma rep_init c L : rep c L → cache c = None → rep (set_ll (Some []) (set_cache (Some ∅) c)) L.
Proof.
  intros Hrep Hc. rewrite (rep_cache_None c L Hrep Hc). split_and!; simpl.
  - constructor.
  - constructor.
  - intros e en ?%elem_of_nil. done.
  - split; [done|]. intros k e. rewrite lookup_empty. split; [done|].
    intros (en & ?%elem_of_nil & _). done.
Qed.

Lemma rep_push c L k v exp m :
  rep c L → cache c = Some m → m !! k = None →
  ll c = Some L.*1 ∧
  rep (set_cache (Some (<[k := length (elems c)]> m))
        (set_ll (Some (length (elems c) :: L.*1))
          (set_elems (elems c ++ [mkEntry k v exp]) c)))
      ((length (elems c), mkEntry k v exp) :: L).
Proof.
  intros (Ha & Hk & He & Hm) Hc Hmk. rewrite Hc in Hm. destruct (ll c) as [l|]; [|done].
  destruct Hm as [-> Hm]. split; [done|]. split_and!; simpl.
  - apply NoDup_cons. split; [|done]. intros ([e en] & Hl & Hin)%list_elem_of_fmap.
    apply He, lookup_lt_Some in Hin. simpl in Hl. lia.
  - apply NoDup_cons. split; [|done].
    intros (en & Hk2 & ([e2 ?] & -> & Hin2)%list_elem_of_fmap)%list_elem_of_fmap. simpl in Hk2.
    assert (m !! k = Some e2); [|congruence]. apply Hm. eauto.
  - intros e en [?|Hin]%elem_of_cons; simplify_eq.
    + by rewrite list_lookup_middle.
    + apply He in Hin as Hl. rewrite lookup_app_l; [done|]. by eapply lookup_lt_Some.
  - split; [done|]. intros k2 e. rewrite lookup_insert_Some, Hm. setoid_rewrite elem_of_cons.
    split.
    + intros [[-> <-]|(Hne & en & Hin & <-)]; eauto.
    + intros (en & [?|Hin] & <-); simplify_eq; [by left|]. right. split; [|eauto].
      intros ->. assert (m !! key en = Some e); [|congruence]. apply Hm. eauto.
Qed.

Lemma Remove_spec c s L k :
  rep c L →
  ∃ c' L', Remove k (c, s) = (Val tt, (c', (spec_Remove (OnEvicted c) k L.*2 s).2)) ∧
    rep c' L' ∧ L'.*2 = (spec_Remove (OnEvicted c) k L.*2 s).1 ∧ same_config c c'.
Proof.
  intros Hrep. unfold Remove, this. unfold mbind at 1, M_bind at 1.
  destruct (cache c) as [m|] eqn:Hc; cycle 1.
  { assert (L = []) as -> by (by eapply rep_cache_None). by exists c, []. }
  destruct (m !! k) as [e|] eqn:Hmk; cycle 1.
  { exists c, L. unfold spec_Remove. by rewrite (rep_lookup_None c L k m). }
  destruct (rep_not_nil c L k e m) as (en & Hin & <- & _ & _); [done..|].
  destruct (removeElement_spec c s L e en Hrep Hin) as (c' & Hr & Hrep' & Hcfg).
  destruct Hrep as (? & ? & _). unfold spec_Remove.
  rewrite (spec_lookup_in L e en) by done. simpl.
  exists c', (rm e L). split_and!; [exact Hr|done| |done]. symmetry. by apply rm_entries.
Qed.

Lemma expired_decide now (en : entry K V) :
  (IsZero (expire en) = false ∧ Before (expire en) now = true) ↔ expired now en = true.
Proof. unfold expired. rewrite andb_true_iff, negb_true_iff. done. Qed.

Lemma Get_spec c s L k now :
  rep c L →
  let r := spec_Get (OnEvicted c) k now L.*2 s in
  ∃ c' L', Get k now (c, s) = (Val r.1, (c', r.2.2)) ∧
    rep c' L' ∧ L'.*2 = r.2.1 ∧ same_config c c'.
Proof.
  intros Hrep. unfold Get, this. unfold mbind at 1, M_bind at 1.
  destruct (cache c) as [m|] eqn:Hc; cycle 1.
  { assert (L = []) as -> by (by eapply rep_cache_None). by exists c, []. }
  destruct (m !! k) as [e|] eqn:Hmk; cycle 1.
  { exists c, L. unfold spec_Get. by rewrite (rep_lookup_None c L k m). }
  destruct (rep_not_nil c L k e m) as (en & Hin & <- & Hll & He); [done..|].
  pose proof Hrep as (? & ? & _). unfold spec_Get, spec_Remove.
  rewrite (spec_lookup_in L e en), He by done.
  unfold mbind at 1, M_bind at 1, deref at 1. cbn [mret M_ret].
  case_decide as Hexp; [apply expired_decide in Hexp|rewrite expired_decide in Hexp].
  - rewrite Hexp. simpl. destruct (removeElement_spec c s L e en Hrep Hin) as (c' & Hr & Hrep' & Hcfg).
    mstep Hr. exists c', (rm e L).
    split_and!; [done..| |done]. symmetry. by apply rm_entries.
  - apply not_true_is_false in Hexp. rewrite Hexp. simpl. rewrite Hll.
    eexists _, ((e, en) :: rm e L). split_and!; [unfold mbind, M_bind; simpl; done| | |done].
    + pose proof (rep_front c L e en en Hrep Hin eq_refl) as Hf.
      rewrite list_insert_id in Hf by done. exact Hf.
    + simpl. f_equal. symmetry. by apply rm_entries.
Qed.

Lemma Len_spec c s L :
  rep c L → Len (c, s) = (Val (Z.of_nat (length L.*2)), (c, s)).
Proof.
  intros (_ & _ & _ & Hm). unfold Len, this, mbind, M_bind. simpl.
  destruct (ll c), (cache c); try done; simpl.
  - destruct Hm as [-> _]. by rewrite !length_fmap.
  - by rewrite Hm.
Qed.

(** [Add] once the map exists. *)
Lemma Add_ready c s L k v exp m :
  rep c L → cache c = Some m →
  let r := spec_Add (OnEvicted c) (MaxEntries c) k v exp L.*2 s in
  ∃ c' L', Add k v exp (c, s) = (Val tt, (c', r.2)) ∧
    rep c' L' ∧ L'.*2 = r.1 ∧ same_config c c'.
Proof.
  intros Hrep Hc. unfold Add, this. unfold mbind at 1, M_bind at 1. rewrite Hc.
  unfold mbind at 1, M_bind at 1. cbn [mret M_ret].
  unfold mbind at 1, M_bind at 1. rewrite Hc.
  unfold mbind at 1, M_bind at 1, deref at 1. cbn [mret M_ret].
  unfold spec_Add. destruct (m !! k) as [e|] eqn:Hmk.
  - destruct (rep_not_nil c L k e m) as (en & Hin & <- & Hll & He); [done..|].
    pose proof Hrep as (? & ? & _). rewrite (spec_lookup_in L e en), He, Hll by done.
    eexists _, ((e, mkEntry (key en) v exp) :: rm e L).
    split_and!; [unfold mbind, M_bind; simpl; done| | |done].
    + by apply rep_front with en.
    + simpl. f_equal. symmetry. by apply rm_entries.
  - destruct (rep_push c L k v exp m Hrep Hc Hmk) as [Hll Hrep'].
    rewrite (rep_lookup_None c L k m), Hll by done.
    unfold mbind at 1, M_bind at 1, deref at 1. cbn [mret M_ret].
    do 3 (unfold mbind at 1, M_bind at 1, modify at 1; cbv beta iota).
    set (c1 := set_cache _ _) in *. set (L1 := _ :: L) in *.
    assert (Z.of_nat (length (length (elems c) :: L.*1)) = Z.of_nat (length (mkEntry k v exp :: L.*2))) as ->
      by (simpl; by rewrite !length_fmap).
    case_decide as Hmax; cycle 1.
    { by exists c1, L1. }
    destruct (RemoveOldest_spec c1 s L1 Hrep') as (c' & L' & Hr & HL' & HL2 & Hcfg).
    exists c', L'. split_and!; [exact Hr|done..].
Qed.

Lemma Add_spec c s L k v exp :
  rep c L →
  let r := spec_Add (OnEvicted c) (MaxEntries c) k v exp L.*2 s in
  ∃ c' L', Add k v exp (c, s) = (Val tt, (c', r.2)) ∧
    rep c' L' ∧ L'.*2 = r.1 ∧ same_config c c'.
Proof.
  intros Hrep. destruct (cache c) as [m|] eqn:Hc; [by eapply Add_ready|].
  pose proof (Add_ready _ s L k v exp ∅ (rep_init c L Hrep Hc) eq_refl) as Hr.
  assert (Add k v exp (c, s) = Add k v exp (set_ll (Some []) (set_cache (Some ∅) c), s)) as ->;
    [|exact Hr].
  unfold Add, this, mbind, M_bind. simpl. by rewrite Hc.
Qed.

Lemma run_op_refines c s l o :
  models c l →
  let r := spec_op (OnEvicted c) (MaxEntries c) o l s in
  ∃ c', run_op o (c, s) = (Val r.1, (c', r.2.2)) ∧ models c' r.2.1 ∧ same_config c c'.
Proof.
  intros (L & Hrep & <-). destruct o as [k v exp|k now|k| |]; simpl.
  - destruct (Add_spec c s L k v exp Hrep) as (c' & L' & Hr & ? & ? & ?).
    exists c'. mstep Hr. split_and!; [done|by eexists|done].
  - destruct (Get_spec c s L k now Hrep) as (c' & L' & Hr & ? & ? & ?).
    destruct (spec_Get _ _ _ _ _) as [r [l s']]. simpl in *.
    exists c'. mstep Hr. split_and!; [done|by eexists|done].
  - destruct (Remove_spec c s L k Hrep) as (c' & L' & Hr & ? & ? & ?).
    exists c'. mstep Hr. split_and!; [done|by eexists|done].
  - destruct (RemoveOldest_spec c s L Hrep) as (c' & L' & Hr & ? & ? & ?).
    exists c'. mstep Hr. split_and!; [done|by eexists|done].
  - exists c. erewrite M_bind_val by (by apply Len_spec). split_and!; [done|by eexists|done].
Qed.

Lemma run_ops_refines os c s l :
  models c l →
  let r := spec_ops (OnEvicted c) (MaxEntries c) os l s in
  ∃ c', run_ops os (c, s) = (Val r.1, (c', r.2.2)) ∧ models c' r.2.1 ∧ same_config c c'.
Proof.
  revert c s l. induction os as [|o os IH]; intros c s l Hm; simpl.
  - by exists c.
  - destruct (run_op_refines c s l o Hm) as (c1 & Hr & Hm1 & [HM HO]).
    destruct (spec_op _ _ o l s) as [a [l1 s1]]. simpl in *.
    destruct (IH c1 s1 l1 Hm1) as (c2 & Hr2 & Hm2 & [HM2 HO2]). rewrite HM, HO in *.
    destruct (spec_ops _ _ os l1 s1) as [r [l2 s2]]. simpl in *.
    exists c2. mstep Hr. mstep Hr2.
    split_and!; [done..|]. unfold same_config. by rewrite HM2, HO2.
Qed.

Lemma models_empty max f es : models (mkCache max f None None es) [].
Proof. exists []. split; [|done]. split_and!; [constructor|constructor| |done].
  intros e en ?%elem_of_nil. done. Qed.

Lemma models_New max f : models (mkCache max f (Some []) (Some ∅) []) [].
Proof.
  exists []. split; [|done]. split_and!; [constructor|constructor| |].
  - intros e en ?%elem_of_nil. done.
  - split; [done|]. intros k e. rewrite lookup_empty. split; [done|].
    intros (en & ?%elem_of_nil & _). done.
Qed.

Lemma models_NoDup c l : models c l → NoDup (key <$> l).
Proof. by intros (L & (_ & ? & _) & <-). Qed.

(** *** Facts about the specification *)
Lemma spec_lookup_Some_key k l en : spec_lookup k l = Some en → key en = k ∧ en ∈ l.
Proof.
  intros (i & Hi & Hb & _)%find_first_Some. apply bool_decide_eq_true in Hb.
  split; [done|]. by eapply list_elem_of_lookup_2.
Qed.

Lemma spec_lookup_delete_ne k k' l : k ≠ k' → spec_lookup k (spec_delete k' l) = spec_lookup k l.
Proof.
  intros Hne. unfold spec_lookup, spec_delete. induction l as [|en l IH]; simpl; [done|].
  rewrite filter_cons. case_decide; simpl; rewrite IH; repeat case_bool_decide; naive_solver.
Qed.

Lemma spec_lookup_delete_eq k l : spec_lookup k (spec_delete k l) = None.
Proof.
  apply find_first_None. intros en [? _]%list_elem_of_filter. by apply bool_decide_eq_false.
Qed.

Lemma spec_delete_absent k l : spec_lookup k l = None → spec_delete k l = l.
Proof.
  unfold spec_delete, spec_lookup. induction l as [|en l IH]; [done|]. rewrite filter_cons.
  simpl. case_bool_decide; [done|]. intros Hn. rewrite decide_True by done. by rewrite IH.
Qed.

Lemma NoDup_delete l k : NoDup (key <$> l) → NoDup (key <$> spec_delete k l).
Proof. intros Hd. eapply sublist_NoDup; [exact Hd|]. apply fmap_sublist, sublist_filter. Qed.

(** With distinct keys, deleting a present key removes one entry. *)
Lemma delete_present k l en :
  NoDup (key <$> l) → spec_lookup k l = Some en → l ≡ₚ en :: spec_delete k l.
Proof.
  unfold spec_lookup. induction l as [|en' l IH]; [done|]. intros [Hni Hd]%NoDup_cons. simpl.
  unfold spec_delete. rewrite filter_cons. case_bool_decide as Hk.
  - intros [= ->]. rewrite decide_False by naive_solver. constructor.
    change (l ≡ₚ spec_delete k l). rewrite spec_delete_absent; [done|].
    apply find_first_None. intros en' Hin. apply bool_decide_eq_false. intros ?.
    apply Hni, list_elem_of_fmap. exists en'. split; [congruence|done].
  - intros Hl. rewrite decide_True by done. rewrite (IH Hd Hl) at 1. constructor.
Qed.

Lemma last_lookup l en :
  NoDup (key <$> l) → last l = Some en → spec_lookup (key en) l = Some en.
Proof.
  intros Hd Hl. apply find_first_Some. exists (pred (length l)). rewrite last_lookup in Hl.
  split_and!; [done|by apply bool_decide_eq_true|]. intros j y Hj Hy.
  apply bool_decide_eq_false. intros Hk. assert (j = pred (length l)); [|lia].
  eapply (NoDup_lookup (key <$> l)); [done|..]; rewrite list_lookup_fmap.
  - by rewrite Hy.
  - rewrite Hl. simpl. congruence.
Qed.
End LruSpec.
Arguments op : clear implicits.
Arguments answer : clear implicits.

(** ** Theorems *)

Section LruTheorems.
Context {K : Type} `{Countable K} {V S : Type}.

(** C9: Refinement: on a fresh cache (from [New] or the zero value [mutexCache]
    uses), every sequence of operations runs without panicking, gives the
    answers of the abstract LRU list, calls [OnEvicted] on the same entries in
    the same order, and leaves a list and a map that represent the abstract
    state. *)
Theorem lru_refines_spec (max : Z) (f : option (K → V → S → S)) (c : Cache K V S)
  (os : list (op K V)) (s : S)
  (Hfresh : c = mkCache max f None None [] ∨ c = mkCache max f (Some []) (Some ∅) []) :
  ∃ c', run_ops os (c, s)
        = (Val (spec_ops f max os [] s).1, (c', (spec_ops f max os [] s).2.2)) ∧
        models c' (spec_ops f max os [] s).2.1.
Proof.
  assert (models c [] ∧ OnEvicted c = f ∧ MaxEntries c = max) as (Hm & <- & <-)
    by (destruct Hfresh as [->| ->]; split_and!; auto using models_empty, models_New).
  destruct (run_ops_refines os c s [] Hm) as (c' & Hr & Hm' & _). by exists c'.
Qed.

Lemma spec_RemoveOldest_length (f : option (K → V → S → S)) (l : list (entry K V)) s :
  NoDup (key <$> l) → length (spec_RemoveOldest f l s).1 = pred (length l).
Proof.
  intros Hd. unfold spec_RemoveOldest. destruct (last l) as [en|] eqn:El; simpl.
  - rewrite (delete_present _ l en Hd (last_lookup l en Hd El)) at 2. done.
  - by apply last_None in El as ->.
Qed.

Lemma spec_op_NoDup f max (o : op K V) (l : list (entry K V)) (s : S) :
  NoDup (key <$> l) → NoDup (key <$> (spec_op f max o l s).2.1).
Proof.
  assert (∀ (l : list (entry K V)) (s : S), NoDup (key <$> l) → NoDup (key <$> (spec_RemoveOldest f l s).1)) as HRO.
  { intros l0 s0 Hd. unfold spec_RemoveOldest. destruct (last l0); simpl; [by apply NoDup_delete|done]. }
  assert (∀ (l : list (entry K V)) en, NoDup (key <$> l) → NoDup (key <$> (en :: spec_delete (key en) l))) as Hfr.
  { intros l0 en Hd. rewrite fmap_cons. apply NoDup_cons. split; [|by apply NoDup_delete].
    intros (en' & ? & [? _]%list_elem_of_filter)%list_elem_of_fmap. congruence. }
  intros Hd. destruct o as [k v exp|k now|k| |]; simpl; [| | |by apply HRO|done].
  - unfold spec_Add. destruct (spec_lookup k l) eqn:El; simpl; [by apply (Hfr l (mkEntry k v exp))|].
    assert (NoDup (key <$> mkEntry k v exp :: l)) as Hd'.
    { pose proof (Hfr l (mkEntry k v exp) Hd) as Hx. simpl in Hx.
      by rewrite spec_delete_absent in Hx. }
    case_decide; [by apply HRO|done].
  - unfold spec_Get, spec_Remove. destruct (spec_lookup k l) as [en|] eqn:El; [|done].
    apply spec_lookup_Some_key in El as [<- _].
    destruct (expired now en); simpl; [by apply NoDup_delete|by apply Hfr].
  - unfold spec_Remove. destruct (spec_lookup k l); simpl; [by apply NoDup_delete|done].
Qed.

Lemma spec_op_length f max (o : op K V) (l : list (entry K V)) (s : S) :
  0 < max → NoDup (key <$> l) → Z.of_nat (length l) <= max →
  Z.of_nat (length (spec_op f max o l s).2.1) <= max.
Proof.
  intros Hmax Hd Hl.
  assert (∀ k, length (spec_delete k l) ≤ length l)%nat as Hdel
    by (intros; apply sublist_length, sublist_filter).
  destruct o as [k v exp|k now|k| |]; simpl; [| | | |done].
  - pose proof (spec_op_NoDup None 0 (OpAdd k v exp) l s Hd) as Hd'.
    simpl in Hd'. unfold spec_Add in *. destruct (spec_lookup k l) as [old|] eqn:El; simpl.
    { rewrite (delete_present k l old Hd El) in Hl. simpl in Hl. lia. }
    rewrite decide_False in Hd' by naive_solver.
    case_decide as Hc; simpl in *; [|lia].
    rewrite spec_RemoveOldest_length by done. simpl. lia.
  - unfold spec_Get, spec_Remove. destruct (spec_lookup k l) as [en|] eqn:El; [|done].
    rewrite (delete_present k l en Hd El) in Hl. simpl in Hl.
    destruct (expired now en); simpl; lia.
  - unfold spec_Remove. destruct (spec_lookup k l) as [en|] eqn:El; [|done].
    simpl. specialize (Hdel k). lia.
  - rewrite spec_RemoveOldest_length by done. lia.
Qed.

(** A cache created with [MaxEntries > 0] never holds more entries than that,
    whatever the sequence of operations. *)
Theorem lru_never_exceeds_MaxEntries (max : Z) (f : option (K → V → S → S))
  (os : list (op K V)) (s : S) (Hmax : 0 < max) :
  ∃ r c' s' n, run_ops os (mkCache max f (Some []) (Some ∅) [], s) = (Val r, (c', s')) ∧
    Len (c', s') = (Val n, (c', s')) ∧ 0 <= n <= max.
Proof.
  destruct (run_ops_refines os (mkCache max f (Some []) (Some ∅) []) s [] (models_New max f))
    as (c' & Hr & (L & Hrep & HL) & _).
  assert (∀ (l : list (entry K V)) (s : S), NoDup (key <$> l) → Z.of_nat (length l) <= max →
            Z.of_nat (length (spec_ops f max os l s).2.1) <= max) as Hbound.
  { clear -Hmax. induction os as [|o os IH]; intros l s Hd Hl; simpl; [done|].
    pose proof (spec_op_NoDup f max o l s Hd). pose proof (spec_op_length f max o l s Hmax Hd Hl).
    destruct (spec_op f max o l s) as [a [l1 s1]]. simpl in *.
    specialize (IH l1 s1). destruct (spec_ops f max os l1 s1) as [r [l2 s2]]. by apply IH. }
  eexists _, c', _, _. split_and!; [exact Hr|by apply Len_spec|lia|].
  rewrite HL. apply Hbound; [constructor|simpl; lia].
Qed.

(** Insert/lookup: right after [Add k v exp], [Get k] returns [v] unless the
    entry has already expired at the time of the [Get]; an expired entry is
    removed and not returned.  A key other than [k] is answered as before when
    the cache has no entry limit. *)
Theorem lru_get_after_add (c : Cache K V S) (l : list (entry K V)) (s : S)
  (k k' : K) (v : V) (exp now : Time)
  (Hc : models c l) (Hmax : 0 <= MaxEntries c) (Hk : k' ≠ k) :
  ∃ c1 s1 c2 s2, Add k v exp (c, s) = (Val tt, (c1, s1)) ∧
    Get k now (c1, s1)
      = (Val (if expired now (mkEntry k v exp) then None else Some v), (c2, s2)) ∧
    (MaxEntries c = 0 → (Get k' now (c1, s1)).1 = (Get k' now (c, s)).1).
Proof.
  pose proof (models_NoDup c l Hc) as Hnd. destruct Hc as (L & Hrep & <-).
  destruct (Add_spec c s L k v exp Hrep) as (c1 & L1 & Hadd & Hrep1 & HL1 & [HM HO]).
  pose proof (Get_spec c1 (spec_Add (OnEvicted c) (MaxEntries c) k v exp L.*2 s).2 L1 k now Hrep1)
    as (c2 & L2 & Hget & _).
  assert (∃ tl, L1.*2 = mkEntry k v exp :: tl ∧
                (MaxEntries c = 0 → tl = spec_delete k L.*2)) as (tl & Htl & Htl0).
  { rewrite HL1. unfold spec_Add. destruct (spec_lookup k L.*2) eqn:El; [by eexists|].
    rewrite spec_delete_absent by done. case_decide as Hd; [|by eexists].
    unfold spec_RemoveOldest. destruct L.*2 as [|en l] eqn:EL; [simpl in Hd; lia|].
    rewrite last_cons_cons. destruct (last (en :: l)) as [en'|] eqn:Elast; [|by eexists].
    simpl. unfold spec_delete at 1. rewrite filter_cons, decide_True; [eexists; naive_solver|].
    simpl. intros ->. apply last_Some_elem_of in Elast as Hin.
    eapply find_first_None in El; [|exact Hin]. by rewrite bool_decide_eq_true_2 in El. }
  assert (spec_lookup k L1.*2 = Some (mkEntry k v exp)) as Hlk
    by (rewrite Htl; unfold spec_lookup; simpl; by rewrite bool_decide_eq_true_2).
  eexists c1, _, c2, _. split_and!; [exact Hadd| |].
  - rewrite Hget. apply pair_equal_spec. split; [|reflexivity].
    unfold spec_Get, spec_Remove. rewrite Hlk. by destruct (expired _ _).
  - intros H0. destruct (Get_spec c s L k' now Hrep) as (? & ? & -> & _).
    match goal with |- (Get _ _ (_, ?s1)).1 = _ =>
      destruct (Get_spec c1 s1 L1 k' now Hrep1) as (? & ? & -> & _) end. simpl.
    unfold spec_Get, spec_Remove. rewrite Htl, Htl0 by done. simpl.
    unfold spec_lookup at 1. simpl. rewrite bool_decide_eq_false_2 by (simpl; congruence).
    fold (spec_lookup k' (spec_delete k L.*2)). rewrite spec_lookup_delete_ne by done.
    destruct (spec_lookup k' L.*2) as [en|]; [|done]. by destruct (expired now en).
Qed.

(** [Clear] passes every stored entry to [OnEvicted] exactly once, in some
    order, and leaves an empty cache. *)
Theorem lru_clear (g : K → V → S → S) (c : Cache K V S) (l : list (entry K V))
  (s : S) `{!MapRange K nat}
  (Hc : models c l) (Hg : OnEvicted c = Some g) :
  ∃ c' l', l' ≡ₚ l ∧
    Clear (c, s) = (Val tt, (c', foldl (λ s en, g (key en) (value en) s) s l')) ∧
    models c' [].
Proof.
  destruct Hc as (L & Hrep & <-).
  assert (∀ (es : list (K * nat)) (L' : list (nat * entry K V)) s,
    es.*2 = L'.*1 → (∀ p, p ∈ L' → p ∈ L) →
    evict_each es (c, s) = (Val tt, (c, foldl (λ s en, g (key en) (value en) s) s L'.*2))) as Hev.
  { induction es as [|[k e] es IH]; intros [|[e' en] L'] s0 Heq Hsub; simplify_eq/=; [done|].
    assert (elems c !! e' = Some en) as He by (destruct Hrep as (_ & _ & He & _); apply He, Hsub; set_solver).
    unfold mbind, M_bind, this. rewrite He. simpl. rewrite Hg. apply IH; [done|set_solver]. }
  assert (∃ L', L' ≡ₚ L ∧ (map_range (default ∅ (cache c))).*2 = L'.*1) as (L' & Hp & Heq).
  { assert ((map_range (default ∅ (cache c))).*2 ≡ₚ L.*1) as Hp.
    { rewrite map_range_perm.
      destruct Hrep as (Ha & Hk & He & Hm). destruct (ll c), (cache c) as [m|]; try done; simpl.
      - destruct Hm as [_ Hm].
        assert (map_to_list m ≡ₚ (λ p, (key p.2, p.1)) <$> L) as ->.
        { apply NoDup_Permutation; [apply NoDup_map_to_list| |].
          - eapply (NoDup_fmap_1 fst). rewrite <-list_fmap_compose.
            rewrite <-list_fmap_compose in Hk. exact Hk.
          - intros [k e]. rewrite elem_of_map_to_list, Hm, list_elem_of_fmap. split.
            + intros (en & ? & <-). by exists (e, en).
            + intros ([e' en] & ? & ?). simplify_eq/=. eauto. }
        by rewrite <-list_fmap_compose.
      - by rewrite Hm, map_to_list_empty. }
    apply Permutation_map_inv in Hp as (L' & Heq & Hp). exists L'. by split. }
  eexists _, L'.*2. split_and!; [by rewrite Hp| |apply models_empty].
  unfold Clear, this. unfold mbind at 1, M_bind at 1. rewrite Hg.
  erewrite M_bind_val; [|apply (Hev _ L' s Heq); intros p ?; by rewrite <-Hp].
  done.
Qed.
End LruTheorems.

Lemma lru_refines_spec_witness :
  ∃ c', run_ops [OpAdd "a" 1 zero_time; OpAdd "b" 2 zero_time; OpGet "a" 0;
                 OpAdd "c" 3 zero_time; OpGet "b" 0; OpLen]
          (mkCache 2 (Some (λ (k : string) (_ : Z) (s : list string), k :: s))
             (Some []) (Some ∅) [], [])
        = (Val [Done; Done; Found (Some 1); Done; Found None; Count 2], (c', ["b"])) ∧
        models c' [mkEntry "c" 3 zero_time; mkEntry "a" 1 zero_time].
Proof.
  destruct (lru_refines_spec 2 (Some (λ (k : string) (_ : Z) (s : list string), k :: s))
           (mkCache 2 (Some (λ k _ s, k :: s)) (Some []) (Some ∅) [])
           [OpAdd "a" 1 zero_time; OpAdd "b" 2 zero_time; OpGet "a" 0;
            OpAdd "c" 3 zero_time; OpGet "b" 0; OpLen] []) as (c' & H1 & H2).
  { right. reflexivity. }
  exists c'. vm_compute in H1, H2. split; [exact H1|exact H2].
Defined.

Lemma lru_never_exceeds_MaxEntries_witness :
  ∃ r c' s' n,
    run_ops [OpAdd "a" 1 0; OpAdd "b" 2 0] (mkCache 1 None (Some []) (Some (∅ : gmap string nat)) [], tt)
      = (Val r, (c', s')) ∧
    Len (c', s') = (Val n, (c', s')) ∧ 0 <= n <= 1.
Proof. apply (lru_never_exceeds_MaxEntries 1 None [OpAdd "a" 1 0; OpAdd "b" 2 0] tt). lia. Defined.

Lemma lru_get_after_add_witness :
  ∃ c1 s1 c2 s2,
    Add "a" 1 5 (mkCache 0 None None None [] : Cache string Z unit, tt) = (Val tt, (c1, s1)) ∧
    Get "a" 4 (c1, s1) = (Val (Some 1), (c2, s2)) ∧
    (0 = 0 → (Get "b" 4 (c1, s1)).1
             = (Get "b" 4 (mkCache 0 None None None [] : Cache string Z unit, tt)).1).
Proof.
  apply (lru_get_after_add (mkCache 0 None None None []) [] tt "a" "b" 1 5 4).
  - apply models_empty.
  - simpl. lia.
  - done.
Defined.

Lemma lru_clear_witness :
  ∃ c' (l' : list (entry string Z)), l' ≡ₚ [] ∧
    Clear (mkCache 0 (Some (λ (k : string) (_ : Z) (s : list string), k :: s)) None None [], [])
    = (Val tt, (c', foldl (λ s (en : entry string Z), key en :: s) [] l')) ∧ models c' [].
Proof.
  apply (lru_clear (λ (k : string) (_ : Z) (s : list string), k :: s)
           (mkCache 0 (Some (λ (k : string) (_ : Z) (s : list string), k :: s)) None None []) [] []).
  - apply models_empty.
  - reflexivity.
Defined.
