(* ===== verification/MutexCache.v ===== *)
(** * The default cache

    Models [src/cache.go] ([mutexCache] and [newMutexCache]) on top of the LRU
    cache, with [CacheStats] of [src/stats.go].  Every method holds the mutex
    for its whole body, so a method is one atomic step on the state.  Byte
    counts and statistics are [int64] and wrap.

    The loop of [removeOldest] has no bound in the source.  The model gives it
    fuel (one round per stored entry and one more) and returns [Diverged] when
    that is used up; [mutexCache_invariant] shows that this never happens on a
    cache created with a non-negative limit, and [removeOldest_negative_limit]
    that no amount of fuel is enough for a negative one. *)

From S2P Require Import Prelude Slices ByteView Lru.

Record CacheStats : Type := mkCacheStats {
  Rejected : Z;
  Bytes : Z;
  Items : Z;
  Gets : Z;
  Hits : Z;
  Evictions : Z;
}.

(** The part of the state the [OnEvicted] closure writes: [m.bytes] and
    [m.evictions]. *)
Abbreviation counters := (Z * Z)%type.
Abbreviation lru_cache := (Lru.Cache string ByteView counters).

Record mutexCache : Type := mkMutexCache {
  m_lru : option lru_cache;
  m_bytes : Z;
  m_hits : Z;
  m_gets : Z;
  m_evictions : Z;
  m_maxBytes : Z;
}.

Definition newMutexCache (maxBytes : Z) : mutexCache :=
  mkMutexCache None 0 0 0 0 maxBytes.

(** [int64(len(key)) + int64(value.Len())] *)
Definition item_size (k : string) (v : ByteView) : Z :=
  add64 (Z.of_nat (String.length k)) (ByteView.Len v).

(** The [OnEvicted] closure installed by [Add]. *)
Definition onEvicted (k : string) (v : ByteView) (c : counters) : counters :=
  (sub64 c.1 (item_size k v), add64 c.2 1).

(** A method of the embedded [*lru.Cache]; a nil pointer panics. *)
Definition with_lru {A} (f : M (lru_cache * counters) A) : M mutexCache A := λ m,
  match m_lru m with
  | None => (Panicked, m)
  | Some c =>
      let '(r, (c, (b, ev))) := f (c, (m_bytes m, m_evictions m)) in
      (r, mkMutexCache (Some c) b (m_hits m) (m_gets m) ev (m_maxBytes m))
  end.

Definition set_lru (c : lru_cache) (m : mutexCache) : mutexCache :=
  mkMutexCache (Some c) (m_bytes m) (m_hits m) (m_gets m) (m_evictions m) (m_maxBytes m).
Definition add_bytes (n : Z) (m : mutexCache) : mutexCache :=
  mkMutexCache (m_lru m) (add64 (m_bytes m) n) (m_hits m) (m_gets m) (m_evictions m) (m_maxBytes m).
Definition count_get (m : mutexCache) : mutexCache :=
  mkMutexCache (m_lru m) (m_bytes m) (m_hits m) (add64 (m_gets m) 1) (m_evictions m) (m_maxBytes m).
Definition count_hit (m : mutexCache) : mutexCache :=
  mkMutexCache (m_lru m) (m_bytes m) (add64 (m_hits m) 1) (m_gets m) (m_evictions m) (m_maxBytes m).

Definition update (f : mutexCache → mutexCache) : M mutexCache unit := λ m, (Val tt, f m).

(** [itemsLocked] *)
Definition itemsLocked : M mutexCache Z :=
  m ← get_state;
  match m_lru m with
  | None => mret 0
  | Some _ => with_lru Lru.Len
  end.

Definition Stats : M mutexCache CacheStats :=
  items ← itemsLocked;
  m ← get_state;
  mret (mkCacheStats 0 (m_bytes m) items (m_gets m) (m_hits m) (m_evictions m)).

(** The [for] loop of [removeOldest]. *)
Fixpoint removeOldest_loop (fuel : nat) : M mutexCache unit :=
  match fuel with
  | O => diverge
  | S fuel =>
      m ← get_state;
      if decide (m_bytes m <= m_maxBytes m) then mret tt
      else
        _ ← (match m_lru m with
             | Some _ => with_lru Lru.RemoveOldest
             | None => mret tt
             end);
        removeOldest_loop fuel
  end.

(** Rounds given to the loop: one per stored element, and one more. *)
Definition loop_fuel (m : mutexCache) : nat :=
  match m_lru m with
  | Some c => S (length (default [] (ll c)))
  | None => 1
  end.

Definition removeOldest : M mutexCache unit :=
  m ← get_state;
  if decide (m_maxBytes m = 0) then mret tt else removeOldest_loop (loop_fuel m).

Definition Add (k : string) (v : ByteView) : M mutexCache unit :=
  m ← get_state;
  _ ← (match m_lru m with
       | None => update (set_lru (Lru.mkCache 0 (Some onEvicted) None None []))
       | Some _ => mret tt
       end);
  _ ← with_lru (Lru.Add k v (Expire v));
  _ ← update (add_bytes (item_size k v));
  removeOldest.

Definition Get (k : string) (now : Time) : M mutexCache (option ByteView) :=
  _ ← update count_get;
  m ← get_state;
  match m_lru m with
  | None => mret None
  | Some _ =>
      vi ← with_lru (Lru.Get k now);
      match vi with
      | None => mret None
      | Some v => _ ← update count_hit; mret (Some v)
      end
  end.

Definition Remove (k : string) : M mutexCache unit :=
  m ← get_state;
  match m_lru m with
  | None => mret tt
  | Some _ => with_lru (Lru.Remove k)
  end.

(** [mutexCache.Bytes] and [mutexCache.Close]. *)
Definition Cache_Bytes (m : mutexCache) : Z := m_bytes m.
Definition Close : M mutexCache unit := mret tt.

(** ** Abstraction

    A cache state stands for the list of its entries, most recently used
    first. *)

Abbreviation item := (Lru.entry string ByteView).

Definition entry_size (en : item) : Z :=
  Z.of_nat (String.length (key en)) + ByteView.Len (value en).
Definition size (l : list item) : Z := sumZ (entry_size <$> l).

Definition mrep (m : mutexCache) (l : list item) : Prop :=
  m_bytes m = wrap64 (size l) ∧ in_i64 (m_evictions m) ∧ NoDup (key <$> l) ∧
  match m_lru m with
  | None => l = []
  | Some c => models c l ∧ MaxEntries c = 0 ∧ OnEvicted c = Some onEvicted
  end.

(** The entries that fit a budget, from the most recently used on. *)
Fixpoint fit (budget : Z) (l : list item) : list item :=
  match l with
  | [] => []
  | en :: l => if decide (entry_size en <= budget) then en :: fit (budget - entry_size en) l else []
  end.

Lemma entry_size_nonneg en : 0 <= entry_size en.
Proof. unfold entry_size. pose proof (Len_nonneg (value en)). lia. Qed.

Lemma size_cons en l : size (en :: l) = entry_size en + size l.
Proof. done. Qed.

Lemma size_app l1 l2 : size (l1 ++ l2) = size l1 + size l2.
Proof. unfold size. by rewrite fmap_app, sumZ_app. Qed.

#[export] Instance size_perm : Proper ((≡ₚ) ==> (=)) size.
Proof. intros l1 l2 Hp. unfold size. by rewrite Hp. Qed.

Lemma size_nonneg l : 0 <= size l.
Proof.
  induction l as [|en l IH]; [done|]. rewrite size_cons. pose proof (entry_size_nonneg en). lia.
Qed.

Lemma size_take_le n l : size (take n l) <= size l.
Proof.
  rewrite <-(take_drop n l) at 2. rewrite size_app. pose proof (size_nonneg (drop n l)). lia.
Qed.

Lemma evict_counters x ev en :
  spec_evict (Some onEvicted) (key en) (value en) (wrap64 x, ev)
  = (wrap64 (x - entry_size en), add64 ev 1).
Proof.
  unfold spec_evict, onEvicted, item_size, add64, sub64, entry_size. simpl.
  by autorewrite with wrap64.
Qed.

Lemma size_delete k l en :
  NoDup (key <$> l) → spec_lookup k l = Some en → size (spec_delete k l) = size l - entry_size en.
Proof.
  intros Hd Hl. rewrite (delete_present k l en Hd Hl) at 2. rewrite size_cons. lia.
Qed.

Lemma spec_delete_last (l : list item) en :
  NoDup (key <$> (l ++ [en])) → spec_delete (key en) (l ++ [en]) = l.
Proof.
  rewrite fmap_app, NoDup_app. intros (_ & Hni & _). unfold spec_delete.
  rewrite filter_app, filter_cons, decide_False by naive_solver.
  rewrite filter_nil, app_nil_r.
  rewrite (filter_ext_in _ (λ _, True)).
  - clear. induction l; [done|]. by rewrite filter_cons, decide_True, IHl.
  - intros x Hx. split; [done|]. intros _ Hk. apply (Hni (key x)).
    + by apply list_elem_of_fmap_2.
    + rewrite Hk. set_solver.
Qed.

Lemma with_lru_eq {A} (f : M (lru_cache * counters) A) m c r c' b ev :
  m_lru m = Some c → f (c, (m_bytes m, m_evictions m)) = (r, (c', (b, ev))) →
  with_lru f m = (r, mkMutexCache (Some c') b (m_hits m) (m_gets m) ev (m_maxBytes m)).
Proof. unfold with_lru. by intros -> ->. Qed.

(** One round of the loop drops the last entry. *)
Lemma RemoveOldest_round m l en :
  mrep m (l ++ [en]) →
  ∃ c', with_lru Lru.RemoveOldest m
        = (Val tt, mkMutexCache (Some c') (wrap64 (size l)) (m_hits m) (m_gets m)
                     (add64 (m_evictions m) 1) (m_maxBytes m)) ∧
        models c' l ∧ MaxEntries c' = 0 ∧ OnEvicted c' = Some onEvicted ∧ is_Some (m_lru m).
Proof.
  intros (Hb & _ & Hd & Hl). destruct (m_lru m) as [c|] eqn:Ec; [|by destruct l].
  destruct Hl as (Hm & HM & HO). destruct Hm as (L & Hrep & HL).
  destruct (RemoveOldest_spec c (m_bytes m, m_evictions m) L Hrep)
    as (c' & L' & Hr & Hrep' & HL' & [HM' HO']).
  rewrite HL, HO in *. unfold spec_RemoveOldest in Hr, HL'. rewrite last_snoc in Hr, HL'.
  rewrite Hb, evict_counters in Hr. simpl in HL'. rewrite spec_delete_last in HL' by done.
  exists c'. split_and!; [|by exists L'|congruence|congruence|done].
  eapply with_lru_eq; [done|]. rewrite Hb. rewrite Hr. do 3 f_equal.
  simpl. do 2 f_equal. rewrite size_app, size_cons. change (size []) with 0. lia.
Qed.

Lemma removeOldest_loop_spec fuel m l :
  mrep m l → 0 <= m_maxBytes m → (length l < fuel)%nat →
  ∃ m' n, removeOldest_loop fuel m = (Val tt, m') ∧ mrep m' (take n l) ∧ (n ≤ length l)%nat ∧
    m_maxBytes m' = m_maxBytes m ∧ m_hits m' = m_hits m ∧ m_gets m' = m_gets m ∧
    m_evictions m' = wrap64 (m_evictions m + Z.of_nat (length l - n)) ∧
    wrap64 (size (take n l)) <= m_maxBytes m ∧
    (∀ j, (n < j ≤ length l)%nat → m_maxBytes m < wrap64 (size (take j l))).
Proof.
  revert m fuel. induction l as [|en l IH] using rev_ind; intros m fuel Hm Hmax Hf.
  - destruct fuel as [|fuel]; [simpl in Hf; lia|]. pose proof Hm as (Hb & Hev & _).
    exists m, 0%nat. simpl. unfold mbind, M_bind. simpl.
    assert (m_bytes m = 0) as Hb0 by (rewrite Hb; reflexivity).
    rewrite decide_True by lia. split_and!; try done; try lia.
    by rewrite Z.add_0_r, wrap64_id.
  - rewrite length_app in *. simpl length in *.
    destruct fuel as [|fuel]; [lia|]. pose proof Hm as (Hb & Hev & Hd & _).
    simpl removeOldest_loop. unfold get_state. unfold mbind at 1, M_bind at 1.
    case_decide as Hfit.
    + exists m, (length l + 1)%nat. rewrite take_ge by (rewrite length_app; simpl; lia).
      rewrite Nat.sub_diag, Z.add_0_r, wrap64_id by done. rewrite <-Hb.
      split_and!; try done; lia.
    + destruct (RemoveOldest_round m l en Hm) as (c' & Hr & Hmod & HM & HO & [c Hc]).
      rewrite Hc. mstep Hr. set (m1 := mkMutexCache _ _ _ _ _ _).
      destruct (IH m1 fuel) as (m' & n & Hrun & Hrep & Hn & HMax & Hh & Hg & He & Hle & Hlt);
        [|done|lia|].
      { split_and!; [done|apply wrap64_range| |done].
        rewrite fmap_app in Hd. by apply NoDup_app in Hd as [? _]. }
      exists m', n. rewrite take_app_le by done.
      split_and!; try done; [lia| |].
      * rewrite He. unfold m1, add64. simpl. rewrite wrap64_add_l. f_equal. lia.
      * intros j Hj. destruct (decide (j = length l + 1)%nat) as [->|].
        { rewrite take_ge by (rewrite length_app; simpl; lia). rewrite <-Hb. lia. }
        rewrite take_app_le by lia. apply Hlt. lia.
Qed.

(** [kept max l n]: [n] entries of [l] are left after trimming to [max]. *)
Definition kept (max : Z) (l : list item) (n : nat) : Prop :=
  (n ≤ length l)%nat ∧
  if decide (max = 0) then n = length l
  else wrap64 (size (take n l)) <= max ∧
       ∀ j, (n < j ≤ length l)%nat → max < wrap64 (size (take j l)).

Lemma kept_fit max l n :
  0 < max → size l < two63 → kept max l n → take n l = fit max l.
Proof.
  intros Hmax Hsz (Hn & Hk). rewrite decide_False in Hk by lia. destruct Hk as [Hle Hlt].
  assert (∀ j, wrap64 (size (take j l)) = size (take j l)) as Hw.
  { intros j. apply wrap64_id. pose proof (size_take_le j l). pose proof (size_nonneg (take j l)).
    unfold in_i64, two63 in *. lia. }
  rewrite Hw in Hle. setoid_rewrite Hw in Hlt. clear Hw Hsz.
  assert (0 <= max) as Hmax' by lia. clear Hmax.
  revert n max Hmax' Hn Hle Hlt. induction l as [|en l IH]; intros n max Hmax Hn Hle Hlt; simpl in *.
  - by rewrite take_nil.
  - pose proof (entry_size_nonneg en). destruct n as [|n]; simpl in *.
    + rewrite decide_False; [done|]. specialize (Hlt 1%nat). simpl in Hlt.
      rewrite size_cons in Hlt. change (size (take 0 l)) with 0 in Hlt. lia.
    + rewrite size_cons in Hle. pose proof (size_nonneg (take n l)).
      rewrite decide_True by lia. f_equal. apply IH; [lia|lia|lia|].
      intros j Hj. specialize (Hlt (S j)). simpl in Hlt. rewrite size_cons in Hlt. lia.
Qed.

Lemma removeOldest_spec m l :
  mrep m l → 0 <= m_maxBytes m →
  ∃ m' n, removeOldest m = (Val tt, m') ∧ mrep m' (take n l) ∧ kept (m_maxBytes m) l n ∧
    m_maxBytes m' = m_maxBytes m ∧ m_hits m' = m_hits m ∧ m_gets m' = m_gets m ∧
    m_evictions m' = wrap64 (m_evictions m + Z.of_nat (length l - n)).
Proof.
  intros Hm Hmax. unfold removeOldest, get_state, kept. unfold mbind at 1, M_bind at 1.
  case_decide as H0.
  - exists m, (length l). rewrite take_ge, Nat.sub_diag, Z.add_0_r by lia.
    pose proof Hm as (_ & ? & _). rewrite wrap64_id by done. by split_and!.
  - destruct (removeOldest_loop_spec (loop_fuel m) m l) as (m' & n & ? & ? & ? & ? & ? & ? & ? & ? & ?);
      [done..| |by exists m', n; split_and!].
    unfold loop_fuel. destruct Hm as (_ & _ & _ & Hl). destruct (m_lru m) as [c|]; [|subst; simpl; lia].
    destruct Hl as ((L & (_ & _ & _ & Hll) & <-) & _).
    destruct (ll c), (cache c); try done; simpl.
    + destruct Hll as [-> _]. rewrite !length_fmap. lia.
    + rewrite Hll. simpl. lia.
Qed.

(** The entries right after insertion, before trimming. *)
Definition added (k : string) (v : ByteView) (l : list item) : list item :=
  mkEntry k v (Expire v) :: spec_delete k l.

Definition replaced (k : string) (l : list item) : Z :=
  match spec_lookup k l with Some _ => 1 | None => 0 end.

Lemma lru_Add_step c b ev l k v :
  models c l → MaxEntries c = 0 → OnEvicted c = Some onEvicted → NoDup (key <$> l) →
  in_i64 ev → b = wrap64 (size l) →
  ∃ c' x, Lru.Add k v (Expire v) (c, (b, ev))
        = (Val tt, (c', (wrap64 x, wrap64 (ev + replaced k l)))) ∧
        x + Z.of_nat (String.length k) + ByteView.Len v = size (added k v l) ∧
        models c' (added k v l) ∧ MaxEntries c' = 0 ∧ OnEvicted c' = Some onEvicted.
Proof.
  intros (L & Hrep & <-) HM HO Hd Hev ->.
  destruct (Lru.Add_spec c (wrap64 (size L.*2), ev) L k v (Expire v) Hrep)
    as (c' & L' & Hr & Hrep' & HL' & [HM' HO']).
  rewrite HM, HO in *. unfold spec_Add in Hr, HL'. unfold replaced, added.
  rewrite size_cons. unfold entry_size. simpl key. simpl value.
  destruct (spec_lookup k L.*2) as [old|] eqn:El.
  - pose proof (spec_lookup_Some_key k _ old El) as [Hk _]. subst k.
    rewrite evict_counters in Hr.
    eexists c', _. split_and!; [exact Hr| |by exists L'|done|done].
    rewrite (size_delete _ _ old) by done. lia.
  - rewrite decide_False in Hr, HL' by naive_solver.
    exists c', (size L.*2). rewrite Z.add_0_r, (wrap64_id ev) by done.
    rewrite spec_delete_absent by done.
    split_and!; [exact Hr|lia|by exists L'|done|done].
Qed.

Lemma mAdd_spec m l k v :
  mrep m l → 0 <= m_maxBytes m →
  ∃ m' n, Add k v m = (Val tt, m') ∧ mrep m' (take n (added k v l)) ∧
    kept (m_maxBytes m) (added k v l) n ∧
    m_maxBytes m' = m_maxBytes m ∧ m_hits m' = m_hits m ∧ m_gets m' = m_gets m ∧
    m_evictions m' =
      wrap64 (m_evictions m + replaced k l + Z.of_nat (length (added k v l) - n)).
Proof.
  intros (Hb & Hev & Hd & Hl) Hmax.
  assert (∃ c, models c l ∧ MaxEntries c = 0 ∧ OnEvicted c = Some onEvicted ∧
    Add k v m = (_ ← with_lru (Lru.Add k v (Expire v)); _ ← update (add_bytes (item_size k v));
                 removeOldest) (set_lru c m)) as (c & Hmod & HM & HO & ->).
  { unfold Add, get_state. unfold mbind at 1, M_bind at 1. destruct (m_lru m) as [c|] eqn:Ec.
    - destruct Hl as (? & ? & ?). exists c. split_and!; [done..|].
      assert (set_lru c m = m) as -> by (unfold set_lru; rewrite <-Ec; by destruct m). done.
    - subst l. exists (Lru.mkCache 0 (Some onEvicted) None None []). split_and!; [apply models_empty|done..]. }
  destruct (lru_Add_step c (m_bytes m) (m_evictions m) l k v) as (c' & x & Hr & Hx & Hmod' & HM' & HO'); [done..|].
  erewrite M_bind_val; [|by eapply with_lru_eq; [done|exact Hr]].
  unfold update. unfold mbind at 1, M_bind at 1. simpl. unfold add_bytes. simpl.
  set (m1 := mkMutexCache _ _ _ _ _ _).
  destruct (removeOldest_spec m1 (added k v l)) as (m' & n & Hrun & ? & ? & ? & ? & ? & He); [|done|].
  { split_and!.
    - unfold m1, add64, item_size. simpl. rewrite <-Hx. unfold add64. autorewrite with wrap64. f_equal. lia.
    - apply wrap64_range.
    - by apply models_NoDup in Hmod'.
    - simpl. by split_and!. }
  exists m', n. split_and!; [exact Hrun|done..|]. rewrite He. unfold m1. simpl.
  by rewrite wrap64_add_l.
Qed.

Lemma mGet_spec m l k now :
  mrep m l →
  let hit := match spec_lookup k l with
             | Some en => if expired now en then None else Some en
             | None => None
             end in
  ∃ m', Get k now m = (Val (value <$> hit), m') ∧
    mrep m' (match spec_lookup k l with
             | Some en => if expired now en then spec_delete k l else en :: spec_delete k l
             | None => l
             end) ∧
    m_maxBytes m' = m_maxBytes m ∧ m_gets m' = add64 (m_gets m) 1 ∧
    m_hits m' = match hit with Some _ => add64 (m_hits m) 1 | None => m_hits m end.
Proof.
  intros (Hb & Hev & Hd & Hl). unfold Get, update, get_state.
  do 2 (unfold mbind at 1, M_bind at 1). destruct m as [lc b h g ev mx]. simpl in *.
  destruct lc as [c|]; cycle 1.
  { subst l. simpl. eexists. split; [done|]. by split_and!. }
  destruct Hl as ((L & Hrep & <-) & HM & HO).
  destruct (Lru.Get_spec c (b, ev) L k now Hrep) as (c' & L' & Hr & Hrep' & HL' & [HM' HO']).
  rewrite HO in *. revert Hr HL'. unfold spec_Get, spec_Remove. rewrite Hb in *.
  destruct (spec_lookup k L.*2) as [en|] eqn:El; [destruct (expired now en) eqn:Ex|].
  - rewrite evict_counters. simpl. intros Hr HL'.
    erewrite M_bind_val; [|by eapply with_lru_eq; [done|exact Hr]].
    eexists. split; [done|]. simpl. split_and!; [|done..].
    split_and!; simpl; [by rewrite (size_delete k _ en)|apply wrap64_range|by apply NoDup_delete|].
    split_and!; [by exists L'|congruence|done].
  - simpl. intros Hr HL'. erewrite M_bind_val; [|by eapply with_lru_eq; [done|exact Hr]].
    eexists. split; [done|]. simpl. split_and!; [|done..].
    pose proof (delete_present k L.*2 en Hd El) as Hp.
    split_and!; cbn [m_bytes m_evictions m_lru]; [by rewrite <-Hp|done|by rewrite <-Hp|].
    split_and!; [by exists L'|congruence|done].
  - simpl. intros Hr HL'. erewrite M_bind_val; [|by eapply with_lru_eq; [done|exact Hr]].
    eexists. split; [done|]. simpl. split_and!; [|done..].
    split_and!; [done..|]. split_and!; [by exists L'|congruence|done].
Qed.

Lemma mRemove_spec m l k :
  mrep m l →
  ∃ m', Remove k m = (Val tt, m') ∧ mrep m' (spec_delete k l) ∧
    m_maxBytes m' = m_maxBytes m ∧ m_gets m' = m_gets m ∧ m_hits m' = m_hits m ∧
    m_evictions m' = wrap64 (m_evictions m + replaced k l).
Proof.
  intros (Hb & Hev & Hd & Hl). unfold Remove, get_state, replaced.
  unfold mbind at 1, M_bind at 1. destruct m as [lc b h g ev mx]. simpl in *.
  destruct lc as [c|]; cycle 1.
  { subst l. simpl. eexists. split; [done|]. simpl. rewrite Z.add_0_r, wrap64_id by done. by split_and!. }
  destruct Hl as ((L & Hrep & <-) & HM & HO).
  destruct (Lru.Remove_spec c (b, ev) L k Hrep) as (c' & L' & Hr & Hrep' & HL' & [HM' HO']).
  rewrite HO in *. revert Hr HL'. unfold spec_Remove. rewrite Hb in *.
  destruct (spec_lookup k L.*2) as [en|] eqn:El.
  - rewrite evict_counters. simpl. intros Hr HL'.
    eexists. split; [by eapply with_lru_eq; [done|exact Hr]|]. simpl. split_and!; [|done..].
    split_and!; simpl; [by rewrite (size_delete k _ en)|apply wrap64_range|by apply NoDup_delete|].
    split_and!; [by exists L'|congruence|done].
  - simpl. intros Hr HL'. rewrite spec_delete_absent by done.
    eexists. split; [by eapply with_lru_eq; [done|exact Hr]|]. simpl.
    rewrite Z.add_0_r, (wrap64_id ev) by done. split_and!; [|done..].
    split_and!; [done..|]. split_and!; [by exists L'|congruence|done].
Qed.

Lemma Stats_spec m l :
  mrep m l →
  Stats m = (Val (mkCacheStats 0 (m_bytes m) (Z.of_nat (length l)) (m_gets m) (m_hits m)
                    (m_evictions m)), m).
Proof.
  intros (Hb & Hev & Hd & Hl). unfold Stats, itemsLocked, get_state, mbind, M_bind.
  destruct m as [lc b h g ev mx]. simpl in *. destruct lc as [c|]; [|by subst].
  destruct Hl as ((L & Hrep & <-) & _).
  erewrite with_lru_eq; [|done|by apply Lru.Len_spec]. simpl. done.
Qed.

(** ** Theorems *)

(** The operations a group performs on a cache. *)
Inductive mop : Type :=
| MAdd (k : string) (v : ByteView)
| MGet (k : string) (now : Time)
| MRemove (k : string).

Definition run_mop (o : mop) : M mutexCache (option (option ByteView)) :=
  match o with
  | MAdd k v => _ ← Add k v; mret None
  | MGet k now => r ← Get k now; mret (Some r)
  | MRemove k => _ ← Remove k; mret None
  end.

Fixpoint run_mops (os : list mop) : M mutexCache (list (option (option ByteView))) :=
  match os with
  | [] => mret []
  | o :: os => a ← run_mop o; r ← run_mops os; mret (a :: r)
  end.

Definition is_get (o : mop) : Z := match o with MGet _ _ => 1 | _ => 0 end.
Definition is_hit (a : option (option ByteView)) : Z := match a with Some (Some _) => 1 | _ => 0 end.

(** What one operation does to the abstract state and to the counters. *)
Lemma run_mop_spec m l o :
  mrep m l → 0 <= m_maxBytes m → in_i64 (m_gets m) → in_i64 (m_hits m) →
  ∃ a m' l', run_mop o m = (Val a, m') ∧ mrep m' l' ∧ m_maxBytes m' = m_maxBytes m ∧
    m_gets m' = wrap64 (m_gets m + is_get o) ∧ m_hits m' = wrap64 (m_hits m + is_hit a) ∧
    match o with
    | MAdd k v => ∃ n, l' = take n (added k v l) ∧ kept (m_maxBytes m) (added k v l) n
    | _ => size l' <= size l
    end.
Proof.
  intros Hm Hmax Hg Hh. pose proof Hm as (_ & _ & Hd & _). destruct o as [k v|k now|k]; simpl.
  - destruct (mAdd_spec m l k v Hm Hmax) as (m' & n & Hr & ? & ? & ? & Hh' & Hg' & _).
    eexists None, m', _. mstep Hr. simpl. rewrite !Z.add_0_r, !wrap64_id by done.
    split_and!; [done..|by exists n].
  - destruct (mGet_spec m l k now Hm) as (m' & Hr & Hm' & ? & Hg' & Hh').
    eexists _, m', _. mstep Hr. split; [done|]. split; [exact Hm'|].
    rewrite Hh'. simpl. destruct (spec_lookup k l) as [en|] eqn:El; [destruct (expired now en)|]; simpl.
    + rewrite Z.add_0_r, (wrap64_id (m_hits m)) by done. split_and!; [done..|].
      rewrite (size_delete k l en) by done. pose proof (entry_size_nonneg en). lia.
    + split_and!; [done..|]. rewrite (delete_present k l en Hd El) at 2. done.
    + by rewrite Z.add_0_r, (wrap64_id (m_hits m)) by done.
  - destruct (mRemove_spec m l k Hm) as (m' & Hr & ? & ? & Hg' & Hh' & _).
    eexists None, m', _. mstep Hr. simpl. rewrite !Z.add_0_r, !wrap64_id by done.
    split_and!; [done..|]. destruct (spec_lookup k l) as [en|] eqn:El.
    + rewrite (size_delete k l en) by done. pose proof (entry_size_nonneg en). lia.
    + by rewrite spec_delete_absent.
Qed.

Lemma run_mops_spec os m l :
  mrep m l → 0 <= m_maxBytes m → in_i64 (m_gets m) → in_i64 (m_hits m) →
  ∃ r m' l', run_mops os m = (Val r, m') ∧ mrep m' l' ∧ m_maxBytes m' = m_maxBytes m ∧
    m_gets m' = wrap64 (m_gets m + sumZ (is_get <$> os)) ∧
    m_hits m' = wrap64 (m_hits m + sumZ (is_hit <$> r)) ∧
    (0 < m_maxBytes m → size l <= m_maxBytes m →
     (∀ k v, MAdd k v ∈ os →
        Z.of_nat (String.length k) + ByteView.Len v + m_maxBytes m < two63) →
     size l' <= m_maxBytes m).
Proof.
  revert m l. induction os as [|o os IH]; intros m l Hm Hmax Hg Hh; simpl.
  - eexists _, m, l. split; [done|]. change (sumZ []) with 0. rewrite !Z.add_0_r, !wrap64_id by done.
    by split_and!.
  - destruct (run_mop_spec m l o Hm Hmax Hg Hh) as (a & m1 & l1 & Hr & Hm1 & Hx1 & Hg1 & Hh1 & Hl1).
    destruct (IH m1 l1) as (r & m' & l' & Hr' & Hm' & Hx' & Hg' & Hh' & Hb);
      [done|lia|rewrite Hg1; apply wrap64_range|rewrite Hh1; apply wrap64_range|].
    eexists _, m', l'. mstep Hr. mstep Hr'.
    split; [done|]. rewrite Hx1 in *. split_and!; [done..| | |].
    + rewrite Hg', Hg1, wrap64_add_l, <-Z.add_assoc. done.
    + rewrite Hh', Hh1, wrap64_add_l, <-Z.add_assoc. done.
    + intros Hpos Hsz Hadds. apply Hb; [done| |intros k v ?; apply Hadds; set_solver].
      destruct o as [k v| |]; [|lia..]. destruct Hl1 as (n & -> & Hk).
      specialize (Hadds k v ltac:(set_solver)).
      assert (size (added k v l) <= Z.of_nat (String.length k) + ByteView.Len v + size l) as Hsa.
      { unfold added. rewrite size_cons. unfold entry_size at 1. simpl.
        destruct (spec_lookup k l) as [en|] eqn:El.
        - destruct Hm as (_ & _ & Hd & _). rewrite (size_delete k l en) by done.
          pose proof (entry_size_nonneg en). lia.
        - rewrite spec_delete_absent by done. lia. }
      destruct Hk as [_ Hk]. rewrite decide_False in Hk by lia. destruct Hk as [Hk _].
      rewrite wrap64_id in Hk; [done|]. pose proof (size_take_le n (added k v l)).
      pose proof (size_nonneg (take n (added k v l))). unfold in_i64, two63 in *. lia.
Qed.

Lemma mrep_new maxBytes : mrep (newMutexCache maxBytes) [].
Proof. split_and!; [done|done|constructor|done]. Qed.

(** C27: Every sequence of [Add], [Get] and [Remove] on a cache made by
    [newMutexCache] with a non-negative limit terminates without panicking (the
    eviction loop included), the list and the map stay consistent, [Bytes]
    is the [int64] sum of the sizes of the stored keys and values, [Items]
    their number, and [Gets] and [Hits] count the lookups and their hits. *)
Theorem mutexCache_invariant (maxBytes : Z) (os : list mop) (Hmax : 0 <= maxBytes) :
  ∃ r m' l, run_mops os (newMutexCache maxBytes) = (Val r, m') ∧ mrep m' l ∧
    Stats m' = (Val (mkCacheStats 0 (wrap64 (size l)) (Z.of_nat (length l))
                       (wrap64 (sumZ (is_get <$> os))) (wrap64 (sumZ (is_hit <$> r)))
                       (m_evictions m')), m').
Proof.
  destruct (run_mops_spec os (newMutexCache maxBytes) [] (mrep_new maxBytes) Hmax)
    as (r & m' & l & Hr & Hm & _ & Hg & Hh & _); [done..|].
  exists r, m', l. split_and!; [done..|]. rewrite (Stats_spec m' l Hm), Hg, Hh. simpl.
  by destruct Hm as [-> _].
Qed.

(** C26: The byte limit holds in bytes actually stored: when every added key and
    value is smaller than [2^63 - maxBytes], the total size of the stored keys
    and values never exceeds [maxBytes], and [Bytes] reports it exactly. *)
Theorem mutexCache_bounded (maxBytes : Z) (os : list mop) (Hmax : 0 < maxBytes < two63)
  (Hadds : ∀ k v, MAdd k v ∈ os →
     Z.of_nat (String.length k) + ByteView.Len v + maxBytes < two63) :
  ∃ r m' l, run_mops os (newMutexCache maxBytes) = (Val r, m') ∧ mrep m' l ∧
    size l <= maxBytes ∧ Cache_Bytes m' = size l.
Proof.
  destruct (run_mops_spec os (newMutexCache maxBytes) [] (mrep_new maxBytes))
    as (r & m' & l & Hr & Hm & _ & _ & _ & Hb); [simpl; lia|done..|].
  exists r, m', l.
  assert (size l <= maxBytes) as Hsz
    by (apply Hb; simpl; [lia|unfold size, sumZ; simpl; lia|exact Hadds]).
  split_and!; [done..|]. destruct Hm as [Hbytes _]. unfold Cache_Bytes. rewrite Hbytes.
  apply wrap64_id. pose proof (size_nonneg l). unfold in_i64, two63 in *. lia.
Qed.

(** The eviction loop is equivalent to its reference: after [Add] the cache
    holds the new entry followed by the old ones in recency order (without the
    old entry of the key), cut to the longest prefix that fits [maxBytes];
    with no limit nothing is cut. *)
Theorem mutexCache_Add_keeps_most_recent (m : mutexCache) (l : list item) (k : string) (v : ByteView)
  (Hm : mrep m l) (Hmax : 0 <= m_maxBytes m) (Hsz : size (added k v l) < two63) :
  ∃ m', Add k v m = (Val tt, m') ∧
    mrep m' (if decide (m_maxBytes m = 0) then added k v l else fit (m_maxBytes m) (added k v l)).
Proof.
  destruct (mAdd_spec m l k v Hm Hmax) as (m' & n & Hr & Hm' & Hk & _).
  exists m'. split; [done|]. case_decide as H0.
  - destruct Hk as [_ Hk]. rewrite decide_True in Hk by done. subst n.
    by rewrite take_ge in Hm' by lia.
  - rewrite <-(kept_fit (m_maxBytes m) (added k v l) n); [done|lia|done|done].
Qed.

(** Insert/lookup under the byte limit: after [Add k v], [Get k] returns [v]
    unless it expired, provided key and value fit the limit on their own; an
    item larger than the limit is not kept, and it flushes the whole cache. *)
Theorem mutexCache_Get_after_Add (m : mutexCache) (l : list item) (k : string) (v : ByteView)
  (now : Time) (Hm : mrep m l) (Hmax : 0 < m_maxBytes m) (Hsz : size (added k v l) < two63) :
  ∃ m1 m2, Add k v m = (Val tt, m1) ∧
    if decide (Z.of_nat (String.length k) + ByteView.Len v <= m_maxBytes m)
    then Get k now m1
         = (Val (if expired now (mkEntry k v (Expire v)) then None else Some v), m2)
    else mrep m1 [] ∧ Get k now m1 = (Val None, m2).
Proof.
  destruct (mAdd_spec m l k v Hm) as (m1 & n & Hr & Hm1 & Hk & _); [lia|].
  rewrite (kept_fit (m_maxBytes m) (added k v l) n) in Hm1 by (done || lia).
  destruct (mGet_spec m1 _ k now Hm1) as (m2 & Hg & _). exists m1, m2. split; [done|].
  revert Hm1 Hg. unfold added. simpl.
  change (entry_size (mkEntry k v (Expire v)))
    with (Z.of_nat (String.length k) + ByteView.Len v).
  case_decide; [|by intros]. intros _ Hg. rewrite Hg. unfold spec_lookup at 1. simpl.
  rewrite bool_decide_eq_true_2 by done. by destruct (expired _ _).
Qed.

(** [removeOldest] does not return on a negative limit, whatever fuel it is
    given: it keeps looping after the cache is empty.  (Groups never create
    such a cache, see [ResetCacheSize].) *)
Theorem removeOldest_negative_limit (m : mutexCache) (l : list item) (fuel : nat)
  (Hm : mrep m l) (Hmax : m_maxBytes m < 0) (Hsz : size l < two63) :
  (removeOldest_loop fuel m).1 = Diverged.
Proof.
  revert m l Hm Hmax Hsz. induction fuel as [|fuel IH]; intros m l Hm Hmax Hsz; [done|].
  simpl. unfold get_state. unfold mbind at 1, M_bind at 1.
  pose proof Hm as (Hb & Hev & Hd & Hl). pose proof (size_nonneg l).
  rewrite wrap64_id in Hb by (unfold in_i64, two63 in *; lia).
  rewrite decide_False by lia.
  destruct (m_lru m) as [c|] eqn:Ec; [|by apply (IH m l)].
  induction l as [|en l _] using rev_ind.
  - destruct Hl as ((L & Hrep & HL) & HM & HO).
    destruct (RemoveOldest_spec c (m_bytes m, m_evictions m) L Hrep)
      as (c' & L' & Hr & Hrep' & HL' & [HM' HO']).
    rewrite HL in *. simpl in Hr, HL'.
    erewrite M_bind_val by (by eapply with_lru_eq; [done|exact Hr]).
    apply (IH _ []); [|done|done]. split_and!; [done..|]. simpl.
    split_and!; [by exists L'|congruence|congruence].
  - destruct (RemoveOldest_round m l en Hm) as (c' & Hr & Hmod & HM & HO & _).
    mstep Hr. rewrite size_app in Hsz. rewrite size_app in *.
    pose proof (size_nonneg [en]). apply (IH _ l); [|done|lia].
    split_and!; [done|apply wrap64_range|by apply models_NoDup in Hmod|by split_and!].
Qed.

Definition sample_view (s : string) : ByteView := mkByteView None s zero_time.

Lemma mutexCache_invariant_witness :
  ∃ r m' l, run_mops [MAdd "a" (sample_view "xy"); MGet "a" 0; MGet "b" 0] (newMutexCache 10)
            = (Val r, m') ∧ mrep m' l ∧
    Stats m' = (Val (mkCacheStats 0 (wrap64 (size l)) (Z.of_nat (length l))
                       (wrap64 2) (wrap64 (sumZ (is_hit <$> r))) (m_evictions m')), m').
Proof.
  apply (mutexCache_invariant 10 [MAdd "a" (sample_view "xy"); MGet "a" 0; MGet "b" 0]). lia.
Defined.

Lemma mutexCache_bounded_witness :
  ∃ r m' l, run_mops [MAdd "a" (sample_view "xy"); MAdd "b" (sample_view "zw")] (newMutexCache 5)
            = (Val r, m') ∧ mrep m' l ∧ size l <= 5 ∧ Cache_Bytes m' = size l.
Proof.
  apply (mutexCache_bounded 5 [MAdd "a" (sample_view "xy"); MAdd "b" (sample_view "zw")]).
  - unfold two63. lia.
  - intros k v Hin. rewrite !elem_of_cons, elem_of_nil in Hin.
    destruct Hin as [Hin|[Hin|[]]]; simplify_eq; reflexivity.
Defined.

Lemma mutexCache_Add_keeps_most_recent_witness :
  ∃ m', Add "a" (sample_view "xy") (newMutexCache 5) = (Val tt, m') ∧
    mrep m' [mkEntry "a" (sample_view "xy") zero_time].
Proof.
  apply (mutexCache_Add_keeps_most_recent (newMutexCache 5) [] "a" (sample_view "xy")).
  - apply mrep_new.
  - simpl. lia.
  - reflexivity.
Defined.

Lemma mutexCache_Get_after_Add_witness :
  ∃ m1 m2, Add "a" (sample_view "xy") (newMutexCache 5) = (Val tt, m1) ∧
           Get "a" 0 m1 = (Val (Some (sample_view "xy")), m2).
Proof.
  apply (mutexCache_Get_after_Add (newMutexCache 5) [] "a" (sample_view "xy") 0).
  - apply mrep_new.
  - simpl. lia.
  - reflexivity.
Defined.

Lemma removeOldest_negative_limit_witness :
  (removeOldest_loop 3 (newMutexCache (-1))).1 = Diverged.
Proof.
  apply (removeOldest_negative_limit (newMutexCache (-1)) [] 3).
  - apply mrep_new.
  - simpl. lia.
  - reflexivity.
Defined.
