(* ===== verification/Singleflight.v ===== *)
(** * Duplicate call suppression (internal/singleflight/singleflight.go)

    Goroutines that call [Group.Do] and [Group.Lock] on one shared [Group],
    interleaved in every possible way.  [sf_step] is one atomic action of one
    goroutine (a mutex operation, the body of a critical section, a
    [WaitGroup] operation, the return of the caller's function); a schedule
    is a list of such actions, [sf_exec] runs it and collects the observable
    events.  The caller's functions are opaque: the schedule chooses when
    they return and what, or that they panic. *)

From S2P Require Import Prelude Errors.

Section Singleflight.
Context {V : Type}.
Implicit Types (key : string) (t c : nat).

(** ** State *)

(** [call]: the counter of the [WaitGroup] and the two result fields.
    [interface{}] is nil or holds a value. *)
Record call := mkCall { wg : Z; val : option V; err : option error }.

(** The end of a function call: results, or a panic that unwinds. *)
Inductive outcome :=
| Ret (v : option V) (e : option error)
| Panics.

(** The error every call starts with. *)
Definition leader_panicked : option error :=
  Some (ErrorString "singleflight leader panicked").

(** What the waiting duplicates of a call read from its fields. *)
Definition published (o : outcome) : outcome :=
  match o with
  | Ret v e => Ret v e
  | Panics => Ret None leader_panicked
  end.

(** Where a goroutine is.  [c] is the address of its [call]. *)
Inductive pc :=
| Idle
| DoStart key                       (* before g.mu.Lock() *)
| DoLocked key                      (* in the critical section *)
| DoJoin key c                      (* duplicate: before g.mu.Unlock() *)
| DoWait key c                      (* duplicate: in c.wg.Wait() *)
| DoLead key c                      (* leader: before g.mu.Unlock() *)
| DoRun key c                       (* leader: fn is running *)
| DoDone key c (o : outcome)        (* deferred: before c.wg.Done() *)
| DoRelock key c (o : outcome)      (* deferred: before g.mu.Lock() *)
| DoDelete key c (o : outcome)      (* deferred: before delete(g.m, key) *)
| DoUnlock key c (o : outcome)      (* deferred: before g.mu.Unlock() *)
| LockStart                         (* Lock: before g.mu.Lock() *)
| LockRun                           (* Lock: fn is running *)
| LockUnlock (panicked : bool)      (* Lock: deferred g.mu.Unlock() *)
| Finished.                         (* the call returned or panicked *)

Record State := mkState {
  mu : option nat;                  (* the goroutine that holds g.mu *)
  m : option (gmap string nat);     (* g.m: nil, or keys to call addresses *)
  heap : list call;
  gos : list pc;
}.

Definition init (n : nat) : State := mkState None None [] (replicate n Idle).

(** What the scheduler supplies with an action. *)
Inductive input :=
| CallDo key
| CallLock
| FnEnds (o : outcome)
| Go.

Inductive event :=
| FnStarted t key c
| FnEnded t key c (o : outcome)
| DoReturned t key c (leader : bool) (o : outcome)
| LockFnStarted t
| LockReturned t (panicked : bool).

(** ** One atomic action of goroutine [t] *)

Definition goto t (p : pc) (s : State) : State :=
  mkState (mu s) (m s) (heap s) (<[t := p]> (gos s)).

Definition acquire t (s : State) : State := mkState (Some t) (m s) (heap s) (gos s).
Definition release (s : State) : State := mkState None (m s) (heap s) (gos s).

Definition set_call c (k : call) (s : State) : State :=
  mkState (mu s) (m s) (<[c := k]> (heap s)) (gos s).

(** The critical section of [Do]: find the call in flight, or create one. *)
Definition Do_locked t key (s : State) : State :=
  let calls := default ∅ (m s) in
  match calls !! key with
  | Some c => goto t (DoJoin key c) (mkState (mu s) (Some calls) (heap s) (gos s))
  | None =>
      let c := length (heap s) in
      goto t (DoLead key c)
        (mkState (mu s) (Some (<[key := c]> calls))
           (heap s ++ [mkCall 1 None leader_panicked]) (gos s))
  end.

(** [c.val, c.err = fn()]: a panic skips the assignment. *)
Definition assign_results c (o : outcome) (s : State) : State :=
  match o, heap s !! c with
  | Ret v e, Some k => set_call c (mkCall (wg k) v e) s
  | _, _ => s
  end.

Definition Do_delete t key c (o : outcome) (s : State) : State :=
  goto t (DoUnlock key c o) (mkState (mu s) (delete key <$> m s) (heap s) (gos s)).

Definition sf_step t (i : input) (s : State) : option (State * list event) :=
  match gos s !! t, i with
  | Some (Idle | Finished), CallDo key => Some (goto t (DoStart key) s, [])
  | Some (Idle | Finished), CallLock => Some (goto t LockStart s, [])
  | Some (DoStart key), Go =>
      match mu s with
      | None => Some (goto t (DoLocked key) (acquire t s), [])
      | Some _ => None
      end
  | Some (DoLocked key), Go => Some (Do_locked t key s, [])
  | Some (DoJoin key c), Go => Some (goto t (DoWait key c) (release s), [])
  | Some (DoWait key c), Go =>
      match heap s !! c with
      | Some k =>
          if bool_decide (wg k = 0)
          then Some (goto t Finished s, [DoReturned t key c false (Ret (val k) (err k))])
          else None
      | None => None
      end
  | Some (DoLead key c), Go => Some (goto t (DoRun key c) (release s), [FnStarted t key c])
  | Some (DoRun key c), FnEnds o =>
      Some (goto t (DoDone key c o) (assign_results c o s), [FnEnded t key c o])
  | Some (DoDone key c o), Go =>
      match heap s !! c with
      | Some k =>
          Some (goto t (DoRelock key c o) (set_call c (mkCall (wg k - 1) (val k) (err k)) s), [])
      | None => None
      end
  | Some (DoRelock key c o), Go =>
      match mu s with
      | None => Some (goto t (DoDelete key c o) (acquire t s), [])
      | Some _ => None
      end
  | Some (DoDelete key c o), Go => Some (Do_delete t key c o s, [])
  | Some (DoUnlock key c o), Go =>
      Some (goto t Finished (release s), [DoReturned t key c true o])
  | Some LockStart, Go =>
      match mu s with
      | None => Some (goto t LockRun (acquire t s), [LockFnStarted t])
      | Some _ => None
      end
  | Some LockRun, FnEnds o =>
      Some (goto t (LockUnlock (match o with Panics => true | Ret _ _ => false end)) s, [])
  | Some (LockUnlock b), Go => Some (goto t Finished (release s), [LockReturned t b])
  | _, _ => None
  end.

(** ** Schedules *)

Fixpoint sf_exec (sched : list (nat * input)) (s : State) : option (State * list event) :=
  match sched with
  | [] => Some (s, [])
  | (t, i) :: sched =>
      match sf_step t i s with
      | Some (s', es) =>
          match sf_exec sched s' with
          | Some (s'', es') => Some (s'', es ++ es')
          | None => None
          end
      | None => None
      end
  end.

(** States and the events before them, from [n] idle goroutines. *)
Inductive reachable (n : nat) : State → list event → Prop :=
| reach_init : reachable n (init n) []
| reach_step s tr t i s' es :
    reachable n s tr → sf_step t i s = Some (s', es) → reachable n s' (tr ++ es).

Lemma reachable_exec n s tr sched s' es :
  reachable n s tr → sf_exec sched s = Some (s', es) → reachable n s' (tr ++ es).
Proof.
  revert s tr es. induction sched as [|[t i] sched IH]; intros s tr es Hr Hx; simplify_eq/=.
  - by rewrite app_nil_r.
  - destruct (sf_step t i s) as [[s1 es1]|] eqn:Hs; [|done].
    destruct (sf_exec sched s1) as [[s2 es2]|] eqn:Hx2; simplify_eq/=.
    rewrite (assoc_L (++)). eapply IH; [by eapply reach_step|done].
Qed.

Lemma exec_reachable n sched s es :
  sf_exec sched (init n) = Some (s, es) → reachable n s es.
Proof. intros. by apply (reachable_exec n (init n) [] sched s es (reach_init n)). Qed.

(** ** Invariant *)

(** The goroutine holds [g.mu]. *)
Definition holds (p : pc) : bool :=
  match p with
  | DoLocked _ | DoJoin _ _ | DoLead _ _ | DoDelete _ _ _ | DoUnlock _ _ _
  | LockRun | LockUnlock _ => true
  | _ => false
  end.

(** The goroutine leads the call [c] for [key], which is in [g.m]. *)
Definition leads (p : pc) : option (string * nat) :=
  match p with
  | DoLead key c | DoRun key c | DoDone key c _ | DoRelock key c _
  | DoDelete key c _ => Some (key, c)
  | _ => None
  end.

(** The leader has not signalled the end of the call. *)
Definition pending (p : pc) : option nat :=
  match p with
  | DoLead _ c | DoRun _ c | DoDone _ c _ => Some c
  | _ => None
  end.

(** The calls in [g.m]. *)
Definition calls (s : State) : gmap string nat := default ∅ (m s).

(** [G] is a ghost list parallel to the heap: the leader and the key of each
    call.  [thread_ok] is what goroutine [t] knows at [p]. *)
Definition thread_ok (G : list (nat * string)) (s : State) (tr : list event) t (p : pc) : Prop :=
  (holds p = true ↔ mu s = Some t) ∧
  match p with
  | DoJoin key c | DoWait key c => ∃ t', G !! c = Some (t', key)
  | DoLead key c | DoRun key c =>
      calls s !! key = Some c ∧ G !! c = Some (t, key) ∧
      heap s !! c = Some (mkCall 1 None leader_panicked)
  | DoDone key c o =>
      calls s !! key = Some c ∧ G !! c = Some (t, key) ∧
      (∃ v e, heap s !! c = Some (mkCall 1 v e) ∧ Ret v e = published o) ∧
      FnEnded t key c o ∈ tr
  | DoRelock key c o | DoDelete key c o =>
      calls s !! key = Some c ∧ G !! c = Some (t, key) ∧ FnEnded t key c o ∈ tr
  | DoUnlock key c o => FnEnded t key c o ∈ tr
  | _ => True
  end.

Definition call_ok (gs : list pc) (tr : list event) t key c (k : call) : Prop :=
  (wg k = 1 ∧ ∃ p, gs !! t = Some p ∧ pending p = Some c) ∨
  (wg k = 0 ∧ ∃ o, FnEnded t key c o ∈ tr ∧ Ret (val k) (err k) = published o).

Record inv (G : list (nat * string)) (s : State) (tr : list event) : Prop := {
  inv_thread t p : gos s !! t = Some p → thread_ok G s tr t p;
  inv_len : length G = length (heap s);
  inv_mu t : mu s = Some t → is_Some (gos s !! t);
  inv_map key c : calls s !! key = Some c →
    ∃ t p, G !! c = Some (t, key) ∧ gos s !! t = Some p ∧ leads p = Some (key, c);
  inv_heap c k t key : heap s !! c = Some k → G !! c = Some (t, key) →
    call_ok (gos s) tr t key c k;
}.

Lemma inv_init n : inv [] (init n) [].
Proof.
  split; simpl; try done.
  intros t p [-> _]%lookup_replicate. by split.
Qed.

(** What goroutine [t] may do to the shared state without disturbing the
    others. *)
Record undisturbed (G G' : list (nat * string)) (s s' : State) (tr tr' : list event) t : Prop := {
  und_mu t' : t' ≠ t → mu s' = Some t' ↔ mu s = Some t';
  und_G : G `prefix_of` G';
  und_tr e : e ∈ tr → e ∈ tr';
  und_calls t' key c : t' ≠ t → G !! c = Some (t', key) →
    calls s !! key = Some c → calls s' !! key = Some c;
  und_heap t' key c : t' ≠ t → G !! c = Some (t', key) → heap s' !! c = heap s !! c;
}.

Lemma thread_ok_undisturbed G G' s s' tr tr' t t' p :
  undisturbed G G' s s' tr tr' t → t' ≠ t →
  thread_ok G s tr t' p → thread_ok G' s' tr' t' p.
Proof.
  intros [Hmu HG Htr Hc Hh] Hne [H1 H2]. split; [by rewrite Hmu|].
  assert (∀ c x, G !! c = Some x → G' !! c = Some x) as HG'
    by eauto using prefix_lookup_Some.
  destruct p; try done.
  1-2: naive_solver.
  1-2: destruct H2 as (?&?&?); rewrite (Hh t' key c); eauto.
  - destruct H2 as (?&?&?&?); rewrite (Hh t' key c); eauto 8.
  - naive_solver.
  - naive_solver.
  - eauto.
Qed.

Lemma undisturbed_same G s s' tr es t :
  (∀ t', t' ≠ t → mu s' = Some t' ↔ mu s = Some t') →
  calls s' = calls s → heap s' = heap s →
  undisturbed G G s s' tr (tr ++ es) t.
Proof. intros Hmu Hc Hh. split; rewrite ?Hc, ?Hh; set_solver. Qed.

(** The goroutines of the new state: the one that moved, and the others. *)
Lemma threads_goto G G' s s' tr tr' t p' :
  inv G s tr → undisturbed G G' s s' tr tr' t →
  gos s' = <[t := p']> (gos s) → thread_ok G' s' tr' t p' →
  ∀ t' p, gos s' !! t' = Some p → thread_ok G' s' tr' t' p.
Proof.
  intros Hi Hu Hg Hok t' p. rewrite Hg.
  intros [(<- & <- & _)|[? Hp]]%list_lookup_insert_Some; [done|].
  eapply thread_ok_undisturbed; [done..|]. by apply (inv_thread _ _ _ Hi).
Qed.

Lemma mu_goto (s : State) (g : list pc) t p p' (mu' : option nat) :
  g !! t = Some p → (∀ t', mu s = Some t' → is_Some (g !! t')) →
  (∀ t', t' ≠ t → mu' = Some t' ↔ mu s = Some t') →
  ∀ t', mu' = Some t' → is_Some (<[t := p']> g !! t').
Proof.
  intros Hp Hdom Hmu t' Ht'. apply list_lookup_insert_is_Some.
  destruct (decide (t' = t)) as [->|]; [by eexists|]. naive_solver.
Qed.

Lemma call_ok_goto gs tr tr' t p p' t' key c k :
  gs !! t = Some p → (pending p = Some c → pending p' = Some c) →
  (∀ e, e ∈ tr → e ∈ tr') →
  call_ok gs tr t' key c k → call_ok (<[t := p']> gs) tr' t' key c k.
Proof.
  intros Hp Hpend Htr [(? & q & Hq & Hc)|(? & o & ? & ?)]; [left|right; eauto].
  split; [done|]. destruct (decide (t' = t)) as [->|].
  - exists p'. rewrite list_lookup_insert_eq by (by eapply lookup_lt_Some). simplify_eq.
    by rewrite Hpend by done.
  - exists q. by rewrite list_lookup_insert_ne.
Qed.

(** Actions that change neither the map nor the calls. *)
Lemma inv_neutral G s s' tr es t p p' :
  inv G s tr → gos s !! t = Some p →
  gos s' = <[t := p']> (gos s) → calls s' = calls s → heap s' = heap s →
  (∀ t', t' ≠ t → mu s' = Some t' ↔ mu s = Some t') →
  leads p' = leads p → pending p' = pending p →
  thread_ok G s' (tr ++ es) t p' → inv G s' (tr ++ es).
Proof.
  intros Hi Hp Hg Hc Hh Hmu Hl Hpend Hok. split.
  - eapply threads_goto; eauto using undisturbed_same.
  - rewrite Hh. apply (inv_len _ _ _ Hi).
  - rewrite Hg. eapply mu_goto; [done|apply (inv_mu _ _ _ Hi)|done].
  - intros key c. rewrite Hc, Hg. intros (t' & q & HG & Hq & Hlq)%(inv_map _ _ _ Hi).
    destruct (decide (t' = t)) as [->|].
    + exists t, p'. rewrite list_lookup_insert_eq by (by eapply lookup_lt_Some). simplify_eq.
      by rewrite Hl.
    + exists t', q. by rewrite list_lookup_insert_ne.
  - intros c k t' key. rewrite Hh, Hg. intros Hk HG.
    eapply (call_ok_goto _ tr); [done|by rewrite Hpend|set_solver|]. by apply (inv_heap _ _ _ Hi).
Qed.

(** The four actions that do: a new call, the results, [Done], [delete]. *)

Lemma inv_lead G s tr t key :
  inv G s tr → gos s !! t = Some (DoLocked key) → calls s !! key = None →
  inv (G ++ [(t, key)]) (Do_locked t key s) tr.
Proof.
  intros Hi Hp Hnone. unfold Do_locked, goto. fold (calls s). rewrite Hnone.
  pose proof (lookup_lt_Some _ _ _ Hp) as Hlt.
  pose proof (inv_len _ _ _ Hi) as Hlen.
  destruct (inv_thread _ _ _ Hi _ _ Hp) as [Hmu _].
  split.
  - eapply threads_goto; [done| |done|].
    + split; simpl; [done|by apply prefix_app_r|done| |].
      * intros t' key' c _ _ Hc. unfold calls in *; simpl.
        rewrite lookup_insert_ne; [done|congruence].
      * intros t' key' c _ HG%lookup_lt_Some. rewrite lookup_app_l; [done|lia].
    + split; [done|]. split_and!; unfold calls; simpl.
      * by rewrite lookup_insert_eq.
      * by rewrite <-Hlen, list_lookup_middle.
      * by rewrite list_lookup_middle.
  - simpl. rewrite !length_app. simpl. lia.
  - simpl. eapply mu_goto; [done|apply (inv_mu _ _ _ Hi)|done].
  - simpl. intros key' c. unfold calls at 1; simpl.
    intros [(<- & <-)|(Hne & Hc)]%lookup_insert_Some.
    + exists t, (DoLead key (length (heap s))).
      by rewrite <-Hlen, list_lookup_middle, list_lookup_insert_eq.
    + destruct (inv_map _ _ _ Hi _ _ Hc) as (t' & q & HG & Hq & Hl).
      exists t', q. rewrite list_lookup_insert_ne by (intros <-; by simplify_eq).
      split; [|done]. by apply lookup_app_l_Some.
  - simpl. intros c k t' key' [[_ Hk]|[-> <-]]%lookup_snoc_Some HG.
    + rewrite lookup_app_l in HG by (rewrite Hlen; by eapply lookup_lt_Some).
      eapply call_ok_goto; [done|done|done|]. by apply (inv_heap _ _ _ Hi).
    + rewrite <-Hlen, list_lookup_middle in HG by done. simplify_eq.
      left. split; [done|]. eexists. by rewrite list_lookup_insert_eq.
Qed.

(** The leader [t] of the pending call [c] rewrites it. *)
Lemma undisturbed_set_call G s s' tr tr' t key c k' :
  G !! c = Some (t, key) → (∀ e, e ∈ tr → e ∈ tr') →
  mu s' = mu s → calls s' = calls s → heap s' = <[c := k']> (heap s) →
  undisturbed G G s s' tr tr' t.
Proof.
  intros HG Htr Hm Hc Hh. split; rewrite ?Hm, ?Hc; try done.
  intros t' key' c' Hne HG'. rewrite Hh, list_lookup_insert_ne; [done|]. intros <-. congruence.
Qed.

Lemma inv_set_call G s s' tr es t key c p p' k' :
  inv G s tr → gos s !! t = Some p → leads p = Some (key, c) → leads p' = Some (key, c) →
  G !! c = Some (t, key) →
  mu s' = mu s → calls s' = calls s → heap s' = <[c := k']> (heap s) →
  gos s' = <[t := p']> (gos s) →
  thread_ok G s' (tr ++ es) t p' → pending p = Some c →
  call_ok (gos s') (tr ++ es) t key c k' → inv G s' (tr ++ es).
Proof.
  intros Hi Hp Hl Hl' HG Hm Hc Hh Hg Hok Hpend Hk'.
  pose proof (lookup_lt_Some _ _ _ Hp) as Hlt.
  split.
  - eapply threads_goto; [done| |done|done]. eapply undisturbed_set_call; try done. set_solver.
  - rewrite Hh, length_insert. apply (inv_len _ _ _ Hi).
  - rewrite Hm, Hg. eapply mu_goto; [done|apply (inv_mu _ _ _ Hi)|done].
  - intros key' c'. rewrite Hc, Hg. intros (t' & q & HG' & Hq & Hlq)%(inv_map _ _ _ Hi).
    destruct (decide (t' = t)) as [->|].
    + exists t, p'. rewrite list_lookup_insert_eq by done. by simplify_eq.
    + exists t', q. by rewrite list_lookup_insert_ne.
  - intros c' k t' key'. rewrite Hh.
    intros [(<- & <- & _)|(Hne & Hk)]%list_lookup_insert_Some HG'; [by simplify_eq|].
    destruct (inv_heap _ _ _ Hi _ _ _ _ Hk HG') as [(? & q & Hq & Hc')|(? & o & ? & ?)].
    + left. split; [done|]. exists q. rewrite Hg, list_lookup_insert_ne; [done|].
      intros <-. simplify_eq.
    + right. split; [done|]. exists o. set_solver.
Qed.

Lemma inv_fn_ends G s tr t key c o :
  inv G s tr → gos s !! t = Some (DoRun key c) →
  inv G (goto t (DoDone key c o) (assign_results c o s)) (tr ++ [FnEnded t key c o]).
Proof.
  intros Hi Hp. destruct (inv_thread _ _ _ Hi _ _ Hp) as (Hmu & Hc & HG & Hh).
  pose proof (lookup_lt_Some _ _ _ Hp) as Hlt. pose proof (lookup_lt_Some _ _ _ Hh) as Hlt'.
  set (k' := match o with Ret v e => mkCall 1 v e | Panics => mkCall 1 None leader_panicked end).
  assert (assign_results c o s = set_call c k' s) as ->.
  { unfold assign_results. rewrite Hh. destruct o; [done|].
    unfold set_call, k'. rewrite list_insert_id by done. by destruct s. }
  eapply (inv_set_call _ _ _ _ _ _ key c (DoRun key c) (DoDone key c o) k'); try done.
  - split; [done|]. split_and!; [done..| |set_solver].
    subst k'. simpl. destruct o; eexists _, _; (split; [by apply list_lookup_insert_eq|done]).
  - left. split; [by destruct o|]. eexists. simpl. by rewrite list_lookup_insert_eq.
Qed.

Lemma inv_done G s tr t key c o k :
  inv G s tr → gos s !! t = Some (DoDone key c o) → heap s !! c = Some k →
  inv G (goto t (DoRelock key c o) (set_call c (mkCall (wg k - 1) (val k) (err k)) s)) tr.
Proof.
  intros Hi Hp Hk.
  destruct (inv_thread _ _ _ Hi _ _ Hp) as (Hmu & Hc & HG & (v & e & Hh & Ho) & Htr).
  rewrite <-(app_nil_r tr).
  eapply (inv_set_call _ _ _ _ _ _ key c (DoDone key c o) (DoRelock key c o)
    (mkCall (wg k - 1) (val k) (err k)));
    try done.
  - split; [done|]. rewrite app_nil_r. done.
  - rewrite app_nil_r. right. simplify_eq/=. eauto.
Qed.

Lemma inv_delete G s tr t key c o :
  inv G s tr → gos s !! t = Some (DoDelete key c o) → inv G (Do_delete t key c o s) tr.
Proof.
  intros Hi Hp. destruct (inv_thread _ _ _ Hi _ _ Hp) as (Hmu & Hc & HG & Htr).
  assert (calls (Do_delete t key c o s) = delete key (calls s)) as Hdel.
  { unfold calls. simpl. destruct (m s); simpl; [done|]. by rewrite delete_empty. }
  split.
  - eapply threads_goto; [done| |done|done].
    split; [done|done|done| |done]. intros t' key' c' Hne HG' Hc'. rewrite Hdel.
    rewrite lookup_delete_ne; [done|]. intros <-. congruence.
  - apply (inv_len _ _ _ Hi).
  - simpl. eapply mu_goto; [done|apply (inv_mu _ _ _ Hi)|done].
  - intros key' c'. rewrite Hdel. intros [Hne Hc']%lookup_delete_Some.
    destruct (inv_map _ _ _ Hi _ _ Hc') as (t' & q & HG' & Hq & Hl).
    exists t', q. simpl. rewrite list_lookup_insert_ne; [done|]. intros <-. by simplify_eq/=.
  - intros c' k t' key' Hk HG'. simpl.
    eapply (call_ok_goto _ tr); [done|done|done|]. by apply (inv_heap _ _ _ Hi).
Qed.

Lemma holds_mu G s tr t p :
  inv G s tr → gos s !! t = Some p → holds p = true → mu s = Some t.
Proof. intros Hi Hp. by destruct (inv_thread _ _ _ Hi _ _ Hp) as [-> _]. Qed.

Lemma holds_not_mu G s tr t p :
  inv G s tr → gos s !! t = Some p → holds p = false → mu s ≠ Some t.
Proof. intros Hi Hp. destruct (inv_thread _ _ _ Hi _ _ Hp) as [<- _]. congruence. Qed.

(** The neutral actions: plain moves, and moves that take or release [g.mu]. *)
Lemma inv_goto G s tr es t p p' :
  inv G s tr → gos s !! t = Some p → leads p' = leads p → pending p' = pending p →
  thread_ok G (goto t p' s) (tr ++ es) t p' → inv G (goto t p' s) (tr ++ es).
Proof. intros. by eapply inv_neutral. Qed.

Lemma inv_acquire G s tr es t p p' :
  inv G s tr → gos s !! t = Some p → mu s = None → leads p' = leads p → pending p' = pending p →
  thread_ok G (goto t p' (acquire t s)) (tr ++ es) t p' →
  inv G (goto t p' (acquire t s)) (tr ++ es).
Proof. intros ?? Hmu ???. eapply inv_neutral; try done. simpl. rewrite Hmu. naive_solver. Qed.

Lemma inv_release G s tr es t p p' :
  inv G s tr → gos s !! t = Some p → mu s = Some t → leads p' = leads p → pending p' = pending p →
  thread_ok G (goto t p' (release s)) (tr ++ es) t p' →
  inv G (goto t p' (release s)) (tr ++ es).
Proof. intros ?? Hmu ???. eapply inv_neutral; try done. simpl. rewrite Hmu. naive_solver. Qed.

Lemma inv_join G s tr t key c :
  inv G s tr → gos s !! t = Some (DoLocked key) → calls s !! key = Some c →
  inv G (Do_locked t key s) tr.
Proof.
  intros Hi Hp Hc. unfold Do_locked. fold (calls s). rewrite Hc, <-(app_nil_r tr).
  eapply inv_neutral; try done. split; [by apply (inv_thread _ _ _ Hi _ _ Hp)|].
  destruct (inv_map _ _ _ Hi _ _ Hc) as (t' & _ & HG & _). by exists t'.
Qed.

#[local] Hint Resolve inv_init inv_fn_ends inv_done inv_delete inv_join inv_lead : groupcache.

(** Every action of every goroutine preserves the invariant. *)
Lemma inv_step G s tr t i s' es :
  inv G s tr → sf_step t i s = Some (s', es) → ∃ G', inv G' s' (tr ++ es).
Proof.
  intros Hi Hs. unfold sf_step in Hs.
  destruct (gos s !! t) as [p|] eqn:Hp; [|done].
  pose proof (inv_thread _ _ _ Hi _ _ Hp) as Ht.
  pose proof (holds_mu _ _ _ _ _ Hi Hp) as Hmu.
  destruct p, i; simplify_eq/=; repeat case_match; simplify_eq/=.
  all: try (exists G; first [eapply inv_acquire | eapply inv_release | eapply inv_goto];
    [by auto..|]; destruct Ht as [? Ht]; split; [simpl; intuition congruence|]).
  all: rewrite ?app_nil_r; try done; eauto with groupcache.
  destruct (calls s !! key) eqn:Hc; eauto with groupcache.
Qed.

Lemma reachable_inv n s tr : reachable n s tr → ∃ G, inv G s tr.
Proof.
  induction 1 as [|s tr t i s' es _ [G Hi] Hs]; [eauto with groupcache|by eapply inv_step].
Qed.

(** ** Results *)

(** What the trace must contain before a return from [Do]. *)
Definition justified (tr : list event) (e : event) : Prop :=
  match e with
  | DoReturned t key c leader o =>
      ∃ t0 o0, FnEnded t0 key c o0 ∈ tr ∧
        if leader : bool then t0 = t ∧ o = o0 else o = published o0
  | _ => True
  end.

Definition all_justified (tr : list event) : Prop :=
  ∀ tr1 e tr2, tr = tr1 ++ e :: tr2 → justified tr1 e.

Lemma all_justified_snoc tr e :
  all_justified tr → justified tr e → all_justified (tr ++ [e]).
Proof.
  intros Htr He tr1 e' tr2 Heq.
  destruct (decide (tr2 = [])) as [->|Hne].
  - by apply app_inj_tail in Heq as [-> ->].
  - destruct (exists_last Hne) as (tr3 & e3 & ->).
    rewrite app_comm_cons, (assoc_L (++)) in Heq. apply app_inj_tail in Heq as [-> _].
    by eapply Htr.
Qed.

Lemma gos_assign_results c o s : gos (assign_results c o s) = gos s.
Proof. unfold assign_results. by repeat case_match. Qed.

Lemma length_heap_assign_results c o s :
  length (heap (assign_results c o s)) = length (heap s).
Proof. unfold assign_results. repeat case_match; [|done..]. simpl. by rewrite length_insert. Qed.

(** One action emits at most one event, justified by what preceded it. *)
Lemma step_events G s tr t i s' es :
  inv G s tr → sf_step t i s = Some (s', es) →
  es = [] ∨ ∃ e, es = [e] ∧ justified tr e ∧
    ∀ t0 key c o, e = FnEnded t0 key c o → t0 = t ∧ gos s !! t = Some (DoRun key c) ∧
      gos s' !! t = Some (DoDone key c o).
Proof.
  intros Hi Hs. unfold sf_step in Hs.
  destruct (gos s !! t) as [p|] eqn:Hp; [|done].
  pose proof (lookup_lt_Some _ _ _ Hp) as Hlt.
  destruct (inv_thread _ _ _ Hi _ _ Hp) as [Hmu Ht].
  destruct p, i; simplify_eq/=; repeat case_match; simplify_eq/=; eauto;
    right; eexists; (split; [done|]); simpl; try by (split; [|intros; simplify_eq]).
  - destruct Ht as [t' HG]. split; [|by intros].
    edestruct (inv_heap _ _ _ Hi) as [(? & _)|(_ & o & ? & ?)]; [done..| |eauto].
    case_bool_decide; congruence.
  - split; [done|]. intros t0 key0 c0 o0 [= -> -> -> ->]. 
    by rewrite gos_assign_results, list_lookup_insert_eq.
  - split; [|by intros]. eauto.
Qed.

Lemma reachable_justified n s tr : reachable n s tr → all_justified tr.
Proof.
  induction 1 as [|s tr t i s' es Hr IH Hs].
  - by intros [] ??.
  - destruct (reachable_inv _ _ _ Hr) as [G Hi].
    destruct (step_events _ _ _ _ _ _ _ Hi Hs) as [->|(e & -> & He & _)].
    + by rewrite app_nil_r.
    + by apply all_justified_snoc.
Qed.

(** The function of a call has not ended. *)
Definition fresh_at (p : pc) : option nat :=
  match p with
  | DoLead _ c | DoRun _ c => Some c
  | _ => None
  end.

Definition ended_ok (s : State) (tr : list event) : Prop :=
  ∀ t key c o, FnEnded t key c o ∈ tr →
    (c < length (heap s))%nat ∧ ∀ t' p, gos s !! t' = Some p → fresh_at p ≠ Some c.

Lemma fresh_at_unique G s tr t t' p p' c :
  inv G s tr → gos s !! t = Some p → gos s !! t' = Some p' →
  fresh_at p = Some c → fresh_at p' = Some c → t = t'.
Proof.
  intros Hi Hp Hp' Hf Hf'.
  destruct (inv_thread _ _ _ Hi _ _ Hp) as [_ Ht].
  destruct (inv_thread _ _ _ Hi _ _ Hp') as [_ Ht'].
  destruct p, p'; simplify_eq/=; naive_solver.
Qed.

Lemma heap_grows t i s s' es :
  sf_step t i s = Some (s', es) → (length (heap s) ≤ length (heap s'))%nat.
Proof.
  unfold sf_step, Do_locked, goto. intros Hs. repeat (case_match; simplify_eq/=); try lia.
  all: rewrite ?length_app, ?length_insert, ?length_heap_assign_results; simpl; lia.
Qed.

(** A goroutine comes to lead a call it did not lead only by creating it. *)
Lemma step_fresh t i s s' es t' p c :
  sf_step t i s = Some (s', es) → gos s' !! t' = Some p → fresh_at p = Some c →
  c = length (heap s) ∨ ∃ p0, gos s !! t' = Some p0 ∧ fresh_at p0 = Some c.
Proof.
  intros Hs Hp Hf. destruct (decide (t' = t)) as [->|Hne].
  - unfold sf_step, Do_locked, goto in Hs. repeat (case_match; simplify_eq/=).
    all: rewrite ?gos_assign_results in Hp.
    all: apply list_lookup_insert_Some in Hp as [(_ & <- & _)|[? _]]; simplify_eq/=; eauto.
  - right. exists p. split; [|done].
    unfold sf_step, Do_locked, goto in Hs. repeat (case_match; simplify_eq/=).
    all: rewrite ?gos_assign_results, list_lookup_insert_ne in Hp; done.
Qed.

Lemma reachable_ended_ok n s tr : reachable n s tr → ended_ok s tr.
Proof.
  induction 1 as [|s tr t i s' es Hr IH Hs].
  - intros ????. set_solver.
  - destruct (reachable_inv _ _ _ Hr) as [G Hi].
    pose proof (heap_grows _ _ _ _ _ Hs) as Hgrow.
    intros t0 key c o [Hin|Hin]%elem_of_app.
    + destruct (IH _ _ _ _ Hin) as [Hlt Hfr]. split; [lia|]. intros t' p Hp Hf.
      destruct (step_fresh _ _ _ _ _ _ _ _ Hs Hp Hf) as [->|(p0 & Hp0 & Hf0)]; [lia|].
      by eapply Hfr.
    + destruct (step_events _ _ _ _ _ _ _ Hi Hs) as [->|(e & -> & _ & He)]; [set_solver|].
      apply list_elem_of_singleton in Hin as <-.
      destruct (He _ _ _ _ eq_refl) as (-> & Hp0 & Hp1).
      destruct (inv_thread _ _ _ Hi _ _ Hp0) as (_ & _ & _ & Hh%lookup_lt_Some).
      split; [lia|]. intros t' p Hp Hf.
      destruct (step_fresh _ _ _ _ _ _ _ _ Hs Hp Hf) as [->|(p0 & Hp0' & Hf0)]; [lia|].
      assert (t = t') as <- by (by eapply fresh_at_unique). by simplify_eq/=.
Qed.

(** The function of a call ends once. *)
Lemma reachable_ended_unique n s tr t t' key key' c o o' :
  reachable n s tr → FnEnded t key c o ∈ tr → FnEnded t' key' c o' ∈ tr →
  t = t' ∧ key = key' ∧ o = o'.
Proof.
  induction 1 as [|s tr t1 i s' es Hr IH Hs]; [set_solver|].
  destruct (reachable_inv _ _ _ Hr) as [G Hi].
  pose proof (reachable_ended_ok _ _ _ Hr) as Hok.
  destruct (step_events _ _ _ _ _ _ _ Hi Hs) as [->|(e & -> & _ & He)];
    [rewrite app_nil_r; exact IH|].
  rewrite !elem_of_app, !list_elem_of_singleton.
  intros [Hin| <-] [Hin'|Heq]; [by apply IH|..].
  - subst e. destruct (He _ _ _ _ eq_refl) as (-> & Hp & _).
    by destruct (proj2 (Hok _ _ _ _ Hin) _ _ Hp).
  - destruct (He _ _ _ _ eq_refl) as (-> & Hp & _).
    by destruct (proj2 (Hok _ _ _ _ Hin') _ _ Hp).
  - by simplify_eq.
Qed.

(** ** Progress *)

Definition quiet (p : pc) : bool :=
  match p with Idle | Finished => true | _ => false end.

Definition starts (i : input) : bool :=
  match i with CallDo _ | CallLock => true | _ => false end.

(** An upper bound on the actions a goroutine has left. *)
Definition rank (p : pc) : nat :=
  match p with
  | Idle | Finished => 0
  | DoStart _ => 9
  | DoLocked _ => 8
  | DoJoin _ _ => 2
  | DoWait _ _ => 1
  | DoLead _ _ => 7
  | DoRun _ _ => 6
  | DoDone _ _ _ => 5
  | DoRelock _ _ _ => 4
  | DoDelete _ _ _ => 3
  | DoUnlock _ _ _ => 2
  | LockStart => 3
  | LockRun => 2
  | LockUnlock _ => 1
  end%nat.

Definition work (s : State) : nat := sum_list_with rank (gos s).

Lemma step_work t i s s' es :
  sf_step t i s = Some (s', es) → starts i = false → (work s' < work s)%nat.
Proof.
  unfold sf_step. destruct (gos s !! t) as [p|] eqn:Hp; [|done]. intros Hs Hi.
  unfold Do_locked, goto, work in *. destruct p, i; simplify_eq/=; repeat (case_match; simplify_eq/=).
  all: rewrite ?gos_assign_results; (eapply sum_list_with_insert_lt; [done|simpl; lia]).
Qed.

(** No deadlock: while a call is under way, some goroutine can act. *)
Lemma progress n s tr t p :
  reachable n s tr → gos s !! t = Some p → quiet p = false →
  ∃ t' i s' es, starts i = false ∧ sf_step t' i s = Some (s', es).
Proof.
  intros [G Hi]%reachable_inv Hp Hq.
  destruct (mu s) as [h|] eqn:Hmu.
  - destruct (inv_mu _ _ _ Hi _ Hmu) as [q Hh].
    destruct (inv_thread _ _ _ Hi _ _ Hh) as [[_ Hholds] _]. specialize (Hholds Hmu).
    exists h, (if q is LockRun then FnEnds Panics else Go).
    unfold sf_step. rewrite Hh. destruct q; simplify_eq/=; eauto.
  - assert (∀ t' q, gos s !! t' = Some q → holds q = false) as Hfree.
    { intros t' q Hq'. destruct (inv_thread _ _ _ Hi _ _ Hq') as [Hq2 _].
      apply not_true_is_false. rewrite Hq2. congruence. }
    destruct p; try done; try (by apply Hfree in Hp).
    all: try solve [exists t, Go; unfold sf_step; rewrite Hp, ?Hmu; eauto].
    + destruct (inv_thread _ _ _ Hi _ _ Hp) as [_ [t' HG]].
      destruct (lookup_lt_is_Some_2 (heap s) c) as [k Hk].
      { rewrite <-(inv_len _ _ _ Hi). by eapply lookup_lt_Some. }
      destruct (inv_heap _ _ _ Hi _ _ _ _ Hk HG) as [(_ & q & Hq' & Hpend)|(Hwg & _)].
      * exists t', (if q is DoRun _ _ then FnEnds Panics else Go). unfold sf_step. rewrite Hq'.
        destruct q; simplify_eq/=; [by apply Hfree in Hq'|eauto|rewrite Hk; eauto].
      * exists t, Go. unfold sf_step. rewrite Hp, Hk, bool_decide_true; eauto.
    + exists t, (FnEnds Panics). unfold sf_step. rewrite Hp. eauto.
    + destruct (inv_thread _ _ _ Hi _ _ Hp) as (_ & _ & _ & (v & e & Hk & _) & _).
      exists t, Go. unfold sf_step. rewrite Hp, Hk. eauto.
Qed.

(** Schedules that start no further call. *)
Definition no_starts (sched : list (nat * input)) : Prop :=
  Forall (λ a, starts a.2 = false) sched.

Lemma exec_work sched s s' es :
  sf_exec sched s = Some (s', es) → no_starts sched → (length sched + work s' ≤ work s)%nat.
Proof.
  revert s es. induction sched as [|[t i] sched IH]; intros s es Hx Hn; simplify_eq/=; [lia|].
  apply Forall_cons in Hn as [Hi Hn].
  destruct (sf_step t i s) as [[s1 es1]|] eqn:Hs; [|done].
  destruct (sf_exec sched s1) as [[s2 es2]|] eqn:Hx2; simplify_eq/=.
  pose proof (step_work _ _ _ _ _ Hs Hi). specialize (IH _ _ Hx2 Hn). lia.
Qed.

(** From every reachable state the calls under way can be run to their end. *)
Lemma run_to_rest n s tr :
  reachable n s tr →
  ∃ sched s' es, no_starts sched ∧ sf_exec sched s = Some (s', es) ∧
    Forall (λ p, quiet p = true) (gos s').
Proof.
  remember (work s) as w eqn:Hw. revert s tr Hw.
  induction w as [w IH] using lt_wf_ind; intros s tr -> Hr.
  destruct (decide (Forall (λ p, quiet p = true) (gos s))) as [Hq|Hq].
  { exists [], s, []. split_and!; [by constructor|done|done]. }
  apply not_Forall_Exists in Hq; [|apply _].
  apply Exists_exists in Hq as (p & [t Hp]%list_elem_of_lookup & Hpq).
  destruct (progress _ _ _ _ _ Hr Hp) as (t' & i & s1 & es1 & Hi & Hs).
  { by apply not_true_is_false. }
  destruct (IH (work s1) (step_work _ _ _ _ _ Hs Hi) s1 (tr ++ es1) eq_refl)
    as (sched & s' & es & Hn & Hx & Hq); [by eapply reach_step|].
  exists ((t', i) :: sched), s', (es1 ++ es). split_and!; [by constructor| |done].
  simpl. by rewrite Hs, Hx.
Qed.

(** At rest the mutex is free and the map empty. *)
Lemma at_rest n s tr :
  reachable n s tr → Forall (λ p, quiet p = true) (gos s) → mu s = None ∧ calls s = ∅.
Proof.
  intros [G Hi]%reachable_inv Hq. split.
  - destruct (mu s) as [t|] eqn:Hmu; [|done].
    destruct (inv_mu _ _ _ Hi _ Hmu) as [p Hp].
    pose proof (Forall_lookup_1 _ _ _ _ Hq Hp) as Hpq.
    destruct (inv_thread _ _ _ Hi _ _ Hp) as [[_ Hh] _]. specialize (Hh Hmu). by destruct p.
  - apply map_empty. intros key. apply eq_None_not_Some. intros [c Hc].
    destruct (inv_map _ _ _ Hi _ _ Hc) as (t & p & _ & Hp & Hl).
    pose proof (Forall_lookup_1 _ _ _ _ Hq Hp) as Hpq. by destruct p.
Qed.

(** ** Theorems *)

(** C10: at every moment at most one goroutine executes the function of a key,
    whatever the interleaving. *)
Theorem singleflight_one_execution n s tr t1 t2 key c1 c2 :
  reachable n s tr →
  gos s !! t1 = Some (DoRun key c1) → gos s !! t2 = Some (DoRun key c2) →
  t1 = t2 ∧ c1 = c2.
Proof.
  intros [G Hi]%reachable_inv H1 H2.
  destruct (inv_thread _ _ _ Hi _ _ H1) as (_ & Hc1 & HG1 & _).
  destruct (inv_thread _ _ _ Hi _ _ H2) as (_ & Hc2 & HG2 & _). naive_solver.
Qed.

(** C11: a return from [Do] is preceded by the end of exactly one execution of
    the function for that key and call; its leader gets that outcome (the
    panic included) and every duplicate gets the same results, or the error
    "singleflight leader panicked" when the leader panicked. *)
Theorem singleflight_results n s tr tr1 tr2 t key c leader o :
  reachable n s tr → tr = tr1 ++ DoReturned t key c leader o :: tr2 →
  ∃ t0 o0, FnEnded t0 key c o0 ∈ tr1 ∧
    (∀ t' key' o', FnEnded t' key' c o' ∈ tr → t' = t0 ∧ key' = key ∧ o' = o0) ∧
    (leader = true → t = t0 ∧ o = o0) ∧ (leader = false → o = published o0).
Proof.
  intros Hr Heq. destruct (reachable_justified _ _ _ Hr _ _ _ Heq) as (t0 & o0 & Hin & Ho).
  exists t0, o0. split_and!; [done| |by destruct leader; [destruct Ho|]|by destruct leader].
  intros t' key' o' Hin'.
  eapply reachable_ended_unique; [done|done|]. rewrite Heq. set_solver.
Qed.

(** C30: every call finishes: from every reachable state each schedule without
    new calls has at most [work s] actions, and one of them brings every
    goroutine to rest, with the mutex free and no call left in the map. *)
Theorem singleflight_terminates n s tr :
  reachable n s tr →
  (∀ sched s' es, no_starts sched → sf_exec sched s = Some (s', es) →
     (length sched ≤ work s)%nat) ∧
  ∃ sched s' es, no_starts sched ∧ sf_exec sched s = Some (s', es) ∧
    Forall (λ p, quiet p = true) (gos s') ∧ mu s' = None ∧ calls s' = ∅.
Proof.
  intros Hr. split.
  - intros sched s' es Hn Hx. pose proof (exec_work _ _ _ _ Hx Hn). lia.
  - destruct (run_to_rest _ _ _ Hr) as (sched & s' & es & Hn & Hx & Hq).
    exists sched, s', es. split_and!; [done..| |];
      eapply at_rest; eauto using reachable_exec.
Qed.

(** [Lock] keeps single flights from changing while its function runs: no
    other goroutine is in a critical section and no action of another
    goroutine creates, joins or retires a call. *)
Theorem singleflight_Lock_excludes n s tr t t' i s' es :
  reachable n s tr → gos s !! t = Some LockRun → t' ≠ t →
  sf_step t' i s = Some (s', es) →
  (∀ p, gos s !! t' = Some p → holds p = false) ∧
  mu s' = Some t ∧ m s' = m s ∧ length (heap s') = length (heap s) ∧
  ∀ key c, gos s' !! t' = Some (DoWait key c) → gos s !! t' = Some (DoWait key c).
Proof.
  intros [G Hi]%reachable_inv Hp Hne Hs.
  pose proof (holds_mu _ _ _ _ _ Hi Hp eq_refl) as Hmu.
  assert (∀ p, gos s !! t' = Some p → holds p = false) as Hfree.
  { intros p Hq. destruct (inv_thread _ _ _ Hi _ _ Hq) as [Hq2 _].
    apply not_true_is_false. rewrite Hq2. congruence. }
  split; [done|]. unfold sf_step in Hs.
  destruct (gos s !! t') as [q|] eqn:Hq; [|done]. specialize (Hfree _ eq_refl).
  destruct q, i; simplify_eq/=; repeat (case_match; simplify_eq/=).
  all: rewrite ?length_insert, ?length_heap_assign_results.
  all: (split_and!; [try done; unfold assign_results; by repeat case_match..|]).
  all: intros key' c' Hx; rewrite ?gos_assign_results in Hx.
  all: apply list_lookup_insert_Some in Hx as [(_ & [=] & _)|[? ?]]; done.
Qed.

(** Goroutine 0 leads a call and its function starts; goroutine 1 runs [Lock]
    from start to end; goroutine 2 then calls [Do]; only afterwards does the
    function of goroutine 0 end. *)
Definition flight_across_Lock (v : V) : list (nat * input) :=
  let key := "k" in
  [(0, CallDo key); (0, Go); (0, Go); (0, Go);
   (1, CallLock); (1, Go); (1, FnEnds (Ret None None)); (1, Go);
   (2, CallDo key); (2, Go); (2, Go); (2, Go);
   (0, FnEnds (Ret (Some v) None)); (0, Go); (2, Go);
   (0, Go); (0, Go); (0, Go)]%nat.

(** [Lock] does not wait for flights: a function that started before
    [Lock] was called can end after [Lock] has returned, and a [Do] called
    after [Lock] has returned receives that function's value. *)
Theorem singleflight_Lock_lets_flights_finish (v : V) :
  ∃ s, sf_exec (flight_across_Lock v) (init 3) =
    Some (s, [FnStarted 0 "k" 0; LockFnStarted 1; LockReturned 1 false;
              FnEnded 0 "k" 0 (Ret (Some v) None);
              DoReturned 2 "k" 0 false (Ret (Some v) None);
              DoReturned 0 "k" 0 true (Ret (Some v) None)])%nat.
Proof.
  eexists. reflexivity.
Qed.

End Singleflight.

(** ** Witnesses *)

Definition two_callers : list (nat * input (V := nat)) :=
  [(0, CallDo "k"); (1, CallDo "k"); (0, Go); (0, Go); (0, Go); (1, Go); (1, Go); (1, Go)]%nat.

(** The leader panics while a duplicate waits. *)
Definition leader_panics : list (nat * input (V := nat)) :=
  two_callers ++ [(0, FnEnds Panics); (0, Go); (1, Go); (0, Go); (0, Go); (0, Go)]%nat.

Lemma singleflight_one_execution_witness :
  ∃ (s : State (V:=nat)) tr, reachable 2 s tr ∧ gos s !! 0%nat = Some (DoRun "k" 0) ∧
    ∀ t c, gos s !! t = Some (DoRun "k" c) → t = 0%nat ∧ c = 0%nat.
Proof.
  destruct (sf_exec two_callers (init 2)) as [[s tr]|] eqn:Hx; [|discriminate Hx].
  pose proof (exec_reachable 2 two_callers s tr Hx) as Hr.
  vm_compute in Hx. injection Hx as <- <-.
  eexists _, _. split; [exact Hr|]. split; [reflexivity|]. intros t c Ht.
  apply (singleflight_one_execution 2 _ _ t 0 "k" c 0 Hr Ht). reflexivity.
Defined.

Lemma singleflight_results_witness :
  ∃ s tr1 tr2 t0 o0,
    reachable 2 s (tr1 ++ DoReturned 1 "k" 0 false (Ret (V:=nat) None leader_panicked) :: tr2) ∧
    FnEnded t0 "k" 0 o0 ∈ tr1 ∧ Ret None leader_panicked = published o0.
Proof.
  destruct (sf_exec leader_panics (init 2)) as [[s tr]|] eqn:Hx; [|discriminate Hx].
  pose proof (exec_reachable 2 leader_panics s tr Hx) as Hr.
  vm_compute in Hx. injection Hx as <- <-.
  destruct (singleflight_results 2 _ _ [FnStarted 0 "k" 0; FnEnded 0 "k" 0 Panics]%nat
    [DoReturned 0 "k" 0 true Panics]%nat 1 "k" 0 false (Ret None leader_panicked) Hr eq_refl)
    as (t0 & o0 & Hin & _ & _ & Ho).
  eexists _, [FnStarted 0 "k" 0; FnEnded 0 "k" 0 Panics]%nat, [DoReturned 0 "k" 0 true Panics]%nat,
    t0, o0.
  split; [exact Hr|]. split; [exact Hin|exact (Ho eq_refl)].
Defined.

Lemma singleflight_terminates_witness :
  ∃ (s : State (V:=nat)) tr sched s' es, reachable 2 s tr ∧
    sf_exec sched s = Some (s', es) ∧ calls s' = ∅ ∧ calls s = {["k" := 0%nat]}.
Proof.
  destruct (sf_exec two_callers (init 2)) as [[s tr]|] eqn:Hx; [|discriminate Hx].
  pose proof (exec_reachable 2 two_callers s tr Hx) as Hr.
  vm_compute in Hx. injection Hx as <- <-.
  destruct (singleflight_terminates 2 _ _ Hr) as [_ (sched & s' & es & _ & Hx' & _ & _ & Hc)].
  eexists _, _, sched, s', es. split; [exact Hr|]. split; [exact Hx'|]. split; [exact Hc|].
  reflexivity.
Defined.

Definition lock_during_flight : list (nat * input (V := nat)) :=
  [(0, CallDo "k"); (0, Go); (0, Go); (0, Go); (1, CallLock); (1, Go)]%nat.

Lemma singleflight_Lock_excludes_witness :
  ∃ (s s' : State (V:=nat)) tr es, reachable 2 s tr ∧
    sf_step 0 (FnEnds (Ret (Some 7%nat) None)) s = Some (s', es) ∧ mu s' = Some 1%nat ∧ m s' = m s.
Proof.
  destruct (sf_exec lock_during_flight (init 2)) as [[s tr]|] eqn:Hx; [|discriminate Hx].
  pose proof (exec_reachable 2 lock_during_flight s tr Hx) as Hr.
  vm_compute in Hx. injection Hx as <- <-.
  eexists _, _, _, _. split; [exact Hr|]. split; [reflexivity|].
  assert (0 ≠ 1)%nat as Hne by lia.
  destruct (singleflight_Lock_excludes 2 _ _ 1 0 (FnEnds (Ret (Some 7%nat) None)) _ _
    Hr eq_refl Hne eq_refl)
    as (_ & Hmu & Hm & _). split; [exact Hmu|exact Hm].
Defined.
