(* ===== verification/Md5.v ===== *)
(** * MD5, hexadecimal and decimal text

    The standard-library functions that [Picker.Add] applies to a peer's hash
    key before hashing it: [crypto/md5.Sum] (RFC 1321), [fmt.Sprintf] with the
    verb [%x] on its result, and [strconv.Itoa] on the replica number. *)

From stdpp Require Import pretty.
From S2P Require Import Prelude Slices.

(** ** 32-bit words *)

Definition mask32 (x : Z) : Z := Z.land x (2 ^ 32 - 1).
Definition rotl32 (x n : Z) : Z :=
  mask32 (Z.lor (Z.shiftl x n) (Z.shiftr x (32 - n))).
Definition not32 (x : Z) : Z := Z.lxor x (2 ^ 32 - 1).

Definition byte_Z (b : byte) : Z := Z.of_N (Byte.to_N b).

(** Little-endian bytes of [x]. *)
Fixpoint le_bytes (n : nat) (x : Z) : list Z :=
  match n with
  | O => []
  | S n => Z.land x 255 :: le_bytes n (Z.shiftr x 8)
  end.

Fixpoint le_word (l : list Z) : Z :=
  match l with
  | [] => 0
  | b :: l => b + Z.shiftl (le_word l) 8
  end.

(** ** The compression function *)

Definition md5_table : list Z :=
  [
   3614090360; 3905402710; 606105819; 3250441966; 4118548399; 1200080426; 2821735955; 4249261313;
   1770035416; 2336552879; 4294925233; 2304563134; 1804603682; 4254626195; 2792965006; 1236535329;
   4129170786; 3225465664; 643717713; 3921069994; 3593408605; 38016083; 3634488961; 3889429448;
   568446438; 3275163606; 4107603335; 1163531501; 2850285829; 4243563512; 1735328473; 2368359562;
   4294588738; 2272392833; 1839030562; 4259657740; 2763975236; 1272893353; 4139469664; 3200236656;
   681279174; 3936430074; 3572445317; 76029189; 3654602809; 3873151461; 530742520; 3299628645;
   4096336452; 1126891415; 2878612391; 4237533241; 1700485571; 2399980690; 4293915773; 2240044497;
   1873313359; 4264355552; 2734768916; 1309151649; 4149444226; 3174756917; 718787259; 3951481745].

Definition md5_shifts : list Z := [7; 12; 17; 22; 5; 9; 14; 20; 4; 11; 16; 23; 6; 10; 15; 21].

Record md5_state := Md5 { sA : Z; sB : Z; sC : Z; sD : Z }.

Definition md5_step (block : list Z) (s : md5_state) (ik : nat * Z) : md5_state :=
  let '(i, k) := ik in
  let '(Md5 a b c d) := s in
  let round := (i / 16)%nat in
  let '(f, g) :=
    match round with
    | 0 => (Z.lor (Z.land b c) (Z.land (not32 b) d), i)
    | 1 => (Z.lor (Z.land d b) (Z.land (not32 d) c), (5 * i + 1) mod 16)
    | 2 => (Z.lxor b (Z.lxor c d), (3 * i + 5) mod 16)
    | _ => (Z.lxor c (Z.lor b (not32 d)), (7 * i) mod 16)
    end%nat in
  let f' := mask32 (f + a + k + nth g block 0) in
  let r := nth (4 * round + i mod 4)%nat md5_shifts 0 in
  Md5 d (mask32 (b + rotl32 f' r)) b c.

Definition md5_block (s : md5_state) (block : list Z) : md5_state :=
  let s' := foldl (md5_step block) s (zip (seq 0 64) md5_table) in
  Md5 (mask32 (sA s + sA s')) (mask32 (sB s + sB s')) (mask32 (sC s + sC s')) (mask32 (sD s + sD s')).

(** A one bit, zeros, and the length in bits, to a multiple of 64 bytes. *)
Definition md5_pad (msg : list Z) : list Z :=
  let n := Z.of_nat (length msg) in
  msg ++ [128] ++ replicate (Z.to_nat ((55 - n) mod 64)) 0 ++ le_bytes 8 (8 * n).

Fixpoint chunks {A} (n size : nat) (l : list A) : list (list A) :=
  match n with
  | O => []
  | S n => take size l :: chunks n size (drop size l)
  end.

(** [md5.Sum] *)
Definition md5_Sum (msg : list byte) : list Z :=
  let p := md5_pad (byte_Z <$> msg) in
  let blocks := chunks (length p / 64) 64 p in
  let s := foldl (λ s b, md5_block s (le_word <$> chunks 16 4 b))
             (Md5 1732584193 4023233417 2562383102 271733878) blocks in
  le_bytes 4 (sA s) ++ le_bytes 4 (sB s) ++ le_bytes 4 (sC s) ++ le_bytes 4 (sD s).

(** ** Text *)

Definition hex_digit (x : Z) : Ascii.ascii :=
  match String.get (Z.to_nat x) "0123456789abcdef" with
  | Some a => a
  | None => Ascii.zero
  end.

(** [fmt.Sprintf("%x", l)] for an array of bytes. *)
Fixpoint Sprintf_x (l : list Z) : string :=
  match l with
  | [] => EmptyString
  | b :: l => String (hex_digit (Z.shiftr b 4)) (String (hex_digit (Z.land b 15)) (Sprintf_x l))
  end.

(** [strconv.Itoa] *)
Definition Itoa (z : Z) : string := pretty z.

(** The test suite of RFC 1321. *)
Example md5_empty : Sprintf_x (md5_Sum (string_bytes "")) = "d41d8cd98f00b204e9800998ecf8427e".
Proof. vm_compute. reflexivity. Qed.

Example md5_abc : Sprintf_x (md5_Sum (string_bytes "abc")) = "900150983cd24fb0d6963f7d28e17f72".
Proof. vm_compute. reflexivity. Qed.

Example md5_80_digits :
  Sprintf_x (md5_Sum (string_bytes
    "12345678901234567890123456789012345678901234567890123456789012345678901234567890"))
  = "57edf4a22be3c955ac49da2e2107b67a".
Proof. vm_compute. reflexivity. Qed.

Example Itoa_120 : Itoa 120 = "120".
Proof. vm_compute. reflexivity. Qed.
