(* ===== verification/Picker.v ===== *)
(** * The peer picker (transport/peer/picker.go, transport/peer/client.go)

    A consistent-hash ring of clients.  The clients are an interface (class
    [Client]: what the ring needs of [peer.Client]); the hash function is the
    caller's, with the third-party [fnv1.HashBytes64] as a parameter for the
    default; [sort.Slice] is an interface too (class [SortSlice]), because it
    leaves the order of equal elements open; [sort.Search] is the standard
    library's binary search. *)

From S2P Require Import Prelude Slices Md5.

(** [peer.Info] *)
Record Info := mkInfo { Address : string; IsSelf : bool }.

#[export] Instance Info_eq_dec : EqDecision Info.
Proof. solve_decision. Defined.

(** The two pure methods of the interface [peer.Client]. *)
Class Client (C : Type) := {
  PeerInfo : C → Info;
  HashKey : C → string;
}.
#[global] Hint Mode Client ! : typeclass_instances.

(** [NoOpClient]: the placeholder for the local instance. *)
Record NoOpClient := mkNoOp { noop_Info : Info }.

#[export] Instance NoOpClient_Client : Client NoOpClient := {|
  PeerInfo e := noop_Info e;
  HashKey e := Address (noop_Info e);
|}.

(** ** [sort.Slice] and [sort.Search] *)

(** [less] orders by an integer. *)
Definition by_key {A} (less : A → A → bool) (f : A → Z) : Prop :=
  ∀ x y, less x y = bool_decide (f x < f y).

Class SortSlice := {
  sort_Slice : ∀ {A}, (A → A → bool) → list A → list A;
  sort_Slice_perm : ∀ {A} (less : A → A → bool) l, sort_Slice less l ≡ₚ l;
  sort_Slice_sorted : ∀ {A} (less : A → A → bool) f l, by_key less f →
    StronglySorted (λ x y, f x ≤ f y) (sort_Slice less l);
}.

(** [sort.Search(n, f)], with [i] and [j] the variables of its loop. *)
Fixpoint Search_loop (fuel : nat) (f : nat → bool) (i j : nat) : nat :=
  match fuel with
  | O => i
  | S fuel =>
      if bool_decide (i < j)%nat then
        let h := Nat.div2 (i + j) in
        if f h then Search_loop fuel f i h else Search_loop fuel f (S h) j
      else i
  end.

(** The interval shrinks in every round: [n] rounds are enough. *)
Definition Search (n : nat) (f : nat → bool) : nat := Search_loop n f 0 n.

(** ** The picker *)

Abbreviation HashFn := (list byte → Z).

Record Options := mkOptions { opt_HashFn : option HashFn; Replicas : Z }.

Definition DefaultReplicas : Z := 50.

Section Picker.
Context {C : Type} `{Client C} `{SortSlice}.
Context (fnv1_HashBytes64 : HashFn).
Implicit Types (key : string) (c client : C).

Record entry := mkEntry { hash : Z; client : C }.

Record Picker := mkPicker {
  opts : Options;
  keys : list entry;
  clientMap : gmap string C;
}.

(** The defaults [NewPicker] fills in. *)
Definition effective (opts : Options) : Options :=
  mkOptions
    (Some (match opt_HashFn opts with None => fnv1_HashBytes64 | Some f => f end))
    (if bool_decide (Replicas opts = 0) then DefaultReplicas else Replicas opts).

Definition NewPicker (opts : Options) : Picker := mkPicker (effective opts) [] ∅.

(** The call [p.opts.HashFn(data)]; [NewPicker] leaves no nil function. *)
Definition call_HashFn (o : Options) (data : string) : Z :=
  match opt_HashFn o with
  | Some f => f (string_bytes data)
  | None => fnv1_HashBytes64 (string_bytes data)
  end.

Definition IsEmpty (p : Picker) : bool := bool_decide (length (keys p) = 0%nat).

(** The hash of replica [i] of a client. *)
Definition replica_hash (o : Options) (i : nat) (hash_key : string) : Z :=
  int_of_uint64 (call_HashFn o
    (Sprintf_x (md5_Sum (string_bytes (Itoa (Z.of_nat i) ++ hash_key)%string)))).

(** The loop of [Add] that appends the replicas. *)
Definition replica_entries (o : Options) (c : C) : list entry :=
  (λ i, mkEntry (replica_hash o i (HashKey c)) c) <$> seq 0 (Z.to_nat (Replicas o)).

Definition less_hash (e1 e2 : entry) : bool := bool_decide (hash e1 < hash e2).

Definition Add (c : C) (p : Picker) : Picker :=
  mkPicker (opts p)
    (sort_Slice less_hash (keys p ++ replica_entries (opts p) c))
    (<[HashKey c := c]> (clientMap p)).

(** [p.keys[i].hash >= hash]; [sort.Search] asks only for indices in range. *)
Definition hash_ge (ks : list entry) (h : Z) (i : nat) : bool :=
  match ks !! i with
  | Some e => bool_decide (h <= hash e)
  | None => false
  end.

(** [Get] returns nil for an empty picker. *)
Definition Get (p : Picker) (key : string) : option C :=
  if IsEmpty p then None else
  let h := int_of_uint64 (call_HashFn (opts p) key) in
  let idx := Search (length (keys p)) (hash_ge (keys p) h) in
  let idx := if bool_decide (idx = length (keys p)) then 0%nat else idx in
  client <$> keys p !! idx.

Definition PickPeer (p : Picker) (key : string) : option C * bool :=
  if IsEmpty p then (None, false) else
  match Get p key with
  | Some c => (Some c, negb (IsSelf (PeerInfo c)))
  | None => (None, false)
  end.

(** [GetAll] ranges over the map of clients. *)
Definition GetAll `{!MapRange string C} (p : Picker) : list C := (map_range (clientMap p)).*2.

(** A picker after a series of [Add]s. *)
Definition build (o : Options) (cs : list C) : Picker :=
  foldl (λ p c, Add c p) (NewPicker o) cs.

(** ** [sort.Search] *)

(** [f] switches once from false to true on [0..n). *)
Definition monotone (n : nat) (f : nat → bool) : Prop :=
  ∀ i j, (i ≤ j < n)%nat → f i = true → f j = true.

Lemma Search_loop_spec n f fuel i j :
  monotone n f → (j - i ≤ fuel)%nat → (i ≤ j ≤ n)%nat →
  (∀ k, (k < i)%nat → f k = false) → (∀ k, (j ≤ k < n)%nat → f k = true) →
  let r := Search_loop fuel f i j in
  (i ≤ r ≤ j)%nat ∧ (∀ k, (k < r)%nat → f k = false) ∧ (∀ k, (r ≤ k < n)%nat → f k = true).
Proof.
  intros Hmono. revert i j. induction fuel as [|fuel IH]; intros i j Hf Hij Hlo Hhi; simpl.
  - assert (i = j) as -> by lia. auto with lia.
  - case_bool_decide; [|assert (i = j) as -> by lia; auto with lia].
    assert (i ≤ Nat.div2 (i + j) < j)%nat as Hh.
    { rewrite Nat.div2_div. split; [apply Nat.div_le_lower_bound; lia|].
      apply Nat.div_lt_upper_bound; lia. }
    destruct (f (Nat.div2 (i + j))) eqn:Hfh.
    + edestruct (IH i (Nat.div2 (i + j))) as (? & ? & ?); [lia|lia|done| |].
      { intros k Hk. eapply Hmono; [|done]. lia. }
      split_and!; [lia|lia|done|done].
    + edestruct (IH (S (Nat.div2 (i + j))) j) as (? & ? & ?); [lia|lia| |done|].
      { intros k Hk. apply not_true_is_false. intros Hk'.
        rewrite (Hmono k (Nat.div2 (i + j))) in Hfh; [done|lia|done]. }
      split_and!; [lia|lia|done|done].
Qed.

(** [Search] returns the smallest index at which [f] holds, or [n]. *)
Lemma Search_spec n f :
  monotone n f →
  (Search n f ≤ n)%nat ∧ (∀ k, (k < Search n f)%nat → f k = false) ∧
  (∀ k, (Search n f ≤ k < n)%nat → f k = true).
Proof.
  intros Hm. unfold Search. edestruct (Search_loop_spec n f n 0 n) as (? & ? & ?);
    [done|lia|lia|lia|lia|]. split_and!; [lia|done|done].
Qed.

(** ** The ring *)

(** The entry a key with hash [h] belongs to: the first one clockwise. *)
Definition ring_succ (es : list entry) (h : Z) (e : entry) : Prop :=
  e ∈ es ∧
  ((h <= hash e ∧ ∀ e', e' ∈ es → h <= hash e' → hash e <= hash e') ∨
   ((∀ e', e' ∈ es → hash e' < h) ∧ ∀ e', e' ∈ es → hash e <= hash e')).

#[local] Instance ring_succ_perm : Proper ((≡ₚ) ==> (=) ==> (=) ==> iff) ring_succ.
Proof. intros es es' Hes h ? <- e ? <-. unfold ring_succ. by setoid_rewrite Hes. Qed.

Lemma ring_succ_hash es h e1 e2 : ring_succ es h e1 → ring_succ es h e2 → hash e1 = hash e2.
Proof.
  intros (Hin1 & [[? Hs1]|[Hs1 Hs1']]) (Hin2 & [[? Hs2]|[Hs2 Hs2']]).
  - apply Z.le_antisymm; eauto.
  - specialize (Hs2 _ Hin1). lia.
  - specialize (Hs1 _ Hin2). lia.
  - apply Z.le_antisymm; eauto.
Qed.

(** Adding entries changes the successor only to one of them. *)
Lemma ring_succ_app es new h e e' :
  ring_succ es h e → ring_succ (es ++ new) h e' → hash e' = hash e ∨ e' ∈ new.
Proof.
  intros He (Hin & Hs). apply elem_of_app in Hin as [Hin|?]; [left|by right].
  apply (ring_succ_hash es h); [|done]. split; [done|].
  destruct Hs as [[? Hs]|[Hs Hs']]; [left|right]; set_solver.
Qed.

Definition sorted_keys (ks : list entry) : Prop :=
  StronglySorted (λ x y, hash x <= hash y) ks.

Lemma sorted_lookup ks i j e e' :
  sorted_keys ks → ks !! i = Some e → ks !! j = Some e' → (i ≤ j)%nat → hash e <= hash e'.
Proof.
  intros Hs. revert i j. induction Hs as [|x ks Hs IH Hall]; intros i j Hi Hj Hij; [done|].
  destruct i as [|i], j as [|j]; simplify_eq/=; [lia| |lia|].
  - by eapply (Forall_lookup_1 _ _ j e') in Hall.
  - apply (IH i j); [done..|lia].
Qed.

Lemma hash_ge_monotone ks h : sorted_keys ks → monotone (length ks) (hash_ge ks h).
Proof.
  intros Hs i j Hij. unfold hash_ge.
  destruct (ks !! i) as [e|] eqn:Hi; [|done].
  destruct (lookup_lt_is_Some_2 ks j) as [e' Hj]; [lia|]. rewrite Hj.
  rewrite !bool_decide_eq_true. pose proof (sorted_lookup _ _ _ _ _ Hs Hi Hj). lia.
Qed.

(** The binary search and the wrap-around find the successor. *)
Lemma Get_succ p key :
  sorted_keys (keys p) → keys p ≠ [] →
  ∃ e, Get p key = Some (client e) ∧
    ring_succ (keys p) (int_of_uint64 (call_HashFn (opts p) key)) e.
Proof.
  intros Hs Hne. unfold Get, IsEmpty.
  rewrite bool_decide_false by (by intros ?%nil_length_inv).
  set (h := int_of_uint64 _). set (ks := keys p) in *.
  destruct (Search_spec _ _ (hash_ge_monotone ks h Hs)) as (Hle & Hlo & Hhi).
  set (r := Search _ _) in *.
  assert (∀ k e, ks !! k = Some e → (k < r)%nat → hash e < h) as Hlo'.
  { intros k e Hk Hkr. specialize (Hlo k Hkr). unfold hash_ge in Hlo. rewrite Hk in Hlo.
    apply bool_decide_eq_false in Hlo. lia. }
  case_bool_decide as Hr.
  - destruct (lookup_lt_is_Some_2 ks 0) as [e He]; [destruct ks; simpl; [done|lia]|].
    exists e. rewrite He. split; [done|]. split; [by eapply list_elem_of_lookup_2|].
    right. split; intros e' [k Hk]%list_elem_of_lookup.
    + apply (Hlo' k); [done|]. rewrite Hr. by eapply lookup_lt_Some.
    + eapply sorted_lookup; [done..|lia].
  - destruct (lookup_lt_is_Some_2 ks r) as [e He]; [lia|].
    exists e. rewrite He. split; [done|]. split; [by eapply list_elem_of_lookup_2|].
    left. split.
    + specialize (Hhi r ltac:(lia)). unfold hash_ge in Hhi. rewrite He in Hhi.
      by apply bool_decide_eq_true in Hhi.
    + intros e' [k Hk]%list_elem_of_lookup Hh.
      eapply sorted_lookup; [done..|]. apply Nat.nlt_ge. intros Hkr.
      specialize (Hlo' _ _ Hk Hkr). lia.
Qed.

(** ** Pickers built by [Add] *)

Lemma build_snoc o cs c : build o (cs ++ [c]) = Add c (build o cs).
Proof. unfold build. by rewrite foldl_app. Qed.

Lemma opts_build o cs : opts (build o cs) = effective o.
Proof.
  induction cs as [|c cs IH] using rev_ind; [done|]. by rewrite build_snoc.
Qed.

Definition ring_entries (o : Options) (cs : list C) : list entry :=
  cs ≫= replica_entries (effective o).

Lemma keys_build o cs : keys (build o cs) ≡ₚ ring_entries o cs.
Proof.
  induction cs as [|c cs IH] using rev_ind; [done|].
  rewrite build_snoc. simpl. unfold ring_entries in *.
  by rewrite sort_Slice_perm, bind_app, bind_singleton, IH, opts_build.
Qed.

Lemma sorted_build o cs : sorted_keys (keys (build o cs)).
Proof.
  destruct cs as [|c cs _] using rev_ind; [constructor|].
  rewrite build_snoc. simpl. by apply sort_Slice_sorted.
Qed.

Lemma Replicas_effective o : 0 <= Replicas o → 0 < Replicas (effective o).
Proof. intros. simpl. case_bool_decide; unfold DefaultReplicas; lia. Qed.

Lemma ring_entries_nil o cs : 0 <= Replicas o → cs ≠ [] → ring_entries o cs ≠ [].
Proof.
  intros HR%Replicas_effective Hcs. destruct cs as [|c cs]; [done|].
  unfold ring_entries, replica_entries. rewrite bind_cons.
  destruct (Z.to_nat (Replicas (effective o))) eqn:Hn; [lia|]. done.
Qed.

Lemma elem_of_ring_entries o cs e :
  e ∈ ring_entries o cs ↔
  ∃ i, (i < Z.to_nat (Replicas (effective o)))%nat ∧ client e ∈ cs ∧
    hash e = replica_hash (effective o) i (HashKey (client e)).
Proof.
  unfold ring_entries, replica_entries. rewrite list_elem_of_bind.
  setoid_rewrite list_elem_of_fmap. setoid_rewrite elem_of_seq. split.
  - intros (c & (i & -> & ?) & ?). exists i. cbn [client hash]. split_and!; [lia|done..].
  - intros (i & ? & ? & Hh). exists (client e). split; [|done]. exists i.
    split; [|lia]. destruct e; simpl in *; by subst.
Qed.

Lemma Get_build o cs key :
  0 <= Replicas o → cs ≠ [] →
  ∃ e, Get (build o cs) key = Some (client e) ∧
    ring_succ (ring_entries o cs) (int_of_uint64 (call_HashFn (effective o) key)) e.
Proof.
  intros HR Hcs. destruct (Get_succ (build o cs) key) as (e & He & Hs).
  - apply sorted_build.
  - intros Hk. pose proof (keys_build o cs) as Hp. rewrite Hk in Hp.
    apply Permutation_nil in Hp. by apply (ring_entries_nil o cs).
  - exists e. split; [done|]. by rewrite keys_build, opts_build in Hs.
Qed.

(** No two different hash keys among [hks] share a point of the ring. *)
Definition collision_free (o : Options) (hks : list string) : Prop :=
  ∀ k1 k2 i j, k1 ∈ hks → k2 ∈ hks →
    (i < Z.to_nat (Replicas (effective o)))%nat → (j < Z.to_nat (Replicas (effective o)))%nat →
    replica_hash (effective o) i k1 = replica_hash (effective o) j k2 → k1 = k2.

Lemma collision_free_entries o cs e1 e2 :
  collision_free o (HashKey <$> cs) → NoDup (HashKey <$> cs) →
  e1 ∈ ring_entries o cs → e2 ∈ ring_entries o cs → hash e1 = hash e2 → client e1 = client e2.
Proof.
  intros Hcf Hnd (i & Hi & Hin1 & Hh1)%elem_of_ring_entries
    (j & Hj & Hin2 & Hh2)%elem_of_ring_entries Heq.
  assert (HashKey (client e1) = HashKey (client e2)) as Hk.
  { apply (Hcf _ _ i j); [by apply list_elem_of_fmap_2..|done|done|congruence]. }
  apply list_elem_of_lookup in Hin1 as [n1 Hn1]. apply list_elem_of_lookup in Hin2 as [n2 Hn2].
  assert (n1 = n2) as <-; [|congruence].
  eapply (NoDup_lookup _ n1 n2 (HashKey (client e1))); [done|..];
    rewrite list_lookup_fmap; [by rewrite Hn1|by rewrite Hn2, Hk].
Qed.

Lemma ring_entries_perm o cs cs' : cs ≡ₚ cs' → ring_entries o cs ≡ₚ ring_entries o cs'.
Proof. intros Hp. unfold ring_entries. by rewrite Hp. Qed.

(** The ring without the client objects: points and the hash keys they stand
    for.  It depends on the hash keys of the clients only. *)
Definition points (o : Options) (hks : list string) : list (Z * string) :=
  hks ≫= λ k, (λ i, (replica_hash (effective o) i k, k)) <$> seq 0 (Z.to_nat (Replicas (effective o))).

Definition point_of (e : entry) : Z * string := (hash e, HashKey (client e)).

Definition point_succ (ps : list (Z * string)) (h : Z) (p : Z * string) : Prop :=
  p ∈ ps ∧
  ((h <= p.1 ∧ ∀ p', p' ∈ ps → h <= p'.1 → p.1 <= p'.1) ∨
   ((∀ p', p' ∈ ps → p'.1 < h) ∧ ∀ p', p' ∈ ps → p.1 <= p'.1)).

Lemma points_ring_entries o cs : point_of <$> ring_entries o cs = points o (HashKey <$> cs).
Proof.
  unfold ring_entries, points, replica_entries.
  induction cs as [|c cs IH]; [done|].
  rewrite fmap_cons, !bind_cons, fmap_app, IH. f_equal. by rewrite <-list_fmap_compose.
Qed.

Lemma ring_succ_points es h e : ring_succ es h e → point_succ (point_of <$> es) h (point_of e).
Proof.
  intros [Hin Hs]. split; [by apply list_elem_of_fmap_2|].
  destruct Hs as [[? Hs]|[Hs Hs']]; [left|right]; simpl.
  - split; [done|]. intros p' (e' & -> & He')%list_elem_of_fmap. simpl. auto.
  - split; intros p' (e' & -> & He')%list_elem_of_fmap; simpl; auto.
Qed.

Lemma point_succ_unique ps ps' h p p' :
  ps ≡ₚ ps' → point_succ ps h p → point_succ ps' h p' → p.1 = p'.1.
Proof.
  intros Hp [Hin Hs] [Hin' Hs']. setoid_rewrite <-Hp in Hs'. rewrite <-Hp in Hin'.
  destruct Hs as [[? Hs]|[Hs Hss]], Hs' as [[? Hs']|[Hs' Hss']].
  - apply Z.le_antisymm; eauto.
  - specialize (Hs' _ Hin). lia.
  - specialize (Hs _ Hin'). lia.
  - apply Z.le_antisymm; eauto.
Qed.

Lemma elem_of_points o hks p :
  p ∈ points o hks ↔ p.2 ∈ hks ∧
    ∃ i, (i < Z.to_nat (Replicas (effective o)))%nat ∧ p.1 = replica_hash (effective o) i p.2.
Proof.
  unfold points. rewrite list_elem_of_bind. setoid_rewrite list_elem_of_fmap.
  setoid_rewrite elem_of_seq. split.
  - intros (k & (i & -> & ?) & ?). cbn [fst snd]. split; [done|]. exists i. split; [lia|done].
  - intros (? & i & ? & Hh). exists p.2. split; [|done]. exists i.
    split; [|lia]. destruct p; simpl in *; by subst.
Qed.

(** Processes with the same hash keys find the same one. *)
Lemma point_succ_agree o hks hks' h p p' :
  hks ≡ₚ hks' → collision_free o hks →
  point_succ (points o hks) h p → point_succ (points o hks') h p' → p.2 = p'.2.
Proof.
  intros Hp Hcf Hs Hs'.
  assert (points o hks ≡ₚ points o hks') as Hpp by (unfold points; by rewrite Hp).
  pose proof (point_succ_unique _ _ _ _ _ Hpp Hs Hs') as Heq.
  destruct Hs as [(Hk & i & Hi & Hh)%elem_of_points _].
  destruct Hs' as [(Hk' & j & Hj & Hh')%elem_of_points _]. rewrite <-Hp in Hk'.
  apply (Hcf _ _ i j); [done..|]. congruence.
Qed.

(** [collision_free] is decidable on concrete rings. *)
Definition collision_freeb (o : Options) (hks : list string) : bool :=
  let ps := points o hks in
  forallb (λ p, forallb (λ q, negb (bool_decide (p.1 = q.1)) || bool_decide (p.2 = q.2)) ps) ps.

Lemma collision_freeb_correct o hks : collision_freeb o hks = true → collision_free o hks.
Proof.
  intros Hb k1 k2 i j H1 H2 Hi Hj Heq. unfold collision_freeb in Hb.
  rewrite forallb_forall in Hb.
  specialize (Hb (replica_hash (effective o) i k1, k1)). rewrite forallb_forall in Hb.
  specialize (λ Hin, Hb Hin (replica_hash (effective o) j k2, k2)).
  rewrite <-!list_elem_of_In, !elem_of_points in Hb. cbn [fst snd] in Hb.
  rewrite (bool_decide_true (_ = _) Heq) in Hb.
  eapply bool_decide_eq_true, Hb; eauto.
Qed.

(** The owner is one of the clients; there is none only without clients. *)
Lemma PickPeer_build o cs key :
  0 <= Replicas o → cs ≠ [] →
  ∃ e, PickPeer (build o cs) key = (Some (client e), negb (IsSelf (PeerInfo (client e)))) ∧
    client e ∈ cs ∧
    ring_succ (ring_entries o cs) (int_of_uint64 (call_HashFn (effective o) key)) e.
Proof.
  intros HR Hcs. destruct (Get_build o cs key HR Hcs) as (e & He & Hs).
  exists e. unfold PickPeer. rewrite He.
  split_and!; [|by destruct Hs as [?%elem_of_ring_entries _]; naive_solver|done].
  unfold Get in He. by destruct (IsEmpty _).
Qed.

Lemma PickPeer_nil o key : PickPeer (build o []) key = (None, false).
Proof. done. Qed.

Lemma clientMap_build o cs :
  NoDup (HashKey <$> cs) → clientMap (build o cs) = list_to_map ((λ c, (HashKey c, c)) <$> cs).
Proof.
  induction cs as [|c cs IH] using rev_ind; [done|].
  rewrite fmap_app. intros (Hnd & Hni & _)%NoDup_app.
  rewrite build_snoc. simpl. rewrite IH by done.
  apply map_eq. intros k. rewrite fmap_app, list_to_map_app.
  simpl. rewrite lookup_union. destruct (decide (k = HashKey c)) as [->|Hne].
  - rewrite !lookup_insert_eq, not_elem_of_list_to_map_1; [done|].
    rewrite <-list_fmap_compose. intros Hin. apply (Hni _ Hin). set_solver.
  - rewrite !lookup_insert_ne, lookup_empty by done. by destruct (_ !! k).
Qed.

(** [GetAll] returns every client once. *)
Lemma GetAll_build `{!MapRange string C} o cs :
  NoDup (HashKey <$> cs) → GetAll (build o cs) ≡ₚ cs.
Proof.
  intros Hnd. unfold GetAll. rewrite map_range_perm, clientMap_build by done.
  rewrite map_to_list_to_map by (by rewrite <-list_fmap_compose).
  rewrite <-list_fmap_compose. change (snd ∘ _) with (λ c : C, c). by rewrite list_fmap_id.
Qed.

(** ** Theorems *)

(** C28: [PickPeer] returns the client of the ring entry that follows the
    key's hash clockwise: the entry with the least hash not below it, or the
    least one of the ring when there is none; the second result tells whether
    that client is a remote one. *)
Theorem picker_successor o cs key :
  0 <= Replicas o → cs ≠ [] →
  ∃ e, PickPeer (build o cs) key = (Some (client e), negb (IsSelf (PeerInfo (client e)))) ∧
    client e ∈ cs ∧
    ring_succ (ring_entries o cs) (int_of_uint64 (call_HashFn (effective o) key)) e.
Proof. apply PickPeer_build. Qed.

(** C29: consistent hashing: when a client joins, every key stays with its
    owner or moves to the new client. *)
Theorem picker_add_moves_only_to_new o cs cs' c key :
  0 <= Replicas o → cs' ≡ₚ c :: cs → cs ≠ [] →
  NoDup (HashKey <$> cs') → collision_free o (HashKey <$> cs') →
  Get (build o cs') key = Get (build o cs) key ∨ Get (build o cs') key = Some c.
Proof.
  intros HR Hp Hcs Hnd Hcf.
  destruct (Get_build o cs key) as (e & He & Hs); [done..|].
  destruct (Get_build o cs' key) as (e' & He' & Hs'); [done| |].
  { intros ->. by apply Permutation_nil_cons in Hp. }
  rewrite He, He'.
  assert (ring_entries o cs' ≡ₚ ring_entries o cs ++ replica_entries (effective o) c) as HE.
  { rewrite (ring_entries_perm _ _ _ Hp). unfold ring_entries. rewrite bind_cons. apply Permutation_app_comm. }
  rewrite HE in Hs'. destruct (ring_succ_app _ _ _ _ _ Hs Hs') as [Hh|Hin].
  - left. f_equal. apply (collision_free_entries o cs'); [done..| | |done]; rewrite HE.
    + apply Hs'.
    + apply elem_of_app. left. apply Hs.
  - right. f_equal. unfold replica_entries in Hin.
    by apply list_elem_of_fmap in Hin as (i & -> & _).
Qed.

End Picker.

(** All processes agree on the owner of a key: two pickers with the same
    options and the same hash keys, whatever the clients behind them, the
    order they were added in and the way equal hashes are sorted, return
    clients with the same hash key. *)
Theorem pickers_agree {C1 C2 : Type} `{!Client C1, !Client C2}
    (sort1 sort2 : SortSlice) fnv1 o (cs1 : list C1) (cs2 : list C2) key :
  0 <= Replicas o → HashKey <$> cs1 ≡ₚ HashKey <$> cs2 →
  collision_free fnv1 o (HashKey <$> cs1) →
  HashKey <$> Get fnv1 (@build C1 _ sort1 fnv1 o cs1) key =
  HashKey <$> Get fnv1 (@build C2 _ sort2 fnv1 o cs2) key.
Proof.
  intros HR Hp Hcf. destruct (decide (cs1 = [])) as [->|Hne1].
  { apply Permutation_nil, fmap_nil_inv in Hp as ->. done. }
  assert (cs2 ≠ []) as Hne2.
  { intros ->. symmetry in Hp. by apply Permutation_nil, fmap_nil_inv in Hp. }
  destruct (@Get_build C1 _ sort1 fnv1 o cs1 key) as (e1 & -> & Hs1); [done..|].
  destruct (@Get_build C2 _ sort2 fnv1 o cs2 key) as (e2 & -> & Hs2); [done..|].
  apply ring_succ_points in Hs1, Hs2. rewrite points_ring_entries in Hs1. rewrite points_ring_entries in Hs2.
  simpl. f_equal. by apply (point_succ_agree _ _ _ _ _ _ _ Hp Hcf Hs1 Hs2).
Qed.

(** ** Instances *)

(** Stable insertion sort is one possible [sort.Slice]. *)
Fixpoint insert_by {A} (less : A → A → bool) (x : A) (l : list A) : list A :=
  match l with
  | [] => [x]
  | y :: l => if less y x then y :: insert_by less x l else x :: y :: l
  end.

Definition insertion_sort {A} (less : A → A → bool) (l : list A) : list A :=
  foldr (insert_by less) [] l.

Lemma insert_by_perm {A} (less : A → A → bool) x l : insert_by less x l ≡ₚ x :: l.
Proof. induction l as [|y l IH]; simpl; [done|]. case_match; [|done]. rewrite IH. constructor. Qed.

Lemma insertion_sort_perm {A} (less : A → A → bool) l : insertion_sort less l ≡ₚ l.
Proof. induction l as [|x l IH]; simpl; [done|]. by rewrite insert_by_perm, IH. Qed.

Lemma insert_by_sorted {A} (less : A → A → bool) f x l :
  by_key less f → StronglySorted (λ x y, f x ≤ f y) l →
  StronglySorted (λ x y, f x ≤ f y) (insert_by less x l).
Proof.
  intros Hf. induction 1 as [|y l Hs IH Hall]; simpl; [by repeat constructor|].
  rewrite Hf. case_bool_decide.
  - constructor; [done|]. rewrite insert_by_perm. constructor; [lia|done].
  - constructor; [by constructor|]. constructor; [lia|].
    eapply Forall_impl; [done|]. simpl. intros. lia.
Qed.

#[export] Program Instance insertion_SortSlice : SortSlice := {|
  sort_Slice := @insertion_sort;
|}.
Next Obligation. intros. apply insertion_sort_perm. Qed.
Next Obligation.
  intros A less f l Hf. induction l as [|x l IH]; [constructor|]. by apply insert_by_sorted.
Qed.

(** The documented behaviour of [fnv1.HashBytes64]: the 64-bit FNV-1 hash. *)
Definition fnv1_64 (data : list byte) : Z :=
  foldl (λ h b, Z.lxor (Z.land (h * 1099511628211) (2 ^ 64 - 1)) (byte_Z b))
    14695981039346656037 data.

Definition noop (addr : string) : NoOpClient := mkNoOp (mkInfo addr false).

Definition two_replicas : Options := mkOptions None 2.

Lemma abc_collision_free : collision_free fnv1_64 two_replicas ["c"; "a"; "b"].
Proof. apply collision_freeb_correct. vm_compute. reflexivity. Qed.

(** ** Witnesses *)

Lemma picker_successor_witness :
  ∃ e, PickPeer fnv1_64 (build fnv1_64 two_replicas (noop <$> ["a"; "b"])) "key" =
    (Some (client e), negb (IsSelf (PeerInfo (client e)))).
Proof.
  destruct (picker_successor fnv1_64 two_replicas (noop <$> ["a"; "b"]) "key")
    as (e & He & _); [done|done|]. exists e. exact He.
Defined.

Lemma picker_add_moves_only_to_new_witness :
  Get fnv1_64 (build fnv1_64 two_replicas (noop <$> ["c"; "a"; "b"])) "key" =
  Get fnv1_64 (build fnv1_64 two_replicas (noop <$> ["a"; "b"])) "key" ∨
  Get fnv1_64 (build fnv1_64 two_replicas (noop <$> ["c"; "a"; "b"])) "key" = Some (noop "c").
Proof.
  apply (picker_add_moves_only_to_new fnv1_64); [done|done|done| |apply abc_collision_free].
  by apply (bool_decide_unpack _).
Defined.

Lemma pickers_agree_witness :
  HashKey <$> Get fnv1_64 (build fnv1_64 two_replicas (noop <$> ["c"; "a"; "b"])) "key" =
  HashKey <$> Get fnv1_64 (build fnv1_64 two_replicas (noop <$> ["b"; "c"; "a"])) "key".
Proof.
  apply (pickers_agree _ _ fnv1_64); [done| |apply abc_collision_free].
  apply (Permutation_app_comm ["c"; "a"] ["b"]).
Defined.

(** Adding a client does move keys, and leaves others where they were. *)
Example picker_moves_some_keys :
  let p := build fnv1_64 two_replicas (noop <$> ["a"; "b"]) in
  (λ key, HashKey <$> Get fnv1_64 (Add fnv1_64 (noop "c") p) key) <$> ["apple"; "cherry"; "Bob"]
  = [Some "c"; Some "a"; Some "b"].
Proof. vm_compute. reflexivity. Qed.
