(* ===== verification/CacheIface.v ===== *)
(** * The cache interface (cache.go, interface [Cache])

    [Cache] is the Go interface a group stores its values behind; [CacheLaws]
    states what a group relies on, with a finite map from keys to views as
    the abstract state.  The laws leave a cache free to drop entries at any
    [Add], and promise that nothing else appears; but a cache that has room
    for a pair keeps it when it is added.  The default cache is an instance of
    both: it has room for the pairs that fit its limit. *)

From S2P Require Import Prelude Slices ByteView Lru MutexCache.

Class Cache (K : Type) := {
  cache_Get : string → Time → M K (option ByteView);
  cache_Add : string → ByteView → M K unit;
  cache_Stats : M K CacheStats;
  cache_Remove : string → M K unit;
  cache_Bytes : K → Z;
  cache_Close : M K unit;
}.
#[global] Hint Mode Cache ! : typeclass_instances.

(** A value that has expired at [now] is not returned. *)
Definition view_expired (now : Time) (v : ByteView) : bool :=
  negb (IsZero (Expire v)) && Before (Expire v) now.

Definition fresh (now : Time) (o : option ByteView) : option ByteView :=
  match o with
  | Some v => if view_expired now v then None else Some v
  | None => None
  end.

Class CacheLaws (K : Type) `{Cache K} := {
  cache_rep : K → gmap string ByteView → Prop;
  (** The cache has room for the value under the key. *)
  cache_room : K → string → ByteView → Prop;
  cache_Get_law c σ k now : cache_rep c σ →
    ∃ c' σ', cache_Get k now c = (Val (fresh now (σ !! k)), c') ∧ cache_rep c' σ' ∧
      σ' ⊆ σ ∧ (∀ v, fresh now (σ !! k) = Some v → σ' !! k = Some v) ∧
      ∀ k' v', cache_room c k' v' → cache_room c' k' v';
  cache_Add_law c σ k v : cache_rep c σ →
    ∃ c' σ', cache_Add k v c = (Val tt, c') ∧ cache_rep c' σ' ∧ σ' ⊆ <[k := v]> σ ∧
      (cache_room c k v → σ' !! k = Some v ∧ ∀ k' v', cache_room c k' v' → cache_room c' k' v');
  cache_Remove_law c σ k : cache_rep c σ →
    ∃ c' σ', cache_Remove k c = (Val tt, c') ∧ cache_rep c' σ' ∧ σ' ⊆ delete k σ ∧
      ∀ k' v', cache_room c k' v' → cache_room c' k' v';
}.

(** ** The default cache *)

#[export] Instance mutexCache_Cache : Cache mutexCache := {|
  cache_Get := MutexCache.Get;
  cache_Add := MutexCache.Add;
  cache_Stats := MutexCache.Stats;
  cache_Remove := MutexCache.Remove;
  cache_Bytes := Cache_Bytes;
  cache_Close := Close;
|}.

(** The map an entry list stands for. *)
Definition entry_map (l : list item) : gmap string ByteView :=
  list_to_map ((λ en, (key en, value en)) <$> l).

(** An entry expires when its view does. *)
Definition expire_ok (en : item) : Prop := expire en = Expire (value en).

Definition mutexCache_rep (m : mutexCache) (σ : gmap string ByteView) : Prop :=
  ∃ l, mrep m l ∧ 0 <= m_maxBytes m ∧ Forall expire_ok l ∧ σ = entry_map l.

Lemma lookup_entry_map l k : entry_map l !! k = value <$> spec_lookup k l.
Proof.
  unfold entry_map, spec_lookup. induction l as [|en l IH]; [done|]. simpl.
  case_bool_decide as Hk; [subst; by rewrite lookup_insert_eq|].
  by rewrite lookup_insert_ne.
Qed.

Lemma spec_lookup_key (k : string) (l : list item) en : spec_lookup k l = Some en → key en = k ∧ en ∈ l.
Proof.
  intros (i & Hi & Hk & _)%find_first_Some. apply bool_decide_eq_true in Hk.
  eauto using list_elem_of_lookup_2.
Qed.

Lemma entry_map_cons en l : entry_map (en :: l) = <[key en := value en]> (entry_map l).
Proof. done. Qed.

Lemma entry_map_delete k l : entry_map (spec_delete k l) = delete k (entry_map l).
Proof.
  unfold spec_delete. induction l as [|en l IH]; [symmetry; apply delete_empty|].
  rewrite filter_cons, entry_map_cons. case_decide as Hk; [rewrite entry_map_cons|]; rewrite IH.
  - by rewrite delete_insert_ne.
  - subst. by rewrite delete_insert_eq.
Qed.

Lemma entry_map_added k v l : entry_map (added k v l) = <[k := v]> (entry_map l).
Proof. unfold added. by rewrite entry_map_cons, entry_map_delete, insert_delete_eq. Qed.

Lemma entry_map_take n l : NoDup (key <$> l) → entry_map (take n l) ⊆ entry_map l.
Proof.
  intros Hd. apply map_subseteq_spec. intros k v. unfold entry_map.
  assert (∀ l : list item, ((λ en, (key en, value en)) <$> l).*1 = key <$> l) as Hkeys
    by (intros; by rewrite <-list_fmap_compose).
  rewrite <-!elem_of_list_to_map; rewrite ?Hkeys; [|done|].
  - intros (en & ? & (i & ? & ?)%elem_of_take)%list_elem_of_fmap. apply list_elem_of_fmap.
    eauto using list_elem_of_lookup_2.
  - rewrite <-(take_drop n l), fmap_app in Hd. by apply NoDup_app in Hd as [? _].
Qed.

Lemma expired_view now en : expire_ok en → expired now en = view_expired now (value en).
Proof. unfold expired, view_expired. by intros ->. Qed.

Lemma Forall_spec_delete (P : item → Prop) k l : Forall P l → Forall P (spec_delete k l).
Proof. rewrite !Forall_forall. intros HP en [_ ?]%list_elem_of_filter. auto. Qed.

Lemma added_NoDup k v l : NoDup (key <$> l) → NoDup (key <$> added k v l).
Proof.
  intros Hd. unfold added. simpl. constructor.
  - intros (en & Hk & Hin)%list_elem_of_fmap. apply list_elem_of_filter in Hin as [Hne _]. done.
  - unfold spec_delete. eapply sublist_NoDup; [done|]. apply fmap_sublist, sublist_filter.
Qed.

#[export] Hint Resolve Forall_spec_delete added_NoDup : groupcache.

(** *** Room

    A default cache has room for the pairs that fit its limit on their own. *)

(** The stored pairs are within the limit. *)
Definition within (m : mutexCache) (l : list item) : Prop := mrep m l ∧ size l <= m_maxBytes m.

Definition mutexCache_room (m : mutexCache) (k : string) (v : ByteView) : Prop :=
  0 < m_maxBytes m ∧ 2 * m_maxBytes m < two63 ∧
  Z.of_nat (String.length k) + ByteView.Len v <= m_maxBytes m ∧ ∃ l, within m l.

Lemma mrep_functional m l l' : mrep m l → mrep m l' → l = l'.
Proof.
  intros (_ & _ & _ & Hl) (_ & _ & _ & Hl'). destruct (m_lru m) as [c|]; [|congruence].
  destruct Hl as [(L & (Hd & _ & Hel & HL) & <-) _], Hl' as [(L' & (_ & _ & Hel' & HL') & <-) _].
  f_equal. destruct (ll c) as [a|], (cache c) as [?|]; try done; [|congruence].
  destruct HL as [-> _], HL' as [Heq _]. clear Hd.
  revert L' Heq Hel'. induction L as [|[e en] L IH]; intros [|[e' en'] L'] Heq Hel'; simplify_eq/=; [done|].
  rewrite (IH ltac:(intros; apply Hel; by right) L') by (done || (intros; apply Hel'; by right)).
  assert (elems c !! e' = Some en) by (apply Hel; by left).
  assert (elems c !! e' = Some en') by (apply Hel'; by left). congruence.
Qed.

Lemma size_spec_delete k l : size (spec_delete k l) <= size l.
Proof.
  unfold spec_delete. induction l as [|en l IH]; [done|]. rewrite filter_cons, size_cons.
  pose proof (entry_size_nonneg en). case_decide; rewrite ?size_cons; lia.
Qed.

Lemma size_fit budget l : 0 <= budget → size (fit budget l) <= budget.
Proof.
  revert budget. induction l as [|en l IH]; intros budget Hb; [done|]. simpl.
  case_decide as Hen; [|done]. rewrite size_cons. specialize (IH (budget - entry_size en)). lia.
Qed.

(** A lookup does not make the stored pairs larger. *)
Lemma size_lookup k now l :
  NoDup (key <$> l) →
  size (match spec_lookup k l with
        | Some en => if expired now en then spec_delete k l else en :: spec_delete k l
        | None => l
        end) <= size l.
Proof.
  intros Hd. pose proof (size_spec_delete k l). destruct (spec_lookup k l) as [en|] eqn:Hl; [|done].
  destruct (expired now en); [done|]. rewrite size_cons, (size_delete k l en) by done. lia.
Qed.

(** An addition that has room keeps the pair and stays within the limit. *)
Lemma fit_added m l n k v :
  mutexCache_room m k v → mrep m l → kept (m_maxBytes m) (added k v l) n →
  take n (added k v l) = fit (m_maxBytes m) (added k v l) ∧
  size (fit (m_maxBytes m) (added k v l)) <= m_maxBytes m ∧
  entry_map (fit (m_maxBytes m) (added k v l)) !! k = Some v.
Proof.
  intros (Hpos & Hbig & Hfit & l' & Hm' & Hsz) Hm Hn.
  rewrite (mrep_functional m l' l Hm' Hm) in *. pose proof (size_spec_delete k l).
  assert (entry_size (mkEntry k v (Expire v)) <= m_maxBytes m) as Hent by exact Hfit.
  split_and!; [|apply size_fit; lia|].
  - apply kept_fit; [done| |done]. unfold added. rewrite size_cons. lia.
  - unfold added. simpl. rewrite decide_True by done. rewrite entry_map_cons. apply lookup_insert_eq.
Qed.

#[export] Program Instance mutexCache_laws : CacheLaws mutexCache := {|
  cache_rep := mutexCache_rep;
  cache_room := mutexCache_room;
|}.
Next Obligation.
  intros m σ k now (l & Hm & Hmax & Hexp & ->).
  destruct (mGet_spec m l k now Hm) as (m' & Hg & Hm' & Hmax' & _). simpl.
  assert (∀ k' v', mutexCache_room m k' v' → mutexCache_room m' k' v') as Hroom.
  { intros k' v' (? & ? & ? & l' & Hl' & Hsz). rewrite (mrep_functional m l' l Hl' Hm) in Hsz.
    destruct Hm as (_ & _ & Hd & _). pose proof (size_lookup k now l Hd).
    split_and!; rewrite ?Hmax'; [done..|]. eexists. split; [exact Hm'|]. lia. }
  rewrite lookup_entry_map. destruct (spec_lookup k l) as [en|] eqn:Hl; simpl in *.
  - pose proof (spec_lookup_key _ _ _ Hl) as [Hk Hin].
    assert (expire_ok en) as Hen by (by eapply Forall_forall in Hexp).
    assert (Forall expire_ok (spec_delete k l)) as Hdel by (auto with groupcache).
    rewrite expired_view in Hg, Hm' by done. destruct (view_expired now (value en)).
    + exists m', (delete k (entry_map l)). split_and!; [done| |apply delete_subseteq|done|done].
      exists (spec_delete k l). rewrite entry_map_delete. split_and!; [done|lia|done|done].
    + exists m', (entry_map (en :: spec_delete k l)). split_and!; [done| | | |done].
      * eexists. split_and!; [done|lia|by constructor|done].
      * rewrite entry_map_cons, entry_map_delete, Hk, insert_delete_eq, insert_id; [done|].
        by rewrite lookup_entry_map, Hl.
      * intros v [= <-]. rewrite lookup_entry_map. unfold spec_lookup. simpl.
        by rewrite bool_decide_true.
  - exists m', (entry_map l). split_and!; [done| |done|done|done]. exists l. split_and!; [done|lia|done|done].
Qed.
Next Obligation.
  intros m σ k v (l & Hm & Hmax & Hexp & ->). simpl.
  destruct (mAdd_spec m l k v Hm Hmax) as (m' & n & Hr & Hm' & Hn & Hmax' & _).
  exists m', (entry_map (take n (added k v l))). split_and!; [done| | |].
  - eexists. split_and!; [done|lia| |done]. apply Forall_take. constructor; [done|].
    auto with groupcache.
  - rewrite <-entry_map_added. apply entry_map_take.
    destruct Hm as (_ & _ & Hd & _). auto with groupcache.
  - intros Hroom. destruct (fit_added m l n k v Hroom Hm Hn) as (Htake & Hsz & Hk).
    rewrite Htake in *. split; [done|]. intros k' v' (? & ? & ? & _).
    split_and!; rewrite ?Hmax'; [done..|]. eexists. split; [exact Hm'|]. by rewrite Hmax'.
Qed.
Next Obligation.
  intros m σ k (l & Hm & Hmax & Hexp & ->). simpl.
  destruct (mRemove_spec m l k Hm) as (m' & Hr & Hm' & Hmax' & _).
  exists m', (delete k (entry_map l)). split_and!; [done| |done|].
  - exists (spec_delete k l). rewrite entry_map_delete.
    split_and!; [done|lia|auto with groupcache|done].
  - intros k' v' (? & ? & ? & l' & Hl' & Hsz). rewrite (mrep_functional m l' l Hl' Hm) in Hsz.
    pose proof (size_spec_delete k l).
    split_and!; rewrite ?Hmax'; [done..|]. eexists. split; [exact Hm'|]. lia.
Qed.

(** A new cache is empty. *)
Lemma mutexCache_rep_new maxBytes : 0 <= maxBytes → cache_rep (newMutexCache maxBytes) ∅.
Proof. intros. exists []. split_and!; [apply mrep_new|done|constructor|done]. Qed.

Lemma mutexCache_room_new maxBytes k v :
  0 < maxBytes → 2 * maxBytes < two63 → Z.of_nat (String.length k) + ByteView.Len v <= maxBytes →
  cache_room (newMutexCache maxBytes) k v.
Proof. intros. split_and!; [done..|]. exists []. split; [apply mrep_new|].
  change (0 <= maxBytes). lia.
Qed.
