(* ===== verification/Otter.v ===== *)
(** * The Otter cache adapter (contrib/otter.go)

    [OtterCache] implements the cache interface on top of the third-party
    package otter, which is an interface here: class [Otter] for its methods,
    class [OtterLaws] for what its documentation promises (a bounded map that
    may drop entries at any time, and whose [Set] returns false when it
    dropped the pair for its cost).  Every method of the adapter is modelled;
    its two counters are [int64].  [OtterCache_refines_map] says what the
    adapter does in terms of what otter holds; it is not an instance of
    [CacheLaws], as [OtterCache_rejected_Add_keeps_old] shows. *)

From S2P Require Import Prelude Errors Slices ByteView MutexCache CacheIface.

(** [otter.Cache[string, transport.ByteView]] and its builder: [otter_build]
    takes the capacity and the cost function, and panics or returns an error
    as [MustBuilder] and [Build] do. *)
Class Otter (O : Type) := {
  otter_build : Z → (string → ByteView → Z) → res (error + O);
  otter_Get : string → M O (ByteView * bool);
  otter_Set : string → ByteView → M O bool;
  otter_Delete : string → M O unit;
  otter_Close : M O unit;
  otter_Capacity : O → Z;
  otter_Size : O → Z;
  otter_Hits : O → Z;
  otter_EvictedCount : O → Z;
}.
#[global] Hint Mode Otter ! : typeclass_instances.

Class OtterLaws (O : Type) `{!Otter O} := {
  otter_rep : O → gmap string ByteView → Prop;
  build_law capacity cost o : otter_build capacity cost = Val (inr o) → otter_rep o ∅;
  Get_law o σ k : otter_rep o σ →
    ∃ o' σ', otter_Get k o = (Val match σ !! k with Some v => (v, true) | None => (zero_view, false) end, o') ∧
      otter_rep o' σ' ∧ σ' ⊆ σ ∧ σ' !! k = σ !! k ∧
      otter_Hits o' = otter_Hits o + (if σ !! k is Some _ then 1 else 0);
  (** A [Set] that returns false was dropped. *)
  Set_law o σ k v : otter_rep o σ →
    ∃ b o' σ', otter_Set k v o = (Val b, o') ∧ otter_rep o' σ' ∧
      if b : bool then σ' ⊆ <[k := v]> σ else σ' = σ;
  Delete_law o σ k : otter_rep o σ →
    ∃ o', otter_Delete k o = (Val tt, o') ∧ otter_rep o' (delete k σ) ∧ otter_Hits o' = otter_Hits o;
}.

(** The adapter; the time [Now] returns is an argument of [Get]. *)
Record OtterCache (O : Type) := mkOtterCache {
  oc_cache : O;
  oc_rejected : Z;
  oc_gets : Z;
}.
Arguments mkOtterCache {O}.
Arguments oc_cache {O}.
Arguments oc_rejected {O}.
Arguments oc_gets {O}.

(** [uint32(value.Len())] *)
Definition otter_cost (_ : string) (value : ByteView) : Z := Len value mod 2 ^ 32.

Section Otter.
Context {O : Type} `{!Otter O}.

Notation OtterCache := (OtterCache O).

Definition on_otter {A} (f : M O A) : M OtterCache A := λ o,
  let '(r, c) := f (oc_cache o) in (r, mkOtterCache c (oc_rejected o) (oc_gets o)).

Definition NewOtterCache (maxBytes : Z) : res (error + OtterCache) :=
  match otter_build (wrap64 maxBytes) otter_cost with
  | Val (inl err) => Val (inl err)
  | Val (inr c) => Val (inr (mkOtterCache c 0 0))
  | Panicked => Panicked
  | Diverged => Diverged
  end.

Definition add_gets (n : Z) : M OtterCache unit := λ o,
  (Val tt, mkOtterCache (oc_cache o) (oc_rejected o) (add64 (oc_gets o) n)).
Definition add_rejected (n : Z) : M OtterCache unit := λ o,
  (Val tt, mkOtterCache (oc_cache o) (add64 (oc_rejected o) n) (oc_gets o)).

Definition OtterCache_Get (key : string) (now : Time) : M OtterCache (ByteView * bool) :=
  '(i, ok) ← on_otter (otter_Get key);
  if negb (IsZero (Expire i)) && Before (Expire i) now then
    _ ← on_otter (otter_Delete key);
    mret (zero_view, false)
  else
    _ ← add_gets 1;
    mret (i, ok).

Definition OtterCache_Add (key : string) (value : ByteView) : M OtterCache unit :=
  ok ← on_otter (otter_Set key value);
  if ok : bool then mret tt else add_rejected 1.

Definition OtterCache_Remove (key : string) : M OtterCache unit := on_otter (otter_Delete key).

Definition OtterCache_Stats : M OtterCache CacheStats := λ o,
  (Val (mkCacheStats (oc_rejected o) (wrap64 (otter_Capacity (oc_cache o)))
          (wrap64 (otter_Size (oc_cache o))) (oc_gets o) (otter_Hits (oc_cache o))
          (otter_EvictedCount (oc_cache o))), o).

Definition OtterCache_Bytes (_ : OtterCache) : Z := 0.

Definition OtterCache_Close : M OtterCache unit := on_otter otter_Close.

(** A value and whether it was found, as an option. *)
Definition found_value (r : ByteView * bool) : option ByteView := if r.2 then Some r.1 else None.

#[export] Instance OtterCache_Cache : Cache OtterCache := {|
  cache_Get k now := r ← OtterCache_Get k now; mret (found_value r);
  cache_Add := OtterCache_Add;
  cache_Stats := OtterCache_Stats;
  cache_Remove := OtterCache_Remove;
  cache_Bytes := OtterCache_Bytes;
  cache_Close := OtterCache_Close;
|}.

(** ** What the adapter promises

    A specification with the state of otter and the map [σ] of what it holds:
    a [Get] returns the value otter holds unless it has expired, and removes an
    expired one; an [Add] is one [Set] of otter; when otter rejects it, the
    content stays as it was, and with it the old value of the key.  So this
    cache does not satisfy [CacheLaws], whose [Add] leaves no other value under
    the key, and what is proved of groups over those laws does not cover it. *)

Inductive cache_op := OpGet (k : string) (now : Time) | OpAdd (k : string) (v : ByteView) | OpRemove (k : string).

Definition run_cache_op {K} `{!Cache K} (op : cache_op) : M K (option ByteView) :=
  match op with
  | OpGet k now => cache_Get k now
  | OpAdd k v => _ ← cache_Add k v; mret None
  | OpRemove k => _ ← cache_Remove k; mret None
  end.

Notation content := (O * gmap string ByteView)%type.

(** A step: what the operation returns, and how many rejections it counts. *)
Inductive spec_step : content → cache_op → option ByteView → Z → content → Prop :=
| spec_hit c σ σ' k now v : σ !! k = Some v → view_expired now v = false → σ' ⊆ σ → σ' !! k = Some v →
    spec_step (c, σ) (OpGet k now) (Some v) 0 ((otter_Get k c).2, σ')
| spec_miss c σ σ' k now : σ !! k = None → σ' ⊆ σ →
    spec_step (c, σ) (OpGet k now) None 0 ((otter_Get k c).2, σ')
| spec_expired c σ σ' k now v : σ !! k = Some v → view_expired now v = true → σ' ⊆ delete k σ →
    spec_step (c, σ) (OpGet k now) None 0 ((otter_Delete k (otter_Get k c).2).2, σ')
| spec_accept c c' σ σ' k v : otter_Set k v c = (Val true, c') → σ' ⊆ <[k := v]> σ →
    spec_step (c, σ) (OpAdd k v) None 0 (c', σ')
| spec_reject c c' σ k v : otter_Set k v c = (Val false, c') →
    spec_step (c, σ) (OpAdd k v) None 1 (c', σ)
| spec_remove c σ k : spec_step (c, σ) (OpRemove k) None 0 ((otter_Delete k c).2, delete k σ).

(** Runs of the specification: the results and the number of rejections. *)
Inductive spec_run : content → list cache_op → list (option ByteView) → Z → content → Prop :=
| spec_nil x : spec_run x [] [] 0 x
| spec_cons x op r n x1 ops rs m x2 :
    spec_step x op r n x1 → spec_run x1 ops rs m x2 → spec_run x (op :: ops) (r :: rs) (n + m) x2.

Context `{!OtterLaws O}.

Lemma zero_view_not_expired now : view_expired now zero_view = false.
Proof. reflexivity. Qed.

(** The lookup met an expired value. *)
Definition expired_hit (now : Time) (o : option ByteView) : bool :=
  match o with Some v => view_expired now v | None => false end.

Lemma OtterCache_Get_spec (c : O) σ k now r g :
  otter_rep c σ →
  ∃ c' σ', cache_Get k now (mkOtterCache c r g) =
      (Val (fresh now (σ !! k)),
       mkOtterCache c' r (if expired_hit now (σ !! k) then g else add64 g 1)) ∧
    otter_rep c' σ' ∧ σ' ⊆ (if expired_hit now (σ !! k) then delete k σ else σ) ∧
    (∀ v, fresh now (σ !! k) = Some v → σ' !! k = Some v) ∧
    otter_Hits c' = otter_Hits c + (if σ !! k is Some _ then 1 else 0) ∧
    c' = (if expired_hit now (σ !! k) then (otter_Delete k (otter_Get k c).2).2 else (otter_Get k c).2).
Proof.
  intros Hrep. destruct (Get_law c σ k Hrep) as (c1 & σ1 & Hg & Hrep1 & Hsub & Hk & Hhits).
  simpl. unfold OtterCache_Get. rewrite !M_bind_assoc.
  erewrite M_bind_val by (unfold on_otter; simpl; by rewrite Hg).
  destruct (σ !! k) as [v|] eqn:Hv; simpl.
  - fold (view_expired now v). destruct (view_expired now v) eqn:He.
    + destruct (Delete_law c1 σ1 k Hrep1) as (c2 & Hd & Hrep2 & Hh2).
      rewrite !M_bind_assoc. erewrite M_bind_val by (unfold on_otter; simpl; by rewrite Hd).
      exists c2, (delete k σ1). split_and!; [done|done|by apply delete_mono|done|lia|]. by rewrite Hg; simpl; rewrite Hd.
    + exists c1, σ1. rewrite Hg. split_and!; [done|done|done| |done|done]. by intros ? [= <-].
  - exists c1, σ1. rewrite Hg. by split_and!.
Qed.

Lemma OtterCache_Remove_spec (c : O) σ k r g :
  otter_rep c σ → ∃ c', cache_Remove k (mkOtterCache c r g) = (Val tt, mkOtterCache c' r g) ∧
    otter_rep c' (delete k σ) ∧ c' = (otter_Delete k c).2.
Proof.
  intros Hrep. destruct (Delete_law c σ k Hrep) as (c' & Hd & Hrep' & _).
  exists c'. simpl. unfold OtterCache_Remove, on_otter. simpl. by rewrite Hd.
Qed.

Lemma OtterCache_Add_spec (c : O) σ k v r g :
  otter_rep c σ →
  ∃ (b : bool) c' σ', cache_Add k v (mkOtterCache c r g) =
      (Val tt, mkOtterCache c' (if b then r else add64 r 1) g) ∧ otter_rep c' σ' ∧ otter_Set k v c = (Val b, c') ∧
    if b then σ' ⊆ <[k := v]> σ else σ' = σ.
Proof.
  intros Hrep. destruct (Set_law c σ k v Hrep) as (b & c' & σ' & Hs & Hrep' & Hb).
  exists b, c', σ'. simpl. unfold OtterCache_Add.
  erewrite M_bind_val by (unfold on_otter; simpl; by rewrite Hs). by destruct b.
Qed.

(** One operation of the adapter is a step of the specification. *)
Lemma OtterCache_simulates (o : OtterCache) σ op N :
  otter_rep (oc_cache o) σ → oc_rejected o = wrap64 N →
  ∃ r n o' σ', run_cache_op op o = (Val r, o') ∧ spec_step (oc_cache o, σ) op r n (oc_cache o', σ') ∧
    otter_rep (oc_cache o') σ' ∧ oc_rejected o' = wrap64 (N + n).
Proof.
  intros Hrep HN. destruct o as [c rj g]. simpl in *. destruct op as [k now|k v|k]; cbn [run_cache_op].
  - destruct (OtterCache_Get_spec c σ k now rj g Hrep) as (c' & σ' & Hg & Hrep' & Hs & Hk & _ & ->).
    rewrite Hg. clear Hg. eexists _, 0, _, σ'. rewrite Z.add_0_r. split_and!; [done| |done|done].
    destruct (σ !! k) as [v|] eqn:Hv; simpl in *; [|by constructor].
    destruct (view_expired now v) eqn:He; [by eapply spec_expired|]. apply spec_hit; auto.
  - destruct (OtterCache_Add_spec c σ k v rj g Hrep) as (b & c' & σ' & Ha & Hrep' & Hset & Hb).
    mstep Ha. destruct b.
    + eexists _, 0, _, σ'. rewrite Z.add_0_r. split_and!; [done|by apply spec_accept|done|done].
    + subst σ'. eexists _, 1, _, σ. split_and!; [done|by apply spec_reject|done|].
      simpl. unfold add64. subst rj. by rewrite wrap64_add_l.
  - destruct (OtterCache_Remove_spec c σ k rj g Hrep) as (c' & Hr & Hrep' & ->).
    mstep Hr. eexists None, 0, (mkOtterCache _ rj g), _. rewrite Z.add_0_r.
    split_and!; [done|apply spec_remove|done|done].
Qed.

Lemma OtterCache_run (o : OtterCache) σ ops N :
  otter_rep (oc_cache o) σ → oc_rejected o = wrap64 N →
  ∃ rs n o' σ', for_each run_cache_op ops o = (Val rs, o') ∧ spec_run (oc_cache o, σ) ops rs n (oc_cache o', σ') ∧
    otter_rep (oc_cache o') σ' ∧ oc_rejected o' = wrap64 (N + n).
Proof.
  revert o σ N. induction ops as [|op ops IH]; intros o σ N Hrep HN; simpl.
  - exists [], 0, o, σ. rewrite Z.add_0_r. split_and!; [done|constructor|done|done].
  - destruct (OtterCache_simulates o σ op N Hrep HN) as (r & n & o1 & σ1 & Hr & Hs & Hrep1 & HN1).
    destruct (IH o1 σ1 (N + n) Hrep1 HN1) as (rs & m & o2 & σ2 & Hrs & Hrun & Hrep2 & HN2).
    mstep Hr. mstep Hrs. eexists _, (n + m), o2, σ2.
    split_and!; [done|by econstructor|done|by rewrite Z.add_assoc].
Qed.

(** ** Theorems *)

(** C24: a new [OtterCache] is, operation by operation, what otter holds: a
    [Get] returns the value otter holds for the key unless it has expired, and
    then removes it; an [Add] is one [Set] of otter, which either takes effect
    or is rejected, leaves the content as it was (the old value of the key
    stays readable) and is counted; a [Remove] removes exactly the key; no
    operation panics; and [Stats] reports exactly the number of [Add]s that
    were rejected. *)
Theorem OtterCache_refines_map maxBytes o ops
  (Hnew : NewOtterCache maxBytes = Val (inr o)) :
  ∃ rs n o' σ st, for_each run_cache_op ops o = (Val rs, o') ∧
    spec_run (oc_cache o, ∅) ops rs n (oc_cache o', σ) ∧ otter_rep (oc_cache o') σ ∧
    cache_Stats o' = (Val st, o') ∧ Rejected st = wrap64 n.
Proof.
  unfold NewOtterCache in Hnew. destruct (otter_build _ _) as [[|c]| |] eqn:Hb; try done.
  injection Hnew as <-.
  destruct (OtterCache_run (mkOtterCache c 0 0) ∅ ops 0 (build_law _ _ _ Hb)) as (rs & n & o' & σ & Hrs & Hrun & Hrep & Hr);
    [done|].
  eexists rs, n, o', σ, _. split_and!; [done..|]. exact Hr.
Qed.

(** A rejected [Add] does not remove the value it was meant to replace: a
    later [Get] still returns the old one. *)
Theorem OtterCache_rejected_Add_keeps_old (o : OtterCache) σ k v old o' now
  (Hrep : otter_rep (oc_cache o) σ) (Hold : σ !! k = Some old) (Hexp : view_expired now old = false)
  (Hset : (otter_Set k v (oc_cache o)).1 = Val false) (Hadd : cache_Add k v o = (Val tt, o')) :
  ∃ o'', cache_Get k now o' = (Val (Some old), o'').
Proof.
  destruct o as [c r g], (Set_law c σ k v Hrep) as (b & c' & σ' & Hs & Hrep' & Hb). simpl in *.
  rewrite Hs in Hset. injection Hset as ->. subst σ'.
  unfold OtterCache_Add in Hadd. erewrite M_bind_val in Hadd by (unfold on_otter; simpl; by rewrite Hs).
  injection Hadd as <-.
  destruct (OtterCache_Get_spec c' σ k now (add64 r 1) g Hrep') as (c2 & σ2 & Hg & _).
  simpl in Hg. rewrite Hold in Hg. simpl in Hg. rewrite Hexp in Hg. eauto.
Qed.

(** A read that meets an expired value is a hit of otter but not a get of the
    adapter, so [Stats] can report more hits than gets. *)
Lemma expired_read_hits_without_get (o : OtterCache) σ k v now :
  otter_rep (oc_cache o) σ → σ !! k = Some v → view_expired now v = true →
  ∃ o', cache_Get k now o = (Val None, o') ∧ oc_gets o' = oc_gets o ∧
    otter_Hits (oc_cache o') = otter_Hits (oc_cache o) + 1.
Proof.
  intros Hrep Hk He. destruct o as [c r g].
  destruct (OtterCache_Get_spec c σ k now r g Hrep) as (c' & σ' & Hg & _ & _ & _ & Hh & _).
  rewrite Hk in Hg, Hh. simpl in Hg. rewrite He in Hg. eauto.
Qed.

End Otter.

(** ** A concrete cache

    A map that drops a pair whose cost exceeds a tenth of the capacity, and
    evicts nothing. *)

Record small_otter := mkSmall {
  so_capacity : Z;
  so_cost : string → ByteView → Z;
  so_map : gmap string ByteView;
  so_hits : Z;
}.

#[export] Instance small_Otter : Otter small_otter := {|
  otter_build n cost := if bool_decide (0 < n) then Val (inr (mkSmall n cost ∅ 0)) else Panicked;
  otter_Get k := λ o,
    match so_map o !! k with
    | Some v => (Val (v, true), mkSmall (so_capacity o) (so_cost o) (so_map o) (so_hits o + 1))
    | None => (Val (zero_view, false), o)
    end;
  otter_Set k v := λ o,
    if bool_decide (so_cost o k v <= Z.quot (so_capacity o) 10)
    then (Val true, mkSmall (so_capacity o) (so_cost o) (<[k := v]> (so_map o)) (so_hits o))
    else (Val false, o);
  otter_Delete k := λ o, (Val tt, mkSmall (so_capacity o) (so_cost o) (delete k (so_map o)) (so_hits o));
  otter_Close := mret tt;
  otter_Capacity := so_capacity;
  otter_Size o := Z.of_nat (base.size (so_map o));
  otter_Hits := so_hits;
  otter_EvictedCount _ := 0;
|}.

#[export] Program Instance small_laws : OtterLaws small_otter := {| otter_rep o σ := so_map o = σ |}.
Next Obligation. intros n cost o. simpl. case_bool_decide; intros [= <-]. done. Qed.
Next Obligation.
  intros o σ k <-. simpl. destruct (so_map o !! k) eqn:Hk; eexists _, _; split_and!; try done; simpl; lia.
Qed.
Next Obligation.
  intros o σ k v <-. simpl. case_bool_decide; [exists true|exists false]; eexists _, _; by split_and!.
Qed.
Next Obligation. intros o σ k <-. by eexists. Qed.

Definition sample_otter : OtterCache small_otter := mkOtterCache (mkSmall 100 otter_cost ∅ 0) 0 0.

Definition text_view (s : string) (e : Time) : ByteView := mkByteView None s e.

Lemma OtterCache_refines_map_witness :
  ∃ rs n o' σ st, for_each run_cache_op
      [OpAdd "k" (text_view "old" zero_time); OpAdd "k" (text_view "much too large" zero_time); OpGet "k" 0]
      sample_otter = (Val rs, o') ∧ spec_run (oc_cache sample_otter, ∅)
      [OpAdd "k" (text_view "old" zero_time); OpAdd "k" (text_view "much too large" zero_time); OpGet "k" 0] rs n (oc_cache o', σ) ∧
    otter_rep (oc_cache o') σ ∧ cache_Stats o' = (Val st, o') ∧ Rejected st = wrap64 n.
Proof. apply (OtterCache_refines_map 100). reflexivity. Defined.

Lemma OtterCache_rejected_Add_keeps_old_witness :
  ∃ o'', cache_Get "k" 0
      (mkOtterCache (mkSmall 100 otter_cost {["k" := text_view "old" zero_time]} 0) 1 0)
    = (Val (Some (text_view "old" zero_time)), o'').
Proof.
  apply (OtterCache_rejected_Add_keeps_old
    (mkOtterCache (mkSmall 100 otter_cost {["k" := text_view "old" zero_time]} 0) 0 0)
    {["k" := text_view "old" zero_time]} "k" (text_view "much too large" zero_time) (text_view "old" zero_time)).
  - reflexivity.
  - apply lookup_singleton_eq.
  - reflexivity.
  - reflexivity.
  - reflexivity.
Defined.
