(* ===== verification/Pb.v ===== *)
(** * Messages between peers (transport/pb/groupcache.pb.go)

    The fields and accessors of the protobuf messages.  An optional or
    required scalar field is a pointer that may be nil.  [Value] is a slice.
    The reflection methods the generator adds are not modelled. *)

From S2P Require Import Prelude Slices.

Record GetRequest := mkGetRequest {
  getreq_Group : option string;
  getreq_Key : option string;
}.

Record GetResponse := mkGetResponse {
  getres_Value : bytes;
  getres_Expire : option Z;
}.

Record SetRequest := mkSetRequest {
  setreq_Group : option string;
  setreq_Key : option string;
  setreq_Value : bytes;
  setreq_Expire : option Z;
}.

Record RemoveKeysRequest := mkRemoveKeysRequest {
  rmreq_Group : option string;
  rmreq_Keys : list string;
}.

(** [&pb.GetResponse{}] *)
Definition empty_GetResponse : GetResponse := mkGetResponse None None.

(** The accessors return the zero value for a nil pointer. *)
Definition GetRequest_GetGroup (x : GetRequest) : string := default "" (getreq_Group x).
Definition GetRequest_GetKey (x : GetRequest) : string := default "" (getreq_Key x).
Definition SetRequest_GetGroup (x : SetRequest) : string := default "" (setreq_Group x).
Definition SetRequest_GetKey (x : SetRequest) : string := default "" (setreq_Key x).
Definition RemoveKeysRequest_GetGroup (x : RemoveKeysRequest) : string := default "" (rmreq_Group x).
Definition GetResponse_GetValue (x : GetResponse) : bytes := getres_Value x.
Definition GetResponse_GetExpire (x : GetResponse) : Z := default 0 (getres_Expire x).
Definition SetRequest_GetValue (x : SetRequest) : bytes := setreq_Value x.
Definition SetRequest_GetExpire (x : SetRequest) : Z := default 0 (setreq_Expire x).
Definition RemoveKeysRequest_GetKeys (x : RemoveKeysRequest) : list string := rmreq_Keys x.
