(* ===== verification/Group.v ===== *)
(** * Groups (group.go, with GroupStats and AtomicInt of stats.go)

    The operations of one group of one instance, as a monad over the state of
    the group, the byte memory and the rest of the world.  A group is a client
    of four interfaces: its two caches ([Cache]), its peers ([Peer]), the
    user's [Getter], and the instance (the picker, the logger and the cache
    factory).  Each operation is modelled as it runs when no other goroutine
    uses the group: a [singleflight] call then runs its function and returns
    its results, and [Lock] runs its function; GroupConc.v interleaves
    the operations.  The fan-outs of [Set], [Remove] and [RemoveKeys] perform
    their requests in any order. *)

From S2P Require Import Prelude Errors Slices ByteView Sinks Md5 Picker MutexCache CacheIface Pb.

(** ** Statistics *)

(** [AtomicInt]: an [int64]; [Add] wraps. *)
Abbreviation AtomicInt := Z.
Definition AtomicInt_Add (i n : Z) : AtomicInt := add64 i n.
Definition AtomicInt_Store (i n : Z) : AtomicInt := n.
Definition AtomicInt_Get (i : AtomicInt) : Z := i.
Definition AtomicInt_String (i : AtomicInt) : string := Itoa (AtomicInt_Get i).

Record GroupStats := mkGroupStats {
  s_Gets : AtomicInt;
  s_CacheHits : AtomicInt;
  s_GetFromPeersLatencyLower : AtomicInt;
  s_PeerLoads : AtomicInt;
  s_PeerErrors : AtomicInt;
  s_Loads : AtomicInt;
  s_LoadsDeduped : AtomicInt;
  s_LocalLoads : AtomicInt;
  s_LocalLoadErrs : AtomicInt;
  s_RemoveKeysRequests : AtomicInt;
  s_RemovedKeys : AtomicInt;
}.

Definition zero_stats : GroupStats := mkGroupStats 0 0 0 0 0 0 0 0 0 0 0.

(** The counters the code adds to. *)
Inductive counter :=
| Gets | CacheHits | PeerLoads | PeerErrors | Loads | LoadsDeduped | LocalLoads
| LocalLoadErrs | RemoveKeysRequests | RemovedKeys.

(** [g.Stats.<counter>.Add(n)] *)
Definition stats_Add (c : counter) (n : Z) (s : GroupStats) : GroupStats :=
  let '(mkGroupStats g h lat pl pe l ld ll le rr rk) := s in
  match c with
  | Gets => mkGroupStats (AtomicInt_Add g n) h lat pl pe l ld ll le rr rk
  | CacheHits => mkGroupStats g (AtomicInt_Add h n) lat pl pe l ld ll le rr rk
  | PeerLoads => mkGroupStats g h lat (AtomicInt_Add pl n) pe l ld ll le rr rk
  | PeerErrors => mkGroupStats g h lat pl (AtomicInt_Add pe n) l ld ll le rr rk
  | Loads => mkGroupStats g h lat pl pe (AtomicInt_Add l n) ld ll le rr rk
  | LoadsDeduped => mkGroupStats g h lat pl pe l (AtomicInt_Add ld n) ll le rr rk
  | LocalLoads => mkGroupStats g h lat pl pe l ld (AtomicInt_Add ll n) le rr rk
  | LocalLoadErrs => mkGroupStats g h lat pl pe l ld ll (AtomicInt_Add le n) rr rk
  | RemoveKeysRequests => mkGroupStats g h lat pl pe l ld ll le (AtomicInt_Add rr n) rk
  | RemovedKeys => mkGroupStats g h lat pl pe l ld ll le rr (AtomicInt_Add rk n)
  end.

(** [if Latency.Get() < d { Latency.Store(d) }] *)
Definition stats_latency (d : Z) (s : GroupStats) : GroupStats :=
  let '(mkGroupStats g h lat pl pe l ld ll le rr rk) := s in
  if bool_decide (lat < d) then mkGroupStats g h d pl pe l ld ll le rr rk else s.

(** ** Interfaces *)

(** The requests of [peer.Client].  [W] is the world outside the process:
    the peers, the data the getter reads, the clock, the caller's context. *)
Class Peer (C W : Type) := {
  client_Get : C → GetRequest → M (Mem * W) (option error * GetResponse);
  client_Set : C → SetRequest → M (Mem * W) (option error);
  client_Remove : C → GetRequest → M (Mem * W) (option error);
  client_RemoveKeys : C → RemoveKeysRequest → M (Mem * W) (option error);
}.
#[global] Hint Mode Peer ! ! : typeclass_instances.

(** What the methods of the group read of [*Instance]. *)
Record Instance (K C : Type) := mkInstance {
  inst_picker : Picker (C := C);
  inst_Logger : bool;                           (* opts.Logger is not nil *)
  inst_CacheFactory : Z → K * option error;
}.
Arguments mkInstance {K C}.
Arguments inst_picker {K C}.
Arguments inst_Logger {K C}.
Arguments inst_CacheFactory {K C}.

(** Everything else a group calls: the instance, the default hash function,
    the user's getter, the clock and the caller's context ([None]: nil). *)
Class Env (K C W message : Type) := {
  fnv1_HashBytes64 : HashFn;
  inst : Instance K C;
  getter_Get : string → Sink (message := message) →
    M (Mem * W) (option error * Sink (message := message));
  time_Now : W → Time * W;
  ctx : option (W → option error);
}.

Record group (K : Type) := mkGroup {
  name : string;
  maxCacheBytes : Z;
  mainCache : K;
  hotCache : K;
  g_Stats : GroupStats;
}.
Arguments mkGroup {K}.
Arguments name {K}.
Arguments maxCacheBytes {K}.
Arguments mainCache {K}.
Arguments hotCache {K}.
Arguments g_Stats {K}.

(** The state an operation runs on. *)
Record state (K W : Type) := mkSt { st_g : group K; st_mem : Mem; st_w : W }.
Arguments mkSt {K W}.
Arguments st_g {K W}.
Arguments st_mem {K W}.
Arguments st_w {K W}.

(** The sizes of the main and the hot cache; [/] truncates. *)
Definition cache_sizes (maxBytes : Z) : Z * Z :=
  if bool_decide (0 <= maxBytes) then
    let hot := Z.quot maxBytes 8 in (wrap64 (hot * 7), hot)
  else (0, 0).

Definition CacheFactory_error (err : error) : error :=
  WrapError ("Options.CacheFactory(): " ++ Error err)%string err.

(** [ResetCacheSize]: the factory's first result is assigned even when it
    comes with an error. *)
Definition reset_size {K} (CacheFactory : Z → K * option error) (maxBytes : Z) (g : group K)
    : option error * group K :=
  let '(main, hot) := cache_sizes maxBytes in
  let '(m, err) := CacheFactory main in
  let g := mkGroup (name g) maxBytes m (hotCache g) (g_Stats g) in
  match err with
  | Some err => (Some (CacheFactory_error err), g)
  | None =>
      let '(h, err) := CacheFactory hot in
      let g := mkGroup (name g) maxBytes m h (g_Stats g) in
      match err with
      | Some err => (Some (CacheFactory_error err), g)
      | None => (None, g)
      end
  end.

Inductive CacheType := NoCache | MainCache | HotCache.

(** The outcome of the request to the owner inside [load]: an answer, an
    error to return, or the decision to load locally. *)
Inductive peer_result := PeerAnswer (v : ByteView) | PeerError (err : error) | LoadLocally.

Section Group.
Context {K C W message : Type}.
Context `{!Cache K, !Client C, !Peer C W, !Proto message}.
Context `{!EqDecision C, !Countable C, !MapRange string C, !MapRange C (list string), GoOrder}.
Context `{!Env K C W message}.

Notation Sink := (Sink (message := message)).
Notation St := (state K W).
Notation group := (group K).
Notation inst := (inst (K := K) (C := C) (W := W) (message := message)).
Notation fnv1_HashBytes64 := (fnv1_HashBytes64 (K := K) (C := C) (W := W) (message := message)).
Notation time_Now := (time_Now (K := K) (C := C) (W := W) (message := message)).
Notation ctx := (ctx (K := K) (C := C) (W := W) (message := message)).
Notation getter_Get := (getter_Get (K := K) (C := C) (W := W) (message := message)).

Implicit Types (key k : string) (dest : Sink).

(** ** Access to the parts of the state *)

Definition on_main {A} (f : M K A) : M St A := λ s,
  let g := st_g s in
  let '(r, c) := f (mainCache g) in
  (r, mkSt (mkGroup (name g) (maxCacheBytes g) c (hotCache g) (g_Stats g)) (st_mem s) (st_w s)).

Definition on_hot {A} (f : M K A) : M St A := λ s,
  let g := st_g s in
  let '(r, c) := f (hotCache g) in
  (r, mkSt (mkGroup (name g) (maxCacheBytes g) (mainCache g) c (g_Stats g)) (st_mem s) (st_w s)).

Definition on_stats (f : GroupStats → GroupStats) : M St unit := λ s,
  let g := st_g s in
  (Val tt, mkSt (mkGroup (name g) (maxCacheBytes g) (mainCache g) (hotCache g) (f (g_Stats g)))
             (st_mem s) (st_w s)).

Definition count (c : counter) (n : Z) : M St unit := on_stats (stats_Add c n).

Definition on_mem {A} (f : M Mem A) : M St A := λ s,
  let '(r, m) := f (st_mem s) in (r, mkSt (st_g s) m (st_w s)).

(** Code outside the process and user code. *)
Definition outside {A} (f : M (Mem * W) A) : M St A := λ s,
  let '(r, (m, w)) := f (st_mem s, st_w s) in (r, mkSt (st_g s) m w).

Definition Now : M St Time := λ s,
  let '(t, w) := time_Now (st_w s) in (Val t, mkSt (st_g s) (st_mem s) w).

Definition get_group : M St group := λ s, (Val (st_g s), s).

(** [ctx != nil && ctx.Err() != nil] *)
Definition ctx_done : M St bool := λ s,
  (Val match ctx with None => false | Some err => bool_decide (is_Some (err (st_w s))) end, s).

(** [g.instance.PickPeer(key)] and [g.instance.getAllPeers()] *)
Definition instance_PickPeer (key : string) : option C * bool :=
  Picker.PickPeer fnv1_HashBytes64 (inst_picker inst) key.
Definition getAllPeers : list C := Picker.GetAll (inst_picker inst).

(** ** The caches of the group *)

Definition cached_Get (on : M K (option ByteView) → M St (option ByteView)) (key : string)
    : M St (option ByteView) :=
  now ← Now; on (cache_Get key now).

Definition lookupCache (key : string) : M St (option ByteView) :=
  g ← get_group;
  if bool_decide (maxCacheBytes g <= 0) then mret None else
  value ← cached_Get on_main key;
  match value with
  | Some v => mret (Some v)
  | None => cached_Get on_hot key
  end.

(** [populateCache]; the third argument names the cache. *)
Definition populateCache (key : string) (value : ByteView) (cache : CacheType) : M St unit :=
  g ← get_group;
  if bool_decide (maxCacheBytes g <= 0) then mret tt else
  match cache with
  | MainCache => on_main (cache_Add key value)
  | HotCache => on_hot (cache_Add key value)
  | NoCache => mret tt
  end.

(** [RemoteSet]: the transport calls it for a peer's [SetRequest]. *)
Definition RemoteSet (key : string) (value : bytes) (expire : Time) : M St unit :=
  g ← get_group;
  if bool_decide (maxCacheBytes g <= 0) then mret tt else
  let bv := ByteViewWithExpire value expire in
  _ ← on_main (cache_Add key bv);
  on_hot (cache_Remove key).

Definition LocalRemove (key : string) : M St unit :=
  g ← get_group;
  if bool_decide (maxCacheBytes g <= 0) then mret tt else
  _ ← on_hot (cache_Remove key);
  on_main (cache_Remove key).

(** ** Requests to peers *)

(** [time.Unix(e/int64(time.Second), e%int64(time.Second))] for a nonzero
    [Expire] field, the zero time otherwise; division truncates. *)
Definition decode_expire (e : option Z) : Time :=
  match e with
  | Some e => if bool_decide (e = 0) then zero_time else time_Unix (Z.quot e Second) (Z.rem e Second)
  | None => zero_time
  end.

Definition encode_expire (e : Time) : Z := if IsZero e then 0 else UnixNano e.

Definition getFromPeer (peer : C) (key : string) : M St (error + ByteView) :=
  g ← get_group;
  '(err, res) ← outside (client_Get peer (mkGetRequest (Some (name g)) (Some key)));
  match err with
  | Some err => mret (inl err)
  | None =>
      let value := ByteViewWithExpire (getres_Value res) (decode_expire (getres_Expire res)) in
      _ ← populateCache key value HotCache;
      mret (inr value)
  end.

Definition setPeer (peer : C) (k : string) (v : bytes) (e : Time) : M St (option error) :=
  g ← get_group;
  outside (client_Set peer (mkSetRequest (Some (name g)) (Some k) v (Some (encode_expire e)))).

Definition removeFromPeer (peer : C) (key : string) : M St (option error) :=
  g ← get_group;
  outside (client_Remove peer (mkGetRequest (Some (name g)) (Some key))).

(** ** Loading *)

Definition getLocally (key : string) dest : M St ((error + ByteView) * Sink) :=
  '(err, dest) ← outside (getter_Get key dest);
  match err with
  | Some err => mret (inl err, dest)
  | None => mret (inr (View dest), dest)
  end.

Definition loadFromPeer (peer : C) (key : string) : M St peer_result :=
  start ← Now;
  r ← getFromPeer peer key;
  stop ← Now;
  _ ← on_stats (stats_latency (Z.quot (time_Sub stop start) Millisecond));
  match r with
  | inr value => _ ← count PeerLoads 1; mret (PeerAnswer value)
  | inl err =>
      if errors_Is err Canceled then mret (PeerError err) else
      if errors_Is err (ErrNotFound "") then mret (PeerError err) else
      if errors_Is err (ErrRemoteCall "") then mret (PeerError err) else
      _ ← count PeerErrors 1;
      done ← ctx_done;
      if done : bool then mret (PeerError err) else mret LoadLocally
  end.

(** The value or error, whether [dest] was populated, and [dest]. *)
Definition loadLocally (key : string) dest : M St ((error + ByteView) * bool * Sink) :=
  '(r, dest) ← getLocally key dest;
  match r with
  | inl err => _ ← count LocalLoadErrs 1; mret (inl err, false, dest)
  | inr value =>
      _ ← count LocalLoads 1;
      _ ← populateCache key value MainCache;
      mret (inr value, true, dest)
  end.

(** The function [load] passes to [loadGroup.Do]. *)
Definition load_fn (key : string) dest : M St ((error + ByteView) * bool * Sink) :=
  hit ← lookupCache key;
  match hit with
  | Some value => _ ← count CacheHits 1; mret (inr value, false, dest)
  | None =>
      _ ← count LoadsDeduped 1;
      match instance_PickPeer key with
      | (Some peer, true) =>
          r ← loadFromPeer peer key;
          match r with
          | PeerAnswer value => mret (inr value, false, dest)
          | PeerError err => mret (inl err, false, dest)
          | LoadLocally => loadLocally key dest
          end
      | _ => loadLocally key dest
      end
  end.

Definition load (key : string) dest : M St ((error + ByteView) * bool * Sink) :=
  _ ← count Loads 1;
  load_fn key dest.

(** ** The operations of the interface [Group] *)

(** [Get]; [dest] may be nil.  Returns the error and the sink. *)
Definition Get (key : string) (dest : option Sink) : M St (option error * option Sink) :=
  _ ← count Gets 1;
  match dest with
  | None => mret (Some (ErrorString "groupcache: nil dest Sink"), None)
  | Some dest =>
      hit ← lookupCache key;
      match hit with
      | Some value =>
          _ ← count CacheHits 1;
          '(dest, err) ← on_mem (SetSinkView dest value);
          mret (err, Some dest)
      | None =>
          '(r, destPopulated, dest) ← load key dest;
          match r with
          | inl err => mret (Some err, Some dest)
          | inr value =>
              if destPopulated : bool then mret (None, Some dest) else
              '(dest, err) ← on_mem (SetSinkView dest value);
              mret (err, Some dest)
          end
      end
  end.

(** One goroutine of [Set]'s fan-out: a failure is logged. *)
Definition setPeer_logged (key : string) (value : bytes) (expire : Time) (p : C) : M St unit :=
  err ← setPeer p key value expire;
  match err with
  | Some _ => if inst_Logger inst then mret tt else panic
  | None => mret tt
  end.

(** The peers [Set] updates after the owner: neither this instance nor the
    owner.  [owner.HashKey()] panics when there is no owner. *)
Fixpoint set_targets (owner : option C) (ps : list C) : M St (list C) :=
  match ps with
  | [] => mret []
  | p :: ps =>
      if IsSelf (PeerInfo p) then set_targets owner ps else
      match owner with
      | None => panic
      | Some o =>
          rest ← set_targets owner ps;
          mret (if bool_decide (HashKey p = HashKey o) then rest else p :: rest)
      end
  end.

Definition Set_fn (key : string) (value : bytes) (expire : Time) : M St (option error) :=
  let '(owner, isRemote) := instance_PickPeer key in
  err ← (match owner, isRemote with
         | Some o, true => setPeer o key value expire
         | _, _ => mret None
         end);
  match err with
  | Some err => mret (Some err)
  | None =>
      let bv := ByteViewWithExpire value expire in
      _ ← on_main (cache_Add key bv);
      _ ← on_hot (cache_Remove key);
      targets ← set_targets owner getAllPeers;
      _ ← for_each (setPeer_logged key value expire) (go_order targets);
      mret None
  end.

Definition Set_ (key : string) (value : bytes) (expire : Time) : M St (option error) :=
  if bool_decide (key = "") then mret (Some (ErrorString "empty Set() key not allowed")) else
  g ← get_group;
  if bool_decide (maxCacheBytes g <= 0) then mret None else
  Set_fn key value expire.

(** [p == owner] compares the interface values: the same client object. *)
Definition remove_targets (owner : option C) (ps : list C) : list C :=
  filter (λ p, Some p ≠ owner) ps.

Definition Remove (key : string) : M St (option error) :=
  let '(owner, isRemote) := instance_PickPeer key in
  err ← (match owner, isRemote with
         | Some o, true => removeFromPeer o key
         | _, _ => mret None
         end);
  match err with
  | Some err => mret (Some err)
  | None =>
      _ ← LocalRemove key;
      errs ← for_each (λ p, removeFromPeer p key) (go_order (remove_targets owner getAllPeers));
      mret (collect (go_order errs))
  end.

(** [keysByOwner[owner] = append(keysByOwner[owner], key)] for every key. *)
Fixpoint keysByOwner (keys : list string) (m : gmap C (list string)) : gmap C (list string) :=
  match keys with
  | [] => m
  | key :: keys =>
      keysByOwner keys
        match instance_PickPeer key with
        | (Some owner, true) => <[owner := default [] (m !! owner) ++ [key]]> m
        | _ => m
        end
  end.

(** The requests of [RemoveKeys]: each owner gets the keys it owns, every
    other remote peer gets all of them. *)
Definition removeKeys_requests (keys : list string) : list (C * list string) :=
  let owners := keysByOwner keys ∅ in
  map_range owners ++
  ((λ p, (p, keys)) <$>
     filter (λ p, IsSelf (PeerInfo p) = false ∧ owners !! p = None) getAllPeers).

Definition RemoveKeys (keys : list string) : M St (option error) :=
  if bool_decide (keys = []) then mret None else
  _ ← count RemoveKeysRequests 1;
  _ ← count RemovedKeys (Z.of_nat (length keys));
  _ ← for_each LocalRemove keys;
  g ← get_group;
  errs ← for_each (λ '(p, ks), outside (client_RemoveKeys p (mkRemoveKeysRequest (Some (name g)) ks)))
           (go_order (removeKeys_requests keys));
  mret (collect (go_order errs)).

(** ** Accessors and reset *)

Definition Name (g : group) : string := name g.
Definition group_GroupStats (g : group) : GroupStats := g_Stats g.
Definition UsedBytes (g : group) : Z * Z := (cache_Bytes (mainCache g), cache_Bytes (hotCache g)).

Definition group_CacheStats (which : CacheType) : M St CacheStats :=
  match which with
  | MainCache => on_main cache_Stats
  | HotCache => on_hot cache_Stats
  | NoCache => mret (mkCacheStats 0 0 0 0 0 0)
  end.

Definition ResetCacheSize (maxBytes : Z) (g : group) : option error * group :=
  reset_size (inst_CacheFactory inst) maxBytes g.

End Group.
