(* ===== verification/Recorder.v ===== *)
(** * Peers that record their requests

    An instance of the interface [Peer] whose world is the history of the
    requests sent; the answer to a request may depend on the whole history.
    The second half is a concrete three-peer cluster on which the theorems
    about groups are instantiated. *)

From S2P Require Import Prelude Errors Slices ByteView Sinks Picker MutexCache CacheIface Pb Group.

Inductive request (C : Type) :=
| ReqGet (c : C) (r : GetRequest)
| ReqSet (c : C) (r : SetRequest)
| ReqRemove (c : C) (r : GetRequest)
| ReqRemoveKeys (c : C) (r : RemoveKeysRequest).
Arguments ReqGet {C}.
Arguments ReqSet {C}.
Arguments ReqRemove {C}.
Arguments ReqRemoveKeys {C}.

Abbreviation history C := (list (request C)).

(** How the peers answer: after a history, to a request. *)
Class Answers (C : Type) := {
  answer : history C → request C → option error;
  response : history C → C → GetRequest → GetResponse;
}.

(** [client_Get] and the other requests append to the history. *)
Definition send {C A} (q : request C) (f : history C → A) : M (Mem * history C) A :=
  λ '(m, w), (Val (f w), (m, w ++ [q])).

#[export] Instance recording_peer {C} `{!Answers C} : Peer C (history C) := {|
  client_Get c r := send (ReqGet c r) (λ w, (answer w (ReqGet c r), response w c r));
  client_Set c r := send (ReqSet c r) (λ w, answer w (ReqSet c r));
  client_Remove c r := send (ReqRemove c r) (λ w, answer w (ReqRemove c r));
  client_RemoveKeys c r := send (ReqRemoveKeys c r) (λ w, answer w (ReqRemoveKeys c r));
|}.

(** ** A concrete cluster *)

#[export] Instance NoOpClient_eq_dec : EqDecision NoOpClient.
Proof. solve_decision. Defined.

#[export] Program Instance NoOpClient_countable : Countable NoOpClient :=
  inj_countable' (λ c, (Address (noop_Info c), IsSelf (noop_Info c)))
    (λ '(a, b), mkNoOp (mkInfo a b)) _.
Next Obligation. by intros [[]]. Qed.

(** This instance is peer "a". *)
Definition peer_a : NoOpClient := mkNoOp (mkInfo "a" true).
Definition peer_b : NoOpClient := mkNoOp (mkInfo "b" false).
Definition peer_c : NoOpClient := mkNoOp (mkInfo "c" false).
Definition three_peers : list NoOpClient := [peer_a; peer_b; peer_c].

Definition request_group {C} (q : request C) : string :=
  match q with
  | ReqGet _ r | ReqRemove _ r => GetRequest_GetGroup r
  | ReqSet _ r => SetRequest_GetGroup r
  | ReqRemoveKeys _ r => RemoveKeysRequest_GetGroup r
  end.

(** Peers answer requests for most groups; for two of them they fail. *)
#[export] Instance sample_answers : Answers NoOpClient := {|
  answer _ q :=
    if bool_decide (request_group q = "missing") then Some (ErrNotFound "no such key") else
    if bool_decide (request_group q = "down") then Some (ErrorString "connection refused") else None;
  response _ _ _ := mkGetResponse (Some (Slice 0 0 5 5)) (Some (2 * Second));
|}.

(** The getter stores a fixed string in the sink. *)
Definition sample_getter (key : string) (dest : Sink (message := list byte))
    : M (Mem * history NoOpClient) (option error * Sink (message := list byte)) := λ '(m, w),
  match SetString dest "value" zero_time m with
  | (Val (dest, err), m) => (Val (err, dest), (m, w))
  | (Panicked, m) => (Panicked, (m, w))
  | (Diverged, m) => (Diverged, (m, w))
  end.

Definition sample_instance (logger : bool) : Instance mutexCache NoOpClient :=
  mkInstance (build fnv1_64 two_replicas three_peers) logger (λ n, (newMutexCache n, None)).

Definition sample_env_with (logger : bool) : Env mutexCache NoOpClient (history NoOpClient) (list byte) := {|
  fnv1_HashBytes64 := fnv1_64;
  inst := sample_instance logger;
  getter_Get := sample_getter;
  time_Now w := (Second, w);
  ctx := None;
|}.

#[export] Instance sample_env : Env mutexCache NoOpClient (history NoOpClient) (list byte) :=
  sample_env_with true.

(** A group with empty caches, and the memory the answers point into. *)
Definition sample_state (group_name : string) : state mutexCache (history NoOpClient) :=
  mkSt (mkGroup group_name 800 (newMutexCache 700) (newMutexCache 100) zero_stats)
    [string_bytes "hello"] [].

Definition sample_sink : Sink (message := list byte) := StringSink (Some "").

(** The owners of three keys. *)
Lemma sample_owners :
  instance_PickPeer (message := list byte) "cherry" = (Some peer_a, false) ∧
  instance_PickPeer (message := list byte) "Bob" = (Some peer_b, true) ∧
  instance_PickPeer (message := list byte) "apple" = (Some peer_c, true).
Proof. vm_compute. done. Qed.
