(* ===== verification/GroupCorrect.v ===== *)
(** * Correctness of the group operations

    Proved against the interfaces: any caches that satisfy [CacheLaws], any
    peers, getter, clock and context. *)

From S2P Require Import Prelude Errors Slices ByteView Sinks Picker MutexCache CacheIface Pb Group Recorder.

Section GroupCorrect.
Context {K C W message : Type}.
Context `{!Cache K, !CacheLaws K, !Client C, !Peer C W, !Proto message}.
Context `{!EqDecision C, !Countable C, !MapRange string C, !MapRange C (list string), GoOrder}.
Context `{!Env K C W message}.

Notation Sink := (Sink (message := message)).
Notation St := (state K W).
Notation inst := (inst (K := K) (C := C) (W := W) (message := message)).
Notation time_Now := (time_Now (K := K) (C := C) (W := W) (message := message)).
Notation ctx := (ctx (K := K) (C := C) (W := W) (message := message)).
Notation getter_Get := (getter_Get (K := K) (C := C) (W := W) (message := message)).
Notation lookupCache := (lookupCache (K := K) (C := C) (W := W) (message := message)).
Notation instance_PickPeer := (instance_PickPeer (K := K) (C := C) (W := W) (message := message)).
Notation getAllPeers := (getAllPeers (K := K) (C := C) (W := W) (message := message)).

Implicit Types (s : St) (key k : string) (v : ByteView) (dest : Sink) (peer : C).
Implicit Types (σm σh : gmap string ByteView).

(** ** Updates of the state *)

Definition with_main (c : K) s : St :=
  mkSt (mkGroup (name (st_g s)) (maxCacheBytes (st_g s)) c (hotCache (st_g s)) (g_Stats (st_g s)))
    (st_mem s) (st_w s).
Definition with_hot (c : K) s : St :=
  mkSt (mkGroup (name (st_g s)) (maxCacheBytes (st_g s)) (mainCache (st_g s)) c (g_Stats (st_g s)))
    (st_mem s) (st_w s).
Definition with_stats (f : GroupStats → GroupStats) s : St :=
  mkSt (mkGroup (name (st_g s)) (maxCacheBytes (st_g s)) (mainCache (st_g s)) (hotCache (st_g s))
          (f (g_Stats (st_g s)))) (st_mem s) (st_w s).
Definition with_mem (m : Mem) s : St := mkSt (st_g s) m (st_w s).
Definition with_outside (m : Mem) (w : W) s : St := mkSt (st_g s) m w.

Lemma on_main_eq {A} (f : M K A) s r c :
  f (mainCache (st_g s)) = (r, c) → on_main f s = (r, with_main c s).
Proof. unfold on_main. by intros ->. Qed.

Lemma on_hot_eq {A} (f : M K A) s r c :
  f (hotCache (st_g s)) = (r, c) → on_hot f s = (r, with_hot c s).
Proof. unfold on_hot. by intros ->. Qed.

Lemma on_mem_eq {A} (f : M Mem A) s r m :
  f (st_mem s) = (r, m) → on_mem f s = (r, with_mem m s).
Proof. unfold on_mem. by intros ->. Qed.

Lemma outside_eq {A} (f : M (Mem * W) A) s r m w :
  f (st_mem s, st_w s) = (r, (m, w)) → outside f s = (r, with_outside m w s).
Proof. unfold outside. by intros ->. Qed.

Lemma count_eq c n s : count c n s = (Val tt, with_stats (stats_Add c n) s).
Proof. done. Qed.

(** The clock has been read [n] times. *)
Fixpoint tick (n : nat) (w : W) : W :=
  match n with O => w | S n => tick n (time_Now w).2 end.

Definition with_tick (n : nat) s : St := mkSt (st_g s) (st_mem s) (tick n (st_w s)).

(** ** Abstraction: the two caches as finite maps *)

Definition rep s σm σh : Prop :=
  cache_rep (mainCache (st_g s)) σm ∧ cache_rep (hotCache (st_g s)) σh.

(** [s'] is [s] up to the two caches. *)
Definition same_but_caches s s' : Prop :=
  name (st_g s') = name (st_g s) ∧ maxCacheBytes (st_g s') = maxCacheBytes (st_g s) ∧
  g_Stats (st_g s') = g_Stats (st_g s) ∧ st_mem s' = st_mem s.

(** The caches of [s'] have room for what those of [s] have room for. *)
Definition keeps_room s s' : Prop :=
  (∀ k v, cache_room (mainCache (st_g s)) k v → cache_room (mainCache (st_g s')) k v) ∧
  ∀ k v, cache_room (hotCache (st_g s)) k v → cache_room (hotCache (st_g s')) k v.

#[global] Instance keeps_room_preorder : PreOrder keeps_room.
Proof. split; [by intros s|intros s1 s2 s3 [] []; split; auto]. Qed.

(** What [lookupCache] finds: the main cache first, then the hot cache, each
    with its own reading of the clock. *)
Definition found σm σh (w : W) key : option ByteView :=
  match fresh (time_Now w).1 (σm !! key) with
  | Some v => Some v
  | None => fresh (time_Now (time_Now w).2).1 (σh !! key)
  end.

Definition lookup_ticks σm (w : W) key : nat :=
  match fresh (time_Now w).1 (σm !! key) with Some _ => 1 | None => 2 end.

Lemma cached_Get_main s σ key :
  cache_rep (mainCache (st_g s)) σ →
  ∃ c' σ', cached_Get on_main key s
    = (Val (fresh (time_Now (st_w s)).1 (σ !! key)), with_main c' (with_tick 1 s)) ∧
    cache_rep c' σ' ∧ σ' ⊆ σ ∧
    (∀ v, fresh (time_Now (st_w s)).1 (σ !! key) = Some v → σ' !! key = Some v) ∧
    ∀ k v, cache_room (mainCache (st_g s)) k v → cache_room c' k v.
Proof.
  intros Hr. destruct (cache_Get_law _ σ key (time_Now (st_w s)).1 Hr) as (c' & σ' & Hg & ? & ? & ? & ?).
  exists c', σ'. split_and!; [|done..].
  unfold cached_Get, Now, mbind, M_bind. destruct (time_Now (st_w s)) as [t w] eqn:Ht.
  simpl in *. erewrite on_main_eq by (simpl; exact Hg). unfold with_tick. simpl. by rewrite Ht.
Qed.

Lemma cached_Get_hot s σ key :
  cache_rep (hotCache (st_g s)) σ →
  ∃ c' σ', cached_Get on_hot key s
    = (Val (fresh (time_Now (st_w s)).1 (σ !! key)), with_hot c' (with_tick 1 s)) ∧
    cache_rep c' σ' ∧ σ' ⊆ σ ∧
    (∀ v, fresh (time_Now (st_w s)).1 (σ !! key) = Some v → σ' !! key = Some v) ∧
    ∀ k v, cache_room (hotCache (st_g s)) k v → cache_room c' k v.
Proof.
  intros Hr. destruct (cache_Get_law _ σ key (time_Now (st_w s)).1 Hr) as (c' & σ' & Hg & ? & ? & ? & ?).
  exists c', σ'. split_and!; [|done..].
  unfold cached_Get, Now, mbind, M_bind. destruct (time_Now (st_w s)) as [t w] eqn:Ht.
  simpl in *. erewrite on_hot_eq by (simpl; exact Hg). unfold with_tick. simpl. by rewrite Ht.
Qed.

Lemma lookupCache_spec s σm σh key :
  rep s σm σh → 0 < maxCacheBytes (st_g s) →
  ∃ s' σm' σh', lookupCache key s = (Val (found σm σh (st_w s) key), s') ∧
    rep s' σm' σh' ∧ σm' ⊆ σm ∧ σh' ⊆ σh ∧ same_but_caches s s' ∧ keeps_room s s' ∧
    st_w s' = tick (lookup_ticks σm (st_w s) key) (st_w s).
Proof.
  intros [Hm Hh] Hmax. unfold lookupCache, get_group, found, lookup_ticks.
  unfold mbind at 1, M_bind at 1. rewrite bool_decide_false by lia.
  destruct (cached_Get_main s σm key Hm) as (c & σm' & Hg & Hm' & Hsub & _ & Hroom).
  mstep Hg.
  destruct (fresh (time_Now (st_w s)).1 (σm !! key)) as [v|].
  - eexists _, σm', σh. split_and!; try done.
  - destruct (cached_Get_hot (with_main c (with_tick 1 s)) σh key Hh)
      as (c2 & σh' & Hg2 & Hh' & Hsub' & _ & Hroom').
    rewrite Hg2. eexists _, σm', σh'. by split_and!.
Qed.

(** With no cache configured nothing is looked up or stored. *)
Lemma lookupCache_off s key :
  maxCacheBytes (st_g s) <= 0 → lookupCache key s = (Val None, s).
Proof.
  intros. unfold lookupCache, get_group, mbind, M_bind. by rewrite bool_decide_true.
Qed.

Lemma populate_main_spec s σm σh key v :
  rep s σm σh → 0 < maxCacheBytes (st_g s) →
  ∃ s' σm', populateCache key v MainCache s = (Val tt, s') ∧ rep s' σm' σh ∧
    σm' ⊆ <[key := v]> σm ∧ (cache_room (mainCache (st_g s)) key v → σm' !! key = Some v) ∧
    same_but_caches s s' ∧ st_w s' = st_w s.
Proof.
  intros [Hm Hh] Hmax. unfold populateCache, get_group. unfold mbind, M_bind.
  rewrite bool_decide_false by lia.
  destruct (cache_Add_law _ _ key v Hm) as (c & σm' & Ha & ? & ? & Hroom).
  erewrite on_main_eq by exact Ha. eexists _, σm'. split_and!; try done. by intros []%Hroom.
Qed.

Lemma populate_hot_spec s σm σh key v :
  rep s σm σh → 0 < maxCacheBytes (st_g s) →
  ∃ s' σh', populateCache key v HotCache s = (Val tt, s') ∧ rep s' σm σh' ∧
    σh' ⊆ <[key := v]> σh ∧ (cache_room (hotCache (st_g s)) key v → σh' !! key = Some v) ∧
    same_but_caches s s' ∧ st_w s' = st_w s.
Proof.
  intros [Hm Hh] Hmax. unfold populateCache, get_group. unfold mbind, M_bind.
  rewrite bool_decide_false by lia.
  destruct (cache_Add_law _ _ key v Hh) as (c & σh' & Ha & ? & ? & Hroom).
  erewrite on_hot_eq by exact Ha. eexists _, σh'. split_and!; try done. by intros []%Hroom.
Qed.

Lemma LocalRemove_spec s σm σh key :
  rep s σm σh → 0 < maxCacheBytes (st_g s) →
  ∃ s' σm' σh', LocalRemove key s = (Val tt, s') ∧ rep s' σm' σh' ∧
    σm' ⊆ delete key σm ∧ σh' ⊆ delete key σh ∧ same_but_caches s s' ∧ st_w s' = st_w s.
Proof.
  intros [Hm Hh] Hmax. unfold LocalRemove, get_group. unfold mbind at 1, M_bind at 1.
  rewrite bool_decide_false by lia.
  destruct (cache_Remove_law _ _ key Hh) as (c & σh' & Hr & ? & ? & _).
  erewrite M_bind_val by (by apply on_hot_eq).
  destruct (cache_Remove_law _ _ key Hm) as (c' & σm' & Hr' & ? & ? & _).
  erewrite on_main_eq by exact Hr'. eexists _, σm', σh'. by split_and!.
Qed.

Lemma RemoteSet_spec s σm σh key b e :
  rep s σm σh → 0 < maxCacheBytes (st_g s) →
  ∃ s' σm' σh', RemoteSet key b e s = (Val tt, s') ∧ rep s' σm' σh' ∧
    σm' ⊆ <[key := ByteViewWithExpire b e]> σm ∧ σh' ⊆ delete key σh ∧
    (cache_room (mainCache (st_g s)) key (ByteViewWithExpire b e) →
      σm' !! key = Some (ByteViewWithExpire b e)) ∧
    same_but_caches s s' ∧ st_w s' = st_w s.
Proof.
  intros [Hm Hh] Hmax. unfold RemoteSet, get_group. unfold mbind at 1, M_bind at 1.
  rewrite bool_decide_false by lia.
  destruct (cache_Add_law _ _ key (ByteViewWithExpire b e) Hm) as (c & σm' & Ha & ? & ? & Hroom).
  erewrite M_bind_val by (by apply on_main_eq).
  destruct (cache_Remove_law _ _ key Hh) as (c' & σh' & Hr & ? & ? & _).
  erewrite on_hot_eq by exact Hr. eexists _, σm', σh'. split_and!; try done. by intros []%Hroom.
Qed.

(** ** The paths of [Get] *)

Definition stale (σ : gmap string ByteView) (w : W) key : Prop :=
  ∀ n, fresh (time_Now (tick n w)).1 (σ !! key) = None.

(** The key is in neither cache, or has expired there for good. *)
Definition missing σm σh (w : W) key : Prop := stale σm w key ∧ stale σh w key.

Lemma stale_submap σ σ' w key : σ' ⊆ σ → stale σ w key → stale σ' w key.
Proof.
  intros Hsub Hst n. specialize (Hst n).
  destruct (σ' !! key) as [v|] eqn:Hv; [|done].
  eapply lookup_weaken in Hv; [|done]. by rewrite Hv in Hst.
Qed.

Lemma tick_add n n' w : tick (n + n') w = tick n' (tick n w).
Proof. revert w. induction n as [|n IH]; intros w; [done|]. simpl. apply IH. Qed.

Lemma stale_tick σ w key n : stale σ w key → stale σ (tick n w) key.
Proof. intros Hst n'. rewrite <-tick_add. apply Hst. Qed.

Lemma lookupCache_miss s σm σh key :
  rep s σm σh → 0 < maxCacheBytes (st_g s) → missing σm σh (st_w s) key →
  ∃ s' σm' σh', lookupCache key s = (Val None, s') ∧
    rep s' σm' σh' ∧ σm' ⊆ σm ∧ σh' ⊆ σh ∧ same_but_caches s s' ∧ keeps_room s s' ∧
    st_w s' = tick 2 (st_w s).
Proof.
  intros Hr Hmax [Hm Hh].
  destruct (lookupCache_spec s σm σh key Hr Hmax) as (s' & σm' & σh' & Hl & ? & ? & ? & ? & ? & Hw).
  unfold found, lookup_ticks in *. rewrite (Hm 0%nat : fresh (time_Now (st_w s)).1 _ = None) in *.
  rewrite (Hh 1%nat : fresh (time_Now (time_Now (st_w s)).2).1 _ = None) in Hl.
  exists s', σm', σh'. by split_and!.
Qed.

(** What [Get] does after two misses. *)
Definition load_missing key dest : M St ((error + ByteView) * bool * Sink) :=
  match instance_PickPeer key with
  | (Some peer, true) =>
      r ← loadFromPeer peer key;
      match r with
      | PeerAnswer value => mret (inr value, false, dest)
      | PeerError err => mret (inl err, false, dest)
      | LoadLocally => loadLocally key dest
      end
  | _ => loadLocally key dest
  end.

Definition finish_Get (x : (error + ByteView) * bool * Sink) : M St (option error * option Sink) :=
  let '(r, destPopulated, dest) := x in
  match r with
  | inl err => mret (Some err, Some dest)
  | inr value =>
      if destPopulated : bool then mret (None, Some dest) else
      '(dest, err) ← on_mem (SetSinkView dest value);
      mret (err, Some dest)
  end.

Definition miss_stats (g : GroupStats) : GroupStats :=
  stats_Add LoadsDeduped 1 (stats_Add Loads 1 (stats_Add Gets 1 g)).

(** The state in which a missing key is loaded. *)
Definition missed s s1 σm σh : Prop :=
  rep s1 σm σh ∧ name (st_g s1) = name (st_g s) ∧
  maxCacheBytes (st_g s1) = maxCacheBytes (st_g s) ∧ st_mem s1 = st_mem s ∧
  st_w s1 = tick 4 (st_w s) ∧ g_Stats (st_g s1) = miss_stats (g_Stats (st_g s)) ∧ keeps_room s s1.

Lemma Get_miss s σm σh key dest :
  rep s σm σh → 0 < maxCacheBytes (st_g s) → missing σm σh (st_w s) key →
  ∃ s1 σm' σh', Get key (Some dest) s = (load_missing key dest ≫= finish_Get) s1 ∧
    missed s s1 σm' σh' ∧ σm' ⊆ σm ∧ σh' ⊆ σh.
Proof.
  intros Hr Hmax [Hsm Hsh]. unfold Get.
  mstep count_eq.
  set (s0 := with_stats (stats_Add Gets 1) s).
  destruct (lookupCache_miss s0 σm σh key Hr Hmax) as (s1 & σm1 & σh1 & Hl & Hr1 & ? & ? & (?&?&?&?) & [] & Hw1);
    [done|].
  mstep Hl. unfold load, load_fn.
  set (s2 := with_stats (stats_Add Loads 1) s1).
  destruct (lookupCache_miss s2 σm1 σh1 key) as (s3 & σm3 & σh3 & Hl3 & Hr3 & ? & ? & (?&?&?&?) & [] & Hw3).
  { done. }
  { simpl. simpl in *. lia. }
  { unfold s2. simpl. rewrite Hw1. split; apply stale_tick; by eapply stale_submap. }
  exists (with_stats (stats_Add LoadsDeduped 1) s3), σm3, σh3. split_and!.
  - rewrite M_bind_assoc. mstep count_eq. fold s2.
    rewrite M_bind_assoc. mstep Hl3. cbv beta iota.
    rewrite M_bind_assoc. mstep count_eq. done.
  - split_and!; simpl in *; try congruence.
    + done.
    + unfold miss_stats. congruence.
    + split; simpl in *; auto.
  - by etrans.
  - by etrans.
Qed.

Lemma loadLocally_spec s1 σm σh key dest e dest1 m1 w1 :
  rep s1 σm σh → 0 < maxCacheBytes (st_g s1) →
  getter_Get key dest (st_mem s1, st_w s1) = (Val (e, dest1), (m1, w1)) →
  ∃ s' σm', loadLocally key dest s1 =
      (Val (match e with
            | Some err => (inl err, false, dest1)
            | None => (inr (View dest1), true, dest1)
            end), s') ∧
    rep s' σm' σh ∧ st_mem s' = m1 ∧ st_w s' = w1 ∧
    match e with
    | Some _ => σm' = σm ∧ g_Stats (st_g s') = stats_Add LocalLoadErrs 1 (g_Stats (st_g s1))
    | None => (σm' ⊆ <[key := View dest1]> σm ∧
               (cache_room (mainCache (st_g s1)) key (View dest1) → σm' !! key = Some (View dest1))) ∧
              g_Stats (st_g s') = stats_Add LocalLoads 1 (g_Stats (st_g s1))
    end.
Proof.
  intros Hr Hmax Hg. unfold loadLocally, getLocally.
  rewrite M_bind_assoc. erewrite M_bind_val by (apply outside_eq; exact Hg). cbv beta iota.
  destruct e as [err|].
  - eexists _, σm. by split_and!.
  - unfold mret at 1, M_ret at 1. mstep. cbv beta iota.
    mstep count_eq.
    set (s2 := with_stats _ _).
    destruct (populate_main_spec s2 σm σh key (View dest1)) as (s3 & σm' & Hp & ? & ? & ? & (?&?&?&?) & ?);
      [done|simpl; lia|].
    mstep Hp. by eexists _, σm'.
Qed.

(** The request [load] sends to the owner, and the value of its answer. *)
Definition get_request s key : GetRequest := mkGetRequest (Some (name (st_g s))) (Some key).
Definition answer_view (res : GetResponse) : ByteView :=
  ByteViewWithExpire (getres_Value res) (decode_expire (getres_Expire res)).

(** Errors of the owner that are returned as they are. *)
Definition final_error (err : error) : bool :=
  errors_Is err Canceled || errors_Is err (ErrNotFound "") || errors_Is err (ErrRemoteCall "").

Definition context_done (w : W) : bool :=
  match ctx with None => false | Some f => bool_decide (is_Some (f w)) end.

(** The statistics after a request that took [d] nanoseconds. *)
Definition request_stats (d : Z) (g : GroupStats) : GroupStats :=
  stats_latency (Z.quot d Millisecond) (miss_stats g).

Definition elapsed (start stop : W) : Z := time_Sub (time_Now stop).1 (time_Now start).1.

Lemma Now_eq s : Now s = (Val (time_Now (st_w s)).1, with_tick 1 s).
Proof. unfold Now, with_tick. simpl. by destruct (time_Now (st_w s)). Qed.

Lemma getFromPeer_ok s σm σh peer key res m1 w1 :
  rep s σm σh → 0 < maxCacheBytes (st_g s) →
  client_Get peer (get_request s key) (st_mem s, st_w s) = (Val (None, res), (m1, w1)) →
  ∃ s' σh', getFromPeer peer key s = (Val (inr (answer_view res)), s') ∧
    rep s' σm σh' ∧ σh' ⊆ <[key := answer_view res]> σh ∧
    (cache_room (hotCache (st_g s)) key (answer_view res) → σh' !! key = Some (answer_view res)) ∧
    same_but_caches (with_outside m1 w1 s) s' ∧ st_w s' = w1.
Proof.
  intros Hr Hmax Hc. unfold getFromPeer. mstep.
  erewrite M_bind_val by (apply outside_eq; exact Hc). cbv beta iota.
  destruct (populate_hot_spec (with_outside m1 w1 s) σm σh key (answer_view res) Hr Hmax)
    as (s' & σh' & Hp & ? & ? & ? & ? & ?).
  mstep Hp. by exists s', σh'.
Qed.

Lemma getFromPeer_err s peer key err res m1 w1 :
  client_Get peer (get_request s key) (st_mem s, st_w s) = (Val (Some err, res), (m1, w1)) →
  getFromPeer peer key s = (Val (inl err), with_outside m1 w1 s).
Proof.
  intros Hc. unfold getFromPeer. mstep.
  by erewrite M_bind_val by (apply outside_eq; exact Hc).
Qed.

(** The state after the owner answered with an error. *)
Definition after_error s (m1 : Mem) (w1 : W) : St :=
  with_stats (stats_latency (Z.quot (elapsed (st_w s) w1) Millisecond))
    (with_tick 1 (with_outside m1 w1 s)).

Lemma loadFromPeer_err s peer key err res m1 w1 :
  client_Get peer (get_request s key) (st_mem s, tick 1 (st_w s)) = (Val (Some err, res), (m1, w1)) →
  loadFromPeer peer key s =
    if final_error err then (Val (PeerError err), after_error s m1 w1)
    else (Val (if context_done (tick 1 w1) then PeerError err else LoadLocally),
          with_stats (stats_Add PeerErrors 1) (after_error s m1 w1)).
Proof.
  intros Hc. unfold loadFromPeer. mstep Now_eq.
  erewrite M_bind_val by (by apply (getFromPeer_err (with_tick 1 s) peer key err res m1 w1)).
  mstep Now_eq.
  mstep. cbv beta iota. unfold final_error.
  destruct (errors_Is err Canceled); [done|].
  destruct (errors_Is err (ErrNotFound "")); [done|].
  destruct (errors_Is err (ErrRemoteCall "")); [done|]. simpl orb. cbv beta iota.
  mstep count_eq.
  mstep. unfold context_done. simpl.
  by destruct ctx as [f|]; [destruct (bool_decide _)|].
Qed.

(** ** Theorems: [Get] *)

Lemma Get_hit_ok s σm σh key dest v
  (Hrep : rep s σm σh) (Hmax : 0 < maxCacheBytes (st_g s))
  (Hfound : found σm σh (st_w s) key = Some v)
  (Hwf : view_wf (st_mem s) v) (Hacc : accepts (st_mem s) dest (view_bytes (st_mem s) v)) :
  ∃ s' dest' σm' σh', Get key (Some dest) s = (Val (None, Some dest'), s') ∧
    received dest (view_bytes (st_mem s) v) (Expire v) (st_mem s') dest' ∧
    rep s' σm' σh' ∧ σm' ⊆ σm ∧ σh' ⊆ σh ∧
    st_w s' = tick (lookup_ticks σm (st_w s) key) (st_w s) ∧
    g_Stats (st_g s') = stats_Add CacheHits 1 (stats_Add Gets 1 (g_Stats (st_g s))).
Proof.
  unfold Get. mstep count_eq.
  destruct (lookupCache_spec (with_stats (stats_Add Gets 1) s) σm σh key Hrep Hmax)
    as (s1 & σm1 & σh1 & Hl & Hr1 & ? & ? & (?&?&?&Hm) & _ & Hw).
  simpl in Hl. rewrite Hfound in Hl. mstep Hl. cbv beta iota.
  mstep count_eq. simpl in *. rewrite <-Hm in Hwf, Hacc.
  destruct (SetSinkView_spec (st_mem s1) dest v Hwf Hacc) as (k' & m' & Hs & Hrec).
  rewrite Hm in Hrec. erewrite M_bind_val by (apply on_mem_eq; exact Hs).
  eexists _, k', σm1, σh1. split_and!; try done. simpl. congruence.
Qed.

(** C12: a [Get] for a key held unexpired by the main cache, or else by the hot
    cache, delivers exactly the cached bytes and expiry to the sink, asks
    neither a peer nor the getter (the world only sees the clock being read),
    and counts one get and one hit. *)
Theorem group_Get_hit s σm σh key dest v
  (Hrep : rep s σm σh) (Hmax : 0 < maxCacheBytes (st_g s))
  (Hfound : found σm σh (st_w s) key = Some v)
  (Hwf : view_wf (st_mem s) v) (Hacc : accepts (st_mem s) dest (view_bytes (st_mem s) v)) :
  ∃ s' dest' σm' σh', Get key (Some dest) s = (Val (None, Some dest'), s') ∧
    received dest (view_bytes (st_mem s) v) (Expire v) (st_mem s') dest' ∧
    rep s' σm' σh' ∧ σm' ⊆ σm ∧ σh' ⊆ σh ∧
    st_w s' = tick (lookup_ticks σm (st_w s) key) (st_w s) ∧
    g_Stats (st_g s') = stats_Add CacheHits 1 (stats_Add Gets 1 (g_Stats (st_g s))).
Proof. exact (Get_hit_ok s σm σh key dest v Hrep Hmax Hfound Hwf Hacc). Qed.

Lemma Get_local_ok s σm σh key dest e dest1 m1 w1
  (Hrep : rep s σm σh) (Hmax : 0 < maxCacheBytes (st_g s))
  (Hmiss : missing σm σh (st_w s) key) (Howner : (instance_PickPeer key).2 = false)
  (Hgetter : getter_Get key dest (st_mem s, tick 4 (st_w s)) = (Val (e, dest1), (m1, w1))) :
  ∃ s' σm' σh', Get key (Some dest) s = (Val (e, Some dest1), s') ∧
    rep s' σm' σh' ∧ σh' ⊆ σh ∧ st_mem s' = m1 ∧ st_w s' = w1 ∧
    match e with
    | Some _ => σm' ⊆ σm ∧
        g_Stats (st_g s') = stats_Add LocalLoadErrs 1 (miss_stats (g_Stats (st_g s)))
    | None => (σm' ⊆ <[key := View dest1]> σm ∧
          (cache_room (mainCache (st_g s)) key (View dest1) → σm' !! key = Some (View dest1))) ∧
        g_Stats (st_g s') = stats_Add LocalLoads 1 (miss_stats (g_Stats (st_g s)))
    end.
Proof.
  destruct (Get_miss s σm σh key dest Hrep Hmax Hmiss) as (s1 & σm1 & σh1 & -> & Hmd & ? & ?).
  destruct Hmd as (Hr1 & _ & Hmx & Hm & Hw & Hst & Hroom & _). rewrite <-Hm, <-Hw in Hgetter.
  rewrite <-Hmx in Hmax.
  destruct (loadLocally_spec s1 σm1 σh1 key dest e dest1 m1 w1 Hr1 Hmax Hgetter)
    as (s' & σm' & Hl & ? & ? & ? & He).
  assert (load_missing key dest s1 = loadLocally key dest s1) as Heq.
  { unfold load_missing. destruct (instance_PickPeer key) as [[p|] b]; simpl in *; by subst. }
  rewrite Hst in He.
  exists s', σm', σh1. erewrite M_bind_val by (rewrite Heq; exact Hl).
  destruct e as [err|]; destruct He as [He ?]; (split_and!; try done).
  - by subst.
  - etrans; [apply He|]. by apply insert_mono.
  - intros ?. by apply He, Hroom.
Qed.

(** C14: a [Get] for a missing key this instance owns (or owns for lack of
    peers) runs the getter once on the caller's sink and returns its error
    unchanged; only after success is anything cached, namely the view of the
    sink under that key in the main cache, which stores it when it has room. *)
Theorem group_Get_local s σm σh key dest e dest1 m1 w1
  (Hrep : rep s σm σh) (Hmax : 0 < maxCacheBytes (st_g s))
  (Hmiss : missing σm σh (st_w s) key) (Howner : (instance_PickPeer key).2 = false)
  (Hgetter : getter_Get key dest (st_mem s, tick 4 (st_w s)) = (Val (e, dest1), (m1, w1))) :
  ∃ s' σm' σh', Get key (Some dest) s = (Val (e, Some dest1), s') ∧
    rep s' σm' σh' ∧ σh' ⊆ σh ∧ st_mem s' = m1 ∧ st_w s' = w1 ∧
    match e with
    | Some _ => σm' ⊆ σm ∧
        g_Stats (st_g s') = stats_Add LocalLoadErrs 1 (miss_stats (g_Stats (st_g s)))
    | None => (σm' ⊆ <[key := View dest1]> σm ∧
          (cache_room (mainCache (st_g s)) key (View dest1) → σm' !! key = Some (View dest1))) ∧
        g_Stats (st_g s') = stats_Add LocalLoads 1 (miss_stats (g_Stats (st_g s)))
    end.
Proof. exact (Get_local_ok s σm σh key dest e dest1 m1 w1 Hrep Hmax Hmiss Howner Hgetter). Qed.

(** C13: a [Get] for a missing key of a remote owner sends the owner one
    request; its answer is delivered to the sink with the bytes and the expiry
    of the answer; the hot cache, and only it, stores the answer under that key
    when it has room for it; and the getter of this process is not run. *)
Theorem group_Get_from_owner s σm σh key dest peer res m1 w1
  (Hrep : rep s σm σh) (Hmax : 0 < maxCacheBytes (st_g s))
  (Hmiss : missing σm σh (st_w s) key) (Howner : instance_PickPeer key = (Some peer, true))
  (Hpeer : client_Get peer (get_request s key) (st_mem s, tick 5 (st_w s)) = (Val (None, res), (m1, w1)))
  (Hwf : view_wf m1 (answer_view res)) (Hacc : accepts m1 dest (view_bytes m1 (answer_view res))) :
  ∃ s' dest' σm' σh', Get key (Some dest) s = (Val (None, Some dest'), s') ∧
    received dest (view_bytes m1 (answer_view res)) (decode_expire (getres_Expire res)) (st_mem s') dest' ∧
    rep s' σm' σh' ∧ σm' ⊆ σm ∧ σh' ⊆ <[key := answer_view res]> σh ∧
    (cache_room (hotCache (st_g s)) key (answer_view res) → σh' !! key = Some (answer_view res)) ∧
    st_w s' = tick 1 w1 ∧
    g_Stats (st_g s') =
      stats_Add PeerLoads 1 (request_stats (elapsed (tick 4 (st_w s)) w1) (g_Stats (st_g s))).
Proof.
  destruct (Get_miss s σm σh key dest Hrep Hmax Hmiss) as (s1 & σm1 & σh1 & -> & Hmd & ? & Hsub).
  destruct Hmd as (Hr1 & Hn & Hmx & Hm & Hw & Hst & Hroomm & Hroomh).
  unfold load_missing. rewrite Howner. unfold loadFromPeer. rewrite !M_bind_assoc.
  mstep Now_eq. rewrite M_bind_assoc.
  destruct (getFromPeer_ok (with_tick 1 s1) σm1 σh1 peer key res m1 w1)
    as (s2 & σh2 & Hg & Hr2 & Hsub2 & Hroom2 & (?&?&Hst2&Hm2) & Hw2); [done|simpl; lia| |].
  { unfold get_request in *. simpl. by rewrite Hn, Hm, Hw. }
  mstep Hg. rewrite M_bind_assoc. mstep Now_eq.
  rewrite M_bind_assoc. mstep. cbv beta iota.
  rewrite M_bind_assoc. mstep count_eq.
  mstep. cbv beta iota. mstep.
  simpl in Hm2. unfold finish_Get.
  destruct (SetSinkView_spec m1 dest (answer_view res) Hwf Hacc) as (k' & m' & Hs & Hrec).
  erewrite M_bind_val by (apply on_mem_eq; simpl; rewrite Hm2; exact Hs).
  eexists _, k', σm1, σh2. split_and!; try done.
  - etrans; [done|]. by apply insert_mono.
  - intros ?. by apply Hroom2, Hroomh.
  - simpl. by rewrite Hw2.
  - simpl in *. unfold request_stats, elapsed. rewrite Hst2, Hw2, Hst, Hw. done.
Qed.

(** C15: when the owner answers with an error, [Get] returns it unchanged,
    caches nothing and does not run the getter if it is a cancellation, a
    not-found or a remote-call error, or if the caller's context is done. *)
Theorem group_Get_owner_error s σm σh key dest peer err res m1 w1
  (Hrep : rep s σm σh) (Hmax : 0 < maxCacheBytes (st_g s))
  (Hmiss : missing σm σh (st_w s) key) (Howner : instance_PickPeer key = (Some peer, true))
  (Hpeer : client_Get peer (get_request s key) (st_mem s, tick 5 (st_w s)) = (Val (Some err, res), (m1, w1)))
  (Hfinal : final_error err || context_done (tick 1 w1) = true) :
  ∃ s' σm' σh', Get key (Some dest) s = (Val (Some err, Some dest), s') ∧
    rep s' σm' σh' ∧ σm' ⊆ σm ∧ σh' ⊆ σh ∧ st_mem s' = m1 ∧ st_w s' = tick 1 w1 ∧
    g_Stats (st_g s') =
      (if final_error err then id else stats_Add PeerErrors 1)
        (request_stats (elapsed (tick 4 (st_w s)) w1) (g_Stats (st_g s))).
Proof.
  destruct (Get_miss s σm σh key dest Hrep Hmax Hmiss) as (s1 & σm1 & σh1 & -> & Hmd & ? & Hsub).
  destruct Hmd as (Hr1 & Hn & Hmx & Hm & Hw & Hst & Hroomm & Hroomh).
  unfold load_missing. rewrite Howner.
  assert (client_Get peer (get_request s1 key) (st_mem s1, tick 1 (st_w s1)) = (Val (Some err, res), (m1, w1)))
    as Hc by (unfold get_request in *; by rewrite Hn, Hm, Hw).
  pose proof (loadFromPeer_err s1 peer key err res m1 w1 Hc) as Hl.
  unfold request_stats, elapsed. rewrite <-Hst, <-Hw.
  destruct (final_error err); cbn [orb] in Hfinal.
  - rewrite M_bind_assoc. mstep Hl. by eexists _, σm1, σh1.
  - rewrite Hfinal in Hl. rewrite M_bind_assoc. mstep Hl.
    by eexists _, σm1, σh1.
Qed.

(** C16: when the owner cannot be reached (any other error, context alive),
    [Get] falls back to running the getter in this process, with the same
    outcome as for an owned key; the failure is counted as a peer error. *)
Theorem group_Get_fallback s σm σh key dest peer err res m1 w1 e dest1 m2 w2
  (Hrep : rep s σm σh) (Hmax : 0 < maxCacheBytes (st_g s))
  (Hmiss : missing σm σh (st_w s) key) (Howner : instance_PickPeer key = (Some peer, true))
  (Hpeer : client_Get peer (get_request s key) (st_mem s, tick 5 (st_w s)) = (Val (Some err, res), (m1, w1)))
  (Hfall : final_error err || context_done (tick 1 w1) = false)
  (Hgetter : getter_Get key dest (m1, tick 1 w1) = (Val (e, dest1), (m2, w2))) :
  ∃ s' σm' σh', Get key (Some dest) s = (Val (e, Some dest1), s') ∧
    rep s' σm' σh' ∧ σh' ⊆ σh ∧ st_mem s' = m2 ∧ st_w s' = w2 ∧
    g_Stats (st_g s') =
      stats_Add (match e with Some _ => LocalLoadErrs | None => LocalLoads end) 1
        (stats_Add PeerErrors 1
           (request_stats (elapsed (tick 4 (st_w s)) w1) (g_Stats (st_g s)))) ∧
    match e with
    | Some _ => σm' ⊆ σm
    | None => σm' ⊆ <[key := View dest1]> σm ∧
        (cache_room (mainCache (st_g s)) key (View dest1) → σm' !! key = Some (View dest1))
    end.
Proof.
  destruct (Get_miss s σm σh key dest Hrep Hmax Hmiss) as (s1 & σm1 & σh1 & -> & Hmd & ? & Hsub).
  destruct Hmd as (Hr1 & Hn & Hmx & Hm & Hw & Hst & Hroomm & Hroomh).
  unfold load_missing. rewrite Howner.
  assert (client_Get peer (get_request s1 key) (st_mem s1, tick 1 (st_w s1)) = (Val (Some err, res), (m1, w1)))
    as Hc by (unfold get_request in *; by rewrite Hn, Hm, Hw).
  pose proof (loadFromPeer_err s1 peer key err res m1 w1 Hc) as Hl.
  apply orb_false_iff in Hfall as [Hf1 Hf2]. rewrite Hf1, Hf2 in Hl.
  rewrite M_bind_assoc. mstep Hl. cbv beta iota.
  set (s2 := with_stats _ _) in *.
  destruct (loadLocally_spec s2 σm1 σh1 key dest e dest1 m2 w2)
    as (s' & σm' & Hll & ? & ? & ? & He); [done|unfold s2; simpl; lia|done|].
  exists s', σm', σh1. mstep Hll.
  assert (g_Stats (st_g s2) = stats_Add PeerErrors 1
      (request_stats (elapsed (tick 4 (st_w s)) w1) (g_Stats (st_g s)))) as Hst2.
  { unfold s2, request_stats, elapsed. simpl. by rewrite Hst, Hw. }
  rewrite <-Hst2.
  destruct e as [e|]; destruct He as [He ?]; (split_and!; try done).
  - by subst.
  - etrans; [apply He|]. by apply insert_mono.
  - intros ?. by apply He, Hroomm.
Qed.

End GroupCorrect.

(** ** Theorems: sizes and expiry *)

(** The expiries that reach a peer unchanged. *)
Definition encodable (e : Time) : Prop := e = zero_time ∨ in_i64 e ∧ e ≠ 0.

Lemma decode_encode_expire (e : Time) : encodable e → decode_expire (Some (encode_expire e)) = e.
Proof.
  unfold encode_expire, IsZero. intros He. case_bool_decide as Hz; [by subst|].
  destruct He as [?|[Hr Hne]]; [done|]. unfold UnixNano, decode_expire. rewrite wrap64_id by done.
  rewrite bool_decide_false by done. unfold time_Unix. pose proof (Z.quot_rem' e Second). lia.
Qed.

(** C34: the expiry of a value survives the trip to a peer ([setPeer] encodes it,
    the receiver decodes it) exactly when it is the zero time or its number of
    nanoseconds since the Unix epoch is a nonzero int64, that is, from 1677 to
    2262 without the epoch itself; then it is kept to the nanosecond. *)
Theorem expire_roundtrip (e : Time) :
  decode_expire (Some (encode_expire e)) = e ↔ e = zero_time ∨ in_i64 e ∧ e ≠ 0.
Proof.
  split; [|by apply decode_encode_expire]. unfold encode_expire, IsZero.
  case_bool_decide as Hz; [by left|]. unfold UnixNano, decode_expire. intros He. right.
  case_bool_decide as H0; [congruence|].
  assert (time_Unix (Z.quot (wrap64 e) Second) (Z.rem (wrap64 e) Second) = wrap64 e) as Hw
    by (unfold time_Unix; pose proof (Z.quot_rem' (wrap64 e) Second); lia).
  rewrite Hw in He. split; [rewrite <-He; apply wrap64_range|]. intros ->. by apply H0.
Qed.

(** Two instants that do not survive it: a value that expired at the Unix
    epoch never expires at the peers, and one that expires at 2^63
    nanoseconds (April 2262) arrives there as expired since 1677. *)
Theorem expire_not_preserved :
  decode_expire (Some (encode_expire 0)) = zero_time ∧
  decode_expire (Some (encode_expire two63)) = - two63.
Proof. split; reflexivity. Qed.

(** [ResetCacheSize] splits the limit 7:1 between the main and the hot
    cache: both limits are non-negative, together they never exceed the
    limit of the group and stay within 7 bytes of it. *)
Theorem cache_sizes_split (maxBytes : Z) (Hr : 0 <= maxBytes < two63) :
  let '(main, hot) := cache_sizes maxBytes in
  0 <= main ∧ 0 <= hot ∧ main = 7 * hot ∧ maxBytes - 7 <= main + hot <= maxBytes.
Proof.
  unfold cache_sizes. rewrite bool_decide_true by lia.
  rewrite Z.quot_div_nonneg by lia. pose proof (Z.div_mod maxBytes 8).
  pose proof (Z.mod_pos_bound maxBytes 8). rewrite wrap64_id; [lia|].
  unfold in_i64, two63 in *. lia.
Qed.

(** A group with a limit of 1 to 7 bytes has caches without any limit: both
    get the limit 0, with which the default cache keeps every value added. *)
Theorem tiny_limit_is_unlimited (maxBytes : Z) (Hr : 0 < maxBytes < 8) :
  cache_sizes maxBytes = (0, 0) ∧
  ∀ m l k v, mrep m l → m_maxBytes m = (cache_sizes maxBytes).1 →
    ∃ m', MutexCache.Add k v m = (Val tt, m') ∧ mrep m' (added k v l).
Proof.
  assert (cache_sizes maxBytes = (0, 0)) as Heq.
  { unfold cache_sizes. rewrite bool_decide_true by lia. rewrite Z.quot_small by lia. done. }
  split; [done|]. rewrite Heq. simpl. intros m l k v Hm Hmax.
  destruct (mAdd_spec m l k v Hm) as (m' & n & Ha & Hm' & [_ Hn] & _); [lia|].
  rewrite decide_True in Hn by done. subst n. rewrite take_ge in Hm' by lia. by exists m'.
Qed.

(** ** Witnesses *)

Lemma cache_sizes_split_witness :
  let '(main, hot) := cache_sizes 1000 in
  0 <= main ∧ 0 <= hot ∧ main = 7 * hot ∧ 1000 - 7 <= main + hot <= 1000.
Proof. apply (cache_sizes_split 1000). unfold two63. lia. Defined.

Lemma tiny_limit_is_unlimited_witness : cache_sizes 7 = (0, 0).
Proof. apply (tiny_limit_is_unlimited 7). lia. Defined.

(** The sample group starts empty. *)
Lemma sample_rep n : rep (sample_state n) ∅ ∅.
Proof. split; by apply mutexCache_rep_new. Qed.

Lemma sample_missing w key :
  missing (C := NoOpClient) (message := list byte) (∅ : gmap string ByteView) ∅ w key.
Proof. by split. Qed.

Lemma group_Get_hit_witness :
  ∃ s s' σm dest', rep s σm ∅ ∧ σm !! "cherry" = Some (mkByteView None "value" zero_time) ∧
    Get "cherry" (Some sample_sink) s = (Val (None, Some dest'), s') ∧ st_w s' = st_w s.
Proof.
  set (v := mkByteView None "value" zero_time).
  destruct (mAdd_spec (newMutexCache 0) [] "cherry" v (mrep_new 0)) as (m' & n & _ & Hm & [_ Hn] & Hmax & _);
    [done|].
  rewrite decide_True in Hn by done. subst n. rewrite take_ge in Hm by done.
  set (s := mkSt (mkGroup "g" 800 m' (newMutexCache 100) zero_stats) [] ([] : history NoOpClient)).
  assert (rep s {["cherry" := v]} ∅) as Hr.
  { split; [|by apply mutexCache_rep_new]. exists (added "cherry" v []).
    split_and!; [done|change (0 <= m_maxBytes m'); by rewrite Hmax|by repeat constructor|done]. }
  destruct (group_Get_hit (message := list byte) s {["cherry" := v]} ∅ "cherry" sample_sink v Hr)
    as (s' & dest' & σm' & σh' & Hg & _ & _ & _ & _ & Hw & _); [done|done|done|by eexists|].
  exists s, s', {["cherry" := v]}, dest'. split; [exact Hr|]. split; [reflexivity|].
  split; [exact Hg|]. rewrite Hw. unfold lookup_ticks. by destruct (fresh _ _).
Defined.

Lemma group_Get_local_witness :
  ∃ s' σm' σh' dest', Get "cherry" (Some sample_sink) (sample_state "g") = (Val (None, Some dest'), s') ∧
    rep s' σm' σh' ∧ σm' !! "cherry" = Some (mkByteView None "value" zero_time).
Proof.
  destruct (group_Get_local (message := list byte) (sample_state "g") ∅ ∅ "cherry" sample_sink None
    (SStringSink (mkStringSink (Some "value") (mkByteView None "value" zero_time)))
    [string_bytes "hello"] [] (sample_rep "g"))
    as (s' & σm' & σh' & Hg & Hr & _ & _ & _ & Hs & _);
    [done|apply sample_missing|by rewrite (proj1 sample_owners)|reflexivity|].
  eexists s', σm', σh', _. split; [exact Hg|]. split; [exact Hr|].
  apply Hs. apply mutexCache_room_new; [done..|]. by vm_compute.
Defined.

Lemma group_Get_from_owner_witness :
  ∃ s' dest' σm' σh', Get "apple" (Some sample_sink) (sample_state "g") = (Val (None, Some dest'), s') ∧
    received sample_sink (string_bytes "hello") (2 * Second) (st_mem s') dest' ∧
    rep s' σm' σh' ∧ σh' !! "apple" = Some (ByteViewWithExpire (Some (Slice 0 0 5 5)) (2 * Second)).
Proof.
  destruct (group_Get_from_owner (message := list byte) (sample_state "g") ∅ ∅ "apple" sample_sink peer_c
    (mkGetResponse (Some (Slice 0 0 5 5)) (Some (2 * Second))) [string_bytes "hello"]
    [ReqGet peer_c (mkGetRequest (Some "g") (Some "apple"))] (sample_rep "g"))
    as (s' & dest' & σm' & σh' & Hg & Hrec & Hr & _ & _ & Hs & _);
    [done|apply sample_missing|apply sample_owners|reflexivity
    |by split_and!; simpl; lia|by eexists|].
  exists s', dest', σm', σh'. split_and!; [exact Hg|exact Hrec|exact Hr|].
  apply Hs. apply mutexCache_room_new; [done..|]. by vm_compute.
Defined.

Lemma group_Get_owner_error_witness :
  ∃ s', Get "apple" (Some sample_sink) (sample_state "missing")
    = (Val (Some (ErrNotFound "no such key"), Some sample_sink), s').
Proof.
  destruct (group_Get_owner_error (message := list byte) (sample_state "missing") ∅ ∅ "apple" sample_sink peer_c
    (ErrNotFound "no such key") (mkGetResponse (Some (Slice 0 0 5 5)) (Some (2 * Second)))
    [string_bytes "hello"] [ReqGet peer_c (mkGetRequest (Some "missing") (Some "apple"))]
    (sample_rep "missing"))
    as (s' & σm' & σh' & Hg & _);
    [done|apply sample_missing|apply sample_owners|reflexivity|reflexivity|].
  exists s'. exact Hg.
Defined.

Lemma group_Get_fallback_witness :
  ∃ s' dest', Get "apple" (Some sample_sink) (sample_state "down") = (Val (None, Some dest'), s').
Proof.
  destruct (group_Get_fallback (message := list byte) (sample_state "down") ∅ ∅ "apple" sample_sink peer_c
    (ErrorString "connection refused") (mkGetResponse (Some (Slice 0 0 5 5)) (Some (2 * Second)))
    [string_bytes "hello"] [ReqGet peer_c (mkGetRequest (Some "down") (Some "apple"))]
    None (SStringSink (mkStringSink (Some "value") (mkByteView None "value" zero_time)))
    [string_bytes "hello"] [ReqGet peer_c (mkGetRequest (Some "down") (Some "apple"))]
    (sample_rep "down"))
    as (s' & σm' & σh' & Hg & _);
    [done|apply sample_missing|apply sample_owners|reflexivity|reflexivity|reflexivity|].
  eexists s', _. exact Hg.
Defined.
