(* ===== verification/GroupTargets.v ===== *)
(** * The peers a write has to reach

    On an instance whose picker was built from a list of clients with distinct
    hash keys, as [SetPeers] builds it: the owner, the other remote peers, and
    the two updates of the caches of this instance.  Nothing here depends on
    what the peers do with a request. *)

From S2P Require Import Prelude Errors Slices ByteView Sinks Picker MutexCache CacheIface Pb Group Recorder GroupCorrect.

Section Targets.
Context {K C W message : Type}.
Context `{!Cache K, !CacheLaws K, !Client C, !Proto message, !SortSlice}.
Context `{!EqDecision C, !Countable C, !MapRange string C, !MapRange C (list string), GoOrder}.
Context `{!Env K C W message}.

Notation St := (state K W).
Notation inst := (inst (K := K) (C := C) (W := W) (message := message)).
Notation fnv1 := (fnv1_HashBytes64 (K := K) (C := C) (W := W) (message := message)).
Notation instance_PickPeer := (instance_PickPeer (K := K) (C := C) (W := W) (message := message)).
Notation getAllPeers := (getAllPeers (K := K) (C := C) (W := W) (message := message)).

Implicit Types (s : St) (key : string) (p : C).

(** ** The clients of the cluster *)

Context (o : Options) (cs : list C).

(** The instance's picker was built from the clients [cs]. *)
Definition cluster : Prop := inst_picker inst = build fnv1 o cs.

Lemma getAllPeers_perm : cluster → NoDup (HashKey <$> cs) → getAllPeers ≡ₚ cs.
Proof. unfold cluster, getAllPeers, Group.getAllPeers. intros ->. apply GetAll_build. Qed.

Definition remote p : Prop := IsSelf (PeerInfo p) = false.

#[export] Instance remote_dec p : Decision (remote p).
Proof. unfold remote. apply _. Defined.

(** The owner [PickPeer] returns on such an instance. *)
Lemma owner_cases key :
  cluster → 0 <= Replicas o →
  (instance_PickPeer key = (None, false) ∧ cs = []) ∨
  ∃ ow, instance_PickPeer key = (Some ow, bool_decide (remote ow)) ∧ ow ∈ cs.
Proof.
  unfold cluster, instance_PickPeer, Group.instance_PickPeer. intros -> HR.
  destruct (decide (cs = [])) as [->|Hne]; [by left|right].
  destruct (PickPeer_build fnv1 o cs key HR Hne) as (e & -> & ? & _).
  exists (client e). split; [|done]. f_equal.
  case_bool_decide as Hr; unfold remote in Hr; by destruct (IsSelf _).
Qed.

Lemma same_HashKey p p' : NoDup (HashKey <$> cs) → p ∈ cs → p' ∈ cs → HashKey p = HashKey p' → p = p'.
Proof.
  intros Hnd [i Hi]%list_elem_of_lookup [j Hj]%list_elem_of_lookup Heq.
  assert (i = j) as <-; [|congruence].
  eapply (NoDup_lookup _ i j (HashKey p)); [done|..];
    rewrite list_lookup_fmap; [by rewrite Hi|by rewrite Hj, Heq].
Qed.

(** The clients split into the owner and the rest. *)
Lemma split_owner (P : C → Prop) `{∀ p, Decision (P p)} ow :
  NoDup cs → ow ∈ cs → P ow →
  filter P cs ≡ₚ ow :: filter (λ p, P p ∧ p ≠ ow) cs.
Proof.
  clear. intros Hnd Hin HP. induction Hnd as [|p l Hni Hnd IH]; [by apply elem_of_nil in Hin|].
  rewrite !filter_cons. destruct (decide (p = ow)) as [->|Hne].
  - rewrite decide_True by done. rewrite decide_False by (by intros [_ ?]). constructor.
    erewrite filter_ext_in; [done|]. intros x Hx. split; [|naive_solver].
    intros; split; [done|]. intros ->. done.
  - apply elem_of_cons in Hin as [?|Hin]; [congruence|]. specialize (IH Hin).
    destruct (decide (P p)).
    + rewrite decide_True by done. rewrite IH. constructor.
    + by rewrite decide_False by naive_solver.
Qed.

Lemma set_targets_eq ow ps s :
  set_targets (Some ow) ps s
  = (Val (filter (λ p, remote p ∧ HashKey p ≠ HashKey ow) ps), s).
Proof.
  induction ps as [|p ps IH]; [done|]. simpl. rewrite filter_cons.
  destruct (IsSelf (PeerInfo p)) eqn:Hp.
  - rewrite IH, decide_False; [done|]. intros [Hr _]. unfold remote in Hr. congruence.
  - mstep IH. case_bool_decide.
    + by rewrite decide_False by (by intros [_ ?]).
    + by rewrite decide_True.
Qed.

(** The peers [Set] still has to update, once the owner is up to date. *)
Lemma set_targets_perm ow :
  NoDup (HashKey <$> cs) → ow ∈ cs →
  (if bool_decide (remote ow) then [ow] else []) ++
    filter (λ p, remote p ∧ HashKey p ≠ HashKey ow) cs ≡ₚ filter remote cs.
Proof.
  intros Hnd Hin. pose proof (NoDup_fmap_1 _ _ Hnd) as Hnd'.
  case_bool_decide as Hrem; simpl.
  - rewrite (split_owner remote ow) by done. constructor.
    erewrite filter_ext_in; [done|]. intros p Hp. simpl.
    split; intros [? Hne]; (split; [done|]); [congruence|].
    intros ?. apply Hne. by apply same_HashKey.
  - erewrite filter_ext_in; [done|]. intros p Hp. simpl. split; [naive_solver|].
    intros Hr. split; [done|]. intros ?. by rewrite (same_HashKey p ow) in Hr.
Qed.

(** The two cache updates of [Set]. *)
Lemma local_set_spec s σm σh key v :
  rep s σm σh →
  ∃ s' σm' σh', (_ ← on_main (cache_Add key v); on_hot (cache_Remove key)) s = (Val tt, s') ∧
    rep s' σm' σh' ∧ σm' ⊆ <[key := v]> σm ∧ σh' ⊆ delete key σh ∧
    (cache_room (mainCache (st_g s)) key v → σm' !! key = Some v) ∧
    same_but_caches s s' ∧ st_w s' = st_w s.
Proof.
  intros [Hm Hh].
  destruct (cache_Add_law _ _ key v Hm) as (c & σm' & Ha & ? & ? & Hroom).
  erewrite M_bind_val by (by apply on_main_eq).
  destruct (cache_Remove_law _ _ key Hh) as (c' & σh' & Hr & ? & ? & _).
  erewrite on_hot_eq by exact Hr. eexists _, σm', σh'. split_and!; try done. by intros []%Hroom.
Qed.

(** The owner, when it is remote: it is contacted first. *)
Definition remote_owner (key : string) : list C :=
  match instance_PickPeer key with
  | (Some ow, true) => [ow]
  | _ => []
  end.

(** The clients [Remove] contacts: all but this instance when it is the owner. *)
Definition contacted key p : Prop := remote p ∨ (instance_PickPeer key).1 ≠ Some p.

#[export] Instance contacted_dec key p : Decision (contacted key p).
Proof. unfold contacted. apply _. Defined.

Context (Hcluster : cluster) (HR : 0 <= Replicas o) (Hnd : NoDup (HashKey <$> cs)).

Lemma set_targets_cluster key :
  ∃ ts, (∀ s', set_targets (instance_PickPeer key).1 getAllPeers s' = (Val ts, s')) ∧
    remote_owner key ++ ts ≡ₚ filter remote cs.
Proof.
  destruct (owner_cases key Hcluster HR) as [[Hp Hcs]|(ow & Hp & Hin)]; unfold remote_owner; rewrite Hp; simpl.
  - assert (getAllPeers = []) as ->.
    { apply Permutation_nil. rewrite <-Hcs. symmetry. by apply getAllPeers_perm. }
    exists []. split; [done|]. by rewrite Hcs.
  - eexists. split; [intros s'; apply set_targets_eq|].
    rewrite <-(set_targets_perm ow) by done. rewrite (getAllPeers_perm Hcluster Hnd). by case_bool_decide.
Qed.

Lemma remove_targets_cluster key :
  remote_owner key ++ remove_targets (instance_PickPeer key).1 getAllPeers ≡ₚ filter (contacted key) cs.
Proof.
  unfold remove_targets. rewrite (getAllPeers_perm Hcluster Hnd). unfold remote_owner.
  pose proof (NoDup_fmap_1 _ _ Hnd) as Hnd'.
  destruct (owner_cases key Hcluster HR) as [[Hp Hcs]|(ow & Hp & Hin)].
  - by rewrite Hp, Hcs.
  - assert ((instance_PickPeer key).1 = Some ow) as Hp1 by (by rewrite Hp).
    rewrite Hp. case_bool_decide as Hrem; simpl.
    + rewrite (split_owner (contacted key) ow) by (done || by left). simpl. constructor.
      erewrite (filter_ext_in _ (λ p, contacted key p ∧ p ≠ ow)); [done|].
      intros p _. unfold contacted. rewrite Hp1. naive_solver.
    + erewrite (filter_ext_in _ (contacted key)); [done|].
      intros p _. unfold contacted. rewrite Hp1. split; [naive_solver|].
      intros [Hr|?]; naive_solver.
Qed.

End Targets.
