(* ===== verification/GroupWrites.v ===== *)
(** * Writes: [Set], [Remove] and [RemoveKeys]

    The requests a write sends to the peers of the cluster.  The world is the
    history of requests; a peer's answer to a request may depend on the whole
    history, so this loses no behaviour of peers whose answers are errors or
    success.  The picker is one built from a list of clients with distinct
    hash keys, as [SetPeers] builds it. *)

From S2P Require Import Prelude Errors Slices ByteView Sinks Picker MutexCache CacheIface Pb Group Recorder GroupCorrect GroupTargets.

Section GroupWrites.
Context {K C message : Type}.
Context `{!Cache K, !CacheLaws K, !Client C, !Answers C, !Proto message, !SortSlice}.
Context `{!EqDecision C, !Countable C, !MapRange string C, !MapRange C (list string), GoOrder}.
Context `{!Env K C (history C) message}.

Notation St := (state K (history C)).
Notation inst := (inst (K := K) (C := C) (W := history C) (message := message)).
Notation fnv1 := (fnv1_HashBytes64 (K := K) (C := C) (W := history C) (message := message)).
Notation instance_PickPeer := (instance_PickPeer (K := K) (C := C) (W := history C) (message := message)).
Notation getAllPeers := (getAllPeers (K := K) (C := C) (W := history C) (message := message)).
Notation Set_ := (Set_ (K := K) (C := C) (W := history C) (message := message)).
Notation Remove := (Remove (K := K) (C := C) (W := history C) (message := message)).
Notation RemoveKeys := (RemoveKeys (K := K) (C := C) (W := history C) (message := message)).

Implicit Types (s : St) (key : string) (p : C) (q : request C).

(** ** Requests *)

Definition sent (qs : history C) s : St := mkSt (st_g s) (st_mem s) (st_w s ++ qs).

Lemma sent_nil s : sent [] s = s.
Proof. destruct s. unfold sent. simpl. by rewrite app_nil_r. Qed.

Lemma sent_app qs qs' s : sent qs' (sent qs s) = sent (qs ++ qs') s.
Proof. unfold sent. simpl. by rewrite (assoc_L (++)). Qed.

Definition set_req s key (v : bytes) (e : Time) p : request C :=
  ReqSet p (mkSetRequest (Some (name (st_g s))) (Some key) v (Some (encode_expire e))).
Definition remove_req s key p : request C :=
  ReqRemove p (mkGetRequest (Some (name (st_g s))) (Some key)).
Definition removeKeys_req s (pk : C * list string) : request C :=
  ReqRemoveKeys pk.1 (mkRemoveKeysRequest (Some (name (st_g s))) pk.2).

Lemma setPeer_eq p key v e s :
  setPeer p key v e s = (Val (answer (st_w s) (set_req s key v e p)), sent [set_req s key v e p] s).
Proof. done. Qed.

Lemma removeFromPeer_eq p key s :
  removeFromPeer p key s = (Val (answer (st_w s) (remove_req s key p)), sent [remove_req s key p] s).
Proof. done. Qed.

(** A loop of requests sends them in order; the [i]-th answer is given after
    the requests before it. *)
Definition answers_in_order (h qs : history C) (errs : list (option error)) : Prop :=
  length errs = length qs ∧
  ∀ i q, qs !! i = Some q → errs !! i = Some (answer (h ++ take i qs) q).

Lemma for_each_send {A B} (f : A → M St B) (q : A → request C) (out : option error → B) g l s :
  st_g s = g →
  (∀ x s', st_g s' = g → f x s' = (Val (out (answer (st_w s') (q x))), sent [q x] s')) →
  ∃ errs, for_each f l s = (Val (out <$> errs), sent (q <$> l) s) ∧
    answers_in_order (st_w s) (q <$> l) errs.
Proof.
  intros Hg Hf. revert s Hg. induction l as [|x l IH]; intros s Hg; simpl.
  - exists []. rewrite sent_nil. split; [done|]. split; [done|]. by intros [].
  - erewrite M_bind_val by (by apply Hf).
    destruct (IH (sent [q x] s) Hg) as (errs & Hr & Hlen & Hans).
    mstep Hr. rewrite sent_app.
    exists (answer (st_w s) (q x) :: errs). split; [done|].
    split; [simpl; by rewrite Hlen|]. intros [|i] q' Hq'; simplify_eq/=.
    + by rewrite app_nil_r.
    + rewrite (Hans _ _ Hq'). simpl. do 2 f_equal. by rewrite <-(assoc_L (++)).
Qed.

(** ** The clients of the cluster *)

Context (o : Options) (cs : list C).

Notation cluster := (cluster (K := K) (C := C) (W := history C) (message := message) o cs).
Notation contacted := (contacted (K := K) (C := C) (W := history C) (message := message)).

(** The request to the owner that comes first. *)
Definition owner_first (key : string) (q : C → request C) : history C :=
  q <$> remote_owner (K := K) (W := history C) (message := message) key.

(** [h] may be followed by a successful request to the owner, if remote. *)
Definition owner_accepts (h : history C) (key : string) (q : C → request C) : Prop :=
  ∀ q', q' ∈ owner_first key q → answer h q' = None.

Definition owner_step (key : string) (req : C → M St (option error)) : M St (option error) :=
  match instance_PickPeer key with
  | (Some ow, true) => req ow
  | _ => mret None
  end.

Lemma owner_step_ok key (req : C → M St (option error)) (q : C → request C) s :
  owner_accepts (st_w s) key q →
  (∀ p, req p s = (Val (answer (st_w s) (q p)), sent [q p] s)) →
  owner_step key req s = (Val None, sent (owner_first key q) s).
Proof.
  unfold owner_accepts, owner_step, owner_first, remote_owner. intros Ha Hreq.
  destruct (instance_PickPeer key) as [[ow|] []]; simpl in *; rewrite ?sent_nil; try done.
  rewrite Hreq, Ha by set_solver. done.
Qed.

(** What [Set] does after the owner accepted, with [ts] the other peers. *)
Lemma Set_rest s σm σh key v e owner ts :
  rep s σm σh → inst_Logger inst = true →
  (∀ s', set_targets owner getAllPeers s' = (Val ts, s')) →
  ∃ s' σm' σh',
    (_ ← on_main (cache_Add key (ByteViewWithExpire v e)); _ ← on_hot (cache_Remove key);
     targets ← set_targets owner getAllPeers;
     _ ← for_each (setPeer_logged key v e) (go_order targets); mret None) s
    = (Val (None : option error), s') ∧
    st_w s' = st_w s ++ (set_req s key v e <$> go_order ts) ∧
    rep s' σm' σh' ∧ σm' ⊆ <[key := ByteViewWithExpire v e]> σm ∧ σh' ⊆ delete key σh ∧
    (cache_room (mainCache (st_g s)) key (ByteViewWithExpire v e) →
      σm' !! key = Some (ByteViewWithExpire v e)).
Proof.
  intros Hr Hlog Hts.
  destruct (local_set_spec s σm σh key (ByteViewWithExpire v e) Hr)
    as (s1 & σm' & σh' & Hl & Hr1 & ? & ? & ? & (Hn & _) & Hw).
  destruct (for_each_send (setPeer_logged key v e) (set_req s key v e) (λ _, tt) (st_g s1)
              (go_order ts) s1 eq_refl) as (errs & Hf & _).
  { intros p s' Hg. unfold setPeer_logged. mstep setPeer_eq.
    unfold set_req. rewrite Hg, Hn, Hlog. by destruct (answer _ _). }
  eexists _, σm', σh'. split.
  - etrans; [symmetry; apply (M_bind_assoc _ (λ _, _) (λ _, _))|].
    mstep Hl.
    mstep Hts. mstep Hf. done.
  - simpl. by rewrite Hw.
Qed.

Context (Hcluster : cluster) (HR : 0 <= Replicas o) (Hnd : NoDup (HashKey <$> cs)).

Lemma set_targets_requests key :
  ∃ ts, (∀ s', set_targets (instance_PickPeer key).1 getAllPeers s' = (Val ts, s')) ∧
    ∀ q : C → request C, owner_first key q ++ (q <$> ts) ≡ₚ q <$> filter remote cs.
Proof.
  destruct (set_targets_cluster o cs Hcluster HR Hnd key) as (ts & Hts & Hperm).
  exists ts. split; [done|]. intros q. unfold owner_first. by rewrite <-fmap_app, Hperm.
Qed.

(** *** RemoveKeys *)

Definition owned (keys : list string) p : list string :=
  filter (λ k, instance_PickPeer k = (Some p, true)) keys.

Lemma keysByOwner_lookup keys m p :
  keysByOwner keys m !! p =
    match owned keys p with
    | [] => m !! p
    | ks => Some (default [] (m !! p) ++ ks)
    end.
Proof.
  revert m. induction keys as [|k keys IH]; intros m; [done|].
  simpl. rewrite IH. unfold owned. rewrite filter_cons.
  destruct (instance_PickPeer k) as [[ow|] []] eqn:Hp; cbv beta iota.
  1: destruct (decide (ow = p)) as [->|Hne].
  { rewrite decide_True by done. rewrite lookup_insert_eq. simpl.
    destruct (filter _ keys); [done|]. by rewrite <-(assoc_L (++)). }
  { rewrite decide_False by congruence. by rewrite lookup_insert_ne. }
  all: by rewrite decide_False by congruence.
Qed.

Lemma keysByOwner_None keys p : keysByOwner keys ∅ !! p = None ↔ owned keys p = [].
Proof. rewrite keysByOwner_lookup, lookup_empty. by destruct (owned keys p). Qed.

(** The keys peer [p] is asked to remove. *)
Definition asked (keys : list string) p : list string :=
  match owned keys p with [] => keys | ks => ks end.

Lemma owned_in_cluster keys p : owned keys p ≠ [] → remote p ∧ p ∈ cs.
Proof.
  intros Ho. destruct (owned keys p) as [|k ks] eqn:He; [done|].
  assert (k ∈ owned keys p) as Hk by (rewrite He; set_solver).
  apply list_elem_of_filter in Hk as [Hk _].
  destruct (owner_cases o cs k Hcluster HR) as [[Hp _]|(ow & Hp & Hin)]; rewrite Hp in Hk; [done|].
  simplify_eq. split; [|done]. by case_bool_decide.
Qed.

Lemma removeKeys_requests_cluster keys :
  removeKeys_requests keys ≡ₚ (λ p, (p, asked keys p)) <$> filter remote cs.
Proof.
  pose proof (NoDup_fmap_1 _ _ Hnd) as Hnd'. apply NoDup_Permutation.
  - unfold removeKeys_requests. rewrite map_range_perm, (getAllPeers_perm o cs Hcluster Hnd).
    apply NoDup_app. split_and!.
    + apply NoDup_map_to_list.
    + intros [p ks] Hin Hin2. apply elem_of_map_to_list in Hin.
      apply list_elem_of_fmap in Hin2 as (p' & [= -> ->] & [[_ Hn] _]%list_elem_of_filter).
      congruence.
    + apply (NoDup_fmap_2 _). by apply NoDup_filter.
  - apply NoDup_fmap_2_strong; [by intros ???? [= ->]|]. by apply NoDup_filter.
  - intros [p ks]. unfold removeKeys_requests.
    rewrite map_range_perm, (getAllPeers_perm o cs Hcluster Hnd), elem_of_app.
    rewrite elem_of_map_to_list, !list_elem_of_fmap. setoid_rewrite list_elem_of_filter.
    setoid_rewrite keysByOwner_None. rewrite keysByOwner_lookup, lookup_empty.
    unfold asked. split.
    + intros [Hm|(p' & [= -> ->] & [Hr Ho] & Hin)].
      * destruct (owned keys p) as [|k0 ks0] eqn:He; [done|]. simplify_eq/=.
        exists p. rewrite He. split; [done|]. apply (owned_in_cluster keys). by rewrite He.
      * exists p'. by rewrite Ho.
    + intros (p' & [= -> ->] & Hr & Hin). destruct (owned keys p') as [|k0 ks0] eqn:He.
      * right. by exists p'.
      * left. done.
Qed.

Lemma LocalRemove_each keys s σm σh :
  rep s σm σh → 0 < maxCacheBytes (st_g s) →
  ∃ s' us σm' σh', for_each LocalRemove keys s = (Val us, s') ∧ rep s' σm' σh' ∧
    σm' ⊆ σm ∧ σh' ⊆ σh ∧ (∀ k, k ∈ keys → σm' !! k = None ∧ σh' !! k = None) ∧
    same_but_caches s s' ∧ st_w s' = st_w s.
Proof.
  revert s σm σh. induction keys as [|k keys IH]; intros s σm σh Hr Hmax.
  - exists s, [], σm, σh. split_and!; try done. set_solver.
  - destruct (LocalRemove_spec s σm σh k Hr Hmax) as (s1 & σm1 & σh1 & Hl & Hr1 & Hm1 & Hh1 & (?&Hmx&?&?) & Hw1).
    rewrite <-Hmx in Hmax.
    destruct (IH s1 σm1 σh1 Hr1 Hmax) as (s2 & us & σm2 & σh2 & Hf & Hr2 & Hm2 & Hh2 & Hk & (?&?&?&?) & Hw2).
    exists s2, (tt :: us), σm2, σh2. simpl. mstep Hl.
    mstep Hf.
    assert (σm2 ⊆ delete k σm) as Hm by (by etrans). assert (σh2 ⊆ delete k σh) as Hh by (by etrans).
    split_and!; try done; try congruence.
    + etrans; [exact Hm|]. apply delete_subseteq.
    + etrans; [exact Hh|]. apply delete_subseteq.
    + intros k' [->|?]%elem_of_cons; [|by apply Hk].
      split; (eapply lookup_weaken_None; [|done]); apply lookup_delete_eq.
    + split_and!; congruence.
Qed.

(** ** Theorems *)

(** C17: on a group that caches, with a logger (which the failures of other
    peers go to), a [Set] of a nonempty key whose owner accepts it reaches the
    whole cluster: every remote peer gets exactly one request with the key,
    value and encoded expiry, the owner first and the others in any order; this instance's main cache holds the value, when it has room
    for it, and no older one, and the key leaves its hot cache.  On a group
    that does not cache, [Set] returns nil and does nothing. *)
Theorem group_Set_reaches_every_peer s σm σh key v e
  (Hrep : rep s σm σh) (Hkey : key ≠ "") (Hlog : inst_Logger inst = true)
  (Howner : owner_accepts (st_w s) key (set_req s key v e)) :
  (maxCacheBytes (st_g s) <= 0 → Set_ key v e s = (Val None, s)) ∧
  (0 < maxCacheBytes (st_g s) → ∃ s' others σm' σh', Set_ key v e s = (Val None, s') ∧
    st_w s' = st_w s ++ owner_first key (set_req s key v e) ++ others ∧
    owner_first key (set_req s key v e) ++ others ≡ₚ set_req s key v e <$> filter remote cs ∧
    rep s' σm' σh' ∧ σm' ⊆ <[key := ByteViewWithExpire v e]> σm ∧ σh' ⊆ delete key σh ∧
    (cache_room (mainCache (st_g s)) key (ByteViewWithExpire v e) →
      σm' !! key = Some (ByteViewWithExpire v e))).
Proof.
  destruct (set_targets_requests key) as (ts & Hts & Hperm).
  unfold Set_, Group.Set_. rewrite bool_decide_false by done.
  split; intros Hmax; mstep; [by rewrite bool_decide_true|rewrite bool_decide_false by lia]. unfold Set_fn.
  pose proof (owner_step_ok key (λ p, setPeer p key v e) (set_req s key v e) s Howner (λ p, eq_refl)) as Ho.
  unfold owner_step in Ho. set (s1 := sent _ s) in *.
  destruct (Set_rest s1 σm σh key v e (instance_PickPeer key).1 ts Hrep Hlog Hts)
    as (s' & σm' & σh' & Hx & Hw & Hr & ? & ? & ?).
  exists s', (set_req s key v e <$> go_order ts), σm', σh'. split_and!; try done.
  - destruct (instance_PickPeer key) as [ow rem]. mstep Ho. exact Hx.
  - rewrite Hw. simpl. by rewrite <-(assoc_L (++)).
  - rewrite <-Hperm. by rewrite go_order_perm.
Qed.

(** when the owner refuses a [Set], its error is returned, no other peer is
    asked and the caches of this instance are untouched. *)
Theorem group_Set_owner_error s key v e ow err
  (Hkey : key ≠ "") (Hmax : 0 < maxCacheBytes (st_g s))
  (Howner : instance_PickPeer key = (Some ow, true))
  (Herr : answer (st_w s) (set_req s key v e ow) = Some err) :
  Set_ key v e s = (Val (Some err), sent [set_req s key v e ow] s).
Proof.
  unfold Set_, Group.Set_. rewrite bool_decide_false by done.
  mstep. rewrite bool_decide_false by lia. unfold Set_fn.
  rewrite Howner. mstep setPeer_eq. by rewrite Herr.
Qed.

(** C18: when the owner accepts, [Remove] clears the key from both caches of
    this instance and asks every client exactly once to remove it (this
    instance's own placeholder aside when it is the owner), the owner first;
    the result is nil exactly when all of them succeed and otherwise collects
    their errors. *)
Theorem group_Remove_reaches_every_peer s σm σh key
  (Hrep : rep s σm σh) (Hmax : 0 < maxCacheBytes (st_g s))
  (Howner : owner_accepts (st_w s) key (remove_req s key)) :
  ∃ s' r others errs σm' σh', Remove key s = (Val r, s') ∧
    st_w s' = st_w s ++ owner_first key (remove_req s key) ++ others ∧
    owner_first key (remove_req s key) ++ others ≡ₚ remove_req s key <$> filter (contacted key) cs ∧
    answers_in_order (st_w s ++ owner_first key (remove_req s key)) others errs ∧
    (∃ errs', errs' ≡ₚ errs ∧ r = collect errs') ∧ (r = None ↔ Forall (.= None) errs) ∧
    rep s' σm' σh' ∧ σm' ⊆ delete key σm ∧ σh' ⊆ delete key σh.
Proof.
  pose proof (owner_step_ok key (λ p, removeFromPeer p key) (remove_req s key) s Howner (λ p, eq_refl)) as Ho.
  unfold owner_step in Ho. set (first := owner_first key (remove_req s key)) in *.
  destruct (LocalRemove_spec (sent first s) σm σh key Hrep Hmax)
    as (s1 & σm' & σh' & Hl & Hr1 & ? & ? & (Hn&?&?&?) & Hw).
  set (ts := remove_targets (instance_PickPeer key).1 getAllPeers).
  destruct (for_each_send (λ p, removeFromPeer p key) (remove_req s key) id (st_g s1)
              (go_order ts) s1 eq_refl) as (errs & Hf & Hans).
  { intros p s' Hg. rewrite removeFromPeer_eq. unfold remove_req. by rewrite Hg, Hn. }
  rewrite list_fmap_id in Hf. rewrite Hw in Hans. simpl in Hans.
  exists (sent (remove_req s key <$> go_order ts) s1), (collect (go_order errs)),
    (remove_req s key <$> go_order ts), errs, σm', σh'. split_and!.
  - unfold Remove, Group.Remove. subst ts.
    destruct (instance_PickPeer key) as [ow rem]. mstep Ho. cbv beta iota.
    mstep Hl. mstep Hf. done.
  - simpl. rewrite Hw. simpl. by rewrite <-(assoc_L (++)).
  - unfold first, owner_first, ts. rewrite <-fmap_app, go_order_perm.
    by rewrite (remove_targets_cluster o cs Hcluster HR Hnd).
  - done.
  - exists (go_order errs). split; [apply go_order_perm|done].
  - rewrite collect_None. by rewrite go_order_perm.
  - done.
  - done.
  - done.
Qed.

(** when the owner fails, [Remove] returns its error at once: no other peer
    is asked and the key stays in the caches of this instance. *)
Theorem group_Remove_owner_error s key ow err
  (Howner : instance_PickPeer key = (Some ow, true))
  (Herr : answer (st_w s) (remove_req s key ow) = Some err) :
  Remove key s = (Val (Some err), sent [remove_req s key ow] s).
Proof.
  unfold Remove, Group.Remove. rewrite Howner.
  mstep removeFromPeer_eq. by rewrite Herr.
Qed.

(** C19: [RemoveKeys] clears every key from both caches of this instance, whether
    or not a peer fails, and sends every remote peer exactly one request: a
    peer that owns some of the keys is asked for those, any other peer for
    all of them. *)
Theorem group_RemoveKeys_requests s σm σh keys
  (Hrep : rep s σm σh) (Hmax : 0 < maxCacheBytes (st_g s)) (Hkeys : keys ≠ []) :
  ∃ s' r qs errs σm' σh', RemoveKeys keys s = (Val r, s') ∧ st_w s' = st_w s ++ qs ∧
    qs ≡ₚ (λ p, removeKeys_req s (p, asked keys p)) <$> filter remote cs ∧
    answers_in_order (st_w s) qs errs ∧ (r = None ↔ Forall (.= None) errs) ∧
    rep s' σm' σh' ∧ σm' ⊆ σm ∧ σh' ⊆ σh ∧
    (∀ k, k ∈ keys → σm' !! k = None ∧ σh' !! k = None).
Proof.
  unfold RemoveKeys, Group.RemoveKeys. rewrite bool_decide_false by done.
  mstep count_eq. mstep count_eq.
  set (s0 := with_stats _ _).
  destruct (LocalRemove_each keys s0 σm σh Hrep Hmax)
    as (s1 & us & σm' & σh' & Hl & Hr1 & ? & ? & Hk & (Hn&?&?&?) & Hw).
  mstep Hl. mstep. 
  destruct (for_each_send
    (λ '(p, ks), outside (client_RemoveKeys p (mkRemoveKeysRequest (Some (name (st_g s1))) ks)))
    (removeKeys_req s) id (st_g s1) (go_order (removeKeys_requests keys)) s1 eq_refl) as (errs & Hf & Hans).
  { intros [p ks] s' Hg. unfold removeKeys_req. simpl. rewrite Hn. done. }
  rewrite list_fmap_id in Hf. rewrite Hw in Hans.
  mstep Hf.
  eexists _, (collect (go_order errs)), (removeKeys_req s <$> go_order (removeKeys_requests keys)), errs, σm', σh'.
  split_and!; try done.
  - simpl. by rewrite Hw.
  - rewrite go_order_perm, removeKeys_requests_cluster. by rewrite <-list_fmap_compose.
  - rewrite collect_None. by rewrite go_order_perm.
Qed.

(** A loop in which one step always panics panics, whatever the order. *)
Lemma for_each_panics {A B} (f : A → M St B) g l s x :
  st_g s = g → x ∈ l →
  (∀ y s', st_g s' = g → (f y s').1 = Panicked ∨ ∃ b s'', f y s' = (Val b, s'') ∧ st_g s'' = g) →
  (∀ s', st_g s' = g → (f x s').1 = Panicked) →
  (for_each f l s).1 = Panicked.
Proof.
  intros Hg Hin Hf Hx. revert s Hg. induction l as [|y l IH]; intros s Hg; [by apply elem_of_nil in Hin|].
  simpl. destruct (Hf y s Hg) as [Hy|(b & s' & Hy & Hg')].
  - destruct (f y s) as [r s'] eqn:Hr. simpl in Hy. subst r. by erewrite M_bind_panic.
  - mstep Hy. apply elem_of_cons in Hin as [->|Hin].
    + specialize (Hx s Hg). by rewrite Hy in Hx.
    + specialize (IH Hin s' Hg'). destruct (for_each f l s') as [r s''] eqn:Hr. simpl in IH. subst r.
      by erewrite M_bind_panic.
Qed.

(** without a logger (which [New] leaves nil when the options have none) a
    peer that fails takes the whole process down: [Set] panics as soon as a
    peer other than the owner refuses the request. *)
Theorem group_Set_without_logger_panics s σm σh key v e p
  (Hrep : rep s σm σh) (Hkey : key ≠ "") (Hmax : 0 < maxCacheBytes (st_g s))
  (Hlog : inst_Logger inst = false)
  (Howner : owner_accepts (st_w s) key (set_req s key v e))
  (Hp : p ∈ cs) (Hremote : remote p) (Hnot : (instance_PickPeer key).1 ≠ Some p)
  (Hfails : ∀ h, answer h (set_req s key v e p) ≠ None) :
  (Set_ key v e s).1 = Panicked.
Proof.
  destruct (set_targets_requests key) as (ts & Hts & Hperm).
  assert (p ∈ ts) as Hin.
  { specialize (Hperm (λ p, set_req s key v e p)).
    assert (set_req s key v e p ∈ set_req s key v e <$> filter remote cs) as Hq.
    { apply list_elem_of_fmap_2. by apply list_elem_of_filter. }
    rewrite <-Hperm in Hq. apply elem_of_app in Hq as [Hq|Hq].
    - unfold owner_first, remote_owner in Hq. destruct (instance_PickPeer key) as [[ow|] []]; set_solver.
    - apply list_elem_of_fmap in Hq as (p' & Heq & ?). by injection Heq as ->. }
  unfold Set_, Group.Set_. rewrite bool_decide_false by done.
  mstep. rewrite bool_decide_false by lia. unfold Set_fn.
  pose proof (owner_step_ok key (λ p, setPeer p key v e) (set_req s key v e) s Howner (λ p, eq_refl)) as Ho.
  unfold owner_step in Ho. set (s1 := sent _ s) in *.
  destruct (local_set_spec s1 σm σh key (ByteViewWithExpire v e) Hrep)
    as (s2 & _ & _ & Hl & _ & _ & _ & _ & (Hn & _) & _).
  assert ((for_each (setPeer_logged key v e) (go_order ts) s2).1 = Panicked) as Hpan.
  { apply (for_each_panics _ (st_g s2) _ _ p eq_refl).
    - by rewrite go_order_perm.
    - intros y s' Hg. unfold setPeer_logged. mstep setPeer_eq.
      destruct (answer _ _); rewrite ?Hlog; [by left|right; by eexists _, _].
    - intros s' Hg. unfold setPeer_logged. mstep setPeer_eq.
      unfold set_req. rewrite Hg, Hn. change (name (st_g s1)) with (name (st_g s)).
      specialize (Hfails (st_w s')). unfold set_req in Hfails.
      destruct (answer _ _); [by rewrite Hlog|done]. }
  destruct (instance_PickPeer key) as [ow rem]. mstep Ho. cbv beta iota.
  assert (∀ k : M St (option error),
    (_ ← on_main (cache_Add key (ByteViewWithExpire v e)); _ ← on_hot (cache_Remove key); k) s1 = k s2)
    as ->.
  { intros k. etrans; [symmetry; apply (M_bind_assoc _ (λ _, _) (λ _, _))|]. by mstep Hl. }
  mstep Hts.
  destruct (for_each _ _ s2) as [r s3] eqn:Hf. simpl in Hpan. subst r. by erewrite M_bind_panic.
Qed.

End GroupWrites.

(** An instance of [group_RemoveKeys_requests]: a peer that owns one of the keys
    of a batch is not asked to remove the others, although it may hold copies
    of them: [RemoveKeys "apple" "Bob"] succeeds and asks peer c, which owns
    only "apple", for "apple" alone. *)
Example group_RemoveKeys_leaves_copies_at_owners :
  ∃ s', RemoveKeys (message := list byte) ["apple"; "Bob"] (sample_state "g") = (Val None, s') ∧
    (∀ r, ReqRemoveKeys peer_c r ∈ st_w s' → rmreq_Keys r = ["apple"]) ∧
    (∀ r, ReqRemoveKeys peer_b r ∈ st_w s' → rmreq_Keys r = ["Bob"]) ∧
    length (st_w s') = 2%nat.
Proof.
  eexists. split; [vm_compute; reflexivity|].
  split_and!; [..|reflexivity]; intros r Hr; simpl in Hr.
  all: repeat (apply elem_of_cons in Hr as [Hr|Hr]; [by simplify_eq|]).
  all: by apply elem_of_nil in Hr.
Qed.

(** ** Witnesses *)

Lemma sample_cluster : cluster (message := list byte) two_replicas three_peers.
Proof. done. Qed.

Lemma sample_NoDup : NoDup (HashKey <$> three_peers).
Proof. by apply (bool_decide_unpack _). Qed.

Lemma sample_accepts key (q : NoOpClient → request NoOpClient) :
  (∀ p, request_group (q p) = "g") → owner_accepts (message := list byte) [] key q.
Proof.
  intros Hq q'. unfold owner_first, remote_owner. destruct (instance_PickPeer key) as [[ow|] []]; try set_solver.
  intros ->%list_elem_of_singleton. simpl. by rewrite Hq.
Qed.

Lemma group_Set_reaches_every_peer_witness :
  ∃ s' others σm' σh', Set_ (message := list byte) "apple" None 5 (sample_state "g") = (Val None, s') ∧
    st_w s' = set_req (sample_state "g") "apple" None 5 peer_c :: others ∧
    rep s' σm' σh' ∧ σm' !! "apple" = Some (ByteViewWithExpire None 5).
Proof.
  destruct (group_Set_reaches_every_peer (message := list byte) two_replicas three_peers
    sample_cluster ltac:(done) sample_NoDup (sample_state "g") ∅ ∅ "apple" None 5 (sample_rep "g"))
    as [_ Hset]; [done|done|by apply sample_accepts|].
  destruct Hset as (s' & others & σm' & σh' & Hs & Hw & _ & Hr & _ & _ & Hk); [done|].
  exists s', others, σm', σh'. split_and!; [exact Hs| |exact Hr|].
  - rewrite Hw. unfold owner_first, remote_owner. by rewrite (proj2 (proj2 sample_owners)).
  - apply Hk. apply mutexCache_room_new; [done..|]. by vm_compute.
Defined.

Lemma group_Set_owner_error_witness :
  Set_ (message := list byte) "apple" None 5 (sample_state "down") =
  (Val (Some (ErrorString "connection refused")),
   sent [set_req (sample_state "down") "apple" None 5 peer_c] (sample_state "down")).
Proof.
  apply (group_Set_owner_error (message := list byte)); [done|done|apply sample_owners|reflexivity].
Defined.

Lemma group_Remove_reaches_every_peer_witness :
  ∃ s' r others, Remove (message := list byte) "Bob" (sample_state "g") = (Val r, s') ∧
    st_w s' = remove_req (sample_state "g") "Bob" peer_b :: others.
Proof.
  destruct (group_Remove_reaches_every_peer (message := list byte) two_replicas three_peers
    sample_cluster ltac:(done) sample_NoDup (sample_state "g") ∅ ∅ "Bob" (sample_rep "g"))
    as (s' & r & others & _ & _ & _ & Hs & Hw & _); [done|by apply sample_accepts|].
  exists s', r, others. split; [exact Hs|]. rewrite Hw. unfold owner_first, remote_owner.
  by rewrite (proj1 (proj2 sample_owners)).
Defined.

Lemma group_Remove_owner_error_witness :
  Remove (message := list byte) "apple" (sample_state "down") =
  (Val (Some (ErrorString "connection refused")),
   sent [remove_req (sample_state "down") "apple" peer_c] (sample_state "down")).
Proof. apply (group_Remove_owner_error (message := list byte)); [apply sample_owners|reflexivity]. Defined.

Lemma group_RemoveKeys_requests_witness :
  ∃ s' r qs, RemoveKeys (message := list byte) ["cherry"; "apple"] (sample_state "g") = (Val r, s') ∧
    qs ≡ₚ [removeKeys_req (sample_state "g") (peer_b, ["cherry"; "apple"]);
           removeKeys_req (sample_state "g") (peer_c, ["apple"])] ∧ st_w s' = qs.
Proof.
  destruct (group_RemoveKeys_requests (message := list byte) two_replicas three_peers
    sample_cluster ltac:(done) sample_NoDup (sample_state "g") ∅ ∅ ["cherry"; "apple"] (sample_rep "g"))
    as (s' & r & qs & _ & _ & _ & Hs & Hw & Hq & _); [done|done|].
  exists s', r, qs. split; [exact Hs|]. split; [|exact Hw].
  etrans; [exact Hq|]. vm_compute. reflexivity.
Defined.

Lemma group_Set_without_logger_panics_witness :
  (Set_ (message := list byte) (Env0 := sample_env_with false) "cherry" None 5 (sample_state "down")).1
  = Panicked.
Proof.
  assert (instance_PickPeer (message := list byte) (Env0 := sample_env_with false) "cherry"
    = (Some peer_a, false)) as Hp by (vm_compute; reflexivity).
  apply (group_Set_without_logger_panics (message := list byte) (Env0 := sample_env_with false)
    two_replicas three_peers eq_refl ltac:(done) sample_NoDup
    (sample_state "down") ∅ ∅ "cherry" None 5 peer_b (sample_rep "down")).
  - discriminate.
  - reflexivity.
  - reflexivity.
  - unfold owner_accepts, owner_first, remote_owner. rewrite Hp. intros q' []%elem_of_nil.
  - apply (list_elem_of_lookup_2 _ 1). reflexivity.
  - reflexivity.
  - by rewrite Hp.
  - intros h. discriminate.
Defined.

(** [Set] stores the caller's slice and not a copy: when the caller writes to
    it afterwards, the next [Get] is served the new bytes. *)
Example group_Set_shares_array :
  let s1 := (Set_ (message := list byte) "cherry" (Some (Slice 0 0 5 5)) zero_time (sample_state "g")).2 in
  let s2 := (on_mem (write_slice (Slice 0 0 5 5) (string_bytes "HELLO")) s1).2 in
  match (Get "cherry" (Some sample_sink) s1).1, (Get "cherry" (Some sample_sink) s2).1 with
  | Val (None, Some (SStringSink d1)), Val (None, Some (SStringSink d2)) =>
      ss_sp d1 = Some "hello" ∧ ss_sp d2 = Some "HELLO"
  | _, _ => False
  end.
Proof. vm_compute. done. Qed.
