(* ===== verification/Goroutines.v ===== *)
(** * Goroutines around duplicate call suppression

    A goroutine that runs an operation of a group is a [prog]: a tree of
    atomic actions on the state the goroutines share, of the actions
    [Group.Do] and [Group.Lock] of internal/singleflight perform on their
    mutexes and calls, and of the return of the operation or its panic.
    [pstep] is one action of one goroutine, [sched] a schedule.  The critical
    sections of [Do] are single actions here: Critical.v takes them apart, and
    transfers the theorems.

    [wp] is a program logic for these trees.  It keeps an invariant [I] of the
    shared state and a relation [R] between the key of a call and its
    published results, and it tracks what the goroutine owes the others: the
    call it leads, the mutex it holds.  A proof may also use a prophecy: of a
    fact that stays true, that it is true at the end of the execution.
    [always] and [inevitable] are its soundness: whenever a schedule stops the
    invariant holds and the results are as promised, and under every schedule
    all goroutines end. *)

From S2P Require Import Prelude Errors Singleflight.

(** ** Programs *)

Section Programs.
Context {St V SF : Type}.

(** The call is published with [c.val, c.err] and [wg.Done()]; [None] as a
    result is a panic. *)
Inductive prog (A : Type) : Type :=
| Done (r : option A)
| Hang                                              (* never returns *)
| Act {X : Type} (m : M St X) (k : option X → prog A)
| Enter (sf : SF) (key : string) (lead join : nat → prog A)
| Publish (c : nat) (o : outcome (V := V)) (k : prog A)
| Delete (sf : SF) (key : string) (k : prog A)
| Wait (c : nat) (k : option V → option error → prog A)
| Acquire (sf : SF) (k : prog A)
| Release (sf : SF) (k : prog A).
Arguments Done {A}.
Arguments Hang {A}.
Arguments Act {A X}.
Arguments Enter {A}.
Arguments Publish {A}.
Arguments Delete {A}.
Arguments Wait {A}.
Arguments Acquire {A}.
Arguments Release {A}.

(** Sequencing; [k] also runs when [p] panics, as deferred functions do. *)
Fixpoint bindr {A B} (p : prog A) (k : option A → prog B) : prog B :=
  match p with
  | Done r => k r
  | Hang => Hang
  | Act m f => Act m (λ x, bindr (f x) k)
  | Enter sf key lead join => Enter sf key (λ c, bindr (lead c) k) (λ c, bindr (join c) k)
  | Publish c o p => Publish c o (bindr p k)
  | Delete sf key p => Delete sf key (bindr p k)
  | Wait c f => Wait c (λ v e, bindr (f v e) k)
  | Acquire sf p => Acquire sf (bindr p k)
  | Release sf p => Release sf (bindr p k)
  end.

#[global] Instance prog_ret : MRet prog := λ A a, Done (Some a).
#[global] Instance prog_bind : MBind prog := λ A B f p,
  bindr p (λ r, match r with Some a => f a | None => Done None end).

(** One atomic action. *)
Definition act {X} (m : M St X) : prog X := Act m Done.

Fixpoint for_each_go {A B} (f : A → prog B) (l : list A) : prog (list B) :=
  match l with
  | [] => mret []
  | x :: l => y ← f x; ys ← for_each_go f l; mret (y :: ys)
  end.

Definition outcome_of {X} (r : option (X * (option V * option error))) : outcome (V := V) :=
  match r with
  | Some (_, (v, e)) => Ret v e
  | None => Panics
  end.

(** [g.Do(key, fn)]: the leader runs [fn], publishes its results and deletes
    the call, whether [fn] returns or panics; a duplicate waits.  [X] is what
    [fn] assigns to variables of the caller: only the leader's are assigned. *)
Definition Do {X} (sf : SF) (key : string) (fn : prog (X * (option V * option error)))
    : prog (option X * (option V * option error)) :=
  Enter sf key
    (λ c, bindr fn (λ r,
       Publish c (outcome_of r) (Delete sf key (Done ((λ '(x, ve), (Some x, ve)) <$> r)))))
    (λ c, Wait c (λ v e, Done (Some (None, (v, e))))).

(** [g.Lock(fn)] *)
Definition Lock {X} (sf : SF) (fn : prog X) : prog X :=
  Acquire sf (bindr fn (λ r, Release sf (Done r))).

End Programs.

Arguments prog : clear implicits.
Arguments Done {St V SF A}.
Arguments Hang {St V SF A}.
Arguments Act {St V SF A X}.
Arguments Enter {St V SF A}.
Arguments Publish {St V SF A}.
Arguments Delete {St V SF A}.
Arguments Wait {St V SF A}.
Arguments Acquire {St V SF A}.
Arguments Release {St V SF A}.

(** ** Schedules *)

Section Schedules.
Context {X : Type} (next : nat → X → option X).
Implicit Types x : X.

(** A schedule names the goroutine that moves next. *)
Fixpoint exec_by (sched : list nat) (x : X) : option X :=
  match sched with
  | [] => Some x
  | t :: sched => match next t x with Some x' => exec_by sched x' | None => None end
  end.

(** Under every schedule a configuration that satisfies [P] is reached: until
    then some goroutine can move, and whichever moves, it comes closer. *)
Inductive inevitably_by (P : X → Prop) (x : X) : Prop :=
| inev_now : P x → inevitably_by P x
| inev_later :
    (∃ t x', next t x = Some x') →
    (∀ t x', next t x = Some x' → inevitably_by P x') → inevitably_by P x.

(** What holds at the start and survives every action holds at the end. *)
Lemma inevitably_strengthen (P Q P' : X → Prop) x :
  (∀ x t x', Q x → next t x = Some x' → Q x') → (∀ x, P x → Q x → P' x) →
  Q x → inevitably_by P x → inevitably_by P' x.
Proof.
  intros Hstep HP' HQ Hin. induction Hin as [x HP|x Hex _ IH]; [apply inev_now; auto|].
  apply inev_later; [done|]. intros t x' Hs. eauto.
Qed.

Lemma exec_by_app sched sched' x :
  exec_by (sched ++ sched') x = exec_by sched x ≫= exec_by sched'.
Proof.
  revert x. induction sched as [|t sched IH]; intros x; simpl; [done|].
  by destruct (next t x) as [x'|].
Qed.

Lemma exec_by_then sched sched' x x' x'' :
  exec_by sched x = Some x' → exec_by sched' x' = Some x'' → exec_by (sched ++ sched') x = Some x''.
Proof. intros Hx Hx'. by rewrite exec_by_app, Hx. Qed.

Lemma exec_by_snoc sched t x x' x'' :
  exec_by sched x = Some x' → next t x' = Some x'' → exec_by (sched ++ [t]) x = Some x''.
Proof. intros Hx Ht. rewrite exec_by_app, Hx. simpl. by rewrite Ht. Qed.

End Schedules.

(** ** Execution *)

Section Execution.
Context {St V SF A : Type} `{!EqDecision SF, !Countable SF}.
Notation prog := (prog St V SF).
Notation call := (call (V := V)).
Notation outcome := (outcome (V := V)).

Record shared := mkShared {
  sh_st : St;
  sh_calls : gmap (SF * string) nat;      (* g.m of each singleflight group *)
  sh_heap : list call;
  sh_mu : gmap SF nat;                    (* the goroutine that holds g.mu *)
}.

Definition with_st (s : St) (σ : shared) : shared :=
  mkShared s (sh_calls σ) (sh_heap σ) (sh_mu σ).

(** [c.val, c.err = fn()] unless [fn] panicked, then [c.wg.Done()]. *)
Definition finish (o : outcome) (k : call) : call :=
  match o with
  | Ret v e => mkCall (wg k - 1) v e
  | Panics => mkCall (wg k - 1) (val k) (err k)
  end.

Definition pstep {B} (t : nat) (p : prog B) (σ : shared) : option (prog B * shared) :=
  match p with
  | Done _ | Hang => None
  | Act m k =>
      Some match m (sh_st σ) with
           | (Val x, s) => (k (Some x), with_st s σ)
           | (Panicked, s) => (k None, with_st s σ)
           | (Diverged, s) => (Hang, with_st s σ)
           end
  | Enter sf key lead join =>
      match sh_mu σ !! sf with
      | Some _ => None
      | None =>
          match sh_calls σ !! (sf, key) with
          | Some c => Some (join c, σ)
          | None =>
              let c := length (sh_heap σ) in
              Some (lead c, mkShared (sh_st σ) (<[(sf, key) := c]> (sh_calls σ))
                              (sh_heap σ ++ [mkCall 1 None leader_panicked]) (sh_mu σ))
          end
      end
  | Publish c o k =>
      match sh_heap σ !! c with
      | Some cl => Some (k, mkShared (sh_st σ) (sh_calls σ) (<[c := finish o cl]> (sh_heap σ)) (sh_mu σ))
      | None => None
      end
  | Delete sf key k =>
      match sh_mu σ !! sf with
      | Some _ => None
      | None => Some (k, mkShared (sh_st σ) (delete (sf, key) (sh_calls σ)) (sh_heap σ) (sh_mu σ))
      end
  | Wait c k =>
      match sh_heap σ !! c with
      | Some cl => if bool_decide (wg cl = 0) then Some (k (val cl) (err cl), σ) else None
      | None => None
      end
  | Acquire sf k =>
      match sh_mu σ !! sf with
      | Some _ => None
      | None => Some (k, mkShared (sh_st σ) (sh_calls σ) (sh_heap σ) (<[sf := t]> (sh_mu σ)))
      end
  | Release sf k =>
      Some (k, mkShared (sh_st σ) (sh_calls σ) (sh_heap σ) (delete sf (sh_mu σ)))
  end.

(** The goroutines and what they share. *)
Definition config : Type := list (prog A) * shared.

Definition step (t : nat) (x : config) : option config :=
  match x.1 !! t with
  | Some p =>
      match pstep t p x.2 with
      | Some (p', σ') => Some (<[t := p']> x.1, σ')
      | None => None
      end
  | None => None
  end.

(** Goroutines that start on the state [s]. *)
Definition start (ps : list (prog A)) (s : St) : config := (ps, mkShared s ∅ [] ∅).

Lemma step_length (x x' : config) t : step t x = Some x' → length x'.1 = length x.1.
Proof.
  unfold step. destruct (x.1 !! t) as [p|]; [|done].
  destruct (pstep t p x.2) as [[p' σ']|]; [|done]. intros [= <-]. apply length_insert.
Qed.

End Execution.

Arguments shared : clear implicits.
Arguments shared St V SF {_ _}.
Arguments config : clear implicits.
Arguments config St V SF A {_ _}.

Notation exec := (exec_by step).
Notation inevitably := (inevitably_by step).

(** ** The program logic *)

(** An action that does not hang keeps [J], and its result is in [Q]. *)
Definition preserves {St X} (J : St → Prop) (m : M St X) (Q : option X → Prop) : Prop :=
  ∀ s, J s →
  match m s with
  | (Val x, s') => J s' ∧ Q (Some x)
  | (Panicked, s') => J s' ∧ Q None
  | (Diverged, _) => False
  end.

Lemma preserves_mono {St X} (J : St → Prop) (m : M St X) (Q Q' : option X → Prop) :
  (∀ x, Q x → Q' x) → preserves J m Q → preserves J m Q'.
Proof. intros HQ Hm s Hs. specialize (Hm s Hs). destruct (m s) as [[] ?]; naive_solver. Qed.

(** What a goroutine owes or awaits: nothing, the end of the call [c] it
    leads, its removal from the map, or the end of the call it joined.  A call
    in the map has a phase [φ : Γ], ghost state that only its leader changes. *)
Inductive role (SF Γ : Type) :=
| Free
| Leads (sf : SF) (key : string) (c : nat) (φ : Γ)
| Published (sf : SF) (key : string) (c : nat) (φ : Γ)
| Joins (sf : SF) (key : string) (c : nat).
Arguments Free {SF Γ}.
Arguments Leads {SF Γ}.
Arguments Published {SF Γ}.
Arguments Joins {SF Γ}.

Section Logic.
Context {St V SF Γ : Type} `{!EqDecision SF, !Countable SF}.
Notation prog := (prog St V SF).
Notation call := (call (V := V)).
Notation outcome := (outcome (V := V)).
Notation role := (role SF Γ).
Notation shared := (shared St V SF).
Notation phases := (gmap (SF * string) Γ).

(** The invariant sees the state and the phases of the calls in the maps. *)
Context (I : St → phases → Prop).
Context (R : SF → string → option V → option error → Prop).

(** A fact about the state that, once true, stays true, and a prophecy: [T]
    says that the fact is true at the end of the execution. *)
Context (stable : St → Prop) (T : Prop).

(** The results a call is left with are in [R]; a panic leaves the error the
    call was created with. *)
Definition publishes (sf : SF) (key : string) (o : outcome) : Prop :=
  match o with
  | Ret v e => R sf key v e
  | Panics => R sf key None leader_panicked
  end.

(** The phase of the goroutine's own call, and its change. *)
Definition in_phase (γ : phases) (ρ : role) : Prop :=
  match ρ with
  | Leads sf key _ φ | Published sf key _ φ => γ !! (sf, key) = Some φ
  | _ => True
  end.

Definition set_phase (φ : Γ) (ρ : role) (γ : phases) : phases :=
  match ρ with Leads sf key _ _ => <[(sf, key) := φ]> γ | _ => γ end.

Definition to_phase (φ : Γ) (ρ : role) : role :=
  match ρ with Leads sf key c _ => Leads sf key c φ | _ => ρ end.

(** The invariant holds again; a leader may change the phase of its call. *)
Definition settles (ρ : role) (γ : phases) (s' : St) (Q : role → Prop) : Prop :=
  (I s' γ ∧ Q ρ) ∨ ∃ φ, I s' (set_phase φ ρ γ) ∧ Q (to_phase φ ρ).

(** From the invariant, an action that does not hang re-establishes it and
    keeps the stable fact; if it makes the fact true, so is the prophecy. *)
Definition wp_act {X} (ρ : role) (m : M St X) (Q : role → option X → Prop) : Prop :=
  ∀ s γ, I s γ → in_phase γ ρ →
  (stable s → stable (m s).2) ∧
  ((stable (m s).2 → T) →
   match m s with
   | (Val x, s') => settles ρ γ s' (λ ρ', Q ρ' (Some x))
   | (Panicked, s') => settles ρ γ s' (λ ρ', Q ρ' None)
   | (Diverged, _) => False
   end).

(** A call starts in a phase the invariant allows, and ends in one. *)
Definition starts (sf : SF) (key : string) (φ : Γ) : Prop :=
  ∀ s γ, I s γ → γ !! (sf, key) = None → I s (<[(sf, key) := φ]> γ).

Definition stops (sf : SF) (key : string) (φ : Γ) : Prop :=
  ∀ s γ, I s γ → γ !! (sf, key) = Some φ → I s (delete (sf, key) γ).

Fixpoint wp {A} (p : prog A) (ρ : role) (h : option SF)
    (Φ : role → option SF → option A → Prop) : Prop :=
  match p with
  | Done r => Φ ρ h r
  | Hang => False
  | Act m k => wp_act ρ m (λ ρ' x, wp (k x) ρ' h Φ)
  | Enter sf key lead join =>
      ρ = Free ∧ h = None ∧
      (∃ φ, starts sf key φ ∧ ∀ c, wp (lead c) (Leads sf key c φ) None Φ) ∧
      ∀ c, wp (join c) (Joins sf key c) None Φ
  | Publish c o k =>
      ∃ sf key φ, ρ = Leads sf key c φ ∧ h = None ∧ publishes sf key o ∧
        wp k (Published sf key c φ) None Φ
  | Delete sf key k =>
      ∃ c φ, ρ = Published sf key c φ ∧ h = None ∧ stops sf key φ ∧ wp k Free None Φ
  | Wait c k =>
      ∃ sf key, ρ = Joins sf key c ∧ h = None ∧ ∀ v e, R sf key v e → wp (k v e) Free None Φ
  | Acquire sf k => h = None ∧ wp k ρ (Some sf) Φ
  | Release sf k => h = Some sf ∧ wp k ρ None Φ
  end.

Lemma wp_act_mono {X} ρ (m : M St X) (Q Q' : role → option X → Prop) :
  (∀ ρ x, Q ρ x → Q' ρ x) → wp_act ρ m Q → wp_act ρ m Q'.
Proof.
  intros HQ Hm s γ Hs Hγ. destruct (Hm s γ Hs Hγ) as [Hst HT]. split; [done|]. intros HT'.
  specialize (HT HT'). destruct (m s) as [[] ?]; unfold settles in *; naive_solver.
Qed.

Lemma wp_mono {A} (p : prog A) ρ h (Φ Φ' : role → option SF → option A → Prop) :
  (∀ ρ h r, Φ ρ h r → Φ' ρ h r) → wp p ρ h Φ → wp p ρ h Φ'.
Proof.
  intros HΦ. revert ρ h. induction p; intros ρ h; simpl; try naive_solver.
  apply wp_act_mono. naive_solver.
Qed.

Lemma wp_bindr {A B} (p : prog A) (k : option A → prog B) ρ h Φ :
  wp p ρ h (λ ρ h r, wp (k r) ρ h Φ) → wp (bindr p k) ρ h Φ.
Proof.
  revert ρ h. induction p; intros ρ h; simpl; try naive_solver.
  apply wp_act_mono. naive_solver.
Qed.

(** An action that changes no phase and is not concerned with the prophecy. *)
Definition keeps {X} (m : M St X) (Q : option X → Prop) : Prop :=
  ∀ γ, preserves (λ s, I s γ) m Q ∧ ∀ s, I s γ → stable s → stable (m s).2.

Lemma wp_act_keeps {X} ρ (m : M St X) (Q : option X → Prop) :
  keeps m Q → wp_act ρ m (λ ρ' x, ρ' = ρ ∧ Q x).
Proof.
  intros Hm s γ Hs _. destruct (Hm γ) as [Hp Hst]. specialize (Hp s Hs). split; [by apply Hst|].
  intros _. destruct (m s) as [[] ?]; [left|left|]; naive_solver.
Qed.

(** *** Triples

    [triple P p Ψ]: from a role and a mutex that satisfy [P], the goroutine
    comes back to them with a result that satisfies [Ψ]. *)

Definition triple {A} (P : role → option SF → Prop) (p : prog A) (Ψ : option A → Prop) : Prop :=
  ∀ ρ h, P ρ h → wp p ρ h (λ ρ' h' r, ρ' = ρ ∧ h' = h ∧ Ψ r).

(** Anywhere; with no mutex held; outside of every call. *)
Definition anywhere : role → option SF → Prop := λ _ _, True.
Definition unlocked : role → option SF → Prop := λ _ h, h = None.
Definition toplevel : role → option SF → Prop := λ ρ h, ρ = Free ∧ h = None.

Lemma triple_weaken {A} (P P' : role → option SF → Prop) (p : prog A) (Ψ Ψ' : option A → Prop) :
  (∀ ρ h, P' ρ h → P ρ h) → (∀ r, Ψ r → Ψ' r) → triple P p Ψ → triple P' p Ψ'.
Proof. intros HP HΨ Hp ρ h Hρ. eapply wp_mono; [|apply Hp; auto]. naive_solver. Qed.

Lemma triple_done {A} P (r : option A) (Ψ : option A → Prop) : Ψ r → triple P (Done r) Ψ.
Proof. intros Hr ρ h _. by simpl. Qed.

Lemma triple_ret {A} P (a : A) (Ψ : option A → Prop) : Ψ (Some a) → triple P (mret a) Ψ.
Proof. apply triple_done. Qed.

Lemma triple_wp_act {X} P (m : M St X) (Ψ : option X → Prop) :
  (∀ ρ, wp_act ρ m (λ ρ' x, ρ' = ρ ∧ Ψ x)) → triple P (act m) Ψ.
Proof. intros Hm ρ h _. simpl. eapply wp_act_mono; [|by apply Hm]. naive_solver. Qed.

Lemma triple_act {X} P (m : M St X) (Ψ : option X → Prop) : keeps m Ψ → triple P (act m) Ψ.
Proof. intros Hm. apply triple_wp_act. intros ρ. by apply wp_act_keeps. Qed.

Lemma triple_bindr {A B} P (p : prog A) (k : option A → prog B) (Ψ : option A → Prop) Θ :
  triple P p Ψ → (∀ r, Ψ r → triple P (k r) Θ) → triple P (bindr p k) Θ.
Proof.
  intros Hp Hk ρ h Hρ. apply wp_bindr. eapply wp_mono; [|by apply Hp].
  intros ρ' h' r (-> & -> & Hr). by apply Hk.
Qed.

(** [Θ None] says whether a panic is allowed. *)
Lemma triple_bind {A B} P (p : prog A) (f : A → prog B) (Ψ : option A → Prop) (Θ : option B → Prop) :
  triple P p Ψ → (Ψ None → Θ None) → (∀ a, Ψ (Some a) → triple P (f a) Θ) →
  triple P (p ≫= f) Θ.
Proof.
  intros Hp Hn Hf. eapply triple_bindr; [done|]. intros [a|] Hr; [by apply Hf|].
  by apply triple_done, Hn.
Qed.

Lemma triple_for_each {A B} P (f : A → prog B) (Θ : option B → Prop) l :
  (∀ x, x ∈ l → triple P (f x) Θ) →
  triple P (for_each_go f l) (λ r, match r with Some ys => Forall (λ y, Θ (Some y)) ys | None => Θ None end).
Proof.
  induction l as [|x l IH]; intros Hf; simpl; [apply triple_ret; constructor|].
  eapply triple_bind; [apply Hf; by left|done|]. intros y Hy.
  eapply triple_bind; [apply IH; intros; apply Hf; by right|done|]. intros ys Hys.
  apply triple_ret. by constructor.
Qed.

Lemma triple_Lock {X} sf (fn : prog X) Ψ : triple anywhere fn Ψ → triple unlocked (Lock sf fn) Ψ.
Proof.
  intros Hfn ρ h ->. split; [done|]. apply wp_bindr. eapply wp_mono; [|by apply Hfn].
  intros ρ' h' r (-> & -> & Hr). simpl. done.
Qed.

(** [Do]: the function publishes results in [R]; the caller gets what the
    function assigned, or what [R] says. *)
Lemma wp_Do {X} sf key (fn : prog (X * (option V * option error))) φ0
    (Ψ : Γ → option (X * (option V * option error)) → Prop)
    (Θ : option (option X * (option V * option error)) → Prop) :
  starts sf key φ0 →
  (∀ c, wp fn (Leads sf key c φ0) None (λ ρ' h' r, ∃ φ, ρ' = Leads sf key c φ ∧ h' = None ∧ Ψ φ r)) →
  (∀ φ r, Ψ φ r → stops sf key φ ∧ publishes sf key (outcome_of r) ∧
    Θ ((λ '(x, ve), (Some x, ve)) <$> r)) →
  (∀ v e, R sf key v e → Θ (Some (None, (v, e)))) →
  triple toplevel (Do sf key fn) Θ.
Proof.
  intros Hst Hfn Hlead Hjoin ρ h [-> ->]. split_and!; [done..| |].
  - exists φ0. split; [done|]. intros c. apply wp_bindr. eapply wp_mono; [|by apply Hfn].
    intros ρ' h' r (φ & -> & -> & Hr). destruct (Hlead φ r Hr) as (? & ? & ?).
    exists sf, key, φ. split_and!; [done..|]. exists c, φ. split_and!; [done..|]. by simpl.
  - intros c. exists sf, key. split_and!; [done..|]. simpl. auto.
Qed.

(** When the invariant ignores the phases. *)
Lemma triple_Do {X} sf key (fn : prog (X * (option V * option error))) (φ0 : Γ)
    (Ψ : option (X * (option V * option error)) → Prop)
    (Θ : option (option X * (option V * option error)) → Prop) :
  (∀ s γ γ', I s γ → I s γ') →
  triple unlocked fn Ψ →
  (∀ r, Ψ r → publishes sf key (outcome_of r)) →
  (∀ r, Ψ r → Θ ((λ '(x, ve), (Some x, ve)) <$> r)) →
  (∀ v e, R sf key v e → Θ (Some (None, (v, e)))) →
  triple toplevel (Do sf key fn) Θ.
Proof.
  intros HI Hfn Hpub Hlead Hjoin.
  apply (wp_Do _ _ _ φ0 (λ _, Ψ)); [intros ? ? ? _; by eapply HI| | |done].
  - intros c. eapply wp_mono; [|by apply Hfn]. intros ρ' h' r (-> & -> & Hr). by exists φ0.
  - intros φ r Hr. split_and!; [intros ? ? ? _; by eapply HI|auto|auto].
Qed.

(** ** Soundness *)

Context {A : Type}.
Notation config := (config St V SF A).
Context (Φ : nat → option A → Prop).

(** The call a goroutine has in the map, and the one others wait for. *)
Definition in_map (ρ : role) : option (SF * string * nat) :=
  match ρ with
  | Leads sf key c _ | Published sf key c _ => Some (sf, key, c)
  | _ => None
  end.

Definition leading (ρ : role) : option nat :=
  match ρ with Leads _ _ c _ => Some c | _ => None end.

(** The ghost state: for each entry of the heap the leader, the singleflight
    group and the key of the call, and the phases of the calls in the maps. *)
Definition role_ok (G : list (nat * SF * string)) (γ : phases) (σ : shared) (t : nat) (ρ : role) : Prop :=
  in_phase γ ρ ∧
  match ρ with
  | Free => True
  | Leads sf key c _ =>
      sh_calls σ !! (sf, key) = Some c ∧ G !! c = Some (t, sf, key) ∧
      sh_heap σ !! c = Some (mkCall 1 None leader_panicked)
  | Published sf key c _ => sh_calls σ !! (sf, key) = Some c ∧ G !! c = Some (t, sf, key)
  | Joins sf key c => ∃ t', G !! c = Some (t', sf, key)
  end.

(** At the end of its program a goroutine owes nothing. *)
Definition goal (t : nat) (ρ : role) (h : option SF) (r : option A) : Prop :=
  ρ = Free ∧ h = None ∧ Φ t r.

Record ginv (gs : list (role * option SF)) (G : list (nat * SF * string)) (γ : phases) (x : config) : Prop := {
  gi_st : I (sh_st x.2) γ;
  gi_phases k : is_Some (γ !! k) → is_Some (sh_calls x.2 !! k);
  gi_gs : length gs = length x.1;
  gi_G : length G = length (sh_heap x.2);
  gi_thread t p ρ h : x.1 !! t = Some p → gs !! t = Some (ρ, h) →
    wp p ρ h (goal t) ∧ role_ok G γ x.2 t ρ;
  gi_mu sf t : sh_mu x.2 !! sf = Some t ↔ ∃ ρ, gs !! t = Some (ρ, Some sf);
  gi_calls sf key c : sh_calls x.2 !! (sf, key) = Some c →
    ∃ t ρ h, gs !! t = Some (ρ, h) ∧ in_map ρ = Some (sf, key, c);
  gi_heap c cl t sf key : sh_heap x.2 !! c = Some cl → G !! c = Some (t, sf, key) →
    (wg cl = 0 ∧ R sf key (val cl) (err cl)) ∨
    (∃ ρ h, gs !! t = Some (ρ, h) ∧ leading ρ = Some c);
}.

(** What one goroutine's move from [ρ] to [ρ'] must establish. *)
Record moves (G G' : list (nat * SF * string)) (γ γ' : phases) (σ σ' : shared) (t : nat)
    (ρ ρ' : role) (h' : option SF) : Prop := {
  mv_st : I (sh_st σ') γ';
  mv_phases k : is_Some (γ' !! k) → is_Some (sh_calls σ' !! k);
  mv_G : length G' = length (sh_heap σ');
  mv_role : role_ok G' γ' σ' t ρ';
  mv_mu sf : sh_mu σ' !! sf = Some t ↔ h' = Some sf;
  mv_mu_other sf t' : t' ≠ t → sh_mu σ' !! sf = Some t' ↔ sh_mu σ !! sf = Some t';
  mv_other t' ρ0 : t' ≠ t → role_ok G γ σ t' ρ0 → role_ok G' γ' σ' t' ρ0;
  mv_calls sf key c : sh_calls σ' !! (sf, key) = Some c →
    in_map ρ' = Some (sf, key, c) ∨
    sh_calls σ !! (sf, key) = Some c ∧ in_map ρ ≠ Some (sf, key, c);
  mv_heap c cl t' sf key : sh_heap σ' !! c = Some cl → G' !! c = Some (t', sf, key) →
    (wg cl = 0 ∧ R sf key (val cl) (err cl)) ∨ (t' = t ∧ leading ρ' = Some c) ∨
    (sh_heap σ !! c = Some cl ∧ G !! c = Some (t', sf, key) ∧ leading ρ ≠ Some c);
}.

Lemma ginv_moves gs G G' γ γ' ps σ σ' t p p' ρ h ρ' h' :
  ginv gs G γ (ps, σ) → ps !! t = Some p → gs !! t = Some (ρ, h) →
  moves G G' γ γ' σ σ' t ρ ρ' h' → wp p' ρ' h' (goal t) →
  ginv (<[t := (ρ', h')]> gs) G' γ' (<[t := p']> ps, σ').
Proof.
  intros Hi Hp Hg Hm Hwp. pose proof (lookup_lt_Some _ _ _ Hg) as Hlt.
  split; simpl.
  - apply Hm.
  - apply Hm.
  - rewrite !length_insert. apply Hi.
  - apply Hm.
  - intros t' q ρ0 h0 [(<- & <- & _)|[Hne Hq]]%list_lookup_insert_Some Hg0.
    + rewrite list_lookup_insert_eq in Hg0 by done. simplify_eq. split; [done|apply Hm].
    + rewrite list_lookup_insert_ne in Hg0 by done.
      destruct (gi_thread _ _ _ _ Hi _ _ _ _ Hq Hg0) as [? Hr]. split; [done|].
      by apply (mv_other _ _ _ _ _ _ _ _ _ _ Hm).
  - intros sf t'. destruct (decide (t' = t)) as [->|Hne].
    + rewrite (mv_mu _ _ _ _ _ _ _ _ _ _ Hm), list_lookup_insert_eq by done. naive_solver.
    + rewrite (mv_mu_other _ _ _ _ _ _ _ _ _ _ Hm), list_lookup_insert_ne by done.
      apply (gi_mu _ _ _ _ Hi).
  - intros sf key c [Hc|[Hc Hn]]%(mv_calls _ _ _ _ _ _ _ _ _ _ Hm).
    + exists t, ρ', h'. by rewrite list_lookup_insert_eq.
    + destruct (gi_calls _ _ _ _ Hi _ _ _ Hc) as (t' & ρ0 & h0 & Hg0 & Hin).
      exists t', ρ0, h0. rewrite list_lookup_insert_ne; [done|]. intros <-. simplify_eq.
  - intros c cl t' sf key Hcl HG.
    destruct (mv_heap _ _ _ _ _ _ _ _ _ _ Hm _ _ _ _ _ Hcl HG) as [?|[[-> ?]|(Hcl0 & HG0 & Hn)]].
    + by left.
    + right. exists ρ', h'. by rewrite list_lookup_insert_eq.
    + destruct (gi_heap _ _ _ _ Hi _ _ _ _ _ Hcl0 HG0) as [?|(ρ0 & h0 & Hg0 & Hl)]; [by left|right].
      exists ρ0, h0. rewrite list_lookup_insert_ne; [done|]. intros <-. simplify_eq.
Qed.

(** The goroutine behind an entry of the ghost list. *)
Lemma ginv_owner gs G γ ps σ t ρ h :
  ginv gs G γ (ps, σ) → gs !! t = Some (ρ, h) →
  ∃ p, ps !! t = Some p ∧ wp p ρ h (goal t) ∧ role_ok G γ σ t ρ.
Proof.
  intros Hi Hg. destruct (lookup_lt_is_Some_2 ps t) as [p Hp].
  { rewrite <-(gi_gs _ _ _ _ Hi : _ = length ps). by eapply lookup_lt_Some. }
  exists p. split; [done|]. by apply (gi_thread _ _ _ _ Hi).
Qed.

Lemma ginv_ghost gs G γ ps σ t p :
  ginv gs G γ (ps, σ) → ps !! t = Some p →
  ∃ ρ h, gs !! t = Some (ρ, h) ∧ wp p ρ h (goal t) ∧ role_ok G γ σ t ρ.
Proof.
  intros Hi Hp. destruct (lookup_lt_is_Some_2 gs t) as [[ρ h] Hg].
  { rewrite (gi_gs _ _ _ _ Hi : _ = length ps). by eapply lookup_lt_Some. }
  exists ρ, h. split; [done|]. by apply (gi_thread _ _ _ _ Hi).
Qed.

Lemma role_ok_same G γ σ σ' t ρ :
  sh_calls σ' = sh_calls σ → sh_heap σ' = sh_heap σ → role_ok G γ σ t ρ → role_ok G γ σ' t ρ.
Proof. unfold role_ok. by intros -> ->. Qed.

(** Phases of other calls do not matter to a goroutine. *)
Lemma role_ok_phases G γ γ' σ t ρ :
  (∀ sf key c, in_map ρ = Some (sf, key, c) → γ' !! (sf, key) = γ !! (sf, key)) →
  role_ok G γ σ t ρ → role_ok G γ' σ t ρ.
Proof.
  intros Hγ [Hp Hr]. split; [|done]. destruct ρ; simpl in *; try done; by rewrite (Hγ _ _ _ eq_refl).
Qed.

(** Two goroutines do not share a call of the maps. *)
Lemma in_map_other G γ σ t t' ρ ρ' sf key c c' :
  t' ≠ t → role_ok G γ σ t ρ → role_ok G γ σ t' ρ' →
  in_map ρ = Some (sf, key, c) → in_map ρ' ≠ Some (sf, key, c').
Proof.
  intros Hne [_ Hr] [_ Hr'] Hin Hin'.
  assert (sh_calls σ !! (sf, key) = Some c ∧ G !! c = Some (t, sf, key)) as [Hc HG]
    by (destruct ρ; naive_solver).
  assert (sh_calls σ !! (sf, key) = Some c' ∧ G !! c' = Some (t', sf, key)) as [Hc' HG']
    by (destruct ρ'; naive_solver).
  congruence.
Qed.

Lemma mu_self gs G γ ps σ t ρ h sf :
  ginv gs G γ (ps, σ) → gs !! t = Some (ρ, h) → sh_mu σ !! sf = Some t ↔ h = Some sf.
Proof. intros Hi Hg. rewrite (gi_mu _ _ _ _ Hi sf t : sh_mu σ !! sf = Some t ↔ _). naive_solver. Qed.

(** Moves that touch neither the calls nor the maps. *)
Lemma moves_quiet gs G γ γ' ps σ σ' t p ρ h ρ' h' :
  ginv gs G γ (ps, σ) → ps !! t = Some p → gs !! t = Some (ρ, h) →
  I (sh_st σ') γ' → sh_calls σ' = sh_calls σ → sh_heap σ' = sh_heap σ →
  in_map ρ' = in_map ρ → leading ρ' = leading ρ → role_ok G γ' σ t ρ' →
  (∀ k, is_Some (γ' !! k) → is_Some (γ !! k)) →
  (∀ t' ρ0, t' ≠ t → role_ok G γ σ t' ρ0 → role_ok G γ' σ t' ρ0) →
  (∀ sf, sh_mu σ' !! sf = Some t ↔ h' = Some sf) →
  (∀ sf t', t' ≠ t → sh_mu σ' !! sf = Some t' ↔ sh_mu σ !! sf = Some t') →
  moves G G γ γ' σ σ' t ρ ρ' h'.
Proof.
  intros Hi Hp Hg HI Hc Hh Hin Hl Hr Hdom Hother Hmu Hmu'.
  destruct (gi_thread _ _ _ _ Hi _ _ _ _ Hp Hg) as [_ Hrole].
  split; [done| | | |done|done| | |].
  - intros k Hk. rewrite Hc. by apply (gi_phases _ _ _ _ Hi), Hdom.
  - rewrite Hh. apply (gi_G _ _ _ _ Hi).
  - by eapply role_ok_same.
  - intros t' ρ0 Hne Hr0. eapply role_ok_same; [done..|]. by apply Hother.
  - intros sf key c. rewrite Hc, Hin. destruct (decide (in_map ρ = Some (sf, key, c))); auto.
  - intros c cl t' sf key. rewrite Hh, Hl. intros Hcl HG. right.
    destruct (decide (leading ρ = Some c)) as [Hlc|]; [left|by right].
    destruct Hrole as [_ Hrole]. destruct ρ; naive_solver.
Qed.

(** An action on the state, with a change of phase or without. *)
Lemma moves_act gs G γ ps σ t p ρ h s Q :
  ginv gs G γ (ps, σ) → ps !! t = Some p → gs !! t = Some (ρ, h) → settles ρ γ s Q →
  ∃ γ' ρ', moves G G γ γ' σ (with_st s σ) t ρ ρ' h ∧ Q ρ'.
Proof.
  intros Hi Hp Hg Hs.
  destruct (gi_thread _ _ _ _ Hi _ _ _ _ Hp Hg) as [_ Hr].
  assert (∀ γ' ρ', I s γ' → in_map ρ' = in_map ρ → leading ρ' = leading ρ → role_ok G γ' σ t ρ' →
    (∀ k, is_Some (γ' !! k) → is_Some (γ !! k)) →
    (∀ t' ρ0, t' ≠ t → role_ok G γ σ t' ρ0 → role_ok G γ' σ t' ρ0) →
    moves G G γ γ' σ (with_st s σ) t ρ ρ' h) as Hmv.
  { intros γ' ρ' ? ? ? ? ? ?. eapply moves_quiet; try done.
    intros sf. apply (mu_self _ _ _ _ _ _ _ _ _ Hi Hg). }
  destruct Hs as [[HI HQ]|(φ & HI & HQ)]; [exists γ, ρ; split; [by apply Hmv|done]|].
  destruct ρ as [|sf key c φ0|sf key c φ0|sf key c]; simpl in HI, HQ;
    [exists γ, Free; split; [by apply Hmv|done]| |exists γ, (Published sf key c φ0); split; [by apply Hmv|done]
    |exists γ, (Joins sf key c); split; [by apply Hmv|done]].
  exists (<[(sf, key) := φ]> γ), (Leads sf key c φ). split; [|done]. apply Hmv; try done.
  - split; simpl; [by rewrite lookup_insert_eq|apply Hr].
  - intros k. rewrite lookup_insert_is_Some'. intros [<-|?]; [|done]. destruct Hr as [Hφ _]. by eexists.
  - intros t' ρ0 Hne Hr0. eapply role_ok_phases; [|done]. intros sf' key' c' Hin.
    rewrite lookup_insert_ne; [done|]. intros [= <- <-].
    exact (in_map_other _ _ _ _ _ _ _ _ _ _ _ Hne Hr Hr0 eq_refl Hin).
Qed.

Lemma moves_acquire gs G γ ps σ t p ρ sf :
  ginv gs G γ (ps, σ) → ps !! t = Some p → gs !! t = Some (ρ, None) → sh_mu σ !! sf = None →
  moves G G γ γ σ (mkShared (sh_st σ) (sh_calls σ) (sh_heap σ) (<[sf := t]> (sh_mu σ))) t ρ ρ (Some sf).
Proof.
  intros Hi Hp Hg Hfree. eapply moves_quiet; try done; simpl.
  - apply Hi.
  - by apply (gi_thread _ _ _ _ Hi _ _ _ _ Hp Hg).
  - intros sf'. rewrite lookup_insert_Some.
    rewrite (mu_self _ _ _ _ _ _ _ _ _ Hi Hg). naive_solver.
  - intros sf' t' Hne. rewrite lookup_insert_Some. split; [naive_solver|].
    intros Hmu. right. split; [|done]. congruence.
Qed.

Lemma moves_release gs G γ ps σ t p ρ sf :
  ginv gs G γ (ps, σ) → ps !! t = Some p → gs !! t = Some (ρ, Some sf) →
  moves G G γ γ σ (mkShared (sh_st σ) (sh_calls σ) (sh_heap σ) (delete sf (sh_mu σ))) t ρ ρ None.
Proof.
  intros Hi Hp Hg. pose proof (mu_self _ _ _ _ _ _ _ _ sf Hi Hg) as Hown.
  eapply moves_quiet; try done; simpl.
  - apply Hi.
  - by apply (gi_thread _ _ _ _ Hi _ _ _ _ Hp Hg).
  - intros sf'. rewrite lookup_delete_Some, (mu_self _ _ _ _ _ _ _ _ _ Hi Hg). naive_solver.
  - intros sf' t' Hne. rewrite lookup_delete_Some. split; [naive_solver|].
    intros Hmu. split; [|done]. intros <-. naive_solver.
Qed.

(** A new call, its results, its removal. *)
Lemma moves_lead gs G γ ps σ t p sf key φ :
  ginv gs G γ (ps, σ) → ps !! t = Some p → gs !! t = Some (Free, None) →
  sh_calls σ !! (sf, key) = None → starts sf key φ →
  moves G (G ++ [(t, sf, key)]) γ (<[(sf, key) := φ]> γ) σ
    (mkShared (sh_st σ) (<[(sf, key) := length (sh_heap σ)]> (sh_calls σ))
       (sh_heap σ ++ [mkCall 1 None leader_panicked]) (sh_mu σ))
    t Free (Leads sf key (length (sh_heap σ)) φ) None.
Proof.
  intros Hi Hp Hg Hnone Hst. pose proof (gi_G _ _ _ _ Hi) as Hlen. simpl in Hlen.
  split; simpl; [| | | | |done| | |].
  - apply Hst; [apply Hi|]. apply eq_None_not_Some. intros Hk.
    apply (gi_phases _ _ _ _ Hi) in Hk as [c Hc]. simpl in Hc. congruence.
  - intros k. rewrite !lookup_insert_is_Some'. intros [?|Hk]; [by left|right].
    by apply (gi_phases _ _ _ _ Hi) in Hk.
  - rewrite !length_app. simpl. lia.
  - split; simpl; [by rewrite lookup_insert_eq|].
    rewrite lookup_insert_eq, <-Hlen, !list_lookup_middle by done. done.
  - intros sf'. by apply (mu_self _ _ _ _ _ _ _ _ _ Hi Hg).
  - intros t' ρ0 Hne [Hγ Hr0]. destruct ρ0 as [|sf' key' c φ0|sf' key' c φ0|sf' key' c]; simpl in *.
    + done.
    + destruct Hr0 as (? & ? & ?). split; simpl; rewrite lookup_insert_ne by congruence; [done|].
      split_and!; [done|..]. all: by apply lookup_app_l_Some.
    + destruct Hr0 as (? & ?). split; simpl; rewrite lookup_insert_ne by congruence; [done|].
      split; [done|]. by apply lookup_app_l_Some.
    + destruct Hr0 as (t0 & ?). split; [done|]. exists t0. by apply lookup_app_l_Some.
  - intros sf' key' c [[[= -> ->] <-]|[_ Hc]]%lookup_insert_Some; auto.
  - intros c cl t' sf' key' [[_ Hcl]|[-> <-]]%lookup_snoc_Some HG.
    + right; right. rewrite lookup_app_l in HG by (rewrite Hlen; by eapply lookup_lt_Some). done.
    + right; left. rewrite <-Hlen, list_lookup_middle in HG by done. by simplify_eq.
Qed.

Lemma moves_publish gs G γ ps σ t p sf key c φ o :
  ginv gs G γ (ps, σ) → ps !! t = Some p → gs !! t = Some (Leads sf key c φ, None) →
  publishes sf key o →
  moves G G γ γ σ
    (mkShared (sh_st σ) (sh_calls σ)
       (<[c := finish o (mkCall 1 None leader_panicked)]> (sh_heap σ)) (sh_mu σ))
    t (Leads sf key c φ) (Published sf key c φ) None.
Proof.
  intros Hi Hp Hg Ho. destruct (gi_thread _ _ _ _ Hi _ _ _ _ Hp Hg) as [_ (Hφ & Hc & HG & Hh)].
  split; simpl; [apply Hi|apply (gi_phases _ _ _ _ Hi)| |by split| |done| | |].
  - rewrite length_insert. apply (gi_G _ _ _ _ Hi).
  - intros sf'. by apply (mu_self _ _ _ _ _ _ _ _ _ Hi Hg).
  - intros t' ρ0 Hne [Hγ Hr0]. split; [done|].
    destruct ρ0 as [|sf' key' c' φ0|sf' key' c' φ0|sf' key' c']; simpl; try done.
    destruct Hr0 as (? & HG' & ?). rewrite list_lookup_insert_ne; [done|]. intros <-. congruence.
  - intros sf' key' c' Hc'. destruct (decide ((sf', key', c') = (sf, key, c))) as [[= -> -> ->]|Hne]; [by left|].
    right. split; [done|]. congruence.
  - intros c' cl t' sf' key' [(<- & <- & _)|[Hne Hcl]]%list_lookup_insert_Some HG'.
    + left. rewrite HG in HG'. injection HG' as <- <- <-. by destruct o.
    + right; right. split_and!; [done..|congruence].
Qed.

Lemma moves_delete gs G γ ps σ t p sf key c φ :
  ginv gs G γ (ps, σ) → ps !! t = Some p → gs !! t = Some (Published sf key c φ, None) →
  stops sf key φ →
  moves G G γ (delete (sf, key) γ) σ
    (mkShared (sh_st σ) (delete (sf, key) (sh_calls σ)) (sh_heap σ) (sh_mu σ))
    t (Published sf key c φ) Free None.
Proof.
  intros Hi Hp Hg Hst. destruct (gi_thread _ _ _ _ Hi _ _ _ _ Hp Hg) as [_ Hr].
  pose proof Hr as (Hφ & Hc & HG).
  split; simpl; [|  |apply (gi_G _ _ _ _ Hi)|by split| |done| | |].
  - apply Hst; [apply Hi|done].
  - intros k. rewrite !lookup_delete_is_Some. intros [? Hk]. split; [done|].
    by apply (gi_phases _ _ _ _ Hi) in Hk.
  - intros sf'. by apply (mu_self _ _ _ _ _ _ _ _ _ Hi Hg).
  - intros t' ρ0 Hne Hr0.
    assert (∀ sf' key' c', in_map ρ0 = Some (sf', key', c') → (sf, key) ≠ (sf', key')) as Hother.
    { intros sf' key' c' Hin [= <- <-].
      exact (in_map_other _ _ _ _ _ _ _ _ _ _ _ Hne Hr Hr0 eq_refl Hin). }
    destruct Hr0 as [Hγ Hr0].
    destruct ρ0 as [|sf' key' c' φ0|sf' key' c' φ0|sf' key' c']; (split; [|]); simpl in *; try done.
    all: specialize (Hother _ _ _ eq_refl); by rewrite lookup_delete_ne.
  - intros sf' key' c' [Hne Hc']%lookup_delete_Some. right. split; [done|]. intros [= -> -> ->]. done.
  - intros c' cl t' sf' key' Hcl HG'. right; right. done.
Qed.

(** Joining a call in flight, and taking its results. *)
Lemma moves_join gs G γ ps σ t p sf key c :
  ginv gs G γ (ps, σ) → ps !! t = Some p → gs !! t = Some (Free, None) →
  sh_calls σ !! (sf, key) = Some c → moves G G γ γ σ σ t Free (Joins sf key c) None.
Proof.
  intros Hi Hp Hg Hc. destruct (gi_calls _ _ _ _ Hi _ _ _ Hc) as (t' & ρ0 & h0 & Hg0 & Hin).
  destruct (ginv_owner _ _ _ _ _ _ _ _ Hi Hg0) as (q & _ & _ & _ & Hr0).
  eapply moves_quiet; try done.
  - apply Hi.
  - split; [done|]. exists t'. destruct ρ0; naive_solver.
  - intros sf'. apply (mu_self _ _ _ _ _ _ _ _ _ Hi Hg).
Qed.

Lemma moves_wait gs G γ ps σ t p sf key c cl :
  ginv gs G γ (ps, σ) → ps !! t = Some p → gs !! t = Some (Joins sf key c, None) →
  sh_heap σ !! c = Some cl → wg cl = 0 →
  R sf key (val cl) (err cl) ∧ moves G G γ γ σ σ t (Joins sf key c) Free None.
Proof.
  intros Hi Hp Hg Hcl Hwg. destruct (gi_thread _ _ _ _ Hi _ _ _ _ Hp Hg) as [_ (_ & t' & HG)].
  split.
  - destruct (gi_heap _ _ _ _ Hi _ _ _ _ _ Hcl HG) as [[_ ?]|(ρ0 & h0 & Hg0 & Hl)]; [done|].
    destruct (ginv_owner _ _ _ _ _ _ _ _ Hi Hg0) as (q & _ & _ & _ & Hr0).
    destruct ρ0; simplify_eq/=. destruct Hr0 as (_ & _ & Hcl'). by simplify_eq.
  - eapply moves_quiet; try done; [apply Hi|].
    intros sf'. apply (mu_self _ _ _ _ _ _ _ _ _ Hi Hg).
Qed.

(** Every action keeps the invariant. *)
Lemma ginv_pstep gs G γ ps σ t p ρ h p' σ' :
  ginv gs G γ (ps, σ) → ps !! t = Some p → gs !! t = Some (ρ, h) → wp p ρ h (goal t) →
  role_ok G γ σ t ρ → pstep t p σ = Some (p', σ') →
  (stable (sh_st σ') → T) →
  ∃ G' γ' ρ' h', moves G G' γ γ' σ σ' t ρ ρ' h' ∧ wp p' ρ' h' (goal t).
Proof.
  intros Hi Hp Hg Hwp [Hφ Hr] Hs HT.
  destruct p as [r| |X m k|sf key lead join|c o k|sf key k|c k|sf k|sf k]; simpl in Hs, Hwp; try done.
  - destruct (Hwp _ _ (gi_st _ _ _ _ Hi) Hφ) as [_ Hact]. simpl in Hact. clear Hwp.
    assert (stable (m (sh_st σ)).2 → T) as HT' by (destruct (m (sh_st σ)) as [[] ?]; by simplify_eq/=).
    specialize (Hact HT'). rename Hact into Hwp.
    destruct (m (sh_st σ)) as [[x| |] s]; [..|done]; simplify_eq.
    all: destruct (moves_act _ _ _ _ _ _ _ _ _ _ _ Hi Hp Hg Hwp) as (γ' & ρ' & ? & ?); by exists G, γ', ρ', h.
  - destruct Hwp as (-> & -> & (φ & Hst & Hlead) & Hjoin). destruct (sh_mu σ !! sf); [done|].
    destruct (sh_calls σ !! (sf, key)) as [c|] eqn:Hc; simplify_eq.
    + exists G, γ, (Joins sf key c), None. split; [by eapply moves_join|apply Hjoin].
    + eexists _, _, _, None. split; [by eapply moves_lead|]. apply Hlead.
  - destruct Hwp as (sf & key & φ & -> & -> & Ho & Hwp). destruct Hr as (_ & _ & Hh).
    rewrite Hh in Hs. simplify_eq. eexists G, γ, _, None. split; [by eapply moves_publish|done].
  - destruct Hwp as (c & φ & -> & -> & Hst & Hwp). destruct (sh_mu σ !! sf); [done|]. simplify_eq.
    eexists G, _, _, None. split; [by eapply moves_delete|done].
  - destruct Hwp as (sf & key & -> & -> & Hwp).
    destruct (sh_heap σ !! c) as [cl|] eqn:Hcl; [|done]. case_bool_decide as Hwg; [|done]. simplify_eq.
    destruct (moves_wait _ _ _ _ _ _ _ _ _ _ _ Hi Hp Hg Hcl Hwg) as [HR Hm].
    exists G, γ, Free, None. split; [done|by apply Hwp].
  - destruct Hwp as (-> & Hwp). destruct (sh_mu σ !! sf) eqn:Hmu; [done|]. simplify_eq.
    exists G, γ, ρ, (Some sf). split; [by eapply moves_acquire|done].
  - destruct Hwp as (-> & Hwp). simplify_eq.
    exists G, γ, ρ, None. split; [by eapply moves_release|done].
Qed.

Lemma ginv_step gs G γ x t x' :
  ginv gs G γ x → step t x = Some x' → (stable (sh_st x'.2) → T) →
  ∃ gs' G' γ', ginv gs' G' γ' x'.
Proof.
  destruct x as [ps σ]. intros Hi. unfold step. simpl.
  destruct (ps !! t) as [p|] eqn:Hp; [|done].
  destruct (ginv_ghost _ _ _ _ _ _ _ Hi Hp) as (ρ & h & Hg & Hwp & Hr).
  destruct (pstep t p σ) as [[p' σ']|] eqn:Hs; [|done]. intros [= <-] HT.
  destruct (ginv_pstep _ _ _ _ _ _ _ _ _ _ _ Hi Hp Hg Hwp Hr Hs HT) as (G' & γ' & ρ' & h' & Hm & Hw).
  eexists _, G', γ'. by eapply ginv_moves.
Qed.

(** Every action keeps the stable fact. *)
Lemma ginv_stable gs G γ x t x' :
  ginv gs G γ x → step t x = Some x' → stable (sh_st x.2) → stable (sh_st x'.2).
Proof.
  destruct x as [ps σ]. intros Hi. unfold step. simpl.
  destruct (ps !! t) as [p|] eqn:Hp; [|done].
  destruct (ginv_ghost _ _ _ _ _ _ _ Hi Hp) as (ρ & h & _ & Hwp & [Hφ _]).
  destruct (pstep t p σ) as [[p' σ']|] eqn:Hs; [|done]. intros [= <-]. simpl.
  destruct p as [r| |X m k|sf key lead join|c o k|sf key k|c k|sf k|sf k]; simpl in Hs; try done.
  { destruct (Hwp _ _ (gi_st _ _ _ _ Hi) Hφ) as [Hst _]. simpl in Hst.
    destruct (m (sh_st σ)) as [[] ?]; by simplify_eq/=. }
  all: repeat case_match; by simplify_eq/=.
Qed.

(** A mutex is released by the goroutine that holds it. *)
Lemma ginv_release gs G γ x t sf k :
  ginv gs G γ x → x.1 !! t = Some (Release sf k) → sh_mu x.2 !! sf = Some t.
Proof.
  destruct x as [ps σ]. intros Hi Hp.
  destruct (ginv_ghost _ _ _ _ _ _ _ Hi Hp) as (ρ & h & Hg & [-> _] & _).
  apply (gi_mu _ _ _ _ Hi). by exists ρ.
Qed.

(** Goroutines that start with nothing in flight. *)
Lemma ginv_start ps s :
  I s ∅ → (∀ t p, ps !! t = Some p → triple toplevel p (Φ t)) →
  ginv (replicate (length ps) (Free, None)) [] ∅ (start ps s).
Proof.
  intros Hs Hp. split; simpl; try done.
  - intros k [φ Hk]. by rewrite lookup_empty in Hk.
  - by rewrite length_replicate.
  - intros t p ρ h Ht [[= -> ->] _]%lookup_replicate. split; [|done].
    eapply wp_mono; [|by apply (Hp t p Ht)]. done.
  - intros sf t. rewrite lookup_empty. split; [done|].
    by intros (ρ & [[=] _]%lookup_replicate).
Qed.

(** *** Progress *)

Definition returned {B} (p : prog B) : Prop := match p with Done _ => True | _ => False end.

#[global] Instance returned_dec {B} (p : prog B) : Decision (returned p).
Proof. destruct p; solve_decision. Defined.

Definition waits_for {B} (c : nat) (p : prog B) : Prop :=
  match p with Wait c' _ => c' = c | _ => False end.

(** With the mutexes free, only the end of the program or an unfinished call
    stops a goroutine. *)
Lemma wp_enabled G γ σ t p ρ h :
  sh_mu σ = ∅ → role_ok G γ σ t ρ → wp p ρ h (goal t) →
  is_Some (pstep t p σ) ∨ (returned p ∧ ρ = Free) ∨
  ∃ sf key c, waits_for c p ∧ ρ = Joins sf key c.
Proof.
  intros Hmu [_ Hr] Hwp.
  destruct p as [r| |X m k|sf key lead join|c o k|sf key k|c k|sf k|sf k]; simpl in *;
    rewrite ?Hmu, ?lookup_empty.
  - right; left. split; [done|]. apply Hwp.
  - done.
  - left. by eexists.
  - left. destruct (sh_calls σ !! (sf, key)); by eexists.
  - left. destruct Hwp as (sf & key & φ & -> & _). destruct Hr as (_ & _ & ->). by eexists.
  - left. by eexists.
  - right; right. destruct Hwp as (sf & key & -> & _). by exists sf, key, c.
  - left. by eexists.
  - left. by eexists.
Qed.

Lemma holder_enabled σ t p ρ sf : wp p ρ (Some sf) (goal t) → is_Some (pstep t p σ).
Proof.
  intros Hwp. destruct p as [r| |X m k|sf' key lead join|c o k|sf' key k|c k|sf' k|sf' k]; simpl in *.
  - by destruct Hwp as (_ & ? & _).
  - done.
  - by eexists.
  - by destruct Hwp as (_ & ? & _).
  - by destruct Hwp as (? & ? & ? & _ & ? & _).
  - by destruct Hwp as (? & ? & _ & ? & _).
  - by destruct Hwp as (? & ? & _ & ? & _).
  - by destruct Hwp as (? & _).
  - by eexists.
Qed.

(** While a goroutine has not returned, some goroutine can move: the one that
    holds a mutex, or one that runs, or the leader of the awaited call. *)
Lemma ginv_progress gs G γ ps σ :
  ginv gs G γ (ps, σ) → ¬ Forall returned ps → ∃ t x', step t (ps, σ) = Some x'.
Proof.
  intros Hi Hn.
  assert (∀ t p, ps !! t = Some p → is_Some (pstep t p σ) → ∃ t x', step t (ps, σ) = Some x') as Hstep.
  { intros t p Hp [[p' σ'] Hs]. exists t. unfold step. simpl. rewrite Hp, Hs. eauto. }
  destruct (decide (sh_mu σ = ∅)) as [Hmu|(sf & t & Hmu)%map_choose].
  2:{ apply (gi_mu _ _ _ _ Hi) in Hmu as (ρ & Hg).
      destruct (ginv_owner _ _ _ _ _ _ _ _ Hi Hg) as (p & Hp & Hwp & _).
      by eapply Hstep, holder_enabled. }
  apply not_Forall_Exists, Exists_exists in Hn as (p & [t Hp]%list_elem_of_lookup & Hret); [|apply _].
  destruct (ginv_ghost _ _ _ _ _ _ _ Hi Hp) as (ρ & h & Hg & Hwp & Hr).
  destruct (wp_enabled _ _ _ _ _ _ _ Hmu Hr Hwp) as [?|[[? _]|(sf & key & c & Hw & ->)]]; [by eapply Hstep|done|].
  destruct p as [| | | | | |c' k| |]; try done. simpl in Hw. subst c'.
  destruct Hr as (_ & t' & HG). destruct (lookup_lt_is_Some_2 (sh_heap σ) c) as [cl Hcl].
  { rewrite <-(gi_G _ _ _ _ Hi : _ = length (sh_heap σ)). by eapply lookup_lt_Some. }
  destruct (gi_heap _ _ _ _ Hi _ _ _ _ _ Hcl HG) as [[Hwg _]|(ρ0 & h0 & Hg0 & Hl)].
  { eapply Hstep; [done|]. simpl. rewrite Hcl, Hwg. by eexists. }
  destruct (ginv_owner _ _ _ _ _ _ _ _ Hi Hg0) as (q & Hq & Hwq & Hrq).
  destruct (wp_enabled _ _ _ _ _ _ _ Hmu Hrq Hwq) as [?|[[_ ->]|(? & ? & ? & _ & ->)]];
    [by eapply Hstep|done..].
Qed.

(** *** Termination *)

(** An action leaves a goroutine with a part of its program. *)
Definition shrinks {B} (p' p : prog B) : Prop := ∃ t σ σ', pstep t p σ = Some (p', σ').

Lemma shrinks_acc {B} (p : prog B) : Acc shrinks p.
Proof.
  induction p; constructor; intros p' (t & σ & σ' & Hs); simpl in Hs.
  all: repeat (case_match; simplify_eq/=; eauto); simplify_eq/=; eauto.
  constructor. by intros ? (? & ? & ? & ?).
Qed.

Definition pool_shrinks (qs' qs : list (prog A)) : Prop :=
  ∃ t p p', qs !! t = Some p ∧ shrinks p' p ∧ qs' = <[t := p']> qs.

Lemma pool_shrinks_acc (ps : list (prog A)) : Acc pool_shrinks ps.
Proof.
  induction ps as [|p ps IH]; [constructor; by intros qs (t & p & p' & ? & _)|].
  revert ps IH. induction (shrinks_acc p) as [p _ IHp]. intros ps Hps.
  pose proof Hps as Hacc. induction Hacc as [ps _ IHps].
  constructor. intros qs ([|t] & q & q' & Hq & Hsh & ->); simplify_eq/=.
  - by apply IHp.
  - assert (pool_shrinks (<[t := q']> ps) ps) as Hlt by (by exists t, q, q').
    apply IHps; [done|]. by apply Hps.
Qed.

Lemma step_shrinks t ps σ ps' σ' : step t (ps, σ) = Some (ps', σ') → pool_shrinks ps' ps.
Proof.
  unfold step. simpl. destruct (ps !! t) as [p|] eqn:Hp; [|done].
  destruct (pstep t p σ) as [[p' σ1]|] eqn:Hs; [|done]. intros [= <- <-].
  exists t, p, p'. split_and!; [done|by exists t, σ, σ1|done].
Qed.

(** *** The two theorems of the logic *)

(** The end: every goroutine returned, its result is as promised, and nothing
    is in flight. *)
Definition completed (x : config) : Prop :=
  I (sh_st x.2) ∅ ∧ sh_calls x.2 = ∅ ∧ sh_mu x.2 = ∅ ∧
  ∀ t p, x.1 !! t = Some p → ∃ r, p = Done r ∧ Φ t r.

Lemma ginv_completed gs G γ ps σ : ginv gs G γ (ps, σ) → Forall returned ps → completed (ps, σ).
Proof.
  intros Hi Hret. rewrite Forall_lookup in Hret.
  assert (∀ t p, ps !! t = Some p → ∃ r, p = Done r ∧ Φ t r ∧ gs !! t = Some (Free, None)) as Hend.
  { intros t p Hp. specialize (Hret _ _ Hp). destruct p as [r| | | | | | | |]; try done.
    destruct (ginv_ghost _ _ _ _ _ _ _ Hi Hp) as (ρ & h & Hg & (-> & -> & HΦ) & _). eauto. }
  assert (sh_calls σ = ∅) as Hcalls.
  { apply map_empty. intros [sf key]. apply eq_None_not_Some. intros [c Hc].
    destruct (gi_calls _ _ _ _ Hi _ _ _ Hc) as (t & ρ & h & Hg & Hin).
    destruct (ginv_owner _ _ _ _ _ _ _ _ Hi Hg) as (p & Hp & _).
    destruct (Hend _ _ Hp) as (r & _ & _ & Hg'). by simplify_eq. }
  assert (γ = ∅) as ->.
  { apply map_empty. intros k. apply eq_None_not_Some. intros [c Hc]%(gi_phases _ _ _ _ Hi).
    simpl in Hc. by rewrite Hcalls, lookup_empty in Hc. }
  split_and!; simpl; [apply Hi|done| |].
  - apply map_empty. intros sf. apply eq_None_not_Some. intros [t Ht].
    apply (gi_mu _ _ _ _ Hi) in Ht as (ρ & Hg).
    destruct (ginv_owner _ _ _ _ _ _ _ _ Hi Hg) as (p & Hp & _).
    destruct (Hend _ _ Hp) as (r & _ & _ & Hg'). by simplify_eq.
  - intros t p Hp. destruct (Hend _ _ Hp) as (r & ? & ? & _). eauto.
Qed.

Lemma ginv_inevitable gs G γ ps σ : T → ginv gs G γ (ps, σ) → inevitably completed (ps, σ).
Proof.
  intros HT. revert gs G γ σ. induction (pool_shrinks_acc ps) as [ps _ IH]. intros gs G γ σ Hi.
  destruct (decide (Forall returned ps)) as [Hret|Hret].
  { apply inev_now. by eapply ginv_completed. }
  apply inev_later; [by eapply ginv_progress|]. intros t [ps' σ'] Hs.
  destruct (ginv_step _ _ _ _ _ _ Hi Hs (λ _, HT)) as (gs' & G' & γ' & Hi').
  eapply IH; [by eapply step_shrinks|done].
Qed.

End Logic.

(** *** The theorems of the logic *)

Section Soundness.
Context {St V SF Γ : Type} `{!EqDecision SF, !Countable SF}.
Notation prog := (prog St V SF).
Notation phases := (gmap (SF * string) Γ).
Context (I : St → phases → Prop) (stable : St → Prop).

(** A program verified with a prophecy that says nothing is verified with
    every one. *)
Lemma wp_prophecy {B} R T (p : prog B) ρ h (Θ : role SF Γ → option SF → option B → Prop) :
  wp I R stable True p ρ h Θ → wp I R stable T p ρ h Θ.
Proof.
  revert ρ h. induction p; intros ρ h; simpl; try naive_solver.
  intros Hwp s γ Hs Hγ. destruct (Hwp s γ Hs Hγ) as [? HT]. split; [done|]. intros _.
  specialize (HT (λ _, Logic.I)). destruct (m s) as [[] ?]; unfold settles in *; naive_solver.
Qed.

Lemma triple_prophecy {B} R T P (p : prog B) (Ψ : option B → Prop) :
  triple I R stable True P p Ψ → triple I R stable T P p Ψ.
Proof. intros Hp ρ h Hρ. by apply wp_prophecy, Hp. Qed.

Context {A : Type} (R : Prop → SF → string → option V → option error → Prop).
Context (Φ : Prop → nat → option A → Prop).
Notation config := (config St V SF A).
Notation ginv T := (ginv I (R T) stable T (Φ T)).

(** The goroutines [ps] on the state [s], verified for every prophecy, on
    which the results may depend. *)
Context (ps : list (prog A)) (s : St) (Hs : I s ∅).
Context (Hps : ∀ T t p, ps !! t = Some p → triple I (R T) stable T toplevel p (Φ T t)).

Lemma stable_exec gs G γ sched (x x' : config) :
  ginv True gs G γ x → exec sched x = Some x' → stable (sh_st x.2) → stable (sh_st x'.2).
Proof.
  revert gs G γ x. induction sched as [|t sched IH]; intros gs G γ x Hi; simpl; [by intros [= <-]|].
  destruct (step t x) as [x1|] eqn:Hstep; [|done]. intros Hx Hst.
  destruct (ginv_step _ _ _ _ _ _ _ _ _ _ _ Hi Hstep (λ _, Logic.I)) as (gs' & G' & γ' & Hi').
  apply (IH _ _ _ _ Hi' Hx). exact (ginv_stable _ _ _ _ _ _ _ _ _ _ _ Hi Hstep Hst).
Qed.

(** The prophecy comes true: along an execution, a fact that holds early holds
    at the end. *)
Lemma ginv_exec T gs G γ gs' G' γ' sched (x x' : config) :
  ginv True gs G γ x → ginv T gs' G' γ' x → exec sched x = Some x' → (stable (sh_st x'.2) → T) →
  ∃ gs G γ, ginv T gs G γ x'.
Proof.
  revert gs G γ gs' G' γ' x. induction sched as [|t sched IH]; intros gs G γ gs' G' γ' x Hi Hi'; simpl.
  { intros [= <-]. eauto. }
  destruct (step t x) as [x1|] eqn:Hstep; [|done]. intros Hx HT.
  destruct (ginv_step _ _ _ _ _ _ _ _ _ _ _ Hi Hstep (λ _, Logic.I)) as (gs1 & G1 & γ1 & Hi1).
  destruct (ginv_step _ _ _ _ _ _ _ _ _ _ _ Hi' Hstep) as (gs2 & G2 & γ2 & Hi2).
  { intros Hst. apply HT. exact (stable_exec _ _ _ _ _ _ Hi1 Hx Hst). }
  exact (IH _ _ _ _ _ _ _ Hi1 Hi2 Hx HT).
Qed.

Lemma release_held sched x t sf k :
  exec sched (start ps s) = Some x → x.1 !! t = Some (Release sf k) → sh_mu x.2 !! sf = Some t.
Proof.
  intros Hx. pose proof (ginv_start _ _ _ _ _ _ _ Hs (Hps True)) as Hi.
  destruct (ginv_exec True _ _ _ _ _ _ sched _ x Hi Hi Hx) as (gs & G & γ & Hi'); [done|].
  by apply (ginv_release _ _ _ _ _ _ _ _ _ _ _ _ Hi').
Qed.

(** The invariant and the results hold whenever a schedule stops. *)
Lemma always sched x :
  exec sched (start ps s) = Some x →
  (∃ γ, I (sh_st x.2) γ) ∧ ∀ t r, x.1 !! t = Some (Done r) → Φ (stable (sh_st x.2)) t r.
Proof.
  intros Hx.
  destruct (ginv_exec (stable (sh_st x.2)) _ _ _ _ _ _ sched (start ps s) x
    (ginv_start _ _ _ _ _ _ _ Hs (Hps True)) (ginv_start _ _ _ _ _ _ _ Hs (Hps _)) Hx id)
    as (gs & G & γ & Hi).
  destruct x as [ps' σ]. split; [exists γ; apply Hi|]. intros t r Ht.
  destruct (ginv_ghost _ _ _ _ _ _ _ _ _ _ _ _ Hi Ht) as (ρ & h & _ & (_ & _ & ?) & _). done.
Qed.

(** Under every schedule all goroutines end. *)
Lemma inevitable :
  inevitably (λ x : config, I (sh_st x.2) ∅ ∧ sh_calls x.2 = ∅ ∧ sh_mu x.2 = ∅ ∧
    ∀ t p, x.1 !! t = Some p → ∃ r, p = Done r ∧ Φ (stable (sh_st x.2)) t r) (start ps s).
Proof.
  assert (inevitably (completed I (Φ True)) (start ps s)) as Hin.
  { eapply ginv_inevitable; [exact Logic.I|]. exact (ginv_start _ _ _ _ _ _ _ Hs (Hps True)). }
  revert Hin. apply (inevitably_strengthen _ _ (λ x, ∃ sched, exec sched (start ps s) = Some x)).
  - intros x t x' [sched Hx] Hstep. exists (sched ++ [t]). by eapply exec_by_snoc.
  - intros x (HI & Hcalls & Hmu & Hend) [sched Hx]. split_and!; [done..|]. intros t p Hp.
    destruct (Hend t p Hp) as (r & -> & _). exists r. split; [done|].
    by apply (always sched x Hx).
  - by exists [].
Qed.

End Soundness.

(** ** A goroutine on its own

    [alone X p m]: with what [X] names free of others, a goroutine that no
    other interrupts runs [p] to the end and does to the state what the
    sequential computation [m] does.  [X] holds the singleflight groups that
    [p] uses, those it locks as [(sf, false)] and those whose calls it starts
    as [(sf, true)] as well. *)

Section Alone.
Context {St V SF : Type} `{!EqDecision SF, !Countable SF}.
Notation prog := (prog St V SF).
Notation call := (call (V := V)).
Notation shared := (shared St V SF).

(** One action of goroutine [t]. *)
Definition pmove {A} (t : nat) (x y : prog A * shared) : Prop := pstep t x.1 x.2 = Some y.

Definition result {A} (r : res A) : option A := match r with Val a => Some a | _ => None end.

Notation locked sf := ({[(sf, false)]}).
Notation flown sf := ({[(sf, false); (sf, true)]}).

Definition quiet (X : gset (SF * bool)) (calls : gmap (SF * string) nat) (mu : gmap SF nat) : Prop :=
  ∀ sf, ((sf, false) ∈ X → mu !! sf = None) ∧ ((sf, true) ∈ X → ∀ key, calls !! (sf, key) = None).

Definition alone {A : Type} (X : gset (SF * bool)) (p : prog A) (m : M St A) : Prop :=
  ∀ t s calls (H : list call) mu, quiet X calls mu → (m s).1 ≠ Diverged →
  ∃ H', rtc (pmove t) (p, mkShared s calls H mu)
          (Done (result (m s).1), mkShared (m s).2 calls (H ++ H') mu).

Lemma pmove_bindr {A B} t (p q : prog A) (k : option A → prog B) (σ σ' : shared) :
  pmove t (p, σ) (q, σ') → pmove t (bindr p k, σ) (bindr q k, σ').
Proof. unfold pmove. destruct p; simpl; intros; repeat case_match; by simplify_eq/=. Qed.

Lemma rtc_bindr {A B} t (p q : prog A) (k : option A → prog B) (σ σ' : shared) :
  rtc (pmove t) (p, σ) (q, σ') → rtc (pmove t) (bindr p k, σ) (bindr q k, σ').
Proof.
  intros Hrtc. apply (rtc_congruence (λ x : prog A * shared, (bindr x.1 k, x.2)) (pmove t)) in Hrtc; [done|].
  intros [p1 σ1] [p2 σ2]. apply pmove_bindr.
Qed.

Lemma alone_ext {A} X (p : prog A) (m m' : M St A) :
  (∀ s, m s = m' s) → alone X p m → alone X p m'.
Proof. intros Hm Hp t s calls H mu HX. rewrite <-Hm. by apply Hp. Qed.

Lemma alone_mono {A} X X' (p : prog A) (m : M St A) : X ⊆ X' → alone X p m → alone X' p m.
Proof. intros HX Hp t s calls H mu Hq. apply Hp. intros sf. destruct (Hq sf). split; auto. Qed.

Lemma alone_ret {A} X (a : A) : alone X (mret a) (mret a).
Proof. intros t s calls H mu _ _. exists []. by rewrite app_nil_r. Qed.

Lemma alone_act {A} X (m : M St A) : alone X (act m) m.
Proof.
  intros t s calls H mu _ Hd. exists []. rewrite app_nil_r. apply rtc_once.
  unfold pmove. simpl. by destruct (m s) as [[] s'].
Qed.

Lemma alone_panic {A} X : alone X (Done (None : option A)) panic.
Proof. intros t s calls H mu _ _. exists []. by rewrite app_nil_r. Qed.

Lemma alone_if {A} X (b : bool) (p q : prog A) (m m' : M St A) :
  alone X p m → alone X q m' → alone X (if b then p else q) (if b then m else m').
Proof. by destruct b. Qed.

Lemma alone_bind {A B} X (p : prog A) (m : M St A) (f : A → prog B) (g : A → M St B) :
  alone X p m → (∀ a, alone X (f a) (g a)) → alone X (p ≫= f) (m ≫= g).
Proof.
  intros Hp Hf t s calls H mu HX. specialize (Hp t s calls H mu HX).
  unfold mbind at 1 2 3 4, M_bind. destruct (m s) as [[a| |] s1] eqn:Hm; simpl in *; intros Hd; [| |done].
  - destruct Hp as (H1 & Hp); [done|]. destruct (Hf a t s1 calls (H ++ H1) mu HX Hd) as (H2 & Hg).
    exists (H1 ++ H2). rewrite (assoc_L (++)). etrans; [by apply rtc_bindr|]. done.
  - destruct Hp as (H1 & Hp); [done|]. exists H1. by apply (rtc_bindr _ _ (Done None)).
Qed.

Lemma alone_for_each {A B} X (f : A → prog B) (g : A → M St B) l :
  (∀ x, alone X (f x) (g x)) → alone X (for_each_go f l) (for_each g l).
Proof.
  intros Hf. induction l as [|x l IH]; simpl; [apply alone_ret|].
  apply alone_bind; [done|]. intros y. apply alone_bind; [done|]. intros ys. apply alone_ret.
Qed.

Lemma alone_Lock {A} X sf (fn : prog A) (m : M St A) :
  (sf, false) ∉ X → alone X fn m → alone (locked sf ∪ X) (Lock sf fn) m.
Proof.
  intros Hsf Hfn t s calls H mu HX Hd. destruct (HX sf) as [Hmu _]. specialize (Hmu ltac:(set_solver)).
  destruct (Hfn t s calls H (<[sf := t]> mu)) as (H' & Hr); [|done|].
  { intros sf'. destruct (HX sf') as [Hm Hc]. split; [|set_solver]. intros Hin.
    rewrite lookup_insert_ne; [set_solver|]. by intros <-. }
  exists H'. eapply rtc_l.
  { unfold pmove. simpl. rewrite Hmu. reflexivity. }
  etrans; [by apply rtc_bindr|]. simpl. apply rtc_once. unfold pmove. simpl.
  by rewrite delete_insert_id.
Qed.

Lemma alone_Do {X} Y sf key (fn : prog (X * (option V * option error))) m :
  (sf, true) ∉ Y → alone Y fn m →
  alone (flown sf ∪ Y) (Do sf key fn) ('(x, ve) ← m; mret (Some x, ve)).
Proof.
  intros Hsf Hfn t s calls H mu HY. destruct (HY sf) as [Hmu Hcalls].
  specialize (Hmu ltac:(set_solver)). specialize (Hcalls ltac:(set_solver)).
  assert (quiet Y (<[(sf, key) := length H]> calls) mu) as HY'.
  { intros sf'. destruct (HY sf') as [? Hc]. split; [set_solver|].
    intros Hin key'. rewrite lookup_insert_ne; [set_solver|]. intros [= <- _]. done. }
  specialize (Hfn t s _ (H ++ [mkCall 1 None leader_panicked]) mu HY').
  unfold mbind, M_bind. destruct (m s) as [r s1] eqn:Hm. simpl in *.
  intros Hd. destruct Hfn as (H' & Hr); [by destruct r|].
  set (o := outcome_of (result r)). exists (finish o (mkCall 1 None leader_panicked) :: H').
  rewrite <-(assoc_L (++)) in Hr. simpl in Hr.
  eapply rtc_l; [unfold pmove; simpl; by rewrite Hmu, Hcalls|].
  etrans; [by apply rtc_bindr|]. simpl. eapply rtc_l.
  { unfold pmove. simpl. rewrite list_lookup_middle by done. reflexivity. }
  eapply rtc_l; [unfold pmove; simpl; by rewrite Hmu|]. simpl.
  rewrite insert_app_r_alt, Nat.sub_diag, delete_insert_id by done.
  by destruct r as [[x ve]| |].
Qed.

(** A step that returns, and then the rest. *)
Lemma rtc_act {X A} t (m : M St X) (k : option X → prog A) x s s' calls (H : list call) mu z :
  m s = (Val x, s') → rtc (pmove t) (k (Some x), mkShared s' calls H mu) z →
  rtc (pmove t) (Act m k, mkShared s calls H mu) z.
Proof. intros Hm Hz. eapply rtc_l; [|exact Hz]. unfold pmove. simpl. by rewrite Hm. Qed.

(** Goroutine [t] runs while the others of the pool stand still. *)
Lemma rtc_exec {A} t (ps : list (prog A)) p q (σ σ' : shared) :
  ps !! t = Some p → rtc (pmove t) (p, σ) (q, σ') →
  ∃ n, exec (replicate n t) (ps, σ) = Some (<[t := q]> ps, σ').
Proof.
  intros Hp Hr. remember (p, σ) as x eqn:Hx. remember (q, σ') as y eqn:Hy.
  revert ps p σ Hp Hx. induction Hr as [x|x [p1 σ1] z Hxy _ IH]; intros ps p σ Hp ->; simplify_eq.
  { exists 0%nat. simpl. by rewrite list_insert_id. }
  pose proof (lookup_lt_Some _ _ _ Hp) as Hlt.
  destruct (IH eq_refl (<[t := p1]> ps) p1 σ1) as [n Hn]; [by apply list_lookup_insert_eq|done|].
  unfold pmove in Hxy. simpl in Hxy.
  exists (S n). cbn [replicate exec_by]. unfold step at 1. simpl. rewrite Hp, Hxy.
  by rewrite Hn, list_insert_insert_eq.
Qed.

(** Alone in the pool. *)
Lemma alone_exec {A} X (p : prog A) (m : M St A) s :
  alone X p m → (m s).1 ≠ Diverged →
  ∃ n H, exec (replicate n 0%nat) (start [p] s)
    = Some ([Done (result (m s).1)], mkShared (m s).2 ∅ H ∅).
Proof.
  intros Hp Hd. destruct (Hp 0%nat s ∅ [] ∅) as (H & Hr); [by split|done|].
  destruct (rtc_exec 0 [p] _ _ _ _ eq_refl Hr) as [n Hn]. by exists n, H.
Qed.

End Alone.

Notation locked sf := ({[(sf, false)]}).
Notation flown sf := ({[(sf, false); (sf, true)]}).

#[export] Hint Resolve alone_ret alone_act alone_panic alone_bind alone_for_each : alone.
