(* ===== verification/Critical.v ===== *)
(** * The critical sections of singleflight, taken apart

    In Goroutines.v the part of [Group.Do] that looks for the key and enters
    the call, and the part that deletes it, are single actions.  In
    internal/singleflight/singleflight.go they are [g.mu.Lock()], a look in
    [g.m], the assignment to [g.m], [g.mu.Unlock()].  [fstep] takes each of
    these as an action of its own; other goroutines run in between.

    The results of a call are assigned and signalled in one action: nobody
    reads them before [c.wg.Done()] (Singleflight.v takes that apart, too).

    The two agree: [fstep] is simulated by [step], where the assignment, the
    look that finds the key and the deletion are the points at which the
    single action happens ([fstep_simulated]), and what [step] can do, [fstep]
    can do ([step_taken_apart]).  So the theorems of the program logic hold of
    [fstep] ([fine_always], [fine_inevitable]). *)

From S2P Require Import Prelude Errors Singleflight Goroutines.

(** ** Goroutines with their critical sections *)

Section Threads.
Context {St V SF A : Type} `{!EqDecision SF, !Countable SF}.
Notation prog := (prog St V SF A).
Notation shared := (shared St V SF).
Notation config := (config St V SF A).

(** Outside of the critical sections of [Do]; after [g.mu.Lock()], where [Do]
    looks for the key; where it did not find it; before the [delete]; before
    [g.mu.Unlock()]. *)
Inductive thread :=
| Outside (p : prog)
| Locked (sf : SF) (key : string) (lead join : nat → prog)
| Absent (sf : SF) (key : string) (lead join : nat → prog)
| Deleting (sf : SF) (key : string) (k : prog)
| Unlocking (sf : SF) (p : prog).

Definition with_mu (mu : gmap SF nat) (σ : shared) : shared :=
  mkShared (sh_st σ) (sh_calls σ) (sh_heap σ) mu.

(** [g.mu.Lock()] blocks while the mutex is held. *)
Definition lock (t : nat) (sf : SF) (σ : shared) : option shared :=
  match sh_mu σ !! sf with
  | Some _ => None
  | None => Some (with_mu (<[sf := t]> (sh_mu σ)) σ)
  end.

Definition tstep (t : nat) (q : thread) (σ : shared) : option (thread * shared) :=
  match q with
  | Outside (Enter sf key lead join) => σ ← lock t sf σ; Some (Locked sf key lead join, σ)
  | Outside (Delete sf key k) => σ ← lock t sf σ; Some (Deleting sf key k, σ)
  | Outside p => '(p, σ) ← pstep t p σ; Some (Outside p, σ)
  | Locked sf key lead join =>
      match sh_calls σ !! (sf, key) with
      | Some c => Some (Unlocking sf (join c), σ)
      | None => Some (Absent sf key lead join, σ)
      end
  | Absent sf key lead join =>
      let c := length (sh_heap σ) in
      Some (Unlocking sf (lead c), mkShared (sh_st σ) (<[(sf, key) := c]> (sh_calls σ))
              (sh_heap σ ++ [mkCall 1 None leader_panicked]) (sh_mu σ))
  | Deleting sf key k =>
      Some (Unlocking sf k, mkShared (sh_st σ) (delete (sf, key) (sh_calls σ)) (sh_heap σ) (sh_mu σ))
  | Unlocking sf p => Some (Outside p, with_mu (delete sf (sh_mu σ)) σ)
  end.

Definition fconfig : Type := list thread * shared.

Definition fstep (t : nat) (y : fconfig) : option fconfig :=
  match y.1 !! t with
  | Some q =>
      match tstep t q y.2 with
      | Some (q', σ') => Some (<[t := q']> y.1, σ')
      | None => None
      end
  | None => None
  end.

Lemma fstep_length t (y y' : fconfig) : fstep t y = Some y' → length y'.1 = length y.1.
Proof.
  unfold fstep. destruct (y.1 !! t) as [q|]; [|done].
  destruct (tstep t q y.2) as [[q' σ']|]; [|done]. intros [= <-]. apply length_insert.
Qed.

Definition apart (x : config) : fconfig := (Outside <$> x.1, x.2).

End Threads.

Notation fexec := (exec_by fstep).
Notation finevitably := (inevitably_by fstep).

(** ** The simulation *)

Section Simulation.
Context {St V SF A : Type} `{!EqDecision SF, !Countable SF}.
Notation prog := (prog St V SF A).
Notation shared := (shared St V SF).
Notation config := (config St V SF A).
Notation thread := (thread (St := St) (V := V) (SF := SF) (A := A)).
Notation fconfig := (fconfig (St := St) (V := V) (SF := SF) (A := A)).
Implicit Types (q : thread) (σ τ : shared) (x : config) (y : fconfig).

(** The program the goroutine runs, the mutex it holds for [Do], and a bound
    on what it does before its single action and after it. *)
Definition whole (q : thread) : prog :=
  match q with
  | Outside p | Unlocking _ p => p
  | Locked sf key lead join | Absent sf key lead join => Enter sf key lead join
  | Deleting sf key k => Delete sf key k
  end.

Definition inside (q : thread) : option SF :=
  match q with
  | Outside _ => None
  | Locked sf _ _ _ | Absent sf _ _ _ | Deleting sf _ _ | Unlocking sf _ => Some sf
  end.

Definition rank (q : thread) : nat :=
  match q with
  | Absent _ _ _ _ => 0
  | Locked _ _ _ _ | Deleting _ _ _ => 1
  | Outside _ => 2
  | Unlocking _ _ => 3
  end.

(** [mu]: the mutexes that [step] sees, those not held for [Do]. *)
Record apart_ok (mu : gmap SF nat) (y : fconfig) : Prop := {
  ao_mu sf t : sh_mu y.2 !! sf = Some t ↔
    mu !! sf = Some t ∨ ∃ q, y.1 !! t = Some q ∧ inside q = Some sf;
  ao_free sf t q : y.1 !! t = Some q → inside q = Some sf → mu !! sf = None;
  ao_absent sf key t lead join : y.1 !! t = Some (Absent sf key lead join) →
    sh_calls y.2 !! (sf, key) = None;
}.

Definition sim (y : fconfig) (x : config) : Prop :=
  ∃ mu, apart_ok mu y ∧ x = (whole <$> y.1, with_mu mu y.2).

Lemma sim_apart (ps : list prog) (s : St) : sim (apart (start ps s)) (start ps s).
Proof.
  exists ∅. split.
  - split; simpl.
    + intros sf t. rewrite !lookup_empty. split; [done|]. intros [?|(q & Hq & Hin)]; [done|].
      rewrite list_lookup_fmap in Hq. by destruct (ps !! t); simplify_eq/=.
    + intros sf t q Hq. rewrite list_lookup_fmap in Hq. by destruct (ps !! t); simplify_eq/=.
    + intros sf key t lead join Hq. rewrite list_lookup_fmap in Hq. by destruct (ps !! t); simplify_eq/=.
  - unfold apart, start. simpl. by rewrite <-list_fmap_compose, list_fmap_id.
Qed.

Lemma ao_self mu ps σ t q sf :
  apart_ok mu (ps, σ) → ps !! t = Some q →
  sh_mu σ !! sf = Some t ↔ mu !! sf = Some t ∨ inside q = Some sf.
Proof. intros Ho Hq. rewrite (ao_mu _ _ Ho sf t : sh_mu σ !! sf = Some t ↔ _). naive_solver. Qed.

Lemma ao_none mu ps σ sf : apart_ok mu (ps, σ) → sh_mu σ !! sf = None → mu !! sf = None.
Proof.
  intros Ho Hn. apply eq_None_not_Some. intros [t Ht].
  assert (sh_mu σ !! sf = Some t) by (apply (ao_mu _ _ Ho); by left). congruence.
Qed.

(** One goroutine moves from [q] to [q']. *)
Lemma apart_ok_move mu mu' ps σ σ' t q q' :
  apart_ok mu (ps, σ) → ps !! t = Some q →
  (∀ sf t', t' ≠ t → sh_mu σ' !! sf = Some t' ↔ sh_mu σ !! sf = Some t') →
  (∀ sf t', t' ≠ t → mu' !! sf = Some t' ↔ mu !! sf = Some t') →
  (∀ sf, sh_mu σ' !! sf = Some t ↔ mu' !! sf = Some t ∨ inside q' = Some sf) →
  (∀ sf, inside q' = Some sf → mu' !! sf = None) →
  (∀ sf key, sh_calls σ !! (sf, key) = None → sh_mu σ !! sf ≠ Some t → sh_calls σ' !! (sf, key) = None) →
  (∀ sf key lead join, q' = Absent sf key lead join → sh_calls σ' !! (sf, key) = None) →
  apart_ok mu' (<[t := q']> ps, σ').
Proof.
  intros Ho Hq Hmu Hmu' Hown Hfree Hcalls Habs. pose proof (lookup_lt_Some _ _ _ Hq) as Hlt.
  split; simpl.
  - intros sf t'. destruct (decide (t' = t)) as [->|Hne].
    + rewrite Hown, list_lookup_insert_eq by done. naive_solver.
    + rewrite Hmu, Hmu', list_lookup_insert_ne by done. apply (ao_mu _ _ Ho).
  - intros sf t' q0 [(<- & <- & _)|[Hne Hq0]]%list_lookup_insert_Some Hin; [by apply Hfree|].
    apply eq_None_not_Some. intros [t0 Ht0].
    assert (sh_mu σ' !! sf = Some t') as Ht'.
    { apply Hmu; [congruence|]. apply (ao_mu _ _ Ho). right. eauto. }
    destruct (decide (t0 = t)) as [->|].
    + assert (sh_mu σ' !! sf = Some t) by (apply Hown; by left). congruence.
    + apply Hmu' in Ht0; [|done]. rewrite (ao_free _ _ Ho sf t' q0 Hq0 Hin) in Ht0. done.
  - intros sf key t' lead join [(<- & Hq' & _)|[Hne Hq0]]%list_lookup_insert_Some; [by eapply Habs|].
    apply Hcalls; [by eapply (ao_absent _ _ Ho)|].
    assert (sh_mu σ !! sf = Some t') by (apply (ao_mu _ _ Ho); right; eauto). congruence.
Qed.

(** What [step] does at the single action; before and after it, [fstep] comes
    closer to the next one. *)
Definition matches (t : nat) (q q' : thread) (τ τ' : shared) : Prop :=
  (whole q' = whole q ∧ τ' = τ ∧ rank q' < rank q)%nat ∨ pstep t (whole q) τ = Some (whole q', τ').

Lemma lock_sim mu ps σ σ' t sf p q' :
  apart_ok mu (ps, σ) → ps !! t = Some (Outside p) → lock t sf σ = Some σ' →
  inside q' = Some sf → whole q' = p → (rank q' < 2)%nat → (∀ sf key lead join, q' ≠ Absent sf key lead join) →
  ∃ mu', apart_ok mu' (<[t := q']> ps, σ') ∧ matches t (Outside p) q' (with_mu mu σ) (with_mu mu' σ').
Proof.
  intros Ho Hq Hl Hin Hwhole Hrank Habs. unfold lock in Hl.
  destruct (sh_mu σ !! sf) as [t'|] eqn:Hmu; simplify_eq.
  pose proof (ao_none _ _ _ _ Ho Hmu) as Hnone.
  exists mu. split; [|by left].
  eapply apart_ok_move; try done; simpl.
  - intros sf' t' Hne. rewrite lookup_insert_Some. split; [naive_solver|].
    intros Ht'. right. split; [congruence|done].
  - intros sf'. rewrite lookup_insert_Some, (ao_self _ _ _ _ _ sf' Ho Hq). simpl. naive_solver.
  - naive_solver.
  - intros sf' key lead join Heq. by destruct (Habs sf' key lead join).
Qed.

(** The moves outside of the critical sections. *)
Lemma outside_sim mu ps σ σ' t p p' :
  apart_ok mu (ps, σ) → ps !! t = Some (Outside p) →
  (∀ sf k, p = Release sf k → mu !! sf = Some t) →
  (∀ sf key lead join, p ≠ Enter sf key lead join) → (∀ sf key k, p ≠ Delete sf key k) →
  pstep t p σ = Some (p', σ') →
  ∃ mu', apart_ok mu' (<[t := Outside p']> ps, σ') ∧ pstep t p (with_mu mu σ) = Some (p', with_mu mu' σ').
Proof.
  intros Ho Hq Hrel Hent Hdel Hs. pose proof (λ sf, ao_self _ _ _ _ _ sf Ho Hq) as Hself. simpl in Hself.
  assert (sh_calls σ' = sh_calls σ → sh_mu σ' = sh_mu σ → apart_ok mu (<[t := Outside p']> ps, σ')) as Hquiet.
  { intros Hc Hmu. eapply apart_ok_move; try done; rewrite ?Hmu, ?Hc; auto. }
  destruct p as [r| |X m k|sf key lead join|c o k|sf key k|c k|sf k|sf k]; simpl in Hs; try done.
  - exists mu. destruct (m (sh_st σ)) as [[] ?] eqn:Hm; simplify_eq/=; rewrite Hm; by split; [apply Hquiet|].
  - by destruct (Hent sf key lead join).
  - exists mu. destruct (sh_heap σ !! c) as [cl|] eqn:Hcl; simplify_eq/=. rewrite Hcl. by split; [apply Hquiet|].
  - by destruct (Hdel sf key k).
  - exists mu. destruct (sh_heap σ !! c) as [cl|] eqn:Hcl; [|done]. case_bool_decide as Hwg; simplify_eq/=.
    rewrite Hcl, bool_decide_true by done. by split; [apply Hquiet|].
  - destruct (sh_mu σ !! sf) as [t'|] eqn:Hmu; simplify_eq/=. pose proof (ao_none _ _ _ _ Ho Hmu) as Hnone.
    exists (<[sf := t]> mu). rewrite Hnone. split; [|done].
    eapply apart_ok_move; try done; simpl; [| |intros sf'; rewrite !lookup_insert_Some, Hself; naive_solver].
    all: intros sf' t' Hne; rewrite lookup_insert_Some; split; [naive_solver|].
    all: intros Ht'; right; split; [congruence|done].
  - exists (delete sf mu). simplify_eq/=. split; [|done]. specialize (Hrel _ _ eq_refl).
    assert (sh_mu σ !! sf = Some t) as Hmu by (apply Hself; by left).
    eapply apart_ok_move; try done; simpl; [| |intros sf'; rewrite !lookup_delete_Some, Hself; naive_solver].
    all: intros sf' t' Hne; rewrite lookup_delete_Some; split; [naive_solver|].
    all: intros Ht'; split; [congruence|done].
Qed.

(** The moves inside, which keep the mutex [sf]. *)
Lemma inside_sim mu ps σ σ' t q q' sf :
  apart_ok mu (ps, σ) → ps !! t = Some q → inside q = Some sf → inside q' = Some sf →
  sh_mu σ' = sh_mu σ →
  (∀ sf' key, sh_calls σ !! (sf', key) = None → sf' ≠ sf → sh_calls σ' !! (sf', key) = None) →
  (∀ sf key lead join, q' = Absent sf key lead join → sh_calls σ' !! (sf, key) = None) →
  apart_ok mu (<[t := q']> ps, σ').
Proof.
  intros Ho Hq Hin Hin' Hmu Hcalls Habs. pose proof (λ sf, ao_self _ _ _ _ _ sf Ho Hq) as Hself.
  eapply apart_ok_move; try done; rewrite ?Hmu; try done.
  - intros sf'. by rewrite Hself, Hin, Hin'.
  - intros sf' Hsf'. rewrite Hin' in Hsf'. simplify_eq. by apply (ao_free _ _ Ho _ _ _ Hq Hin).
  - intros sf' key Hn Hne. apply Hcalls; [done|]. intros ->. apply Hne, Hself. by right.
Qed.

Lemma tstep_sim mu ps σ σ' t q q' :
  apart_ok mu (ps, σ) → ps !! t = Some q →
  (∀ sf k, whole q = Release sf k → mu !! sf = Some t) →
  tstep t q σ = Some (q', σ') →
  ∃ mu', apart_ok mu' (<[t := q']> ps, σ') ∧ matches t q q' (with_mu mu σ) (with_mu mu' σ').
Proof.
  intros Ho Hq Hrel Hs.
  destruct q as [p|sf key lead join|sf key lead join|sf key k|sf p]; simpl in Hs, Hrel.
  - assert ((∀ sf key lead join, p ≠ Enter sf key lead join) → (∀ sf key k, p ≠ Delete sf key k) →
      (pr ← pstep t p σ; let '(p', σ') := pr : _ * _ in Some (Outside p', σ')) = Some (q', σ') →
      ∃ mu', apart_ok mu' (<[t := q']> ps, σ') ∧ matches t (Outside p) q' (with_mu mu σ) (with_mu mu' σ')) as Hout.
    { intros Hent Hdel. destruct (pstep t p σ) as [[p' σ1]|] eqn:Hp; [|done]. intros [= <- <-].
      destruct (outside_sim _ _ _ _ _ _ _ Ho Hq Hrel Hent Hdel Hp) as (mu' & ? & ?). exists mu'. by split; [|right]. }
    destruct p as [r| |X m k|sf key lead join|c o k|sf key k|c k|sf k|sf k]; try by apply Hout.
    + destruct (lock t sf σ) as [σ1|] eqn:Hl; simplify_eq/=. eapply lock_sim; try done. simpl. lia.
    + destruct (lock t sf σ) as [σ1|] eqn:Hl; simplify_eq/=. eapply lock_sim; try done. simpl. lia.
  - pose proof (ao_free _ _ Ho _ _ _ Hq eq_refl) as Hfree.
    destruct (sh_calls σ !! (sf, key)) as [c|] eqn:Hc; simplify_eq/=; exists mu.
    all: split; [eapply inside_sim; try done; naive_solver|].
    + right. simpl. by rewrite Hfree, Hc.
    + left. simpl. split_and!; [done..|lia].
  - pose proof (ao_free _ _ Ho _ _ _ Hq eq_refl) as Hfree.
    pose proof (ao_absent _ _ Ho _ _ _ _ _ Hq) as Hc. simpl in Hc. simplify_eq/=. exists mu. split.
    + eapply inside_sim; try done. simpl. intros sf' key' Hn Hne. rewrite lookup_insert_ne; [done|]. congruence.
    + right. simpl. by rewrite Hfree, Hc.
  - pose proof (ao_free _ _ Ho _ _ _ Hq eq_refl) as Hfree. simplify_eq/=. exists mu. split.
    + eapply inside_sim; try done. simpl. intros sf' key' Hn _. rewrite lookup_delete_None. by right.
    + right. simpl. by rewrite Hfree.
  - simplify_eq/=. exists mu. split; [|left; simpl; split_and!; [done..|lia]].
    pose proof (λ sf, ao_self _ _ _ _ _ sf Ho Hq) as Hself. simpl in Hself.
    assert (sh_mu σ !! sf = Some t) as Hmu by (apply Hself; by right).
    pose proof (ao_free _ _ Ho _ _ _ Hq eq_refl) as Hfree.
    eapply apart_ok_move; try done; simpl.
    + intros sf' t' Hne. rewrite lookup_delete_Some. split; [naive_solver|].
      intros Ht'. split; [congruence|done].
    + intros sf'. rewrite lookup_delete_Some, Hself. naive_solver congruence.
Qed.

(** What is left before and after the single actions. *)
Definition remaining (y : fconfig) : nat := sum_list_with rank y.1.

(** [fstep] is simulated by [step]. *)
Lemma fstep_simulated y y' x t :
  sim y x → (∀ sf k, x.1 !! t = Some (Release sf k) → sh_mu x.2 !! sf = Some t) →
  fstep t y = Some y' →
  (sim y' x ∧ remaining y' < remaining y)%nat ∨ ∃ x', step t x = Some x' ∧ sim y' x'.
Proof.
  destruct y as [ps σ]. intros (mu & Ho & ->) Hrel. unfold fstep. simpl.
  destruct (ps !! t) as [q|] eqn:Hq; [|done].
  destruct (tstep t q σ) as [[q' σ']|] eqn:Hs; [|done]. intros [= <-].
  destruct (tstep_sim mu ps σ σ' t q q' Ho Hq) as (mu' & Ho' & Hm); [|done|].
  { intros sf k Hk. apply (Hrel sf k). simpl. by rewrite list_lookup_fmap, Hq, <-Hk. }
  destruct Hm as [(Hw & Hσ & Hrk)|Hstep]; [left|right].
  - split; [|by apply sum_list_with_insert_lt with q]. exists mu'. split; [done|].
    simpl. rewrite list_fmap_insert, Hw, Hσ, list_insert_id; [done|]. by rewrite list_lookup_fmap, Hq.
  - exists (whole <$> <[t := q']> ps, with_mu mu' σ'). split; [|by exists mu'].
    unfold step. simpl. rewrite list_lookup_fmap, Hq. simpl. by rewrite Hstep, list_fmap_insert.
Qed.

(** *** Progress *)

Definition is_outside (q : thread) : Prop := match q with Outside _ => True | _ => False end.

#[global] Instance is_outside_dec q : Decision (is_outside q).
Proof. destruct q; solve_decision. Defined.

Lemma fstep_enabled (ps : list thread) σ t q :
  ps !! t = Some q → is_Some (tstep t q σ) → ∃ t y', fstep t (ps, σ) = Some y'.
Proof. intros Hq [[q' σ'] Hs]. exists t. unfold fstep. simpl. rewrite Hq, Hs. eauto. Qed.

(** Inside a critical section nothing blocks. *)
Lemma inside_enabled (ps : list thread) σ : ¬ Forall is_outside ps → ∃ t y', fstep t (ps, σ) = Some y'.
Proof.
  intros (q & [t Hq]%list_elem_of_lookup & Hin)%not_Forall_Exists%Exists_exists; [|apply _].
  eapply fstep_enabled; [done|]. destruct q as [p|sf key lead join|sf key lead join|sf key k|sf p]; try by eexists.
  - by destruct Hin.
  - simpl. destruct (sh_calls σ !! (sf, key)); by eexists.
Qed.

Lemma outside_whole (ps : list thread) : Forall is_outside ps → Outside <$> (whole <$> ps) = ps.
Proof. induction 1 as [|q ps Hq _ IH]; csimpl; [done|]. rewrite IH. by destruct q. Qed.

(** Outside of the critical sections the two see the same. *)
Lemma sim_outside y x : sim y x → Forall is_outside y.1 → y = apart x.
Proof.
  destruct y as [ps σ]. intros (mu & Ho & ->) Hout. unfold apart. simpl in *.
  rewrite outside_whole by done. f_equal. destruct σ as [s calls H mu0]. unfold with_mu. simpl.
  f_equal. apply map_eq. intros sf. apply option_eq. intros t.
  rewrite (ao_mu _ _ Ho sf t : mu0 !! sf = Some t ↔ _). split; [|by left].
  intros [?|(q & Hq & Hin)]; [done|]. eapply Forall_lookup in Hout; [|done]. by destruct q.
Qed.

Lemma pstep_enabled t (p : prog) (σ : shared) : is_Some (pstep t p σ) → is_Some (tstep t (Outside p) σ).
Proof.
  assert (is_Some (pstep t p σ) → is_Some (pr ← pstep t p σ; let '(p', σ') := pr : _ * _ in
    Some (Outside p', σ'))) as Hout.
  { intros [[p' σ'] ->]. by eexists. }
  destruct p as [r| |X m k|sf key lead join|c o k|sf key k|c k|sf k|sf k]; try exact Hout.
  all: simpl; unfold lock; destruct (sh_mu σ !! sf); [by intros [? [=]]|by eexists].
Qed.

Lemma fine_progress y x :
  sim y x → (∃ t x', step t x = Some x') → ∃ t y', fstep t y = Some y'.
Proof.
  intros Hsim (t & x' & Hstep). destruct y as [ps σ].
  destruct (decide (Forall is_outside ps)) as [Hout|]; [|by apply inside_enabled].
  rewrite (sim_outside _ _ Hsim Hout). unfold step in Hstep. destruct (x.1 !! t) as [p|] eqn:Hp; [|done].
  eapply (fstep_enabled _ _ t (Outside p)); [by rewrite list_lookup_fmap, Hp|].
  apply pstep_enabled. destruct (pstep t p x.2); [by eexists|done].
Qed.

(** *** What [step] does, [fstep] does *)

Lemma fstep_next ps t q σ q' σ' y :
  (t < length ps)%nat → tstep t q σ = Some (q', σ') →
  (∃ n, fexec (replicate n t) (<[t := q']> ps, σ') = Some y) →
  ∃ n, fexec (replicate n t) (<[t := q]> ps, σ) = Some y.
Proof.
  intros Ht Hs [n Hn]. exists (S n). cbn [replicate exec_by]. unfold fstep at 1. simpl.
  by rewrite list_lookup_insert_eq, Hs, list_insert_insert_eq.
Qed.

Lemma with_mu_same (σ : shared) : with_mu (sh_mu σ) σ = σ.
Proof. by destruct σ. Qed.

Lemma pstep_taken_apart t (p p' : prog) σ σ' ps :
  pstep t p σ = Some (p', σ') → ps !! t = Some (Outside p) →
  ∃ n, fexec (replicate n t) (ps, σ) = Some (<[t := Outside p']> ps, σ').
Proof.
  intros Hs Hp. pose proof (lookup_lt_Some _ _ _ Hp) as Hlt.
  enough (∃ n, fexec (replicate n t) (<[t := Outside p]> ps, σ) = Some (<[t := Outside p']> ps, σ'))
    as Hn by (by rewrite list_insert_id in Hn).
  assert (∀ σ0, σ0 = σ' → ∃ n, fexec (replicate n t) (<[t := Outside p']> ps, σ0)
    = Some (<[t := Outside p']> ps, σ')) as Hend by (intros σ0 ->; by exists 0%nat).
  assert ((pr ← pstep t p σ; let '(p', σ') := pr : _ * _ in Some (Outside p', σ'))
    = Some (Outside p', σ')) as Hout by (by rewrite Hs).
  assert (tstep t (Outside p) σ = Some (Outside p', σ') →
    ∃ n, fexec (replicate n t) (<[t := Outside p]> ps, σ) = Some (<[t := Outside p']> ps, σ')) as Hone.
  { intros Ht. eapply fstep_next; [done..|]. by apply Hend. }
  destruct p as [r| |X m k|sf key lead join|c o k|sf key k|c k|sf k|sf k]; try exact (Hone Hout).
  all: simpl in Hs; destruct (sh_mu σ !! sf) eqn:Hmu; [done|].
  all: assert (lock t sf σ = Some (with_mu (<[sf := t]> (sh_mu σ)) σ)) as Hlock by (unfold lock; by rewrite Hmu).
  all: eapply fstep_next; [done|simpl; by rewrite Hlock|].
  - destruct (sh_calls σ !! (sf, key)) as [c|] eqn:Hc; simplify_eq.
    + eapply fstep_next; [done|simpl; by rewrite Hc|]. eapply fstep_next; [done..|]. apply Hend.
      unfold with_mu. simpl. rewrite delete_insert_id by done. apply with_mu_same.
    + eapply fstep_next; [done|simpl; by rewrite Hc|]. do 2 (eapply fstep_next; [done..|]). apply Hend.
      unfold with_mu. simpl. by rewrite delete_insert_id.
  - do 2 (eapply fstep_next; [done..|]). simplify_eq. apply Hend.
    unfold with_mu. simpl. by rewrite delete_insert_id.
Qed.

(** Each action of [step] is a run of the same goroutine under [fstep]. *)
Lemma step_taken_apart sched x x' :
  exec sched x = Some x' → ∃ sched', fexec sched' (apart x) = Some (apart x').
Proof.
  revert x. induction sched as [|t sched IH]; intros [ps σ]; simpl; [intros [= <-]; by exists []|].
  destruct (step t (ps, σ)) as [x1|] eqn:Hstep; [|done]. intros [sched' Hx]%IH.
  unfold step in Hstep. simpl in Hstep. destruct (ps !! t) as [p|] eqn:Hp; [|done].
  destruct (pstep t p σ) as [[p' σ']|] eqn:Hs; [|done]. injection Hstep as <-.
  destruct (pstep_taken_apart _ _ _ _ _ (Outside <$> ps) Hs) as [n Hn]; [by rewrite list_lookup_fmap, Hp|].
  exists (replicate n t ++ sched'). rewrite exec_by_app. unfold apart at 1. simpl. rewrite Hn. simpl.
  rewrite <-list_fmap_insert. exact Hx.
Qed.

End Simulation.

(** ** The program logic holds of [fstep] *)

Section Soundness.
Context {St V SF Γ : Type} `{!EqDecision SF, !Countable SF}.
Notation prog := (prog St V SF).
Notation phases := (gmap (SF * string) Γ).
Context (I : St → phases → Prop) (stable : St → Prop).
Context {A : Type} (R : Prop → SF → string → option V → option error → Prop).
Context (Φ : Prop → nat → option A → Prop).
Context (ps : list (prog A)) (s : St) (Hs : I s ∅).
Context (Hps : ∀ T t p, ps !! t = Some p → triple I (R T) stable T toplevel p (Φ T t)).

Implicit Types (x : config St V SF A) (y : fconfig (St := St) (V := V) (SF := SF) (A := A)).

Notation reached x := (∃ sched, exec sched (start ps s) = Some x).

Lemma reached_sim y y' x t :
  reached x → sim y x → fstep t y = Some y' →
  (sim y' x ∧ remaining y' < remaining y)%nat ∨ ∃ x', step t x = Some x' ∧ sim y' x' ∧ reached x'.
Proof.
  intros [sched Hx] Hsim Hstep.
  destruct (fstep_simulated _ _ _ _ Hsim (λ sf k, release_held _ _ _ _ _ _ Hs Hps _ _ _ sf k Hx) Hstep)
    as [?|(x' & Hx' & ?)]; [by left|right].
  exists x'. split_and!; [done..|]. exists (sched ++ [t]). by eapply exec_by_snoc.
Qed.

Lemma fine_reached sched y :
  fexec sched (apart (start ps s)) = Some y → ∃ x, reached x ∧ sim y x.
Proof.
  revert y. induction sched as [|t sched IH] using rev_ind; intros y.
  { intros [= <-]. exists (start ps s). split; [by exists []|apply sim_apart]. }
  rewrite exec_by_app. destruct (fexec sched _) as [y0|] eqn:Hy0; [|done]. simpl.
  destruct (fstep t y0) as [y1|] eqn:Hstep; [|done]. intros [= <-].
  destruct (IH _ eq_refl) as (x & Hx & Hsim).
  destruct (reached_sim _ _ _ _ Hx Hsim Hstep) as [[? _]|(x' & _ & ? & ?)]; [by exists x|by exists x'].
Qed.

(** The invariant and the results hold whenever a schedule stops. *)
Lemma fine_always sched y :
  fexec sched (apart (start ps s)) = Some y →
  (∃ γ, I (sh_st y.2) γ) ∧
  ∀ t r, y.1 !! t = Some (Outside (Done r)) → Φ (stable (sh_st y.2)) t r.
Proof.
  intros (x & [sched' Hx] & (mu & _ & ->))%fine_reached.
  destruct (always _ _ _ _ _ _ Hs Hps _ _ Hx) as [HI Hr]. split; [done|].
  intros t r Ht. apply Hr. simpl. by rewrite list_lookup_fmap, Ht.
Qed.

(** What is inevitable under [step] is so under [fstep], when it says that
    every goroutine has returned. *)
Lemma fine_end (P : config St V SF A → Prop) y x :
  reached x → P x → Forall returned x.1 → sim y x →
  finevitably (λ y, ∃ x, reached x ∧ P x ∧ y = apart x) y.
Proof.
  intros Hx HP Hret. remember (remaining y) as n eqn:Hn. revert y Hn.
  induction (lt_wf n) as [n _ IH]. intros y -> Hsim.
  destruct (decide (Forall is_outside y.1)) as [Hout|Hout].
  { apply inev_now. exists x. split_and!; [done..|by apply sim_outside]. }
  apply inev_later; [destruct y; by apply inside_enabled|]. intros t y' Hstep.
  destruct (reached_sim _ _ _ _ Hx Hsim Hstep) as [[Hsim' Hlt]|(x' & Hx' & _)]; [by eapply IH|].
  unfold step in Hx'. destruct (x.1 !! t) as [p|] eqn:Hp; [|done].
  eapply Forall_lookup in Hret; [|done]. by destruct p.
Qed.

Lemma fine_inevitably (P : config St V SF A → Prop) y x :
  (∀ x, P x → Forall returned x.1) → inevitably P x → reached x → sim y x →
  finevitably (λ y, ∃ x, reached x ∧ P x ∧ y = apart x) y.
Proof.
  intros HP Hin. revert y. induction Hin as [x HPx|x Hex _ IH]; intros y Hx Hsim; [by apply (fine_end P _ x Hx HPx (HP _ HPx))|].
  remember (remaining y) as n eqn:Hn. revert y Hn Hsim.
  induction (lt_wf n) as [n _ IHn]. intros y -> Hsim.
  apply inev_later; [by eapply fine_progress|]. intros t y' Hstep.
  destruct (reached_sim _ _ _ _ Hx Hsim Hstep) as [[Hsim' Hlt]|(x' & Hx' & Hsim' & Hr)]; [by eapply IHn|].
  by eapply IH.
Qed.

(** Under every schedule all goroutines end. *)
Lemma fine_inevitable :
  finevitably (λ y, I (sh_st y.2) ∅ ∧ sh_calls y.2 = ∅ ∧ sh_mu y.2 = ∅ ∧
    ∀ t q, y.1 !! t = Some q → ∃ r, q = Outside (Done r) ∧ Φ (stable (sh_st y.2)) t r)
    (apart (start ps s)).
Proof.
  eapply (inevitably_strengthen _ _ (λ _, True)); [done| |done|].
  2: { eapply (fine_inevitably _ _ (start ps s)); [|by apply (inevitable _ _ _ _ _ _ Hs Hps)|by exists []|apply sim_apart].
       intros x (_ & _ & _ & Hend). apply Forall_lookup. intros t p Hp.
       by destruct (Hend t p Hp) as (r & -> & _). }
  intros y (x & _ & (HI & Hcalls & Hmu & Hend) & ->) _. unfold apart. simpl. split_and!; [done..|].
  intros t q Hq. rewrite list_lookup_fmap in Hq. destruct (x.1 !! t) as [p|] eqn:Hp; simplify_eq/=.
  destruct (Hend t p Hp) as (r & -> & ?). eauto.
Qed.

End Soundness.
