(* ===== verification/Flights.v ===== *)
(** * A goroutine that joins a flight

    Two goroutines call [Do] for one key.  The first is followed on the course
    it takes on its own, up to the results it publishes; the second, once it
    waits for the call of the first, gets these results and changes nothing,
    under every schedule ([joined_ends]). *)

From S2P Require Import Prelude Errors Singleflight Goroutines.

Section Flights.
Context {St V SF : Type} `{!EqDecision SF, !Countable SF}.
Notation prog := (prog St V SF).
Notation call := (call (V := V)).
Notation shared := (shared St V SF).

(** ** Programs that neither start a call nor wait for one *)

Fixpoint flightless {A} (p : prog A) : Prop :=
  match p with
  | Done _ | Hang => True
  | Act _ k => ∀ x, flightless (k x)
  | Enter _ _ _ _ | Wait _ _ => False
  | Publish _ _ k | Delete _ _ k | Acquire _ k | Release _ k => flightless k
  end.

Lemma flightless_bindr {A B} (p : prog A) (k : option A → prog B) :
  flightless p → (∀ r, flightless (k r)) → flightless (bindr p k).
Proof. intros Hp Hk. induction p; simpl in *; auto; done. Qed.

Lemma flightless_bind {A B} (p : prog A) (f : A → prog B) :
  flightless p → (∀ a, flightless (f a)) → flightless (p ≫= f).
Proof. intros Hp Hf. apply flightless_bindr; [done|]. by intros [a|]. Qed.

Lemma flightless_ret {A} (a : A) : flightless (mret a).
Proof. done. Qed.

Lemma flightless_act {A} (m : M St A) : flightless (act m).
Proof. done. Qed.

Lemma flightless_for_each {A B} (f : A → prog B) l :
  (∀ x, flightless (f x)) → flightless (for_each_go f l).
Proof.
  intros Hf. induction l as [|x l IH]; [done|]. simpl.
  apply flightless_bind; [done|]. intros y. by apply flightless_bind.
Qed.

Lemma flightless_Lock {A} sf (fn : prog A) : flightless fn → flightless (Lock sf fn).
Proof. intros Hfn. by apply flightless_bindr. Qed.

(** Such a program only removes calls. *)
Lemma flightless_pstep {A} t (p p' : prog A) (σ σ' : shared) :
  flightless p → pstep t p σ = Some (p', σ') →
  flightless p' ∧ ∀ k c, sh_calls σ' !! k = Some c → sh_calls σ !! k = Some c.
Proof.
  intros Hp Hs. destruct p; simpl in *; repeat case_match; simplify_eq/=; try done.
  all: split; [auto|]; intros k' c' Hk; try done. by apply lookup_delete_Some in Hk as [_ ?].
Qed.

(** A call is signalled once more or left as it is. *)
Lemma pstep_heap {A} t (p p' : prog A) (σ σ' : shared) c cl :
  pstep t p σ = Some (p', σ') → sh_heap σ !! c = Some cl →
  ∃ cl', sh_heap σ' !! c = Some cl' ∧ (cl' = cl ∨ wg cl' < wg cl).
Proof.
  intros Hs Hc. destruct p as [| | |sf key lead join|c0 o k| | | |]; simpl in Hs; repeat case_match; simplify_eq/=; eauto.
  - exists cl. split; [by apply lookup_app_l_Some|by left].
  - destruct (decide (c = c0)) as [->|Hne]; [|exists cl; rewrite list_lookup_insert_ne by done; by auto].
    simplify_eq. eexists. split; [apply list_lookup_insert_eq; by eapply lookup_lt_Some|].
    right. destruct o; simpl; lia.
Qed.

Lemma heap_some {A} t (p p' : prog A) (σ σ' : shared) c :
  pstep t p σ = Some (p', σ') → is_Some (sh_heap σ !! c) → is_Some (sh_heap σ' !! c).
Proof. intros Hs [cl Hc]. destruct (pstep_heap _ _ _ _ _ _ _ Hs Hc) as (cl' & ? & _). by eexists. Qed.

(** ** The course of one goroutine *)

Lemma pmove_shrinks {A} t (x y : prog A * shared) : pmove t x y → shrinks y.1 x.1.
Proof. destruct x as [p σ], y as [p' σ']. intros Hs. by exists t, σ, σ'. Qed.

Lemma course_next {A} t (p p' : prog A) (σ σ' : shared) (z : prog A * shared) :
  rtc (pmove t) (p, σ) z → pstep t p σ = Some (p', σ') → z = (p, σ) ∨ rtc (pmove t) (p', σ') z.
Proof.
  intros Hr Hs. inversion Hr as [|? y ? Hy Hr']; [by left|right]. subst.
  unfold pmove in Hy. simpl in Hy. rewrite Hs in Hy. by injection Hy as <-.
Qed.

Lemma course_flightless {A} t (x y : prog A * shared) : rtc (pmove t) x y → flightless x.1 → flightless y.1.
Proof.
  induction 1 as [x|[p σ] [p' σ'] z Hxy _ IH]; [done|]. intros Hp. by apply IH, (flightless_pstep t p p' σ σ').
Qed.

Lemma course_heap {A} t (x y : prog A * shared) c cl :
  rtc (pmove t) x y → sh_heap x.2 !! c = Some cl →
  ∃ cl', sh_heap y.2 !! c = Some cl' ∧ (cl' = cl ∨ wg cl' < wg cl).
Proof.
  intros Hr. revert cl. induction Hr as [x|x y z Hxy _ IH]; intros cl Hc; [eauto|].
  destruct x as [p σ], y as [p' σ']. destruct (pstep_heap _ _ _ _ _ _ _ Hxy Hc) as (cl1 & Hc1 & H1).
  destruct (IH _ Hc1) as (cl2 & Hc2 & H2). exists cl2. split; [done|].
  destruct H1 as [->|], H2 as [->|]; auto. right. lia.
Qed.

Section Joined.
Context {A : Type} (a b : option A) (σf : shared).

Notation ended := (λ y : config St V SF A, y = ([Done a; Done b], σf)).

(** The first goroutine, once the second has returned. *)
Lemma first_ends (p : prog A) (σ : shared) :
  rtc (pmove 0) (p, σ) (Done a, σf) → inevitably ended ([p; Done b], σ).
Proof.
  revert σ. induction (shrinks_acc p) as [p _ IH]. intros σ Hr.
  inversion Hr as [|? [p1 σ1] ? Hp Hr']; subst; [by apply inev_now|]. apply inev_later.
  - exists 0%nat. unfold step. simpl. unfold pmove in Hp. simpl in Hp. rewrite Hp. eauto.
  - intros [|[|t]] x' Hs; unfold step in Hs; simpl in Hs; [|done..].
    unfold pmove in Hp. simpl in Hp. rewrite Hp in Hs. injection Hs as <-. simpl.
    apply IH; [by apply (pmove_shrinks 0 (p, σ) (p1, σ1))|done].
Qed.

Context (c : nat) (clf : call) (kw : option V → option error → prog A).
Context (Hclf : sh_heap σf !! c = Some clf) (Hwg : wg clf = 0) (Hkw : kw (val clf) (err clf) = Done b).

(** The first goroutine, and the second waiting for its call. *)
Lemma joined_ends (p : prog A) (σ : shared) :
  rtc (pmove 0) (p, σ) (Done a, σf) → is_Some (sh_heap σ !! c) → inevitably ended ([p; Wait c kw], σ).
Proof.
  revert σ. induction (shrinks_acc p) as [p _ IH]. intros σ Hr [cl Hcl].
  destruct (course_heap _ _ _ _ _ Hr Hcl) as (clf' & Hclf' & Hlt). simpl in Hclf'. simplify_eq.
  assert (∀ x', step 1 ([p; Wait c kw], σ) = Some x' → x' = ([p; Done b], σ)) as Hsecond.
  { unfold step. simpl. rewrite Hcl. case_bool_decide; [|done]. intros x' [= <-].
    destruct Hlt as [<-|]; [|lia]. by rewrite Hkw. }
  inversion Hr as [Hend|? [p1 σ1] ? Hp Hr']; subst; apply inev_later.
  - exists 1%nat. unfold step. simpl. rewrite Hclf, bool_decide_true by done. eauto.
  - intros [|[|t]] x' Hs; [by unfold step in Hs|rewrite (Hsecond _ Hs); by apply first_ends|by unfold step in Hs].
  - exists 0%nat. unfold step. simpl. unfold pmove in Hp. simpl in Hp. rewrite Hp. eauto.
  - intros [|[|t]] x' Hs; [|rewrite (Hsecond _ Hs); by apply first_ends|by unfold step in Hs].
    unfold step in Hs. simpl in Hs. unfold pmove in Hp. simpl in Hp. rewrite Hp in Hs. injection Hs as <-. simpl.
    apply IH; [by apply (pmove_shrinks 0 (p, σ) (p1, σ1))|done|].
    by eapply heap_some.
Qed.

End Joined.

(** ** Every schedule of two goroutines *)

(** A program that first reads, then does [d] or nothing with calls. *)
Inductive approaches {A} (d : prog A) : prog A → Prop :=
| approaches_here : approaches d d
| approaches_never p : flightless p → approaches d p
| approaches_read {X} (m : M St X) k :
    (∀ s, (m s).2 = s) → (∀ x, approaches d (k x)) → approaches d (Act m k).

Lemma approaches_pstep {A} t (d p p' : prog A) (σ σ' : shared) :
  approaches d p → pstep t p σ = Some (p', σ') →
  p = d ∨ flightless p ∨ (σ' = σ ∧ approaches d p').
Proof.
  intros Ha Hs. destruct Ha as [|p Hp|X m k Hm Hk]; [by left| |]; right; [by left|]. simpl in Hs.
  specialize (Hm (sh_st σ)). destruct (m (sh_st σ)) as [[x| |] s] eqn:Heq; simpl in *; simplify_eq.
  all: assert (with_st (sh_st σ) σ = σ) as Hσ by (by destruct σ); rewrite Hσ.
  1,2: by right. right. split; [done|]. by apply approaches_never.
Qed.

Section Schedule.
Context {A : Type} (sf : SF) (key : string) (p0 q0 : prog A) (s0 : St).
Context (lead join lead' : nat → prog A) (kw : option V → option error → prog A).
Context (a b : option A) (σf : shared) (clf : call).

Notation Do0 := (Enter sf key lead join).
Notation Do1 := (Enter sf key lead' (λ c, Wait c kw)).
Notation σ0 := (mkShared s0 ∅ [] ∅ : shared).
Notation first_call := (mkShared s0 {[(sf, key) := 0%nat]} [mkCall 1 None leader_panicked] ∅ : shared).

(** The first goroutine on its own: it starts the call and ends with it. *)
Context (Hstart : rtc (pmove 0) (p0, σ0) (Do0, σ0)).
Context (Hcourse : rtc (pmove 0) (lead 0%nat, first_call) (Done a, σf)).
Context (Hclf : sh_heap σf !! 0%nat = Some clf) (Hwg : wg clf = 0) (Hkw : kw (val clf) (err clf) = Done b).
Context (Happ0 : approaches Do0 p0) (Happ1 : approaches Do1 q0).
Context (Hlead : flightless (lead 0%nat)) (Hlead' : ∀ c, flightless (lead' c)) (Hdone : ∀ v e, flightless (kw v e)).

(** Where the two goroutines are. *)
Inductive course : config St V SF A → Prop :=
| before_call p q : approaches Do0 p → rtc (pmove 0) (p, σ0) (Do0, σ0) → approaches Do1 q → course ([p; q], σ0)
| in_call p q (σ : shared) : flightless p → rtc (pmove 0) (p, σ) (Done a, σf) →
    (∀ c, sh_calls σ !! (sf, key) = Some c → c = 0%nat) → is_Some (sh_heap σ !! 0%nat) →
    approaches Do1 q → course ([p; q], σ)
| joined p (σ : shared) : rtc (pmove 0) (p, σ) (Done a, σf) → is_Some (sh_heap σ !! 0%nat) →
    course ([p; Wait 0 kw], σ)
| never_joins p q (σ : shared) : flightless q → course ([p; q], σ).

(** A step of the first goroutine. *)
Lemma course_first p q (σ : shared) p' σ' :
  course ([p; q], σ) → pstep 0 p σ = Some (p', σ') → course ([p'; q], σ').
Proof.
  intros Hc Hs. inversion Hc as [? ? Ha Hr Hq|? ? ? Hp Hr Hcalls Hheap Hq|? ? Hr Hheap|? ? ? Hq]; subst.
  - destruct (course_next _ _ _ _ _ _ Hr Hs) as [[= <-]|Hr'].
    + simpl in Hs. rewrite !lookup_empty in Hs. injection Hs as <- <-.
      apply in_call; [done|exact Hcourse| |by eexists|done].
      intros c. simpl. rewrite lookup_insert_eq. by intros [= <-].
    + destruct (approaches_pstep _ _ _ _ _ _ Ha Hs) as [->|[Hp|[-> Ha']]].
      * simpl in Hs. rewrite !lookup_empty in Hs. injection Hs as <- <-.
        apply course_flightless in Hr'; [done|exact Hlead].
      * apply course_flightless in Hr; [done|exact Hp].
      * by apply before_call.
  - destruct (flightless_pstep _ _ _ _ _ Hp Hs) as [Hp' Hsub].
    destruct (course_next _ _ _ _ _ _ Hr Hs) as [[= <- <-]|Hr']; [done|].
    apply in_call; [done|done| |by eapply heap_some|done]. intros c Hc'. by apply Hcalls, Hsub.
  - destruct (course_next _ _ _ _ _ _ Hr Hs) as [[= <- <-]|Hr']; [done|].
    apply joined; [done|by eapply heap_some].
  - by apply never_joins.
Qed.

(** A step of the second. *)
Lemma course_second p q (σ : shared) q' σ' :
  course ([p; q], σ) → pstep 1 q σ = Some (q', σ') → course ([p; q'], σ').
Proof.
  assert (∀ τ τ' c, sh_calls τ !! (sf, key) = None → pstep 1 Do1 τ = Some (c, τ') → flightless c) as Hleads.
  { intros τ τ' c Hn Hs. simpl in Hs. rewrite Hn in Hs. case_match; simplify_eq. done. }
  intros Hc Hs. inversion Hc as [? ? Ha Hr Hq|? ? ? Hp Hr Hcalls Hheap Hq|? ? Hr Hheap|? ? ? Hq]; subst.
  - destruct (approaches_pstep _ _ _ _ _ _ Hq Hs) as [->|[Hf|[-> Ha']]]; [| |by apply before_call].
    + eapply never_joins, (Hleads σ0); [apply lookup_empty|done].
    + by eapply never_joins, flightless_pstep.
  - destruct (approaches_pstep _ _ _ _ _ _ Hq Hs) as [->|[Hf|[-> Ha']]]; [| |by apply in_call].
    + destruct (sh_calls σ !! (sf, key)) as [c|] eqn:Hcs; [|by eapply never_joins, Hleads].
      simpl in Hs. rewrite Hcs in Hs. case_match; simplify_eq. rewrite (Hcalls c eq_refl).
      by apply joined.
    + by eapply never_joins, flightless_pstep.
  - simpl in Hs. repeat case_match; simplify_eq. apply never_joins, Hdone.
  - by eapply never_joins, flightless_pstep.
Qed.

Lemma course_exec sched x : exec sched (start [p0; q0] s0) = Some x → course x.
Proof.
  revert x. induction sched as [|t sched IH] using rev_ind; intros x.
  { intros [= <-]. by apply before_call. }
  rewrite exec_by_app. destruct (exec sched _) as [[ps σ]|]; [|done]. simpl. specialize (IH _ eq_refl).
  assert (∃ p q, ps = [p; q]) as (p & q & ->) by (inversion IH; eauto).
  unfold step. intros Hs. destruct t as [|[|t]]; simpl in Hs; [..|done].
  - destruct (pstep 0 p σ) as [[p' σ']|] eqn:Hp; simplify_eq/=. by eapply course_first.
  - destruct (pstep 1 q σ) as [[q' σ']|] eqn:Hq; simplify_eq/=. by eapply course_second.
Qed.

(** Whenever the second goroutine waits, both are bound for the results of the
    first, and for the state that one leaves on its own. *)
Lemma duplicate_ends sched x c k :
  exec sched (start [p0; q0] s0) = Some x → x.1 !! 1%nat = Some (Wait c k) →
  inevitably (λ y : config St V SF A, y = ([Done a; Done b], σf)) x.
Proof.
  intros Hx%course_exec Hw. destruct Hx as [p q _ _ Hq|p q σ _ _ _ _ Hq|p σ Hr Hh|p q σ Hq]; simplify_eq/=.
  - by inversion Hq.
  - by inversion Hq.
  - by eapply joined_ends.
  - done.
Qed.

End Schedule.

End Flights.
