(* ===== verification/GroupConc.v ===== *)
(** * Concurrent operations on one group (group.go)

    The operations of Group.v as goroutines that share the group: each cache
    operation, counter update and request is one atomic action, [load], [Set]
    and [Remove] go through the three singleflight groups of the group, and
    the updates of [Set], [RemoteSet] and [LocalRemove] run under
    [loadGroup.Lock].  [group_alone] ties these programs to the sequential
    definitions; [group_concurrent_legit] and [group_concurrent_returns] hold
    for all interleavings of any number of operations, with the critical
    sections of [Do] taken apart (Critical.v), and so does
    [group_concurrent_Set_dropped] for two Sets of one key. *)

From S2P Require Import Prelude Errors Slices ByteView Sinks Picker MutexCache CacheIface Pb Group Recorder GroupCorrect GroupTargets GroupWrites Singleflight Goroutines Critical Flights.

(** The fields of type [singleflight.Group]. *)
Inductive flight := loadGroup | setGroup | removeGroup.

#[export] Instance flight_eq_dec : EqDecision flight.
Proof. solve_decision. Defined.

#[export] Instance flight_countable : Countable flight.
Proof.
  refine (inj_countable'
    (λ f, match f with loadGroup => 0%nat | setGroup => 1%nat | removeGroup => 2%nat end)
    (λ n, match n with O => loadGroup | S O => setGroup | _ => removeGroup end) _).
  by intros [].
Defined.

Section GroupConc.
Context {K C W message : Type}.
Context `{!Cache K, !Client C, !Peer C W, !Proto message}.
Context `{!EqDecision C, !Countable C, !MapRange string C, !MapRange C (list string), GoOrder}.
Context `{!Env K C W message}.

Notation Sink := (Sink (message := message)).
Notation St := (state K W).
Notation go := (prog St ByteView flight).
Notation inst := (inst (K := K) (C := C) (W := W) (message := message)).
Notation instance_PickPeer := (instance_PickPeer (K := K) (C := C) (W := W) (message := message)).
Notation getAllPeers := (getAllPeers (K := K) (C := C) (W := W) (message := message)).
Notation ctx_done := (ctx_done (K := K) (C := C) (W := W) (message := message)).
Notation Now := (Now (K := K) (C := C) (W := W) (message := message)).
Notation cached_Get := (cached_Get (K := K) (C := C) (W := W) (message := message)).

Implicit Types (key : string) (dest : Sink).

(** [lookupCache]: a cache reads the clock under its own mutex. *)
Definition lookupCache_go key : go (option ByteView) :=
  g ← act get_group;
  if bool_decide (maxCacheBytes g <= 0) then mret None else
  value ← act (cached_Get on_main key);
  match value with
  | Some v => mret (Some v)
  | None => act (cached_Get on_hot key)
  end.

Definition RemoteSet_go key (value : bytes) (expire : Time) : go unit :=
  g ← act get_group;
  if bool_decide (maxCacheBytes g <= 0) then mret tt else
  Lock loadGroup (
    let bv := ByteViewWithExpire value expire in
    _ ← act (on_main (cache_Add key bv));
    act (on_hot (cache_Remove key))).

Definition LocalRemove_go key : go unit :=
  g ← act get_group;
  if bool_decide (maxCacheBytes g <= 0) then mret tt else
  Lock loadGroup (
    _ ← act (on_hot (cache_Remove key));
    act (on_main (cache_Remove key))).

Definition getFromPeer_go (peer : C) key : go (error + ByteView) :=
  g ← act get_group;
  '(err, res) ← act (outside (client_Get peer (mkGetRequest (Some (name g)) (Some key))));
  match err with
  | Some err => mret (inl err)
  | None =>
      let value := ByteViewWithExpire (getres_Value res) (decode_expire (getres_Expire res)) in
      _ ← act (populateCache key value HotCache);
      mret (inr value)
  end.

(** [if Latency.Get() < d { Latency.Store(d) }]: two atomic operations. *)
Definition latency_go (d : Z) : go unit :=
  g ← act get_group;
  if bool_decide (AtomicInt_Get (s_GetFromPeersLatencyLower (g_Stats g)) < d)
  then act (on_stats (λ s, mkGroupStats (s_Gets s) (s_CacheHits s)
              (AtomicInt_Store (s_GetFromPeersLatencyLower s) d)
              (s_PeerLoads s) (s_PeerErrors s) (s_Loads s) (s_LoadsDeduped s) (s_LocalLoads s)
              (s_LocalLoadErrs s) (s_RemoveKeysRequests s) (s_RemovedKeys s)))
  else mret tt.

Definition loadFromPeer_go (peer : C) key : go peer_result :=
  start ← act Now;
  r ← getFromPeer_go peer key;
  stop ← act Now;
  _ ← latency_go (Z.quot (time_Sub stop start) Millisecond);
  match r with
  | inr value => _ ← act (count PeerLoads 1); mret (PeerAnswer value)
  | inl err =>
      if errors_Is err Canceled then mret (PeerError err) else
      if errors_Is err (ErrNotFound "") then mret (PeerError err) else
      if errors_Is err (ErrRemoteCall "") then mret (PeerError err) else
      _ ← act (count PeerErrors 1);
      done ← act ctx_done;
      if done : bool then mret (PeerError err) else mret LoadLocally
  end.

Definition loadLocally_go key dest : go ((error + ByteView) * bool * Sink) :=
  '(r, dest) ← act (getLocally key dest);
  match r with
  | inl err => _ ← act (count LocalLoadErrs 1); mret (inl err, false, dest)
  | inr value =>
      _ ← act (count LocalLoads 1);
      _ ← act (populateCache key value MainCache);
      mret (inr value, true, dest)
  end.

Definition load_fn_go key dest : go ((error + ByteView) * bool * Sink) :=
  hit ← lookupCache_go key;
  match hit with
  | Some value => _ ← act (count CacheHits 1); mret (inr value, false, dest)
  | None =>
      _ ← act (count LoadsDeduped 1);
      match instance_PickPeer key with
      | (Some peer, true) =>
          r ← loadFromPeer_go peer key;
          match r with
          | PeerAnswer value => mret (inr value, false, dest)
          | PeerError err => mret (inl err, false, dest)
          | LoadLocally => loadLocally_go key dest
          end
      | _ => loadLocally_go key dest
      end
  end.

(** The results of the function of [loadGroup.Do]: [destPopulated] and [dest]
    belong to the caller, the rest is shared with the duplicates. *)
Definition load_results (x : (error + ByteView) * bool * Sink)
    : (bool * Sink) * (option ByteView * option error) :=
  let '(r, destPopulated, dest) := x in
  ((destPopulated, dest),
   match r with inl err => (None, Some err) | inr value => (Some value, None) end).

(** [load]: [viewi.(transport.ByteView)] panics on nil. *)
Definition load_go key dest : go ((error + ByteView) * bool * Sink) :=
  _ ← act (count Loads 1);
  '(mine, (viewi, err)) ← Do loadGroup key (x ← load_fn_go key dest; mret (load_results x));
  let '(destPopulated, dest) := default (false, dest) mine in
  match err, viewi with
  | Some err, _ => mret (inl err, destPopulated, dest)
  | None, Some value => mret (inr value, destPopulated, dest)
  | None, None => Done None
  end.

Definition Get_go key (dest : option Sink) : go (option error * option Sink) :=
  _ ← act (count Gets 1);
  match dest with
  | None => mret (Some (ErrorString "groupcache: nil dest Sink"), None)
  | Some dest =>
      hit ← lookupCache_go key;
      match hit with
      | Some value =>
          _ ← act (count CacheHits 1);
          '(dest, err) ← act (on_mem (SetSinkView dest value));
          mret (err, Some dest)
      | None =>
          '(r, destPopulated, dest) ← load_go key dest;
          match r with
          | inl err => mret (Some err, Some dest)
          | inr value =>
              if destPopulated : bool then mret (None, Some dest) else
              '(dest, err) ← act (on_mem (SetSinkView dest value));
              mret (err, Some dest)
          end
      end
  end.

(** The function of [setGroup.Do] and of [removeGroup.Do]; the first result is
    always nil. *)
Definition Set_fn_go key (value : bytes) (expire : Time) : go (option error) :=
  let '(owner, isRemote) := instance_PickPeer key in
  err ← (match owner, isRemote with
         | Some o, true => act (setPeer o key value expire)
         | _, _ => mret None
         end);
  match err with
  | Some err => mret (Some err)
  | None =>
      let bv := ByteViewWithExpire value expire in
      _ ← Lock loadGroup (
            _ ← act (on_main (cache_Add key bv));
            act (on_hot (cache_Remove key)));
      targets ← act (set_targets owner getAllPeers);
      _ ← for_each_go (λ p, act (setPeer_logged (message := message) key value expire p)) (go_order targets);
      mret None
  end.

(** [_, err := g.Do(key, fn); return err] *)
Definition Do_error (sf : flight) key (fn : go (option error)) : go (option error) :=
  '(_, (_, err)) ← Do sf key (err ← fn; mret (tt, (None, err)));
  mret err.

Definition Set_go key (value : bytes) (expire : Time) : go (option error) :=
  if bool_decide (key = "") then mret (Some (ErrorString "empty Set() key not allowed")) else
  g ← act get_group;
  if bool_decide (maxCacheBytes g <= 0) then mret None else
  Do_error setGroup key (Set_fn_go key value expire).

Definition Remove_fn_go key : go (option error) :=
  let '(owner, isRemote) := instance_PickPeer key in
  err ← (match owner, isRemote with
         | Some o, true => act (removeFromPeer o key)
         | _, _ => mret None
         end);
  match err with
  | Some err => mret (Some err)
  | None =>
      _ ← LocalRemove_go key;
      errs ← for_each_go (λ p, act (removeFromPeer p key)) (go_order (remove_targets owner getAllPeers));
      mret (collect (go_order errs))
  end.

Definition Remove_go key : go (option error) := Do_error removeGroup key (Remove_fn_go key).

Definition RemoveKeys_go (keys : list string) : go (option error) :=
  if bool_decide (keys = []) then mret None else
  _ ← act (count RemoveKeysRequests 1);
  _ ← act (count RemovedKeys (Z.of_nat (length keys)));
  _ ← for_each_go LocalRemove_go keys;
  g ← act get_group;
  errs ← for_each_go (λ '(p, ks),
           act (outside (client_RemoveKeys p (mkRemoveKeysRequest (Some (name g)) ks))))
           (go_order (removeKeys_requests (K := K) (W := W) (message := message) keys));
  mret (collect (go_order errs)).

(** ** The operations goroutines call *)

Inductive operation :=
| OpGet key (dest : option Sink)
| OpSet key (value : bytes) (expire : Time)
| OpRemove key
| OpRemoveKeys (keys : list string)
| OpRemoteSet key (value : bytes) (expire : Time)
| OpLocalRemove key.

Inductive answered :=
| AGet (err : option error) (dest : option Sink)
| AError (err : option error)
| AUnit.

Definition operation_go (op : operation) : go answered :=
  match op with
  | OpGet key dest => '(err, dest) ← Get_go key dest; mret (AGet err dest)
  | OpSet key value expire => err ← Set_go key value expire; mret (AError err)
  | OpRemove key => err ← Remove_go key; mret (AError err)
  | OpRemoveKeys keys => err ← RemoveKeys_go keys; mret (AError err)
  | OpRemoteSet key value expire => _ ← RemoteSet_go key value expire; mret AUnit
  | OpLocalRemove key => _ ← LocalRemove_go key; mret AUnit
  end.

(** The same operation when no other runs. *)
Definition operation_seq (op : operation) : M St answered :=
  match op with
  | OpGet key dest => '(err, dest) ← Get key dest; mret (AGet err dest)
  | OpSet key value expire => err ← Set_ (message := message) key value expire; mret (AError err)
  | OpRemove key => err ← Remove (message := message) key; mret (AError err)
  | OpRemoveKeys keys => err ← RemoveKeys (message := message) keys; mret (AError err)
  | OpRemoteSet key value expire => _ ← RemoteSet key value expire; mret AUnit
  | OpLocalRemove key => _ ← LocalRemove key; mret AUnit
  end.

(** Any number of operations, with nothing in flight yet. *)
Definition operations_start (ops : list operation) (s : St) : config St ByteView flight answered :=
  start (operation_go <$> ops) s.

(** ** One operation on its own *)

Ltac alone_step :=
  lazymatch goal with
  | |- ∀ _, _ => intros ?
  | |- alone _ (match ?x with _ => _ end) _ => destruct x
  | |- alone _ (_ ≫= _) _ => eapply alone_bind
  | |- alone _ (act _) _ => apply alone_act
  | |- alone _ (mret _) _ => apply alone_ret
  | |- alone _ (Done None) _ => apply alone_panic
  | |- alone _ (for_each_go _ _) _ => apply alone_for_each
  | _ => by eauto with alone
  end.

Lemma lookupCache_alone X key : alone X (lookupCache_go key) (lookupCache (message := message) (C := C) key).
Proof. unfold lookupCache_go, lookupCache. repeat alone_step. Qed.

Lemma getFromPeer_alone X peer key : alone X (getFromPeer_go peer key) (getFromPeer peer key).
Proof. unfold getFromPeer_go, getFromPeer. repeat alone_step. Qed.

Lemma latency_alone X d : alone X (latency_go d) (on_stats (stats_latency d)).
Proof.
  unfold latency_go. eapply alone_ext; cycle 1.
  { eapply alone_bind; [apply alone_act|]. intros g. apply alone_if; repeat alone_step. }
  intros [[n max cm ch []] mem w]. unfold get_group, on_stats, mbind, M_bind. simpl.
  unfold AtomicInt_Get. by case_bool_decide.
Qed.

(** Two loads that read the statistic before either stores its duration leave
    the smaller one. *)
Lemma latency_lost_update d1 d2 (s : St) :
  s_GetFromPeersLatencyLower (g_Stats (st_g s)) < d1 < d2 →
  ∃ x, exec [1; 0; 0; 1]%nat (start [latency_go d2; latency_go d1] s) = Some x ∧
    s_GetFromPeersLatencyLower (g_Stats (st_g (sh_st x.2))) = d1 ∧
    x.1 = [Done (Some tt); Done (Some tt)].
Proof.
  intros [H1 H2]. unfold latency_go. cbn. unfold AtomicInt_Get.
  rewrite !bool_decide_true by lia. cbn. by eexists.
Qed.

Hint Resolve lookupCache_alone getFromPeer_alone latency_alone : alone.

Lemma loadFromPeer_alone X peer key :
  alone X (loadFromPeer_go peer key) (loadFromPeer (message := message) peer key).
Proof. unfold loadFromPeer_go, loadFromPeer. repeat alone_step. Qed.

Lemma loadLocally_alone X key dest : alone X (loadLocally_go key dest) (loadLocally key dest).
Proof. unfold loadLocally_go, loadLocally. repeat alone_step. Qed.

Hint Resolve loadFromPeer_alone loadLocally_alone : alone.

Lemma load_fn_alone X key dest : alone X (load_fn_go key dest) (load_fn key dest).
Proof. unfold load_fn_go, load_fn. repeat alone_step. Qed.

Hint Resolve load_fn_alone : alone.

(** [Do] on its own runs its function. *)
Lemma load_alone key dest : alone (flown loadGroup) (load_go key dest) (load key dest).
Proof.
  unfold load_go, load. apply alone_bind; [apply alone_act|]. intros _.
  eapply alone_ext; cycle 1.
  { eapply (alone_bind _ _ _ _ (λ '(mine, (viewi, err)),
      let '(destPopulated, dest) := default (false, dest) mine in
      match err, viewi with
      | Some err, _ => mret (inl err, destPopulated, dest)
      | None, Some value => mret (inr value, destPopulated, dest)
      | None, None => panic
      end)); [|repeat alone_step].
    eapply (alone_mono (flown loadGroup ∪ ∅)); [set_solver|].
    apply alone_Do; [set_solver|]. eapply alone_bind; [apply load_fn_alone|]. intros x. apply alone_ret. }
  intros s. unfold mbind, M_bind, mret, M_ret.
  by destruct (load_fn key dest s) as [[[[[] ?] ?]| |] ?].
Qed.

Hint Resolve load_alone : alone.

Lemma Get_alone key (dest : option Sink) : alone (flown loadGroup) (Get_go key dest) (Get key dest).
Proof. unfold Get_go, Get. repeat alone_step. Qed.

Lemma Do_error_alone X sf key fn m :
  (sf, true) ∉ X → alone X fn m → alone (flown sf ∪ X) (Do_error sf key fn) m.
Proof.
  intros Hsf Hfn. unfold Do_error. eapply alone_ext; cycle 1.
  { eapply (alone_bind _ _ _ _ (λ '(_, (_, err)), mret err)); [|repeat alone_step].
    apply alone_Do; [done|]. eapply alone_bind; [done|]. intros e. apply alone_ret. }
  intros s. unfold mbind, M_bind, mret, M_ret. by destruct (m s) as [[] ?].
Qed.

Lemma RemoteSet_alone key value expire :
  alone (locked loadGroup) (RemoteSet_go key value expire) (RemoteSet key value expire).
Proof.
  unfold RemoteSet_go, RemoteSet. repeat alone_step.
  eapply (alone_mono (locked loadGroup ∪ ∅)); [set_solver|]. apply alone_Lock; [set_solver|].
  repeat alone_step.
Qed.

Lemma LocalRemove_alone key :
  alone (locked loadGroup) (LocalRemove_go key) (LocalRemove key).
Proof.
  unfold LocalRemove_go, LocalRemove. repeat alone_step.
  eapply (alone_mono (locked loadGroup ∪ ∅)); [set_solver|]. apply alone_Lock; [set_solver|].
  repeat alone_step.
Qed.

Hint Resolve LocalRemove_alone : alone.

Lemma Set_fn_alone key value expire :
  alone (locked loadGroup) (Set_fn_go key value expire) (Set_fn (message := message) key value expire).
Proof.
  unfold Set_fn_go, Set_fn. destruct (instance_PickPeer key) as [owner isRemote].
  apply alone_bind; [repeat alone_step|]. intros [err|]; [apply alone_ret|].
  eapply alone_ext; cycle 1.
  { eapply alone_bind; [|intros ?; eapply alone_bind; [apply alone_act|intros targets]].
    - eapply (alone_mono (locked loadGroup ∪ ∅)); [set_solver|]. apply alone_Lock; [set_solver|].
      eapply alone_bind; [apply alone_act|]. intros ?. apply alone_act.
    - eapply alone_bind; [apply alone_for_each; intros p; apply alone_act|]. intros ?. apply alone_ret. }
  intros s. by rewrite M_bind_assoc.
Qed.

Lemma Set_alone key value expire :
  alone (flown setGroup ∪ locked loadGroup) (Set_go key value expire) (Set_ (message := message) key value expire).
Proof.
  unfold Set_go, Set_. repeat alone_step.
  apply Do_error_alone; [set_solver|apply Set_fn_alone].
Qed.

Lemma Remove_alone key :
  alone (flown removeGroup ∪ locked loadGroup) (Remove_go key) (Remove (message := message) key).
Proof.
  unfold Remove_go, Remove. apply Do_error_alone; [set_solver|].
  unfold Remove_fn_go. destruct (instance_PickPeer key) as [owner isRemote]. repeat alone_step.
Qed.

Lemma RemoveKeys_alone keys :
  alone (locked loadGroup) (RemoveKeys_go keys) (RemoveKeys (message := message) keys).
Proof. unfold RemoveKeys_go, RemoveKeys. repeat alone_step. Qed.

Definition all_flights : gset (flight * bool) := flown loadGroup ∪ flown setGroup ∪ flown removeGroup.

Lemma operation_alone op : alone all_flights (operation_go op) (operation_seq op).
Proof.
  unfold operation_go, operation_seq, all_flights.
  destruct op; (eapply alone_bind; [|repeat alone_step]).
  - eapply alone_mono; [|apply Get_alone]. set_solver.
  - eapply alone_mono; [|apply Set_alone]. set_solver.
  - eapply alone_mono; [|apply Remove_alone]. set_solver.
  - eapply alone_mono; [|apply RemoveKeys_alone]. set_solver.
  - eapply alone_mono; [|apply RemoteSet_alone]. set_solver.
  - eapply alone_mono; [|apply LocalRemove_alone]. set_solver.
Qed.

(** C6: The concurrent programs refine the sequential definitions: an
    operation that no other goroutine interrupts, started with nothing in
    flight, returns what the sequential operation returns (or panics as it
    does), leaves the same state, and leaves no call in flight and no mutex
    held. *)
Theorem group_alone op s :
  (operation_seq op s).1 ≠ Diverged →
  ∃ sched H, fexec sched (apart (start [operation_go op] s))
    = Some (apart ([Done (result (operation_seq op s).1)], mkShared (operation_seq op s).2 ∅ H ∅)).
Proof.
  intros Hd. destruct (alone_exec _ _ _ _ (operation_alone op) Hd) as (n & H' & Hx).
  apply step_taken_apart in Hx as [sched Hx]. by exists sched, H'.
Qed.

(** ** A Set and the flight it starts *)

(** [Set] once its checks are passed, its function as the leader of the call
    [c], and the wait of a duplicate. *)
Definition Set_call key (value : bytes) (expire : Time) : go answered :=
  err ← Do_error setGroup key (Set_fn_go key value expire); mret (AError err).

Definition Set_lead key (value : bytes) (expire : Time) (c : nat) : go answered :=
  r ← bindr (bindr (err ← Set_fn_go key value expire; mret (tt, (None, err)))
        (λ r, Publish c (outcome_of r) (Delete setGroup key (Done ((λ '(x, ve), (Some x, ve)) <$> r)))))
      (λ r, match r with Some (_, (_, err)) => mret err | None => Done None end);
  mret (AError r).

Definition Set_wait (_ : option ByteView) (err : option error) : go answered := mret (AError err).

Lemma Set_call_eq key value expire :
  Set_call key value expire = Enter setGroup key (Set_lead key value expire) (λ c, Wait c Set_wait).
Proof. reflexivity. Qed.

Lemma Set_fn_flightless key value expire : flightless (Set_fn_go key value expire).
Proof.
  unfold Set_fn_go. destruct (instance_PickPeer key) as [owner isRemote].
  apply flightless_bind; [by destruct owner, isRemote|]. intros [err|]; [done|].
  apply flightless_bind; [by apply flightless_Lock, flightless_bind|]. intros _.
  apply flightless_bind; [done|]. intros targets.
  by apply flightless_bind; [apply flightless_for_each|].
Qed.

Lemma Set_lead_flightless key value expire c : flightless (Set_lead key value expire c).
Proof.
  unfold Set_lead. apply flightless_bind; [|done]. repeat apply flightless_bindr.
  all: try apply Set_fn_flightless; intros r; simpl; by repeat case_match.
Qed.

(** A Set either ends without a call or arrives at its call, and reads only. *)
Lemma Set_approaches key value expire :
  key ≠ "" → approaches (Set_call key value expire) (operation_go (OpSet key value expire)).
Proof.
  intros Hkey. unfold operation_go, Set_go. rewrite bool_decide_false by done.
  apply approaches_read; [done|]. intros [g|]; [|by apply approaches_never]. simpl.
  case_bool_decide; [by apply approaches_never|]. apply approaches_here.
Qed.

Lemma Set_arrives key value expire t (σ : shared St ByteView flight) :
  key ≠ "" → 0 < maxCacheBytes (st_g (sh_st σ)) →
  pmove t (operation_go (OpSet key value expire), σ) (Set_call key value expire, σ).
Proof.
  intros Hkey Hmax. unfold pmove, operation_go, Set_go. simpl. rewrite bool_decide_false by done.
  cbn. rewrite bool_decide_false by lia. by destruct σ.
Qed.

(** The course of the leader when no other goroutine acts: that of [Set]. *)
Lemma Set_course key value expire (s : St) r s' :
  key ≠ "" → 0 < maxCacheBytes (st_g s) → Set_ (message := message) key value expire s = (Val r, s') →
  ∃ H, rtc (pmove 0)
    (Set_lead key value expire 0, mkShared s {[(setGroup, key) := 0%nat]} [mkCall 1 None leader_panicked] ∅)
    (Done (Some (AError r)), mkShared s' ∅ (mkCall 0 None r :: H) ∅).
Proof.
  intros Hkey Hmax. unfold Set_. rewrite bool_decide_false by done. unfold get_group. mstep.
  rewrite bool_decide_false by lia. intros Hs.
  set (calls := {[(setGroup, key) := 0%nat]} : gmap (flight * string) nat).
  destruct (Set_fn_alone key value expire 0%nat s calls [mkCall 1 None leader_panicked] ∅) as (hs & Hr).
  { intros sf. split; [done|]. rewrite elem_of_singleton. by intros [=]. }
  { by rewrite Hs. }
  rewrite Hs in Hr. exists hs. unfold Set_lead.
  etrans; [do 4 apply rtc_bindr; exact Hr|]. cbn. eapply rtc_l; [reflexivity|].
  apply rtc_once. unfold pmove, calls. cbn. by rewrite delete_singleton_eq.
Qed.

End GroupConc.

(** ** Sinks never hang *)

Definition ends {S A} (m : M S A) : Prop := ∀ s, (m s).1 ≠ Diverged.

Lemma ends_bind {S A B} (m : M S A) (f : A → M S B) :
  ends m → (∀ a, ends (f a)) → ends (m ≫= f).
Proof.
  intros Hm Hf s. specialize (Hm s). unfold mbind, M_bind.
  destruct (m s) as [[a| |] s']; simpl in *; [apply Hf|done|done].
Qed.

Lemma ends_ret {S A} (a : A) : ends (mret a : M S A).
Proof. done. Qed.

Lemma ends_panic {S A} : ends (panic : M S A).
Proof. done. Qed.

Lemma ends_get_state {S} : ends (get_state : M S S).
Proof. done. Qed.

Lemma ends_alloc l : ends (alloc l).
Proof. done. Qed.

Ltac ends_step :=
  lazymatch goal with
  | |- ∀ _, _ => intros ?
  | |- ends (_ ≫= _) => apply ends_bind
  | |- ends (match ?x with _ => _ end) => destruct x
  | _ => first [done | by auto using ends_ret, ends_panic, ends_get_state, ends_alloc]
  end.

Lemma ends_copy dst l : ends (copy dst l).
Proof. unfold copy. repeat ends_step. Qed.

Lemma ends_cloneBytes b : ends (cloneBytes b).
Proof. unfold cloneBytes, make. repeat ends_step; apply ends_copy. Qed.

Lemma ends_trunc_copy dst l : ends (trunc_copy dst l).
Proof. unfold trunc_copy, reslice. apply ends_bind; [apply ends_copy|]. repeat ends_step. Qed.

#[local] Hint Resolve ends_copy ends_cloneBytes ends_trunc_copy : core.

Lemma SetSinkView_ends `{!Proto message} (k : Sink (message := message)) v : ends (SetSinkView k v).
Proof.
  destruct k; simpl; unfold byteViewSink_setView, allocBytesSink_setView; repeat ends_step; simpl.
  all: unfold stringSink_SetBytes, stringSink_SetString, protoSink_SetBytes, protoSink_SetString,
    truncBytesSink_SetBytes, truncBytesSink_setBytesOwned, truncBytesSink_SetString.
  all: repeat ends_step.
Qed.

(** ** All interleavings *)

Section Interleavings.
Context {K C W message : Type}.
Context `{!Cache K, !CacheLaws K, !Client C, !Peer C W, !Proto message}.
Context `{!EqDecision C, !Countable C, !MapRange string C, !MapRange C (list string), GoOrder}.
Context `{!Env K C W message}.

Notation Sink := (Sink (message := message)).
Notation St := (state K W).
Notation go := (prog St ByteView flight).
Notation inst := (inst (K := K) (C := C) (W := W) (message := message)).
Notation instance_PickPeer := (instance_PickPeer (K := K) (C := C) (W := W) (message := message)).
Notation getAllPeers := (getAllPeers (K := K) (C := C) (W := W) (message := message)).
Notation time_Now := (time_Now (K := K) (C := C) (W := W) (message := message)).
Notation getter_Get := (getter_Get (K := K) (C := C) (W := W) (message := message)).
Notation cached_Get := (cached_Get (K := K) (C := C) (W := W) (message := message)).
Notation operation := (operation (message := message)).
Notation Now := (Now (K := K) (C := C) (W := W) (message := message)).
Notation ctx_done := (ctx_done (K := K) (C := C) (W := W) (message := message)).

Implicit Types (key : string) (dest : Sink) (s : St) (v : ByteView) (peer : C).

(** [Legit key v]: [v] may be served for [key].  [J] is an invariant of the
    world outside the process, [ok_sink] the sinks callers pass, and
    [may_panic] says whether panics of the getter, the peers and the logger
    are tolerated. *)
Context (Legit : string → ByteView → Prop) (J : W → Prop) (may_panic : Prop) (gname : string).
Context (ok_sink : Sink → Prop).

Definition or_panics {X} (Ψ : X → Prop) (r : option X) : Prop :=
  match r with Some x => Ψ x | None => may_panic end.

(** A call into the world comes back, keeps [J], and its results are [Ψ]. *)
Definition comes_back {X} (x : res X * (Mem * W)) (Ψ : X → Prop) : Prop :=
  match x with
  | (Val a, (_, w)) => J w ∧ Ψ a
  | (Panicked, (_, w)) => J w ∧ may_panic
  | (Diverged, _) => False
  end.

(** What the group relies on: the getter and the owner answer with values
    that may be served, and every call ends. *)
Record world_ok : Prop := {
  wo_now w : J w → J (time_Now w).2;
  wo_getter key dest mw : ok_sink dest → J mw.2 →
    comes_back (getter_Get key dest mw) (λ '(err, dest'), err = None → Legit key (View dest'));
  wo_Get (peer : C) key mw : J mw.2 →
    comes_back (client_Get peer (mkGetRequest (Some gname) (Some key)) mw)
      (λ '(err, res), err = None → Legit key (answer_view res));
  wo_Set (peer : C) key value e mw : J mw.2 → Legit key (ByteViewWithExpire value e) →
    comes_back (client_Set peer (mkSetRequest (Some gname) (Some key) value (Some (encode_expire e))) mw)
      (λ _, True);
  wo_Remove (peer : C) key mw : J mw.2 →
    comes_back (client_Remove peer (mkGetRequest (Some gname) (Some key)) mw) (λ _, True);
  wo_RemoveKeys (peer : C) keys mw : J mw.2 →
    comes_back (client_RemoveKeys peer (mkRemoveKeysRequest (Some gname) keys) mw) (λ _, True);
  wo_logger : inst_Logger inst = false → may_panic;
  wo_owner key s : (set_targets (instance_PickPeer key).1 getAllPeers s).1 = Panicked → may_panic;
}.

(** The caches hold only values that may be served. *)
Definition caches_legit s : Prop :=
  ∃ σm σh, rep s σm σh ∧ map_Forall Legit σm ∧ map_Forall Legit σh.

Definition group_inv s : Prop := name (st_g s) = gname ∧ J (st_w s) ∧ caches_legit s.

(** The callers store what may be served and pass sinks that accept it. *)
Definition op_ok (op : operation) : Prop :=
  match op with
  | OpGet key (Some dest) =>
      ok_sink dest ∧ ∀ v m, Legit key v → (SetSinkView dest v m).1 = Panicked → may_panic
  | OpSet key value e | OpRemoteSet key value e => Legit key (ByteViewWithExpire value e)
  | _ => True
  end.

(** [d] received [v]: the getter put it there, or [SetSinkView] did. *)
Definition gets key dest v (d : Sink) : Prop :=
  (∃ x x', getter_Get key dest x = (Val (None, d), x') ∧ View d = v) ∨
  (∃ m m', SetSinkView dest v m = (Val (d, None), m')).

Definition Get_ok key (dest : option Sink) (x : option error * option Sink) : Prop :=
  match dest, x with
  | None, (err, d) => err = Some (ErrorString "groupcache: nil dest Sink") ∧ d = None
  | Some dest, (None, d) => ∃ v d', d = Some d' ∧ Legit key v ∧ gets key dest v d'
  | Some _, (Some _, _) => True
  end.

Definition answer_ok (op : operation) (a : answered (message := message)) : Prop :=
  match op, a with
  | OpGet key dest, AGet err d => Get_ok key dest (err, d)
  | OpSet _ _ _, AError _ | OpRemove _, AError _ | OpRemoveKeys _, AError _ => True
  | OpRemoteSet _ _ _, AUnit | OpLocalRemove _, AUnit => True
  | _, _ => False
  end.

(** What the duplicates of a load may find. *)
Definition shared_ok (sf : flight) key (v : option ByteView) (e : option error) : Prop :=
  match sf with
  | loadGroup => e = None → ∃ x, v = Some x ∧ Legit key x
  | _ => True
  end.

Notation atomic m Ψ := (preserves group_inv m (or_panics Ψ)).
Notation triple := (triple (Γ := unit) (λ s _, group_inv s) shared_ok (λ _, True) True).

Context (Hw : world_ok).

(** *** The atomic actions *)

Lemma atomic_bind {X Y} (m : M St X) (f : X → M St Y) (Ψ : X → Prop) (Θ : Y → Prop) :
  atomic m Ψ → (∀ a, Ψ a → atomic (f a) Θ) → atomic (m ≫= f) Θ.
Proof.
  intros Hm Hf s Hs. specialize (Hm s Hs). unfold mbind, M_bind.
  destruct (m s) as [[a| |] s1]; [|done..]. destruct Hm as [Hs1 Ha]. by apply (Hf a Ha s1).
Qed.

Lemma atomic_ret {X} (a : X) (Ψ : X → Prop) : Ψ a → atomic (mret a) Ψ.
Proof. by intros Ha s Hs. Qed.

Lemma atomic_get_group : atomic get_group (λ g, name g = gname).
Proof. intros s Hs. by split; [|apply Hs]. Qed.

Lemma atomic_stats f : atomic (on_stats f) (λ _, True).
Proof. intros s (? & ? & σm & σh & Hr & ?). split; [|done]. split_and!; [done..|]. by exists σm, σh. Qed.

Lemma atomic_Now : atomic Now (λ _, True).
Proof.
  intros s (? & HJ & Hc). unfold Now. apply (wo_now Hw) in HJ. destruct (time_Now (st_w s)) as [t w].
  by split.
Qed.

Lemma atomic_ctx_done : atomic ctx_done (λ _, True).
Proof. by intros s Hs. Qed.

Lemma legit_submap (σ σ' : gmap string ByteView) : σ' ⊆ σ → map_Forall Legit σ → map_Forall Legit σ'.
Proof. intros Hsub Hσ k v Hv. apply Hσ. by eapply lookup_weaken. Qed.

Lemma fresh_legit (σ : gmap string ByteView) now key v :
  map_Forall Legit σ → fresh now (σ !! key) = Some v → Legit key v.
Proof.
  intros Hσ. unfold fresh. destruct (σ !! key) as [v'|] eqn:Hv; [|done].
  destruct (view_expired now v'); [done|]. intros [= <-]. by apply Hσ.
Qed.

Definition hit_ok key (o : option ByteView) : Prop := ∀ v, o = Some v → Legit key v.

(** An operation of the caches keeps the invariant when its law keeps a cache
    with legitimate values legitimate. *)
Definition cache_op_ok {X} (f : M K X) (Ψ : X → Prop) : Prop :=
  ∀ c σ, cache_rep c σ → map_Forall Legit σ →
  ∃ x c' σ', f c = (Val x, c') ∧ cache_rep c' σ' ∧ map_Forall Legit σ' ∧ Ψ x.

Lemma atomic_main {X} (f : M K X) (Ψ : X → Prop) : cache_op_ok f Ψ → atomic (on_main f) Ψ.
Proof.
  intros Hf s (? & ? & σm & σh & [Hm Hh] & HLm & HLh).
  destruct (Hf _ _ Hm HLm) as (x & c' & σ' & He & ? & ? & ?).
  rewrite (on_main_eq _ _ _ _ He). split; [|done]. split_and!; [done..|]. by exists σ', σh.
Qed.

Lemma atomic_hot {X} (f : M K X) (Ψ : X → Prop) : cache_op_ok f Ψ → atomic (on_hot f) Ψ.
Proof.
  intros Hf s (? & ? & σm & σh & [Hm Hh] & HLm & HLh).
  destruct (Hf _ _ Hh HLh) as (x & c' & σ' & He & ? & ? & ?).
  rewrite (on_hot_eq _ _ _ _ He). split; [|done]. split_and!; [done..|]. by exists σm, σ'.
Qed.

Lemma cache_Get_ok key now : cache_op_ok (cache_Get key now) (hit_ok key).
Proof.
  intros c σ Hr HL. destruct (cache_Get_law c σ key now Hr) as (c' & σ' & He & ? & Hsub & _).
  eexists _, c', σ'. split_and!; [done..|by eapply legit_submap|].
  intros v. by apply fresh_legit.
Qed.

Lemma cache_Add_ok key v : Legit key v → cache_op_ok (cache_Add key v) (λ _, True).
Proof.
  intros Hv c σ Hr HL. destruct (cache_Add_law c σ key v Hr) as (c' & σ' & He & ? & Hsub & _).
  eexists _, c', σ'. split_and!; [done..| |done]. eapply legit_submap; [done|].
  by apply map_Forall_insert_2.
Qed.

Lemma cache_Remove_ok key : cache_op_ok (cache_Remove key) (λ _, True).
Proof.
  intros c σ Hr HL. destruct (cache_Remove_law c σ key Hr) as (c' & σ' & He & ? & Hsub & _).
  eexists _, c', σ'. split_and!; [done..| |done]. eapply legit_submap; [done|].
  by apply map_Forall_delete.
Qed.

Lemma atomic_cached_main key : atomic (cached_Get on_main key) (hit_ok key).
Proof.
  eapply atomic_bind; [apply atomic_Now|]. intros now _. apply atomic_main, cache_Get_ok.
Qed.

Lemma atomic_cached_hot key : atomic (cached_Get on_hot key) (hit_ok key).
Proof.
  eapply atomic_bind; [apply atomic_Now|]. intros now _. apply atomic_hot, cache_Get_ok.
Qed.

Lemma atomic_populate key v which : Legit key v → atomic (populateCache key v which) (λ _, True).
Proof.
  intros Hv. eapply atomic_bind; [apply atomic_get_group|]. intros g _.
  case_bool_decide; [by apply atomic_ret|]. destruct which; [by apply atomic_ret|..].
  - by apply atomic_main, cache_Add_ok.
  - by apply atomic_hot, cache_Add_ok.
Qed.

(** Calls into the world and into user code. *)
Lemma atomic_outside {X} (f : M (Mem * W) X) (Ψ : X → Prop) :
  (∀ mw, J mw.2 → comes_back (f mw) Ψ) → atomic (outside f) Ψ.
Proof.
  intros Hf s (Hn & HJ & Hc). specialize (Hf (st_mem s, st_w s) HJ).
  unfold outside. destruct (f (st_mem s, st_w s)) as [[a| |] [m w]]; simpl in *; [..|done].
  all: destruct Hf; by split.
Qed.

Lemma atomic_setPeer peer key value e :
  Legit key (ByteViewWithExpire value e) → atomic (setPeer peer key value e) (λ _, True).
Proof.
  intros Hv. eapply atomic_bind; [apply atomic_get_group|]. intros g ->.
  apply atomic_outside. intros mw HJ. by apply (wo_Set Hw).
Qed.

Lemma atomic_removeFromPeer peer key : atomic (removeFromPeer peer key) (λ _, True).
Proof.
  eapply atomic_bind; [apply atomic_get_group|]. intros g ->.
  apply atomic_outside. intros mw HJ. by apply (wo_Remove Hw).
Qed.

Lemma atomic_setPeer_logged key value e peer :
  Legit key (ByteViewWithExpire value e) →
  atomic (setPeer_logged (message := message) key value e peer) (λ _, True).
Proof.
  intros Hv. eapply atomic_bind; [by apply atomic_setPeer|]. intros [err|] _; [|by apply atomic_ret].
  pose proof (wo_logger Hw) as Hl. destruct (inst_Logger inst); [by apply atomic_ret|].
  intros s Hs. by split; [|apply Hl].
Qed.

(** The getter's value is returned and stored only when it did not fail. *)
Definition local_ok key dest (x : (error + ByteView) * Sink) : Prop :=
  ∀ v, x.1 = inr v → Legit key v ∧ gets key dest v x.2.

Lemma atomic_getLocally key dest : ok_sink dest → atomic (getLocally key dest) (local_ok key dest).
Proof.
  intros Hd0. unfold getLocally. eapply (atomic_bind _ _ (λ '(err, d), err = None → Legit key (View d) ∧ gets key dest (View d) d)).
  - apply atomic_outside. intros mw HJ. pose proof (wo_getter Hw key dest mw Hd0 HJ) as Hg.
    destruct (getter_Get key dest mw) as [[[err d]| |] [m w]] eqn:Heq; simpl in *; [|done..].
    destruct Hg as [? Hg]. split; [done|]. intros ->. split; [by apply Hg|]. left. eauto.
  - intros [[err|] d] Hd; apply atomic_ret; [done|]. intros v [= <-]. by apply Hd.
Qed.

Lemma atomic_SetSinkView key dest v :
  Legit key v → op_ok (OpGet key (Some dest)) →
  atomic (on_mem (SetSinkView dest v)) (λ '(d, err), err = None → gets key dest v d).
Proof.
  intros Hv [_ Hop] s (Hn & HJ & Hc). specialize (Hop v (st_mem s) Hv).
  pose proof (SetSinkView_ends dest v (st_mem s)) as Hends.
  unfold on_mem. destruct (SetSinkView dest v (st_mem s)) as [[[d err]| |] m] eqn:Heq; [..|done].
  - split; [done|]. intros ->. right. eauto.
  - split; [done|]. by apply Hop.
Qed.

Lemma set_targets_state (owner : option C) ps s : (set_targets owner ps s).2 = s ∧ (set_targets owner ps s).1 ≠ Diverged.
Proof.
  induction ps as [|p ps IH]; simpl; [done|]. destruct (IsSelf (PeerInfo p)); [done|].
  destruct owner; [|done]. unfold mbind, M_bind. destruct (set_targets (Some c) ps s) as [[] s'].
  all: naive_solver.
Qed.

Lemma atomic_set_targets key :
  atomic (set_targets (instance_PickPeer key).1 getAllPeers) (λ _, True).
Proof.
  intros s Hs. pose proof (wo_owner Hw key s) as Ho.
  destruct (set_targets_state (instance_PickPeer key).1 getAllPeers s) as [Hst Hd].
  destruct (set_targets (instance_PickPeer key).1 getAllPeers s) as [[ts| |] s']; simpl in *; subst; [done| |done].
  split; [done|]. by apply Ho.
Qed.

(** *** The operations *)

Notation spec P p Ψ := (triple P p (or_panics Ψ)).

Lemma spec_bind {X Y} P (p : go X) (f : X → go Y) (Ψ : X → Prop) (Θ : Y → Prop) :
  spec P p Ψ → (∀ a, Ψ a → spec P (f a) Θ) → spec P (p ≫= f) Θ.
Proof. intros Hp Hf. by eapply triple_bind. Qed.

Lemma spec_ret {X} P (a : X) (Ψ : X → Prop) : Ψ a → spec P (mret a) Ψ.
Proof. intros Ha. by apply triple_ret. Qed.

Lemma spec_act {X} P (m : M St X) (Ψ : X → Prop) : atomic m Ψ → spec P (act m) Ψ.
Proof. intros Hm. apply triple_act. intros γ. by split. Qed.

(** First an action whose result does not matter. *)
Lemma spec_skip {X Y} P (m : M St X) (p : go Y) (Θ : Y → Prop) :
  atomic m (λ _, True) → spec P p Θ → spec P (_ ← act m; p) Θ.
Proof. intros Hm Hp. eapply spec_bind; [by apply spec_act|]. done. Qed.

Lemma spec_for_each {X Y} P (f : X → go Y) l :
  (∀ x, x ∈ l → spec P (f x) (λ _, True)) → spec P (for_each_go f l) (λ _, True).
Proof.
  intros Hf. eapply triple_weaken; [done| |by apply triple_for_each]. by intros [].
Qed.

Lemma unlocked_anywhere {X} (p : go X) Ψ : triple anywhere p Ψ → triple unlocked p Ψ.
Proof. by apply triple_weaken. Qed.

Lemma toplevel_unlocked {X} (p : go X) Ψ : triple unlocked p Ψ → triple toplevel p Ψ.
Proof. apply triple_weaken; [|done]. by intros ρ h [_ ?]. Qed.

Lemma lookupCache_go_spec P key : spec P (lookupCache_go (C := C) (message := message) key) (hit_ok key).
Proof.
  eapply spec_bind; [apply spec_act, atomic_get_group|]. intros g _.
  case_bool_decide; [by apply spec_ret|].
  eapply spec_bind; [apply spec_act, atomic_cached_main|]. intros [v|] Hv; [by apply spec_ret|].
  apply spec_act, atomic_cached_hot.
Qed.

Lemma update_go_spec key value e :
  Legit key (ByteViewWithExpire value e) →
  spec unlocked (Lock loadGroup (
    _ ← act (on_main (cache_Add key (ByteViewWithExpire value e)));
    act (on_hot (cache_Remove key)))) (λ _, True).
Proof.
  intros Hv. apply triple_Lock. apply spec_skip; [by apply atomic_main, cache_Add_ok|].
  apply spec_act, atomic_hot, cache_Remove_ok.
Qed.

Lemma RemoteSet_go_spec key value e :
  Legit key (ByteViewWithExpire value e) → spec unlocked (RemoteSet_go key value e) (λ _, True).
Proof.
  intros Hv. eapply spec_bind; [apply spec_act, atomic_get_group|]. intros g _.
  case_bool_decide; [by apply spec_ret|]. by apply update_go_spec.
Qed.

Lemma LocalRemove_go_spec key : spec unlocked (LocalRemove_go key) (λ _, True).
Proof.
  eapply spec_bind; [apply spec_act, atomic_get_group|]. intros g _.
  case_bool_decide; [by apply spec_ret|]. apply triple_Lock.
  apply spec_skip; [apply atomic_hot, cache_Remove_ok|]. apply spec_act, atomic_main, cache_Remove_ok.
Qed.

Definition value_ok key (r : error + ByteView) : Prop := ∀ v, r = inr v → Legit key v.

Lemma getFromPeer_go_spec P peer key : spec P (getFromPeer_go peer key) (value_ok key).
Proof.
  eapply spec_bind; [apply spec_act, atomic_get_group|]. intros g ->.
  eapply spec_bind; [apply spec_act, atomic_outside, (wo_Get Hw)|].
  intros [[err|] res] Hres; [by apply spec_ret|]. specialize (Hres eq_refl).
  apply spec_skip; [by apply atomic_populate|]. apply spec_ret. by intros v [= <-].
Qed.

Lemma latency_go_spec P d : spec P (latency_go d) (λ _, True).
Proof.
  eapply spec_bind; [apply spec_act, atomic_get_group|]. intros g _.
  case_bool_decide; [apply spec_act, atomic_stats|by apply spec_ret].
Qed.

Definition peer_ok key (r : peer_result) : Prop := ∀ v, r = PeerAnswer v → Legit key v.

Lemma loadFromPeer_go_spec P peer key :
  spec P (loadFromPeer_go (message := message) peer key) (peer_ok key).
Proof.
  eapply spec_bind; [apply spec_act, atomic_Now|]. intros t0 _.
  eapply spec_bind; [apply getFromPeer_go_spec|]. intros r Hr.
  eapply spec_bind; [apply spec_act, atomic_Now|]. intros t1 _.
  eapply spec_bind; [apply latency_go_spec|]. intros _ _.
  destruct r as [err|v].
  - do 3 (case_match; [by apply spec_ret|]). apply spec_skip; [apply atomic_stats|].
    eapply spec_bind; [apply spec_act, atomic_ctx_done|]. intros [] _; by apply spec_ret.
  - apply spec_skip; [apply atomic_stats|]. apply spec_ret. intros v' [= <-]. by apply Hr.
Qed.

(** The value of a load; [destPopulated] only when the getter filled [dest],
    and else [dest] is as it was. *)
Definition load_ok key dest (x : (error + ByteView) * bool * Sink) : Prop :=
  ∀ v, x.1.1 = inr v → Legit key v ∧ if x.1.2 then gets key dest v x.2 else x.2 = dest.

Lemma loadLocally_go_spec P key dest : ok_sink dest → spec P (loadLocally_go key dest) (load_ok key dest).
Proof.
  intros Hok. eapply spec_bind; [by apply spec_act, atomic_getLocally|]. intros [[err|v] d] Hd.
  - apply spec_skip; [apply atomic_stats|]. by apply spec_ret.
  - destruct (Hd v eq_refl) as [Hv Hg]. apply spec_skip; [apply atomic_stats|].
    apply spec_skip; [by apply atomic_populate|]. apply spec_ret. by intros v' [= <-].
Qed.

Lemma load_fn_go_spec P key dest : ok_sink dest → spec P (load_fn_go key dest) (load_ok key dest).
Proof.
  intros Hok. eapply spec_bind; [apply lookupCache_go_spec|]. intros [v|] Hv.
  { apply spec_skip; [apply atomic_stats|]. apply spec_ret. intros v' [= <-].
    by split; [apply Hv|]. }
  apply spec_skip; [apply atomic_stats|].
  destruct (instance_PickPeer key) as [[peer|] []]; try by apply loadLocally_go_spec.
  eapply spec_bind; [apply loadFromPeer_go_spec|]. intros [v|err|] Hr.
  - apply spec_ret. intros v' [= <-]. by split; [apply Hr|].
  - by apply spec_ret.
  - by apply loadLocally_go_spec.
Qed.

Lemma load_go_spec key dest : ok_sink dest → spec toplevel (load_go key dest) (load_ok key dest).
Proof.
  intros Hok. apply spec_skip; [apply atomic_stats|].
  eapply (spec_bind _ _ _ (λ '(mine, (viewi, err)), err = None →
    ∃ v, viewi = Some v ∧ load_ok key dest (inr v, (default (false, dest) mine).1, (default (false, dest) mine).2))).
  - eapply (triple_Do _ _ _ _ _ _ _ tt (or_panics (λ '((b, d), (v, e)), e = None → ∃ x, v = Some x ∧ load_ok key dest (inr x, b, d)))).
    + done.
    + eapply spec_bind; [by apply load_fn_go_spec|]. intros [[[err|v] b] d] Hd; apply spec_ret; [done|].
      intros _. by exists v.
    + intros [[[b d] [v e]]|] Hr; simpl in *; [|done]. intros ->. destruct (Hr eq_refl) as (x & -> & Hx).
      exists x. split; [done|]. by apply (Hx x).
    + intros [[[b d] [v e]]|] Hr; simpl in *; [|done]. done.
    + intros v e Hve ->. destruct (Hve eq_refl) as (x & -> & Hx). exists x. split; [done|].
      by intros v' [= <-].
  - intros [mine [viewi [err|]]] Hr.
    + destruct (default (false, dest) mine). by apply spec_ret.
    + destruct (Hr eq_refl) as (v & -> & Hv). destruct (default (false, dest) mine). by apply spec_ret.
Qed.

Lemma Get_go_spec key (dest : option Sink) :
  op_ok (OpGet key dest) → spec toplevel (Get_go key dest) (Get_ok key dest).
Proof.
  intros Hop. apply spec_skip; [apply atomic_stats|]. destruct dest as [dest|]; [|by apply spec_ret].
  assert (∀ P v, Legit key v → spec P ('(d, err) ← act (on_mem (SetSinkView dest v)); mret (err, Some d))
    (Get_ok key (Some dest))) as Hsink.
  { intros P v Hv. eapply spec_bind; [by apply spec_act, atomic_SetSinkView|].
    intros [d [err|]] Hd; apply spec_ret; [done|]. exists v, d. auto. }
  eapply spec_bind; [apply lookupCache_go_spec|]. intros [v|] Hv.
  { apply spec_skip; [apply atomic_stats|]. by apply Hsink, Hv. }
  eapply spec_bind; [apply load_go_spec, Hop|]. intros [[[err|v] b] d] Hl; [by apply spec_ret|].
  destruct (Hl v eq_refl) as [HLv Hd]. destruct b; simpl in Hd.
  - apply spec_ret. exists v, d. auto.
  - subst d. by apply Hsink.
Qed.

Lemma Do_error_spec sf key fn :
  sf ≠ loadGroup → spec unlocked fn (λ _, True) → spec toplevel (Do_error sf key fn) (λ _, True).
Proof.
  intros Hsf Hfn. eapply (spec_bind _ _ _ (λ _, True)); [|intros [? [? ?]] _; by apply spec_ret].
  apply (triple_Do _ _ _ _ _ _ _ tt (or_panics (λ _, True))).
  - done.
  - eapply spec_bind; [done|]. intros err _. by apply spec_ret.
  - intros r _. destruct sf; [done|..]; by destruct r as [[[] [? ?]]|].
  - by intros [[[] [? ?]]|].
  - done.
Qed.

Lemma Set_go_spec key value e :
  Legit key (ByteViewWithExpire value e) →
  spec toplevel (Set_go (message := message) key value e) (λ _, True).
Proof.
  intros Hv. unfold Set_go. case_bool_decide; [by apply spec_ret|].
  eapply spec_bind; [apply spec_act, atomic_get_group|]. intros g _.
  case_bool_decide; [by apply spec_ret|]. apply Do_error_spec; [done|].
  unfold Set_fn_go. pose proof (atomic_set_targets key) as Ht.
  destruct (instance_PickPeer key) as [owner isRemote]. simpl in Ht.
  eapply (spec_bind _ _ _ (λ _, True)).
  { destruct owner, isRemote; try by apply spec_ret. by apply spec_act, atomic_setPeer. }
  intros [err|] _; [by apply spec_ret|].
  eapply spec_bind; [by apply update_go_spec|]. intros _ _.
  eapply spec_bind; [by apply spec_act|]. intros targets _.
  eapply spec_bind; [apply spec_for_each; intros p _; by apply spec_act, atomic_setPeer_logged|].
  intros _ _. by apply spec_ret.
Qed.

Lemma Remove_go_spec key : spec toplevel (Remove_go (message := message) key) (λ _, True).
Proof.
  apply Do_error_spec; [done|]. unfold Remove_fn_go.
  destruct (instance_PickPeer key) as [owner isRemote].
  eapply (spec_bind _ _ _ (λ _, True)).
  { destruct owner, isRemote; try by apply spec_ret. apply spec_act, atomic_removeFromPeer. }
  intros [err|] _; [by apply spec_ret|].
  eapply spec_bind; [apply LocalRemove_go_spec|]. intros _ _.
  eapply spec_bind; [apply spec_for_each; intros p _; apply spec_act, atomic_removeFromPeer|].
  intros errs _. by apply spec_ret.
Qed.

Lemma RemoveKeys_go_spec keys : spec toplevel (RemoveKeys_go (message := message) keys) (λ _, True).
Proof.
  apply toplevel_unlocked. unfold RemoveKeys_go. case_bool_decide; [by apply spec_ret|].
  do 2 (apply spec_skip; [apply atomic_stats|]).
  eapply spec_bind; [apply spec_for_each; intros key _; apply LocalRemove_go_spec|]. intros _ _.
  eapply spec_bind; [apply spec_act, atomic_get_group|]. intros g ->.
  eapply spec_bind; [apply spec_for_each; intros [p ks] _|].
  - apply spec_act, atomic_outside. intros mw HJ. by apply (wo_RemoveKeys Hw).
  - intros errs _. by apply spec_ret.
Qed.

Lemma operation_go_spec op : op_ok op → spec toplevel (operation_go op) (answer_ok op).
Proof.
  destruct op; intros Hop; unfold operation_go.
  - eapply spec_bind; [by apply Get_go_spec|]. intros [err d] Hd. by apply spec_ret.
  - eapply spec_bind; [by apply Set_go_spec|]. intros err _. by apply spec_ret.
  - eapply spec_bind; [apply Remove_go_spec|]. intros err _. by apply spec_ret.
  - eapply spec_bind; [apply RemoveKeys_go_spec|]. intros err _. by apply spec_ret.
  - eapply spec_bind; [by apply toplevel_unlocked, RemoteSet_go_spec|]. intros _ _. by apply spec_ret.
  - eapply spec_bind; [apply toplevel_unlocked, LocalRemove_go_spec|]. intros _ _. by apply spec_ret.
Qed.

Lemma operations_specs (ops : list operation) :
  Forall op_ok ops →
  ∀ T t p, (operation_go <$> ops) !! t = Some p →
  Goroutines.triple (Γ := unit) (λ s _, group_inv s) shared_ok (λ _, True) T toplevel p
    (or_panics (λ a, ∃ op, ops !! t = Some op ∧ answer_ok op a)).
Proof.
  intros Hops T t p Hp. apply triple_prophecy. rewrite list_lookup_fmap in Hp. destruct (ops !! t) as [op|] eqn:Hop; simplify_eq/=.
  eapply triple_weaken; [done| |apply operation_go_spec; by eapply Forall_lookup in Hops].
  intros [a|]; [|done]. intros ?. by exists op.
Qed.

(** C4: Under every interleaving of any number of Get, Set, Remove,
    RemoveKeys, RemoteSet and LocalRemove calls on one group, with the critical
    sections of singleflight taken apart, and at every moment: both caches hold
    only values that may be served for their key, a Get that returned without
    an error delivered such a value, and a Get with no sink failed.  Here the
    getter, the owners and the callers of Set supply such values. *)
Theorem group_concurrent_legit ops s sched x :
  group_inv s → Forall op_ok ops → fexec sched (apart (operations_start ops s)) = Some x →
  caches_legit (sh_st x.2) ∧
  ∀ t op a, ops !! t = Some op → x.1 !! t = Some (Outside (Done (Some a))) → answer_ok op a.
Proof.
  intros Hs Hops Hx.
  destruct (fine_always _ _ (λ _, shared_ok) (λ _ t, or_panics (λ a, ∃ op, ops !! t = Some op ∧ answer_ok op a))
    _ _ Hs (operations_specs _ Hops) _ _ Hx) as [[_ (_ & _ & Hc)] Ht].
  split; [done|]. intros t op a Hop Ha. destruct (Ht _ _ Ha) as (op' & ? & ?). by simplify_eq.
Qed.

(** C5: No deadlock and no lost wake-up: under every interleaving, in the
    critical sections of singleflight as well, all operations end, after
    finitely many actions, when the calls to the getter and the peers do.  At
    the end no call is in flight, no mutex is held and the caches are
    legitimate; an operation returned, or it panicked because the getter, a
    peer or the missing logger did. *)
Theorem group_concurrent_returns ops s :
  group_inv s → Forall op_ok ops →
  finevitably (λ x, caches_legit (sh_st x.2) ∧ sh_calls x.2 = ∅ ∧ sh_mu x.2 = ∅ ∧
    ∀ t op, ops !! t = Some op →
      ∃ r, x.1 !! t = Some (Outside (Done r)) ∧
        match r with Some a => answer_ok op a | None => may_panic end) (apart (operations_start ops s)).
Proof.
  intros Hs Hops.
  eapply (inevitably_strengthen _ _ (λ x, length x.1 = length ops)); cycle 3.
  - apply (fine_inevitable _ _ (λ _, shared_ok) (λ _ t, or_panics (λ a, ∃ op, ops !! t = Some op ∧ answer_ok op a))
      _ _ Hs (operations_specs _ Hops)).
  - intros x t x' Hx ?%fstep_length. congruence.
  - intros x ((_ & _ & Hc) & Hcalls & Hmu & Hend) Hlen. split_and!; [done..|].
    intros t op Hop. destruct (lookup_lt_is_Some_2 x.1 t) as [p Hp].
    { rewrite Hlen. by eapply lookup_lt_Some. }
    destruct (Hend t p Hp) as (r & -> & Hr). exists r. split; [done|].
    destruct r as [a|]; [|done]. destruct Hr as (op' & ? & ?). by simplify_eq.
  - simpl. by rewrite !length_fmap.
Qed.

(** Two Sets of one key under the atomic [Do]: whenever the second waits, both
    are bound for the results of the first. *)
Lemma Set_duplicate key (v1 : bytes) e1 (v2 : bytes) e2 s r s' sched x c k :
  key ≠ "" → 0 < maxCacheBytes (st_g s) → Set_ (message := message) key v1 e1 s = (Val r, s') →
  exec sched (operations_start [OpSet key v1 e1; OpSet key v2 e2] s) = Some x → x.1 !! 1%nat = Some (Wait c k) →
  inevitably (λ z, ∃ H, z = ([Done (Some (AError r)); Done (Some (AError r))], mkShared s' ∅ H ∅)) x.
Proof.
  intros Hkey Hmax Hs Hx Hwait. destruct (Set_course key v1 e1 s r s' Hkey Hmax Hs) as (hs & Hcourse).
  eapply (inevitably_strengthen _ _ (λ _, True)); [done| |done|].
  2: { eapply (duplicate_ends setGroup key _ _ s (Set_lead key v1 e1) (λ c, Wait c Set_wait) (Set_lead key v2 e2) Set_wait);
    [..|exact Hx|exact Hwait].
    - rewrite <-Set_call_eq. apply rtc_once. by apply Set_arrives.
    - exact Hcourse.
    - done.
    - done.
    - done.
    - rewrite <-Set_call_eq. by apply Set_approaches.
    - rewrite <-Set_call_eq. by apply Set_approaches.
    - apply Set_lead_flightless.
    - intros c'. apply Set_lead_flightless.
    - done. }
  intros z -> _. by exists (mkCall 0 None r :: hs).
Qed.

(** Both Sets arrive at their call. *)
Lemma Set_arrivals key (v1 : bytes) e1 (v2 : bytes) e2 s :
  key ≠ "" → 0 < maxCacheBytes (st_g s) →
  step 0 (operations_start [OpSet key v1 e1; OpSet key v2 e2] s)
    = Some (start [Set_call (message := message) key v1 e1; operation_go (OpSet key v2 e2)] s) ∧
  step 1 (start [Set_call (message := message) key v1 e1; operation_go (OpSet key v2 e2)] s)
    = Some (start [Set_call key v1 e1; Set_call key v2 e2] s).
Proof.
  intros Hkey Hmax. unfold step, operations_start, start. cbn [fst snd fmap list_fmap lookup list_lookup].
  pose proof (Set_arrives key v1 e1 0%nat (mkShared s ∅ [] ∅) Hkey Hmax) as H0.
  pose proof (Set_arrives key v2 e2 1%nat (mkShared s ∅ [] ∅) Hkey Hmax) as H1.
  unfold pmove in H0, H1. cbn [fst snd] in H0, H1. split; [by rewrite H0|].
  cbn. cbn in H1. by rewrite H1.
Qed.

(** The second goroutine waits for the call of another. *)
Definition second_waits (y : fconfig (St := St) (V := ByteView) (SF := flight)
    (A := answered (message := message))) : Prop :=
  ∃ c k, y.1 !! 1%nat = Some (Outside (Wait c k)).

(** C39: Two Sets of one key run at the same time.  It can happen that the
    second joins the flight of the first and waits; and under every schedule
    that has come to this point, and however it goes on, both return what the
    first Set returns on its own, and leave the state it leaves on its own:
    the value of the second is neither stored nor sent to any peer. *)
Theorem group_concurrent_Set_dropped key (v1 : bytes) e1 (v2 : bytes) e2 s r s' :
  group_inv s → Forall op_ok [OpSet key v1 e1; OpSet key v2 e2] → key ≠ "" → 0 < maxCacheBytes (st_g s) →
  Set_ (message := message) key v1 e1 s = (Val r, s') →
  (∃ sched y, fexec sched (apart (operations_start [OpSet key v1 e1; OpSet key v2 e2] s)) = Some y ∧ second_waits y) ∧
  ∀ sched y, fexec sched (apart (operations_start [OpSet key v1 e1; OpSet key v2 e2] s)) = Some y → second_waits y →
    finevitably (λ z, ∃ H, z = apart ([Done (Some (AError r)); Done (Some (AError r))], mkShared s' ∅ H ∅)) y.
Proof.
  intros Hs Hops Hkey Hmax Hset. split.
  - assert (∃ x, exec [0; 1; 0; 1]%nat (operations_start [OpSet key v1 e1; OpSet key v2 e2] s) = Some x ∧
      x.1 !! 1%nat = Some (Wait 0 Set_wait)) as (x & Hx & Hwait).
    { destruct (Set_arrivals key v1 e1 v2 e2 s Hkey Hmax) as [H0 H1].
      eexists. cbn [exec_by]. rewrite H0, H1, Set_call_eq, Set_call_eq. unfold start, step at 1. cbn.
      rewrite !lookup_empty. unfold step. cbn. by rewrite lookup_empty, lookup_insert_eq. }
    destruct (step_taken_apart _ _ _ Hx) as [sched Hy]. exists sched, (apart x). split; [exact Hy|].
    exists 0%nat, Set_wait. unfold apart. simpl. by rewrite list_lookup_fmap, Hwait.
  - intros sched y Hy (c & k & Hwait).
    destruct (fine_reached _ _ _ _ _ _ Hs (operations_specs _ Hops) _ _ Hy) as (x & [sched' Hx] & Hsim).
    assert (x.1 !! 1%nat = Some (Wait c k)) as Hx1.
    { destruct Hsim as (mu & _ & ->). simpl. by rewrite list_lookup_fmap, Hwait. }
    eapply (inevitably_strengthen _ _ (λ _, True)); [done| |done|].
    2: { eapply (fine_inevitably _ _ _ _ _ _ Hs (operations_specs _ Hops)); [|by eapply Set_duplicate|by exists sched'|exact Hsim].
      intros z (hs & ->). by repeat constructor. }
    intros z (? & _ & (hs & ->) & ->) _. by exists hs.
Qed.

End Interleavings.

(** ** Examples on the three-peer cluster *)

Abbreviation sample_operation := (operation (message := list byte)).

Definition sample_value : ByteView := mkByteView None "value" zero_time.

(** The getter's value, or the value the owners answer with. *)
Definition sample_legit (key : string) (v : ByteView) : Prop :=
  v = sample_value ∨ v = ByteViewWithExpire (Some (Slice 0 0 5 5)) (2 * Second).

Definition sample_ok_sink (d : Sink (message := list byte)) : Prop := d = sample_sink.

Lemma sample_world Legit :
  (∀ key v, sample_legit key v → Legit key v) →
  world_ok (K := mutexCache) (C := NoOpClient) Legit (λ _, True) False "g" sample_ok_sink.
Proof.
  intros HL. split.
  - by intros w.
  - intros key dest [m w] -> _. split; [done|]. intros _. apply HL. by left.
  - intros peer key [m w] _. split; [done|]. intros _. apply HL. by right.
  - by intros peer key value e [m w].
  - by intros peer key [m w].
  - by intros peer keys [m w].
  - intros [=].
  - intros key s. destruct (set_targets_cluster (message := list byte) (W := history NoOpClient)
      two_replicas three_peers sample_cluster ltac:(done) sample_NoDup key) as (ts & Hts & _).
    by rewrite Hts.
Qed.

Lemma sample_world_ok :
  world_ok (K := mutexCache) (C := NoOpClient) sample_legit (λ _, True) False "g" sample_ok_sink.
Proof. by apply sample_world. Qed.

Lemma sample_group_inv Legit : group_inv Legit (λ _, True) "g" (sample_state "g").
Proof. split_and!; [done..|]. exists ∅, ∅. split; [apply sample_rep|done]. Qed.

Definition sample_ops : list sample_operation :=
  [OpGet "cherry" (Some sample_sink); OpRemove "cherry";
   OpSet "cherry" (Some (Slice 0 0 5 5)) (2 * Second); OpGet "apple" (Some sample_sink)].

Lemma sample_ops_ok : Forall (op_ok sample_legit False sample_ok_sink) sample_ops.
Proof.
  assert (∀ key, op_ok sample_legit False sample_ok_sink (OpGet key (Some sample_sink))) as Hget.
  { intros key. split; [done|]. by intros v m [->| ->]. }
  repeat apply Forall_cons_2; [apply Hget|done|by right|apply Hget|apply Forall_nil_2].
Qed.

(** A schedule that can be evaluated runs. *)
Lemma exec_runs (sched : list nat) (x : config (state mutexCache (history NoOpClient)) ByteView flight
    (answered (message := list byte))) :
  match exec sched x with Some _ => true | None => false end = true →
  ∃ x', exec sched x = Some x'.
Proof. destruct (exec sched x) as [x'|]; [by exists x'|done]. Qed.

(** The removal and the Set run while the load of the first Get is in flight. *)
Definition sample_sched : list nat :=
  (replicate 12 0 ++ replicate 10 1 ++ replicate 9 2 ++ replicate 3 0)%nat.

Lemma group_concurrent_legit_witness :
  ∃ sched x, fexec sched (apart (operations_start sample_ops (sample_state "g"))) = Some x ∧
    caches_legit sample_legit (sh_st x.2).
Proof.
  destruct (exec_runs sample_sched (operations_start sample_ops (sample_state "g"))) as [x Hx];
    [vm_compute; reflexivity|].
  destruct (step_taken_apart _ _ _ Hx) as [sched Hy].
  exists sched, (apart x). split; [exact Hy|].
  apply (group_concurrent_legit sample_legit (λ _, True) False "g" sample_ok_sink sample_world_ok
    sample_ops _ _ (apart x) (sample_group_inv _) sample_ops_ok Hy).
Defined.

Lemma group_concurrent_returns_witness :
  finevitably (λ x, ∀ t op, sample_ops !! t = Some op → ∃ a, x.1 !! t = Some (Outside (Done (Some a))))
    (apart (operations_start sample_ops (sample_state "g"))).
Proof.
  eapply (inevitably_strengthen _ _ (λ _, True)); [done| |done|].
  2: apply (group_concurrent_returns sample_legit (λ _, True) False "g" sample_ok_sink sample_world_ok
       sample_ops _ (sample_group_inv _) sample_ops_ok).
  intros x (_ & _ & _ & Hx) _ t op Hop. destruct (Hx t op Hop) as ([a|] & ? & ?); [eauto|done].
Defined.

Lemma group_alone_witness :
  ∃ sched H s', fexec sched (apart
      (start [operation_go (OpGet "cherry" (Some sample_sink) : sample_operation)] (sample_state "g")))
    = Some ([Outside (Done (Some (AGet None (Some (SStringSink (mkStringSink (Some "value") sample_value))))))],
        mkShared s' ∅ H ∅).
Proof.
  destruct (group_alone (OpGet "cherry" (Some sample_sink) : sample_operation) (sample_state "g"))
    as (sched & H & Hx); [by vm_compute|].
  eexists sched, H, _. exact Hx.
Defined.

Lemma group_concurrent_Set_dropped_witness :
  ∃ s' sched y, fexec sched (apart (operations_start (C := NoOpClient)
      [OpSet "cherry" (Some (Slice 0 0 5 5)) (2 * Second); OpSet "cherry" None zero_time : sample_operation]
      (sample_state "g"))) = Some y ∧ second_waits y ∧
    finevitably (λ z, ∃ H, z = apart ([Done (Some (AError None)); Done (Some (AError None))], mkShared s' ∅ H ∅)) y.
Proof.
  assert ((Set_ (message := list byte) "cherry" (Some (Slice 0 0 5 5)) (2 * Second) (sample_state "g")).1
    = Val None) as Hr by (vm_compute; reflexivity).
  destruct (Set_ _ _ _ _) as [r s'] eqn:Hs. simpl in Hr. subst r. exists s'.
  destruct (group_concurrent_Set_dropped (λ _ _, True) (λ _, True) False "g" sample_ok_sink
    (sample_world _ (λ _ _ _, Logic.I)) "cherry" (Some (Slice 0 0 5 5)) (2 * Second) None zero_time (sample_state "g") None s')
    as [(sched & y & Hy & Hw) Hall];
    [apply sample_group_inv|by repeat constructor|discriminate|reflexivity|exact Hs|].
  exists sched, y. split; [exact Hy|]. split; [exact Hw|exact (Hall sched y Hy Hw)].
Defined.
