(* ===== verification/GroupRace.v ===== *)
(** * A removal that a load overtakes (group.go)

    [Remove] and the load of a [Get] go through different singleflight groups,
    so a load may finish after a removal that was started later, and store what
    it read before: [group_concurrent_Remove_overtaken]. *)

From S2P Require Import Prelude Errors Slices ByteView Sinks Picker MutexCache CacheIface Pb Group Recorder GroupCorrect Singleflight Goroutines Critical GroupConc.

Section Race.
Context {K C W message : Type}.
Context `{!Cache K, !CacheLaws K, !Client C, !Peer C W, !Proto message}.
Context `{!EqDecision C, !Countable C, !MapRange string C, !MapRange C (list string), !GoOrder}.
Context `{!Env K C W message}.

Notation Sink := (Sink (message := message)).
Notation St := (state K W).
Notation go := (prog St ByteView flight).
Notation instance_PickPeer := (instance_PickPeer (K := K) (C := C) (W := W) (message := message)).
Notation getAllPeers := (getAllPeers (K := K) (C := C) (W := W) (message := message)).
Notation getter_Get := (getter_Get (K := K) (C := C) (W := W) (message := message)).
Notation tick := (tick (K := K) (C := C) (W := W) (message := message)).
Notation missing := (missing (K := K) (C := C) (W := W) (message := message)).
Notation Remove := (Remove (K := K) (C := C) (W := W) (message := message)).

Implicit Types (s : St) (key : string) (v : ByteView).

(** ** A removal that every peer accepts *)

Lemma LocalRemove_room s σm σh key :
  rep s σm σh → keeps_room s (LocalRemove key s).2.
Proof.
  intros [Hm Hh]. unfold LocalRemove, get_group. unfold mbind at 1, M_bind at 1.
  case_bool_decide; [done|].
  destruct (cache_Remove_law _ _ key Hh) as (c & σh' & Hr & _ & _ & Hc).
  erewrite M_bind_val by (by apply on_hot_eq).
  destruct (cache_Remove_law _ _ key Hm) as (c' & σm' & Hr' & _ & _ & Hc').
  by erewrite on_main_eq by exact Hr'.
Qed.

Definition accepted (ps : list C) : Prop :=
  ∀ p req (mw : Mem * W), p ∈ ps → ∃ mw', client_Remove p req mw = (Val None, mw').

Lemma removals_accepted key ps s :
  accepted ps → ∃ s', for_each (λ p, removeFromPeer p key) ps s = (Val (replicate (length ps) None), s') ∧
    st_g s' = st_g s.
Proof.
  revert s. induction ps as [|p ps IH]; intros s Hps; [by exists s|]. simpl.
  destruct (Hps p (mkGetRequest (Some (name (st_g s))) (Some key)) (st_mem s, st_w s)) as ([m w] & Hp); [by left|].
  assert (removeFromPeer p key s = (Val None, with_outside m w s)) as Hr.
  { unfold removeFromPeer, get_group. unfold mbind, M_bind. by apply outside_eq. }
  destruct (IH (with_outside m w s)) as (s' & Hs' & Hg); [intros p0 req mw Hin; apply Hps; by right|].
  mstep Hr. mstep Hs'. by exists s'.
Qed.

Lemma Remove_accepted s σm σh key :
  rep s σm σh → 0 < maxCacheBytes (st_g s) → (instance_PickPeer key).2 = false → accepted getAllPeers →
  ∃ s' σm' σh', Remove key s = (Val None, s') ∧ rep s' σm' σh' ∧ σm' ⊆ delete key σm ∧ σh' ⊆ delete key σh ∧
    keeps_room s s' ∧ maxCacheBytes (st_g s') = maxCacheBytes (st_g s).
Proof.
  intros Hr Hmax Hown Hacc. unfold Remove. destruct (instance_PickPeer key) as [owner ?]. simpl in Hown. subst.
  pose proof (LocalRemove_room s σm σh key Hr) as Hroom.
  destruct (LocalRemove_spec s σm σh key Hr Hmax) as (s1 & σm' & σh' & Hl & Hr1 & ? & ? & (_ & ? & _) & _).
  rewrite Hl in Hroom. set (ts := go_order (remove_targets owner getAllPeers)).
  destruct (removals_accepted key ts s1) as (s2 & Hs2 & Hg).
  { intros p req mw Hp. apply Hacc. unfold ts in Hp. rewrite go_order_perm in Hp.
    by apply list_elem_of_filter in Hp as [_ ?]. }
  exists s2, σm', σh'. unfold rep, keeps_room in *. rewrite Hg. destruct Hr1, Hroom. split_and!; try done.
  destruct owner; mstep; cbv beta iota; mstep Hl; mstep Hs2; unfold mret, M_ret; do 2 f_equal; apply collect_None;
    rewrite go_order_perm; by apply Forall_replicate.
Qed.

(** ** A load that has read its value *)

(** What is left of [loadLocally] when the getter has returned. *)
Definition load_rest key v (dest : Sink) : go ((error + ByteView) * bool * Sink) :=
  _ ← act (count LocalLoads 1);
  _ ← act (populateCache key v MainCache);
  mret (inr v, true, dest).

Lemma load_fn_paused t calls (hs : list (call (V := ByteView))) mu s σm σh key (dest dest1 : Sink) m1 w1 :
  rep s σm σh → 0 < maxCacheBytes (st_g s) → missing σm σh (st_w s) key → (instance_PickPeer key).2 = false →
  getter_Get key dest (st_mem s, tick 2 (st_w s)) = (Val (None, dest1), (m1, w1)) →
  ∃ s1 hs' σm' σh', rtc (pmove t) (load_fn_go key dest, mkShared s calls hs mu)
      (load_rest key (View dest1) dest1, mkShared s1 calls (hs ++ hs') mu) ∧
    rep s1 σm' σh' ∧ maxCacheBytes (st_g s1) = maxCacheBytes (st_g s) ∧ keeps_room s s1.
Proof.
  intros Hr Hmax Hmiss Hown Hg.
  destruct (lookupCache_miss s σm σh key Hr Hmax Hmiss) as (s' & σm' & σh' & Hl & Hr' & _ & _ & (_ & Hmax' & _ & Hmem) & Hroom & Hw).
  destruct (lookupCache_alone ∅ key t s calls hs mu) as (hs' & Hrtc); [by intros sf|by rewrite Hl|].
  rewrite Hl in Hrtc. simpl in Hrtc.
  set (s2 := with_stats (stats_Add LoadsDeduped 1) s').
  exists (with_outside m1 w1 s2), hs', σm', σh'. split_and!; [|done|done|done].
  assert (getLocally key dest s2 = (Val (inr (View dest1), dest1), with_outside m1 w1 s2)) as Hloc.
  { unfold getLocally. erewrite M_bind_val; [|apply outside_eq; simpl; by rewrite Hmem, Hw]. done. }
  unfold load_fn_go. etrans; [apply rtc_bindr; exact Hrtc|]. cbn.
  apply (rtc_act _ _ _ tt _ s2); [done|]. cbn.
  destruct (instance_PickPeer key) as [owner ?]. simpl in Hown. subst.
  destruct owner; apply (rtc_act _ _ _ _ _ _ _ _ _ _ Hloc); apply rtc_refl.
Qed.
Lemma load_rest_runs t calls (hs : list (call (V := ByteView))) mu s σm σh key v (dest : Sink) :
  rep s σm σh → 0 < maxCacheBytes (st_g s) → cache_room (mainCache (st_g s)) key v →
  ∃ s' σm', rtc (pmove t) (load_rest key v dest, mkShared s calls hs mu)
      (mret (inr v, true, dest), mkShared s' calls hs mu) ∧ rep s' σm' σh ∧ σm' !! key = Some v.
Proof.
  intros Hr Hmax Hroom. set (s1 := with_stats (stats_Add LocalLoads 1) s).
  destruct (populate_main_spec s1 σm σh key v Hr Hmax) as (s' & σm' & Hp & Hr' & _ & Hv & _).
  exists s', σm'. split_and!; [|done|by apply Hv].
  unfold load_rest. apply (rtc_act _ _ _ tt _ s1); [done|]. cbn.
  apply (rtc_act _ _ _ _ _ _ _ _ _ _ Hp). apply rtc_refl.
Qed.

(** ** The Get around the load *)

(** What [load] and [Get] do with the results of [loadGroup.Do]. *)
Definition load_finish (dest : Sink) (x : option (bool * Sink) * (option ByteView * option error))
    : go ((error + ByteView) * bool * Sink) :=
  let '(mine, (viewi, err)) := x in
  let '(destPopulated, dest) := default (false, dest) mine in
  match err, viewi with
  | Some err, _ => mret (inl err, destPopulated, dest)
  | None, Some value => mret (inr value, destPopulated, dest)
  | None, None => Done None
  end.

Definition Get_finish (x : (error + ByteView) * bool * Sink) : go (option error * option Sink) :=
  let '(r, destPopulated, dest) := x in
  match r with
  | inl err => mret (Some err, Some dest)
  | inr value =>
      if destPopulated : bool then mret (None, Some dest) else
      '(dest, err) ← act (on_mem (SetSinkView dest value));
      mret (err, Some dest)
  end.

(** The leader of the call [c] runs [p]. *)
Definition Get_lead key (dest : Sink) (c : nat) (p : go ((error + ByteView) * bool * Sink))
    : go (answered (message := message)) :=
  '(err, d) ← (x ← (y ← bindr (x ← p; mret (load_results x))
        (λ r, Publish c (outcome_of r) (Delete loadGroup key (Done ((λ '(x, ve), (Some x, ve)) <$> r))));
      load_finish dest y); Get_finish x);
  mret (AGet err d).

Lemma Get_lead_runs t key dest c p q (σ σ' : shared St ByteView flight) :
  rtc (pmove t) (p, σ) (q, σ') → rtc (pmove t) (Get_lead key dest c p, σ) (Get_lead key dest c q, σ').
Proof. intros Hr. by do 5 apply rtc_bindr. Qed.

Lemma Get_lead_ends t key (dest d : Sink) c v s (hs : list (call (V := ByteView))) :
  is_Some (hs !! c) →
  ∃ hs', rtc (pmove t) (Get_lead key dest c (mret (inr v, true, d)), mkShared s {[(loadGroup, key) := c]} hs ∅)
    (Done (Some (AGet None (Some d))), mkShared s ∅ hs' ∅).
Proof.
  intros [cl Hc]. eexists. unfold Get_lead. cbn. eapply rtc_l; [unfold pmove; simpl; rewrite Hc; reflexivity|].
  apply rtc_once. unfold pmove. cbn. by rewrite delete_singleton_eq.
Qed.

(** A Get of a missing key up to its flight. *)
Lemma Get_flies t s σm σh key (dest : Sink) :
  rep s σm σh → 0 < maxCacheBytes (st_g s) → missing σm σh (st_w s) key →
  ∃ s1 hs σm' σh', rtc (pmove t) (operation_go (OpGet key (Some dest)), mkShared s ∅ [] ∅)
      (Get_lead key dest (length hs) (load_fn_go key dest),
       mkShared s1 {[(loadGroup, key) := length hs]} (hs ++ [mkCall 1 None leader_panicked]) ∅) ∧
    rep s1 σm' σh' ∧ missing σm' σh' (st_w s1) key ∧ st_mem s1 = st_mem s ∧ st_w s1 = tick 2 (st_w s) ∧
    maxCacheBytes (st_g s1) = maxCacheBytes (st_g s) ∧ keeps_room s s1.
Proof.
  intros Hr Hmax [Hsm Hsh]. set (s0 := with_stats (stats_Add Gets 1) s).
  destruct (lookupCache_miss s0 σm σh key Hr Hmax) as (s' & σm' & σh' & Hl & Hr' & ? & ? & (_ & Hmax' & _ & Hmem) & Hroom & Hw);
    [done|].
  destruct (lookupCache_alone ∅ key t s0 ∅ [] ∅) as (hs & Hrtc); [by intros sf|by rewrite Hl|].
  rewrite Hl in Hrtc. simpl in Hrtc. set (s1 := with_stats (stats_Add Loads 1) s').
  exists s1, hs, σm', σh'. split_and!; try done.
  - apply (rtc_act _ _ _ tt _ s0); [done|]. etrans; [do 2 apply rtc_bindr; exact Hrtc|].
    apply (rtc_act _ _ _ tt _ s1); [done|]. apply rtc_once. done.
  - unfold s1. simpl. rewrite Hw. split; apply stale_tick; by eapply stale_submap.
Qed.

(** A Get of a missing key up to the return of the getter, and from there on. *)
Lemma Get_pauses t s σm σh key (dest dest1 : Sink) m1 w1 :
  rep s σm σh → 0 < maxCacheBytes (st_g s) → missing σm σh (st_w s) key → (instance_PickPeer key).2 = false →
  getter_Get key dest (st_mem s, tick 4 (st_w s)) = (Val (None, dest1), (m1, w1)) →
  ∃ s1 c hs σm' σh', rtc (pmove t) (operation_go (OpGet key (Some dest)), mkShared s ∅ [] ∅)
      (Get_lead key dest c (load_rest key (View dest1) dest1), mkShared s1 {[(loadGroup, key) := c]} hs ∅) ∧
    is_Some (hs !! c) ∧ rep s1 σm' σh' ∧ maxCacheBytes (st_g s1) = maxCacheBytes (st_g s) ∧ keeps_room s s1.
Proof.
  intros Hr Hmax Hmiss Hown Hg.
  destruct (Get_flies t s σm σh key dest Hr Hmax Hmiss)
    as (s1 & hs & σm1 & σh1 & Hfly & Hr1 & Hmiss1 & Hmem1 & Hw1 & Hmax1 & Hk1).
  destruct (load_fn_paused t {[(loadGroup, key) := length hs]} (hs ++ [mkCall 1 None leader_panicked]) ∅
    s1 σm1 σh1 key dest dest1 m1 w1)
    as (s2 & hs2 & σm2 & σh2 & Hpause & Hr2 & Hmax2 & Hk2); [done|lia|done|done|by rewrite Hmem1, Hw1, <-tick_add|].
  eexists s2, (length hs), _, σm2, σh2. split_and!; [|..|done|congruence|by etrans].
  - etrans; [exact Hfly|]. apply Get_lead_runs, Hpause.
  - rewrite <-(assoc_L (++)). simpl. rewrite list_lookup_middle by done. by eexists.
Qed.

Lemma Get_resumes t s σm σh key (dest d : Sink) c v (hs : list (call (V := ByteView))) :
  rep s σm σh → 0 < maxCacheBytes (st_g s) → cache_room (mainCache (st_g s)) key v → is_Some (hs !! c) →
  ∃ s' hs' σm', rtc (pmove t) (Get_lead key dest c (load_rest key v d), mkShared s {[(loadGroup, key) := c]} hs ∅)
      (Done (Some (AGet None (Some d))), mkShared s' ∅ hs' ∅) ∧ rep s' σm' σh ∧ σm' !! key = Some v.
Proof.
  intros Hr Hmax Hroom Hc.
  destruct (load_rest_runs t {[(loadGroup, key) := c]} hs ∅ s σm σh key v d Hr Hmax Hroom)
    as (s' & σm' & Hrest & Hr' & Hv).
  destruct (Get_lead_ends t key dest d c v s' hs Hc) as (hs' & Hend).
  exists s', hs', σm'. split_and!; [|done..]. etrans; [by apply Get_lead_runs|exact Hend].
Qed.

(** A removal while a load is in flight. *)
Lemma Remove_runs t key c s s' (hs : list (call (V := ByteView))) :
  Remove key s = (Val None, s') →
  ∃ hs', rtc (pmove t) (operation_go (message := message) (OpRemove key), mkShared s {[(loadGroup, key) := c]} hs ∅)
    (Done (Some (AError None)), mkShared s' {[(loadGroup, key) := c]} (hs ++ hs') ∅).
Proof.
  intros Hrem.
  destruct (Remove_alone key t s {[(loadGroup, key) := c]} hs ∅) as (hs' & Hr); [|by rewrite Hrem|].
  { intros sf. split; [done|]. intros Hin key'. apply lookup_singleton_ne. intros [= <- _].
    apply elem_of_union in Hin. set_solver. }
  rewrite Hrem in Hr. exists hs'. etrans; [apply rtc_bindr; exact Hr|apply rtc_refl].
Qed.

(** ** The removal in between *)

(** Something outside of the group changes: the data behind the getter. *)
Definition update_go (upd : Mem * W → Mem * W) : go (answered (message := message)) :=
  _ ← act (outside (λ x, (Val tt, upd x))); mret AUnit.

Lemma update_runs t upd s calls (hs : list (call (V := ByteView))) mu :
  ∃ s', rtc (pmove t) (update_go upd, mkShared s calls hs mu) (Done (Some AUnit), mkShared s' calls hs mu) ∧
    st_g s' = st_g s.
Proof.
  destruct (upd (st_mem s, st_w s)) as [m w] eqn:He. exists (with_outside m w s). split; [|done].
  apply (rtc_act _ _ _ tt _ (with_outside m w s)); [|apply rtc_refl]. apply outside_eq. by rewrite He.
Qed.

(** C40: A removal can be overtaken.  A Get of a key this instance owns and has
    not cached reads the value from the getter; then the data behind the getter
    changes, and Remove runs to its end and returns nil, every peer having
    accepted it, with the key in neither cache; then the Get goes on, returns
    nil and stores the value from before the change in the main cache, where
    later reads find it. *)
Theorem group_concurrent_Remove_overtaken s σm σh key (dest dest1 : Sink) m1 w1 (upd : Mem * W → Mem * W)
  (Hrep : rep s σm σh) (Hmax : 0 < maxCacheBytes (st_g s)) (Hmiss : missing σm σh (st_w s) key)
  (Hown : (instance_PickPeer key).2 = false) (Hpeers : accepted getAllPeers)
  (Hgetter : getter_Get key dest (st_mem s, tick 4 (st_w s)) = (Val (None, dest1), (m1, w1)))
  (Hroom : cache_room (mainCache (st_g s)) key (View dest1)) :
  ∃ sched y σm1 σh1 sched' y' σm2 σh2,
    fexec sched (apart (start [operation_go (OpGet key (Some dest)); update_go upd; operation_go (OpRemove key)] s))
      = Some y ∧
    y.1 !! 1%nat = Some (Outside (Done (Some AUnit))) ∧ y.1 !! 2%nat = Some (Outside (Done (Some (AError None)))) ∧
    rep (sh_st y.2) σm1 σh1 ∧ σm1 !! key = None ∧ σh1 !! key = None ∧
    fexec sched' y = Some y' ∧ y'.1 !! 0%nat = Some (Outside (Done (Some (AGet None (Some dest1))))) ∧
    rep (sh_st y'.2) σm2 σh2 ∧ σm2 !! key = Some (View dest1).
Proof.
  destruct (Get_pauses 0 s σm σh key dest dest1 m1 w1 Hrep Hmax Hmiss Hown Hgetter)
    as (s1 & c & hs & σm1 & σh1 & Hget & Hc & Hr1 & Hmax1 & Hk1).
  destruct (update_runs 1 upd s1 {[(loadGroup, key) := c]} hs ∅) as (s2 & Hupd & Hg2).
  destruct (Remove_accepted s2 σm1 σh1 key) as (s3 & σm3 & σh3 & Hrem & Hr3 & Hm3 & Hh3 & Hk3 & Hmax3);
    [by unfold rep; rewrite Hg2|rewrite Hg2; lia|done|done|].
  destruct (Remove_runs 2 key c s2 s3 hs Hrem) as (hs3 & Hremove).
  destruct (Get_resumes 0 s3 σm3 σh3 key dest dest1 c (View dest1) (hs ++ hs3)) as (s4 & hs4 & σm4 & Hend & Hr4 & Hv4);
    [done|rewrite Hmax3, Hg2; lia| |by destruct Hc as [cl Hc]; exists cl; apply lookup_app_l_Some|].
  { apply Hk3. rewrite Hg2. by apply Hk1. }
  destruct (rtc_exec 0 [operation_go (OpGet key (Some dest)); update_go upd; operation_go (OpRemove key)]
    _ _ _ _ eq_refl Hget) as [n0 H0].
  set (p := Get_lead key dest c _) in *.
  destruct (rtc_exec 1 [p; update_go upd; operation_go (OpRemove key)] _ _ _ _ eq_refl Hupd) as [n1 H1].
  destruct (rtc_exec 2 [p; Done (Some AUnit); operation_go (OpRemove key)] _ _ _ _ eq_refl Hremove) as [n2 H2].
  destruct (rtc_exec 0 [p; Done (Some AUnit); Done (Some (AError None))] _ _ _ _ eq_refl Hend) as [n3 H3].
  cbn [list_insert insert] in H0, H1, H2, H3.
  destruct (step_taken_apart (replicate n0 0 ++ replicate n1 1 ++ replicate n2 2)%nat _ _
    (exec_by_then _ _ _ _ _ _ H0 (exec_by_then _ _ _ _ _ _ H1 H2))) as [sched Hsched].
  destruct (step_taken_apart _ _ _ H3) as [sched' Hsched'].
  eexists sched, _, σm3, σh3, sched', _, σm4, σh3. split_and!; [exact Hsched|done|done|exact Hr3| | |exact Hsched'|done|exact Hr4|done].
  all: eapply lookup_weaken_None; [apply lookup_delete_eq|done].
Qed.

End Race.

(** ** Witness

    The world is the text the getter reads; the peers accept everything. *)

Section Witness.

#[local] Instance text_peer : Peer NoOpClient string := {|
  client_Get _ _ := mret (None, mkGetResponse None None);
  client_Set _ _ := mret None;
  client_Remove _ _ := mret None;
  client_RemoveKeys _ _ := mret None;
|}.

#[local] Instance text_env : Env mutexCache NoOpClient string (list byte) := {|
  fnv1_HashBytes64 := fnv1_64;
  inst := sample_instance true;
  getter_Get key dest := λ '(m, text),
    match SetString dest text zero_time m with
    | (Val (dest, err), m) => (Val (err, dest), (m, text))
    | (Panicked, m) => (Panicked, (m, text))
    | (Diverged, m) => (Diverged, (m, text))
    end;
  time_Now w := (Second, w);
  ctx := None;
|}.

Definition text_state (text : string) : state mutexCache string := mkSt (st_g (sample_state "g")) [] text.

(** The text changes from "old" to "new", and "old" is cached for good. *)
Lemma group_concurrent_Remove_overtaken_witness :
  ∃ sched y sched' y' σm2 σh2,
    fexec sched (apart (start [operation_go (OpGet "cherry" (Some sample_sink)); update_go (λ '(m, _), (m, "new"));
      operation_go (OpRemove "cherry")] (text_state "old"))) = Some y ∧
    y.1 !! 2%nat = Some (Outside (Done (Some (AError None)))) ∧
    fexec sched' y = Some y' ∧ rep (sh_st y'.2) σm2 σh2 ∧
    σm2 !! "cherry" = Some (mkByteView None "old" zero_time).
Proof.
  destruct (group_concurrent_Remove_overtaken (message := list byte) (text_state "old") ∅ ∅ "cherry" sample_sink
    (SStringSink (mkStringSink (Some "old") (mkByteView None "old" zero_time))) [] "old" (λ '(m, _), (m, "new")))
    as (sched & y & σm1 & σh1 & sched' & y' & σm2 & σh2 & Hy & _ & Hrem & _ & _ & _ & Hy' & _ & Hr & Hv);
    [apply (sample_rep "g")|reflexivity|by split; intros n|by vm_compute|by intros p req mw _; exists mw|reflexivity| |].
  - apply mutexCache_room_new; [done..|]. by vm_compute.
  - exists sched, y, sched', y', σm2, σh2. split_and!; done.
Defined.

End Witness.
