(* ===== verification/GroupOnce.v ===== *)
(** * Concurrent misses share one load (group.go)

    Any number of goroutines call [Get] for one key that is in neither cache
    and that this instance owns.  When the getter succeeds with a value that
    does not expire and that the main cache has room for, it runs exactly once
    under every interleaving, and every caller receives the value of that run:
    as the leader of the load, as a duplicate that waited for it, or from the
    main cache.  (A getter that fails is run again by later calls.) *)

From S2P Require Import Prelude Errors Slices ByteView Sinks Picker Lru MutexCache CacheIface Pb Group Recorder GroupCorrect GroupTargets GroupWrites Singleflight Goroutines Critical GroupConc.

(** The phases of the load: the leader looks in the caches, has missed, or has
    run the getter and not stored its value yet. *)
Inductive load_phase := Looking | Missed | Ran.

Section Once.
Context {K C W message : Type}.
Context `{!Cache K, !CacheLaws K, !Client C, !Peer C W, !Proto message}.
Context `{!EqDecision C, !Countable C, !MapRange string C, !MapRange C (list string), GoOrder}.
Context `{!Env K C W message}.

Notation Sink := (Sink (message := message)).
Notation St := (state K W).
Notation instance_PickPeer := (instance_PickPeer (K := K) (C := C) (W := W) (message := message)).
Notation time_Now := (time_Now (K := K) (C := C) (W := W) (message := message)).
Notation getter_Get := (getter_Get (K := K) (C := C) (W := W) (message := message)).
Notation cached_Get := (cached_Get (K := K) (C := C) (W := W) (message := message)).
Notation lookupCache_go := (lookupCache_go (K := K) (C := C) (W := W) (message := message)).
Notation answered := (answered (message := message)).

Implicit Types (dest d : Sink) (s : St).

(** [runs w]: how often the getter ran for [key]; [J] an invariant of the
    world; [ok_sink] describes the callers' sinks. *)
Context (key : string) (v : ByteView) (runs : W → nat) (r0 : nat) (J : W → Prop).
Context (ok_sink : Sink → Prop).

(** This instance owns the key; the getter, when it has run [r0] times,
    succeeds with [v], which does not expire and which the sinks accept.
    Nothing is asked of further runs of the getter. *)
Record getter_ok : Prop := {
  go_now w : J w → J (time_Now w).2 ∧ runs (time_Now w).2 = runs w;
  go_getter dest m w : ok_sink dest → J w → runs w = r0 →
    ∃ d m' w', getter_Get key dest (m, w) = (Val (None, d), (m', w')) ∧
      J w' ∧ runs w' = S r0 ∧ View d = v;
  go_sink dest m : ok_sink dest → ∃ d, (SetSinkView dest v m).1 = Val (d, None);
  go_owner : (instance_PickPeer key).2 = false;
  go_fresh : IsZero (Expire v) = true;
}.

(** Before the getter ran, and once its value is cached. *)
Definition before (σm : gmap string ByteView) (w : W) : Prop := runs w = r0 ∧ σm !! key = None.
Definition cached (σm : gmap string ByteView) (w : W) : Prop := runs w = S r0 ∧ σm !! key = Some v.

Definition phase_inv (φ : option load_phase) (σm : gmap string ByteView) (w : W) : Prop :=
  match φ with
  | Some Missed => before σm w
  | Some Ran => runs w = S r0 ∧ (σm !! key = None ∨ σm !! key = Some v)
  | Some Looking | None => before σm w ∨ cached σm w
  end.

Definition once_inv s (γ : gmap (flight * string) load_phase) : Prop :=
  ∃ σm σh, rep s σm σh ∧ σh !! key = None ∧ cache_room (mainCache (st_g s)) key v ∧
    0 < maxCacheBytes (st_g s) ∧ J (st_w s) ∧ phase_inv (γ !! (loadGroup, key)) σm (st_w s).

(** The getter has run. *)
Definition ran s : Prop := runs (st_w s) = S r0.

(** What a call in flight for the key publishes, once the getter has run. *)
Definition once_shared (T : Prop) (sf : flight) (k : string) (x : option ByteView) (e : option error)
    : Prop := x = Some v ∧ e = None ∧ T.

(** What the caller of [Get] is left with: no error, and [v] in its sink, from
    the getter or as [SetSinkView] puts it there. *)
Definition filled dest d : Prop := (∃ x x', getter_Get key dest x = (Val (None, d), x')) ∧ View d = v.

Definition delivers dest (a : answered) : Prop :=
  (∃ d, a = AGet None (Some d) ∧ filled dest d) ∨
  (∃ m m' d, SetSinkView dest v m = (Val (d, None), m') ∧ a = AGet None (Some d)).

Context (Hgo : getter_ok).

(** [T] is the prophecy that the getter runs. *)
Section Prophecy.
Context (T : Prop).

Notation keeps := (keeps once_inv ran).
Notation wp_act := (wp_act once_inv ran T).
Notation triple := (triple once_inv (once_shared T) ran T).
Notation wp := (wp once_inv (once_shared T) ran T).

(** ** The atomic actions *)

Lemma once_get_group : keeps get_group
  (λ r : option (group K), ∃ g, r = Some g ∧ bool_decide (maxCacheBytes g <= 0) = false).
Proof.
  intros γ. split; [|done]. intros s Hs. split; [done|]. exists (st_g s). split; [done|].
  destruct Hs as (? & ? & _ & _ & _ & ? & _). apply bool_decide_false. lia.
Qed.

Lemma once_stats f : keeps (on_stats f) (λ r, r = Some tt).
Proof. intros γ. split; [|done]. intros s (σm & σh & ?). split; [|done]. by exists σm, σh. Qed.

Lemma once_counted f : keeps (on_stats f) (λ r, ∃ x, r = Some x ∧ True).
Proof.
  intros γ. destruct (once_stats f γ) as [Hp Hst]. split; [|done].
  eapply preserves_mono; [|exact Hp]. intros r ->. eauto.
Qed.

Lemma once_mem {X} (f : M Mem X) (Ψ : option X → Prop) :
  (∀ m, match f m with (Val x, _) => Ψ (Some x) | _ => False end) → keeps (on_mem f) Ψ.
Proof.
  intros Hf γ. split.
  - intros s (σm & σh & ?). specialize (Hf (st_mem s)). unfold on_mem.
    destruct (f (st_mem s)) as [[] ?]; [|done..]. split; [|done]. by exists σm, σh.
  - intros s _. unfold on_mem. by destruct (f (st_mem s)).
Qed.

Lemma fresh_v now : fresh now (Some v) = Some v.
Proof. unfold fresh, view_expired. by rewrite (go_fresh Hgo). Qed.

(** A lookup in the main cache finds [v] or nothing, and does not lose [v]. *)
Lemma main_lookup s γ :
  once_inv s γ →
  ∃ o s', cached_Get on_main key s = (Val o, s') ∧ once_inv s' γ ∧ (ran s → ran s') ∧
    (o = Some v ∧ ran s' ∨ o = None ∧
      (γ !! (loadGroup, key) = Some Looking → once_inv s' (<[(loadGroup, key) := Missed]> γ))).
Proof.
  intros (σm & σh & [Hm Hh] & Hk & Hroom & Hmax & HJ & Hφ).
  destruct (cached_Get_main s σm key Hm) as (c' & σ' & Hg & Hr' & Hsub & Hkeep & Hroomy).
  destruct (go_now Hgo _ HJ) as [HJ' Hruns].
  eexists _, _. split; [exact Hg|].
  assert (∀ φ, phase_inv φ σ' (st_w s) → ∀ γ', γ' !! (loadGroup, key) = φ →
    once_inv (with_main c' (with_tick 1 s)) γ') as Hinv.
  { intros φ Hp γ' <-. exists σ', σh. split_and!; try done; [by apply Hroomy|]. simpl.
    unfold phase_inv, before, cached in *. by rewrite Hruns. }
  assert (∀ x, σm !! key = None → σ' !! key = Some x → False) as Hnone.
  { intros x Hn Hx. eapply lookup_weaken in Hx; [|done]. congruence. }
  assert (σm !! key = None → σ' !! key = None) as Hnone'.
  { intros Hn. destruct (σ' !! key) as [x|] eqn:Hx; [|done]. by destruct (Hnone x). }
  assert (σm !! key = Some v → σ' !! key = Some v) as Hsome.
  { intros Hv. apply Hkeep. rewrite Hv. apply fresh_v. }
  assert (ran (with_main c' (with_tick 1 s)) ↔ ran s) as Hran by (unfold ran; simpl; by rewrite Hruns).
  split_and!; [|by apply Hran|].
  - eapply Hinv; [|done]. unfold phase_inv, before, cached in *.
    destruct (γ !! (loadGroup, key)) as [[]|]; naive_solver.
  - assert (σm !! key = None ∨ σm !! key = Some v ∧ ran s) as [Hn|[Hv Hs]].
    { unfold ran, phase_inv, before, cached in *. destruct (γ !! (loadGroup, key)) as [[]|]; naive_solver. }
    + right. rewrite Hn. split; [done|]. intros Hl. rewrite Hl in Hφ.
      eapply (Hinv (Some Missed)); [|by rewrite lookup_insert_eq].
      unfold phase_inv, before, cached in *. naive_solver congruence.
    + left. rewrite Hv. split; [apply fresh_v|by apply Hran].
Qed.

(** The hot cache holds nothing for the key. *)
Lemma hot_lookup : keeps (cached_Get on_hot key) (λ r, r = Some None).
Proof.
  assert (∀ γ s, once_inv s γ → ∃ s', cached_Get on_hot key s = (Val None, s') ∧
    once_inv s' γ ∧ (ran s → ran s')) as Hhot.
  2:{ intros γ. split; intros s Hs; by destruct (Hhot γ s Hs) as (s' & -> & ? & ?). }
  intros γ s (σm & σh & [Hm Hh] & Hk & Hroom & Hmax & HJ & Hφ).
  destruct (cached_Get_hot s σh key Hh) as (c' & σ' & Hg & Hr' & Hsub & _).
  destruct (go_now Hgo _ HJ) as [HJ' Hruns]. rewrite Hk in Hg. eexists. split; [exact Hg|].
  split; [|unfold ran; simpl; by rewrite Hruns].
  exists σm, σ'. split_and!; try done; simpl.
  - destruct (σ' !! key) as [x|] eqn:Hx; [|done]. eapply lookup_weaken in Hx; [|done]. congruence.
  - unfold phase_inv, before, cached in *. by rewrite Hruns.
Qed.

(** The getter runs, and its value is stored. *)
Lemma run_getter c dest :
  ok_sink dest →
  wp_act (Leads loadGroup key c Missed) (getLocally key dest)
    (λ ρ r, ρ = Leads loadGroup key c Ran ∧ T ∧ ∃ d, r = Some (inr v, d) ∧ filled dest d).
Proof.
  intros Hd s γ (σm & σh & Hr & Hk & Hroom & Hmax & HJ & Hφ) Hin. simpl in Hin. rewrite Hin in Hφ.
  destruct Hφ as [Hruns Hnone].
  destruct (go_getter Hgo dest (st_mem s) (st_w s) Hd HJ Hruns) as (d & m' & w' & Hg & HJ' & Hruns' & Hv).
  unfold getLocally, mbind, M_bind. erewrite outside_eq by exact Hg. cbn.
  split; [done|]. intros HT. right. exists Ran. split.
  - exists σm, σh. simpl. split_and!; try done. rewrite lookup_insert_eq. by split; [|left].
  - split_and!; [done|by apply HT|]. exists d. rewrite Hv. split; [done|]. split; [|done]. eauto.
Qed.

Lemma store_value c :
  wp_act (Leads loadGroup key c Ran) (populateCache key v MainCache)
    (λ ρ r, ρ = Leads loadGroup key c Looking ∧ r = Some tt).
Proof.
  intros s γ (σm & σh & [Hm Hh] & Hk & Hroom & Hmax & HJ & Hφ) Hin. simpl in Hin. rewrite Hin in Hφ.
  destruct Hφ as [Hruns _].
  destruct (cache_Add_law _ _ key v Hm) as (c' & σ' & Ha & Hm' & _ & Hadd).
  destruct (Hadd Hroom) as [Hv Hroom'].
  unfold populateCache, get_group, mbind, M_bind. rewrite bool_decide_false by lia.
  rewrite (on_main_eq _ _ _ _ Ha). split; [done|]. intros _. right. exists Looking. split; [|done].
  exists σ', σh. simpl. split_and!; try done; [by apply Hroom'|]. rewrite lookup_insert_eq. right. by split.
Qed.

(** ** The operations *)

(** [triple] for actions that change no phase and return. *)
Lemma once_bind {X Y} P (m : M St X) (f : X → prog St ByteView flight Y) (Ψ : X → Prop) Θ :
  keeps m (λ r, ∃ x, r = Some x ∧ Ψ x) → (∀ x, Ψ x → triple P (f x) Θ) →
  triple P (act m ≫= f) Θ.
Proof.
  intros Hm Hf. eapply triple_bind; [by apply triple_act| |].
  - by intros (x & [=] & _).
  - intros x (? & [= <-] & ?). by apply Hf.
Qed.

(** A goroutine that does not lead the load finds [v] or nothing. *)
Lemma lookup_outside P :
  triple P (lookupCache_go key) (λ r, ∃ o, r = Some o ∧ (o = Some v ∧ T ∨ o = None)).
Proof.
  eapply (once_bind _ _ _ (λ g, bool_decide (maxCacheBytes g <= 0) = false));
    [apply once_get_group|]. intros g ->.
  eapply (triple_bind _ _ _ _ _ _ _ (λ r, ∃ o, r = Some o ∧ (o = Some v ∧ T ∨ o = None))).
  - apply triple_wp_act. intros ρ s γ Hs _. destruct (main_lookup s γ Hs) as (o & s' & -> & Hs' & Hst & Ho).
    split; [done|]. intros HT. left. split; [done|]. split; [done|]. exists o. naive_solver.
  - by intros (? & [=] & _).
  - intros o (? & [= <-] & [[-> ?]| ->]); [apply triple_ret; eauto|].
    eapply triple_weaken; [done| |apply triple_act, hot_lookup]. intros r ->. eauto.
Qed.

(** The leader finds [v], or has missed. *)
Lemma lookup_leader c :
  wp (lookupCache_go key) (Leads loadGroup key c Looking) None
    (λ ρ h r, h = None ∧
      (ρ = Leads loadGroup key c Looking ∧ r = Some (Some v) ∧ T ∨
       ρ = Leads loadGroup key c Missed ∧ r = Some None)).
Proof.
  intros s γ Hs _. destruct (once_get_group γ) as [Hget _].
  destruct (Hget s Hs) as [Hs' (g & [= <-] & Hmax)].
  split; [done|]. intros _. left. split; [done|]. cbn. rewrite Hmax. clear s γ Hs Hs' Hmax Hget.
  intros s γ Hs Hin. destruct (main_lookup s γ Hs) as (o & s' & -> & Hs' & Hst & Ho).
  split; [done|]. intros HT. destruct Ho as [[-> Hran]|[-> Hmiss]].
  - apply HT in Hran. left. split; [done|]. cbn. auto.
  - right. exists Missed. split; [by apply Hmiss|]. cbn. clear s γ Hs Hin s' Hs' Hmiss Hst HT.
    eapply wp_act_mono; [|apply wp_act_keeps, hot_lookup]. intros ρ r [-> ->]. cbn. auto.
Qed.

(** What a load gives its caller: [v], after a run of the getter, and [dest] filled by the getter or
    untouched. *)
Definition loaded dest (b : bool) d : Prop := if b then filled dest d else d = dest.

Lemma act_keeps {X Y} (m : M St X) (f : X → prog St ByteView flight Y) x ρ h Φ :
  keeps m (λ r, r = Some x) → wp (f x) ρ h Φ → wp (act m ≫= f) ρ h Φ.
Proof.
  intros Hm Hf. simpl. eapply wp_act_mono; [|by apply wp_act_keeps]. by intros ρ' r [-> ->].
Qed.

Lemma loadLocally_leader c dest :
  ok_sink dest →
  wp (loadLocally_go key dest) (Leads loadGroup key c Missed) None
    (λ ρ h r, ρ = Leads loadGroup key c Looking ∧ h = None ∧ T ∧
      ∃ b d, r = Some (inr v, b, d) ∧ loaded dest b d).
Proof.
  intros Hd. unfold loadLocally_go. simpl.
  eapply wp_act_mono; [|by apply run_getter]. intros ρ r (-> & ? & d & -> & Hf). cbn beta iota.
  eapply (act_keeps _ _ tt); [apply once_stats|].
  simpl. eapply wp_act_mono; [|apply store_value]. intros ρ r [-> ->]. simpl.
  split_and!; [done..|]. by exists true, d.
Qed.

Lemma load_fn_leader c dest :
  ok_sink dest →
  wp (load_fn_go key dest) (Leads loadGroup key c Looking) None
    (λ ρ h r, ρ = Leads loadGroup key c Looking ∧ h = None ∧ T ∧
      ∃ b d, r = Some (inr v, b, d) ∧ loaded dest b d).
Proof.
  intros Hd. unfold load_fn_go. apply wp_bindr. eapply wp_mono; [|apply lookup_leader].
  intros ρ h r (-> & [(-> & -> & ?)|[-> ->]]).
  - eapply (act_keeps _ _ tt); [apply once_stats|]. simpl. split_and!; [done..|]. by exists false, dest.
  - eapply (act_keeps _ _ tt); [apply once_stats|].
    pose proof (go_owner Hgo) as Hown.
    destruct (instance_PickPeer key) as [[peer|] []]; try done; by apply loadLocally_leader.
Qed.

Lemma load_once dest :
  ok_sink dest →
  triple toplevel (load_go key dest) (λ r, T ∧ ∃ b d, r = Some (inr v, b, d) ∧ loaded dest b d).
Proof.
  intros Hd. unfold load_go.
  eapply (once_bind _ _ _ (λ _, True)); [apply once_counted|].
  intros [] _.
  eapply (triple_bind _ _ _ _ _ _ _ (λ r, T ∧ ∃ mine, r = Some (mine, (Some v, None)) ∧
    loaded dest (default (false, dest) mine).1 (default (false, dest) mine).2)).
  - eapply (wp_Do _ _ _ _ _ _ _ Looking (λ φ r, φ = Looking ∧ T ∧
      ∃ b d, r = Some ((b, d), (Some v, None)) ∧ loaded dest b d)).
    + intros s γ (σm & σh & ? & ? & ? & ? & ? & Hφ) Hnone. exists σm, σh. split_and!; try done.
      rewrite lookup_insert_eq. by rewrite Hnone in Hφ.
    + intros c. apply wp_bindr. eapply wp_mono; [|by apply load_fn_leader].
      intros ρ h r (-> & -> & ? & b & d & -> & Hl). simpl. exists Looking. split_and!; [done..|]. eauto.
    + intros φ r (-> & HT & b & d & -> & Hl). split_and!; [|done|done|].
      * intros s γ (σm & σh & ? & ? & ? & ? & ? & Hφ) Hlook. exists σm, σh. split_and!; try done.
        rewrite lookup_delete_eq. by rewrite Hlook in Hφ.
      * by exists (Some (b, d)).
    + intros x e (-> & -> & HT). split; [done|]. by exists None.
  - by intros (_ & mine & [=] & _).
  - intros [mine [x e]] (HT & mine' & [= <- -> ->] & Hl). destruct (default (false, dest) mine) as [b d].
    apply triple_ret. eauto.
Qed.

Lemma Get_once dest :
  ok_sink dest →
  triple toplevel (operation_go (OpGet key (Some dest))) (λ r, T ∧ ∃ a, r = Some a ∧ delivers dest a).
Proof.
  intros Hd. unfold operation_go.
  eapply (triple_bind _ _ _ _ _ _ _ (λ r, T ∧ ∃ e o, r = Some (e, o) ∧ delivers dest (AGet e o)));
    [|by intros (_ & ? & ? & [=] & _)|intros [e d] (HT & ? & ? & [= -> ->] & Hg); apply triple_ret; eauto].
  unfold Get_go. eapply (once_bind _ _ _ (λ _, True)); [apply once_counted|].
  intros [] _.
  assert (∀ P, T → triple P ('(d, err) ← act (on_mem (SetSinkView dest v)); mret (err, Some d))
    (λ r, T ∧ ∃ e o, r = Some (e, o) ∧ delivers dest (AGet e o))) as Hsink.
  { intros P HT. eapply (once_bind _ _ _ (λ '(d, e), e = None ∧ ∃ m m', SetSinkView dest v m = (Val (d, e), m'))).
    - apply once_mem. intros m. destruct (go_sink Hgo dest m Hd) as [d Hp].
      destruct (SetSinkView dest v m) as [r m'] eqn:Hs. simpl in Hp. subst r. exists (d, None). eauto.
    - intros [d e] (-> & m & m' & Hs). apply triple_ret. split; [done|].
      exists None, (Some d). split; [done|]. right. eauto 8. }
  eapply triple_bind; [apply lookup_outside|by intros (? & [=] & _)|].
  intros o (? & [= <-] & [[-> ?]| ->]).
  - eapply (once_bind _ _ _ (λ _, True)); [apply once_counted|]. intros ? _. by apply Hsink.
  - eapply triple_bind; [by apply load_once|by intros (_ & ? & ? & [=] & _)|].
    intros [[r b] d] (HT & ? & ? & [= -> <- <-] & Hl). destruct b; simpl in Hl.
    + apply triple_ret. split; [done|]. exists None, (Some d). split; [done|]. left. eauto.
    + subst d. by apply Hsink.
Qed.

End Prophecy.

(** ** The executions *)

Context (dests : list Sink) (s : St).

Definition Gets_start : config St ByteView flight answered :=
  operations_start ((λ d, OpGet key (Some d)) <$> dests) s.

(** The key is in neither cache, and the getter has run [r0] times. *)
Definition missing_everywhere : Prop :=
  ∃ σm σh, rep s σm σh ∧ σm !! key = None ∧ σh !! key = None ∧ cache_room (mainCache (st_g s)) key v ∧
    0 < maxCacheBytes (st_g s) ∧ J (st_w s) ∧ runs (st_w s) = r0.

Context (Hs : missing_everywhere) (Hdests : Forall ok_sink dests).

Lemma once_inv_start : once_inv s ∅.
Proof.
  destruct Hs as (σm & σh & ? & ? & ? & ? & ? & ? & ?). exists σm, σh. split_and!; try done.
  rewrite lookup_empty. by left.
Qed.

(** What goroutine [t] is left with. *)
Definition got (T : Prop) (t : nat) (r : option answered) : Prop :=
  T ∧ ∃ dest a, dests !! t = Some dest ∧ r = Some a ∧ delivers dest a.

Lemma Gets_once T t p :
  (operation_go <$> ((λ d, OpGet key (Some d)) <$> dests)) !! t = Some p →
  triple once_inv (once_shared T) ran T toplevel p (got T t).
Proof.
  rewrite !list_lookup_fmap. destruct (dests !! t) as [dest|] eqn:Hd; intros [= <-].
  eapply triple_weaken; [done| |apply Get_once; by eapply Forall_lookup in Hdests].
  intros r (? & a & ? & ?). split; eauto.
Qed.

(** C3: Concurrent misses share one load: any number of goroutines call Get for
    a key that is in neither cache and owned here, and the first run of the
    getter succeeds with a value that does not expire, that the main cache has
    room for and that the callers' sinks accept.  Then under every
    interleaving, with the critical sections of singleflight taken apart, and
    at every moment, the getter has run at most once, and exactly once when
    some Get has returned; every Get ends without an error and delivers to its
    sink the value of that one run. *)
Theorem group_concurrent_one_load :
  (∀ sched x, fexec sched (apart Gets_start) = Some x →
    (runs (st_w (sh_st x.2)) = r0 ∨ runs (st_w (sh_st x.2)) = S r0) ∧
    ∀ t r, x.1 !! t = Some (Outside (Done r)) → runs (st_w (sh_st x.2)) = S r0) ∧
  finevitably (λ x, ∀ t dest, dests !! t = Some dest →
    ∃ a, x.1 !! t = Some (Outside (Done (Some a))) ∧ delivers dest a ∧
      runs (st_w (sh_st x.2)) = S r0) (apart Gets_start).
Proof.
  split.
  - intros sched x Hx.
    destruct (fine_always _ _ once_shared got _ _ once_inv_start Gets_once _ _ Hx)
      as [(γ & σm & σh & _ & _ & _ & _ & _ & Hφ) Hgot].
    split; [|intros t r Ht; by destruct (Hgot t r Ht)].
    unfold phase_inv, before, cached in Hφ. destruct (γ !! (loadGroup, key)) as [[]|]; naive_solver.
  - eapply (inevitably_strengthen _ _ (λ x, length x.1 = length dests)); cycle 3.
    + apply (fine_inevitable _ _ once_shared got _ _ once_inv_start Gets_once).
    + intros x t x' Hx ?%fstep_length. congruence.
    + intros x (_ & _ & _ & Hend) Hlen t dest Ht.
      destruct (lookup_lt_is_Some_2 x.1 t) as [p Hp]; [rewrite Hlen; by eapply lookup_lt_Some|].
      destruct (Hend t p Hp) as (r & -> & ? & dest' & a & ? & -> & ?). simplify_eq. eauto.
    + simpl. by rewrite !length_fmap.
Qed.

End Once.

(** ** Three callers on the three-peer cluster *)

(** The sample getter, recorded in the history. *)
Definition counting_getter (key : string) (dest : Sink (message := list byte))
    : M (Mem * history NoOpClient) (option error * Sink (message := list byte)) := λ x,
  let '(r, (m, w)) := sample_getter key dest x in
  (r, (m, w ++ [ReqGet peer_a (mkGetRequest None (Some key))])).

Definition counting_env : Env mutexCache NoOpClient (history NoOpClient) (list byte) := {|
  fnv1_HashBytes64 := fnv1_64;
  inst := sample_instance true;
  getter_Get := counting_getter;
  time_Now w := (Second, w);
  ctx := None;
|}.

Lemma counting_getter_ok :
  getter_ok (Env0 := counting_env) "cherry" sample_value length 0 (λ _, True) sample_ok_sink.
Proof.
  split.
  - by intros w.
  - intros dest m w -> _ Hw. eexists _, _, _. split; [reflexivity|]. split; [done|].
    rewrite length_app, Hw. by split.
  - intros dest m ->. by eexists.
  - vm_compute. reflexivity.
  - reflexivity.
Qed.

Definition sample_dests : list (Sink (message := list byte)) := [sample_sink; sample_sink; sample_sink].

Lemma group_concurrent_one_load_witness :
  (∀ sched x, fexec sched (apart (Gets_start (Env0 := counting_env) "cherry" sample_dests (sample_state "g"))) = Some x →
     (length (st_w (sh_st x.2)) = 0%nat ∨ length (st_w (sh_st x.2)) = 1%nat) ∧
     ∀ t r, x.1 !! t = Some (Outside (Done r)) → length (st_w (sh_st x.2)) = 1%nat) ∧
  finevitably (λ x, length (st_w (sh_st x.2)) = 1%nat ∧
      ∀ t dest, sample_dests !! t = Some dest → ∃ a, x.1 !! t = Some (Outside (Done (Some a))))
    (apart (Gets_start (Env0 := counting_env) "cherry" sample_dests (sample_state "g"))).
Proof.
  destruct (group_concurrent_one_load (Env0 := counting_env) "cherry" sample_value length 0 (λ _, True)
    sample_ok_sink counting_getter_ok sample_dests (sample_state "g")) as [Hruns Hends].
  - exists ∅, ∅. split_and!; try done; [apply sample_rep|].
    apply mutexCache_room_new; [done..|]. by vm_compute.
  - repeat constructor.
  - split; [exact Hruns|]. eapply (inevitably_strengthen _ _ (λ _, True)); [done| |done|exact Hends].
    intros x Hx _. split; [by destruct (Hx 0%nat sample_sink eq_refl) as (a & _ & _ & ?)|].
    intros t dest Ht. destruct (Hx t dest Ht) as (a & ? & _). eauto.
Defined.
