(* ===== verification/Metrics.v ===== *)
(** * Metrics (stats.go, and registerInstruments of group.go)

    The OpenTelemetry instruments of a group and of its two caches.  The meter
    is a library object: an interface ([Meter]) whose methods may return
    errors, with the documented behaviour as [MeterLaws].  A callback is the
    closure the code registers: it reads the group it captured, at the time of
    the collection, and hands observations to an observer. *)

From S2P Require Import Prelude Errors Slices ByteView MutexCache CacheIface Group.

Definition instrumentationName : string := "github.com/groupcache/groupcache-go/instrumentation/otel".

(** ** The meter *)

(** Attributes of an observation: [attribute.String(k, v)]. *)
Abbreviation attributes := (list (string * string)).

Record Observation (I : Type) := mkObservation {
  obs_instrument : I;
  obs_value : Z;
  obs_attributes : attributes;
}.
Arguments mkObservation {I}.
Arguments obs_instrument {I}.
Arguments obs_value {I}.
Arguments obs_attributes {I}.

(** A closure over a group; the observer is the list of observations so far. *)
Abbreviation Callback K I := (M (group K * list (Observation I)) (option error)).

(** [metric.Meter]: [H] are meters, [I] instruments (a counter or an up-down
    counter, with name and description), [S] the state of the library. *)
Class Meter (K H I S : Type) := {
  Int64ObservableCounter : H → string → string → M S (error + I);
  Int64ObservableUpDownCounter : H → string → string → M S (error + I);
  RegisterCallback : H → Callback K I → list I → M S (option error);
}.
#[global] Hint Mode Meter - ! - - : typeclass_instances.

Inductive instrument_kind := ObservableCounter | ObservableUpDownCounter.

(** What the library documents: a method succeeds or returns an error; an
    instrument carries what it was created with; a meter keeps the callbacks
    registered with it, each with its instruments. *)
Class MeterLaws (K H I S : Type) `{!Meter K H I S} := {
  inst_kind : I → instrument_kind;
  inst_name : I → string;
  inst_description : I → string;
  meter_callbacks : S → H → list (Callback K I * list I);
  Counter_law (h : H) n d s : ∃ r s', Int64ObservableCounter h n d s = (Val r, s') ∧
    meter_callbacks s' = meter_callbacks s ∧
    ∀ i, r = inr i → inst_kind i = ObservableCounter ∧ inst_name i = n ∧ inst_description i = d;
  UpDownCounter_law (h : H) n d s : ∃ r s', Int64ObservableUpDownCounter h n d s = (Val r, s') ∧
    meter_callbacks s' = meter_callbacks s ∧
    ∀ i, r = inr i → inst_kind i = ObservableUpDownCounter ∧ inst_name i = n ∧ inst_description i = d;
  RegisterCallback_law (h : H) cb insts s : ∃ r s', RegisterCallback h cb insts s = (Val r, s') ∧
    match r with
    | None => meter_callbacks s' h = meter_callbacks s h ++ [(cb, insts)]
    | Some _ => meter_callbacks s' h = meter_callbacks s h
    end;
}.

(** ** Providers *)

(** The library's providers: the global one, and the meter of a name. *)
Class Otel (P H : Type) := {
  otel_GetMeterProvider : P;
  provider_Meter : P → string → H;
}.
#[global] Hint Mode Otel ! - : typeclass_instances.

Record MeterProvider (P H : Type) := mkMeterProvider {
  underlying : P;
  mp_meter : option H;            (* nil until [NewMeterProvider] ends *)
}.
Arguments mkMeterProvider {P H}.
Arguments underlying {P H}.
Arguments mp_meter {P H}.

Section Providers.
Context {P H : Type} `{!Otel P H}.

Abbreviation MeterProviderOption := (MeterProvider P H → MeterProvider P H).

Definition WithMeterProvider (mp : option P) : MeterProviderOption := λ m,
  match mp with
  | Some mp => mkMeterProvider mp (mp_meter m)
  | None => m
  end.

Definition NewMeterProvider (opts : list MeterProviderOption) : MeterProvider P H :=
  let mp := mkMeterProvider otel_GetMeterProvider None in
  let mp := foldl (λ mp opt, opt mp) mp opts in
  mkMeterProvider (underlying mp) (Some (provider_Meter (underlying mp) instrumentationName)).

Definition getMeter (mp : MeterProvider P H) : option H := mp_meter mp.

(** The last provider given wins; nil ones are ignored. *)
Lemma NewMeterProvider_last mps :
  NewMeterProvider (WithMeterProvider <$> mps) =
    let p := default otel_GetMeterProvider (last (omap id mps)) in
    mkMeterProvider p (Some (provider_Meter p instrumentationName)).
Proof.
  unfold NewMeterProvider. simpl.
  assert (∀ p, underlying (foldl (λ mp opt, opt mp) (mkMeterProvider (H := H) p None)
    (WithMeterProvider <$> mps)) = default p (last (omap id mps))) as ->; [|done].
  induction mps as [|[mp|] mps IH]; intros p; [done| |by apply IH]. simpl in *.
  rewrite IH. change (list_omap (option P) P id mps) with (omap id mps).
  by destruct (omap id mps) as [|q qs]; [|simpl; destruct (last_is_Some (q :: qs)) as [_ [? ->]]].
Qed.

End Providers.

(** ** Instruments *)

Record groupInstruments (I : Type) := mkGroupInstruments {
  gi_getsCounter : I;
  gi_hitsCounter : I;
  gi_peerLoadsCounter : I;
  gi_peerErrorsCounter : I;
  gi_loadsCounter : I;
  gi_loadsDedupedCounter : I;
  gi_localLoadsCounter : I;
  gi_localLoadErrsCounter : I;
  gi_getFromPeersLatencyMaxGauge : I;
  gi_removeKeysRequestsCounter : I;
  gi_removedKeysCounter : I;
}.
Arguments mkGroupInstruments {I}.

Record cacheInstruments (I : Type) := mkCacheInstruments {
  ci_rejectedCounter : I;
  ci_bytesGauge : I;
  ci_itemsGauge : I;
  ci_getsCounter : I;
  ci_hitsCounter : I;
  ci_evictionsCounter : I;
}.
Arguments mkCacheInstruments {I}.

(** The accessor methods of both structs. *)
Definition GetsCounter {I} (gm : groupInstruments I) : I := gi_getsCounter _ gm.
Definition HitsCounter {I} (gm : groupInstruments I) : I := gi_hitsCounter _ gm.
Definition PeerLoadsCounter {I} (gm : groupInstruments I) : I := gi_peerLoadsCounter _ gm.
Definition PeerErrorsCounter {I} (gm : groupInstruments I) : I := gi_peerErrorsCounter _ gm.
Definition LoadsCounter {I} (gm : groupInstruments I) : I := gi_loadsCounter _ gm.
Definition LoadsDedupedCounter {I} (gm : groupInstruments I) : I := gi_loadsDedupedCounter _ gm.
Definition LocalLoadsCounter {I} (gm : groupInstruments I) : I := gi_localLoadsCounter _ gm.
Definition LocalLoadErrsCounter {I} (gm : groupInstruments I) : I := gi_localLoadErrsCounter _ gm.
Definition GetFromPeersLatencyMaxGauge {I} (gm : groupInstruments I) : I :=
  gi_getFromPeersLatencyMaxGauge _ gm.
Definition RemoveKeysRequestsCounter {I} (gm : groupInstruments I) : I :=
  gi_removeKeysRequestsCounter _ gm.
Definition RemovedKeysCounter {I} (gm : groupInstruments I) : I := gi_removedKeysCounter _ gm.

Definition RejectedCounter {I} (cm : cacheInstruments I) : I := ci_rejectedCounter _ cm.
Definition BytesGauge {I} (cm : cacheInstruments I) : I := ci_bytesGauge _ cm.
Definition ItemsGauge {I} (cm : cacheInstruments I) : I := ci_itemsGauge _ cm.
Definition cache_GetsCounter {I} (cm : cacheInstruments I) : I := ci_getsCounter _ cm.
Definition cache_HitsCounter {I} (cm : cacheInstruments I) : I := ci_hitsCounter _ cm.
Definition EvictionsCounter {I} (cm : cacheInstruments I) : I := ci_evictionsCounter _ cm.

Notation "x ←? m ; k" := (or_return m (λ x, k)) (at level 20, m at level 100, k at level 200, only parsing).

Section Metrics.
Context {K H I S : Type} `{!Cache K, !Meter K H I S, !EqDecision I}.
(** Whether a cache is the nil interface value. *)
Context (cache_nil : K → bool).

Notation Callback := (Callback K I).
Implicit Types (meter : H) (g : group K).

(** [newGroupInstruments]: the first error ends it. *)
Definition newGroupInstruments meter : M S (error + groupInstruments I) :=
  getsCounter ←? Int64ObservableCounter meter
    "groupcache.group.gets" "Total get requests for the group";
  hitsCounter ←? Int64ObservableCounter meter
    "groupcache.group.cache_hits" "Total successful cache hits";
  peerLoadsCounter ←? Int64ObservableCounter meter
    "groupcache.group.peer.loads" "Total successful loads from peers";
  peerErrorsCounter ←? Int64ObservableCounter meter
    "groupcache.group.peer.errors" "Total failed loads from peers";
  loadsCounter ←? Int64ObservableCounter meter
    "groupcache.group.loads" "Total loads after cache miss";
  loadsDedupedCounter ←? Int64ObservableCounter meter
    "groupcache.group.loads.deduped" "Total loads de-duplicated by singleflight";
  localLoadsCounter ←? Int64ObservableCounter meter
    "groupcache.group.local.loads" "Total successful local loads";
  localLoadErrsCounter ←? Int64ObservableCounter meter
    "groupcache.group.local.load_errors" "Total failed local loads";
  getFromPeersLatencyMaxGauge ←? Int64ObservableUpDownCounter meter
    "groupcache.group.peer.latency_max_ms" "Maximum latency (ms) observed when loading from peers";
  removeKeysRequestsCounter ←? Int64ObservableCounter meter
    "groupcache.group.remove_keys.requests" "Total RemoveKeys requests";
  removedKeysCounter ←? Int64ObservableCounter meter
    "groupcache.group.removed_keys" "Total keys removed via RemoveKeys";
  mret (inr (mkGroupInstruments getsCounter hitsCounter peerLoadsCounter peerErrorsCounter
    loadsCounter loadsDedupedCounter localLoadsCounter localLoadErrsCounter
    getFromPeersLatencyMaxGauge removeKeysRequestsCounter removedKeysCounter)).

Definition newCacheInstruments meter : M S (error + cacheInstruments I) :=
  rejectedCounter ←? Int64ObservableCounter meter
    "groupcache.cache.rejected" "Total number of items rejected from cache";
  bytesGauge ←? Int64ObservableUpDownCounter meter
    "groupcache.cache.bytes" "Number of bytes in cache";
  itemsGauge ←? Int64ObservableUpDownCounter meter
    "groupcache.cache.items" "Number of items in cache";
  getsCounter ←? Int64ObservableCounter meter
    "groupcache.cache.gets" "Total get requests";
  hitsCounter ←? Int64ObservableCounter meter
    "groupcache.cache.hits" "Total successful cache hits";
  evictionsCounter ←? Int64ObservableCounter meter
    "groupcache.cache.evictions" "Total number of evictions";
  mret (inr (mkCacheInstruments rejectedCounter bytesGauge itemsGauge getsCounter hitsCounter
    evictionsCounter)).

(** ** Callbacks *)

(** [o.ObserveInt64(inst, v, opts)] *)
Definition ObserveInt64 (i : I) (v : Z) (attrs : attributes) : M (group K * list (Observation I)) unit :=
  λ '(g, o), (Val tt, (g, o ++ [mkObservation i v attrs])).

(** The value of a counter of the group when the callback reads it. *)
Definition read_stat (f : GroupStats → AtomicInt) : M (group K * list (Observation I)) Z :=
  λ '(g, o), (Val (f (g_Stats g)), (g, o)).

Definition observe_stat (i : I) (f : GroupStats → AtomicInt) (attrs : attributes)
    : M (group K * list (Observation I)) unit :=
  v ← read_stat f; ObserveInt64 i v attrs.

(** The closure [registerInstruments] registers. *)
Definition group_callback (instruments : groupInstruments I) (attrs : attributes) : Callback :=
  _ ← observe_stat (GetsCounter instruments) s_Gets attrs;
  _ ← observe_stat (HitsCounter instruments) s_CacheHits attrs;
  _ ← observe_stat (PeerLoadsCounter instruments) s_PeerLoads attrs;
  _ ← observe_stat (PeerErrorsCounter instruments) s_PeerErrors attrs;
  _ ← observe_stat (LoadsCounter instruments) s_Loads attrs;
  _ ← observe_stat (LoadsDedupedCounter instruments) s_LoadsDeduped attrs;
  _ ← observe_stat (LocalLoadsCounter instruments) s_LocalLoads attrs;
  _ ← observe_stat (LocalLoadErrsCounter instruments) s_LocalLoadErrs attrs;
  _ ← observe_stat (GetFromPeersLatencyMaxGauge instruments) s_GetFromPeersLatencyLower attrs;
  _ ← observe_stat (RemoveKeysRequestsCounter instruments) s_RemoveKeysRequests attrs;
  _ ← observe_stat (RemovedKeysCounter instruments) s_RemovedKeys attrs;
  mret None.

(** The caches of the group by name: the entries of [caches]. *)
Inductive namedCache := main_cache | hot_cache.

Definition nc_name (nc : namedCache) : string :=
  match nc with main_cache => "main" | hot_cache => "hot" end.

Definition nc_cache (nc : namedCache) g : K :=
  match nc with main_cache => mainCache g | hot_cache => hotCache g end.

Definition set_cache (nc : namedCache) (c : K) g : group K :=
  match nc with
  | main_cache => mkGroup (name g) (maxCacheBytes g) c (hotCache g) (g_Stats g)
  | hot_cache => mkGroup (name g) (maxCacheBytes g) (mainCache g) c (g_Stats g)
  end.

(** [c.Stats()] of the cache the closure [nc.cache] returns. *)
Definition nc_Stats (nc : namedCache) : M (group K * list (Observation I)) CacheStats := λ '(g, o),
  let '(r, c) := cache_Stats (nc_cache nc g) in (r, (set_cache nc c g, o)).

Definition cache_callback (cacheInstr : cacheInstruments I) (nc : namedCache) (attrs : attributes)
    : Callback := λ s,
  if cache_nil (nc_cache nc s.1) then (Val None, s) else
  (stats ← nc_Stats nc;
   _ ← ObserveInt64 (RejectedCounter cacheInstr) (Rejected stats) attrs;
   _ ← ObserveInt64 (BytesGauge cacheInstr) (Bytes stats) attrs;
   _ ← ObserveInt64 (ItemsGauge cacheInstr) (Items stats) attrs;
   _ ← ObserveInt64 (cache_GetsCounter cacheInstr) (MutexCache.Gets stats) attrs;
   _ ← ObserveInt64 (cache_HitsCounter cacheInstr) (Hits stats) attrs;
   _ ← ObserveInt64 (EvictionsCounter cacheInstr) (Evictions stats) attrs;
   mret None) s.

(** ** Registration *)

Definition group_instrument_list (i : groupInstruments I) : list I :=
  [GetsCounter i; HitsCounter i; PeerLoadsCounter i; PeerErrorsCounter i; LoadsCounter i;
   LoadsDedupedCounter i; LocalLoadsCounter i; LocalLoadErrsCounter i;
   GetFromPeersLatencyMaxGauge i; RemoveKeysRequestsCounter i; RemovedKeysCounter i].

Definition cache_instrument_list (i : cacheInstruments I) : list I :=
  [RejectedCounter i; BytesGauge i; ItemsGauge i; cache_GetsCounter i; cache_HitsCounter i;
   EvictionsCounter i].

Definition cache_attributes (n : string) (nc : namedCache) : attributes :=
  [("group.name", n); ("cache.type", nc_name nc)].

(** [for _, nc := range caches]: the first error is returned. *)
Fixpoint register_caches meter (n : string) (cacheInstr : cacheInstruments I) (caches : list namedCache)
    : M S (option error) :=
  match caches with
  | [] => mret None
  | nc :: caches =>
      or_return_err
        (RegisterCallback meter (cache_callback cacheInstr nc (cache_attributes n nc))
           (cache_instrument_list cacheInstr))
        (register_caches meter n cacheInstr caches)
  end.

Definition registerCacheInstruments meter g : M S (option error) :=
  r ← newCacheInstruments meter;
  match r with
  | inl err => mret (Some err)
  | inr cacheInstr => register_caches meter (name g) cacheInstr [main_cache; hot_cache]
  end.

Definition registerInstruments meter g : M S (option error) :=
  r ← newGroupInstruments meter;
  match r with
  | inl err => mret (Some err)
  | inr instruments =>
      or_return_err
        (RegisterCallback meter (group_callback instruments [("group.name", name g)])
           (group_instrument_list instruments))
        (registerCacheInstruments meter g)
  end.

(** ** Collection *)

Context `{!MeterLaws K H I S}.

(** What a reader of the metrics sees of one observation. *)
Definition reported (o : Observation I) : string * attributes * Z :=
  (inst_name (obs_instrument o), obs_attributes o, obs_value o).

(** A collection runs the callbacks in turn; observations of instruments a
    callback was not registered with are dropped. *)
Definition collect_one (cb : Callback * list I) : M (group K) (list (string * attributes * Z)) := λ g,
  match cb.1 (g, []) with
  | (Val _, (g, o)) => (Val (reported <$> filter (λ o, obs_instrument o ∈ cb.2) o), g)
  | (Panicked, (g, _)) => (Panicked, g)
  | (Diverged, (g, _)) => (Diverged, g)
  end.

Definition collect_metrics (cbs : list (Callback * list I)) : M (group K) (list (string * attributes * Z)) :=
  rs ← for_each collect_one cbs; mret (concat rs).

(** ** What is reported *)

(** The series of a group: the name of each and the counter it shows. *)
Definition group_series (st : GroupStats) : list (string * Z) :=
  [("groupcache.group.gets", s_Gets st);
   ("groupcache.group.cache_hits", s_CacheHits st);
   ("groupcache.group.peer.loads", s_PeerLoads st);
   ("groupcache.group.peer.errors", s_PeerErrors st);
   ("groupcache.group.loads", s_Loads st);
   ("groupcache.group.loads.deduped", s_LoadsDeduped st);
   ("groupcache.group.local.loads", s_LocalLoads st);
   ("groupcache.group.local.load_errors", s_LocalLoadErrs st);
   ("groupcache.group.peer.latency_max_ms", s_GetFromPeersLatencyLower st);
   ("groupcache.group.remove_keys.requests", s_RemoveKeysRequests st);
   ("groupcache.group.removed_keys", s_RemovedKeys st)].

Definition cache_series (st : CacheStats) : list (string * Z) :=
  [("groupcache.cache.rejected", Rejected st);
   ("groupcache.cache.bytes", Bytes st);
   ("groupcache.cache.items", Items st);
   ("groupcache.cache.gets", MutexCache.Gets st);
   ("groupcache.cache.hits", Hits st);
   ("groupcache.cache.evictions", Evictions st)].

Definition with_attributes (attrs : attributes) : list (string * Z) → list (string * attributes * Z) :=
  fmap (λ p, (p.1, attrs, p.2)).

(** One step of a chain of fallible creations: on success the instrument is
    the one asked for, and no callback is registered either way. *)
Definition created (k : instrument_kind) (n : string) (m : M S (error + I)) : Prop :=
  ∀ s, ∃ r s', m s = (Val r, s') ∧ meter_callbacks s' = meter_callbacks s ∧
    ∀ i, r = inr i → inst_kind i = k ∧ inst_name i = n.

Lemma Counter_created meter n d :
  created ObservableCounter n (Int64ObservableCounter meter n d).
Proof. intros s. destruct (Counter_law meter n d s) as (r & s' & ? & ? & Hi). exists r, s'. naive_solver. Qed.

Lemma UpDownCounter_created meter n d :
  created ObservableUpDownCounter n (Int64ObservableUpDownCounter meter n d).
Proof. intros s. destruct (UpDownCounter_law meter n d s) as (r & s' & ? & ? & Hi). exists r, s'. naive_solver. Qed.

(** A computation that registers no callback and ends in an error or in a
    value that satisfies [Q]. *)
Definition instruments_only {A} (m : M S (error + A)) (Q : A → Prop) : Prop :=
  ∀ s, ∃ r s', m s = (Val r, s') ∧ meter_callbacks s' = meter_callbacks s ∧
    ∀ a, r = inr a → Q a.

Lemma instruments_only_ret {A} (a : A) (Q : A → Prop) : Q a → instruments_only (mret (inr a)) Q.
Proof. intros ? s. eexists _, s. split_and!; [done|done|]. by intros ? [= <-]. Qed.

Lemma instruments_only_create {A} kd n (m : M S (error + I)) (k : I → M S (error + A)) (Q : A → Prop) :
  created kd n m →
  (∀ i, inst_kind i = kd → inst_name i = n → instruments_only (k i) Q) →
  instruments_only (or_return m k) Q.
Proof.
  intros Hm Hk s. destruct (Hm s) as (r & s1 & Hr & Hc & Hi). unfold or_return. mstep Hr.
  destruct r as [err|i]; [by eexists _, s1|].
  destruct (Hi i eq_refl) as [Hkd Hn]. destruct (Hk i Hkd Hn s1) as (r & s2 & ? & Hc2 & ?).
  exists r, s2. split_and!; [done|congruence|done].
Qed.

Definition group_named (i : groupInstruments I) : Prop :=
  inst_name <$> group_instrument_list i = (group_series zero_stats).*1.

Definition cache_named (i : cacheInstruments I) : Prop :=
  inst_name <$> cache_instrument_list i = (cache_series (mkCacheStats 0 0 0 0 0 0)).*1.

Ltac create_chain :=
  repeat (eapply instruments_only_create;
    [first [apply Counter_created | apply UpDownCounter_created] | intros ? _ ?]);
  apply instruments_only_ret.

Lemma newGroupInstruments_spec meter : instruments_only (newGroupInstruments meter) group_named.
Proof. unfold newGroupInstruments. create_chain. unfold group_named. simpl. congruence. Qed.

Lemma newCacheInstruments_spec meter : instruments_only (newCacheInstruments meter) cache_named.
Proof. unfold newCacheInstruments. create_chain. unfold cache_named. simpl. congruence. Qed.

(** Observations of instruments the callback was registered with are all kept,
    and reported under the names of the instruments. *)
Lemma reported_all (attrs : attributes) (insts : list I) (series : list (string * Z)) :
  inst_name <$> insts = series.*1 →
  reported <$> filter (λ o, obs_instrument o ∈ insts)
    (zip_with (λ i v, mkObservation i v attrs) insts series.*2) = with_attributes attrs series.
Proof.
  intros Hn. rewrite filter_all.
  - revert series Hn. induction insts as [|i insts IH]; intros [|[n v] series] [=]; [done|].
    simpl. unfold with_attributes in *. simpl. subst. f_equal. by apply IH.
  - apply Forall_forall. by intros o (i & v & -> & Hi & _)%elem_of_zip_with.
Qed.

Lemma collect_group (i : groupInstruments I) attrs g :
  group_named i →
  collect_one (group_callback i attrs, group_instrument_list i) g =
    (Val (with_attributes attrs (group_series (g_Stats g))), g).
Proof. intros Hn. by rewrite <-(reported_all attrs (group_instrument_list i)). Qed.

Lemma collect_cache (i : cacheInstruments I) nc attrs g st c :
  cache_named i → cache_nil (nc_cache nc g) = false → cache_Stats (nc_cache nc g) = (Val st, c) →
  collect_one (cache_callback i nc attrs, cache_instrument_list i) g =
    (Val (with_attributes attrs (cache_series st)), set_cache nc c g).
Proof.
  intros Hn Hnil Hst. rewrite <-(reported_all attrs (cache_instrument_list i)) by done.
  unfold collect_one, cache_callback. simpl. rewrite Hnil.
  erewrite M_bind_val by (unfold nc_Stats; by rewrite Hst). done.
Qed.

(** Registration in the order of the code: the instruments and the callback of
    the group, then the instruments and the callbacks of the caches; the first
    failure ends it and leaves what was registered before. *)
Lemma register_caches_spec meter n ci ncs s :
  ∃ r s' done, register_caches meter n ci ncs s = (Val r, s') ∧ done `prefix_of` ncs ∧
    (if r is Some _ then (length done < length ncs)%nat else done = ncs) ∧
    meter_callbacks s' meter = meter_callbacks s meter ++
      ((λ nc, (cache_callback ci nc (cache_attributes n nc), cache_instrument_list ci)) <$> done).
Proof.
  revert s. induction ncs as [|nc ncs IH]; intros s; simpl.
  { exists None, s, []. split_and!; [done..|by rewrite app_nil_r]. }
  unfold or_return_err.
  destruct (RegisterCallback_law meter (cache_callback ci nc (cache_attributes n nc))
    (cache_instrument_list ci) s) as (r & s1 & Hr & Hc). mstep Hr. destruct r as [err|].
  - exists (Some err), s1, []. rewrite Hc, app_nil_r. split_and!; [done|apply prefix_nil|simpl; lia|done].
  - destruct (IH s1) as (r & s2 & dn & Hr2 & Hp & Hd & Hc2). exists r, s2, (nc :: dn).
    split_and!; [done|by apply prefix_cons|destruct r; simpl; [lia|congruence]|].
    by rewrite Hc2, Hc, <-app_assoc.
Qed.

(** The callbacks a complete registration leaves. *)
Definition all_callbacks (n : string) (gi : groupInstruments I) (ci : cacheInstruments I)
    : list (Callback * list I) :=
  (group_callback gi [("group.name", n)], group_instrument_list gi) ::
  ((λ nc, (cache_callback ci nc (cache_attributes n nc), cache_instrument_list ci)) <$>
     [main_cache; hot_cache]).

Lemma registerInstruments_spec meter g s :
  ∃ r s' cbs, registerInstruments meter g s = (Val r, s') ∧
    meter_callbacks s' meter = meter_callbacks s meter ++ cbs ∧
    match r with
    | None => ∃ gi ci, group_named gi ∧ cache_named ci ∧ cbs = all_callbacks (name g) gi ci
    | Some _ => (length cbs <= 2)%nat
    end.
Proof.
  unfold registerInstruments, registerCacheInstruments, or_return_err.
  destruct (newGroupInstruments_spec meter s) as ([err|gi] & s1 & H1 & Hc1 & Hgi); mstep H1.
  { exists (Some err), s1, []. rewrite Hc1, app_nil_r. split_and!; [done..|simpl; lia]. }
  destruct (RegisterCallback_law meter (group_callback gi [("group.name", name g)])
    (group_instrument_list gi) s1) as ([err|] & s2 & H2 & Hc2); mstep H2.
  { exists (Some err), s2, []. rewrite Hc2, Hc1, app_nil_r. split_and!; [done..|simpl; lia]. }
  destruct (newCacheInstruments_spec meter s2) as ([err|ci] & s3 & H3 & Hc3 & Hci); mstep H3.
  { eexists (Some err), s3, _. rewrite Hc3, Hc2, Hc1. split_and!; [done..|simpl; lia]. }
  destruct (register_caches_spec meter (name g) ci [main_cache; hot_cache] s3)
    as (r & s4 & dn & H4 & Hp & Hd & Hc4).
  eexists r, s4, _. rewrite Hc4, Hc3, Hc2, Hc1, <-app_assoc. split_and!; [done..|].
  destruct r as [err|]; simpl in *; [rewrite length_fmap; lia|]. subst. eauto 10.
Qed.

(** C25: once the metrics of a group are registered, every collection, whatever
    happened to the group since, reports exactly the eleven counters of the
    group under its name, and the six statistics of its main and of its hot
    cache under the group's name and the kind of cache; no series is missing,
    duplicated or crossed. *)
Theorem metrics_report_stats meter g s s'
  (Hreg : registerInstruments meter g s = (Val None, s')) :
  ∃ cbs, meter_callbacks s' meter = meter_callbacks s meter ++ cbs ∧
    ∀ g' ms hs m h, cache_nil (mainCache g') = false → cache_nil (hotCache g') = false →
      cache_Stats (mainCache g') = (Val ms, m) → cache_Stats (hotCache g') = (Val hs, h) →
      collect_metrics cbs g' =
        (Val (with_attributes [("group.name", name g)] (group_series (g_Stats g')) ++
              with_attributes (cache_attributes (name g) main_cache) (cache_series ms) ++
              with_attributes (cache_attributes (name g) hot_cache) (cache_series hs)),
         mkGroup (name g') (maxCacheBytes g') m h (g_Stats g')).
Proof.
  destruct (registerInstruments_spec meter g s) as (r & s1 & cbs & Hr & Hc & Hcbs).
  rewrite Hreg in Hr. injection Hr as <- <-. destruct Hcbs as (gi & ci & Hgi & Hci & ->).
  eexists. split; [exact Hc|]. intros g' ms hs m h Hm Hh Hms Hhs.
  unfold collect_metrics, all_callbacks. cbn [fmap list_fmap for_each].
  rewrite !M_bind_assoc. mstep (collect_group gi _ g' Hgi).
  rewrite !M_bind_assoc. mstep (collect_cache ci main_cache _ g' ms m Hci Hm Hms).
  rewrite !M_bind_assoc.
  mstep (collect_cache ci hot_cache _ (set_cache main_cache m g') hs h Hci Hh Hhs).
  done.
Qed.

(** A registration always returns; one that fails leaves the callbacks that
    were registered before, and nothing else. *)
Lemma registerInstruments_total meter g s :
  ∃ r s' cbs, registerInstruments meter g s = (Val r, s') ∧
    meter_callbacks s' meter = meter_callbacks s meter ++ cbs ∧
    (length cbs <= 3)%nat ∧ (r = None ↔ length cbs = 3%nat).
Proof.
  destruct (registerInstruments_spec meter g s) as (r & s1 & cbs & Hr & Hc & Hcbs).
  exists r, s1, cbs. split_and!; [done..| |]; destruct r; try lia; naive_solver lia.
Qed.

End Metrics.

(** ** A concrete meter

    It refuses the instruments named in [ms_broken]; its callbacks are those
    registered so far. *)

Abbreviation sample_instrument := (instrument_kind * string * string)%type.

#[export] Instance instrument_kind_eq_dec : EqDecision instrument_kind.
Proof. solve_decision. Defined.

Record meter_state (K : Type) := mkMeterState {
  ms_broken : list string;
  ms_callbacks : list (Callback K sample_instrument * list sample_instrument);
}.
Arguments mkMeterState {K}.
Arguments ms_broken {K}.
Arguments ms_callbacks {K}.

Definition sample_create {K} (kd : instrument_kind) (n d : string)
    : M (meter_state K) (error + sample_instrument) := λ s,
  (Val (if existsb (String.eqb n) (ms_broken s) then inl (ErrorString n) else inr (kd, n, d)), s).

#[export] Instance sample_meter K : Meter K string sample_instrument (meter_state K) := {|
  Int64ObservableCounter _ := sample_create ObservableCounter;
  Int64ObservableUpDownCounter _ := sample_create ObservableUpDownCounter;
  RegisterCallback _ cb insts := λ s,
    (Val None, mkMeterState (ms_broken s) (ms_callbacks s ++ [(cb, insts)]));
|}.

#[export] Program Instance sample_meter_laws K : MeterLaws K string sample_instrument (meter_state K) := {|
  inst_kind i := i.1.1;
  inst_name i := i.1.2;
  inst_description i := i.2;
  meter_callbacks s _ := ms_callbacks s;
|}.
Next Obligation.
  intros K h n d s. eexists _, s. split_and!; [done..|]. intros i. case_match; naive_solver.
Qed.
Next Obligation.
  intros K h n d s. eexists _, s. split_and!; [done..|]. intros i. case_match; naive_solver.
Qed.
Next Obligation. intros K h cb insts s. by eexists _, _. Qed.

#[export] Instance sample_otel : Otel unit string := {|
  otel_GetMeterProvider := tt;
  provider_Meter _ n := n;
|}.

Definition sample_provider : MeterProvider unit string := NewMeterProvider [].

Definition never_nil (c : mutexCache) : bool := false.

Definition sample_metered (reads : Z) : group mutexCache :=
  mkGroup "users" 800 (newMutexCache 700) (newMutexCache 100) (stats_Add Gets reads zero_stats).

Definition sample_registered : meter_state mutexCache :=
  (registerInstruments never_nil "m" (sample_metered 0) (mkMeterState [] [])).2.

Lemma metrics_report_stats_witness :
  ∃ cbs out g', collect_metrics (H := string) cbs (sample_metered 7) = (Val out, g') ∧
    ("groupcache.group.gets", [("group.name", "users")], 7) ∈ out ∧ length out = 23%nat.
Proof.
  destruct (metrics_report_stats (K := mutexCache) never_nil "m" (sample_metered 0) (mkMeterState [] [])
    sample_registered) as (cbs & _ & Hcol); [reflexivity|].
  eexists cbs, _, _. split; [apply (Hcol (sample_metered 7)); reflexivity|].
  split; [by left|reflexivity].
Defined.
