(* ===== verification/Instance.v ===== *)
(** * Instances and daemons (instance.go, daemon.go)

    An instance owns the groups and the active picker, and talks to peers
    through a [Transport] (an interface: class [Transport]).  The methods take
    [i.mu] for the time they touch the groups or the picker, so each is one
    atomic step on those.  [*group] pointers are addresses into a list of
    groups.  Metrics are registered with a meter of the interface [Meter]. *)

From S2P Require Import Prelude Errors Slices ByteView Picker MutexCache CacheIface Pb Group Metrics.

(** A client in a picker: the placeholder for this instance, or a client the
    transport made. *)
Inductive PeerClient (R : Type) :=
| SelfClient (c : NoOpClient)
| RemoteClient (c : R).
Arguments SelfClient {R}.
Arguments RemoteClient {R}.

#[export] Instance PeerClient_Client {R} `{!Client R} : Client (PeerClient R) := {|
  PeerInfo c := match c with SelfClient c => PeerInfo c | RemoteClient c => PeerInfo c end;
  HashKey c := match c with SelfClient c => HashKey c | RemoteClient c => HashKey c end;
|}.

(** The requests of [NoOpClient] do nothing. *)
Definition NoOpClient_Peer {W} : Peer NoOpClient W := {|
  client_Get _ _ := mret (None, empty_GetResponse);
  client_Set _ _ := mret None;
  client_Remove _ _ := mret None;
  client_RemoveKeys _ _ := mret None;
|}.

#[export] Instance PeerClient_Peer {R W} `{!Peer R W} : Peer (PeerClient R) W := {|
  client_Get c := match c with SelfClient c => client_Get (Peer := NoOpClient_Peer) c | RemoteClient c => client_Get c end;
  client_Set c := match c with SelfClient c => client_Set (Peer := NoOpClient_Peer) c | RemoteClient c => client_Set c end;
  client_Remove c :=
    match c with SelfClient c => client_Remove (Peer := NoOpClient_Peer) c | RemoteClient c => client_Remove c end;
  client_RemoveKeys c :=
    match c with SelfClient c => client_RemoveKeys (Peer := NoOpClient_Peer) c | RemoteClient c => client_RemoveKeys c end;
|}.

(** [transport.Transport]: [H] are transports (the values of the Go interface),
    [T] the state of the transports and everything else outside the instance.
    [Register] takes the address of the instance. *)
Class Transport (H T R : Type) := {
  transport_New : H → M T H;
  transport_Register : H → nat → M T unit;
  transport_NewClient : H → Info → M T (error + R);
  transport_ListenAndServe : H → string → M T (option error);
  transport_Shutdown : H → M T (option error);
  transport_ListenAddress : H → M T string;
}.
#[global] Hint Mode Transport ! - - : typeclass_instances.

(** What is asked of a transport: [NewClient] returns a client for the peer, or
    an error. *)
Class TransportLaws (H T R : Type) `{!Transport H T R, !Client R} := {
  NewClient_law (h : H) (info : Info) (t : T) :
    ∃ (r : error + R) t', transport_NewClient h info t = (Val r, t') ∧
      ∀ c : R, r = inr c → PeerInfo c = info ∧ HashKey c = Address info;
}.

(** [Options] of instance.go; nil fields are [None]. *)
Record InstanceOptions (K P Mtr H : Type) := mkInstanceOptions {
  io_HashFn : option HashFn;
  io_Replicas : Z;
  io_Logger : bool;                                  (* not nil *)
  io_Transport : option H;
  io_CacheFactory : option (Z → K * option error);
  io_MetricProvider : option (MeterProvider P Mtr);
}.
Arguments mkInstanceOptions {K P Mtr H}.
Arguments io_HashFn {K P Mtr H}.
Arguments io_Replicas {K P Mtr H}.
Arguments io_Logger {K P Mtr H}.
Arguments io_Transport {K P Mtr H}.
Arguments io_CacheFactory {K P Mtr H}.
Arguments io_MetricProvider {K P Mtr H}.

(** The factory [New] installs when the options have none. *)
Definition default_CacheFactory (maxBytes : Z) : mutexCache * option error :=
  (newMutexCache maxBytes, None).

Section Instance.
Context {K H T R P Mtr Ins : Type} `{!Cache K, !Client R, !Transport H T R, !SortSlice}.
Context `{!Meter K Mtr Ins T}.
Context (fnv1_HashBytes64 : HashFn) (cache_nil : K → bool).
(** [transport.NewHttpTransport(...)], used when the options have no transport. *)
Context (default_transport : M T H).

Notation InstanceOptions := (InstanceOptions K P Mtr H).

Notation NewPicker := (NewPicker (C := PeerClient R) fnv1_HashBytes64).
Notation PickerAdd := (Picker.Add (C := PeerClient R) fnv1_HashBytes64).
Notation Picker := (Picker (C := PeerClient R)).

(** The [Instance] struct; [groups] holds addresses into [group_heap]. *)
Record InstanceState := mkInstanceState {
  groups : gmap string nat;
  group_heap : list (group K);
  picker : Picker;
  i_opts : InstanceOptions;
}.

(** An instance and its transport. *)
Abbreviation IM := (M (InstanceState * T)).

Definition picker_options (o : InstanceOptions) : Options := mkOptions (io_HashFn o) (io_Replicas o).

Definition on_transport {A} (f : M T A) : IM A := λ '(i, t),
  let '(r, t) := f t in (r, (i, t)).

Definition get_instance : IM InstanceState := λ '(i, t), (Val i, (i, t)).
Definition put_instance (i : InstanceState) : IM unit := λ '(_, t), (Val tt, (i, t)).

(** [if opts.Transport == nil { opts.Transport = transport.NewHttpTransport(...) }] *)
Definition with_transport (opts : InstanceOptions) : M T (H * InstanceOptions) :=
  h ← (match io_Transport opts with Some h => mret h | None => default_transport end);
  mret (h, mkInstanceOptions (io_HashFn opts) (io_Replicas opts) (io_Logger opts) (Some h)
             (io_CacheFactory opts) (io_MetricProvider opts)).

(** [New]; [dflt] is the factory used when the options have none, [self] the
    address of the new instance. *)
Definition New (dflt : Z → K * option error) (self : nat) (opts : InstanceOptions) : M T InstanceState :=
  let factory := match io_CacheFactory opts with None => dflt | Some f => f end in
  let opts := mkInstanceOptions (io_HashFn opts) (io_Replicas opts) (io_Logger opts) (io_Transport opts)
                (Some factory) (io_MetricProvider opts) in
  '(h, opts) ← with_transport opts;
  _ ← transport_Register h self;
  mret (mkInstanceState ∅ [] (NewPicker (picker_options opts)) opts).

(** The loop of [SetPeers] over the peers: the picker so far and whether this
    instance was among them, or the error of [NewClient]. *)
Fixpoint add_peers (h : H) (peers : list Info) (p : Picker) (includesSelf : bool)
    : M T (error + (Picker * bool)) :=
  match peers with
  | [] => mret (inr (p, includesSelf))
  | info :: peers =>
      if IsSelf info then
        add_peers h peers (PickerAdd (SelfClient (mkNoOp (mkInfo (Address info) true))) p) true
      else
        r ← transport_NewClient h info;
        match r with
        | inl err => mret (inl (WrapError ("during Transport.NewClient(): " ++ Error err)%string err))
        | inr c => add_peers h peers (PickerAdd (RemoteClient c) p) includesSelf
        end
  end.

Definition missing_self : error := ErrorString
  "peer.Info{IsSelf: true} missing; peer list must contain the address for this instance".

Definition SetPeers (peers : list Info) : IM (option error) :=
  i ← get_instance;
  match io_Transport (i_opts i) with
  | None => panic
  | Some h =>
      r ← on_transport (add_peers h peers (NewPicker (picker_options (i_opts i))) false);
      match r with
      | inl err => mret (Some err)
      | inr (p, includesSelf) =>
          if includesSelf : bool then
            i ← get_instance;
            _ ← put_instance (mkInstanceState (groups i) (group_heap i) p (i_opts i));
            mret None
          else mret (Some missing_self)
      end
  end.

(** [PickPeer] and [getAllPeers] read the active picker. *)
Definition Instance_PickPeer (i : InstanceState) (key : string) : option (PeerClient R) * bool :=
  Picker.PickPeer fnv1_HashBytes64 (picker i) key.
Definition Instance_getAllPeers `{!MapRange string (PeerClient R)} (i : InstanceState) : list (PeerClient R) :=
  GetAll (picker i).

(** The part of the instance its groups use. *)
Definition instance_view (i : InstanceState) (dflt : Z → K * option error) : Instance K (PeerClient R) :=
  mkInstance (picker i) (io_Logger (i_opts i)) (default dflt (io_CacheFactory (i_opts i))).

(** [NewGroup]; [getter] tells whether the getter is not nil.  [zero] is the
    nil cache the group is created with before [ResetCacheSize]. *)
Definition NewGroup (dflt : Z → K * option error) (zero : K) (name : string) (cacheBytes : Z) (getter : bool)
    : IM (error + nat) :=
  if getter then
    i ← get_instance;
    match groups i !! name with
    | Some _ => mret (inl (ErrorString ("duplicate registration of group '" ++ name ++ "'")%string))
    | None =>
        let g := mkGroup name cacheBytes zero zero zero_stats in
        let '(err, g) := reset_size (default dflt (io_CacheFactory (i_opts i))) cacheBytes g in
        match err with
        | Some err => mret (inl err)
        | None =>
            let addr := length (group_heap i) in
            _ ← put_instance (mkInstanceState (<[name := addr]> (groups i)) (group_heap i ++ [g])
                  (picker i) (i_opts i));
            match io_MetricProvider (i_opts i) with
            | None => mret (inr addr)
            | Some mp =>
                match getMeter mp with
                | None => panic
                | Some meter =>
                    err ← on_transport (registerInstruments cache_nil meter g);
                    match err with
                    | Some err => mret (inl (WrapError
                        ("failed to register metrics for group '" ++ name ++ "': " ++ Error err)%string err))
                    | None => mret (inr addr)
                    end
                end
            end
        end
    end
  else mret (inl (ErrorString "NewGroup(): provided Getter cannot be nil")).

(** [GetGroup] returns the pointer, nil when there is no such group. *)
Definition GetGroup (i : InstanceState) (name : string) : option nat := groups i !! name.

Definition RemoveGroup (name : string) (i : InstanceState) : InstanceState :=
  mkInstanceState (delete name (groups i)) (group_heap i) (picker i) (i_opts i).

(** ** Daemons *)

(** A daemon; [d_instance] is the address of its instance. *)
Record Daemon := mkDaemon {
  d_instance : nat;
  d_opts : InstanceOptions;
  d_address : string;
}.

(** A method call on [d.opts.Transport]; nil panics. *)
Definition on_daemon {A} (d : Daemon) (f : H → M T A) : M T A :=
  match io_Transport (d_opts d) with Some h => f h | None => panic end.

Definition Daemon_ListenAddress (d : Daemon) : M T string := on_daemon d transport_ListenAddress.

(** [Start]: the new instance, stored at [self], and the error of the
    listener. *)
Definition Daemon_Start (dflt : Z → K * option error) (self : nat) (d : Daemon)
    : M T (Daemon * InstanceState * option error) :=
  i ← New dflt self (d_opts d);
  let d := mkDaemon self (d_opts d) (d_address d) in
  err ← on_daemon d (λ h, transport_ListenAndServe h (d_address d));
  mret (d, i, err).

(** [ListenAndServe] fills in a logger and a transport and [Start]s. *)
Definition Daemon_ListenAndServe (dflt : Z → K * option error) (self : nat) (address : string)
    (opts : InstanceOptions) : M T (Daemon * InstanceState * option error) :=
  let opts := mkInstanceOptions (io_HashFn opts) (io_Replicas opts) true (io_Transport opts)
                (io_CacheFactory opts) (io_MetricProvider opts) in
  '(_, opts) ← with_transport opts;
  Daemon_Start dflt self (mkDaemon self opts address).

(** The loop of [Daemon.SetPeers] marks this instance by its listening address. *)
Fixpoint mark_self (d : Daemon) (src : list Info) : M T (list Info) :=
  match src with
  | [] => mret []
  | p :: src =>
      a ← Daemon_ListenAddress d;
      let p := if bool_decide (Address p = a) then mkInfo (Address p) true else p in
      dest ← mark_self d src;
      mret (p :: dest)
  end.

Definition Daemon_SetPeers (d : Daemon) (src : list Info) : IM (option error) :=
  dest ← on_transport (mark_self d src);
  SetPeers dest.

(** [MustClient] panics when the transport cannot make a client. *)
Definition MustClient (d : Daemon) : M T R :=
  a ← Daemon_ListenAddress d;
  r ← on_daemon d (λ h, transport_NewClient h (mkInfo a false));
  match r with inl _ => panic | inr c => mret c end.

Definition Daemon_Shutdown (d : Daemon) : M T (option error) := on_daemon d transport_Shutdown.

Context `{!TransportLaws H T R, !MeterLaws K Mtr Ins T}.

(** ** [SetPeers] *)

Lemma add_peers_spec h peers p b t :
  ∃ r t', add_peers h peers p b t = (Val r, t') ∧
    ∀ p' b', r = inr (p', b') →
      b' = b || existsb IsSelf peers ∧
      ∃ cs, p' = foldl (λ p c, PickerAdd c p) p cs ∧
        PeerInfo <$> cs = peers ∧ HashKey <$> cs = Address <$> peers.
Proof.
  revert p b t. induction peers as [|info peers IH]; intros p b t; cbn [add_peers existsb].
  - eexists _, t. split; [done|]. intros p' b' [= <- <-]. split; [by rewrite orb_false_r|].
    by exists [].
  - destruct info as [addr []]; cbn [IsSelf Address].
    + set (c := SelfClient (mkNoOp (mkInfo addr true))).
      destruct (IH (PickerAdd c p) true t) as (r & t' & Hr & Hres).
      exists r, t'. split; [exact Hr|]. intros p' b' Heq.
      destruct (Hres p' b' Heq) as (Hb & cs & Hp & Hi & Hk).
      split; [by rewrite Hb, orb_true_r|]. exists (c :: cs). by rewrite !fmap_cons, Hi, Hk.
    + destruct (NewClient_law h (mkInfo addr false) t) as (r & t' & Hn & Hc).
      mstep Hn. destruct r as [err|c].
      * eexists _, t'. split; [done|]. by intros.
      * destruct (Hc c eq_refl) as [Hi Hk].
        destruct (IH (PickerAdd (RemoteClient c) p) b t') as (r & t'' & Hr & Hres).
        exists r, t''. split; [exact Hr|]. intros p' b' Heq.
        destruct (Hres p' b' Heq) as (Hb & cs & Hp & His & Hks).
        split; [done|]. exists (RemoteClient c :: cs).
        rewrite !fmap_cons, His, Hks.
        change (PeerInfo (RemoteClient c)) with (PeerInfo c). change (HashKey (RemoteClient c)) with (HashKey c).
        by rewrite Hi, Hk.
Qed.

(** The active picker is the ring of [peers]. *)
Definition serves (i : InstanceState) (peers : list Info) : Prop :=
  ∃ cs, picker i = build fnv1_HashBytes64 (picker_options (i_opts i)) cs ∧
    PeerInfo <$> cs = peers ∧ HashKey <$> cs = Address <$> peers.

Lemma SetPeers_cases h peers i t :
  io_Transport (i_opts i) = Some h →
  ∃ r i' t', SetPeers peers (i, t) = (Val r, (i', t')) ∧
    match r with
    | Some _ => i' = i
    | None => serves i' peers ∧ existsb IsSelf peers = true ∧
        groups i' = groups i ∧ group_heap i' = group_heap i ∧ i_opts i' = i_opts i
    end.
Proof.
  intros Hh. destruct (add_peers_spec h peers (NewPicker (picker_options (i_opts i))) false t)
    as (r & t' & Hr & Hres).
  unfold SetPeers. mstep. rewrite Hh.
  erewrite M_bind_val by (unfold on_transport; by rewrite Hr).
  destruct r as [err|[p b]]; [by eexists _, _, _|].
  destruct (Hres p b eq_refl) as (Hb & cs & Hp & Hi & Hk). destruct b; [|by eexists _, _, _].
  eexists _, _, _. split; [done|]. split_and!; try done. by exists cs.
Qed.

(** The owner of a key, by address. *)
Lemma owner_of_serves i peers key :
  serves i peers → 0 <= io_Replicas (i_opts i) → peers ≠ [] →
  ∃ p c, point_succ (points fnv1_HashBytes64 (picker_options (i_opts i)) (Address <$> peers))
      (int_of_uint64 (call_HashFn fnv1_HashBytes64
        (effective fnv1_HashBytes64 (picker_options (i_opts i))) key)) p ∧
    Instance_PickPeer i key = (Some c, negb (IsSelf (PeerInfo c))) ∧
    HashKey c = p.2 ∧ PeerInfo c ∈ peers ∧ Address (PeerInfo c) = p.2.
Proof.
  intros (cs & Hp & Hi & Hk) HR Hne. unfold Instance_PickPeer. rewrite Hp.
  destruct (PickPeer_build fnv1_HashBytes64 (picker_options (i_opts i)) cs key HR) as (e & He & Hin & Hs).
  { intros ->. by subst. }
  exists (point_of e), (client e). apply ring_succ_points in Hs. rewrite points_ring_entries, Hk in Hs.
  split_and!; [done|done|done| |].
  - rewrite <-Hi. by apply list_elem_of_fmap_2.
  - apply list_elem_of_lookup in Hin as [n Hn].
    assert ((HashKey <$> cs) !! n = Some (HashKey (client e))) as H1 by (by rewrite list_lookup_fmap, Hn).
    assert ((PeerInfo <$> cs) !! n = Some (PeerInfo (client e))) as H2 by (by rewrite list_lookup_fmap, Hn).
    rewrite Hk, list_lookup_fmap in H1. rewrite Hi in H2. rewrite H2 in H1. simpl in *. congruence.
Qed.

(** ** Daemons that serve the same peers *)

(** What the loop of [Daemon.SetPeers] computes. *)
Definition marked (self : string) (src : list Info) : list Info :=
  (λ p, if bool_decide (Address p = self) then mkInfo (Address p) true else p) <$> src.

Lemma mark_self_eq d src a t :
  Daemon_ListenAddress d t = (Val a, t) → mark_self d src t = (Val (marked a src), t).
Proof.
  intros Ha. induction src as [|p src IH]; [done|]. simpl. mstep Ha. by mstep IH.
Qed.

Lemma marked_addresses a src : Address <$> marked a src = Address <$> src.
Proof.
  unfold marked. rewrite <-list_fmap_compose. apply list_fmap_ext. intros n p _. simpl. by case_bool_decide.
Qed.

Lemma Daemon_SetPeers_cases d h src a i t :
  Daemon_ListenAddress d t = (Val a, t) → io_Transport (i_opts i) = Some h →
  ∃ r i' t', Daemon_SetPeers d src (i, t) = (Val r, (i', t')) ∧
    match r with
    | Some _ => i' = i
    | None => serves i' (marked a src) ∧ existsb IsSelf (marked a src) = true ∧
        groups i' = groups i ∧ group_heap i' = group_heap i ∧ i_opts i' = i_opts i
    end.
Proof.
  intros Ha Hh. unfold Daemon_SetPeers.
  erewrite M_bind_val by (unfold on_transport; by rewrite (mark_self_eq d src a t Ha)).
  by eapply SetPeers_cases.
Qed.

(** The owner one daemon picks, as the successor on the ring of addresses. *)
Lemma serving_owner i a src po key :
  serves i (marked a src) → picker_options (i_opts i) = po → 0 <= Replicas po → src ≠ [] →
  Forall (λ p, IsSelf p = false) src →
  ∃ p c, point_succ (points fnv1_HashBytes64 po (Address <$> src))
      (int_of_uint64 (call_HashFn fnv1_HashBytes64 (effective fnv1_HashBytes64 po) key)) p ∧
    Instance_PickPeer i key = (Some c, bool_decide (a ≠ p.2)) ∧ HashKey c = p.2 ∧
    Address (PeerInfo c) = p.2.
Proof.
  intros Hserv Hpo HR Hne Hself.
  destruct (owner_of_serves i _ key Hserv) as (p & c & Hp & Hpick & Hk & Hin & Hadr).
  { by subst po. }
  { intros Hnil. by apply fmap_nil_inv in Hnil. }
  rewrite Hpo, marked_addresses in Hp. exists p, c. split_and!; [done| |done|done].
  rewrite Hpick. f_equal. apply list_elem_of_fmap in Hin as (q & Hq & Hqin).
  rewrite Forall_forall in Hself. specialize (Hself q Hqin).
  revert Hq Hadr. generalize (PeerInfo c) as pi. intros pi -> Hadr. case_bool_decide as Hqa; simpl in *.
  - rewrite bool_decide_false; [done|]. congruence.
  - rewrite Hself, bool_decide_true; [done|]. congruence.
Qed.

(** Any collection of nodes [A] that serve the same peers agrees on the owner. *)
Lemma serving_agree {A} (node : A → Prop) (addr : A → string) (src : A → list Info) (i : A → InstanceState)
  (addrs : list string) (po : Options) (key : string) :
  (∃ x, node x) → addrs ≠ [] → 0 <= Replicas po → collision_free fnv1_HashBytes64 po addrs →
  (∀ x, node x → Address <$> src x ≡ₚ addrs ∧ Forall (λ p, IsSelf p = false) (src x)) →
  (∀ x, node x → serves (i x) (marked (addr x) (src x)) ∧ picker_options (i_opts (i x)) = po) →
  ∃ owner, owner ∈ addrs ∧
    ∀ x, node x → ∃ c, Instance_PickPeer (i x) key = (Some c, bool_decide (addr x ≠ owner)) ∧
      HashKey c = owner ∧ Address (PeerInfo c) = owner.
Proof.
  intros [x0 Hx0] Hne HR Hcf Hsrc Hserv.
  assert (∀ x, node x → src x ≠ []) as Hnil.
  { intros x Hx Heq. destruct (Hsrc x Hx) as [Hp _]. rewrite Heq in Hp. by apply Permutation_nil in Hp. }
  destruct (serving_owner (i x0) (addr x0) (src x0) po key) as (p0 & c0 & Hp0 & _);
    [by apply Hserv..|done|auto|by apply Hsrc|].
  exists p0.2. split.
  - destruct Hp0 as [[Hin _]%elem_of_points _]. by rewrite (proj1 (Hsrc x0 Hx0)) in Hin.
  - intros x Hx.
    destruct (serving_owner (i x) (addr x) (src x) po key) as (p & c & Hp & Hpick & Hk & Hadr);
      [by apply Hserv..|done|auto|by apply Hsrc|].
    assert (p0.2 = p.2) as ->; [|eauto].
    assert (Address <$> src x0 ≡ₚ Address <$> src x) as Hperm
      by (rewrite (proj1 (Hsrc x0 Hx0)); symmetry; apply (Hsrc x Hx)).
    eapply point_succ_agree; [exact Hperm| |exact Hp0|exact Hp].
    intros k1 k2 n n' H1 H2. rewrite (proj1 (Hsrc x0 Hx0)) in H1, H2. by apply Hcf.
Qed.

(** ** Theorems *)

(** [SetPeers] is all or nothing: on success the active ring is exactly the
    ring of the given peers, one of which is this instance; on any error the
    instance, its picker included, is unchanged.  Groups are never touched. *)
Theorem SetPeers_all_or_nothing h peers i t (Hh : io_Transport (i_opts i) = Some h) :
  ∃ r i' t', SetPeers peers (i, t) = (Val r, (i', t')) ∧
    match r with
    | Some _ => i' = i
    | None => serves i' peers ∧ existsb IsSelf peers = true ∧
        groups i' = groups i ∧ group_heap i' = group_heap i ∧ i_opts i' = i_opts i
    end.
Proof. by eapply SetPeers_cases. Qed.

(** C7: every key has exactly one owner in the cluster: when every daemon of
    [addrs] has successfully been given the same peers (in any order), all of
    them pick the same address for a key, and only the daemon listening on
    that address treats the key as its own. *)
Theorem daemons_agree_on_owner (addrs : list string) (po : Options) (key : string)
  (src : string → list Info) (d : string → Daemon) (h : string → H)
  (i0 i1 : string → InstanceState) (t0 t1 : string → T)
  (Hne : addrs ≠ []) (HR : 0 <= Replicas po)
  (Hcf : collision_free fnv1_HashBytes64 po addrs)
  (Hopts : ∀ a, a ∈ addrs →
    picker_options (i_opts (i0 a)) = po ∧ io_Transport (i_opts (i0 a)) = Some (h a))
  (Hlisten : ∀ a, a ∈ addrs → Daemon_ListenAddress (d a) (t0 a) = (Val a, t0 a))
  (Hsrc : ∀ a, a ∈ addrs → Address <$> src a ≡ₚ addrs ∧ Forall (λ p, IsSelf p = false) (src a))
  (Hset : ∀ a, a ∈ addrs → Daemon_SetPeers (d a) (src a) (i0 a, t0 a) = (Val None, (i1 a, t1 a))) :
  ∃ owner, owner ∈ addrs ∧
    ∀ a, a ∈ addrs → ∃ c, Instance_PickPeer (i1 a) key = (Some c, bool_decide (a ≠ owner)) ∧
      HashKey c = owner.
Proof.
  destruct (serving_agree (.∈ addrs) id src i1 addrs po key) as (owner & Hin & Hown);
    [destruct addrs; [done|]; eexists; by left|done..| |naive_solver].
  intros a Ha. destruct (Hopts a Ha) as [Hpo Hh].
  destruct (Daemon_SetPeers_cases (d a) (h a) (src a) a (i0 a) (t0 a)) as (r & i' & t' & Hs & Hr);
    [auto..|].
  rewrite (Hset a Ha) in Hs. simplify_eq. destruct Hr as (Hserv & _ & _ & _ & ->). done.
Qed.

(** Every registered name leads to a group of that name. *)
Definition registry_ok (i : InstanceState) : Prop :=
  ∀ n a, groups i !! n = Some a → ∃ g, group_heap i !! a = Some g ∧ name g = n.

Lemma reset_size_name (f : Z → K * option error) max (g : group K) : name (reset_size f max g).2 = name g.
Proof. unfold reset_size. by repeat case_match; simplify_eq. Qed.

(** The metric provider, when there is one, was made by [NewMeterProvider]. *)
Definition provider_ok (o : InstanceOptions) : Prop :=
  ∀ mp, io_MetricProvider o = Some mp → is_Some (getMeter mp).

(** Whatever [NewGroup] does, it returns, and the groups it leaves are the old
    ones and at most one new one. *)
Lemma NewGroup_cases dflt zero n bytes getter i t :
  provider_ok (i_opts i) →
  ∃ r i' t', NewGroup dflt zero n bytes getter (i, t) = (Val r, (i', t')) ∧ i_opts i' = i_opts i ∧
    (i' = i ∨ ∃ g, name g = n ∧ i' = mkInstanceState (<[n := length (group_heap i)]> (groups i))
      (group_heap i ++ [g]) (picker i) (i_opts i)).
Proof.
  intros Hmp. unfold NewGroup. destruct getter; [|by eexists _, i, t; split_and!; [..|left]].
  mstep. destruct (groups i !! n); [by eexists _, i, t; split_and!; [..|left]|].
  pose proof (reset_size_name (default dflt (io_CacheFactory (i_opts i))) bytes
    (mkGroup n bytes zero zero zero_stats)) as Hname.
  destruct (reset_size _ _ _) as [[err|] g]; [by eexists _, i, t; split_and!; [..|left]|].
  mstep. destruct (io_MetricProvider (i_opts i)) as [mp|] eqn:Hm;
    [|by eexists _, _, t; split_and!; [..|right; eexists g]].
  destruct (Hmp mp Hm) as [meter ->].
  destruct (registerInstruments_total cache_nil meter g t) as (r & t' & _ & Hr & _).
  erewrite M_bind_val by (unfold on_transport; by rewrite Hr).
  destruct r; (eexists _, _, t'; split_and!; [done..|right; by exists g]).
Qed.

Lemma NewGroup_registry dflt zero n bytes getter i t :
  registry_ok i → provider_ok (i_opts i) →
  ∃ r i' t', NewGroup dflt zero n bytes getter (i, t) = (Val r, (i', t')) ∧
    i_opts i' = i_opts i ∧ registry_ok i'.
Proof.
  intros Hok Hmp.
  destruct (NewGroup_cases dflt zero n bytes getter i t Hmp) as (r & i' & t' & Hr & Ho & Hi).
  exists r, i', t'. split_and!; [done..|]. destruct Hi as [->|(g & Hname & ->)]; [done|].
  intros n' a. cbn [groups group_heap]. intros [[<- <-]|[Hne Ha]]%lookup_insert_Some.
  - exists g. by rewrite list_lookup_middle.
  - destruct (Hok n' a Ha) as (g' & Hg & ?). exists g'. split; [|done]. by apply lookup_app_l_Some.
Qed.

(** The operations that change an instance. *)
Inductive instance_op :=
| OpNewGroup (name : string) (cacheBytes : Z) (getter : bool)
| OpRemoveGroup (name : string)
| OpSetPeers (peers : list Info).

Definition run_instance_op (dflt : Z → K * option error) (zero : K) (o : instance_op) : IM unit :=
  match o with
  | OpNewGroup n b g => _ ← NewGroup dflt zero n b g; mret tt
  | OpRemoveGroup n => λ '(i, t), (Val tt, (RemoveGroup n i, t))
  | OpSetPeers ps => _ ← SetPeers ps; mret tt
  end.

Lemma run_instance_op_ok dflt zero o i t :
  registry_ok i → provider_ok (i_opts i) → is_Some (io_Transport (i_opts i)) →
  ∃ i' t', run_instance_op dflt zero o (i, t) = (Val tt, (i', t')) ∧ registry_ok i' ∧ i_opts i' = i_opts i.
Proof.
  intros Hok Hp [h Hh]. destruct o as [n b g|n|ps]; simpl.
  - destruct (NewGroup_registry dflt zero n b g i t Hok Hp) as (r & i' & t' & Hr & Ho & Hok').
    mstep Hr. by exists i', t'.
  - eexists _, _. split; [done|]. split; [|done]. intros n' a. cbn [groups group_heap RemoveGroup].
    intros [_ Ha]%lookup_delete_Some. by apply Hok.
  - destruct (SetPeers_cases h ps i t Hh) as (r & i' & t' & Hs & Hr).
    mstep Hs. exists i', t'. split; [done|].
    destruct r; [by subst|]. destruct Hr as (_ & _ & Hg & Hheap & Ho).
    unfold registry_ok. by rewrite Hg, Hheap.
Qed.

(** A new instance has no groups, the options it was given and a transport. *)
Lemma New_spec dflt self opts t0 i0 t1 :
  New dflt self opts t0 = (Val i0, t1) →
  registry_ok i0 ∧ io_MetricProvider (i_opts i0) = io_MetricProvider opts ∧ is_Some (io_Transport (i_opts i0)).
Proof.
  unfold New, with_transport, mbind, M_bind, mret, M_ret. intros Hnew.
  repeat case_match; simplify_eq; simpl in *; (split_and!; [|done|by eexists]);
    intros n' a'; cbn [groups]; by rewrite lookup_empty.
Qed.

(** C33: whatever groups are created and removed and whatever peers are set, an
    instance never panics, and each name it knows leads to a group of that
    name. *)
Theorem registry_invariant dflt zero os self opts t0 t1 i0
  (Hmp : provider_ok opts) (Hnew : New dflt self opts t0 = (Val i0, t1)) :
  ∃ us i t, for_each (run_instance_op dflt zero) os (i0, t1) = (Val us, (i, t)) ∧ registry_ok i.
Proof.
  destruct (New_spec _ _ _ _ _ _ Hnew) as (Hok & Hm & Hh).
  assert (provider_ok (i_opts i0)) as Hp0 by (unfold provider_ok; by rewrite Hm).
  clear Hnew Hmp Hm t0. revert i0 t1 Hok Hp0 Hh.
  induction os as [|o os IH]; intros i0 t1 Hok Hp0 Hh; [by eexists _, _, _|].
  destruct (run_instance_op_ok dflt zero o i0 t1 Hok Hp0 Hh) as (i' & t' & Ho & Hok' & Hopts).
  rewrite <-Hopts in Hp0, Hh. destruct (IH i' t' Hok' Hp0 Hh) as (us & i & t & Hx & ?).
  exists (tt :: us), i, t. simpl. mstep Ho. by mstep Hx.
Qed.

(** The outcome of the registration of metrics for a new group. *)
Definition metrics_outcome (i : InstanceState) (g : group K) (t : T) (r : option error) (t' : T) : Prop :=
  match io_MetricProvider (i_opts i) with
  | None => r = None ∧ t' = t
  | Some mp => ∃ meter, getMeter mp = Some meter ∧
      registerInstruments cache_nil meter g t = (Val r, t')
  end.

Lemma NewGroup_free dflt zero n bytes i t t' m h r :
  groups i !! n = None →
  default dflt (io_CacheFactory (i_opts i)) (cache_sizes bytes).1 = (m, None) →
  default dflt (io_CacheFactory (i_opts i)) (cache_sizes bytes).2 = (h, None) →
  metrics_outcome i (mkGroup n bytes m h zero_stats) t r t' →
  NewGroup dflt zero n bytes true (i, t) =
    (Val match r with
         | None => inr (length (group_heap i))
         | Some err => inl (WrapError
             ("failed to register metrics for group '" ++ n ++ "': " ++ Error err)%string err)
         end,
     (mkInstanceState (<[n := length (group_heap i)]> (groups i))
        (group_heap i ++ [mkGroup n bytes m h zero_stats]) (picker i) (i_opts i), t')).
Proof.
  intros Hfree Hm Hh Hmet. unfold NewGroup. mstep. rewrite Hfree. unfold reset_size.
  destruct (cache_sizes bytes) as [sm sh]. simpl in Hm, Hh. rewrite Hm, Hh. cbn [name g_Stats hotCache].
  mstep. unfold metrics_outcome in Hmet. destruct (io_MetricProvider (i_opts i)) as [mp|].
  - destruct Hmet as (meter & -> & Hr).
    erewrite M_bind_val by (unfold on_transport; by rewrite Hr). by destruct r.
  - by destruct Hmet as [-> ->].
Qed.

Lemma NewGroup_duplicate dflt zero n bytes i t :
  is_Some (groups i !! n) →
  NewGroup dflt zero n bytes true (i, t) =
    (Val (inl (ErrorString ("duplicate registration of group '" ++ n ++ "'")%string)), (i, t)).
Proof. intros [a Ha]. unfold NewGroup. mstep. by rewrite Ha. Qed.

(** [NewGroup] under a free name registers a group with empty statistics
    whose main and hot caches come from the factory with 7/8 and 1/8 of the
    limit; other names keep their groups, the name is then taken, and
    [RemoveGroup] frees it. *)
Theorem NewGroup_registers dflt zero n bytes i t t' m h
  (Hfree : groups i !! n = None)
  (Hm : default dflt (io_CacheFactory (i_opts i)) (cache_sizes bytes).1 = (m, None))
  (Hh : default dflt (io_CacheFactory (i_opts i)) (cache_sizes bytes).2 = (h, None))
  (Hmetrics : metrics_outcome i (mkGroup n bytes m h zero_stats) t None t') :
  ∃ a i', NewGroup dflt zero n bytes true (i, t) = (Val (inr a), (i', t')) ∧
    GetGroup i' n = Some a ∧ group_heap i' !! a = Some (mkGroup n bytes m h zero_stats) ∧
    (∀ n', n' ≠ n → GetGroup i' n' = GetGroup i n') ∧ group_heap i `prefix_of` group_heap i' ∧
    (∀ b t1, NewGroup dflt zero n b true (i', t1) =
       (Val (inl (ErrorString ("duplicate registration of group '" ++ n ++ "'")%string)), (i', t1))) ∧
    GetGroup (RemoveGroup n i') n = None.
Proof.
  rewrite (NewGroup_free _ _ _ _ _ _ _ _ _ _ Hfree Hm Hh Hmetrics).
  eexists _, _. split; [done|]. unfold GetGroup. simpl. split_and!.
  - by rewrite lookup_insert_eq.
  - by rewrite list_lookup_middle.
  - intros n' Hne. by rewrite lookup_insert_ne.
  - by apply prefix_app_r.
  - intros b t1. apply NewGroup_duplicate. simpl. rewrite lookup_insert_eq. eauto.
  - by rewrite lookup_delete_eq.
Qed.

(** when the metrics of a new group cannot be registered, [NewGroup] reports
    an error but leaves the group registered: the caller has no group, and a
    second attempt fails as a duplicate. *)
Theorem NewGroup_metrics_failure dflt zero n bytes i t t' m h err
  (Hfree : groups i !! n = None)
  (Hm : default dflt (io_CacheFactory (i_opts i)) (cache_sizes bytes).1 = (m, None))
  (Hh : default dflt (io_CacheFactory (i_opts i)) (cache_sizes bytes).2 = (h, None))
  (Hmetrics : metrics_outcome i (mkGroup n bytes m h zero_stats) t (Some err) t') :
  ∃ e i', NewGroup dflt zero n bytes true (i, t) = (Val (inl e), (i', t')) ∧ is_Some (GetGroup i' n) ∧
    ∀ t1, NewGroup dflt zero n bytes true (i', t1) =
      (Val (inl (ErrorString ("duplicate registration of group '" ++ n ++ "'")%string)), (i', t1)).
Proof.
  rewrite (NewGroup_free _ _ _ _ _ _ _ _ _ _ Hfree Hm Hh Hmetrics).
  eexists _, _. split; [done|]. unfold GetGroup. simpl.
  split; [by rewrite lookup_insert_eq|].
  intros t1. apply NewGroup_duplicate. simpl. rewrite lookup_insert_eq. eauto.
Qed.

End Instance.

(** ** Witnesses *)

(** The outside world: the address the transport listens on, and the metrics. *)
Record sample_world := mkWorld { w_address : string; w_meter : meter_state mutexCache }.

Definition world (a : string) : sample_world := mkWorld a (mkMeterState [] []).

#[export] Instance sample_transport : Transport unit sample_world NoOpClient := {|
  transport_New _ := mret tt;
  transport_Register _ _ := mret tt;
  transport_NewClient _ info := mret (inr (mkNoOp info));
  transport_ListenAndServe _ a := λ w, (Val None, mkWorld a (w_meter w));
  transport_Shutdown _ := mret None;
  transport_ListenAddress _ := λ w, (Val (w_address w), w);
|}.

#[export] Instance sample_transport_laws : TransportLaws unit sample_world NoOpClient.
Proof. split. intros h info t. eexists _, t. split; [done|]. by intros c [= <-]. Qed.

Definition on_meter {A} (f : M (meter_state mutexCache) A) : M sample_world A := λ w,
  let '(r, s) := f (w_meter w) in (r, mkWorld (w_address w) s).

#[export] Instance world_meter : Meter mutexCache string sample_instrument sample_world := {|
  Int64ObservableCounter h n d := on_meter (Int64ObservableCounter h n d);
  Int64ObservableUpDownCounter h n d := on_meter (Int64ObservableUpDownCounter h n d);
  RegisterCallback h cb insts := on_meter (RegisterCallback h cb insts);
|}.

#[export] Program Instance world_meter_laws : MeterLaws mutexCache string sample_instrument sample_world := {|
  inst_kind i := i.1.1;
  inst_name i := i.1.2;
  inst_description i := i.2;
  meter_callbacks w _ := ms_callbacks (w_meter w);
|}.
Next Obligation.
  intros h n d [a s]. eexists _, _. split_and!; [done..|]. intros i. simpl. case_match; naive_solver.
Qed.
Next Obligation.
  intros h n d [a s]. eexists _, _. split_and!; [done..|]. intros i. simpl. case_match; naive_solver.
Qed.
Next Obligation. intros h cb insts [a s]. by eexists _, _. Qed.

Definition sample_options : InstanceOptions mutexCache unit string unit :=
  mkInstanceOptions None 2 true (Some tt) None (Some sample_provider).

Definition sample_new_options : InstanceOptions mutexCache unit string unit :=
  mkInstanceOptions None 2 true (Some tt) (Some default_CacheFactory) (Some sample_provider).

Definition sample_new : InstanceState (K := mutexCache) (H := unit) (R := NoOpClient) (P := unit) (Mtr := string) :=
  mkInstanceState ∅ [] (NewPicker fnv1_64 (picker_options sample_options)) sample_new_options.

Definition plain (a : string) : Info := mkInfo a false.

Definition sample_daemon (a : string) : Daemon := mkDaemon 0 sample_new_options a.

(** The instance of daemon [a] after [SetPeers]. *)
Definition after_SetPeers (src : list Info) (a : string) : InstanceState (K := mutexCache) (H := unit) (R := NoOpClient) (P := unit) (Mtr := string) :=
  (Daemon_SetPeers fnv1_64 (sample_daemon a) src (sample_new, world a)).2.1.

Lemma daemons_agree_on_owner_witness :
  ∃ owner, owner ∈ ["c"; "a"; "b"] ∧ ∀ a, a ∈ ["c"; "a"; "b"] →
    ∃ c, Instance_PickPeer fnv1_64 (after_SetPeers (plain <$> ["a"; "b"; "c"]) a) "key"
      = (Some c, bool_decide (a ≠ owner)) ∧ HashKey c = owner.
Proof.
  apply (daemons_agree_on_owner fnv1_64 ["c"; "a"; "b"] (picker_options sample_new_options) "key"
    (λ _, plain <$> ["a"; "b"; "c"]) sample_daemon (λ _, tt) (λ _, sample_new)
    (after_SetPeers (plain <$> ["a"; "b"; "c"])) world world).
  - done.
  - done.
  - exact abc_collision_free.
  - done.
  - done.
  - intros a _. split; [|by repeat constructor].
    apply (Permutation_app_comm ["a"; "b"] ["c"]).
  - intros a Ha. repeat (apply elem_of_cons in Ha as [->|Ha]; [reflexivity|]). by apply elem_of_nil in Ha.
Defined.

Lemma registry_invariant_witness :
  ∃ us i t, for_each (run_instance_op (R := NoOpClient) fnv1_64 never_nil default_CacheFactory (newMutexCache 0))
      [OpNewGroup "users" 800 true; OpSetPeers [mkInfo "a" true]; OpRemoveGroup "users"] (sample_new, world "a")
    = (Val us, (i, t)) ∧ registry_ok i.
Proof.
  apply (registry_invariant fnv1_64 never_nil (mret tt) _ _ _ 0 sample_options (world "a") (world "a") sample_new).
  - intros mp [= <-]. by eexists.
  - reflexivity.
Defined.

Definition sample_users : group mutexCache :=
  mkGroup "users" 800 (newMutexCache 700) (newMutexCache 100) zero_stats.

Lemma NewGroup_registers_witness :
  ∃ a i' t', NewGroup (R := NoOpClient) never_nil default_CacheFactory (newMutexCache 0) "users" 800 true
      (sample_new, world "a") = (Val (inr a), (i', t')) ∧ GetGroup i' "users" = Some a.
Proof.
  destruct (NewGroup_registers (R := NoOpClient) never_nil default_CacheFactory (newMutexCache 0) "users" 800
    sample_new (world "a")
    (registerInstruments never_nil instrumentationName sample_users (world "a")).2
    (newMutexCache 700) (newMutexCache 100)) as (a & i' & Hn & Hg & _); [done|done|done| |].
  - exists instrumentationName. split; reflexivity.
  - eexists a, i', _. split; [exact Hn|exact Hg].
Defined.

(** A world whose meter refuses the counter of gets. *)
Definition broken_world : sample_world := mkWorld "a" (mkMeterState ["groupcache.group.gets"] []).

Lemma NewGroup_metrics_failure_witness :
  ∃ e i' t', NewGroup (R := NoOpClient) never_nil default_CacheFactory (newMutexCache 0)
    "users" 800 true (sample_new, broken_world) = (Val (inl e), (i', t')) ∧ is_Some (GetGroup i' "users").
Proof.
  destruct (NewGroup_metrics_failure (R := NoOpClient) never_nil default_CacheFactory
    (newMutexCache 0) "users" 800 sample_new broken_world
    (registerInstruments never_nil instrumentationName sample_users broken_world).2
    (newMutexCache 700) (newMutexCache 100) (ErrorString "groupcache.group.gets"))
    as (e & i' & Hn & Hg & _); [done|done|done| |].
  - exists instrumentationName. split; reflexivity.
  - eexists e, i', _. split; [exact Hn|exact Hg].
Defined.

Lemma SetPeers_all_or_nothing_witness :
  ∃ i', SetPeers fnv1_64 [mkInfo "a" true; plain "b"] (sample_new, world "a") = (Val None, (i', world "a")) ∧
    serves fnv1_64 i' [mkInfo "a" true; plain "b"].
Proof.
  destruct (SetPeers_all_or_nothing fnv1_64 tt [mkInfo "a" true; plain "b"] sample_new (world "a"))
    as (r & i' & t' & Hs & Hr); [done|].
  exists i'. assert (r = None ∧ t' = world "a") as [-> ->] by (by injection Hs as <- _ <-).
  split; [exact Hs|apply Hr].
Defined.
