(* ===== verification/Mock.v ===== *)
(** * The mock transport (transport/mock_transport.go)

    A transport without a network: transports are objects in a heap, linked to
    a parent that keeps the listening instances by address and counts the
    calls of all clients.  The instances behind it are an interface
    ([Instances]).  A mock transport is an instance of [Transport] and its
    client of [Peer]. *)

From S2P Require Import Prelude Errors Slices ByteView Sinks Picker Pb Group Metrics Instance Md5.
From Stdlib Require Import Ascii.

#[local] Arguments String.append : simpl nomatch.

(** ** Text *)

(** [strings.TrimSpace] on ASCII text. *)
Definition is_space (c : ascii) : bool :=
  existsb (Ascii.eqb c) [" "; "009"; "010"; "011"; "012"; "013"]%char.

Fixpoint trim_space_left (s : string) : string :=
  match s with
  | String c s' => if is_space c then trim_space_left s' else s
  | EmptyString => EmptyString
  end.
Fixpoint trim_space_right (s : string) : string :=
  match s with
  | EmptyString => EmptyString
  | String c s =>
      match trim_space_right s with
      | EmptyString => if is_space c then EmptyString else String c EmptyString
      | s' => String c s'
      end
  end.
Definition TrimSpace (s : string) : string := trim_space_right (trim_space_left s).

(** [slices.Sort] on strings: bytewise order. *)
Definition sort_strings (l : list string) : list string := merge_sort String.le l.

(** ** Call statistics *)

(** [peerStats]: the number of calls by peer, an [int]. *)
Abbreviation peerStats := (gmap string Z).

Definition peerStats_Add (key : string) (count : Z) (s : peerStats) : peerStats :=
  <[key := add64 (default 0 (s !! key)) count]> s.

Definition stat_text (s : peerStats) (k : string) : string :=
  (k ++ " = " ++ Itoa (default 0 (s !! k)) ++ " ")%string.

Definition peerStats_Report `{!MapRange string Z} (s : peerStats) : string :=
  let sorted := sort_strings (map_range s).*1 in
  TrimSpace (foldl (λ b k, b ++ stat_text s k)%string "" sorted).

(** ** Transports *)

(** Instances that receive requests: [g.GetGroup(name).Get(ctx, key, dest)]. *)
Class Instances (I W message : Type) := {
  instance_Get : I → string → string → Sink (message := message) →
    M (Mem * W) (option error * Sink (message := message));
}.
#[global] Hint Mode Instances ! ! ! : typeclass_instances.

(** [MockTransport]; pointers are indices into the heap, the instance is nil
    before [Register]. *)
Record MockTransport (I : Type) := mkMock {
  instances : gmap string (option I);
  transports : gmap string nat;
  calls : gmap string peerStats;
  register : option I;
  parent : nat;
  address : string;
}.
Arguments mkMock {I}.
Arguments instances {I}.
Arguments transports {I}.
Arguments calls {I}.
Arguments register {I}.
Arguments parent {I}.
Arguments address {I}.

Record MockClient := mkMockClient { mc_transport : nat; mc_peer : Info }.

#[export] Instance MockClient_eq_dec : EqDecision MockClient.
Proof. solve_decision. Defined.

Section Mock.
Context {I W message : Type} `{!Instances I W message, !MapRange string Z}.

Abbreviation heap := (list (MockTransport I)).
(** The heap of transports, and everything else. *)
Abbreviation S := (Mem * (heap * W))%type.

Definition deref (p : nat) : M S (MockTransport I) := λ s,
  match s.2.1 !! p with Some t => (Val t, s) | None => (Panicked, s) end.

Definition modify (p : nat) (f : MockTransport I → MockTransport I) : M S unit := λ '(m, (h, w)),
  match h !! p with
  | Some t => (Val tt, (m, (<[p := f t]> h, w)))
  | None => (Panicked, (m, (h, w)))
  end.

(** Code of the instances: it does not touch transports of its own. *)
Definition in_world {A} (f : M (Mem * W) A) : M S A := λ '(m, (h, w)),
  let '(r, (m, w)) := f (m, w) in (r, (m, (h, w))).

(** The new object, whose parent is itself. *)
Definition NewMockTransport : M S nat := λ '(m, (h, w)),
  let p := length h in
  (Val p, (m, (h ++ [mkMock ∅ ∅ ∅ None p ""], w))).

Definition Mock_Register (t : nat) (i : option I) : M S unit :=
  modify t (λ t, mkMock (instances t) (transports t) (calls t) i (parent t) (address t)).

Definition Mock_New (t : nat) : M S nat :=
  m ← NewMockTransport;
  _ ← modify m (λ x, mkMock (instances x) (transports x) (calls x) (register x) t (address x));
  mret m.

Definition Mock_ListenAddress (t : nat) : M S string := t ← deref t; mret (address t).

Definition Mock_ListenAndServe (t : nat) (addr : string) : M S (option error) :=
  self ← deref t;
  _ ← modify (parent self) (λ x, mkMock (<[addr := register self]> (instances x)) (transports x)
        (calls x) (register x) (parent x) (address x));
  _ ← modify (parent self) (λ x, mkMock (instances x) (<[addr := t]> (transports x))
        (calls x) (register x) (parent x) (address x));
  _ ← modify t (λ x, mkMock (instances x) (transports x) (calls x) (register x) (parent x) addr);
  mret None.

Definition Mock_Shutdown (t : nat) : M S (option error) :=
  self ← deref t;
  _ ← modify (parent self) (λ x, mkMock (delete (address self) (instances x))
        (delete (address self) (transports x)) (calls x) (register x) (parent x) (address x));
  mret None.

Definition Mock_Reset (t : nat) : M S unit :=
  modify t (λ x, mkMock (instances x) (transports x) ∅ (register x) (parent x) (address x)).

Definition Mock_Report (t : nat) (method : string) : M S string :=
  t ← deref t;
  match calls t !! method with
  | None => mret ""
  | Some stats => mret (peerStats_Report stats)
  end.

Definition Mock_NewClient (t : nat) (peer : Info) : M S (error + MockClient) :=
  mret (inr (mkMockClient t peer)).

(** ** The client *)

Definition addCall (c : MockClient) (method : string) (count : Z) : M S unit :=
  t ← deref (mc_transport c);
  modify (parent t) (λ x, mkMock (instances x) (transports x)
    (<[method := peerStats_Add (Address (mc_peer c)) count (default ∅ (calls x !! method))]> (calls x))
    (register x) (parent x) (address x)).

(** What [b] holds after the sink was filled. *)
Definition slice_of (k : Sink (message := message)) : bytes :=
  match k with SAllocBytesSink s => default None (as_dst s) | _ => None end.

(** [Get]; a nil instance panics. *)
Definition MockClient_Get (c : MockClient) (r : GetRequest) : M S (option error * GetResponse) :=
  t ← deref (mc_transport c);
  p ← deref (parent t);
  match instances p !! Address (mc_peer c) with
  | None => mret (Some (ErrorString
      ("dial tcp " ++ Address (mc_peer c) ++ " connect: connection refused'")%string), empty_GetResponse)
  | Some g =>
      _ ← addCall c "Get" 1;
      match g with
      | None => panic
      | Some g =>
          let value := AllocatingByteSliceSink (Some None) in
          '(err, value) ← in_world (instance_Get g (GetRequest_GetGroup r) (GetRequest_GetKey r) value);
          match err with
          | Some err => mret (Some err, empty_GetResponse)
          | None => mret (None, mkGetResponse (slice_of value) None)
          end
      end
  end.

Definition MockClient_Remove (c : MockClient) (_ : GetRequest) : M S (option error) :=
  _ ← addCall c "Remove" 1; mret None.

Definition MockClient_Set (c : MockClient) (_ : SetRequest) : M S (option error) :=
  _ ← addCall c "Set" 1; mret None.

Definition MockClient_RemoveKeys (c : MockClient) (r : RemoveKeysRequest) : M S (option error) :=
  _ ← addCall c "RemoveKeys" (Z.of_nat (length (rmreq_Keys r))); mret None.

(** [PeerInfo] and [HashKey] count as calls too. *)
Definition MockClient_PeerInfo (c : MockClient) : M S Info := _ ← addCall c "PeerInfo" 1; mret (mc_peer c).

Definition MockClient_HashKey (c : MockClient) : M S string :=
  _ ← addCall c "HashKey" 1; mret (Address (mc_peer c)).

#[export] Instance MockClient_Peer : Peer MockClient (heap * W) := {|
  client_Get := MockClient_Get;
  client_Set := MockClient_Set;
  client_Remove := MockClient_Remove;
  client_RemoveKeys := MockClient_RemoveKeys;
|}.

(** For a picker only the values count, not the statistics. *)
#[export] Instance MockClient_Client : Client MockClient := {|
  PeerInfo c := mc_peer c;
  HashKey c := Address (mc_peer c);
|}.

(** A transport; [instance_at] is the instance registered under an address. *)
Definition Mock_Transport (instance_at : nat → I) : Transport nat S MockClient := {|
  transport_New := Mock_New;
  transport_Register t i := Mock_Register t (Some (instance_at i));
  transport_NewClient := Mock_NewClient;
  transport_ListenAndServe := Mock_ListenAndServe;
  transport_Shutdown := Mock_Shutdown;
  transport_ListenAddress := Mock_ListenAddress;
|}.

(** ** Heaps *)

Implicit Types (h : heap) (m : Mem) (w : W).

(** The object at [p] and its parent. *)
Definition linked h (p r : nat) (t root : MockTransport I) : Prop :=
  h !! p = Some t ∧ parent t = r ∧ h !! r = Some root.

Lemma deref_ok h p t m w : h !! p = Some t → deref p (m, (h, w)) = (Val t, (m, (h, w))).
Proof. unfold deref. simpl. by intros ->. Qed.

Lemma modify_ok h p t f m w :
  h !! p = Some t → modify p f (m, (h, w)) = (Val tt, (m, (<[p := f t]> h, w))).
Proof. unfold modify. by intros ->. Qed.

(** A change that keeps a field keeps it everywhere; when the field is the
    parent, every transport stays linked. *)
Lemma field_insert {B} (f : MockTransport I → B) h p t t' q :
  h !! p = Some t → f t' = f t → f <$> <[p := t']> h !! q = f <$> h !! q.
Proof.
  intros Hp Ht. destruct (decide (p = q)) as [<-|Hne].
  - rewrite list_lookup_insert_eq, Hp; [simpl; by f_equal|]. by eapply lookup_lt_Some.
  - by rewrite list_lookup_insert_ne.
Qed.

Lemma lookup_insert_self h p t t' : h !! p = Some t → <[p := t']> h !! p = Some t'.
Proof. intros Hp. apply list_lookup_insert_eq. by eapply lookup_lt_Some. Qed.

(** [addCall] on a linked client. *)
Definition counted (a method : string) (n : Z) (t : MockTransport I) : MockTransport I :=
  mkMock (instances t) (transports t)
    (<[method := peerStats_Add a n (default ∅ (calls t !! method))]> (calls t))
    (register t) (parent t) (address t).

Lemma addCall_ok h c t r root method n m w :
  linked h (mc_transport c) r t root →
  addCall c method n (m, (h, w)) =
    (Val tt, (m, (<[r := counted (Address (mc_peer c)) method n root]> h, w))).
Proof.
  intros (Ht & <- & Hr). unfold addCall. mstep (deref_ok _ _ _ _ _ Ht). by rewrite (modify_ok _ _ root).
Qed.

Lemma Mock_New_ok h t m w :
  Mock_New t (m, (h, w)) = (Val (length h), (m, (h ++ [mkMock ∅ ∅ ∅ None t ""], w))).
Proof.
  unfold Mock_New. mstep. mstep (modify_ok _ _ _ _ _ _ (list_lookup_middle h [] _ _ eq_refl)).
  by rewrite insert_app_r_alt, Nat.sub_diag.
Qed.

(** ** Listening and requests *)

(** The parent after [ListenAndServe] on [addr]. *)
Definition listening (t : nat) (i : option I) (addr : string) (root : MockTransport I) : Prop :=
  instances root !! addr = Some i ∧ transports root !! addr = Some t.

Lemma Mock_ListenAndServe_ok h t self root addr m w :
  linked h t (parent self) self root →
  ∃ h', Mock_ListenAndServe t addr (m, (h, w)) = (Val None, (m, (h', w))) ∧
    (∀ q, parent <$> h' !! q = parent <$> h !! q) ∧ (∀ q, q ≠ t → address <$> h' !! q = address <$> h !! q) ∧
    (∃ self', h' !! t = Some self' ∧ address self' = addr ∧ register self' = register self) ∧
    ∃ root', h' !! parent self = Some root' ∧ listening t (register self) addr root'.
Proof.
  intros (Ht & _ & Hr). unfold Mock_ListenAndServe. mstep (deref_ok _ _ _ _ _ Ht).
  mstep (modify_ok _ _ _ _ _ _ Hr).
  erewrite M_bind_val by (apply modify_ok, (lookup_insert_self _ _ _ _ Hr)).
  rewrite list_insert_insert_eq. simpl.
  match goal with |- context [<[parent self := ?x]> h] => set (root' := x); set (h1 := <[parent self := x]> h) end.
  assert (∀ q, parent <$> h1 !! q = parent <$> h !! q) as Hp by (intros q; by eapply (field_insert parent)).
  assert (is_Some (h1 !! t)) as [self1 Hself1].
  { apply lookup_lt_is_Some. unfold h1. rewrite length_insert. by eapply lookup_lt_Some. }
  mstep (modify_ok _ _ _ _ _ _ Hself1). eexists. split; [done|].
  assert (h1 !! parent self = Some root') as Hroot' by (by eapply lookup_insert_self).
  split_and!.
  - intros q. rewrite <-Hp. by eapply (field_insert parent).
  - intros q Hq. rewrite list_lookup_insert_ne by done. by eapply (field_insert address).
  - eexists. split; [by eapply lookup_insert_self|]. split; [done|]. simpl.
    destruct (decide (t = parent self)) as [Heq|Hne].
    + rewrite <-Heq in Hroot'. rewrite Hself1 in Hroot'. injection Hroot' as ->. simpl. congruence.
    + unfold h1 in Hself1. rewrite list_lookup_insert_ne in Hself1 by congruence. congruence.
  - destruct (decide (t = parent self)) as [Heq|Hne].
    + rewrite <-Heq in *. eexists. split; [by eapply lookup_insert_self|].
      rewrite Hself1 in Hroot'. injection Hroot' as ->.
      split; simpl; by rewrite lookup_insert_eq.
    + rewrite list_lookup_insert_ne by done. exists root'. split; [done|].
      split; simpl; by rewrite lookup_insert_eq.
Qed.

(** A request to an address where an instance listens runs that instance's
    [Get]; one to any other address is refused. *)
Lemma MockClient_Get_listening h c t r root i req m w err k m' w' :
  linked h (mc_transport c) r t root → instances root !! Address (mc_peer c) = Some (Some i) →
  instance_Get i (GetRequest_GetGroup req) (GetRequest_GetKey req) (AllocatingByteSliceSink (Some None)) (m, w)
    = (Val (err, k), (m', w')) →
  MockClient_Get c req (m, (h, w)) =
    (Val match err with
         | Some err => (Some err, empty_GetResponse)
         | None => (None, mkGetResponse (slice_of k) None)
         end,
     (m', (<[r := counted (Address (mc_peer c)) "Get" 1 root]> h, w'))).
Proof.
  intros Hl Hi Hg. pose proof Hl as (Ht & Hp & Hr). unfold MockClient_Get.
  mstep (deref_ok _ _ _ _ _ Ht). rewrite Hp. mstep (deref_ok _ _ _ _ _ Hr). rewrite Hi.
  mstep (addCall_ok _ _ _ _ _ _ _ _ _ Hl).
  erewrite M_bind_val by (unfold in_world; by rewrite Hg). by destruct err.
Qed.

Definition refused (a : string) : error :=
  ErrorString ("dial tcp " ++ a ++ " connect: connection refused'")%string.

Lemma MockClient_Get_refused h c t r root req m w :
  linked h (mc_transport c) r t root → instances root !! Address (mc_peer c) = None →
  MockClient_Get c req (m, (h, w)) =
    (Val (Some (refused (Address (mc_peer c))), empty_GetResponse), (m, (h, w))).
Proof.
  intros (Ht & Hp & Hr) Hi. unfold MockClient_Get.
  mstep (deref_ok _ _ _ _ _ Ht). rewrite Hp. mstep (deref_ok _ _ _ _ _ Hr). by rewrite Hi.
Qed.

Lemma Mock_Shutdown_ok h t self root m w :
  linked h t (parent self) self root →
  ∃ root', Mock_Shutdown t (m, (h, w)) = (Val None, (m, (<[parent self := root']> h, w))) ∧
    parent root' = parent root ∧ instances root' = delete (address self) (instances root).
Proof.
  intros (Ht & _ & Hr). unfold Mock_Shutdown. mstep (deref_ok _ _ _ _ _ Ht).
  mstep (modify_ok _ _ _ _ _ _ Hr). by eexists.
Qed.

Lemma linked_same_parents h h' p q r :
  parent <$> h' !! p = parent <$> h !! q → ∀ t, h !! q = Some t → parent t = r →
  ∃ t', h' !! p = Some t' ∧ parent t' = r.
Proof. intros Hp t Hq <-. rewrite Hq in Hp. destruct (h' !! p) as [t'|]; simplify_eq/=. eauto. Qed.

(** once an instance listens on an address, a request of any client of the
    same family of mock transports to that address is answered by that
    instance's [Get]: the same error, or the bytes (without the expiry, which
    the mock drops); after [Shutdown] the request is refused and nothing
    changes. *)
Theorem mock_transport_routes h t self root u ut addr i isSelf req m w
  (Ht : linked h t (parent self) self root) (Hreg : register self = Some i)
  (Hu : h !! u = Some ut) (Hpar : parent ut = parent self) :
  ∃ h1, Mock_ListenAndServe t addr (m, (h, w)) = (Val None, (m, (h1, w))) ∧
    Mock_ListenAddress t (m, (h1, w)) = (Val addr, (m, (h1, w))) ∧
    (∀ err k m' w', instance_Get i (GetRequest_GetGroup req) (GetRequest_GetKey req)
         (AllocatingByteSliceSink (Some None)) (m, w) = (Val (err, k), (m', w')) →
       ∃ h2, MockClient_Get (mkMockClient u (mkInfo addr isSelf)) req (m, (h1, w)) =
         (Val match err with
              | Some err => (Some err, empty_GetResponse)
              | None => (None, mkGetResponse (slice_of k) None)
              end, (m', (h2, w')))) ∧
    ∃ h3, Mock_Shutdown t (m, (h1, w)) = (Val None, (m, (h3, w))) ∧
      MockClient_Get (mkMockClient u (mkInfo addr isSelf)) req (m, (h3, w)) =
        (Val (Some (refused addr), empty_GetResponse), (m, (h3, w))).
Proof.
  destruct (Mock_ListenAndServe_ok h t self root addr m w Ht)
    as (h1 & Hl & Hpar1 & Hlen & (self1 & Hself1 & Ha1 & _) & root1 & Hroot1 & Hi1 & _).
  exists h1. split; [done|].
  destruct (linked_same_parents _ _ _ _ _ (Hpar1 u) _ Hu Hpar) as (ut1 & Hut1 & Hput1).
  assert (parent self1 = parent self) as Hps.
  { destruct Ht as (Ht & _ & _). specialize (Hpar1 t). rewrite Ht, Hself1 in Hpar1. simpl in Hpar1. congruence. }
  split_and!.
  - unfold Mock_ListenAddress. mstep (deref_ok _ _ _ _ _ Hself1). by subst addr.
  - intros err k m' w' Hg. eexists.
    apply (MockClient_Get_listening h1 _ ut1 (parent self) root1 i); [by split_and!| |done].
    simpl. by rewrite Hi1, Hreg.
  - destruct (Mock_Shutdown_ok h1 t self1 root1 m w) as (root2 & Hs & Hp2 & Hi2).
    { split_and!; [done..|by rewrite Hps]. }
    eexists. split; [exact Hs|]. rewrite Hps in *.
    destruct (linked_same_parents h1 (<[parent self := root2]> h1) u u (parent self)
      (field_insert parent _ _ _ _ _ Hroot1 Hp2) ut1 Hut1 Hput1) as (ut2 & Hut2 & Hput2).
    eapply MockClient_Get_refused with (r := parent self) (root := root2).
    + split_and!; [done|done|]. by eapply lookup_insert_self.
    + simpl. rewrite Hi2, Ha1. apply lookup_delete_eq.
Qed.

(** ** Counting *)

(** A counted call: the client, the method and the number it counts for. *)
Abbreviation call := (MockClient * string * Z)%type.

Definition to_peer (method a : string) (x : call) : Prop := x.1.2 = method ∧ Address (mc_peer x.1.1) = a.

#[export] Instance to_peer_dec method a x : Decision (to_peer method a x).
Proof. unfold to_peer. apply _. Defined.

(** The total for a method and an address, and the addresses called. *)
Definition total (l : list call) (method a : string) : Z := sumZ (snd <$> filter (to_peer method a) l).

Definition called (l : list call) (method : string) : list string :=
  remove_dups ((λ x, Address (mc_peer x.1.1)) <$> filter (λ x : call, x.1.2 = method) l).

(** The statistics after the calls [l]. *)
Definition counts (l : list call) (cs : gmap string peerStats) : Prop :=
  ∀ method a, default ∅ (cs !! method) !! a =
    if bool_decide (a ∈ called l method) then Some (wrap64 (total l method a)) else None.

Lemma elem_of_called l method a : a ∈ called l method ↔ ∃ x, x ∈ l ∧ to_peer method a x.
Proof.
  unfold called, to_peer. rewrite elem_of_remove_dups, list_elem_of_fmap. split.
  - intros (x & -> & [? ?]%list_elem_of_filter). eauto.
  - intros (x & Hx & ? & <-). exists x. split; [done|]. by apply list_elem_of_filter.
Qed.

Lemma total_app l x method a :
  total (l ++ [x]) method a = total l method a + (if bool_decide (to_peer method a x) then x.2 else 0).
Proof.
  unfold total. rewrite filter_app, fmap_app, sumZ_app. f_equal. rewrite filter_cons, filter_nil.
  case_bool_decide; case_decide; simpl; unfold sumZ; simpl; lia || done.
Qed.

Lemma total_not_called l method a : a ∉ called l method → total l method a = 0.
Proof.
  intros Ha. unfold total. assert (filter (to_peer method a) l = []) as ->; [|done].
  apply elem_of_nil_inv. intros x [Hx Hin]%list_elem_of_filter. apply Ha, elem_of_called. eauto.
Qed.

(** One more call. *)
Lemma counts_step l (cs : gmap string peerStats) c method n :
  counts l cs →
  counts (l ++ [(c, method, n)])
    (<[method := peerStats_Add (Address (mc_peer c)) n (default ∅ (cs !! method))]> cs).
Proof.
  intros Hc method' a'. rewrite total_app.
  destruct (decide (to_peer method' a' (c, method, n))) as [[Hm Ha]|Hno]; simpl in *.
  - subst. rewrite lookup_insert_eq. simpl. unfold peerStats_Add. rewrite lookup_insert_eq.
    rewrite !bool_decide_true; [|by split|apply elem_of_called; exists (c, method', n); set_solver by done].
    f_equal. rewrite Hc. unfold add64. case_bool_decide as Hin; simpl.
    + by rewrite wrap64_add_l.
    + by rewrite total_not_called.
  - rewrite (bool_decide_false (to_peer _ _ _)), Z.add_0_r by done.
    assert (bool_decide (a' ∈ called (l ++ [(c, method, n)]) method') = bool_decide (a' ∈ called l method')) as ->.
    { apply bool_decide_ext. rewrite !elem_of_called. set_solver. }
    rewrite <-Hc. destruct (decide (method = method')) as [<-|Hne].
    + rewrite lookup_insert_eq. simpl. unfold peerStats_Add. rewrite lookup_insert_ne; [done|].
      intros Heq. apply Hno. by split.
    + by rewrite lookup_insert_ne.
Qed.

Definition count_call (x : call) : M S unit := addCall x.1.1 x.1.2 x.2.

(** All the clients of the calls belong to one family. *)
Definition family h (r : nat) (l : list call) : Prop :=
  Forall (λ x : call, parent <$> h !! mc_transport x.1.1 = Some r) l.

Lemma addCalls_counts l0 l h r root m w :
  h !! r = Some root → family h r l → counts l0 (calls root) →
  ∃ us h' root', for_each count_call l (m, (h, w)) = (Val us, (m, (h', w))) ∧
    h' !! r = Some root' ∧ counts (l0 ++ l) (calls root').
Proof.
  revert l0 h root. induction l as [|[[c method] n] l IH]; intros l0 h root Hr Hf Hc; simpl.
  - eexists _, h, root. by rewrite app_nil_r.
  - apply Forall_cons in Hf as [Hx Hf]. simpl in Hx.
    destruct (h !! mc_transport c) as [t|] eqn:Ht; simplify_eq/=.
    assert (linked h (mc_transport c) (parent t) t root) as Hl by (by split_and!).
    unfold count_call at 1. simpl. mstep (addCall_ok _ _ _ _ _ method n m w Hl).
    destruct (IH (l0 ++ [(c, method, n)]) _ _
      (lookup_insert_self _ _ _ (counted (Address (mc_peer c)) method n root) Hr))
      as (us & h' & root' & Hrun & Hr' & Hc').
    + eapply Forall_impl; [exact Hf|]. intros x Hx. by erewrite (field_insert parent).
    + by apply counts_step.
    + mstep Hrun. eexists _, h', root'. by rewrite <-app_assoc in Hc'.
Qed.

(** The text for the peers [ks] with the counts [f]. *)
Definition report_text (f : string → Z) (ks : list string) : string :=
  TrimSpace (String.concat "" ((λ k, k ++ " = " ++ Itoa (f k) ++ " ")%string <$> ks)).

Lemma foldl_append (f : string → string) ks b :
  foldl (λ b k, b ++ f k)%string b ks = (b ++ String.concat "" (f <$> ks))%string.
Proof.
  assert (∀ a l, String.concat "" (a :: l) = (a ++ String.concat "" l)%string) as Hcons.
  { intros a [|a' l]; simpl; [|done]. by induction a as [|c a IHa]; simpl; [|rewrite <-IHa]. }
  revert b. induction ks as [|k ks IH]; intros b; cbn [foldl fmap list_fmap].
  - simpl. by induction b as [|c b IHb]; simpl; [|rewrite <-IHb].
  - rewrite Hcons, IH. by induction b as [|c b IHb]; simpl; [|rewrite <-IHb].
Qed.

Lemma sort_strings_perm l l' : l ≡ₚ l' → sort_strings l = sort_strings l'.
Proof.
  intros Hp. unfold sort_strings. apply (Sorted_unique String.le); [apply (Sorted_merge_sort _)..|].
  by rewrite !merge_sort_Permutation.
Qed.

(** The report of a family of mock transports names every peer that was
    called once, in the order of the addresses and whatever order the map is
    iterated in, with the exact number of calls made to it since the last
    reset. *)
Theorem mock_report_exact l h r root m w method
  (Hroot : h !! r = Some root) (Hf : family h r l) (Hreset : calls root = ∅) :
  ∃ us s', for_each count_call l (m, (h, w)) = (Val us, s') ∧
    Mock_Report r method s' =
      (Val (report_text (λ a, wrap64 (total l method a)) (sort_strings (called l method))), s').
Proof.
  destruct (addCalls_counts [] l h r root m w Hroot Hf) as (us & h' & root' & Hrun & Hr' & Hc).
  { intros method' a. rewrite Hreset, lookup_empty. simpl. by rewrite lookup_empty. }
  exists us, (m, (h', w)). split; [done|]. unfold Mock_Report. mstep (deref_ok _ _ _ _ _ Hr').
  specialize (Hc method). simpl in Hc. destruct (calls root' !! method) as [st|] eqn:Hst; simpl in Hc.
  - assert ((map_range st).*1 ≡ₚ called l method) as Hkeys.
    { apply NoDup_Permutation.
      - rewrite map_range_perm. apply NoDup_fst_map_to_list.
      - apply NoDup_remove_dups.
      - intros a. rewrite list_elem_of_fmap. split.
        + intros ([a' v] & -> & Hin%elem_of_map_range). rewrite Hc in Hin. by case_bool_decide.
        + intros Ha. exists (a, wrap64 (total l method a)). split; [done|].
          apply elem_of_map_range. by rewrite Hc, bool_decide_true. }
    unfold mret, M_ret, peerStats_Report, report_text.
    rewrite (sort_strings_perm _ _ Hkeys), foldl_append. do 3 f_equal. simpl. f_equal.
    apply list_fmap_ext. intros i a Ha%list_elem_of_lookup_2. unfold stat_text. rewrite Hc, bool_decide_true; [done|].
    unfold sort_strings in Ha. by rewrite merge_sort_Permutation in Ha.
  - assert (called l method = []) as ->; [|done]. apply elem_of_nil_inv. intros a Ha.
    specialize (Hc a). rewrite lookup_empty, bool_decide_true in Hc by done. done.
Qed.

End Mock.

(** ** Witnesses *)

(** An instance is its text: [Get] puts it into the sink. *)
#[export] Instance text_instances : Instances string unit (list byte) := {|
  instance_Get i _ _ dest := λ '(m, w),
    match SetString dest i zero_time m with
    | (Val (k, err), m) => (Val (err, k), (m, w))
    | (Panicked, m) => (Panicked, (m, w))
    | (Diverged, m) => (Diverged, (m, w))
    end;
|}.

(** A parent with two children, the first of which has an instance. *)
Definition sample_heap : list (MockTransport string) :=
  [mkMock ∅ ∅ ∅ None 0 ""; mkMock ∅ ∅ ∅ (Some "hello") 0 ""; mkMock ∅ ∅ ∅ None 0 ""].

Lemma mock_transport_routes_witness :
  ∃ h1 h2 m' b, Mock_ListenAndServe (W := unit) 1 "peer1" ([], (sample_heap, tt)) = (Val None, ([], (h1, tt))) ∧
    MockClient_Get (message := list byte) (mkMockClient 2 (mkInfo "peer1" false)) (mkGetRequest (Some "g") (Some "k")) ([], (h1, tt))
      = (Val (None, mkGetResponse b None), (m', (h2, tt))).
Proof.
  destruct (mock_transport_routes (message := list byte) sample_heap 1 (mkMock ∅ ∅ ∅ (Some "hello") 0 "")
    (mkMock ∅ ∅ ∅ None 0 "") 2 (mkMock ∅ ∅ ∅ None 0 "") "peer1" "hello" false
    (mkGetRequest (Some "g") (Some "k")) [] tt) as (h1 & Hl & _ & Hg & _); [by split_and!|done|done|done|].
  edestruct Hg as [h2 Hg2]; [reflexivity|]. exists h1, h2. eexists _, _. split; [exact Hl|exact Hg2].
Defined.

Definition sample_calls : list (MockClient * string * Z) :=
  [(mkMockClient 1 (mkInfo "b" false), "Get", 1); (mkMockClient 2 (mkInfo "a" false), "Get", 1);
   (mkMockClient 1 (mkInfo "b" false), "Get", 1); (mkMockClient 2 (mkInfo "a" false), "Set", 1)].

Lemma mock_report_exact_witness :
  ∃ us s', for_each (count_call (W := unit)) sample_calls ([], (sample_heap, tt)) = (Val us, s') ∧
    Mock_Report 0 "Get" s' = (Val "a = 1 b = 2", s').
Proof.
  destruct (mock_report_exact sample_calls sample_heap 0 (mkMock ∅ ∅ ∅ None 0 "") [] tt "Get")
    as (us & s' & Hr & Hrep); [done|by repeat constructor|done|].
  exists us, s'. split; [exact Hr|exact Hrep].
Defined.
