(* ===== verification/ClusterHelper.v ===== *)
(** * The cluster helper (cluster/cluster.go)

    Package-level variables hold the daemons and the peers of one local
    cluster.  The state is those variables and the heap of instances ([*Instance]
    pointers are indices into it), next to the state [T] of the transports.
    [ListenLaws] states what the helper relies on of a transport's listener. *)

From S2P Require Import Prelude Errors Slices ByteView Picker MutexCache CacheIface Pb Group Metrics Instance Mock Md5.

(** What is asked of listeners: a transport that exists ([exists_in]) can be
    registered and started; once started it listens on one address; operations
    on one transport do not change the address of another; [New] makes a
    transport that was not there before. *)
Class ListenLaws (H T R : Type) `{!Transport H T R} := {
  listens : T → H → option string;
  exists_in : T → H → Prop;
  ListenAddress_law (h : H) (t : T) a : listens t h = Some a → transport_ListenAddress h t = (Val a, t);
  ListenAndServe_law (h : H) a (t : T) : exists_in t h →
    ∃ r t', transport_ListenAndServe h a t = (Val r, t') ∧
      (∀ h', h' ≠ h → listens t' h' = listens t h') ∧ (r = None → is_Some (listens t' h)) ∧
      (∀ h', exists_in t h' → exists_in t' h');
  New_law (h : H) (t : T) : exists_in t h →
    ∃ h' t', transport_New h t = (Val h', t') ∧ listens t h' = None ∧
      (∀ h2, h2 ≠ h' → listens t' h2 = listens t h2) ∧ exists_in t' h' ∧
      (∀ h2, exists_in t h2 → exists_in t' h2);
  Register_law (h : H) i (t : T) : exists_in t h →
    ∃ t', transport_Register h i t = (Val tt, t') ∧ (∀ h', listens t' h' = listens t h') ∧
      (∀ h', exists_in t h' → exists_in t' h');
  NewClient_listens (h : H) info (t : T) : ∃ r t', transport_NewClient h info t = (Val r, t') ∧
    ∀ h', listens t' h' = listens t h';
}.

Section Cluster.
Context {K H T R P Mtr : Type} `{!Cache K, !Client R, !Transport H T R, !SortSlice}.
Context (fnv1_HashBytes64 : HashFn) (default_transport : M T H) (dflt : Z → K * option error).

Notation InstanceState := (InstanceState (K := K) (H := H) (R := R) (P := P) (Mtr := Mtr)).
Notation Daemon := (Daemon (K := K) (H := H) (P := P) (Mtr := Mtr)).
Notation InstanceOptions := (InstanceOptions K P Mtr H).
Notation SetPeers := (SetPeers (K := K) (H := H) (T := T) (R := R) (P := P) (Mtr := Mtr) fnv1_HashBytes64).
Notation Daemon_SetPeers :=
  (Daemon_SetPeers (K := K) (H := H) (T := T) (R := R) (P := P) (Mtr := Mtr) fnv1_HashBytes64).

Record cluster := mkCluster {
  instance_heap : list InstanceState;
  daemons : list Daemon;             (* _daemons *)
  peers : list Info;                 (* _peers *)
}.

Abbreviation CM := (M (cluster * T)).

Definition get_cluster : CM cluster := λ '(c, t), (Val c, (c, t)).
Definition set_members (ds : list Daemon) (ps : list Info) : CM unit := λ '(c, t),
  (Val tt, (mkCluster (instance_heap c) ds ps, t)).
Definition outside_cluster {A} (f : M T A) : CM A := λ '(c, t), let '(r, t) := f t in (r, (c, t)).

(** A method of the instance at an address. *)
Definition on_instance {A} (a : nat) (f : M (InstanceState * T) A) : CM A := λ '(c, t),
  match instance_heap c !! a with
  | None => (Panicked, (c, t))
  | Some i =>
      let '(r, (i, t)) := f (i, t) in
      (r, (mkCluster (<[a := i]> (instance_heap c)) (daemons c) (peers c), t))
  end.

(** A computation that makes a new instance. *)
Definition with_instance {A} (f : nat → M T (Daemon * InstanceState * A)) : CM (Daemon * A) := λ '(c, t),
  match f (length (instance_heap c)) t with
  | (Val (d, i, x), t) => (Val (d, x), (mkCluster (instance_heap c ++ [i]) (daemons c) (peers c), t))
  | (Panicked, t) => (Panicked, (c, t))
  | (Diverged, t) => (Diverged, (c, t))
  end.

(** ** Methods of daemons that reach their instance *)

Definition GetInstance (d : Daemon) : nat := d_instance d.

Definition Daemon_NewGroup {Ins} `{!Meter K Mtr Ins T} (cache_nil : K → bool) (zero : K) (d : Daemon)
    (name : string) (cacheBytes : Z) (getter : bool) : CM (error + nat) :=
  on_instance (GetInstance d) (NewGroup cache_nil dflt zero name cacheBytes getter).

Definition Daemon_GetGroup (d : Daemon) (name : string) : CM (option nat) :=
  on_instance (GetInstance d) (λ '(i, t), (Val (GetGroup i name), (i, t))).

Definition Daemon_RemoveGroup (d : Daemon) (name : string) : CM unit :=
  on_instance (GetInstance d) (λ '(i, t), (Val tt, (RemoveGroup name i, t))).

(** ** The variables *)

Definition ListPeers : CM (list Info) := c ← get_cluster; mret (peers c).
Definition ListDaemons : CM (list Daemon) := c ← get_cluster; mret (daemons c).

(** Indexing a slice with an [int]. *)
Definition at_index {A} (l : list A) (idx : Z) : CM A :=
  if bool_decide (idx < 0) then panic else
  match l !! Z.to_nat idx with Some x => mret x | None => panic end.

Definition DaemonAt (idx : Z) : CM Daemon := c ← get_cluster; at_index (daemons c) idx.
Definition PeerAt (idx : Z) : CM Info := c ← get_cluster; at_index (peers c) idx.

(** The loop of [FindOwningDaemon]; it panics when no daemon listens there. *)
Fixpoint find_listening (ds : list Daemon) (a : string) : CM Daemon :=
  match ds with
  | [] => panic
  | d :: ds =>
      la ← outside_cluster (Daemon_ListenAddress d);
      if bool_decide (la = a) then mret d else find_listening ds a
  end.

Definition FindOwningDaemon (key : string) : CM Daemon :=
  c ← get_cluster;
  match daemons c with
  | [] => panic
  | d0 :: _ =>
      match instance_heap c !! d_instance d0 with
      | None => panic
      | Some i =>
          match Instance_PickPeer fnv1_HashBytes64 i key with
          | (Some cl, true) => find_listening (daemons c) (Address (PeerInfo cl))
          | (None, true) => panic
          | (_, false) => mret d0
          end
      end
  end.

(** ** Starting and stopping *)

(** The loop that starts the daemons. *)
Fixpoint start_daemons (parent : H) (ps : list Info) (opts : InstanceOptions) : CM (option error) :=
  match ps with
  | [] => mret None
  | p :: ps =>
      '(d, err) ← with_instance (λ self,
        Daemon_ListenAndServe fnv1_HashBytes64 default_transport dflt self (Address p) opts);
      match err with
      | Some err => mret (Some (WrapError
          ("StartWith: while starting daemon for '" ++ Address p ++ "': " ++ Error err)%string err))
      | None =>
          tr ← outside_cluster (transport_New parent);
          let opts := mkInstanceOptions (io_HashFn opts) (io_Replicas opts) (io_Logger opts) (Some tr)
                        (io_CacheFactory opts) (io_MetricProvider opts) in
          a ← outside_cluster (Daemon_ListenAddress d);
          c ← get_cluster;
          _ ← set_members (daemons c ++ [d]) (peers c ++ [mkInfo a (IsSelf p)]);
          start_daemons parent ps opts
      end
  end.

(** The loop that tells the daemons about the peers. *)
Fixpoint tell_peers (ds : list Daemon) : CM (option error) :=
  match ds with
  | [] => mret None
  | d :: ds =>
      c ← get_cluster;
      err ← on_instance (d_instance d) (Daemon_SetPeers d (peers c));
      match err with
      | Some err => mret (Some (WrapError ("StartWith: during SetPeers(): " ++ Error err)%string err))
      | None => tell_peers ds
      end
  end.

Definition StartWith (ps : list Info) (opts : InstanceOptions) : CM (option error) :=
  c ← get_cluster;
  if negb (bool_decide (length (daemons c) = 0%nat)) || negb (bool_decide (length (peers c) = 0%nat)) then
    mret (Some (ErrorString "StartWith: cluster already running; shutdown the previous cluster"))
  else
    parent ← (match io_Transport opts with
              | None => outside_cluster default_transport
              | Some h => mret h
              end);
    err ← start_daemons parent ps opts;
    match err with
    | Some err => mret (Some err)
    | None => c ← get_cluster; tell_peers (daemons c)
    end.

(** [fmt.Sprintf("localhost:%d", port)] for the ports from 1111. *)
Definition local_peers (numInstances : Z) : list Info :=
  (λ i, mkInfo ("localhost:" ++ Itoa (1111 + Z.of_nat i))%string false) <$> seq 0 (Z.to_nat numInstances).

Definition Start (numInstances : Z) (opts : InstanceOptions) : CM (option error) :=
  StartWith (local_peers numInstances) opts.

(** The loop of [Restart] over the indices; the error of [SetPeers] is ignored. *)
Fixpoint restart_from (i : nat) (n : nat) : CM (option error) :=
  match n with
  | O => mret None
  | S n =>
      c ← get_cluster;
      match daemons c !! i with
      | None => panic
      | Some d =>
          err ← outside_cluster (Daemon_Shutdown d);
          match err with
          | Some err => mret (Some err)
          | None =>
              '(d, err) ← with_instance (λ self, Daemon_Start fnv1_HashBytes64 default_transport dflt self d);
              c ← get_cluster;
              _ ← set_members (<[i := d]> (daemons c)) (peers c);
              match err with
              | Some err => mret (Some err)
              | None =>
                  c ← get_cluster;
                  _ ← on_instance (d_instance d) (SetPeers (peers c));
                  restart_from (S i) n
              end
          end
      end
  end.

Definition Restart : CM (option error) := c ← get_cluster; restart_from 0 (length (daemons c)).

(** [Shutdown] stops at the first error and then keeps the variables. *)
Fixpoint shutdown_each (ds : list Daemon) : CM (option error) :=
  match ds with
  | [] => mret None
  | d :: ds => or_return_err (outside_cluster (Daemon_Shutdown d)) (shutdown_each ds)
  end.

Definition Shutdown : CM (option error) :=
  c ← get_cluster;
  or_return_err (shutdown_each (daemons c)) (_ ← set_members [] []; mret None).

(** ** The members of a started cluster *)

Context `{!TransportLaws H T R, !ListenLaws H T R}.

Implicit Types (c : cluster) (t : T) (d : Daemon) (h : H) (po : Options).

(** Daemon [j] has its own instance, at address [b + j], and a transport that
    listens on the address of peer [j]. *)
Definition member (b : nat) po c t (j : nat) d (p : Info) : Prop :=
  ∃ h i, io_Transport (d_opts d) = Some h ∧ listens t h = Some (Address p) ∧ d_instance d = (b + j)%nat ∧
    instance_heap c !! (b + j)%nat = Some i ∧ picker_options (i_opts i) = po ∧
    io_Transport (i_opts i) = Some h.

Definition members (b : nat) po c t : Prop :=
  length (instance_heap c) = (b + length (daemons c))%nat ∧ length (peers c) = length (daemons c) ∧
  ∀ j d p, daemons c !! j = Some d → peers c !! j = Some p → member b po c t j d p.

Lemma Daemon_ListenAddress_member b po c t j d p :
  member b po c t j d p → Daemon_ListenAddress d t = (Val (Address p), t).
Proof.
  intros (h & i & Hh & Hl & _). unfold Daemon_ListenAddress, on_daemon. rewrite Hh. by apply ListenAddress_law.
Qed.

Lemma members_daemon b po c t j d :
  members b po c t → daemons c !! j = Some d → ∃ p, peers c !! j = Some p ∧ member b po c t j d p.
Proof.
  intros (_ & Hlen & Hm) Hd.
  assert (is_Some (peers c !! j)) as [p Hp] by (apply lookup_lt_is_Some; rewrite Hlen; by eapply lookup_lt_Some).
  eauto.
Qed.

(** Starting one daemon. *)
Lemma with_transport_Some (opts : InstanceOptions) h t :
  io_Transport opts = Some h →
  with_transport default_transport opts t =
    (Val (h, mkInstanceOptions (io_HashFn opts) (io_Replicas opts) (io_Logger opts) (Some h)
               (io_CacheFactory opts) (io_MetricProvider opts)), t).
Proof. unfold with_transport. by intros ->. Qed.

(** What is known of the instance of a daemon that was started. *)
Lemma Daemon_Start_inv self d h t d' i err t' :
  io_Transport (d_opts d) = Some h →
  Daemon_Start fnv1_HashBytes64 default_transport dflt self d t = (Val (d', i, err), t') →
  d' = mkDaemon self (d_opts d) (d_address d) ∧
  picker i = NewPicker fnv1_HashBytes64 (picker_options (d_opts d)) ∧
  picker_options (i_opts i) = picker_options (d_opts d) ∧ io_Transport (i_opts i) = Some h.
Proof.
  intros Hh. unfold Daemon_Start, New.
  unfold mbind at 1, M_bind at 1. erewrite M_bind_val by (by apply with_transport_Some). cbv beta iota.
  unfold mbind, M_bind, mret, M_ret. repeat case_match; intros; simplify_eq; done.
Qed.

Lemma Daemon_Start_spec self d h t :
  io_Transport (d_opts d) = Some h → exists_in t h →
  ∃ d' i err t', Daemon_Start fnv1_HashBytes64 default_transport dflt self d t = (Val (d', i, err), t') ∧
    (∀ h', h' ≠ h → listens t' h' = listens t h') ∧ (err = None → is_Some (listens t' h)) ∧
    (∀ h', exists_in t h' → exists_in t' h').
Proof.
  intros Hh Hex. destruct (Register_law h self t Hex) as (t1 & Hr & Hl1 & Hex1).
  destruct (ListenAndServe_law h (d_address d) t1) as (err & t2 & Hls & Hl2 & Hok & Hex2); [auto|].
  unfold Daemon_Start, New.
  erewrite M_bind_val; last first.
  { erewrite M_bind_val by (by apply with_transport_Some). cbv beta iota. mstep Hr. done. }
  erewrite M_bind_val by (unfold on_daemon; cbn [d_opts]; rewrite Hh; exact Hls).
  eexists _, _, err, t2. split; [done|]. split_and!; auto.
  intros h' Hne. by rewrite Hl2, Hl1.
Qed.

Lemma Daemon_ListenAndServe_spec self a opts h t :
  io_Transport opts = Some h → exists_in t h →
  ∃ d i err t', Daemon_ListenAndServe fnv1_HashBytes64 default_transport dflt self a opts t = (Val (d, i, err), t') ∧
    (io_Transport (d_opts d) = Some h ∧ d_instance d = self ∧
     picker_options (i_opts i) = picker_options opts ∧ io_Transport (i_opts i) = Some h) ∧
    (∀ h', h' ≠ h → listens t' h' = listens t h') ∧ (err = None → is_Some (listens t' h)) ∧
    (∀ h', exists_in t h' → exists_in t' h').
Proof.
  intros Hh Hex. unfold Daemon_ListenAndServe.
  erewrite M_bind_val by (by apply with_transport_Some). cbv beta iota.
  edestruct (Daemon_Start_spec self (mkDaemon self (mkInstanceOptions (io_HashFn opts) (io_Replicas opts) true
    (Some h) (io_CacheFactory opts) (io_MetricProvider opts)) a) h t) as (d & i & err & t' & Hs & Hd); [done..|].
  eexists d, i, err, t'. split; [exact Hs|]. split; [|done].
  apply (Daemon_Start_inv _ _ h) in Hs as (-> & _ & ? & ?); [|done]. done.
Qed.

(** ** Starting *)

(** Everyone but the transport [h] listens as before. *)
Lemma members_other b po c t t' h :
  members b po c t → (∀ j d, daemons c !! j = Some d → io_Transport (d_opts d) ≠ Some h) →
  (∀ h', h' ≠ h → listens t' h' = listens t h') → members b po c t'.
Proof.
  intros (Hh & Hp & Hm) Hne Hl. split_and!; [done..|]. intros j d p Hd Hp'.
  destruct (Hm j d p Hd Hp') as (h' & i & Hh' & Hl' & Hrest). exists h', i.
  split_and!; [done| |naive_solver..]. rewrite Hl; [done|]. intros ->. by eapply Hne.
Qed.

Lemma members_add b po c t d i h a isSelf :
  members b po c t → io_Transport (d_opts d) = Some h → listens t h = Some a →
  d_instance d = length (instance_heap c) → picker_options (i_opts i) = po → io_Transport (i_opts i) = Some h →
  members b po (mkCluster (instance_heap c ++ [i]) (daemons c ++ [d]) (peers c ++ [mkInfo a isSelf])) t.
Proof.
  intros (Hlen & Hp & Hm) Hd Hl Hi Hpo Htr. unfold members. simpl.
  rewrite !length_app. simpl. split_and!; [lia..|].
  intros j d' p' Hj Hp'. apply lookup_app_Some in Hj as [Hj|[Hge Hj]].
  - rewrite lookup_app_l in Hp' by (apply lookup_lt_Some in Hj; lia).
    destruct (Hm j d' p' Hj Hp') as (h' & i' & ? & ? & ? & Hi' & ? & ?). exists h', i'.
    split_and!; try done. simpl. rewrite lookup_app_l; [done|]. by eapply lookup_lt_Some.
  - apply list_lookup_singleton_Some in Hj as [Hj0 <-].
    assert (j = length (daemons c)) as -> by lia.
    rewrite lookup_app_r, Hp, Nat.sub_diag in Hp' by lia. injection Hp' as <-.
    exists h, i. split_and!; try done; [congruence|]. simpl. by rewrite list_lookup_middle.
Qed.

Lemma start_daemons_spec b po parent ps opts h c t :
  members b po c t → io_Transport opts = Some h → picker_options opts = po →
  (∀ j d, daemons c !! j = Some d → io_Transport (d_opts d) ≠ Some h) →
  exists_in t h → exists_in t parent →
  ∃ r c' t', start_daemons parent ps opts (c, t) = (Val r, (c', t')) ∧
    (r = None → members b po c' t' ∧ IsSelf <$> peers c' = (IsSelf <$> peers c) ++ (IsSelf <$> ps)).
Proof.
  revert opts h c t. induction ps as [|p ps IH]; intros opts h c t Hm Htr Hpo Hne Hex Hexp; cbn [start_daemons].
  { eexists _, c, t. split; [done|]. by rewrite app_nil_r. }
  destruct (Daemon_ListenAndServe_spec (length (instance_heap c)) (Address p) opts h t Htr Hex)
    as (d & i & err & t1 & Hs & (Hdh & Hdi & Hipo & Hitr) & Hl & Hok & Hex1).
  erewrite M_bind_val by (unfold with_instance; by rewrite Hs).
  destruct err as [err|]; [by eexists _, _, _|].
  destruct (Hok eq_refl) as [a Ha].
  destruct (New_law parent t1) as (tr & t2 & Hn & Hnone & Hl2 & Htr2 & Hex2); [auto|].
  assert (h ≠ tr) as Hhtr by (intros ->; congruence).
  erewrite M_bind_val by (unfold outside_cluster; by rewrite Hn).
  erewrite M_bind_val; last first.
  { unfold outside_cluster, Daemon_ListenAddress, on_daemon. rewrite Hdh.
    by rewrite (ListenAddress_law h t2 a) by (by rewrite Hl2). }
  mstep. mstep. cbn [daemons peers instance_heap].
  assert (members b po c t1) as Hm1 by (by eapply members_other).
  assert (∀ j d', daemons c !! j = Some d' → io_Transport (d_opts d') ≠ Some tr) as Hne1.
  { intros j d' Hd' Heq. destruct (members_daemon _ _ _ _ _ _ Hm1 Hd') as (p' & _ & h' & _ & Hh' & Hlh & _).
    congruence. }
  eassert (members b po _ t2) as Hm2.
  { eapply (members_add b po c t2 d i h a (IsSelf p)); [|done|by rewrite Hl2|done|congruence|done].
    by eapply members_other. }
  edestruct (IH (mkInstanceOptions (io_HashFn opts) (io_Replicas opts) (io_Logger opts) (Some tr)
    (io_CacheFactory opts) (io_MetricProvider opts)) tr _ t2 Hm2) as (r & c' & t' & Hr & Hres);
    [done|done| |done|auto|].
  - intros j d' Hd' Heq. cbn [daemons] in Hd'. apply lookup_app_Some in Hd' as [Hd'|[_ Hd']]; [by eapply Hne1|].
    apply list_lookup_singleton_Some in Hd' as [_ <-]. congruence.
  - exists r, c', t'. split; [exact Hr|]. intros Hn0. destruct (Hres Hn0) as [? Heq]. split; [done|].
    rewrite Heq. cbn [peers]. by rewrite !fmap_app, <-app_assoc.
Qed.

(** ** Telling the daemons about the peers *)

Lemma add_peers_listens h ps p includesSelf t r t' :
  add_peers fnv1_HashBytes64 h ps p includesSelf t = (Val r, t') → ∀ h', listens t' h' = listens t h'.
Proof.
  revert p includesSelf t. induction ps as [|info ps IH]; intros p b t; cbn [add_peers].
  { by intros [= _ <-]. }
  destruct (IsSelf info); [apply IH|].
  destruct (NewClient_listens h info t) as (x & t1 & Hn & Hl). mstep Hn.
  destruct x; [by intros [= _ <-]|]. intros Ha h'. rewrite (IH _ _ _ Ha). apply Hl.
Qed.

Lemma SetPeers_listens ps i t r i' t' :
  SetPeers ps (i, t) = (Val r, (i', t')) → ∀ h', listens t' h' = listens t h'.
Proof.
  unfold Instance.SetPeers. mstep. destruct (io_Transport (i_opts i)) as [h|]; [|done].
  destruct (add_peers fnv1_HashBytes64 h ps (NewPicker fnv1_HashBytes64 (picker_options (i_opts i))) false t)
    as [[x| |] t1] eqn:Ha.
  - erewrite M_bind_val by (unfold on_transport; by rewrite Ha).
    pose proof (add_peers_listens _ _ _ _ _ _ _ Ha) as Hl. destruct x as [err|[p []]]; by intros [= _ _ <-].
  - unfold mbind, M_bind, on_transport. by rewrite Ha.
  - unfold mbind, M_bind, on_transport. by rewrite Ha.
Qed.

(** Daemon [j] serves the ring of all the peers, itself marked. *)
Definition told (b : nat) c (n : nat) : Prop :=
  ∀ j d p, (j < n)%nat → daemons c !! j = Some d → peers c !! j = Some p →
    ∃ i, instance_heap c !! (b + j)%nat = Some i ∧ serves fnv1_HashBytes64 i (marked (Address p) (peers c)).

(** One daemon is told. *)
Lemma tell_one b po c t j d r c' t' :
  members b po c t → daemons c !! j = Some d →
  on_instance (d_instance d) (Daemon_SetPeers d (peers c)) (c, t) = (Val r, (c', t')) →
  daemons c' = daemons c ∧ peers c' = peers c ∧ members b po c' t' ∧
  (told b c j → r = None → told b c' (S j)).
Proof.
  intros Hm Hd. destruct (members_daemon _ _ _ _ _ _ Hm Hd) as (p & Hp & Hmem).
  pose proof (Daemon_ListenAddress_member _ _ _ _ _ _ _ Hmem) as Hla.
  destruct Hmem as (h & i & Hh & Hl & Hdi & Hi & Hpo & Htr).
  destruct (Daemon_SetPeers_cases fnv1_HashBytes64 d h (peers c) (Address p) i t Hla Htr)
    as (r' & i' & t1 & Hs & Hr).
  assert (∀ h', listens t1 h' = listens t h') as Hlis.
  { unfold Instance.Daemon_SetPeers in Hs.
    erewrite M_bind_val in Hs by (unfold on_transport; by rewrite (mark_self_eq d (peers c) (Address p) t Hla)).
    by eapply SetPeers_listens. }
  assert (i_opts i' = i_opts i) as Hopts by (destruct r'; [by subst|naive_solver]).
  unfold on_instance. rewrite Hdi, Hi, Hs. intros [= <- <- <-]. simpl. split_and!; [done..| |].
  - destruct Hm as (H1 & H2 & Hm). split_and!; [by simpl; rewrite length_insert|done|].
    intros j' d' p' Hd' Hp'. destruct (Hm j' d' p' Hd' Hp') as (h2 & i2 & ? & ? & ? & Hi2 & ? & ?).
    destruct (decide (j' = j)) as [->|Hne].
    + simplify_eq/=. exists h, i'. rewrite Hlis. split_and!; try done; [|by rewrite Hopts..].
      simpl. rewrite list_lookup_insert_eq; [done|]. by eapply lookup_lt_Some.
    + exists h2, i2. rewrite Hlis. split_and!; try done. simpl. rewrite list_lookup_insert_ne; [done|lia].
  - intros Htold Hr0 j' d' p' Hlt Hd' Hp'. simpl in *. destruct (decide (j' = j)) as [->|Hne].
    + simplify_eq. exists i'. split; [|naive_solver]. rewrite list_lookup_insert_eq; [done|].
      by eapply lookup_lt_Some.
    + destruct (Htold j' d' p') as (i2 & Hi2 & ?); [lia|done..|]. exists i2.
      split; [|done]. rewrite list_lookup_insert_ne; [done|lia].
Qed.

Lemma tell_peers_spec b po ds c t c' t' :
  members b po c t → drop (length (daemons c) - length ds) (daemons c) = ds →
  told b c (length (daemons c) - length ds) →
  tell_peers ds (c, t) = (Val None, (c', t')) →
  daemons c' = daemons c ∧ peers c' = peers c ∧ members b po c' t' ∧ told b c' (length (daemons c')).
Proof.
  revert c t. induction ds as [|d ds IH]; intros c t Hm Hdrop Htold; cbn [tell_peers].
  { intros [= <- <-]. split_and!; [done..|]. simpl in Htold. by rewrite Nat.sub_0_r in Htold. }
  set (n := (length (daemons c) - length (d :: ds))%nat) in *.
  assert (daemons c !! n = Some d) as Hd.
  { rewrite <-(Nat.add_0_r n), <-lookup_drop, Hdrop. done. }
  mstep. unfold mbind at 1, M_bind at 1.
  destruct (on_instance (d_instance d) (Daemon_SetPeers d (peers c)) (c, t)) as [[r| |] [c1 t1]] eqn:Ho;
    [|done..].
  destruct (tell_one _ _ _ _ _ _ _ _ _ Hm Hd Ho) as (Hds & Hps & Hm1 & Ht1).
  destruct r as [err|]; [done|]. intros Hrest.
  assert (length (daemons c1) - length ds = S n)%nat as Hn.
  { rewrite Hds. apply (f_equal length) in Hdrop. rewrite length_drop in Hdrop. simpl in *. lia. }
  destruct (IH c1 t1 Hm1) as (? & ? & ? & ?); [|rewrite Hn; by apply Ht1|done|].
  - rewrite Hn, Hds. apply (f_equal (drop 1)) in Hdrop. rewrite drop_drop in Hdrop.
    by rewrite Nat.add_1_r in Hdrop.
  - by rewrite <-Hds, <-Hps.
Qed.

Lemma StartWith_members ps opts h c0 t0 c t :
  daemons c0 = [] → peers c0 = [] → io_Transport opts = Some h → exists_in t0 h →
  StartWith ps opts (c0, t0) = (Val None, (c, t)) →
  members (length (instance_heap c0)) (picker_options opts) c t ∧
  told (length (instance_heap c0)) c (length (daemons c)) ∧ IsSelf <$> peers c = IsSelf <$> ps.
Proof.
  intros Hd Hp Htr Hex. unfold StartWith. mstep. rewrite Hd, Hp, Htr. cbn [length].
  rewrite (bool_decide_true (0%nat = 0%nat)) by done. cbn [negb orb]. mstep. set (b := length (instance_heap c0)).
  destruct (start_daemons_spec b (picker_options opts) h ps opts h c0 t0) as (r & c1 & t1 & Hs & Hok).
  - unfold members. rewrite Hd, Hp. split_and!; [simpl; lia|done|]. by intros j d p Hj.
  - done.
  - done.
  - intros j d. by rewrite Hd.
  - done.
  - done.
  - mstep Hs. destruct r as [err|]; [done|]. destruct (Hok eq_refl) as [Hm Hself]. mstep. intros Ht.
    destruct (tell_peers_spec b (picker_options opts) (daemons c1) c1 t1 c t Hm) as (? & Hps & ? & ?); [|
      |done|].
    + by rewrite Nat.sub_diag, drop_0.
    + rewrite Nat.sub_diag. intros j d p Hlt. lia.
    + rewrite Hps, Hself, Hp. done.
Qed.

(** ** Finding the owner *)

Lemma peer_unique c j j' p p' :
  NoDup (Address <$> peers c) → peers c !! j = Some p → peers c !! j' = Some p' → Address p = Address p' → j = j'.
Proof.
  intros Hnd Hj Hj' Heq. eapply NoDup_lookup; [exact Hnd| |]; rewrite list_lookup_fmap; [by rewrite Hj|].
  rewrite Hj'. simpl. congruence.
Qed.

Lemma find_listening_spec b po c t ds a n :
  members b po c t → drop n (daemons c) = ds →
  (∃ j p, (n <= j)%nat ∧ peers c !! j = Some p ∧ Address p = a) →
  ∃ j d p, daemons c !! j = Some d ∧ peers c !! j = Some p ∧ Address p = a ∧
    find_listening ds a (c, t) = (Val d, (c, t)).
Proof.
  intros Hm. revert n. induction ds as [|d ds IH]; intros n Hdrop (j & p & Hle & Hp & Ha).
  { destruct Hm as (_ & Hlen & _). apply lookup_lt_Some in Hp. apply (f_equal length) in Hdrop.
    rewrite length_drop in Hdrop. simpl in Hdrop. lia. }
  assert (daemons c !! n = Some d) as Hd.
  { rewrite <-(Nat.add_0_r n), <-lookup_drop, Hdrop. done. }
  destruct (members_daemon _ _ _ _ _ _ Hm Hd) as (q & Hq & Hmem). cbn [find_listening].
  erewrite M_bind_val by (unfold outside_cluster; by rewrite (Daemon_ListenAddress_member _ _ _ _ _ _ _ Hmem)).
  case_bool_decide as Hqa; [by exists n, d, q|].
  destruct (IH (S n)) as (j' & d' & p' & ? & ? & ? & ?); [| |by exists j', d', p'].
  - apply (f_equal (drop 1)) in Hdrop. rewrite drop_drop, Nat.add_1_r in Hdrop. done.
  - exists j, p. split_and!; [|done..]. destruct (decide (j = n)) as [->|]; [congruence|lia].
Qed.

(** The daemons of a cluster whose members were told agree on an address. *)
Lemma node_agree b po c t key d0 :
  members b po c t → told b c (length (daemons c)) → daemons c !! 0%nat = Some d0 →
  Forall (λ p, IsSelf p = false) (peers c) → 0 <= Replicas po →
  collision_free fnv1_HashBytes64 po (Address <$> peers c) →
  ∃ a, a ∈ Address <$> peers c ∧
    ∀ j d, daemons c !! j = Some d → ∃ p i cl, peers c !! j = Some p ∧ instance_heap c !! (b + j)%nat = Some i ∧
      Instance_PickPeer fnv1_HashBytes64 i key = (Some cl, bool_decide (Address p ≠ a)) ∧
      Address (PeerInfo cl) = a.
Proof.
  intros Hm Htold Hd0 Hself HR Hcf.
  set (node := λ x : Info * InstanceState, ∃ j, peers c !! j = Some x.1 ∧ instance_heap c !! (b + j)%nat = Some x.2 ∧
    serves fnv1_HashBytes64 x.2 (marked (Address x.1) (peers c)) ∧ picker_options (i_opts x.2) = po).
  assert (∀ j d, daemons c !! j = Some d → ∃ p i, peers c !! j = Some p ∧ instance_heap c !! (b + j)%nat = Some i ∧
    node (p, i)) as Hnode.
  { intros j d Hj. destruct (members_daemon _ _ _ _ _ _ Hm Hj) as (p & Hp & h & i & _ & _ & _ & Hi & Hpo & _).
    destruct (Htold j d p) as (i' & Hi' & Hs); [by eapply lookup_lt_Some|done..|]. simplify_eq.
    exists p, i. split_and!; [done..|]. exists j. done. }
  destruct (Hnode 0%nat d0 Hd0) as (p0 & i0 & Hp0 & _ & Hn0).
  destruct (serving_agree fnv1_HashBytes64 node (λ x, Address x.1) (λ _, peers c) snd (Address <$> peers c) po key)
    as (a & Ha & Hown); [eauto|by destruct (peers c)|done|done|done| |].
  { intros x (j & _ & _ & ? & ?). done. }
  exists a. split; [done|]. intros j d Hj. destruct (Hnode j d Hj) as (p & i & Hp & Hi & Hn).
  destruct (Hown (p, i) Hn) as (cl & ? & _ & ?). by exists p, i, cl.
Qed.

Lemma find_owner b po c t key d0 a :
  members b po c t → daemons c !! 0%nat = Some d0 → a ∈ Address <$> peers c →
  (∀ j d, daemons c !! j = Some d → ∃ p i cl, peers c !! j = Some p ∧ instance_heap c !! (b + j)%nat = Some i ∧
      Instance_PickPeer fnv1_HashBytes64 i key = (Some cl, bool_decide (Address p ≠ a)) ∧
      Address (PeerInfo cl) = a) →
  ∃ j d p, daemons c !! j = Some d ∧ peers c !! j = Some p ∧ Address p = a ∧
    FindOwningDaemon key (c, t) = (Val d, (c, t)).
Proof.
  intros Hm Hd0 Ha Hown. destruct (Hown 0%nat d0 Hd0) as (p & i & cl & Hp & Hi & Hpick & Hcl).
  destruct (members_daemon _ _ _ _ _ _ Hm Hd0) as (p' & _ & _ & _ & _ & _ & Hdi & _).
  unfold FindOwningDaemon. mstep. rewrite <-Hdi in Hi.
  destruct (daemons c) as [|d0' ds] eqn:Hds; [done|]. injection Hd0 as ->. rewrite Hi, Hpick, Hcl, <-Hds.
  case_bool_decide as Hne.
  - destruct (find_listening_spec b po c t (daemons c) a 0) as (j & d & q & ? & ? & ? & Hf); [done..| |].
    + apply list_elem_of_fmap in Ha as (q & -> & [j Hj]%list_elem_of_lookup_1). exists j, q. split_and!; [lia|done..].
    + by exists j, d, q.
  - exists 0%nat, d0, p. rewrite Hds. split_and!; [done..| |done]. destruct (decide (Address p = a)); [done|by destruct Hne].
Qed.

(** C8: after [StartWith] (or [Start]) succeeded, every daemon of the cluster picks the
    same owner for a key, exactly one daemon treats the key as its own, and
    [FindOwningDaemon] returns that daemon. *)
Theorem cluster_FindOwningDaemon ps opts h c0 t0 c t key
  (Hd0 : daemons c0 = []) (Hp0 : peers c0 = []) (Htr : io_Transport opts = Some h)
  (Hex : exists_in t0 h) (Hne : ps ≠ []) (Hself : Forall (λ p, IsSelf p = false) ps) (HR : 0 <= io_Replicas opts)
  (Hstart : StartWith ps opts (c0, t0) = (Val None, (c, t)))
  (Hnd : NoDup (Address <$> peers c))
  (Hcf : collision_free fnv1_HashBytes64 (picker_options opts) (Address <$> peers c)) :
  ∃ owner a, FindOwningDaemon key (c, t) = (Val owner, (c, t)) ∧ owner ∈ daemons c ∧
    Daemon_ListenAddress owner t = (Val a, t) ∧
    ∀ d, d ∈ daemons c → ∃ i cl, instance_heap c !! d_instance d = Some i ∧
      Instance_PickPeer fnv1_HashBytes64 i key = (Some cl, bool_decide (d_instance d ≠ d_instance owner)) ∧
      Address (PeerInfo cl) = a.
Proof.
  destruct (StartWith_members ps opts h c0 t0 c t Hd0 Hp0 Htr Hex Hstart) as (Hm & Htold & Hs).
  set (b := length (instance_heap c0)) in *.
  assert (Forall (λ p, IsSelf p = false) (peers c)) as Hself'.
  { apply (Forall_fmap IsSelf (.= false)). rewrite Hs. by apply Forall_fmap. }
  destruct (daemons c !! 0%nat) as [d0|] eqn:Hd; last first.
  { apply lookup_ge_None in Hd. destruct Hm as (_ & Hlen & _). apply (f_equal length) in Hs.
    rewrite !length_fmap in Hs. destruct ps; [done|simpl in *; lia]. }
  destruct (node_agree b (picker_options opts) c t key d0) as (a & Ha & Hagree); [done..|].
  destruct (find_owner b (picker_options opts) c t key d0 a) as (j & owner & p & Hj & Hp & <- & Hfind); [done..|].
  destruct (members_daemon _ _ _ _ _ _ Hm Hj) as (p' & Hp' & Hmem). simplify_eq.
  pose proof (Daemon_ListenAddress_member _ _ _ _ _ _ _ Hmem) as Hla.
  exists owner, (Address p). split_and!; [done|by eapply list_elem_of_lookup_2|done|].
  intros d [j' Hj']%list_elem_of_lookup_1.
  destruct (Hagree j' d Hj') as (q & i & cl & Hq & Hi & Hpick & Haddr).
  destruct (members_daemon _ _ _ _ _ _ Hm Hj') as (q' & Hq' & _ & _ & _ & _ & Hdi & _).
  destruct Hmem as (_ & _ & _ & _ & Hdo & _).
  exists i, cl. rewrite Hdi, Hdo, Hpick. split_and!; [done| |done]. f_equal. apply bool_decide_ext.
  split; intros Hneq Heq; apply Hneq.
  - assert (j' = j) as -> by lia. congruence.
  - rewrite (peer_unique c j' j q p); [done|done|done|done|congruence].
Qed.

(** ** Restarting *)

(** The first [n] daemons have instances without peers. *)
Definition forgotten c (n : nat) : Prop :=
  ∀ j d, (j < n)%nat → daemons c !! j = Some d → ∃ i, instance_heap c !! d_instance d = Some i ∧
    ∃ po, picker i = NewPicker fnv1_HashBytes64 po.

(** Nothing outside can change the daemons or the peers. *)
Lemma SetPeers_without_self ps i t h :
  io_Transport (i_opts i) = Some h → existsb IsSelf ps = false →
  ∃ err t', SetPeers ps (i, t) = (Val (Some err), (i, t')).
Proof.
  intros Hh Hself. destruct (SetPeers_cases fnv1_HashBytes64 h ps i t Hh) as (r & i' & t' & Hs & Hr).
  destruct r as [err|]; [subst; eauto|]. destruct Hr as (_ & Htrue & _). congruence.
Qed.

(** One round of the loop. *)
Lemma restart_one c t j d h :
  daemons c !! j = Some d → io_Transport (d_opts d) = Some h → existsb IsSelf (peers c) = false →
  forgotten c j →
  ∀ n c' t', restart_from j (S n) (c, t) = (Val None, (c', t')) →
  ∃ c1 t1, restart_from (S j) n (c1, t1) = (Val None, (c', t')) ∧ peers c1 = peers c ∧
    d_opts <$> daemons c1 = d_opts <$> daemons c ∧ forgotten c1 (S j).
Proof.
  intros Hd Hh Hself Hf n c' t'. cbn [restart_from]. mstep. rewrite Hd.
  destruct (Daemon_Shutdown d t) as [[[err|]| |] t1] eqn:Hsd;
    (unfold mbind at 1, M_bind at 1, outside_cluster at 1; rewrite Hsd; try done).
  destruct (Daemon_Start fnv1_HashBytes64 default_transport dflt (length (instance_heap c)) d t1)
    as [[[[d' i] err]| |] t2] eqn:Hs;
    (unfold mbind at 1, M_bind at 1, with_instance at 1; rewrite Hs; try done).
  destruct (Daemon_Start_inv _ _ _ _ _ _ _ _ Hh Hs) as (-> & Hpick & _ & Htr). clear Hs.
  cbv beta iota. mstep. mstep. destruct err; [done|]. mstep. cbn [daemons peers instance_heap d_instance].
  destruct (SetPeers_without_self (peers c) i t2 h Htr Hself) as (err & t3 & Hset).
  erewrite M_bind_val; last first.
  { unfold on_instance. cbn [instance_heap]. rewrite list_lookup_middle by done. by rewrite Hset. }
  intros Hrest. eexists _, t3. split; [exact Hrest|]. split_and!; [done| |].
  - cbn [daemons]. rewrite list_fmap_insert. apply list_insert_id. by rewrite list_lookup_fmap, Hd.
  - intros j' dj Hlt. cbn [daemons instance_heap].
    destruct (decide (j' = j)) as [->|Hne].
    + rewrite list_lookup_insert_eq by (by eapply lookup_lt_Some). intros [= <-]. cbn [d_instance].
      exists i. split; [|by eexists]. apply list_lookup_insert_eq. rewrite length_app. simpl. lia.
    + rewrite list_lookup_insert_ne by done. intros Hj'. destruct (Hf j' dj) as (i' & Hi' & ?); [lia|done|].
      exists i'. split; [|done]. apply lookup_lt_Some in Hi' as Hlen.
      rewrite list_lookup_insert_ne, lookup_app_l; [done|lia|lia].
Qed.

Lemma restart_forgets n j c t c' t' :
  (j + n = length (daemons c))%nat →
  Forall (λ d, is_Some (io_Transport (d_opts d))) (daemons c) → existsb IsSelf (peers c) = false →
  forgotten c j → restart_from j n (c, t) = (Val None, (c', t')) →
  peers c' = peers c ∧ length (daemons c') = length (daemons c) ∧ forgotten c' (length (daemons c')).
Proof.
  revert j c t. induction n as [|n IH]; intros j c t Hlen Htr Hself Hf.
  { intros [= <- <-]. split_and!; [done..|]. by rewrite <-Hlen, Nat.add_0_r. }
  destruct (lookup_lt_is_Some_2 (daemons c) j) as [d Hd]; [lia|].
  pose proof (Forall_lookup_1 _ _ _ _ Htr Hd) as [h Hh]. intros Hr.
  destruct (restart_one c t j d h Hd Hh Hself Hf n c' t' Hr) as (c1 & t1 & Hr1 & Hp & Ho & Hf1).
  assert (length (daemons c1) = length (daemons c)) as Hl1.
  { apply (f_equal length) in Ho. by rewrite !length_fmap in Ho. }
  assert (Forall (λ d, is_Some (io_Transport (d_opts d))) (daemons c1)) as Htr1.
  { apply (Forall_fmap d_opts (λ o, is_Some (io_Transport o))). rewrite Ho. by apply Forall_fmap. }
  destruct (IH (S j) c1 t1) as (? & ? & ?); [lia|done|by rewrite Hp|done|done|].
  split_and!; [congruence|lia|done].
Qed.

(** C38: [Restart] loses the peers: it hands the instances the peer list without
    marking any of them as self, and drops the error.  After a restart that
    reports success, no daemon knows any peer and every daemon treats every
    key as its own. *)
Theorem cluster_Restart_loses_peers c t c' t' key
  (Htr : Forall (λ d, is_Some (io_Transport (d_opts d))) (daemons c))
  (Hself : Forall (λ p, IsSelf p = false) (peers c))
  (Hrestart : Restart (c, t) = (Val None, (c', t'))) :
  length (daemons c') = length (daemons c) ∧ peers c' = peers c ∧
  ∀ d, d ∈ daemons c' → ∃ i, instance_heap c' !! d_instance d = Some i ∧
    Instance_PickPeer fnv1_HashBytes64 i key = (None, false).
Proof.
  assert (existsb IsSelf (peers c) = false) as Hs.
  { induction Hself as [|p ps Hp _ IH]; [done|]. simpl. by rewrite Hp. }
  unfold Restart in Hrestart. erewrite M_bind_val in Hrestart by done.
  destruct (restart_forgets _ 0 c t c' t' eq_refl Htr Hs) as (Hp & Hl & Hf); [|done|].
  { intros j d Hlt. lia. }
  split_and!; [done..|]. intros d [j Hj]%list_elem_of_lookup_1.
  destruct (Hf j d) as (i & Hi & po & Hpick); [by eapply lookup_lt_Some|done|].
  exists i. split; [done|]. unfold Instance_PickPeer. by rewrite Hpick.
Qed.

End Cluster.

(** ** Clusters of mock transports *)

Section MockCluster.
Context {I W : Type} (instance_at : nat → I).

Abbreviation mock_state := (Mem * (list (MockTransport I) * W))%type.

#[local] Instance mock_cluster_transport : Transport nat mock_state MockClient := Mock_Transport instance_at.

#[export] Instance mock_transport_laws : TransportLaws nat mock_state MockClient.
Proof. split. intros h info t. eexists _, t. split; [done|]. by intros c [= <-]. Qed.

(** An object whose parent is an object. *)
Definition mock_exists (s : mock_state) (t : nat) : Prop :=
  ∃ x, s.2.1 !! t = Some x ∧ is_Some (s.2.1 !! parent x).

Lemma mock_exists_modify m (h h' : list (MockTransport I)) w t :
  (∀ q, parent <$> h' !! q = parent <$> h !! q) → mock_exists (m, (h, w)) t → mock_exists (m, (h', w)) t.
Proof.
  intros Hp (x & Hx & [r Hr]). simpl in *.
  destruct (linked_same_parents h h' t t (parent x) (Hp t) x Hx eq_refl) as (x' & Hx' & Heq).
  destruct (linked_same_parents h h' _ _ (parent r) (Hp (parent x)) r Hr eq_refl) as (r' & Hr' & _).
  exists x'. simpl. split; [done|]. rewrite Heq. by eexists.
Qed.

#[export] Program Instance mock_listen_laws : ListenLaws nat mock_state MockClient := {|
  listens s t := address <$> s.2.1 !! t;
  exists_in := mock_exists;
|}.
Next Obligation.
  intros t [m [h w]] a Ha. simpl in *. destruct (h !! t) as [x|] eqn:Hx; simplify_eq/=.
  unfold Mock_ListenAddress. by mstep (deref_ok _ _ _ _ _ Hx).
Qed.
Next Obligation.
  intros t a [m [h w]] (x & Hx & [root Hroot]). simpl in *.
  destruct (Mock_ListenAndServe_ok h t x root a m w) as (h' & Hl & Hp & Ha & (x' & Hx' & _) & _); [by split_and!|].
  eexists _, _. split; [exact Hl|]. split_and!; [exact Ha| |].
  - intros _. simpl. rewrite Hx'. by eexists.
  - intros t'. by apply mock_exists_modify.
Qed.
Next Obligation.
  intros t [m [h w]] (x & Hx & Hroot). simpl in *.
  eexists (length h), _. split; [apply Mock_New_ok|]. simpl.
  assert (t < length h)%nat as Hlt by (by eapply lookup_lt_Some). split_and!.
  - by rewrite lookup_ge_None_2.
  - intros t2 Hne. destruct (decide (t2 < length h)%nat); [by rewrite lookup_app_l|].
    rewrite !lookup_ge_None_2; [done|lia|]. rewrite length_app. simpl. lia.
  - eexists. simpl. split; [by apply list_lookup_middle|]. simpl. rewrite lookup_app_l by done. by eexists.
  - intros t2 (y & Hy & [r Hr]). simpl in *. exists y. simpl.
    split; [by apply lookup_app_l_Some|]. exists r. by apply lookup_app_l_Some.
Qed.
Next Obligation.
  intros t i [m [h w]] (x & Hx & Hroot). simpl in *. unfold Mock_Register.
  eexists. split; [by apply modify_ok|]. split.
  - intros q. simpl. by eapply (field_insert address).
  - intros t'. apply mock_exists_modify. intros q. by eapply (field_insert parent).
Qed.
Next Obligation. intros t info s. by eexists _, s. Qed.

End MockCluster.

(** ** Witnesses *)

Section Witnesses.

#[local] Instance sample_mock : Transport nat (Mem * (list (MockTransport nat) * unit)) MockClient :=
  Mock_Transport id.

Definition cluster_options : InstanceOptions mutexCache unit string nat :=
  mkInstanceOptions None 2 true (Some 0%nat) None None.

Definition no_cluster : cluster (K := mutexCache) (H := nat) (R := MockClient) (P := unit) (Mtr := string) :=
  mkCluster [] [] [].

(** One mock transport, the parent of those of the cluster. *)
Definition mock_root : Mem * (list (MockTransport nat) * unit) := ([], ([mkMock ∅ ∅ ∅ None 0 ""], tt)).

Definition started : _ * (_ * (Mem * (list (MockTransport nat) * unit))) :=
  StartWith fnv1_64 (mret 0%nat) default_CacheFactory (plain <$> ["c"; "a"; "b"]) cluster_options
    (no_cluster, mock_root).

Lemma outcome_eq {A B C} (x : A * (B * C)) a : x.1 = a → x = (a, (x.2.1, x.2.2)).
Proof. by destruct x as [? [? ?]]; intros <-. Qed.

Lemma started_peers : peers started.2.1 = plain <$> ["c"; "a"; "b"].
Proof. vm_compute. reflexivity. Qed.

Lemma started_transports :
  (λ d, io_Transport (d_opts d)) <$> daemons started.2.1 = [Some 0; Some 1; Some 2]%nat.
Proof. vm_compute. reflexivity. Qed.

Lemma cluster_FindOwningDaemon_witness :
  ∃ owner a, FindOwningDaemon fnv1_64 "key" started.2 = (Val owner, started.2) ∧
    owner ∈ daemons started.2.1 ∧ Daemon_ListenAddress owner started.2.2 = (Val a, started.2.2).
Proof.
  destruct (cluster_FindOwningDaemon fnv1_64 (mret 0%nat) default_CacheFactory (plain <$> ["c"; "a"; "b"])
    cluster_options 0%nat no_cluster mock_root started.2.1 started.2.2 "key")
    as (owner & a & Hf & Hin & Hl & _).
  - done.
  - done.
  - done.
  - by eexists (mkMock ∅ ∅ ∅ None 0 "").
  - done.
  - by repeat constructor.
  - done.
  - apply (outcome_eq started). vm_compute. reflexivity.
  - rewrite started_peers. by apply (bool_decide_unpack _).
  - rewrite started_peers. exact abc_collision_free.
  - exists owner, a. split_and!; [|exact Hin|exact Hl].
    rewrite <-surjective_pairing in Hf. exact Hf.
Defined.

Definition restarted : _ * (_ * (Mem * (list (MockTransport nat) * unit))) :=
  Restart fnv1_64 (mret 0%nat) default_CacheFactory (started.2.1, started.2.2).

Lemma cluster_Restart_loses_peers_witness :
  Forall (λ d, ∃ i, instance_heap restarted.2.1 !! d_instance d = Some i ∧
    Instance_PickPeer fnv1_64 i "key" = (None, false)) (daemons restarted.2.1).
Proof.
  apply Forall_forall. apply (cluster_Restart_loses_peers fnv1_64 (mret 0%nat) default_CacheFactory started.2.1 started.2.2
    restarted.2.1 restarted.2.2 "key").
  - apply (Forall_fmap (λ d, io_Transport (d_opts d)) is_Some). rewrite started_transports.
    repeat constructor; by eexists.
  - rewrite started_peers. by repeat constructor.
  - unfold restarted. apply outcome_eq. vm_compute. reflexivity.
Defined.

End Witnesses.
