(* ===== verification/Url.v ===== *)
(** * URL paths

    What the HTTP transport uses of net/url, net/http and strings:
    [url.PathEscape], the decoding of a request path into [URL.Path],
    [strings.SplitN(s, "/", 2)], [strings.HasPrefix], [strings.Trim(s, "\n")],
    and the routing of [http.ServeMux] with the cleaning of paths it does. *)

From S2P Require Import Prelude Errors.
From Stdlib Require Import Ascii.

#[local] Arguments String.append : simpl nomatch.

Definition slash : ascii := "/"%char.
Definition percent : ascii := "%"%char.

Definition is_alnum (n : nat) : bool :=
  ((48 <=? n) && (n <=? 57) || (65 <=? n) && (n <=? 90) || (97 <=? n) && (n <=? 122))%nat.

(** [shouldEscape(c, encodePathSegment)]: letters, digits, [-_.~] and
    [$&+:=@] stay, everything else is escaped. *)
Definition should_escape (c : ascii) : bool :=
  let n := nat_of_ascii c in
  negb (is_alnum n ||
        existsb (Ascii.eqb c) ["-"; "_"; "."; "~"; "$"; "&"; "+"; ":"; "="; "@"]%char).

Definition upper_hex (n : nat) : ascii :=
  match String.get n "0123456789ABCDEF" with Some a => a | None => "0"%char end.

Definition escape_char (c : ascii) (rest : string) : string :=
  if should_escape c then
    let n := nat_of_ascii c in
    String percent (String (upper_hex (n / 16)%nat) (String (upper_hex (n mod 16)%nat) rest))
  else String c rest.

(** [url.PathEscape] *)
Fixpoint PathEscape (s : string) : string :=
  match s with
  | EmptyString => EmptyString
  | String c s => escape_char c (PathEscape s)
  end.

(** [unhex], [None] for a character that is not a hexadecimal digit. *)
Definition unhex (c : ascii) : option nat :=
  let n := nat_of_ascii c in
  (if (48 <=? n) && (n <=? 57) then Some (n - 48)
   else if (65 <=? n) && (n <=? 70) then Some (n - 55)
   else if (97 <=? n) && (n <=? 102) then Some (n - 87)
   else None)%nat.

(** [unescape(s, encodePath)]; [None] is the error for a bad escape. *)
Fixpoint unescape (s : string) : option string :=
  match s with
  | EmptyString => Some EmptyString
  | String c s' =>
      if Ascii.eqb c percent then
        match s' with
        | String a (String b s'') =>
            match unhex a, unhex b with
            | Some h, Some l => String (ascii_of_nat (16 * h + l)%nat) <$> unescape s''
            | _, _ => None
            end
        | _ => None
        end
      else String c <$> unescape s'
  end.

(** [strings.SplitN(s, "/", 2)]: [None] when there is no slash. *)
Fixpoint cut_slash (s : string) : option (string * string) :=
  match s with
  | EmptyString => None
  | String c s =>
      if Ascii.eqb c slash then Some (EmptyString, s)
      else prod_map (String c) id <$> cut_slash s
  end.

(** [strings.HasPrefix(s, p)] and [s[len(p):]]. *)
Fixpoint strip_prefix (p s : string) : option string :=
  match p, s with
  | EmptyString, _ => Some s
  | String a p, String b s => if Ascii.eqb a b then strip_prefix p s else None
  | _, EmptyString => None
  end.

(** [strings.Trim(s, "\n")] *)
Definition is_newline (c : ascii) : bool := Ascii.eqb c "010"%char.
Fixpoint trim_left (s : string) : string :=
  match s with
  | String c s' => if is_newline c then trim_left s' else s
  | EmptyString => EmptyString
  end.
Fixpoint trim_right (s : string) : string :=
  match s with
  | EmptyString => EmptyString
  | String c s =>
      match trim_right s with
      | EmptyString => if is_newline c then EmptyString else String c EmptyString
      | s' => String c s'
      end
  end.
Definition Trim (s : string) : string := trim_right (trim_left s).

(** ** Routing

    [path.Clean] of a rooted path: empty and "." segments go, ".." takes its
    predecessor with it. *)

(** [strings.Split(s, c)] for a one-character separator. *)
Fixpoint split_on (sep : ascii) (s : string) : list string :=
  match s with
  | EmptyString => [EmptyString]
  | String c s =>
      if Ascii.eqb c sep then EmptyString :: split_on sep s
      else match split_on sep s with
           | seg :: segs => String c seg :: segs
           | [] => [String c EmptyString]
           end
  end.
Notation split_slash := (split_on slash).

Definition clean_segment (stack : list string) (seg : string) : list string :=
  if bool_decide (seg = "" ∨ seg = ".") then stack
  else if bool_decide (seg = "..") then tail stack
  else seg :: stack.

Definition Clean (p : string) : string :=
  ("/" ++ String.concat "/" (reverse (foldl clean_segment [] (split_slash p))))%string.

Fixpoint ends_in_slash (s : string) : bool :=
  match s with
  | EmptyString => false
  | String c EmptyString => Ascii.eqb c slash
  | String _ s => ends_in_slash s
  end.

(** [cleanPath] of net/http; a request path starts with a slash. *)
Definition cleanPath (p : string) : string :=
  let np := Clean p in
  if ends_in_slash p && negb (bool_decide (np = "/")) then (np ++ "/")%string else np.

(** [URL.String] of a URL that has only a path: the characters a path may not
    contain are escaped, the percent sign too. *)
Definition path_escape_char (c : ascii) (rest : string) : string :=
  if existsb (Ascii.eqb c) [","; "/"; ";"]%char then String c rest else escape_char c rest.

Fixpoint path_String (s : string) : string :=
  match s with
  | EmptyString => EmptyString
  | String c s => path_escape_char c (path_String s)
  end.

Inductive routing := ToHandler | ToNotFound | Redirect (location : string).

(** [ServeMux] with one pattern without wildcards, for an (escaped) path: a
    pattern that ends in a slash matches the paths below it, any other only
    itself. *)
Definition mux (pattern path : string) : routing :=
  let p := cleanPath path in
  let matches :=
    if ends_in_slash pattern then match strip_prefix pattern p with Some _ => true | None => false end
    else bool_decide (p = pattern) in
  if bool_decide ((p ++ "/")%string = pattern) then Redirect (path_String pattern)
  else if negb (bool_decide (p = path)) then Redirect (path_String p)
  else if matches then ToHandler else ToNotFound.

(** ** Lemmas *)

Fixpoint no_char (c : ascii) (s : string) : Prop :=
  match s with
  | EmptyString => True
  | String a s => a ≠ c ∧ no_char c s
  end.

Lemma unescape_escape_char c rest : unescape (escape_char c rest) = String c <$> unescape rest.
Proof. destruct c as [[] [] [] [] [] [] [] []]; reflexivity. Qed.

Lemma unescape_PathEscape_app s rest :
  unescape (PathEscape s ++ rest)%string = (λ r, s ++ r)%string <$> unescape rest.
Proof.
  induction s as [|c s IH]; simpl; [by destruct (unescape rest)|].
  assert (escape_char c (PathEscape s) ++ rest = escape_char c (PathEscape s ++ rest))%string as ->
    by (unfold escape_char; by destruct (should_escape c)).
  rewrite unescape_escape_char, IH. by destruct (unescape rest).
Qed.

Lemma unescape_plain_app s rest :
  no_char percent s → unescape (s ++ rest)%string = (λ r, s ++ r)%string <$> unescape rest.
Proof.
  induction s as [|c s IH]; simpl; [by destruct (unescape rest)|].
  intros [Hc Hs]. destruct (Ascii.eqb_spec c percent); [done|]. rewrite IH by done.
  by destruct (unescape rest).
Qed.

Lemma cut_slash_app s rest :
  no_char slash s → cut_slash (s ++ String slash rest)%string = Some (s, rest).
Proof.
  induction s as [|c s IH]; simpl; [done|]. intros [Hc Hs].
  destruct (Ascii.eqb_spec c slash); [done|]. by rewrite IH.
Qed.

Lemma strip_prefix_app p s : strip_prefix p (p ++ s)%string = Some s.
Proof. induction p as [|c p IH]; simpl; [done|]. by rewrite Ascii.eqb_refl. Qed.

(** A newline at the end is trimmed away. *)
Lemma trim_right_newline s : trim_right (s ++ newline)%string = trim_right s.
Proof. induction s as [|c s IH]; simpl; [done|]. by rewrite IH. Qed.

Lemma trim_left_newline s :
  trim_right (trim_left (s ++ newline)%string) = trim_right (trim_left s).
Proof.
  induction s as [|c s IH]; [done|]. simpl. destruct (is_newline c); [done|].
  simpl. by rewrite trim_right_newline.
Qed.

Lemma Trim_newline s : Trim (s ++ newline)%string = Trim s.
Proof. apply trim_left_newline. Qed.

Lemma length_string_app s t : String.length (s ++ t)%string = (String.length s + String.length t)%nat.
Proof. induction s as [|c s IH]; [done|]. simpl. by rewrite IH. Qed.

Lemma string_app_nil_r s : (s ++ "")%string = s.
Proof. induction s as [|c s IH]; [done|]. change (String c (s ++ "")%string = String c s). by rewrite IH. Qed.

Lemma string_app_assoc (s t u : string) : ((s ++ t) ++ u = s ++ (t ++ u))%string.
Proof. induction s as [|c s IH]; [done|]. simpl. by rewrite IH. Qed.

Lemma unescape_PathEscape s : unescape (PathEscape s) = Some s.
Proof.
  rewrite <-(string_app_nil_r (PathEscape s)), unescape_PathEscape_app. simpl. by rewrite string_app_nil_r.
Qed.

(** [PathEscape] leaves one segment, and keeps the dots. *)
Lemma PathEscape_no_slash s : no_char slash (PathEscape s).
Proof.
  induction s as [|c s IH]; [done|]. simpl.
  destruct c as [[] [] [] [] [] [] [] []]; (repeat split; [discriminate..|exact IH]).
Qed.

(** A segment that path cleaning keeps. *)
Definition dotted (s : string) : Prop := s = "." ∨ s = "..".
Definition plain_segment (s : string) : Prop := no_char slash s ∧ s ≠ "" ∧ ¬ dotted s.

#[export] Instance no_char_dec c s : Decision (no_char c s).
Proof. induction s as [|a s IH]; simpl; apply _. Defined.
#[export] Instance dotted_dec s : Decision (dotted s).
Proof. unfold dotted. apply _. Defined.
#[export] Instance plain_segment_dec s : Decision (plain_segment s).
Proof. unfold plain_segment. apply _. Defined.

Lemma PathEscape_eq s t : unescape t = Some t → PathEscape s = t → s = t.
Proof. intros Ht Hs. rewrite <-Hs, unescape_PathEscape in Ht. by injection Ht as ->. Qed.

Lemma PathEscape_not_dotted s : ¬ dotted s → ¬ dotted (PathEscape s).
Proof. intros Hs [Hd|Hd]; apply Hs; [left|right]; by apply PathEscape_eq. Qed.

Lemma PathEscape_plain s : s ≠ "" → ¬ dotted s → plain_segment (PathEscape s).
Proof.
  intros Hne Hd. split_and!; [apply PathEscape_no_slash| |by apply PathEscape_not_dotted].
  intros Hs. apply Hne. by apply PathEscape_eq.
Qed.

Lemma split_on_app sep s r :
  no_char sep s → split_on sep (s ++ String sep r)%string = s :: split_on sep r.
Proof.
  induction s as [|c s IH]; simpl; [by rewrite Ascii.eqb_refl|]. intros [Hc Hs].
  destruct (Ascii.eqb_spec c sep); [done|]. by rewrite IH.
Qed.

Lemma split_on_one sep s : no_char sep s → split_on sep s = [s].
Proof.
  induction s as [|c s IH]; simpl; [done|]. intros [Hc Hs].
  destruct (Ascii.eqb_spec c sep); [done|]. by rewrite IH.
Qed.

(** The base paths that serve: segments between slashes. *)
Fixpoint slashed (segs : list string) : string :=
  match segs with
  | [] => ""
  | s :: segs => (s ++ "/" ++ slashed segs)%string
  end.
Definition base_path (segs : list string) : string := ("/" ++ slashed segs)%string.
Definition clean_base (base : string) : Prop := ∃ segs, Forall plain_segment segs ∧ base = base_path segs.

Lemma split_slash_slashed segs r :
  Forall plain_segment segs → split_slash (slashed segs ++ r)%string = segs ++ split_slash r.
Proof.
  induction 1 as [|s segs [Hs _] _ IH]; [done|]. simpl. rewrite !string_app_assoc. simpl.
  change ("/" ++ slashed segs ++ r)%string with (String slash (slashed segs ++ r)).
  by rewrite (split_on_app slash s), IH by done.
Qed.

Lemma clean_segments segs stack :
  Forall plain_segment segs → foldl clean_segment stack segs = reverse segs ++ stack.
Proof.
  intros H. revert stack. induction H as [|s segs (_ & Hne & Hd) _ IH]; intros stack; [done|].
  simpl. rewrite IH, reverse_cons, <-(assoc_L (++)). f_equal. unfold clean_segment, dotted in *.
  rewrite !bool_decide_false; [done|naive_solver..].
Qed.

Lemma slashed_snoc segs s : slashed (segs ++ [s]) = (slashed segs ++ s ++ "/")%string.
Proof. induction segs as [|a segs IH]; [done|]. simpl. rewrite IH. by rewrite !string_app_assoc. Qed.

Lemma concat_slashed segs s : String.concat "/" (segs ++ [s]) = (slashed segs ++ s)%string.
Proof.
  induction segs as [|a segs IH]; [done|]. simpl. rewrite IH.
  destruct (segs ++ [s]) eqn:He; [by destruct segs|]. by rewrite !string_app_assoc.
Qed.

Lemma ends_in_slash_cons s t : ends_in_slash (s ++ String slash t)%string = bool_decide (t = "") || ends_in_slash t.
Proof.
  induction s as [|c s IH]; simpl; [by destruct t|]. rewrite IH.
  destruct (s ++ String slash t)%string eqn:He; [|done]. by destruct s.
Qed.

Lemma ends_in_slash_no_char s : no_char slash s → ends_in_slash s = false.
Proof.
  induction s as [|c s IH]; [done|]. simpl. intros [Hc Hs].
  destruct s; [|by apply IH]. by destruct (Ascii.eqb_spec c slash).
Qed.

Lemma split_slash_base segs g r :
  Forall plain_segment segs → no_char slash g →
  split_slash (base_path segs ++ g ++ String slash r)%string = "" :: (segs ++ [g]) ++ split_slash r.
Proof.
  intros Hsegs Hg. unfold base_path. change ("/" ++ slashed segs)%string with (String slash (slashed segs)).
  simpl. by rewrite split_slash_slashed, (split_on_app slash g), <-(assoc_L (++)) by done.
Qed.

Lemma clean_base_segments segs g rest :
  Forall plain_segment segs → plain_segment g →
  foldl clean_segment [] ("" :: (segs ++ [g]) ++ rest) = foldl clean_segment (reverse (segs ++ [g])) rest.
Proof.
  intros Hsegs Hg. change (foldl clean_segment [] ("" :: ?l)) with (foldl clean_segment [] l).
  rewrite foldl_app, (clean_segments (segs ++ [g])), app_nil_r; [done|].
  by apply Forall_app_2, Forall_singleton.
Qed.

(** The path of a key of a group is clean, unless the key is "." or "..". *)
Lemma cleanPath_key segs g k :
  Forall plain_segment segs → plain_segment g → no_char slash k → ¬ dotted k →
  let p := (base_path segs ++ g ++ "/" ++ k)%string in cleanPath p = p.
Proof.
  intros Hsegs Hg Hk Hd p.
  assert (ends_in_slash p = bool_decide (k = "")) as Hend.
  { unfold p. rewrite <-string_app_assoc. change ("/" ++ k)%string with (String slash k).
    rewrite ends_in_slash_cons, (ends_in_slash_no_char k), orb_false_r by done. done. }
  assert (split_slash p = "" :: (segs ++ [g]) ++ [k]) as Hsplit.
  { rewrite <-(split_on_one slash k) by done. by apply split_slash_base, Hg. }
  unfold cleanPath, Clean. rewrite Hend, Hsplit, clean_base_segments by done. cbn [foldl].
  case_bool_decide as Hk0.
  - subst k. change (clean_segment (reverse (segs ++ [g])) "") with (reverse (segs ++ [g])).
    rewrite reverse_involutive, concat_slashed. cbn [andb].
    rewrite bool_decide_false; [by rewrite !string_app_assoc|].
    destruct Hg as (_ & Hg & _). destruct (slashed segs); [|done]. by destruct g.
  - cbn [andb]. unfold clean_segment, dotted in *.
    rewrite !bool_decide_false by naive_solver.
    rewrite reverse_cons, reverse_involutive, concat_slashed.
    unfold p, base_path. rewrite !string_app_assoc. f_equal.
    by rewrite slashed_snoc, !string_app_assoc.
Qed.

(** The mux of a server hands clean paths below the base to the handler. *)
Lemma mux_clean base rest :
  clean_base base → cleanPath (base ++ rest)%string = (base ++ rest)%string →
  mux base (base ++ rest)%string = ToHandler.
Proof.
  intros (segs & Hsegs & ->) Hc. unfold mux. rewrite Hc.
  assert (ends_in_slash (base_path segs) = true) as Hend.
  { unfold base_path. clear. change ("/" ++ slashed segs)%string with ("" ++ String slash (slashed segs))%string.
    rewrite ends_in_slash_cons. induction segs as [|s segs IH]; [done|]. cbn [slashed].
    change ("/" ++ slashed segs)%string with (String slash (slashed segs)).
    rewrite ends_in_slash_cons, IH. by rewrite orb_true_r. }
  rewrite Hend, strip_prefix_app, bool_decide_false, bool_decide_true by (done ||
    (intros He; apply (f_equal String.length) in He; rewrite !length_string_app in He; simpl in He; lia)).
  done.
Qed.

Lemma mux_key base g key :
  clean_base base → g ≠ "" → ¬ dotted g → ¬ dotted key →
  mux base (base ++ PathEscape g ++ "/" ++ PathEscape key)%string = ToHandler.
Proof.
  intros Hbase Hg Hd Hk. apply mux_clean; [done|]. destruct Hbase as (segs & Hsegs & ->).
  apply cleanPath_key; auto using PathEscape_plain, PathEscape_no_slash, PathEscape_not_dotted.
Qed.

(** A path below a group, as for RemoveKeys. *)
Lemma mux_below base g k :
  clean_base base → g ≠ "" → ¬ dotted g → plain_segment k →
  mux base (base ++ PathEscape g ++ "/" ++ k ++ "/")%string = ToHandler.
Proof.
  intros Hbase Hg Hd Hk. apply mux_clean; [done|]. destruct Hbase as (segs & Hsegs & ->).
  replace (base_path segs ++ PathEscape g ++ "/" ++ k ++ "/")%string
    with (base_path (segs ++ [PathEscape g]) ++ k ++ "/" ++ "")%string.
  - apply (cleanPath_key (segs ++ [PathEscape g]) k ""); [|done|done|by intros [?|?]].
    apply Forall_app_2; [done|]. by apply Forall_singleton, PathEscape_plain.
  - unfold base_path. by rewrite slashed_snoc, !string_app_assoc.
Qed.

(** ** Dots *)

Lemma unescape_path_String s : unescape (path_String s) = Some s.
Proof.
  induction s as [|c s IH]; [done|]. simpl.
  assert (unescape (path_escape_char c (path_String s)) = String c <$> unescape (path_String s)) as ->.
  { destruct c as [[] [] [] [] [] [] [] []]; reflexivity. }
  by rewrite IH.
Qed.

Lemma path_String_eq s t : unescape t = Some t → path_String s = t → s = t.
Proof. intros Ht Hs. rewrite <-Hs, unescape_path_String in Ht. by injection Ht as ->. Qed.

Lemma path_String_plain s : plain_segment s → plain_segment (path_String s).
Proof.
  intros (Hs & Hne & Hd). split_and!.
  - clear Hne Hd. induction s as [|c s IH]; [done|]. simpl in Hs. destruct Hs as [Hc Hs]. specialize (IH Hs).
    simpl. destruct c as [[] [] [] [] [] [] [] []]; first [by destruct Hc|repeat split; [discriminate..|exact IH]].
  - intros He. apply Hne. by apply path_String_eq.
  - intros [He|He]; apply Hd; [left|right]; by apply path_String_eq.
Qed.

Lemma cut_slash_None s : no_char slash s → cut_slash s = None.
Proof.
  induction s as [|c s IH]; [done|]. simpl. intros [Hc Hs].
  destruct (Ascii.eqb_spec c slash); [done|]. by rewrite IH.
Qed.

Lemma path_String_app s t : path_String (s ++ t)%string = (path_String s ++ path_String t)%string.
Proof.
  induction s as [|c s IH]; [done|]. simpl. rewrite IH.
  by destruct c as [[] [] [] [] [] [] [] []].
Qed.

(** Where the mux sends the two dotted keys: to a path without a key. *)
Lemma mux_dot base g :
  clean_base base → plain_segment g →
  mux base (base ++ g ++ "/" ++ ".")%string = Redirect (path_String (base ++ g)).
Proof.
  intros (segs & Hsegs & ->) Hg. unfold mux.
  assert (cleanPath (base_path segs ++ g ++ "/" ++ ".") = base_path segs ++ g)%string as ->.
  { unfold cleanPath. rewrite <-string_app_assoc. change ("/" ++ ".")%string with (String slash ".").
    rewrite ends_in_slash_cons. cbn [ends_in_slash]. rewrite string_app_assoc.
    change (bool_decide ("." = "") || Ascii.eqb "." slash) with false. cbn [andb].
    unfold Clean. rewrite split_slash_base by (apply Hg || done).
    change (split_slash ".") with ["."]. rewrite clean_base_segments by done.
    change (foldl clean_segment ?l ["."]) with l.
    rewrite reverse_involutive, concat_slashed. unfold base_path. by rewrite string_app_assoc. }
  rewrite bool_decide_false, bool_decide_false; [done| |].
  all: intros He; apply (f_equal String.length) in He; rewrite !length_string_app in He; simpl in He; lia.
Qed.

Lemma mux_dotdot base g :
  clean_base base → plain_segment g →
  mux base (base ++ g ++ "/" ++ "..")%string = Redirect (path_String base).
Proof.
  intros (segs & Hsegs & ->) Hg. unfold mux.
  assert (cleanPath (base_path segs ++ g ++ "/" ++ "..") = "/" ++ String.concat "/" segs)%string as ->.
  { unfold cleanPath. rewrite <-string_app_assoc. change ("/" ++ "..")%string with (String slash "..").
    rewrite ends_in_slash_cons. rewrite string_app_assoc.
    change (bool_decide (".." = "") || ends_in_slash "..") with false. cbn [andb].
    unfold Clean. rewrite split_slash_base by (apply Hg || done).
    change (split_slash "..") with [".."]. rewrite clean_base_segments by done.
    change (foldl clean_segment ?l [".."]) with (tail l).
    rewrite reverse_snoc. cbn [tail]. by rewrite reverse_involutive. }
  destruct segs as [|s segs _] using rev_ind.
  - rewrite bool_decide_false, bool_decide_false; [done|..].
    all: intros He; apply (f_equal String.length) in He; rewrite !length_string_app in He; simpl in He; lia.
  - rewrite bool_decide_true; [done|]. unfold base_path.
    by rewrite concat_slashed, slashed_snoc, !string_app_assoc.
Qed.

Lemma mux_base base : clean_base base → mux base base = ToHandler.
Proof.
  intros Hbase. rewrite <-(string_app_nil_r base) at 2. apply mux_clean; [done|].
  rewrite string_app_nil_r. destruct Hbase as (segs & Hsegs & ->).
  destruct segs as [|s segs _] using rev_ind; [done|].
  apply Forall_app in Hsegs as [Hsegs Hs]. apply (proj1 (Forall_singleton _ _)) in Hs.
  replace (base_path (segs ++ [s])) with (base_path segs ++ s ++ "/" ++ "")%string.
  - apply cleanPath_key; [done..|by intros [?|?]].
  - unfold base_path. by rewrite slashed_snoc, string_app_assoc.
Qed.

Lemma mux_group base g : clean_base base → plain_segment g → mux base (base ++ g)%string = ToHandler.
Proof.
  intros Hbase Hg. apply mux_clean; [done|]. destruct Hbase as (segs & Hsegs & ->).
  assert (ends_in_slash (base_path segs ++ g) = false) as Hend.
  { destruct segs as [|s segs _] using rev_ind.
    - change (base_path [] ++ g)%string with ("" ++ String slash g)%string.
      rewrite ends_in_slash_cons, ends_in_slash_no_char by apply Hg. destruct Hg as (_ & ? & _).
      by rewrite bool_decide_false.
    - unfold base_path. rewrite slashed_snoc, !string_app_assoc, <-!(string_app_assoc _ _ ("/" ++ g)).
      change ("/" ++ g)%string with (String slash g).
      rewrite ends_in_slash_cons, ends_in_slash_no_char by apply Hg. destruct Hg as (_ & ? & _).
      by rewrite bool_decide_false. }
  unfold cleanPath, Clean. rewrite Hend. cbn [andb]. unfold base_path at 1.
  change ("/" ++ slashed segs)%string with (String slash (slashed segs)).
  change (split_slash (String slash (slashed segs) ++ g)) with ("" :: split_slash (slashed segs ++ g)).
  rewrite split_slash_slashed, (split_on_one slash g) by (done || apply Hg).
  rewrite <-(app_nil_r (segs ++ [g])), clean_base_segments by done. cbn [foldl].
  rewrite reverse_involutive, concat_slashed. unfold base_path. by rewrite string_app_assoc.
Qed.
