(* ===== verification/Http.v ===== *)
(** * The HTTP transport (transport/http_transport.go)

    The request handler [ServeHTTP] and the operations of [HttpClient].  The
    groups behind the handler are an interface ([GroupMethods]); so are the
    encodings of the messages ([Wire]: protobuf, and JSON for RemoveKeys) and
    the network ([Network]).  Spans are added in Tracer.v, the listener in
    HttpServer.v; neither influences the answer to a request.  [connected]
    joins a client to a handler behind its [http.ServeMux]. *)

From S2P Require Import Prelude Errors Slices ByteView Sinks Picker Pb Group Md5 Url.

(** ** Requests and responses *)

Record Request := mkRequest {
  Method : string;
  URL_Path : string;                       (* decoded *)
  Body : error + list byte;                (* what io.Copy reads *)
}.

Record Response := mkResponse {
  StatusCode : Z;
  res_Body : error + list byte;
}.

Definition StatusText (code : Z) : string :=
  match code with
  | 200 => "OK" | 400 => "Bad Request" | 404 => "Not Found" | 405 => "Method Not Allowed"
  | 500 => "Internal Server Error" | 503 => "Service Unavailable" | _ => ""
  end.

(** A handler that returns without writing answers 200. *)
Definition ok : Response := mkResponse 200 (inr []).

(** [http.Error] writes the message and a newline. *)
Definition http_Error (msg : string) (code : Z) : Response :=
  mkResponse code (inr (string_bytes (msg ++ newline)%string)).

(** ** Interfaces *)

(** [proto.Marshal]/[proto.Unmarshal] of GetResponse and SetRequest and
    [json.Marshal]/[json.Unmarshal] of RemoveKeysRequest, on the contents of
    the messages: a bytes field is absent or a list of bytes. *)
Abbreviation wire_GetResponse := (option (list byte) * option Z)%type.
Abbreviation wire_SetRequest := (option string * option string * option (list byte) * option Z)%type.

Class Wire := {
  enc_GetResponse : wire_GetResponse → error + list byte;
  dec_GetResponse : list byte → error + wire_GetResponse;
  enc_SetRequest : wire_SetRequest → error + list byte;
  dec_SetRequest : list byte → error + wire_SetRequest;
  enc_RemoveKeys : RemoveKeysRequest → error + list byte;
  dec_RemoveKeys : list byte → error + RemoveKeysRequest;
}.

(** Encoded messages decode to themselves; JSON keeps only text, so for
    RemoveKeys this holds for the keys in [json_text]. *)
Class WireLaws `{!Wire} := {
  json_text : string → Prop;
  wire_GetResponse_law x b : enc_GetResponse x = inr b → dec_GetResponse b = inr x;
  wire_SetRequest_law x b : enc_SetRequest x = inr b → dec_SetRequest b = inr x;
  wire_RemoveKeys_law r b : Forall json_text (rmreq_Keys r) →
    enc_RemoveKeys r = inr b → dec_RemoveKeys b = inr r;
}.

(** The instance behind the handler: [GetGroup] returns a [*group], possibly
    nil, and the three methods of [transportMethods]. *)
Class GroupMethods (S message : Type) := {
  tm_GetGroup : S → string → option nat;
  tm_Get : nat → string → Sink (message := message) → M S (option error * Sink (message := message));
  tm_RemoteSet : nat → string → bytes → Time → M S unit;
  tm_LocalRemove : nat → string → M S unit;
  tm_alloc : list byte → M S slice;
  tm_mem : S → Mem;
}.

Section Server.
Context {S message : Type} `{!Wire, !GroupMethods S message}.
(** [t.opts.BasePath] *)
Context (BasePath : string).

Notation Sink := (Sink (message := message)).

(** A method call on a nil [*group] panics. *)
Definition on_group {A} (g : option nat) (f : nat → M S A) : M S A :=
  match g with Some a => f a | None => panic end.

(** [for _, key := range req.Keys { group.LocalRemove(key) }] *)
Definition remove_each (g : option nat) (keys : list string) : M S unit :=
  _ ← for_each (λ key, on_group g (λ a, tm_LocalRemove (message := message) a key)) keys; mret tt.

Definition handleRemoveKeysRequest (g : option nat) (r : Request) : M S Response :=
  match Body r with
  | inl err => mret (http_Error (Error err) 500)
  | inr b =>
      match dec_RemoveKeys b with
      | inl err => mret (http_Error ("invalid request: " ++ Error err)%string 400)
      | inr req => _ ← remove_each g (rmreq_Keys req); mret ok
      end
  end.

(** The bytes field of a decoded message: a new slice, or nil. *)
Definition decoded_value (value : option (list byte)) : M S bytes :=
  match value with
  | Some l => c ← tm_alloc (message := message) l; mret (Some c)
  | None => mret None
  end.

(** The branch of [ServeHTTP] for PUT. *)
Definition servePut (g : option nat) (r : Request) : M S Response :=
  match Body r with
  | inl err => mret (http_Error (Error err) 500)
  | inr b =>
      match dec_SetRequest b with
      | inl err => mret (http_Error (Error err) 400)
      | inr (_, key, value, expire) =>
          value ← decoded_value value;
          match key with
          | None => panic
          | Some key =>
              _ ← on_group g (λ a, tm_RemoteSet (message := message) a key value (decode_expire expire));
              mret ok
          end
      end
  end.

(** What [b] holds after the sink was filled. *)
Definition sink_variable (k : Sink) : bytes :=
  match k with
  | SAllocBytesSink s => default None (as_dst s)
  | _ => None
  end.

(** The contents of a slice as the field of a message. *)
Definition field_of (m : Mem) (b : bytes) : option (list byte) :=
  match b with Some _ => Some (contents m b) | None => None end.

(** The branch for GET. *)
Definition serveGet (g : option nat) (key : string) : M S Response :=
  let value := AllocatingByteSliceSink (Some None) in
  '(err, value) ← on_group g (λ a, tm_Get a key value);
  match err with
  | Some err =>
      if errors_Is err (ErrNotFound "") then mret (http_Error (Error err) 404)
      else mret (http_Error (Error err) 503)
  | None =>
      s ← get_state;
      let expireNano := encode_expire (Expire (View value)) in
      match enc_GetResponse (field_of (tm_mem (message := message) s) (sink_variable value), Some expireNano) with
      | inl err => mret (http_Error (Error err) 500)
      | inr body => mret (mkResponse 200 (inr body))
      end
  end.

(** The handler; [registered] tells whether an instance was registered.  The
    test [group == nil] of the source is never true: [GetGroup] returns an
    interface that holds a pointer, even when that pointer is nil. *)
Definition ServeHTTP (registered : bool) (r : Request) : M S Response :=
  if negb registered then panic else
  match strip_prefix BasePath (URL_Path r) with
  | None => panic
  | Some rest =>
      match cut_slash rest with
      | None => mret (http_Error "bad request" 400)
      | Some (groupName, key) =>
          s ← get_state;
          let g := tm_GetGroup (message := message) s groupName in
          if bool_decide (Method r = "DELETE") then
            _ ← on_group g (λ a, tm_LocalRemove (message := message) a key); mret ok
          else if bool_decide (Method r = "PUT") then servePut g r
          else if bool_decide (Method r = "POST") then
            match strip_prefix "_remove-keys/" key with
            | Some _ => handleRemoveKeysRequest g r
            | None => mret (http_Error "invalid path for POST method" 404)
            end
          else if negb (bool_decide (Method r = "GET")) then
            mret (http_Error "Only GET, DELETE, PUT, POST are supported" 405)
          else serveGet g key
      end
  end.

End Server.

(** ** The client *)

(** [h.client.Do]: sends a request with an encoded path to an address. *)
Class Network (N : Type) := {
  net_Do : string → string → string → option (list byte) → M N (error + Response);
}.

(** [HttpClient]: the address and the path of the endpoint. *)
Record HttpClient := mkHttpClient { hc_info : Info; hc_base : string }.

#[export] Instance HttpClient_Client : Client HttpClient := {|
  PeerInfo h := hc_info h;
  HashKey h := Address (hc_info h);
|}.

(** [HttpTransport.NewClient]; [base] is the transport's BasePath. *)
Definition NewClient (base : string) (p : Info) : HttpClient := mkHttpClient p base.

Section HttpClient.
Context {N : Type} `{!Network N, !Wire}.

Definition request_path (h : HttpClient) (group key : string) : string :=
  (hc_base h ++ PathEscape group ++ "/" ++ PathEscape key)%string.

Definition makeRequest (h : HttpClient) (m group key : string) (b : option (list byte))
    : M N (error + Response) :=
  net_Do (Address (hc_info h)) m (request_path h group key) b.

Definition makeRemoveKeysRequest (h : HttpClient) (method group path : string) (body : option (list byte))
    : M N (error + Response) :=
  net_Do (Address (hc_info h)) method (hc_base h ++ PathEscape group ++ "/" ++ path)%string body.

(** [io.ReadAll] with the error ignored: what was read before it is not
    modelled, only that nothing follows. *)
Definition read_body (r : Response) : list byte := match res_Body r with inr b => b | inl _ => [] end.

Definition error_limit : nat := (1024 * 1024)%nat.

(** [Get]: the error, and the message decoded into [out]. *)
Definition HttpClient_Get (h : HttpClient) (r : GetRequest) : M N (error + wire_GetResponse) :=
  x ← makeRequest h "GET" (GetRequest_GetGroup r) (GetRequest_GetKey r) None;
  match x with
  | inl err => mret (inl err)
  | inr res =>
      if negb (bool_decide (StatusCode res = 200)) then
        let msg := bytes_string (take error_limit (read_body res)) in
        if bool_decide (StatusCode res = 404) then mret (inl (ErrNotFound (Trim msg)))
        else if bool_decide (StatusCode res = 503) then mret (inl (ErrRemoteCall (Trim msg)))
        else mret (inl (ErrorString
          ("server returned: " ++ Itoa (StatusCode res) ++ " " ++ StatusText (StatusCode res) ++ ", " ++ msg)%string))
      else
        match res_Body res with
        | inl err => mret (inl (WrapError ("reading response body: " ++ Error err)%string err))
        | inr b =>
            match dec_GetResponse b with
            | inl err => mret (inl (WrapError ("decoding response body: " ++ Error err)%string err))
            | inr out => mret (inr out)
            end
        end
  end.

(** The error of the other operations for a status other than 200. *)
Definition status_error (res : Response) : error :=
  match res_Body res with
  | inl _ => ErrorString ("while reading body response: " ++ Itoa (StatusCode res) ++ " " ++ StatusText (StatusCode res))%string
  | inr b => ErrorString ("server returned status " ++ Itoa (StatusCode res) ++ ": " ++ bytes_string b)%string
  end.

Definition check_status (x : error + Response) (on_error : Response → error) : option error :=
  match x with
  | inl err => Some err
  | inr res => if bool_decide (StatusCode res = 200) then None else Some (on_error res)
  end.

Definition HttpClient_Set (h : HttpClient) (r : wire_SetRequest) : M N (option error) :=
  match enc_SetRequest r with
  | inl err => mret (Some (WrapError ("while marshaling SetRequest body: " ++ Error err)%string err))
  | inr body =>
      let '(group, key, _, _) := r in
      x ← makeRequest h "PUT" (default "" group) (default "" key) (Some body);
      mret (check_status x status_error)
  end.

Definition HttpClient_Remove (h : HttpClient) (r : GetRequest) : M N (option error) :=
  x ← makeRequest h "DELETE" (GetRequest_GetGroup r) (GetRequest_GetKey r) None;
  mret (check_status x status_error).

Definition HttpClient_RemoveKeys (h : HttpClient) (r : RemoveKeysRequest) : M N (option error) :=
  match enc_RemoveKeys r with
  | inl err => mret (Some (WrapError ("while marshaling RemoveKeysRequest body: " ++ Error err)%string err))
  | inr body =>
      x ← makeRemoveKeysRequest h "POST" (RemoveKeysRequest_GetGroup r) "_remove-keys/" (Some body);
      mret (check_status x (λ res, ErrorString
        ("server returned status " ++ Itoa (StatusCode res) ++ ": " ++ bytes_string (read_body res))%string))
  end.

End HttpClient.

(** ** A client connected to a handler

    The network delivers requests and responses unchanged.  [ListenAndServe]
    puts the handler behind an [http.ServeMux]; [http.Client] follows at most
    10 redirects of the mux, and a redirected request of any method becomes a
    GET without a body.  net/http recovers a panic of the handler and closes
    the connection. *)
Section Connect.
Context {S message : Type} `{!Wire, !GroupMethods S message}.
Context (base : string).

Definition handle (method path : string) (body : option (list byte)) : M S (error + Response) := λ s,
  match unescape path with
  | None => (Val (inl (ErrorString "invalid URL escape")), s)
  | Some p =>
      match ServeHTTP (message := message) base true (mkRequest method p (inr (default [] body))) s with
      | (Val r, s') => (Val (inr r), s')
      | (Panicked, s') => (Val (inl EOF), s')
      | (Diverged, s') => (Diverged, s')
      end
  end.

Fixpoint follow (redirects : nat) (method path : string) (body : option (list byte)) : M S (error + Response) :=
  match mux base path with
  | ToHandler => handle method path body
  | ToNotFound => mret (inr (http_Error "404 page not found" 404))
  | Redirect location =>
      match redirects with
      | O => mret (inl (ErrorString "stopped after 10 redirects"))
      | Datatypes.S redirects => follow redirects "GET" location None
      end
  end.

Definition connected : Network S := {| net_Do _ method path body := follow 10 method path body |}.

End Connect.

(** ** Routing *)

(** The handler finds the group and the key the client put into the path. *)
Definition route (base path : string) : option (string * string) :=
  match mux base path with
  | ToHandler => p ← unescape path; rest ← strip_prefix base p; cut_slash rest
  | _ => None
  end.

Lemma decoded_path base group rest p :
  no_char percent base → unescape rest = Some p →
  unescape (base ++ PathEscape group ++ "/" ++ rest)%string = Some (base ++ group ++ "/" ++ p)%string.
Proof.
  intros Hb Hr. rewrite unescape_plain_app by done. rewrite unescape_PathEscape_app.
  change ("/" ++ rest)%string with (String slash rest). simpl. by rewrite Hr.
Qed.

Section Connected.
Context {S message : Type} `{!Wire, !WireLaws, !GroupMethods S message}.
(** The base path that the transports use: slashes around plain segments. *)
Context (base : string) (Hbase : no_char percent base) (Hclean : clean_base base).
#[local] Instance connected_network : Network S := connected (message := message) base.

Implicit Types (s : S) (h : HttpClient) (g key : string).

Lemma net_Do_handle a method path body s :
  mux base path = ToHandler →
  net_Do a method path body s = handle (message := message) base method path body s.
Proof. intros Hm. cbn [net_Do connected_network connected follow]. by rewrite Hm. Qed.

Lemma makeRequest_connected h m g key b s :
  hc_base h = base → plain_segment g → ¬ dotted key →
  makeRequest h m g key b s =
    match ServeHTTP (message := message) base true
            (mkRequest m (base ++ g ++ "/" ++ key)%string (inr (default [] b))) s with
    | (Val r, s') => (Val (inr r), s')
    | (Panicked, s') => (Val (inl EOF), s')
    | (Diverged, s') => (Diverged, s')
    end.
Proof.
  intros Hh (_ & ? & ?) Hk. unfold makeRequest, request_path. rewrite Hh, net_Do_handle by (by apply mux_key).
  unfold handle. by rewrite (decoded_path _ _ _ key) by (done || apply unescape_PathEscape).
Qed.

(** The handler past the parsing of the path. *)
Lemma ServeHTTP_routed m g key b s :
  plain_segment g →
  ServeHTTP (message := message) base true (mkRequest m (base ++ g ++ "/" ++ key)%string b) s =
  (let gp := tm_GetGroup (message := message) s g in
   if bool_decide (m = "DELETE") then
     _ ← on_group gp (λ a, tm_LocalRemove (message := message) a key); mret ok
   else if bool_decide (m = "PUT") then servePut (message := message) gp (mkRequest m (base ++ g ++ "/" ++ key)%string b)
   else if bool_decide (m = "POST") then
     match strip_prefix "_remove-keys/" key with
     | Some _ => handleRemoveKeysRequest (message := message) gp (mkRequest m (base ++ g ++ "/" ++ key)%string b)
     | None => mret (http_Error "invalid path for POST method" 404)
     end
   else if negb (bool_decide (m = "GET")) then
     mret (http_Error "Only GET, DELETE, PUT, POST are supported" 405)
   else serveGet (message := message) gp key) s.
Proof.
  intros [Hg _]. unfold ServeHTTP. cbn [negb URL_Path Method]. rewrite strip_prefix_app.
  change ("/" ++ key)%string with (String slash key). by rewrite cut_slash_app.
Qed.

Definition is_inr {A B} (x : A + B) : Prop := match x with inr _ => True | inl _ => False end.

(** What the client makes of the error of the remote [Get]. *)
Definition remote_error (err : error) : error :=
  if errors_Is err (ErrNotFound "") then ErrNotFound (Trim (Error err)) else ErrRemoteCall (Trim (Error err)).

Lemma error_body err :
  (String.length (Error err) < error_limit)%nat →
  Trim (bytes_string (take error_limit (string_bytes (Error err ++ newline)%string))) = Trim (Error err).
Proof.
  intros Hlen. rewrite take_ge.
  - rewrite bytes_string_bytes. apply Trim_newline.
  - rewrite length_string_bytes, length_string_app. simpl. lia.
Qed.

(** ** The requests of a connected client *)

Lemma HttpClient_Get_connected h g key a err value s s'
  (Hh : hc_base h = base) (Hg : plain_segment g) (Hkey : ¬ dotted key)
  (Hgroup : tm_GetGroup (message := message) s g = Some a)
  (Hget : tm_Get a key (AllocatingByteSliceSink (Some None)) s = (Val (err, value), s'))
  (Henc : ∀ x, is_inr (enc_GetResponse x))
  (Hlen : ∀ e, err = Some e → (String.length (Error e) < error_limit)%nat) :
  HttpClient_Get h (mkGetRequest (Some g) (Some key)) s =
    (Val match err with
         | Some e => inl (remote_error e)
         | None => inr (field_of (tm_mem (message := message) s') (sink_variable value),
                        Some (encode_expire (Expire (View value))))
         end, s').
Proof.
  unfold HttpClient_Get. cbn [GetRequest_GetGroup GetRequest_GetKey getreq_Group getreq_Key default].
  assert (∀ r, serveGet (message := message) (Some a) key s = (Val r, s') →
    makeRequest h "GET" g key None s = (Val (inr r), s')) as Hreq.
  { intros r Hr. rewrite makeRequest_connected, ServeHTTP_routed by done. cbv zeta. rewrite Hgroup.
    rewrite !bool_decide_false by done. rewrite bool_decide_true by done. cbn [negb]. by rewrite Hr. }
  unfold serveGet in Hreq. unfold on_group in Hreq. cbv zeta in Hreq.
  destruct err as [e|].
  - specialize (Hlen e eq_refl).
    assert (makeRequest h "GET" g key None s
      = (Val (inr (http_Error (Error e) (if errors_Is e (ErrNotFound "") then 404 else 503))), s')) as Hr.
    { apply Hreq. mstep Hget. cbv beta iota. by destruct (errors_Is e _). }
    mstep Hr. unfold remote_error.
    unfold http_Error, read_body.
    destruct (errors_Is e (ErrNotFound "")); cbn [StatusCode res_Body bool_decide];
      rewrite error_body by done; reflexivity.
  - specialize (Henc (field_of (tm_mem (message := message) s') (sink_variable value),
      Some (encode_expire (Expire (View value))))).
    destruct (enc_GetResponse _) as [?|body] eqn:Hb; [by destruct Henc|].
    assert (makeRequest h "GET" g key None s = (Val (inr (mkResponse 200 (inr body))), s')) as Hr.
    { apply Hreq. mstep Hget. cbv beta iota. mstep.
      cbv beta zeta. by rewrite Hb. }
    mstep Hr. simpl. by rewrite (wire_GetResponse_law _ _ Hb).
Qed.

Lemma HttpClient_Set_connected h g a s s1 key value e :
  hc_base h = base → plain_segment g → ¬ dotted key → tm_GetGroup (message := message) s g = Some a →
  is_inr (enc_SetRequest (Some g, Some key, value, e)) →
  (v ← decoded_value (message := message) value;
   tm_RemoteSet (message := message) a key v (decode_expire e)) s = (Val tt, s1) →
  HttpClient_Set h (Some g, Some key, value, e) s = (Val None, s1).
Proof.
  intros Hh Hg Hkey Hgroup Henc Hset.
  unfold HttpClient_Set. destruct (enc_SetRequest _) as [?|body] eqn:Hb; [by destruct Henc|].
  assert (servePut (message := message) (Some a) (mkRequest "PUT" (base ++ g ++ "/" ++ key)%string (inr body)) s
    = (Val ok, s1)) as Hp.
  { unfold servePut. cbn [Body]. rewrite (wire_SetRequest_law _ _ Hb). cbv beta iota.
    unfold mbind, M_bind, mret, M_ret in Hset |- *.
    destruct (decoded_value value s) as [[v| |] sx]; try done. cbn in Hset |- *.
    by rewrite Hset. }
  assert (makeRequest h "PUT" g key (Some body) s = (Val (inr ok), s1)) as Hr.
  { rewrite makeRequest_connected, ServeHTTP_routed by done. cbv zeta. rewrite Hgroup.
    rewrite bool_decide_false by done. rewrite bool_decide_true by done.
    change (default [] (Some body)) with body. by rewrite Hp. }
  by mstep Hr.
Qed.

Lemma HttpClient_Remove_connected h g a s s2 key :
  hc_base h = base → plain_segment g → ¬ dotted key → tm_GetGroup (message := message) s g = Some a →
  tm_LocalRemove (message := message) a key s = (Val tt, s2) →
  HttpClient_Remove h (mkGetRequest (Some g) (Some key)) s = (Val None, s2).
Proof.
  intros Hh Hg Hkey Hgroup Hremove.
  unfold HttpClient_Remove. cbn [GetRequest_GetGroup GetRequest_GetKey getreq_Group getreq_Key default].
  assert (makeRequest h "DELETE" g key None s = (Val (inr ok), s2)) as Hr.
  { rewrite makeRequest_connected, ServeHTTP_routed by done. cbv zeta. rewrite Hgroup.
    rewrite bool_decide_true by done. cbn [on_group]. by mstep Hremove. }
  by mstep Hr.
Qed.

(** ** Theorems *)

(** The path a client sends is routed to the group and key it was made
    from: the mux leaves it alone, and escaping, the decoding by the server
    and the split at the first slash invert each other, for every key but "."
    and ".." and every group name that is one plain path segment. *)
Theorem http_path_roundtrip h g key
  (Hh : hc_base h = base) (Hg : plain_segment g) (Hkey : ¬ dotted key) :
  route base (request_path h g key) = Some (g, key).
Proof.
  unfold route, request_path. rewrite Hh, mux_key by (done || apply Hg).
  rewrite (decoded_path _ _ _ key) by (done || apply unescape_PathEscape). simpl.
  rewrite strip_prefix_app. simpl. change ("/" ++ key)%string with (String slash key).
  by apply cut_slash_app, Hg.
Qed.

(** C20: a [Get] through the HTTP client behaves as the remote group's [Get]: on
    success it returns exactly the bytes and the encoded expiry that the
    remote sink received; a not-found error comes back as a not-found error
    and every other error as a remote-call error, with the same text (up to
    surrounding newlines). *)
Theorem http_Get_transparent h g key a err value s s'
  (Hh : hc_base h = base) (Hg : plain_segment g) (Hkey : ¬ dotted key)
  (Hgroup : tm_GetGroup (message := message) s g = Some a)
  (Hget : tm_Get a key (AllocatingByteSliceSink (Some None)) s = (Val (err, value), s'))
  (Henc : ∀ x, is_inr (enc_GetResponse x))
  (Hlen : ∀ e, err = Some e → (String.length (Error e) < error_limit)%nat) :
  HttpClient_Get h (mkGetRequest (Some g) (Some key)) s =
    (Val match err with
         | Some e => inl (remote_error e)
         | None => inr (field_of (tm_mem (message := message) s') (sink_variable value),
                        Some (encode_expire (Expire (View value))))
         end, s').
Proof. by eapply HttpClient_Get_connected. Qed.

(** C21: writes through the HTTP client act on the remote group as direct calls:
    [Set] is [RemoteSet] with a fresh copy of the value and the decoded
    expiry, [Remove] is [LocalRemove], and [RemoveKeys] is [LocalRemove] of
    each key. *)
Theorem http_writes_transparent h g a s s1 s2 s3 key keys l e c us
  (Hh : hc_base h = base) (Hg : plain_segment g) (Hkey : ¬ dotted key)
  (Hgroup : tm_GetGroup (message := message) s g = Some a)
  (Henc1 : is_inr (enc_SetRequest (Some g, Some key, Some l, Some e)))
  (Henc2 : is_inr (enc_RemoveKeys (mkRemoveKeysRequest (Some g) keys)))
  (Htext : Forall json_text keys)
  (Hset : (c' ← tm_alloc (message := message) l;
           _ ← tm_RemoteSet (message := message) a key (Some c') (decode_expire (Some e)); mret c') s
          = (Val c, s1))
  (Hremove : tm_LocalRemove (message := message) a key s = (Val tt, s2))
  (Hkeys : for_each (tm_LocalRemove (message := message) a) keys s = (Val us, s3)) :
  HttpClient_Set h (Some g, Some key, Some l, Some e) s = (Val None, s1) ∧
  HttpClient_Remove h (mkGetRequest (Some g) (Some key)) s = (Val None, s2) ∧
  HttpClient_RemoveKeys h (mkRemoveKeysRequest (Some g) keys) s = (Val None, s3).
Proof.
  split_and!.
  - eapply HttpClient_Set_connected; [done..|]. simpl. rewrite M_bind_assoc.
    unfold mbind, M_bind, mret, M_ret in Hset |- *.
    destruct (tm_alloc l s) as [[c'| |] sx]; try done. cbn in Hset |- *.
    destruct (tm_RemoteSet a key (Some c') _ sx) as [[[]| |] sy]; try done. by simplify_eq.
  - by eapply HttpClient_Remove_connected.
  - unfold HttpClient_RemoveKeys. destruct (enc_RemoveKeys _) as [?|body] eqn:Hb; [by destruct Henc2|].
    cbn [RemoveKeysRequest_GetGroup rmreq_Group default].
    assert (makeRemoveKeysRequest h "POST" g "_remove-keys/" (Some body) s = (Val (inr ok), s3)) as Hr.
    { unfold makeRemoveKeysRequest. rewrite Hh, net_Do_handle.
      2: { apply (mux_below _ _ "_remove-keys"); [done|apply Hg..|by apply (bool_decide_unpack _)]. }
      unfold handle.
      rewrite (decoded_path _ _ _ "_remove-keys/") by done.
      rewrite ServeHTTP_routed by done. cbv zeta. rewrite Hgroup.
      do 2 rewrite bool_decide_false by done. rewrite bool_decide_true by done.
      unfold handleRemoveKeysRequest. cbn [Body strip_prefix Ascii.eqb Bool.eqb].
      change (default [] (Some body)) with body.
      rewrite (wire_RemoveKeys_law (mkRemoveKeysRequest (Some g) keys) body Htext Hb). cbn [rmreq_Keys]. unfold remove_each, on_group.
      rewrite M_bind_assoc. by mstep Hkeys. }
    by mstep Hr.
Qed.

(** C36: a request for a group the instance does not have is never answered with
    404 "no such group": the handler panics (a method call on a nil group),
    and the client sees a broken connection. *)
Theorem http_unknown_group_panics h g key s
  (Hh : hc_base h = base) (Hg : plain_segment g) (Hkey : ¬ dotted key)
  (Hgroup : tm_GetGroup (message := message) s g = None) :
  (ServeHTTP (message := message) base true (mkRequest "GET" (base ++ g ++ "/" ++ key)%string (inr [])) s).1
    = Panicked ∧
  HttpClient_Get h (mkGetRequest (Some g) (Some key)) s = (Val (inl EOF), s) ∧
  HttpClient_Remove h (mkGetRequest (Some g) (Some key)) s = (Val (Some EOF), s).
Proof.
  assert (serveGet (message := message) None key s = (Panicked, s)) as Hpan by done.
  split_and!.
  - rewrite ServeHTTP_routed by done. cbv zeta. rewrite Hgroup.
    do 3 rewrite bool_decide_false by done. rewrite bool_decide_true by done. cbn [negb]. by rewrite Hpan.
  - unfold HttpClient_Get. cbn [GetRequest_GetGroup GetRequest_GetKey getreq_Group getreq_Key default].
    assert (makeRequest h "GET" g key None s = (Val (inl EOF), s)) as Hr.
    { rewrite makeRequest_connected, ServeHTTP_routed by done. cbv zeta. rewrite Hgroup.
    do 3 rewrite bool_decide_false by done. rewrite bool_decide_true by done. cbn [negb]. by rewrite Hpan. }
    by mstep Hr.
  - unfold HttpClient_Remove. cbn [GetRequest_GetGroup GetRequest_GetKey getreq_Group getreq_Key default].
    assert (makeRequest h "DELETE" g key None s = (Val (inl EOF), s)) as Hr.
    { rewrite makeRequest_connected, ServeHTTP_routed by done. cbv zeta. by rewrite Hgroup. }
    by mstep Hr.
Qed.

End Connected.

(** ** Keys and base paths that do not work *)

Section Misrouted.
Context {S message : Type} `{!Wire, !GroupMethods S message}.
Context (base : string) (Hbase : path_String base = base) (Hclean : clean_base base).
#[local] Instance misrouted_network : Network S := connected (message := message) base.

Implicit Types (s : S) (h : HttpClient) (g key : string).

(** A path without a key, as it is or escaped once more, is a bad request. *)
Lemma handle_no_key rest s :
  no_char slash rest →
  handle (message := message) base "GET" (base ++ path_String rest)%string None s
    = (Val (inr (http_Error "bad request" 400)), s).
Proof.
  intros Hr. assert (unescape (base ++ path_String rest) = Some (base ++ rest)%string) as Hu.
  { rewrite <-Hbase at 1. rewrite <-path_String_app. apply unescape_path_String. }
  unfold handle. rewrite Hu. unfold ServeHTTP. cbn [negb URL_Path].
  by rewrite strip_prefix_app, cut_slash_None.
Qed.

Lemma makeRequest_dotted h m g key b s :
  hc_base h = base → plain_segment g → dotted key →
  makeRequest h m g key b s = (Val (inr (http_Error "bad request" 400)), s).
Proof.
  intros Hh Hg [->| ->]; unfold makeRequest, request_path; rewrite Hh;
    cbn [net_Do misrouted_network connected follow];
    pose proof (PathEscape_plain g (proj1 (proj2 Hg)) (proj2 (proj2 Hg))) as Hp.
  - change (PathEscape ".") with ".". rewrite mux_dot by done.
    rewrite path_String_app, Hbase, mux_group by (done || by apply path_String_plain).
    by apply handle_no_key, Hp.
  - change (PathEscape "..") with "..". rewrite mux_dotdot by done.
    rewrite Hbase, mux_base by done. rewrite <-(string_app_nil_r base) at 2. by apply (handle_no_key "").
Qed.

(** the keys "." and ".." cannot be reached over HTTP: escaping leaves them
    alone, the mux of the peer cleans them out of the path, and the client
    follows the redirect with a GET.  Whatever the operation, the peer's group
    is not called; the client gets "bad request". *)
Theorem http_dotted_key_unreachable h g key s v e
  (Hh : hc_base h = base) (Hg : plain_segment g) (Hkey : dotted key)
  (Henc : is_inr (enc_SetRequest (Some g, Some key, v, e))) :
  let refused := ErrorString ("server returned status 400: bad request" ++ newline)%string in
  HttpClient_Set h (Some g, Some key, v, e) s = (Val (Some refused), s) ∧
  HttpClient_Remove h (mkGetRequest (Some g) (Some key)) s = (Val (Some refused), s) ∧
  HttpClient_Get h (mkGetRequest (Some g) (Some key)) s
    = (Val (inl (ErrorString ("server returned: 400 Bad Request, bad request" ++ newline)%string)), s).
Proof.
  split_and!.
  - unfold HttpClient_Set. destruct (enc_SetRequest _) as [?|body]; [done|].
    mstep (makeRequest_dotted h "PUT" g key (Some body) s Hh Hg Hkey). reflexivity.
  - unfold HttpClient_Remove. mstep (makeRequest_dotted h "DELETE" g key None s Hh Hg Hkey). reflexivity.
  - unfold HttpClient_Get. mstep (makeRequest_dotted h "GET" g key None s Hh Hg Hkey). reflexivity.
Qed.

End Misrouted.

(** A group name with a slash is routed to another group. *)
Example http_path_slash :
  route "/_groupcache/" (request_path (mkHttpClient (mkInfo "a" false) "/_groupcache/") "a/b" "k")
  = Some ("a", "b/k").
Proof. reflexivity. Qed.

(** ** Witnesses *)

(** An encoding of any countable type into bytes, one per bit. *)
Fixpoint positive_bytes (p : positive) : list byte :=
  match p with
  | xH => []
  | xO p => x00 :: positive_bytes p
  | xI p => x01 :: positive_bytes p
  end.
Fixpoint bytes_positive (l : list byte) : positive :=
  match l with
  | [] => xH
  | x00 :: l => xO (bytes_positive l)
  | _ :: l => xI (bytes_positive l)
  end.

Lemma bytes_positive_bytes p : bytes_positive (positive_bytes p) = p.
Proof. induction p as [p IH|p IH|]; simpl; by rewrite ?IH. Qed.

#[local] Instance byte_countable : Countable byte := inj_countable Byte.to_N Byte.of_N Byte.of_to_N.

Definition enc {A} `{Countable A} (x : A) : error + list byte := inr (positive_bytes (encode x)).
Definition dec {A} `{Countable A} (l : list byte) : error + A :=
  match decode (bytes_positive l) with
  | Some x => inr x
  | None => inl (ErrorString "bad message")
  end.

Lemma dec_enc {A} `{Countable A} (x : A) b : enc x = inr b → dec b = inr x.
Proof. intros [= <-]. unfold dec. by rewrite bytes_positive_bytes, decode_encode. Qed.

#[export] Instance sample_wire : Wire := {|
  enc_GetResponse := enc; dec_GetResponse := dec;
  enc_SetRequest := enc; dec_SetRequest := dec;
  enc_RemoveKeys r := enc (rmreq_Group r, rmreq_Keys r);
  dec_RemoveKeys b :=
    match dec b with inr (g, ks) => inr (mkRemoveKeysRequest g ks) | inl err => inl err end;
|}.

#[export] Program Instance sample_wire_laws : WireLaws := {| json_text _ := True |}.
Next Obligation. intros. by apply dec_enc. Qed.
Next Obligation. intros. by apply dec_enc. Qed.
Next Obligation. intros [g ks] b _ Hb. simpl in *. by rewrite (dec_enc _ _ Hb). Qed.

(** An instance with the group "g", whose getter returns the key. *)
#[export] Instance sample_methods : GroupMethods Mem (list byte) := {|
  tm_GetGroup _ g := if bool_decide (g = "g") then Some 0%nat else None;
  tm_Get _ key k := '(k, err) ← SetString k key 5; mret (err, k);
  tm_RemoteSet _ _ _ _ := mret tt;
  tm_LocalRemove _ _ := mret tt;
  tm_alloc := alloc;
  tm_mem m := m;
|}.

Definition sample_client : HttpClient := NewClient "/_groupcache/" (mkInfo "b" false).

Lemma base_ok : no_char percent "/_groupcache/".
Proof. by repeat split. Qed.

Lemma base_clean : clean_base "/_groupcache/".
Proof.
  exists ["_groupcache"]. split; [|done]. apply Forall_singleton. by apply (bool_decide_unpack _).
Qed.

Lemma g_ok : plain_segment "g".
Proof. by apply (bool_decide_unpack _). Qed.

Lemma k_ok : ¬ dotted "k".
Proof. by apply (bool_decide_unpack _). Qed.

Lemma http_path_roundtrip_witness :
  route "/_groupcache/" (request_path sample_client "g" "a/b c%?") = Some ("g", "a/b c%?").
Proof.
  apply (http_path_roundtrip "/_groupcache/" base_ok base_clean);
    [reflexivity|apply g_ok|by apply (bool_decide_unpack _)].
Defined.

Lemma http_Get_transparent_witness :
  ∃ r s', HttpClient_Get (Network0 := connected (message := list byte) "/_groupcache/") sample_client
      (mkGetRequest (Some "g") (Some "k")) [] = (Val (inr r), s') ∧
    r = (Some (string_bytes "k"), Some 5).
Proof.
  eexists _, _. split.
  - eapply (http_Get_transparent (message := list byte) "/_groupcache/" base_ok base_clean sample_client "g" "k" 0 None);
      [reflexivity|apply g_ok|apply k_ok|reflexivity|reflexivity|done|done].
  - reflexivity.
Defined.

Lemma http_writes_transparent_witness :
  ∃ s1, HttpClient_Set (Network0 := connected (message := list byte) "/_groupcache/") sample_client
      (Some "g", Some "k", Some [x01], Some 7) [] = (Val None, s1).
Proof.
  epose proof (http_writes_transparent (message := list byte) "/_groupcache/" base_ok base_clean
    sample_client "g" 0 [] _ _ _ "k" ["k"; "l"] [x01] 7 _ _ eq_refl g_ok k_ok eq_refl I I
    ltac:(by repeat constructor) eq_refl eq_refl eq_refl) as [Hset _].
  eexists. exact Hset.
Defined.

Lemma http_unknown_group_panics_witness :
  HttpClient_Get (Network0 := connected (message := list byte) "/_groupcache/") sample_client
    (mkGetRequest (Some "h") (Some "k")) [] = (Val (inl EOF), []).
Proof.
  apply (http_unknown_group_panics (message := list byte) "/_groupcache/" base_ok base_clean sample_client "h" "k" []);
    [reflexivity|by apply (bool_decide_unpack _)|apply k_ok|reflexivity].
Defined.

Lemma http_dotted_key_unreachable_witness :
  HttpClient_Remove (Network0 := connected (message := list byte) "/_groupcache/") sample_client
    (mkGetRequest (Some "g") (Some "..")) []
  = (Val (Some (ErrorString ("server returned status 400: bad request" ++ newline)%string)), []).
Proof.
  apply (http_dotted_key_unreachable (message := list byte) "/_groupcache/" eq_refl base_clean sample_client
    "g" ".." [] None None); [reflexivity|apply g_ok|by right|exact I].
Defined.
