(* ===== verification/HttpCluster.v ===== *)
(** * A cluster of groups that talk HTTP

    The composition of the parts: this instance runs the operations of
    Group.v, its peers are the HTTP clients of Http.v, the network delivers
    their requests to the handlers of the other nodes, and those act on the
    nodes' own groups.  The other nodes may have any environment of their own
    (peers, getter, clock).  The theorems state what a write leaves behind on
    every node of the cluster. *)

From S2P Require Import Prelude Errors Slices ByteView Sinks Picker MutexCache CacheIface Pb Group Recorder GroupCorrect GroupTargets Metrics Instance Md5 Url Http.

(** ** Clients *)

#[export] Instance HttpClient_eq_dec : EqDecision HttpClient.
Proof. solve_decision. Defined.

#[export] Program Instance HttpClient_countable : Countable HttpClient :=
  inj_countable' (λ h, (Address (hc_info h), IsSelf (hc_info h), hc_base h))
    (λ '(a, b, base), mkHttpClient (mkInfo a b) base) _.
Next Obligation. by intros [[]]. Qed.

#[export] Instance PeerClient_eq_dec {R} `{!EqDecision R} : EqDecision (PeerClient R).
Proof. solve_decision. Defined.

#[export] Program Instance PeerClient_countable {R} `{Countable R} : Countable (PeerClient R) :=
  inj_countable' (λ c, match c with SelfClient c => inl c | RemoteClient c => inr c end)
    (λ x, match x with inl c => SelfClient c | inr c => RemoteClient c end) _.
Next Obligation. by intros R ?? []. Qed.

Section HttpCluster.
Context {K Cr Wn X message : Type} `{!Cache K, !CacheLaws K, !Proto message, !Wire, !WireLaws}.
Context `{!SortSlice, !GoOrder}.
(** The other nodes' environment. *)
Context `{!Client Cr, !Peer Cr Wn, !Env K Cr Wn message}.
(** The base path of all nodes. *)
Context (base : string) (Hbase : no_char percent base) (Hclean : clean_base base).

Notation Sink := (Sink (message := message)).

(** ** The other nodes *)

(** A node with one group. *)
Abbreviation node := (state K Wn).

(** The handler's view of a node. *)
#[local] Instance node_methods : GroupMethods node message := {|
  tm_GetGroup n name' := if bool_decide (name (st_g n) = name') then Some 0%nat else None;
  tm_Get _ key k := '(err, k') ← Group.Get (C := Cr) key (Some k); mret (err, default k k');
  tm_RemoteSet _ key value expire := RemoteSet key value expire;
  tm_LocalRemove _ key := LocalRemove key;
  tm_alloc l := on_mem (alloc l);
  tm_mem n := st_mem n;
|}.

(** The nodes by address, and what else this instance uses of the world. *)
Abbreviation world := (gmap string node * X)%type.

Definition refused_connection : error := ErrorString "connection refused".

#[local] Instance world_network : Network world := {|
  net_Do a method path body := λ '(nodes, x),
    match nodes !! a with
    | None => (Val (inl refused_connection), (nodes, x))
    | Some n =>
        let '(r, n) := net_Do (Network := connected (message := message) base) a method path body n in
        (r, (<[a := n]> nodes, x))
    end;
|}.

(** The requests of [HttpClient] as a peer: the bytes of a value travel in the
    message, and the answer is decoded into a new slice. *)
#[local] Instance http_peer : Peer HttpClient world := {|
  client_Get h r := λ '(m, w),
    match HttpClient_Get h r w with
    | (Val (inl err), w) => (Val (Some err, empty_GetResponse), (m, w))
    | (Val (inr (value, expire)), w) =>
        match marshalled value m with
        | (Val b, m) => (Val (None, mkGetResponse b expire), (m, w))
        | (Panicked, m) => (Panicked, (m, w))
        | (Diverged, m) => (Diverged, (m, w))
        end
    | (Panicked, w) => (Panicked, (m, w))
    | (Diverged, w) => (Diverged, (m, w))
    end;
  client_Set h r := λ '(m, w),
    let '(x, w) := HttpClient_Set h
      (setreq_Group r, setreq_Key r, field_of m (setreq_Value r), setreq_Expire r) w in (x, (m, w));
  client_Remove h r := λ '(m, w), let '(x, w) := HttpClient_Remove h r w in (x, (m, w));
  client_RemoveKeys h r := λ '(m, w), let '(x, w) := HttpClient_RemoveKeys h r w in (x, (m, w));
|}.

(** ** This instance *)

Abbreviation client := (PeerClient HttpClient).

Context `{!MapRange string client, !MapRange client (list string)}.
Context `{!Env K client world message}.

Notation St := (state K world).
Notation inst := (inst (K := K) (C := client) (W := world) (message := message)).
Notation instance_PickPeer := (instance_PickPeer (K := K) (C := client) (W := world) (message := message)).
Notation Set_ := (Set_ (K := K) (C := client) (W := world) (message := message)).
Notation Remove := (Remove (K := K) (C := client) (W := world) (message := message)).
Notation cluster := (cluster (K := K) (C := client) (W := world) (message := message)).

Implicit Types (s : St) (n : node) (key : string) (c : client) (h : HttpClient) (nodes : gmap string node).

(** A request of a client is the request of the same client connected to the
    node's handler. *)
Lemma HttpClient_Set_at h r nodes x n :
  nodes !! Address (hc_info h) = Some n →
  HttpClient_Set h r (nodes, x) =
    let '(e, n') := HttpClient_Set (Network0 := connected (message := message) base) h r n in
    (e, (<[Address (hc_info h) := n']> nodes, x)).
Proof.
  intros Hn. unfold HttpClient_Set. destruct (enc_SetRequest r) as [err|body].
  { simpl. by rewrite insert_id. }
  destruct r as [[[g k] v] e]. unfold makeRequest, mbind, M_bind. cbn [net_Do world_network]. rewrite Hn.
  by destruct (net_Do _ _ _ _ n) as [[] n'].
Qed.

Lemma HttpClient_Remove_at h r nodes x n :
  nodes !! Address (hc_info h) = Some n →
  HttpClient_Remove h r (nodes, x) =
    let '(e, n') := HttpClient_Remove (Network0 := connected (message := message) base) h r n in
    (e, (<[Address (hc_info h) := n']> nodes, x)).
Proof.
  intros Hn. unfold HttpClient_Remove, makeRequest, mbind, M_bind. cbn [net_Do world_network]. rewrite Hn.
  by destruct (net_Do _ _ _ _ n) as [[] n'].
Qed.

(** ** What a request does to a node *)

(** The group [g] with working caches. *)
Definition serving {V} (g : string) (n : state K V) : Prop :=
  name (st_g n) = g ∧ 0 < maxCacheBytes (st_g n) ∧ ∃ σm σh, rep n σm σh.

(** Of [key] the node holds nothing but the bytes [bs] with expiry [e]. *)
Definition holds_only {V} (n : state K V) key (bs : list byte) (e : Time) : Prop :=
  ∃ σm σh, rep n σm σh ∧ σh !! key = None ∧
    ∀ v, σm !! key = Some v → view_bytes (st_mem n) v = bs ∧ Expire v = e.

(** Of [key] the node holds nothing. *)
Definition holds_nothing {V} (n : state K V) key : Prop :=
  ∃ σm σh, rep n σm σh ∧ σm !! key = None ∧ σh !! key = None.

Lemma submap_delete_None (σ σ' : gmap string ByteView) key : σ' ⊆ delete key σ → σ' !! key = None.
Proof. intros Hs. eapply lookup_weaken_None; [|exact Hs]. apply lookup_delete_eq. Qed.

Lemma submap_insert_eq (σ σ' : gmap string ByteView) key v v' :
  σ' ⊆ <[key := v]> σ → σ' !! key = Some v' → v' = v.
Proof. intros Hs Hk. eapply lookup_weaken in Hk; [|exact Hs]. rewrite lookup_insert_eq in Hk. congruence. Qed.

Lemma serving_same {V} g (n n' : state K V) σm σh :
  serving g n → rep n' σm σh → same_but_caches n n' → serving g n'.
Proof. intros (? & ? & _) Hr (Hn & Hm & _). split_and!; [congruence|by rewrite Hm|eauto]. Qed.

Lemma node_set g n key value e :
  serving g n →
  ∃ n', (v ← decoded_value (message := message) value;
         tm_RemoteSet (message := message) 0 key v (decode_expire e)) n = (Val tt, n') ∧
    serving g n' ∧ holds_only n' key (default [] value) (decode_expire e).
Proof.
  intros Hs. pose proof Hs as (Hname & Hmax & σm & σh & Hr).
  assert (∃ n1 b, decoded_value (message := message) value n = (Val b, n1) ∧ rep n1 σm σh ∧
    st_g n1 = st_g n ∧ contents (st_mem n1) b = default [] value) as (n1 & b & Hd & Hr1 & Hg1 & Hc).
  { destruct value as [l|]; [|by exists n, None].
    eexists _, _. split; [by (simpl; unfold mbind, M_bind, on_mem; destruct n)|].
    simpl. split_and!; [done|done|]. simpl. rewrite array_at_app_new. by rewrite take_ge. }
  rewrite <-Hg1 in Hmax.
  destruct (RemoteSet_spec n1 σm σh key b (decode_expire e) Hr1 Hmax)
    as (n' & σm' & σh' & Hset & Hr' & Hm' & Hh' & _ & Hsame & _).
  exists n'. split; [by mstep Hd|]. split.
  - eapply serving_same; [|exact Hr'|exact Hsame]. split_and!; [congruence|done|eauto].
  - exists σm', σh'. split_and!; [done|by eapply submap_delete_None|].
    intros v Hv. rewrite (submap_insert_eq _ _ _ _ _ Hm' Hv). split; [|done].
    destruct Hsame as (_ & _ & _ & ->). unfold view_bytes, ByteViewWithExpire. simpl.
    rewrite <-Hc. by destruct b.
Qed.

Lemma node_remove g n key :
  serving g n →
  ∃ n', tm_LocalRemove (message := message) 0 key n = (Val tt, n') ∧ serving g n' ∧ holds_nothing n' key.
Proof.
  intros Hs. pose proof Hs as (Hname & Hmax & σm & σh & Hr).
  destruct (LocalRemove_spec n σm σh key Hr Hmax) as (n' & σm' & σh' & Hl & Hr' & Hm' & Hh' & Hsame & _).
  exists n'. split; [done|]. split; [by eapply serving_same|].
  exists σm', σh'. eauto using submap_delete_None.
Qed.

(** ** Requests of this instance *)

(** A client of this instance: the placeholder for itself, or a client that
    leads to a node that serves the group [g]. *)
Definition reaches nodes (g : string) c : Prop :=
  ∃ h n, c = RemoteClient h ∧ hc_base h = base ∧ nodes !! HashKey c = Some n ∧ serving g n.
Definition member nodes (g : string) c : Prop :=
  (remote c ∧ reaches nodes g c) ∨ ∃ i, c = SelfClient (mkNoOp (mkInfo i true)).

(** A request to [c] changes the node of [c] and nothing else. *)
Definition changed_only c s s' : Prop :=
  st_g s' = st_g s ∧ st_mem s' = st_mem s ∧
  ∀ a, a ≠ HashKey c → (st_w s').1 !! a = (st_w s).1 !! a.

(** What a request leaves at the node of [c]. *)
Definition at_node (Q : node → Prop) c s : Prop :=
  remote c → ∃ n, (st_w s).1 !! HashKey c = Some n ∧ Q n.


Lemma setPeer_reaches g c key v e s :
  name (st_g s) = g → plain_segment g → ¬ dotted key →
  is_inr (enc_SetRequest (Some g, Some key, field_of (st_mem s) v, Some (encode_expire e))) →
  reaches (st_w s).1 g c →
  ∃ s', setPeer c key v e s = (Val None, s') ∧ changed_only c s s' ∧ reaches (st_w s').1 g c ∧
    at_node (λ n, holds_only n key (contents (st_mem s) v) (decode_expire (Some (encode_expire e)))) c s'.
Proof.
  intros Hname Hg Hk Henc (h & n & -> & Hh & Hn & Hs). destruct s as [gs m [nodes x]]. simpl in *.
  destruct (node_set g n key (field_of m v) (Some (encode_expire e)) Hs) as (n' & Hset & Hs' & Hold).
  assert (tm_GetGroup (message := message) n g = Some 0%nat) as Hgr.
  { simpl. destruct Hs as (-> & _). by rewrite bool_decide_true. }
  pose proof (HttpClient_Set_connected base Hbase Hclean h g 0 n n' key (field_of m v)
    (Some (encode_expire e)) Hh Hg Hk Hgr Henc Hset) as Hreq.
  unfold connected_network in Hreq.
  eexists. split.
  - unfold setPeer. mstep. simpl. rewrite Hname. apply outside_eq. simpl.
    rewrite (HttpClient_Set_at _ _ _ _ _ Hn), Hreq. done.
  - split; [|split]; simpl.
    + split_and!; [done..|]. simpl. intros a Ha. by rewrite lookup_insert_ne.
    + exists h, n'. split_and!; [done..| |done]. simpl. by rewrite lookup_insert_eq.
    + intros _. exists n'. simpl. rewrite lookup_insert_eq. split; [done|].
      replace (contents m v) with (default [] (field_of m v)) by (by destruct v). done.
Qed.

Lemma removeFromPeer_reaches g c key s :
  name (st_g s) = g → plain_segment g → ¬ dotted key → reaches (st_w s).1 g c →
  ∃ s', removeFromPeer c key s = (Val None, s') ∧ changed_only c s s' ∧ reaches (st_w s').1 g c ∧
    at_node (λ n, holds_nothing n key) c s'.
Proof.
  intros Hname Hg Hk (h & n & -> & Hh & Hn & Hs). destruct s as [gs m [nodes x]]. simpl in *.
  destruct (node_remove g n key Hs) as (n' & Hrm & Hs' & Hold).
  assert (tm_GetGroup (message := message) n g = Some 0%nat) as Hgr.
  { simpl. destruct Hs as (-> & _). by rewrite bool_decide_true. }
  pose proof (HttpClient_Remove_connected base Hbase Hclean h g 0 n n' key Hh Hg Hk Hgr Hrm) as Hreq.
  unfold connected_network in Hreq.
  eexists. split.
  - unfold removeFromPeer. mstep. simpl. rewrite Hname. apply outside_eq. simpl.
    rewrite (HttpClient_Remove_at _ _ _ _ _ Hn), Hreq. done.
  - split; [|split]; simpl.
    + split_and!; [done..|]. simpl. intros a Ha. by rewrite lookup_insert_ne.
    + exists h, n'. split_and!; [done..| |done]. simpl. by rewrite lookup_insert_eq.
    + intros _. exists n'. simpl. by rewrite lookup_insert_eq.
Qed.

(** The placeholder of this instance answers nil and does nothing. *)
Lemma removeFromPeer_member g c key s :
  name (st_g s) = g → plain_segment g → ¬ dotted key → member (st_w s).1 g c →
  ∃ s', removeFromPeer c key s = (Val None, s') ∧ changed_only c s s' ∧ member (st_w s').1 g c ∧
    at_node (λ n, holds_nothing n key) c s'.
Proof.
  intros Hname Hg Hk [[Hrem Hr]|(i & ->)].
  - destruct (removeFromPeer_reaches g c key s Hname Hg Hk Hr) as (s' & ? & ? & ? & ?).
    exists s'. split; [done|]. split; [done|]. split; [by left|done].
  - exists s. split; [by destruct s|]. split; [done|]. split; [right; eauto|done].
Qed.

(** ** Rounds of requests *)

Context (o : Options) (cs : list client).
Context (Hnd : NoDup (HashKey <$> cs)).

(** Between requests this instance does not change and the clients keep
    leading to serving nodes. *)
Definition ready (gs : group K) (m : Mem) s : Prop :=
  st_g s = gs ∧ st_mem s = m ∧ ∀ c, c ∈ cs → member (st_w s).1 (name gs) c.

Lemma changed_only_ready gs m c s s' :
  c ∈ cs → ready gs m s → changed_only c s s' → member (st_w s').1 (name gs) c → ready gs m s'.
Proof.
  intros Hin (Hgs & Hm & Hmem) (Hg' & Hm' & Hw) Hc. split_and!; [congruence..|].
  intros c' Hc'. destruct (decide (c' = c)) as [->|Hne]; [done|].
  destruct (Hmem c' Hc') as [[? (h & n & ? & ? & Hl & ?)]|?]; [left|by right].
  split; [done|]. exists h, n. split_and!; try done. rewrite Hw; [done|].
  intros Heq. by eapply Hne, same_HashKey.
Qed.

Lemma changed_only_at_node Q c c' s s' :
  c ∈ cs → c' ∈ cs → c' ≠ c → changed_only c s s' → at_node Q c' s → at_node Q c' s'.
Proof.
  intros Hc Hc' Hne (_ & _ & Hw) HQ Hr. destruct (HQ Hr) as (n & Hl & ?). exists n. split; [|done].
  rewrite Hw; [done|]. intros Heq. by eapply Hne, same_HashKey.
Qed.

Lemma requests_settle {B} (req : client → M St B) (out : B) Q gs m l s :
  NoDup l → l ⊆ cs → ready gs m s →
  (∀ c s', c ∈ l → ready gs m s' →
    ∃ s'', req c s' = (Val out, s'') ∧ changed_only c s' s'' ∧ member (st_w s'').1 (name gs) c ∧ at_node Q c s'') →
  ∃ outs s', for_each req l s = (Val outs, s') ∧ Forall (.= out) outs ∧ ready gs m s' ∧
    (∀ c, c ∈ l → at_node Q c s') ∧ ∀ c, c ∈ cs → c ∉ l → at_node Q c s → at_node Q c s'.
Proof.
  intros Hl Hsub Hs Hreq.
  destruct (for_each_establishes req (ready gs m) (λ c s, c ∈ cs → at_node Q c s) (.= out) l s Hl Hs)
    as (outs & s' & Hf & Ho & Hs' & Hin & Hout).
  { intros c s1 Hc Hs1. destruct (Hreq c s1 Hc Hs1) as (s2 & Hr & Hch & Hmem & HQ).
    exists out, s2. split; [done|]. split; [done|]. split; [|split; [done|]].
    - eapply changed_only_ready; eauto.
    - intros c' Hne HQ' Hc'. apply (changed_only_at_node Q c c' s1 s2); auto. }
  exists outs, s'. split; [done|]. split; [done|]. split; [done|]. split.
  - intros c Hc. by apply Hin, Hsub.
  - intros c Hc Hni HQ. by apply Hout.
Qed.

Context (Hcluster : cluster o cs) (HR : 0 <= Replicas o).

Notation remote_owner := (remote_owner (K := K) (C := client) (W := world) (message := message)).
Notation contacted := (contacted (K := K) (C := client) (W := world) (message := message)).
Notation getAllPeers := (getAllPeers (K := K) (C := client) (W := world) (message := message)).

(** The request to the owner that comes first. *)
Lemma owner_settles (req : client → M St (option error)) Q gs m key s :
  ready gs m s →
  (∀ c s', c ∈ cs → remote c → ready gs m s' →
    ∃ s'', req c s' = (Val None, s'') ∧ changed_only c s' s'' ∧ member (st_w s'').1 (name gs) c ∧ at_node Q c s'') →
  ∃ s', (match instance_PickPeer key with (Some ow, true) => req ow | _ => mret None end) s = (Val None, s') ∧
    ready gs m s' ∧ ∀ c, c ∈ remote_owner key → at_node Q c s'.
Proof.
  intros Hs Hreq. unfold remote_owner, GroupTargets.remote_owner.
  destruct (owner_cases o cs key Hcluster HR) as [[-> _]|(ow & -> & Hin)].
  { exists s. split; [done|]. split; [done|]. by intros c []%elem_of_nil. }
  case_bool_decide as Hrem.
  - destruct (Hreq ow s Hin Hrem Hs) as (s' & Hr & Hch & Hmem & HQ).
    exists s'. split; [done|]. split; [by eapply changed_only_ready|].
    by intros c ->%list_elem_of_singleton.
  - exists s. split; [done|]. split; [done|]. by intros c []%elem_of_nil.
Qed.

(** A round over the peers that are left once the owner has answered. *)
Lemma round_settles {B} (req : client → M St B) (out : B) Q gs m key ts (P : client → Prop)
    `{!∀ c, Decision (P c)} s :
  remote_owner key ++ ts ≡ₚ filter P cs → (∀ c, remote c → P c) → ready gs m s →
  (∀ c, c ∈ remote_owner key → at_node Q c s) →
  (∀ c s', c ∈ cs → P c → ready gs m s' →
    ∃ s'', req c s' = (Val out, s'') ∧ changed_only c s' s'' ∧ member (st_w s'').1 (name gs) c ∧ at_node Q c s'') →
  ∃ outs s', for_each req (go_order ts) s = (Val outs, s') ∧ Forall (.= out) outs ∧ ready gs m s' ∧
    ∀ c, c ∈ cs → at_node Q c s'.
Proof.
  intros Hperm HP Hs Hown Hreq.
  assert (∀ c, c ∈ go_order ts → c ∈ cs ∧ P c) as Hts.
  { intros c Hc. rewrite go_order_perm in Hc.
    assert (c ∈ filter P cs) as [? ?]%list_elem_of_filter by (rewrite <-Hperm; set_solver). done. }
  assert (NoDup (remote_owner key ++ ts)) as (_ & _ & Hnd')%NoDup_app.
  { rewrite Hperm. apply NoDup_filter. by eapply NoDup_fmap_1. }
  destruct (requests_settle req out Q gs m (go_order ts) s) as (outs & s' & Hf & Ho & Hs' & Hin & Hout).
  - by rewrite go_order_perm.
  - intros c Hc. by apply Hts.
  - done.
  - intros c s1 Hc Hs1. destruct (Hts c Hc). by apply Hreq.
  - exists outs, s'. split; [done|]. split; [done|]. split; [done|]. intros c Hc.
    destruct (decide (c ∈ go_order ts)) as [Hi|Hni]; [by apply Hin|]. intros Hrem.
    apply Hout; [done..| |done]. apply Hown.
    assert (c ∈ filter P cs) as Hf' by (apply list_elem_of_filter; auto).
    rewrite <-Hperm in Hf'. apply elem_of_app in Hf' as [?|?]; [done|]. by rewrite go_order_perm in Hni.
Qed.

(** *** Set *)

Lemma setPeer_settles gs m c key v e s :
  plain_segment (name gs) → ¬ dotted key →
  is_inr (enc_SetRequest (Some (name gs), Some key, field_of m v, Some (encode_expire e))) →
  encodable e → c ∈ cs → remote c → ready gs m s →
  ∃ s', setPeer c key v e s = (Val None, s') ∧ changed_only c s s' ∧
    member (st_w s').1 (name gs) c ∧ at_node (λ n, holds_only n key (contents m v) e) c s'.
Proof.
  intros Hg Hk Henc He Hc Hrem (<- & <- & Hmem).
  destruct (Hmem c Hc) as [[_ Hr]|(i & ->)]; [|done].
  destruct (setPeer_reaches (name (st_g s)) c key v e s) as (s' & Hs & Hch & Hr' & HQ); [done..|].
  rewrite decode_encode_expire in HQ by done.
  exists s'. split; [done|]. split; [done|]. split; [by left|done].
Qed.

(** The two cache updates of [Set], between requests. *)
Lemma local_set_ready gs m σm σh key v e s :
  ready gs m s → rep s σm σh →
  ∃ s', (_ ← on_main (cache_Add key (ByteViewWithExpire v e)); on_hot (cache_Remove key)) s = (Val tt, s') ∧
    ready (st_g s') m s' ∧ name (st_g s') = name gs ∧ st_w s' = st_w s ∧
    holds_only s' key (contents m v) e.
Proof.
  intros (<- & <- & Hmem) Hrep.
  destruct (local_set_spec s σm σh key (ByteViewWithExpire v e) Hrep)
    as (s' & σm' & σh' & Hl & Hr & Hsm & Hsh & _ & (Hn & _ & _ & Hm) & Hw).
  exists s'. split; [done|]. split; [|split; [done|split; [done|]]].
  - split; [done|]. split; [done|]. by rewrite Hn, Hw.
  - exists σm', σh'. split; [done|]. split; [by eapply submap_delete_None|].
    intros v' Hv'. rewrite (submap_insert_eq _ _ _ _ _ Hsm Hv'), Hm. by destruct v.
Qed.

(** ** Theorems *)

(** C1: a [Set] on one node of a cluster whose nodes talk HTTP leaves the whole
    cluster coherent: it returns nil, and afterwards this instance and every
    remote node hold for the key the bytes and expiry that were set or
    nothing, in either cache; no node keeps an older value. *)
Theorem cluster_Set_coherent s key v e
  (Hself : serving (name (st_g s)) s) (Hgroup : plain_segment (name (st_g s))) (Hkey : key ≠ "") (Hdots : ¬ dotted key)
  (Hpeers : ∀ c, c ∈ cs → member (st_w s).1 (name (st_g s)) c)
  (Hencode : is_inr (enc_SetRequest
    (Some (name (st_g s)), Some key, field_of (st_mem s) v, Some (encode_expire e))))
  (Hexpire : encodable e) :
  ∃ s', Set_ key v e s = (Val None, s') ∧
    holds_only s' key (contents (st_mem s) v) e ∧
    ∀ c, c ∈ cs → remote c →
      ∃ n, (st_w s').1 !! HashKey c = Some n ∧ holds_only n key (contents (st_mem s) v) e.
Proof.
  destruct Hself as (_ & Hmax & σm & σh & Hrep).
  destruct (owner_settles (λ c, setPeer c key v e) (λ n, holds_only n key (contents (st_mem s) v) e)
    (st_g s) (st_mem s) key s) as (s1 & Ho & Hs1 & Hown).
  { done. }
  { intros c s1 Hc Hrem Hs1. by eapply setPeer_settles. }
  assert (rep s1 σm σh) as Hrep1 by (unfold rep; by rewrite (proj1 Hs1)).
  destruct (local_set_ready _ _ σm σh key v e s1 Hs1 Hrep1) as (s2 & Hl & Hs2 & Hn2 & Hw2 & Hhold).
  destruct (set_targets_cluster o cs Hcluster HR Hnd key) as (ts & Hts & Hperm).
  destruct (round_settles (setPeer_logged key v e) tt (λ n, holds_only n key (contents (st_mem s) v) e)
    (st_g s2) (st_mem s) key ts remote s2 Hperm) as (outs & s' & Hf & _ & (Hg' & Hm' & _) & Hall).
  { done. }
  { done. }
  { intros c Hc Hrem. rewrite Hw2. by apply Hown. }
  { intros c s3 Hc Hrem Hs3. rewrite <-Hn2 in Hgroup, Hencode.
    destruct (setPeer_settles _ _ c key v e s3 Hgroup Hdots Hencode Hexpire Hc Hrem Hs3) as (s4 & Hs4 & ?).
    exists s4. unfold setPeer_logged. by mstep Hs4. }
  exists s'. split; [|split].
  - unfold Set_, Group.Set_. rewrite bool_decide_false by done.
    mstep. rewrite bool_decide_false by lia. unfold Set_fn.
    destruct (instance_PickPeer key) as [ow rem]. mstep Ho. cbv beta iota.
    etrans; [symmetry; apply (M_bind_assoc _ (λ _, _) (λ _, _))|]. mstep Hl. mstep Hts. by mstep Hf.
  - unfold holds_only, rep in Hhold |- *. rewrite Hg', Hm'. by rewrite (proj1 (proj2 Hs2)) in Hhold.
  - intros c Hc Hrem. by apply Hall.
Qed.

(** C2: a [Remove] on one node of such a cluster leaves no copy: it returns nil,
    and afterwards neither this instance nor any remote node holds the key in
    either cache. *)
Theorem cluster_Remove_coherent s key (Hdots : ¬ dotted key)
  (Hself : serving (name (st_g s)) s) (Hgroup : plain_segment (name (st_g s)))
  (Hpeers : ∀ c, c ∈ cs → member (st_w s).1 (name (st_g s)) c) :
  ∃ s', Remove key s = (Val None, s') ∧ holds_nothing s' key ∧
    ∀ c, c ∈ cs → remote c → ∃ n, (st_w s').1 !! HashKey c = Some n ∧ holds_nothing n key.
Proof.
  destruct Hself as (_ & Hmax & σm & σh & Hrep).
  destruct (owner_settles (λ c, removeFromPeer c key) (λ n, holds_nothing n key)
    (st_g s) (st_mem s) key s) as (s1 & Ho & (Hg1 & Hm1 & Hmem1) & Hown).
  { done. }
  { intros c s1 Hc Hrem (Hg1 & _ & Hmem1). apply removeFromPeer_member; [by rewrite Hg1|done|done|auto]. }
  assert (rep s1 σm σh) as Hrep1 by (unfold rep; by rewrite Hg1).
  destruct (LocalRemove_spec s1 σm σh key Hrep1) as (s2 & σm' & σh' & Hl & Hr2 & Hm' & Hh' & (Hn2 & _ & _ & Hm2) & Hw2).
  { by rewrite Hg1. }
  destruct (round_settles (λ c, removeFromPeer c key) None (λ n, holds_nothing n key)
    (st_g s2) (st_mem s2) key (remove_targets (instance_PickPeer key).1 getAllPeers) (contacted key) s2)
    as (outs & s' & Hf & Hnone & (Hg' & _) & Hall).
  { by apply (remove_targets_cluster o cs Hcluster HR Hnd). }
  { by left. }
  { split; [done|]. split; [done|]. by rewrite Hn2, Hg1, Hw2. }
  { intros c Hc Hrem. rewrite Hw2. by apply Hown. }
  { intros c s3 Hc _ (Hg3 & _ & Hmem3). rewrite <-Hg1, <-Hn2 in Hgroup.
    apply removeFromPeer_member; [by rewrite Hg3|done|done|auto]. }
  exists s'. split; [|split].
  - unfold Remove, Group.Remove. destruct (instance_PickPeer key) as [ow rem]. mstep Ho. cbv beta iota.
    mstep Hl. mstep Hf. unfold mret, M_ret. do 2 f_equal. apply collect_None. by rewrite go_order_perm.
  - exists σm', σh'. split; [by unfold rep; rewrite Hg'|]. eauto using submap_delete_None.
  - intros c Hc Hrem. by apply Hall.
Qed.

End HttpCluster.

(** ** Witnesses: a cluster of three nodes *)

Section Sample.

Notation sample_world := (gmap string (state mutexCache (history NoOpClient)) * unit)%type.
Notation sample_base := "/_groupcache/".

#[local] Instance sample_http_peer : Peer HttpClient sample_world :=
  http_peer (Cr := NoOpClient) (message := list byte) sample_base.

Definition three_clients : list (PeerClient HttpClient) :=
  [SelfClient (mkNoOp (mkInfo "a" true)); RemoteClient (NewClient sample_base (mkInfo "b" false));
   RemoteClient (NewClient sample_base (mkInfo "c" false))].

#[local] Instance sample_http_env : Env mutexCache (PeerClient HttpClient) sample_world (list byte) := {|
  fnv1_HashBytes64 := fnv1_64;
  inst := mkInstance (build fnv1_64 two_replicas three_clients) true (λ n, (newMutexCache n, None));
  getter_Get _ dest := mret (Some (ErrNotFound "no such key"), dest);
  time_Now w := (Second, w);
  ctx := None;
|}.

(** The remote nodes are groups of their own; this one has a value in memory. *)
Definition sample_nodes : sample_world := ({["b" := sample_state "g"; "c" := sample_state "g"]}, tt).
Definition sample_node : state mutexCache sample_world :=
  mkSt (st_g (sample_state "g")) [string_bytes "hello"] sample_nodes.

Lemma sample_serving : serving "g" (sample_state "g").
Proof. split; [done|]. split; [done|]. exists ∅, ∅. apply sample_rep. Qed.

Lemma sample_self : serving "g" sample_node.
Proof. split; [done|]. split; [done|]. exists ∅, ∅. apply (sample_rep "g"). Qed.

Lemma sample_members c : c ∈ three_clients → member sample_base sample_nodes.1 "g" c.
Proof.
  intros [->|[->|[->|[]%elem_of_nil]%elem_of_cons]%elem_of_cons]%elem_of_cons.
  - right. by exists "a".
  - left. split; [done|]. eexists _, _. split_and!; [done|done|reflexivity|apply sample_serving..].
  - left. split; [done|]. eexists _, _. split_and!; [done|done|reflexivity|apply sample_serving..].
Qed.

Lemma three_clients_NoDup : NoDup (HashKey <$> three_clients).
Proof. by apply (bool_decide_unpack _). Qed.

Lemma three_clients_cluster : cluster (K := mutexCache) (W := sample_world) (message := list byte) two_replicas three_clients.
Proof. reflexivity. Qed.

Lemma cluster_Set_coherent_witness :
  ∃ s', Set_ (message := list byte) "k" (Some (Slice 0 0 5 5)) 7 sample_node = (Val None, s') ∧
    ∃ n, (st_w s').1 !! "c" = Some n ∧ holds_only n "k" (string_bytes "hello") 7.
Proof.
  destruct (cluster_Set_coherent (message := list byte) sample_base base_ok base_clean two_replicas three_clients
    three_clients_NoDup three_clients_cluster ltac:(done) sample_node "k" (Some (Slice 0 0 5 5)) 7 sample_self)
    as (s' & Hs & _ & Hall).
  - apply g_ok.
  - discriminate.
  - apply k_ok.
  - apply sample_members.
  - exact I.
  - right. split; [|discriminate]. unfold in_i64, two63. lia.
  - exists s'. split; [exact Hs|].
    apply (Hall (RemoteClient (NewClient sample_base (mkInfo "c" false)))); [|reflexivity].
    apply (list_elem_of_lookup_2 _ 2). reflexivity.
Defined.

Lemma cluster_Remove_coherent_witness :
  ∃ s', Remove (message := list byte) "k" sample_node = (Val None, s') ∧
    ∃ n, (st_w s').1 !! "b" = Some n ∧ holds_nothing n "k".
Proof.
  destruct (cluster_Remove_coherent (message := list byte) sample_base base_ok base_clean two_replicas three_clients
    three_clients_NoDup three_clients_cluster ltac:(done) sample_node "k" k_ok sample_self)
    as (s' & Hs & _ & Hall).
  - apply g_ok.
  - apply sample_members.
  - exists s'. split; [exact Hs|].
    apply (Hall (RemoteClient (NewClient sample_base (mkInfo "b" false)))); [|reflexivity].
    apply (list_elem_of_lookup_2 _ 1). reflexivity.
Defined.

End Sample.
