(* ===== verification/Tracer.v ===== *)
(** * Tracing (transport/tracer.go, and the spans of transport/http_transport.go)

    The tracer with its two [sync.Pool]s of slices, [startSpan] with the
    function that ends the span, [recordSpanError] and [markSpanOK], and the
    client operations of Http.v inside their spans.  OpenTelemetry is an
    interface ([Telemetry]).  A pool hands out pointers to slices whose backing
    arrays are reused, so the arrays, the slice headers and the aliasing
    between them are part of the state. *)

From S2P Require Import Prelude Errors Slices Picker Pb Md5 Url Http.

(** ** Pools of slices *)

(** A slice that starts at the beginning of its array. *)
Record buffer := mkBuffer { b_arr : nat; b_len : nat; b_cap : nat }.

(** The memory of a [sync.Pool] of [*[]E]: the arrays (without their unset
    tails), the slice each pointer points to, and the pointers in the pool. *)
Record Pool (E : Type) := mkPool {
  arrays : list (list E);
  cells : list buffer;
  pooled : list nat;
}.
Arguments mkPool {E}.
Arguments arrays {E}.
Arguments cells {E}.
Arguments pooled {E}.

(** [sync.Pool.Get] takes an arbitrary element, or calls [New] even when the
    pool is not empty.  The choice is an interface. *)
Class PoolChoice := pool_choice : list nat → option nat.

Section Pool.
Context {E : Type} `{!PoolChoice}.

Implicit Types (p : Pool E) (b : buffer) (c : nat).

(** [s := make([]E, 0, 10); return &s] *)
Definition pool_New : M (Pool E) nat := λ p,
  (Val (length (cells p)),
   mkPool (arrays p ++ [[]]) (cells p ++ [mkBuffer (length (arrays p)) 0 10]) (pooled p)).

Definition pool_Get : M (Pool E) nat := λ p,
  match pool_choice (pooled p) with
  | None => pool_New p
  | Some i =>
      match pooled p !! i with
      | Some c => (Val c, mkPool (arrays p) (cells p) (delete i (pooled p)))
      | None => pool_New p
      end
  end.

(** Empties the slice [c] points to and returns [c] to the pool. *)
Definition truncate b : buffer := mkBuffer (b_arr b) 0 (b_cap b).
Definition pool_Put c : M (Pool E) unit := λ p,
  match cells p !! c with
  | Some b => (Val tt, mkPool (arrays p) (<[c := truncate b]> (cells p)) (pooled p ++ [c]))
  | None => (Panicked, p)
  end.

(** The slice [c] points to, resliced to length 0. *)
Definition empty_of c : M (Pool E) buffer := λ p,
  match cells p !! c with
  | Some b => (Val (truncate b), p)
  | None => (Panicked, p)
  end.

Definition array_of p b : list E := default [] (arrays p !! b_arr b).
Definition elements p b : list E := take (b_len b) (array_of p b).

(** [append(b, l...)]: in place when the capacity allows, else in a new array
    (of just the size needed: no code appends to it again). *)
Definition append b (l : list E) : M (Pool E) buffer := λ p,
  let n := (b_len b + length l)%nat in
  if bool_decide (n ≤ b_cap b)%nat then
    (Val (mkBuffer (b_arr b) n (b_cap b)),
     mkPool (<[b_arr b := elements p b ++ l ++ drop n (array_of p b)]> (arrays p)) (cells p) (pooled p))
  else
    (Val (mkBuffer (length (arrays p)) n n),
     mkPool (arrays p ++ [elements p b ++ l]) (cells p) (pooled p)).

(** ** Ownership

    A buffer in use: the pointer it was taken from, the slice that grew out of
    it, and what was appended to it. *)
Record loan := mkLoan { l_cell : nat; l_buffer : buffer; l_elements : list E }.

Record pool_ok p (ls : list loan) : Prop := {
  (** every pointer is in the pool or on loan, once *)
  ok_cells : pooled p ++ (l_cell <$> ls) ≡ₚ seq 0 (length (cells p));
  (** a pointed-to slice is empty and has an array of its own *)
  ok_len b : b ∈ cells p → b_len b = 0%nat ∧ (b_arr b < length (arrays p))%nat;
  ok_arrays : NoDup (b_arr <$> cells p);
  (** a loan's slice holds what was appended, in the array of its pointer or a private one *)
  ok_loan x : x ∈ ls → elements p (l_buffer x) = l_elements x ∧ b_len (l_buffer x) = length (l_elements x) ∧
    (b_arr (l_buffer x) < length (arrays p))%nat ∧
    (b_arr <$> cells p !! l_cell x = Some (b_arr (l_buffer x)) ∨ b_arr (l_buffer x) ∉ b_arr <$> cells p);
  ok_loans : NoDup (b_arr ∘ l_buffer <$> ls);
}.

#[export] Instance pool_ok_perm p : Proper ((≡ₚ) ==> iff) (pool_ok p).
Proof.
  assert (∀ ls ls', ls ≡ₚ ls' → pool_ok p ls → pool_ok p ls') as Himpl.
  { intros ls ls' Hp [H1 H3 H4 H5 H6]. split.
    - by rewrite <-Hp.
    - done.
    - done.
    - intros x. rewrite <-Hp. apply H5.
    - by rewrite <-Hp. }
  intros ls ls' Hp. split; apply Himpl; [done|by symmetry].
Qed.

Lemma ok_cell p ls c : pool_ok p ls → c ∈ pooled p ++ (l_cell <$> ls) → is_Some (cells p !! c).
Proof. intros [H1 _ _ _ _]. rewrite H1, elem_of_seq. intros Hc. apply lookup_lt_is_Some_2. lia. Qed.

Lemma ok_NoDup p ls : pool_ok p ls → NoDup (pooled p ++ (l_cell <$> ls)).
Proof. intros [H1 _ _ _ _]. rewrite H1. apply NoDup_seq. Qed.

Lemma array_of_cells p c c' b b' :
  NoDup (b_arr <$> cells p) → cells p !! c = Some b → cells p !! c' = Some b' → b_arr b = b_arr b' → c = c'.
Proof.
  intros Hnd Hc Hc' He. eapply NoDup_lookup; [exact Hnd|..]; rewrite list_lookup_fmap; [by rewrite Hc|].
  by rewrite Hc', He.
Qed.

(** A pointer that leaves the pool: its array is nobody else's. *)
Lemma pool_ok_take p c ls b pooled' :
  pooled p ≡ₚ c :: pooled' → pool_ok p ls → cells p !! c = Some b →
  pool_ok (mkPool (arrays p) (cells p) pooled') (mkLoan c (truncate b) [] :: ls).
Proof.
  intros Hp Hok Hb. pose proof (ok_NoDup _ _ Hok) as Hnd. destruct Hok as [H1 H3 H4 H5 H6]. pose proof (H3 b (list_elem_of_lookup_2 _ _ _ Hb)) as [Hlen Harr].
  assert (pooled' ++ (l_cell <$> mkLoan c (truncate b) [] :: ls) ≡ₚ pooled p ++ (l_cell <$> ls)) as Heq.
  { simpl. rewrite Hp. simpl. by rewrite <-Permutation_middle. }
  split; cbn [pooled cells arrays].
  - by rewrite Heq.
  - done.
  - done.
  - intros x [->|Hx]%elem_of_cons; [|by apply H5]. cbn. split_and!; [done|done|done|]. left. by rewrite Hb.
  - rewrite fmap_cons. constructor; [|done]. cbn.
    intros (x & Hxe & Hx)%list_elem_of_fmap. destruct (H5 x Hx) as (_ & _ & _ & [Hown|Hpriv]).
    + destruct (cells p !! l_cell x) as [bx|] eqn:Hbx; [|done]. injection Hown as Hown. simpl in Hxe.
      assert (c = l_cell x) as -> by (eapply array_of_cells; [done..|congruence]).
      rewrite Hp in Hnd. cbn in Hnd. apply NoDup_cons in Hnd as [Hni _]. apply Hni, elem_of_app. right.
      by apply list_elem_of_fmap_2.
    + apply Hpriv. simpl in Hxe. rewrite <-Hxe. apply list_elem_of_fmap_2. by eapply list_elem_of_lookup_2.
Qed.

(** A new pointer with a new array. *)
Lemma pool_ok_New p ls :
  pool_ok p ls → let n := length (arrays p) in
  pool_ok (mkPool (arrays p ++ [[]]) (cells p ++ [mkBuffer n 0 10]) (length (cells p) :: pooled p)) ls.
Proof.
  intros [H1 H3 H4 H5 H6] n.
  assert (∀ b, b ∈ cells p → b_arr b ≠ n) as Hnew by (intros b Hb; destruct (H3 b Hb); lia).
  assert (n ∉ b_arr <$> cells p) as Hni.
  { intros (b & He & Hb)%list_elem_of_fmap. by apply (Hnew b Hb). }
  split; cbn [pooled cells arrays].
  - cbn. rewrite H1, length_app, seq_app. cbn. by rewrite Permutation_app_comm.
  - intros b [Hb| ->%list_elem_of_singleton]%elem_of_app; rewrite length_app; cbn; [|lia].
    destruct (H3 b Hb). lia.
  - rewrite fmap_app. apply NoDup_app. split_and!; [done| |apply NoDup_singleton].
    intros a Ha ->%list_elem_of_singleton. done.
  - intros x Hx. destruct (H5 x Hx) as (Hel & Hlen & Ha & Hown). split_and!.
    + rewrite <-Hel. unfold elements, array_of. cbn. by rewrite lookup_app_l.
    + done.
    + rewrite length_app. lia.
    + destruct Hown as [Hown|Hpriv]; [left|right].
      * destruct (cells p !! l_cell x) eqn:Hc; [|done]. by erewrite lookup_app_l_Some.
      * rewrite fmap_app. intros [?|He%list_elem_of_singleton]%elem_of_app; [done|]. cbn in He. lia.
  - done.
Qed.

Lemma pool_Get_ok p ls :
  pool_ok p ls → ∃ c b p', pool_Get p = (Val c, p') ∧ empty_of c p' = (Val b, p') ∧
    pool_ok p' (mkLoan c b [] :: ls).
Proof.
  intros Hok. unfold pool_Get.
  assert (∃ c b p', pool_New p = (Val c, p') ∧ empty_of c p' = (Val b, p') ∧ pool_ok p' (mkLoan c b [] :: ls)) as Hnew.
  { eexists _, _, _. split; [done|]. unfold empty_of. cbn [cells].
    rewrite list_lookup_middle by done. split; [done|].
    apply (pool_ok_take (mkPool _ _ (length (cells p) :: pooled p))).
    - done.
    - by apply pool_ok_New.
    - by apply list_lookup_middle. }
  destruct (pool_choice (pooled p)) as [i|]; [|done]. destruct (pooled p !! i) as [c|] eqn:Hc; [|done].
  destruct (ok_cell _ _ c Hok) as [b Hb].
  { apply elem_of_app. left. by eapply list_elem_of_lookup_2. }
  eexists c, _, _. split; [done|]. unfold empty_of. cbn [cells]. rewrite Hb. split; [done|].
  apply pool_ok_take; [|done..]. by apply delete_Permutation.
Qed.

(** Appending changes only the array of the loan. *)
Lemma append_ok p ls c b l l' :
  pool_ok p (mkLoan c b l :: ls) →
  ∃ b' p', append b l' p = (Val b', p') ∧ pool_ok p' (mkLoan c b' (l ++ l') :: ls).
Proof.
  intros [H1 H3 H4 H5 H6]. destruct (H5 (mkLoan c b l)) as (Hel & Hlen & Harr & Hown); [by left|]. cbn in *.
  apply NoDup_cons in H6 as [Hni H6].
  assert (∀ x, x ∈ ls → b_arr (l_buffer x) ≠ b_arr b) as Hother.
  { intros x Hx He. apply Hni. rewrite <-He. by apply (list_elem_of_fmap_2 (b_arr ∘ l_buffer)). }
  unfold append. rewrite Hel. case_bool_decide as Hcap; eexists _, _; (split; [done|]); split; cbn [pooled cells arrays].
  - done.
  - intros b' Hb'. rewrite length_insert. by apply H3.
  - done.
  - intros x [->|Hx]%elem_of_cons; cbn; rewrite length_insert.
    + split_and!; [|rewrite length_app; lia|done|done]. unfold elements, array_of. cbn.
      rewrite list_lookup_insert_eq by done. cbn. rewrite app_assoc, take_app_length'; [done|].
      rewrite length_app. lia.
    + destruct (H5 x) as (Hx1 & Hx2 & ? & ?); [by right|]. split_and!; [|done..].
      rewrite <-Hx1. unfold elements, array_of. cbn. rewrite list_lookup_insert_ne; [done|].
      intros He. by apply (Hother x Hx).
  - rewrite fmap_cons. by constructor.
  - done.
  - intros b' Hb'. rewrite length_app. destruct (H3 b' Hb'). lia.
  - done.
  - intros x [->|Hx]%elem_of_cons; cbn; rewrite ?length_app; cbn.
    + split_and!; [|lia|lia|right].
      * unfold elements, array_of. cbn. rewrite list_lookup_middle by done. cbn.
        apply take_ge. rewrite length_app. lia.
      * intros (b' & He & Hb')%list_elem_of_fmap. destruct (H3 b' Hb'). lia.
    + destruct (H5 x) as (Hx1 & Hx2 & ? & ?); [by right|]. split_and!; [|done|lia|done].
      rewrite <-Hx1. unfold elements, array_of. cbn. by rewrite lookup_app_l.
  - rewrite fmap_cons. constructor; [|done]. cbn. intros (x & He & Hx)%list_elem_of_fmap.
    destruct (H5 x) as (_ & _ & ? & _); [by right|]. cbn in He. lia.
Qed.

Lemma pool_Put_ok p ls c b l :
  pool_ok p (mkLoan c b l :: ls) → ∃ p', pool_Put c p = (Val tt, p') ∧ pool_ok p' ls.
Proof.
  intros Hok. pose proof (ok_cell _ _ c Hok) as Hcell. destruct Hok as [H1 H3 H4 H5 H6].
  assert ((pooled p ++ [c]) ++ (l_cell <$> ls) ≡ₚ pooled p ++ (l_cell <$> mkLoan c b l :: ls)) as Heq.
  { by rewrite <-app_assoc. }
  destruct Hcell as [bc Hc]; [apply elem_of_app; right; by left|]. unfold pool_Put. rewrite Hc.
  destruct (H3 bc (list_elem_of_lookup_2 _ _ _ Hc)) as [Hlen _].
  assert (truncate bc = bc) as -> by (destruct bc; cbn in *; by subst).
  rewrite list_insert_id by done.
  eexists. split; [done|]. split; cbn [pooled cells arrays].
  - by rewrite Heq.
  - done.
  - done.
  - intros x Hx. apply H5. by right.
  - by apply NoDup_cons in H6 as [_ ?].
Qed.

(** ** Any number of users

    Users take pointers, append to the slices they borrowed and return the
    pointers, in any order. *)
Inductive reachable : Pool E → list loan → Prop :=
| reachable_empty : reachable (mkPool [] [] []) []
| reachable_Get p ls c p' b :
    reachable p ls → pool_Get p = (Val c, p') → empty_of c p' = (Val b, p') →
    reachable p' (mkLoan c b [] :: ls)
| reachable_append p ls x ls' l p' b :
    reachable p ls → ls ≡ₚ x :: ls' → append (l_buffer x) l p = (Val b, p') →
    reachable p' (mkLoan (l_cell x) b (l_elements x ++ l) :: ls')
| reachable_Put p ls x ls' p' :
    reachable p ls → ls ≡ₚ x :: ls' → pool_Put (l_cell x) p = (Val tt, p') →
    reachable p' ls'.

Lemma reachable_ok p ls : reachable p ls → pool_ok p ls.
Proof.
  induction 1 as [|p ls c p' b _ IH Hg He|p ls [c b0 l0] ls' l p' b _ IH Hp Ha|p ls [c b0 l0] ls' p' _ IH Hp Hput].
  - split; cbn; [done| |apply NoDup_nil_2| |apply NoDup_nil_2]; by intros ? ?%elem_of_nil.
  - destruct (pool_Get_ok p ls IH) as (c1 & b1 & p1 & Hg1 & He1 & Hok). congruence.
  - rewrite Hp in IH. destruct (append_ok _ _ _ _ _ l IH) as (b1 & p1 & Ha1 & Hok). cbn in *. congruence.
  - rewrite Hp in IH. destruct (pool_Put_ok _ _ _ _ _ IH) as (p1 & Hp1 & Hok). cbn in *. congruence.
Qed.

(** However many requests take, fill and return pooled slices, in whatever
    order and whatever the pool hands out: every pointer ever made is in the
    pool or with one user, and every borrowed slice holds exactly what its
    user appended to it since it was taken. *)
Theorem pool_loans_isolated p ls (Hreach : reachable p ls) :
  pooled p ++ (l_cell <$> ls) ≡ₚ seq 0 (length (cells p)) ∧ ∀ x, x ∈ ls → elements p (l_buffer x) = l_elements x.
Proof.
  pose proof (reachable_ok p ls Hreach) as [? _ _ Hl _]. split; [done|]. intros x Hx. by destruct (Hl x Hx).
Qed.

End Pool.
Arguments loan : clear implicits.

(** ** OpenTelemetry *)

(** Options of a span, as the tracer reads them. *)
Inductive SpanOption (A : Type) := Attributes (l : list A) | SpanKindClient.
Arguments Attributes {A}.
Arguments SpanKindClient {A}.

Inductive codes := codes_Error | codes_Ok.

(** [P] are tracer providers, [Tr] tracers, [A] attributes, [Sp] spans, [O] the
    state of the library. *)
Class Telemetry (P Tr A Sp O : Type) := {
  otel_GetTracerProvider : M O P;
  provider_Tracer : P → string → M O Tr;
  tracer_Start : Tr → string → list (SpanOption A) → M O Sp;
  span_IsRecording : Sp → M O bool;
  span_RecordError : Sp → error → M O unit;
  span_SetStatus : Sp → codes → string → M O unit;
  span_End : Sp → M O unit;
}.
#[global] Hint Mode Telemetry - - - - ! : typeclass_instances.

(** The options as the client builds them: attributes in a pooled slice. *)
Inductive SpanStartOption := WithAttributes (b : buffer) | WithSpanKind_Client.

Record Tracer (P Tr A : Type) := mkTracer {
  traceProvider : P;
  tracer : Tr;
  traceAttributes : list A;
}.
Arguments mkTracer {P Tr A}.
Arguments traceProvider {P Tr A}.
Arguments tracer {P Tr A}.
Arguments traceAttributes {P Tr A}.

(** The arguments of [NewTracer]; a nil provider is [None]. *)
Inductive TracerOption (P A : Type) :=
| WithTraceProvider (tp : option P)
| WithTracerAttributes (attrs : list A).
Arguments WithTraceProvider {P A}.
Arguments WithTracerAttributes {P A}.

Section Tracer.
Context {P Tr A Sp O : Type} `{!Telemetry P Tr A Sp O, !PoolChoice}.

Notation Tracer := (Tracer P Tr A).

Definition tracer_instrumentationName : string :=
  "github.com/groupcache/groupcache-go/instrumentation/otel".

(** What an option does to the provider and the attributes. *)
Definition apply_option (x : P * list A) (opt : TracerOption P A) : P * list A :=
  match opt with
  | WithTraceProvider (Some tp) => (tp, x.2)
  | WithTraceProvider None => x
  | WithTracerAttributes attrs => (x.1, x.2 ++ attrs)
  end.

Definition NewTracer (opts : list (TracerOption P A)) : M O Tracer :=
  tp ← otel_GetTracerProvider;
  let '(tp, attrs) := foldl apply_option (tp, []) opts in
  tr ← provider_Tracer tp tracer_instrumentationName;
  mret (mkTracer tp tr attrs).

(** ** Spans *)

(** The pools of the tracer, and the library. *)
Record spans_state := mkSpans {
  spanStartOptionsPool : Pool SpanStartOption;
  attributesPool : Pool A;
  otel : O;
}.

Definition on_options {B} (m : M (Pool SpanStartOption) B) : M spans_state B := λ s,
  let '(r, p) := m (spanStartOptionsPool s) in (r, mkSpans p (attributesPool s) (otel s)).
Definition on_attributes {B} (m : M (Pool A) B) : M spans_state B := λ s,
  let '(r, p) := m (attributesPool s) in (r, mkSpans (spanStartOptionsPool s) p (otel s)).
Definition on_otel {B} (m : M O B) : M spans_state B := λ s,
  let '(r, o) := m (otel s) in (r, mkSpans (spanStartOptionsPool s) (attributesPool s) o).

(** What the tracer finds in the options. *)
Definition resolve (p : Pool A) (o : SpanStartOption) : SpanOption A :=
  match o with
  | WithAttributes b => Attributes (elements p b)
  | WithSpanKind_Client => SpanKindClient
  end.
Definition resolved (b : buffer) : M spans_state (list (SpanOption A)) := λ s,
  (Val (resolve (attributesPool s) <$> elements (spanStartOptionsPool s) b), s).

(** The span and what the function that ends it captured: the two pointers. *)
Abbreviation started := (Sp * (nat * nat))%type.

Definition getTracer (t : Tracer) : Tr := tracer t.
Definition getSpanStartOptions : M spans_state nat := on_options pool_Get.
Definition putSpanStartOptions (opts : nat) : M spans_state unit := on_options (pool_Put opts).
Definition getAttributes : M spans_state nat := on_attributes pool_Get.
Definition putAttributes (attrs : nat) : M spans_state unit := on_attributes (pool_Put attrs).

Definition startSpan (t : option Tracer) (spanName : string) : M spans_state (option started) :=
  match t with
  | None => mret None
  | Some t =>
      spanOptions ← getSpanStartOptions;
      attributes ← getAttributes;
      opts ← on_options (empty_of spanOptions);
      attrs ← on_attributes (empty_of attributes);
      attrs ← (if bool_decide (0 < length (traceAttributes t))%nat
               then on_attributes (append attrs (traceAttributes t)) else mret attrs);
      opts ← (if bool_decide (0 < b_len attrs)%nat
              then on_options (append opts [WithAttributes attrs]) else mret opts);
      opts ← on_options (append opts [WithSpanKind_Client]);
      options ← resolved opts;
      span ← on_otel (tracer_Start (getTracer t) spanName options);
      mret (Some (span, (spanOptions, attributes)))
  end.

Definition endSpan (x : option started) : M spans_state unit :=
  match x with
  | None => mret tt
  | Some (span, (spanOptions, attributes)) =>
      _ ← on_otel (span_End span);
      _ ← putSpanStartOptions spanOptions;
      putAttributes attributes
  end.

Definition recordSpanError (span : option Sp) (err : option error) : M O (option error) :=
  match err, span with
  | Some e, Some span =>
      recording ← span_IsRecording span;
      if recording : bool then
        _ ← span_RecordError span e;
        _ ← span_SetStatus span codes_Error (Error e);
        mret err
      else mret err
  | _, _ => mret err
  end.

Definition markSpanOK (span : option Sp) : M O unit :=
  match span with
  | Some span =>
      recording ← span_IsRecording span;
      if recording : bool then span_SetStatus span codes_Ok "OK" else mret tt
  | None => mret tt
  end.

(** ** The operations of the client with their spans

    The state is that of the pools and the library, and that of the network.
    Every operation starts a span, defers its end, and returns an error through
    [recordSpanError] on each of its paths or marks the span as successful.
    The context that carries the span to [makeRequest] is not modelled: the
    requests of Http.v take none. *)
Definition on_spans {N B} (m : M spans_state B) : M (spans_state * N) B := λ '(s, n),
  let '(r, s) := m s in (r, (s, n)).
Definition on_network {N B} (m : M N B) : M (spans_state * N) B := λ '(s, n),
  let '(r, n) := m n in (r, (s, n)).

(** [defer d()]: [d] runs when [m] returns and when it panics. *)
Definition deferring {X B} (d : M X unit) (m : M X B) : M X B := λ s,
  match m s with
  | (Val r, s) => (_ ← d; mret r) s
  | (Panicked, s) => (_ ← d; panic) s
  | (Diverged, s) => (Diverged, s)
  end.

(** [ctx, span, endSpan := h.startSpan(ctx, spanName); defer endSpan()] *)
Definition spanned {N B} (t : option Tracer) (spanName : string) (body : option Sp → M (spans_state * N) B)
    : M (spans_state * N) B :=
  x ← on_spans (startSpan t spanName);
  deferring (on_spans (endSpan x)) (body (fst <$> x)).

(** [return recordSpanError(span, err)] *)
Definition fails {N} (span : option Sp) (err : error) : M (spans_state * N) (option error) :=
  on_spans (on_otel (recordSpanError span (Some err))).

(** [markSpanOK(span); return nil] *)
Definition succeeds {N} (span : option Sp) : M (spans_state * N) (option error) :=
  _ ← on_spans (on_otel (markSpanOK span)); mret None.

Section Operations.
Context {N : Type} `{!Network N, !Wire}.
Context (t : option Tracer) (h : HttpClient).

(** The same in [Get]: a nil error would leave the caller's empty message. *)
Definition fails_Get (span : option Sp) (err : error) : M (spans_state * N) (error + wire_GetResponse) :=
  e ← fails span err;
  mret (match e with Some e => inl e | None => inr (None, None) end).

Definition traced_Get (r : GetRequest) : M (spans_state * N) (error + wire_GetResponse) :=
  spanned t "GroupCache.Get" (λ span,
    x ← on_network (makeRequest h "GET" (GetRequest_GetGroup r) (GetRequest_GetKey r) None);
    match x with
    | inl err => fails_Get span err
    | inr res =>
        if negb (bool_decide (StatusCode res = 200)) then
          let msg := bytes_string (take error_limit (read_body res)) in
          if bool_decide (StatusCode res = 404) then fails_Get span (ErrNotFound (Trim msg))
          else if bool_decide (StatusCode res = 503) then fails_Get span (ErrRemoteCall (Trim msg))
          else fails_Get span (ErrorString
            ("server returned: " ++ Itoa (StatusCode res) ++ " " ++ StatusText (StatusCode res) ++ ", " ++ msg)%string)
        else
          match res_Body res with
          | inl err => fails_Get span (WrapError ("reading response body: " ++ Error err)%string err)
          | inr b =>
              match dec_GetResponse b with
              | inl err => fails_Get span (WrapError ("decoding response body: " ++ Error err)%string err)
              | inr out => _ ← on_spans (on_otel (markSpanOK span)); mret (inr out)
              end
          end
    end).

(** What the other operations do with the answer. *)
Definition traced_status (span : option Sp) (x : error + Response) (on_error : Response → error)
    : M (spans_state * N) (option error) :=
  match x with
  | inl err => fails span err
  | inr res => if negb (bool_decide (StatusCode res = 200)) then fails span (on_error res) else succeeds span
  end.

Definition traced_Set (r : wire_SetRequest) : M (spans_state * N) (option error) :=
  spanned t "GroupCache.Set" (λ span,
    match enc_SetRequest r with
    | inl err => fails span (WrapError ("while marshaling SetRequest body: " ++ Error err)%string err)
    | inr body =>
        let '(group, key, _, _) := r in
        x ← on_network (makeRequest h "PUT" (default "" group) (default "" key) (Some body));
        traced_status span x status_error
    end).

Definition traced_Remove (r : GetRequest) : M (spans_state * N) (option error) :=
  spanned t "GroupCache.Remove" (λ span,
    x ← on_network (makeRequest h "DELETE" (GetRequest_GetGroup r) (GetRequest_GetKey r) None);
    traced_status span x status_error).

Definition traced_RemoveKeys (r : RemoveKeysRequest) : M (spans_state * N) (option error) :=
  spanned t "GroupCache.RemoveKeys" (λ span,
    match enc_RemoveKeys r with
    | inl err => fails span (WrapError ("while marshaling RemoveKeysRequest body: " ++ Error err)%string err)
    | inr body =>
        x ← on_network (makeRemoveKeysRequest h "POST" (RemoveKeysRequest_GetGroup r) "_remove-keys/" (Some body));
        traced_status span x (λ res, ErrorString
          ("server returned status " ++ Itoa (StatusCode res) ++ ": " ++ bytes_string (read_body res))%string)
    end).

End Operations.

Definition error_left {B} (r : error + B) : option error :=
  match r with inl err => Some err | inr _ => None end.

(** ** What the library records

    Documented behaviour: the methods return, and the library records what is
    started, reported and ended. *)
Inductive event :=
| Started (span : Sp) (spanName : string) (options : list (SpanOption A))
| Recorded (span : Sp) (err : error)
| Status (span : Sp) (code : codes) (description : string)
| Ended (span : Sp).

Class TelemetryLaws := {
  events : O → list event;
  Start_law tr spanName options o : ∃ span o',
    tracer_Start tr spanName options o = (Val span, o') ∧ events o' = events o ++ [Started span spanName options];
  IsRecording_law span o : ∃ b o', span_IsRecording span o = (Val b, o') ∧ events o' = events o;
  RecordError_law span err o : ∃ o',
    span_RecordError span err o = (Val tt, o') ∧ events o' = events o ++ [Recorded span err];
  SetStatus_law span code d o : ∃ o',
    span_SetStatus span code d o = (Val tt, o') ∧ events o' = events o ++ [Status span code d];
  End_law span o : ∃ o', span_End span o = (Val tt, o') ∧ events o' = events o ++ [Ended span];
}.

Context `{!TelemetryLaws}.

Implicit Types (s : spans_state) (o : O).

(** The pools with what is on loan to other requests. *)
Definition spans_ok s (lo : list (loan SpanStartOption)) (la : list (loan A)) : Prop :=
  pool_ok (spanStartOptionsPool s) lo ∧ pool_ok (attributesPool s) la.

Lemma on_options_eq {B} (m : M (Pool SpanStartOption) B) r p p' pa o :
  m p = (r, p') → on_options m (mkSpans p pa o) = (r, mkSpans p' pa o).
Proof. unfold on_options. cbn. by intros ->. Qed.
Lemma on_attributes_eq {B} (m : M (Pool A) B) r po p p' o :
  m p = (r, p') → on_attributes m (mkSpans po p o) = (r, mkSpans po p' o).
Proof. unfold on_attributes. cbn. by intros ->. Qed.
Lemma on_otel_eq {B} (m : M O B) r po pa o o' :
  m o = (r, o') → on_otel m (mkSpans po pa o) = (r, mkSpans po pa o').
Proof. unfold on_otel. cbn. by intros ->. Qed.

(** The options every span of the tracer starts with. *)
Definition span_options (t : Tracer) : list (SpanOption A) :=
  (if bool_decide (traceAttributes t = []) then [] else [Attributes (traceAttributes t)]) ++ [SpanKindClient].

Lemma startSpan_ok (t : Tracer) spanName s lo la :
  spans_ok s lo la →
  ∃ span xo xa s', startSpan (Some t) spanName s = (Val (Some (span, (l_cell xo, l_cell xa))), s') ∧
    spans_ok s' (xo :: lo) (xa :: la) ∧
    events (otel s') = events (otel s) ++ [Started span spanName (span_options t)].
Proof.
  intros [Ho Ha]. destruct s as [po pa o]. cbn [spanStartOptionsPool attributesPool otel] in *.
  destruct (pool_Get_ok po lo Ho) as (co & bo & po1 & Hgo & Heo & Ho1).
  destruct (pool_Get_ok pa la Ha) as (ca & ba & pa1 & Hga & Hea & Ha1).
  assert (∃ ba' pa2, (if bool_decide (0 < length (traceAttributes t))%nat
      then append ba (traceAttributes t) else mret ba) pa1 = (Val ba', pa2) ∧
      pool_ok pa2 (mkLoan ca ba' (traceAttributes t) :: la)) as (ba' & pa2 & Happ & Ha2).
  { case_bool_decide as Hn; [exact (append_ok pa1 la ca ba [] _ Ha1)|]. destruct (traceAttributes t); [|cbn in Hn; lia]. eauto. }
  destruct (ok_loan _ _ Ha2 (mkLoan ca ba' (traceAttributes t))) as (Hela & Hlena & _); [by left|]. cbn in Hela, Hlena.
  assert (∃ bo1 po2, (if bool_decide (0 < b_len ba')%nat
      then append bo [WithAttributes ba'] else mret bo) po1 = (Val bo1, po2) ∧
      pool_ok po2 (mkLoan co bo1 (if bool_decide (traceAttributes t = []) then [] else [WithAttributes ba']) :: lo))
    as (bo1 & po2 & Happ1 & Ho2).
  { rewrite Hlena. case_bool_decide as Hn; case_bool_decide as He; rewrite ?He in *;
      [cbn in Hn; lia|exact (append_ok po1 lo co bo [] _ Ho1)|eauto|]. destruct (traceAttributes t); [done|cbn in Hn; lia]. }
  destruct (append_ok _ _ _ _ _ [WithSpanKind_Client] Ho2) as (bo2 & po3 & Happ2 & Ho3).
  destruct (ok_loan _ _ Ho3 _ (list_elem_of_here _ _)) as (Helo & _). cbn in Helo.
  assert (resolve pa2 <$> elements po3 bo2 = span_options t) as Hres.
  { rewrite Helo, fmap_app. unfold span_options. f_equal.
    case_bool_decide; [done|]. cbn. by rewrite Hela. }
  destruct (Start_law (tracer t) spanName (span_options t) o) as (span & o' & Hstart & Hev).
  eexists span, (mkLoan co bo2 _), (mkLoan ca ba' (traceAttributes t)), (mkSpans po3 pa2 o').
  split; [|split; [split; [exact Ho3|exact Ha2]|exact Hev]].
  unfold startSpan. mstep (on_options_eq _ _ _ _ _ _ Hgo). mstep (on_attributes_eq _ _ _ _ _ _ Hga).
  mstep (on_options_eq _ _ _ _ _ _ Heo). mstep (on_attributes_eq _ _ _ _ _ _ Hea).
  erewrite M_bind_val; last first.
  { pose proof (on_attributes_eq _ _ po1 _ _ o Happ). by case_bool_decide. }
  erewrite M_bind_val; last first.
  { pose proof (on_options_eq _ _ _ _ pa2 o Happ1). by case_bool_decide. }
  mstep (on_options_eq _ _ _ _ _ _ Happ2). mstep. cbn [spanStartOptionsPool attributesPool].
  rewrite Hres. by mstep (on_otel_eq _ _ _ _ _ _ Hstart).
Qed.

Lemma endSpan_ok span xo xa s lo la :
  spans_ok s (xo :: lo) (xa :: la) →
  ∃ s', endSpan (Some (span, (l_cell xo, l_cell xa))) s = (Val tt, s') ∧ spans_ok s' lo la ∧
    events (otel s') = events (otel s) ++ [Ended span].
Proof.
  intros [Ho Ha]. destruct s as [po pa o], xo, xa. cbn [spanStartOptionsPool attributesPool otel l_cell] in *.
  destruct (End_law span o) as (o' & He & Hev).
  destruct (pool_Put_ok _ _ _ _ _ Ho) as (po' & Hpo & ?). destruct (pool_Put_ok _ _ _ _ _ Ha) as (pa' & Hpa & ?).
  exists (mkSpans po' pa' o'). split; [|split; [by split|done]].
  unfold endSpan. mstep (on_otel_eq _ _ _ _ _ _ He). mstep (on_options_eq _ _ _ _ _ _ Hpo).
  by apply on_attributes_eq.
Qed.

(** What is reported about an operation's outcome, if the span is recorded. *)
Definition outcome_events (span : Sp) (err : option error) : list event :=
  match err with
  | Some err => [Recorded span err; Status span codes_Error (Error err)]
  | None => [Status span codes_Ok "OK"]
  end.

(** What a finished span leaves with the library. *)
Definition one_span (t : Tracer) (spanName : string) (err : option error) s s' : Prop :=
  ∃ span (recording : bool), events (otel s') = events (otel s) ++
    Started span spanName (span_options t) :: (if recording then outcome_events span err else []) ++ [Ended span].

(** A body that returns [r], takes the network from [n] to [n'], and reports
    [err] to a recorded span. *)
Definition reports {N B} (body : option Sp → M (spans_state * N) B) (r : B) (err : option error) (n n' : N) : Prop :=
  ∀ span po pa o, ∃ (recording : bool) o',
    body (Some span) (mkSpans po pa o, n) = (Val r, (mkSpans po pa o', n')) ∧
    events o' = events o ++ (if recording then outcome_events span err else []).

Lemma reports_fails {N} err (n : N) : reports (λ span, fails span err) (Some err) (Some err) n n.
Proof.
  intros span po pa o. unfold fails, on_spans, outcome_events.
  destruct (IsRecording_law span o) as ([] & o1 & Hb & Hev).
  - destruct (RecordError_law span err o1) as (o2 & Hr & Hev2).
    destruct (SetStatus_law span codes_Error (Error err) o2) as (o3 & Hs & Hev3).
    exists true, o3. split; [|by rewrite Hev3, Hev2, Hev, <-app_assoc].
    rewrite (on_otel_eq _ (Val (Some err)) _ _ _ o3); [done|].
    unfold recordSpanError. mstep Hb. cbv beta iota. mstep Hr. by mstep Hs.
  - exists false, o1. split; [|by rewrite Hev, app_nil_r].
    rewrite (on_otel_eq _ (Val (Some err)) _ _ _ o1); [done|]. unfold recordSpanError. by mstep Hb.
Qed.

Lemma reports_marks {N B} (r : B) (n : N) :
  reports (λ span, _ ← on_spans (on_otel (markSpanOK span)); mret r) r None n n.
Proof.
  intros span po pa o. unfold outcome_events.
  destruct (IsRecording_law span o) as ([] & o1 & Hb & Hev).
  - destruct (SetStatus_law span codes_Ok "OK" o1) as (o2 & Hs & Hev2).
    exists true, o2. split; [|by rewrite Hev2, Hev]. erewrite M_bind_val; [done|].
    unfold on_spans. rewrite (on_otel_eq _ (Val tt) _ _ _ o2); [done|].
    unfold markSpanOK. by mstep Hb.
  - exists false, o1. split; [|by rewrite Hev, app_nil_r]. erewrite M_bind_val; [done|].
    unfold on_spans. rewrite (on_otel_eq _ (Val tt) _ _ _ o1); [done|]. unfold markSpanOK. by mstep Hb.
Qed.

Lemma reports_fails_Get {N} err (n : N) : reports (λ span, fails_Get span err) (inl err) (Some err) n n.
Proof.
  intros span po pa o. destruct (reports_fails err n span po pa o) as (rec & o' & Hf & Hev).
  exists rec, o'. split; [|done]. unfold fails_Get. by mstep Hf.
Qed.

Lemma reports_network {N B D} (m : M N D) (k : D → option Sp → M (spans_state * N) B) x r err n n1 n' :
  m n = (Val x, n1) → reports (k x) r err n1 n' →
  reports (λ span, y ← on_network m; k y span) r err n n'.
Proof.
  intros Hm Hk span po pa o. destruct (Hk span po pa o) as (rec & o' & Hr & Hev).
  exists rec, o'. split; [|done]. erewrite M_bind_val; [exact Hr|]. simpl. by rewrite Hm.
Qed.

Lemma spanned_ok {N B} (t : Tracer) spanName (body : option Sp → M (spans_state * N) B) r err s n n' lo la :
  spans_ok s lo la → reports body r err n n' →
  ∃ s', spanned (Some t) spanName body (s, n) = (Val r, (s', n')) ∧ spans_ok s' lo la ∧
    one_span t spanName err s s'.
Proof.
  intros Hok Hbody. destruct (startSpan_ok t spanName s lo la Hok) as (span & xo & xa & s1 & Hs & Hok1 & Hev1).
  destruct s1 as [po pa o1]. destruct (Hbody span po pa o1) as (rec & o2 & Hb & Hev2).
  destruct (endSpan_ok span xo xa (mkSpans po pa o2) lo la) as (s3 & He & Hok3 & Hev3).
  { by destruct Hok1. }
  exists s3. split; [|split; [done|]].
  - assert (∀ A (m : M spans_state A) s1 s2 y, m s1 = (Val y, s2) → ∀ n : N, on_spans m (s1, n) = (Val y, (s2, n)))
      as Hon by (intros ? m ??? Hm ?; unfold on_spans; by rewrite Hm).
    unfold spanned. mstep (Hon _ _ _ _ _ Hs n). unfold deferring. cbn [fmap option_fmap option_map fst].
    rewrite Hb. by mstep (Hon _ _ _ _ _ He n').
  - exists span, rec. rewrite Hev3. cbn [otel] in *. rewrite Hev2, Hev1. by rewrite <-!app_assoc.
Qed.

Lemma reports_status {N} x on_error (n : N) :
  reports (λ span, traced_status span x on_error) (check_status x on_error) (check_status x on_error) n n.
Proof.
  destruct x as [err|res]; simpl; [apply reports_fails|].
  case_bool_decide; simpl; [apply reports_marks|apply reports_fails].
Qed.


End Tracer.
Arguments spans_state : clear implicits.
Arguments event : clear implicits.

(** ** Witnesses *)

(** A pool that hands out its first element. *)
#[local] Instance take_first : PoolChoice := λ l, match l with [] => None | _ => Some 0%nat end.

Lemma pool_loans_isolated_witness :
  ∃ p : Pool nat, elements p (mkBuffer 1 1 10) = [7%nat] ∧ elements p (mkBuffer 0 2 10) = [3; 4]%nat.
Proof.
  (* one user appends and returns its pointer; two users take pointers and append *)
  epose proof (reachable_Get (E := nat) _ _ _ _ _ reachable_empty eq_refl eq_refl) as H1.
  epose proof (reachable_append _ _ _ _ [9%nat] _ _ H1 (Permutation_refl _) eq_refl) as H2.
  epose proof (reachable_Put _ _ _ _ _ H2 (Permutation_refl _) eq_refl) as H3.
  epose proof (reachable_Get _ _ _ _ _ H3 eq_refl eq_refl) as H4.
  epose proof (reachable_Get _ _ _ _ _ H4 eq_refl eq_refl) as H5.
  epose proof (reachable_append _ _ _ _ [7%nat] _ _ H5 (Permutation_refl _) eq_refl) as H6.
  epose proof (reachable_append _ _ _ _ [3; 4]%nat _ _ H6 (Permutation_swap _ _ _) eq_refl) as H7.
  destruct (pool_loans_isolated _ _ H7) as [_ Hel]. eexists. split.
  - apply (Hel (mkLoan 1 (mkBuffer 1 1 10) [7%nat])). cbn. set_solver.
  - apply (Hel (mkLoan 0 (mkBuffer 0 2 10) [3; 4]%nat)). cbn. set_solver.
Defined.

(** A library that records what it is told; spans are numbered. *)
#[local] Instance sample_telemetry : Telemetry unit string string nat (list (event string nat)) := {|
  otel_GetTracerProvider := mret tt;
  provider_Tracer _ nm := mret nm;
  tracer_Start _ nm options := λ o, (Val (length o), o ++ [Started (length o) nm options]);
  span_IsRecording _ := mret true;
  span_RecordError sp err := λ o, (Val tt, o ++ [Recorded sp err]);
  span_SetStatus sp code d := λ o, (Val tt, o ++ [Status sp code d]);
  span_End sp := λ o, (Val tt, o ++ [Ended sp]);
|}.

#[local] Instance sample_telemetry_laws : TelemetryLaws (O := list (event string nat)).
Proof. split with (events := id); intros; by repeat (eexists || split). Qed.

Definition sample_tracer : Tracer unit string string := mkTracer tt "t" ["service"].

Definition no_spans : spans_state string (list (event string nat)) := mkSpans (mkPool [] [] []) (mkPool [] [] []) [].

Lemma no_spans_ok : spans_ok no_spans [] [].
Proof. split; apply reachable_ok, reachable_empty. Qed.

