(* ===== verification/HttpServer.v ===== *)
(** * The life of an HTTP transport (transport/http_transport.go)

    [NewHttpTransport] and [New] with the shared [http.Client] objects they
    point to, [Register], [NewClient], [ListenAndServe] with its goroutine and
    wait group, [waitForConnect], [Shutdown] and [ListenAddress].  The network
    (listeners, servers, dialing, the context and the clock) is an interface
    with its documented behaviour as laws.  With them an HTTP transport is a
    [Transport] in the sense of Instance.v and ClusterHelper.v, so what is
    proved there of instances, daemons and clusters holds over HTTP, provided
    the wait of [ListenAndServe] ends ([WaitEnds]): the context has a deadline
    or the server comes to accept connections. *)

From S2P Require Import Prelude Errors Slices Picker Pb Group Metrics Instance ClusterHelper Md5 Url Http Tracer.

Definition DefaultBasePath : string := "/_groupcache/".
Definition defaultScheme : string := "http".

(** ** Objects *)

(** The [Transport] field of an [http.Client]. *)
Inductive RoundTripper :=
| NilTransport
| DefaultTransport                          (* http.DefaultTransport *)
| OtelTransport (base : RoundTripper)       (* otelhttp.NewTransport(base) *)
| OtherTransport (n : nat).

(** [http.DefaultClient] is the client at address 0. *)
Definition DefaultClient : nat := 0.

(** [slog.Default()] *)
Definition slog_Default : nat := 0.

(** How [Serve] returned: after [Shutdown], or with an error. *)
Inductive serve_end := ServerClosed | ServeFailed (err : error).

(** What the transport uses of net, crypto/tls, net/http, context and time:
    [L] are listeners, [Cfg] TLS configurations, servers are numbered. *)
Class HttpNet (L Cfg N : Type) := {
  net_Listen : string → M N (error + L);
  tls_NewListener : L → Cfg → L;
  listener_Addr : L → string;
  go_Serve : nat → L → M N unit;            (* a goroutine starts serving *)
  Serve_result : N → nat → option serve_end; (* [None] while it serves *)
  server_Shutdown : nat → M N (option error);
  DialContext : option Cfg → string → M N (option error); (* the connection is closed *)
  ctx_Err : N → option error;
  Sleep : Z → M N unit;
}.

Record HttpTransportOptions (Cfg P Tr A : Type) := mkHttpOptions {
  ho_Client : option nat;
  ho_Scheme : string;
  ho_BasePath : string;
  ho_Logger : option nat;
  ho_TLSConfig : option Cfg;
  ho_Tracer : option (Tracer P Tr A);
}.
Arguments mkHttpOptions {Cfg P Tr A}.
Arguments ho_Client {Cfg P Tr A}.
Arguments ho_Scheme {Cfg P Tr A}.
Arguments ho_BasePath {Cfg P Tr A}.
Arguments ho_Logger {Cfg P Tr A}.
Arguments ho_TLSConfig {Cfg P Tr A}.
Arguments ho_Tracer {Cfg P Tr A}.

Section HttpServer.
Context {L Cfg N P Tr A : Type} `{!HttpNet L Cfg N}.

Notation HttpTransportOptions := (HttpTransportOptions Cfg P Tr A).

(** The handler of a server. *)
Inductive Handler :=
| Mux (pattern : string) (t : nat)
| OtelHandler (h : Handler) (operation : string) (provider : P).

Record HttpTransport := mkHttpTransport {
  opts : HttpTransportOptions;
  ht_instance : option nat;
  wg : list nat;                 (* the servers whose goroutines have not ended *)
  listener : option L;
  server : option nat;
}.

Record http_state := mkHttpState {
  http_clients : list RoundTripper;
  transports : list HttpTransport;
  servers : list Handler;
  logged : list (nat * string);
  network : N;
}.

Abbreviation HM := (M http_state).

Definition on_net {B} (m : M N B) : HM B := λ s,
  let '(r, n) := m (network s) in
  (r, mkHttpState (http_clients s) (transports s) (servers s) (logged s) n).

(** The zero [HttpTransport], which an address that holds none reads as. *)
Definition zero_HttpTransport : HttpTransport :=
  mkHttpTransport (mkHttpOptions None "" "" None None None) None [] None None.

Definition deref (t : nat) : HM HttpTransport := λ s,
  (Val (default zero_HttpTransport (transports s !! t)), s).
Definition assign (t : nat) (x : HttpTransport) : HM unit := λ s,
  (Val tt, mkHttpState (http_clients s) (<[t := x]> (transports s)) (servers s) (logged s) (network s)).
Definition update (t : nat) (f : HttpTransport → HttpTransport) : HM unit :=
  x ← deref t; assign t (f x).

Definition new_client (rt : RoundTripper) : HM nat := λ s,
  (Val (length (http_clients s)),
   mkHttpState (http_clients s ++ [rt]) (transports s) (servers s) (logged s) (network s)).
Definition set_client_transport (c : nat) (f : RoundTripper → RoundTripper) : HM unit := λ s,
  (Val tt, mkHttpState (alter f c (http_clients s)) (transports s) (servers s) (logged s) (network s)).
Definition new_transport (x : HttpTransport) : HM nat := λ s,
  (Val (length (transports s)),
   mkHttpState (http_clients s) (transports s ++ [x]) (servers s) (logged s) (network s)).
Definition new_server (h : Handler) : HM nat := λ s,
  (Val (length (servers s)),
   mkHttpState (http_clients s) (transports s) (servers s ++ [h]) (logged s) (network s)).
Definition log (logger : option nat) (msg : string) : HM unit := λ s,
  match logger with
  | Some l => (Val tt, mkHttpState (http_clients s) (transports s) (servers s) (logged s ++ [(l, msg)]) (network s))
  | None => (Panicked, s)
  end.

(** ** Construction *)

(** The client of a transport: with a tracer, the transport of the given
    client is replaced in place. *)
Definition traced_client (c : option nat) (traced : bool) : HM nat :=
  match c with
  | None => if traced then new_client (OtelTransport DefaultTransport) else mret DefaultClient
  | Some c => if traced then _ ← set_client_transport c OtelTransport; mret c else mret c
  end.

Definition is_set {B} (x : option B) : bool := match x with Some _ => true | None => false end.

Definition NewHttpTransport (o : HttpTransportOptions) : HM nat :=
  let BasePath := if bool_decide (ho_BasePath o = "") then DefaultBasePath else ho_BasePath o in
  let Scheme := if bool_decide (ho_Scheme o = "") then defaultScheme else ho_Scheme o in
  client ← traced_client (ho_Client o) (is_set (ho_Tracer o));
  let Logger := default slog_Default (ho_Logger o) in
  let Scheme := if is_set (ho_TLSConfig o) then "https" else Scheme in
  new_transport (mkHttpTransport
    (mkHttpOptions (Some client) Scheme BasePath (Some Logger) (ho_TLSConfig o) (ho_Tracer o)) None [] None None).

Definition tls (x : HttpTransport) : bool := is_set (ho_TLSConfig (opts x)).

Definition Http_Register (t instance : nat) : HM unit :=
  update t (λ x, mkHttpTransport (opts x) (Some instance) (wg x) (listener x) (server x)).

Definition Http_New (t : nat) : HM nat := x ← deref t; NewHttpTransport (opts x).

Definition Http_NewClient (t : nat) (p : Info) : HM (error + HttpClient) :=
  x ← deref t; mret (inr (NewClient (ho_BasePath (opts x)) p)).

(** ** Serving *)

(** [waitForConnect]; [fuel] bounds the rounds of its loop. *)
Fixpoint connect_loop (fuel : nat) (cfg : option Cfg) (address : string) (errs : list string)
    : M N (option error) :=
  match fuel with
  | O => diverge
  | S fuel =>
      err ← DialContext cfg address;
      match err with
      | None => mret None
      | Some err =>
          let errs := errs ++ [Error err] in
          n ← get_state;
          match ctx_Err n with
          | Some cerr => mret (Some (ErrorString (String.concat newline (errs ++ [Error cerr]))))
          | None => _ ← Sleep (100 * Millisecond); connect_loop fuel cfg address errs
          end
      end
  end.

Definition waitForConnect (fuel : nat) (address : string) (cfg : option Cfg) : M N (option error) :=
  if bool_decide (address = "") then mret (Some (ErrorString "waitForConnect() requires a valid address"))
  else connect_loop fuel cfg address [].

(** The handler [ListenAndServe] installs. *)
Definition make_handler (x : HttpTransport) (t : nat) : Handler :=
  let mux := Mux (ho_BasePath (opts x)) t in
  match ho_Tracer (opts x) with
  | Some tracer => OtelHandler mux (ho_BasePath (opts x)) (traceProvider tracer)
  | None => mux
  end.

(** [gas] gives the fuel for [waitForConnect].  The goroutine serves the
    listener and the server of the time it is started. *)
Definition Http_ListenAndServe (gas : N → nat) (t : nat) (address : string) : HM (option error) :=
  x ← deref t;
  let handler := make_handler x t in
  r ← on_net (net_Listen address);
  match r with
  | inl err =>
      _ ← update t (λ x, mkHttpTransport (opts x) (ht_instance x) (wg x) None (server x));
      mret (Some (WrapError ("while starting HTTP listener: " ++ Error err)%string err))
  | inr l =>
      let l := match ho_TLSConfig (opts x) with Some cfg => tls_NewListener l cfg | None => l end in
      srv ← new_server handler;
      _ ← update t (λ x, mkHttpTransport (opts x) (ht_instance x) (wg x ++ [srv]) (Some l) (Some srv));
      _ ← log (ho_Logger (opts x)) ("Listening on " ++ address ++ " ....")%string;
      _ ← on_net (go_Serve srv l);
      s ← get_state;
      on_net (waitForConnect (gas (network s)) (listener_Addr l) (ho_TLSConfig (opts x)))
  end.

(** [t.wg.Wait()]: every goroutine ends when its [Serve] returns, and logs an
    error other than [http.ErrServerClosed]; a server that serves on blocks. *)
Definition goroutine_end (x : HttpTransport) (srv : nat) : HM unit :=
  s ← get_state;
  match Serve_result (network s) srv with
  | None => diverge
  | Some ServerClosed => mret tt
  | Some (ServeFailed err) =>
      log (ho_Logger (opts x)) ("while starting " ++ (if tls x then "HTTPS" else "HTTP") ++ " server")%string
  end.

Definition wg_Wait (t : nat) : HM unit :=
  x ← deref t;
  _ ← for_each (goroutine_end x) (wg x);
  update t (λ x, mkHttpTransport (opts x) (ht_instance x) [] (listener x) (server x)).

(** A method call on a nil [*http.Server] panics. *)
Definition Http_Shutdown (t : nat) : HM (option error) :=
  x ← deref t;
  match server x with
  | None => panic
  | Some srv =>
      err ← on_net (server_Shutdown srv);
      match err with
      | Some err => mret (Some err)
      | None => _ ← wg_Wait t; mret None
      end
  end.

(** A method call on a nil listener panics. *)
Definition Http_ListenAddress (t : nat) : HM string :=
  x ← deref t;
  match listener x with
  | None => panic
  | Some l => mret (listener_Addr l)
  end.

Definition Http_Transport (gas : N → nat) : Transport nat http_state HttpClient := {|
  transport_New := Http_New;
  transport_Register := Http_Register;
  transport_NewClient := Http_NewClient;
  transport_ListenAndServe := Http_ListenAndServe gas;
  transport_Shutdown := Http_Shutdown;
  transport_ListenAddress := Http_ListenAddress;
|}.

(** ** Laws of the network

    Documented behaviour: the calls return; a context with a deadline is done
    once the clock has passed it, and dialing with it comes back by then;
    [Sleep] pauses at least as long as asked.  [late] bounds how late the
    scheduler lets a goroutine run again.  A context need not have a deadline.
    A TLS listener has the address of the listener it wraps; after [Shutdown]
    returned nil, [Serve] has returned [http.ErrServerClosed], and other
    servers are not affected. *)
Class NetLaws := {
  clock : N → Z;
  deadline : N → option Z;
  late : Z;
  ctx_Err_law n d : deadline n = Some d → d <= clock n → ctx_Err n ≠ None;
  Sleep_law d n : 0 <= d → ∃ n', Sleep d n = (Val tt, n') ∧
    clock n + d <= clock n' <= clock n + d + late ∧ deadline n' = deadline n;
  DialContext_law cfg a n : ∃ e n', DialContext cfg a n = (Val e, n') ∧
    clock n <= clock n' ∧ deadline n' = deadline n ∧
    ∀ d, deadline n = Some d → clock n' <= Z.max (clock n) d + late;
  Listen_law a n : ∃ r n', net_Listen a n = (Val r, n');
  Serve_law srv l n : ∃ n', go_Serve srv l n = (Val tt, n');
  NewListener_law l cfg : listener_Addr (tls_NewListener l cfg) = listener_Addr l;
  Shutdown_law srv n : ∃ e n', server_Shutdown srv n = (Val e, n') ∧
    (e = None → Serve_result n' srv = Some ServerClosed) ∧
    ∀ srv', srv' ≠ srv → Serve_result n' srv' = Serve_result n srv';
}.

Context `{!NetLaws}.

Implicit Types (s : http_state) (n : N) (x : HttpTransport) (t : nat).

(** ** Waiting *)

(** Rounds until the deadline [d], and the one that notices. *)
Definition rounds d n : nat := S (Z.to_nat ((d - clock n) / (100 * Millisecond) + 1)).

(** One of the first [S k] dials connects, or finds the context done. *)
Fixpoint ends_within (k : nat) (cfg : option Cfg) (address : string) n : bool :=
  match DialContext cfg address n with
  | (Val None, _) => true
  | (Val (Some _), n') =>
      is_set (ctx_Err n') || match k with O => false | S k => ends_within k cfg address (Sleep (100 * Millisecond) n').2 end
  | _ => false
  end.

(** [r] is what the loop may return in the state [n]: nil after a connection,
    or an error when the context is done. *)
Definition connect_result (cfg : option Cfg) (address : string) (r : option error) n : Prop :=
  match r with
  | None => ∃ n0, DialContext cfg address n0 = (Val None, n)
  | Some _ => ctx_Err n ≠ None
  end.

Lemma late_nonneg n : 0 <= late.
Proof. destruct (Sleep_law 0 n) as (n' & _ & ? & _); lia. Qed.

Lemma connect_loop_ends k fuel cfg address errs n :
  ends_within k cfg address n = true → (k < fuel)%nat →
  ∃ r n', connect_loop fuel cfg address errs n = (Val r, n') ∧ connect_result cfg address r n'.
Proof.
  revert fuel errs n. induction k as [|k IH]; intros [|fuel] errs n Hk Hf; try lia; cbn [connect_loop ends_within] in *.
  all: destruct (DialContext_law cfg address n) as (e & n1 & Hd & _); rewrite Hd in Hk; mstep Hd.
  all: destruct e as [err|]; [mstep|by exists None, n1; split; [|exists n]].
  all: destruct (ctx_Err n1) as [cerr|] eqn:Hc; cbn [is_set orb] in Hk;
    [by eexists (Some _), n1; split; [|simpl; rewrite Hc]|].
  - done.
  - destruct (Sleep_law (100 * Millisecond) n1) as (n2 & Hs & _); [done|]. rewrite Hs in Hk. mstep Hs.
    apply IH; [done|lia].
Qed.

(** With the deadline [d], the loop is over 100 ms and two delays after it. *)
Lemma connect_loop_deadline fuel cfg address errs n d :
  deadline n = Some d → (0 < fuel)%nat → d - clock n <= (Z.of_nat fuel - 1) * (100 * Millisecond) →
  ∃ r n', connect_loop fuel cfg address errs n = (Val r, n') ∧ connect_result cfg address r n' ∧
    clock n' <= Z.max (clock n) (d + 100 * Millisecond + late) + late.
Proof.
  pose proof (late_nonneg n) as Hlate.
  revert errs n. induction fuel as [|fuel IH]; intros errs n Hdl Hf Hn; [lia|]. cbn [connect_loop].
  destruct (DialContext_law cfg address n) as (e & n1 & Hd & Hn1 & Hdl1 & Hby). specialize (Hby d Hdl).
  mstep Hd. destruct e as [err|]; [mstep|exists None, n1; unfold Millisecond; split_and!; [done|by exists n|lia]].
  destruct (ctx_Err n1) as [cerr|] eqn:Hc.
  { eexists (Some _), n1. unfold Millisecond. split_and!; [done|simpl; congruence|lia]. }
  assert (clock n1 < d) as Hpos.
  { destruct (decide (d <= clock n1)) as [Hle|]; [|lia]. by apply (ctx_Err_law n1 d) in Hle; [|congruence]. }
  destruct (Sleep_law (100 * Millisecond) n1) as (n2 & Hs & Hn2 & Hdl2); [done|]. mstep Hs.
  unfold Millisecond in *.
  destruct (IH (errs ++ [Error err]) n2) as (r & n' & Hr & Hres & Hclock); [congruence|lia|lia|].
  exists r, n'. split_and!; [exact Hr|exact Hres|lia].
Qed.

Lemma rounds_enough d n fuel :
  (rounds d n ≤ fuel)%nat → (0 < fuel)%nat ∧ d - clock n <= (Z.of_nat fuel - 1) * (100 * Millisecond).
Proof.
  pose proof (Z.div_mod (d - clock n) (100 * Millisecond)).
  pose proof (Z.mod_pos_bound (d - clock n) (100 * Millisecond)).
  unfold rounds, Millisecond in *. nia.
Qed.

(** The wait with this fuel ends: the context has a deadline and the fuel lasts
    until then, or a dial in between connects or finds the context done. *)
Definition wait_ends (fuel : nat) (cfg : option Cfg) (address : string) n : Prop :=
  (∃ d, deadline n = Some d ∧ (rounds d n ≤ fuel)%nat) ∨
  (∃ k, ends_within k cfg address n = true ∧ (k < fuel)%nat).

Lemma waitForConnect_result fuel address cfg n :
  wait_ends fuel cfg address n → ∃ r n', waitForConnect fuel address cfg n = (Val r, n').
Proof.
  intros Hw. unfold waitForConnect. case_bool_decide; [by eexists _, n|].
  destruct Hw as [(d & Hd & Hr)|(k & Hk & Hlt)].
  - destruct (rounds_enough _ _ _ Hr). destruct (connect_loop_deadline fuel cfg address [] n d) as (r & n' & ? & _); eauto.
  - destruct (connect_loop_ends k fuel cfg address [] n) as (r & n' & ? & _); eauto.
Qed.

(** C22: [waitForConnect] refuses an empty address at once.  Otherwise it
    returns nil only right after a connection succeeded, and an error only when
    the context is done.  With a context that has the deadline [d] it has
    returned by 100 ms and twice the scheduler's delay after [d] at the latest,
    after one round per 100 ms and one more; with any context, one without a
    deadline included, it returns with the first dial that connects or finds
    the context done. *)
Theorem waitForConnect_returns fuel address cfg n :
  (address = "" → waitForConnect fuel address cfg n
    = (Val (Some (ErrorString "waitForConnect() requires a valid address")), n)) ∧
  (∀ d, address ≠ "" → deadline n = Some d → (rounds d n ≤ fuel)%nat →
    ∃ r n', waitForConnect fuel address cfg n = (Val r, n') ∧ connect_result cfg address r n' ∧
      clock n' <= Z.max (clock n) (d + 100 * Millisecond + late) + late) ∧
  (∀ k, address ≠ "" → ends_within k cfg address n = true → (k < fuel)%nat →
    ∃ r n', waitForConnect fuel address cfg n = (Val r, n') ∧ connect_result cfg address r n').
Proof.
  unfold waitForConnect. split_and!.
  - by intros ->.
  - intros d Ha Hd Hr. rewrite bool_decide_false by done. destruct (rounds_enough _ _ _ Hr). by apply connect_loop_deadline.
  - intros k Ha Hk Hlt. rewrite bool_decide_false by done. by apply (connect_loop_ends k).
Qed.

(** ** Transports in memory *)

Lemma deref_eq t x s : transports s !! t = Some x → deref t s = (Val x, s).
Proof. unfold deref. by intros ->. Qed.

Lemma update_eq t f x s :
  transports s !! t = Some x →
  update t f s = (Val tt, mkHttpState (http_clients s) (<[t := f x]> (transports s)) (servers s) (logged s) (network s)).
Proof. intros Hx. unfold update. by mstep (deref_eq _ _ _ Hx). Qed.

Lemma on_net_eq {B} (m : M N B) s r n :
  m (network s) = (r, n) →
  on_net m s = (r, mkHttpState (http_clients s) (transports s) (servers s) (logged s) n).
Proof. unfold on_net. by intros ->. Qed.

(** What a started transport is, and what one that could not listen is. *)
Definition serving_transport x (srv : nat) (l : L) : HttpTransport :=
  mkHttpTransport (opts x) (ht_instance x) (wg x ++ [srv]) (Some l) (Some srv).
Definition unbound_transport x : HttpTransport :=
  mkHttpTransport (opts x) (ht_instance x) (wg x) None (server x).

(** The fuel [gas] lasts for the wait after a server was started: the context
    has a deadline, or the server comes to accept connections. *)
Class WaitEnds (gas : N → nat) :=
  wait_law srv l cfg n n' : go_Serve srv l n = (Val tt, n') → wait_ends (gas n') cfg (listener_Addr l) n'.

Context (gas : N → nat) `{!WaitEnds gas}.

Lemma ListenAndServe_cases t x lg a s :
  transports s !! t = Some x → ho_Logger (opts x) = Some lg →
  ∃ r s', Http_ListenAndServe gas t a s = (Val r, s') ∧ http_clients s' = http_clients s ∧
    ((∃ err, r = Some err ∧ transports s' = <[t := unbound_transport x]> (transports s)) ∨
     ∃ l, transports s' = <[t := serving_transport x (length (servers s)) l]> (transports s) ∧
       servers s' = servers s ++ [make_handler x t] ∧ logged s' = logged s ++ [(lg, "Listening on " ++ a ++ " ....")%string]).
Proof.
  intros Hx Hlog. unfold Http_ListenAndServe. mstep (deref_eq _ _ _ Hx).
  destruct (Listen_law a (network s)) as (r & n1 & Hl). mstep (on_net_eq _ _ _ _ Hl).
  destruct r as [err|l].
  { erewrite M_bind_val by (by apply (update_eq t _ x)). eexists _, _. split; [done|]. split; [done|]. left. eauto. }
  mstep. erewrite M_bind_val by (by apply (update_eq t _ x)).
  unfold log. rewrite Hlog. mstep.
  set (l' := match ho_TLSConfig (opts x) with Some cfg => tls_NewListener l cfg | None => l end).
  destruct (Serve_law (length (servers s)) l' n1) as (n2 & Hg).
  erewrite M_bind_val by (by apply on_net_eq). mstep. cbn [network].
  destruct (waitForConnect_result (gas n2) (listener_Addr l') (ho_TLSConfig (opts x)) n2) as (r & n3 & Hw);
    [by eapply wait_law|].
  eexists r, _. split; [by apply on_net_eq|]. split; [done|]. right. by exists l'.
Qed.

(** ** An HTTP transport is a transport *)

#[local] Instance http_Transport : Transport nat http_state HttpClient := Http_Transport gas.

#[export] Instance http_transport_laws : TransportLaws nat http_state HttpClient.
Proof. split. intros t info s. eexists _, s. split; [done|]. by intros c [= <-]. Qed.

Definition http_listens s t : option string := x ← transports s !! t; listener_Addr <$> listener x.
Definition http_exists s t : Prop := ∃ x lg, transports s !! t = Some x ∧ ho_Logger (opts x) = Some lg.

Lemma http_exists_insert s s' t x x' :
  transports s !! t = Some x → ho_Logger (opts x') = ho_Logger (opts x) →
  transports s' = <[t := x']> (transports s) → ∀ t', http_exists s t' → http_exists s' t'.
Proof.
  intros Hx Hl Ht t' (y & lg & Hy & Hlg). unfold http_exists. rewrite Ht.
  destruct (decide (t' = t)) as [->|Hne].
  - exists x', lg. simplify_eq. rewrite list_lookup_insert_eq by (by eapply lookup_lt_Some). by rewrite Hl.
  - exists y, lg. by rewrite list_lookup_insert_ne.
Qed.

Lemma http_listens_insert s s' t x' :
  transports s' = <[t := x']> (transports s) → ∀ t', t' ≠ t → http_listens s' t' = http_listens s t'.
Proof. intros Ht t' Hne. unfold http_listens. by rewrite Ht, list_lookup_insert_ne. Qed.

Lemma NewHttpTransport_eq o s :
  ∃ x cl, NewHttpTransport o s = (Val (length (transports s)),
      mkHttpState cl (transports s ++ [x]) (servers s) (logged s) (network s)) ∧
    listener x = None ∧ is_Some (ho_Logger (opts x)).
Proof.
  unfold NewHttpTransport, traced_client. destruct (ho_Client o), (ho_Tracer o); eexists _, _; by repeat (split || eexists).
Qed.

#[export] Program Instance http_listen_laws : ListenLaws nat http_state HttpClient := {|
  listens := http_listens;
  exists_in := http_exists;
|}.
Next Obligation.
  intros t s a Ha. unfold http_listens in Ha. destruct (transports s !! t) as [x|] eqn:Hx; [|done]. cbn in *.
  unfold Http_ListenAddress. mstep (deref_eq _ _ _ Hx). destruct (listener x); by simplify_eq/=.
Qed.
Next Obligation.
  intros t a s (x & lg & Hx & Hlg). destruct (ListenAndServe_cases t x lg a s Hx Hlg) as (r & s' & Hr & _ & Hcases).
  exists r, s'. split; [exact Hr|]. destruct Hcases as [(err & -> & Ht)|(l & Ht & _)].
  all: split; [by eapply http_listens_insert|split; [|by refine (http_exists_insert s s' t x _ Hx _ Ht)]].
  { done. }
  intros _. unfold http_listens. rewrite Ht, list_lookup_insert_eq by (by eapply lookup_lt_Some). by eexists.
Qed.
Next Obligation.
  intros t s (x & lg & Hx & Hlg). cbn. unfold Http_New.
  destruct (NewHttpTransport_eq (opts x) s) as (x' & cl & Hn & Hnone & [lg' Hlg']).
  eexists _, _. split; [by mstep (deref_eq _ _ _ Hx)|]. unfold http_listens, http_exists. cbn [transports].
  split_and!.
  - by rewrite lookup_ge_None_2.
  - intros t2 Hne. destruct (decide (t2 < length (transports s))%nat); [by rewrite lookup_app_l|].
    rewrite !lookup_ge_None_2; [done|lia|]. rewrite length_app. simpl. lia.
  - exists x', lg'. by rewrite list_lookup_middle.
  - intros t2 (y & lg2 & Hy & Hl2). exists y, lg2. split; [by apply lookup_app_l_Some|done].
Qed.
Next Obligation.
  intros t i s (x & lg & Hx & Hlg). eexists. split; [by apply update_eq|]. split.
  - intros t'. unfold http_listens. cbn [transports]. destruct (decide (t' = t)) as [->|Hne].
    + rewrite list_lookup_insert_eq by (by eapply lookup_lt_Some). by rewrite Hx.
    + by rewrite list_lookup_insert_ne.
  - by apply (http_exists_insert s _ t x (mkHttpTransport (opts x) (Some i) (wg x) (listener x) (server x)) Hx).
Qed.
Next Obligation. intros t info s. by eexists _, s. Qed.

(** ** Serving and shutting down *)

(** [Shutdown] of a transport, as far as the goroutines allow. *)
Lemma Shutdown_eq t x srv e n s :
  transports s !! t = Some x → server x = Some srv → server_Shutdown srv (network s) = (Val e, n) →
  Http_Shutdown t s =
    (match e with Some err => mret (Some err) | None => _ ← wg_Wait t; mret None end)
      (mkHttpState (http_clients s) (transports s) (servers s) (logged s) n).
Proof.
  intros Hx Hsrv Hsd. unfold Http_Shutdown. mstep (deref_eq _ _ _ Hx). rewrite Hsrv.
  by mstep (on_net_eq _ _ _ _ Hsd).
Qed.

(** One goroutine, whose server was shut down. *)
Lemma wg_Wait_one t x srv s :
  transports s !! t = Some x → wg x = [srv] → Serve_result (network s) srv = Some ServerClosed →
  wg_Wait t s = (Val tt, mkHttpState (http_clients s)
    (<[t := mkHttpTransport (opts x) (ht_instance x) [] (listener x) (server x)]> (transports s))
    (servers s) (logged s) (network s)).
Proof.
  intros Hx Hwg Hclosed. unfold wg_Wait. mstep (deref_eq _ _ _ Hx). rewrite Hwg. cbn [for_each].
  assert (goroutine_end x srv s = (Val tt, s)) as Hend by (unfold goroutine_end; mstep; by rewrite Hclosed).
  rewrite (M_bind_val _ _ s [tt] s) by (by mstep Hend). by rewrite (update_eq t _ x _ Hx).
Qed.

(** A transport that was started listens where [ListenAddress] says, and
    [Shutdown] ends it: when the server shuts down, [Shutdown] returns nil, no
    goroutine of the transport is left and nothing is logged as an error; when
    it does not, its error is returned. *)
Theorem http_serve_and_shutdown t x lg a s s1 s2
  (Hx : transports s !! t = Some x) (Hlog : ho_Logger (opts x) = Some lg) (Hwg : wg x = [])
  (Hserve : Http_ListenAndServe gas t a s = (Val None, s1))
  (Hsince : transports s2 = transports s1) :
  (∃ l, listener <$> transports s1 !! t = Some (Some l) ∧ Http_ListenAddress t s2 = (Val (listener_Addr l), s2)) ∧
  ∃ e s3, Http_Shutdown t s2 = (Val e, s3) ∧ logged s3 = logged s2 ∧
    (server_Shutdown (length (servers s)) (network s2)).1 = Val e ∧
    (e = None → wg <$> transports s3 !! t = Some []).
Proof.
  destruct (ListenAndServe_cases t x lg a s Hx Hlog) as (r & s' & Hr & _ & Hcases).
  rewrite Hserve in Hr. injection Hr as <- <-.
  destruct Hcases as [(err & ? & _)|(l & Ht & _)]; [done|].
  set (srv := length (servers s)) in *.
  assert (transports s1 !! t = Some (serving_transport x srv l)) as Hx1.
  { rewrite Ht. apply list_lookup_insert_eq. by eapply lookup_lt_Some. }
  assert (transports s2 !! t = Some (serving_transport x srv l)) as Hx2 by (by rewrite Hsince).
  split.
  - exists l. split; [by rewrite Hx1|]. unfold Http_ListenAddress. by mstep (deref_eq _ _ _ Hx2).
  - destruct (Shutdown_law srv (network s2)) as (e & n & Hsd & Hclosed & _).
    rewrite (Shutdown_eq t _ srv e n s2 Hx2 eq_refl Hsd), Hsd.
    destruct e as [err|]; [by eexists (Some err), _|].
    eexists None, _. split.
    { erewrite M_bind_val; [done|]. apply (wg_Wait_one t (serving_transport x srv l) srv); [done| |].
      - cbn. by rewrite Hwg.
      - by apply Hclosed. }
    split_and!; [done|done|]. intros _. cbn [transports].
    by rewrite list_lookup_insert_eq by (by eapply lookup_lt_Some).
Qed.

(** A second [ListenAndServe] on a transport makes it lose its first server:
    [Shutdown] then shuts down the second only and waits forever for the
    goroutine of the first. *)
Theorem http_second_listen_blocks_shutdown t x lg a a' s s1 s2
  (Hx : transports s !! t = Some x) (Hlog : ho_Logger (opts x) = Some lg) (Hwg : wg x = [])
  (Hfirst : Http_ListenAndServe gas t a s = (Val None, s1))
  (Hsecond : Http_ListenAndServe gas t a' s1 = (Val None, s2))
  (Hserving : Serve_result (network s2) (length (servers s)) = None)
  (Hdown : (server_Shutdown (length (servers s1)) (network s2)).1 = Val None) :
  (Http_Shutdown t s2).1 = Diverged.
Proof.
  destruct (ListenAndServe_cases t x lg a s Hx Hlog) as (r & s' & Hr & _ & Hcases).
  rewrite Hfirst in Hr. injection Hr as <- <-.
  destruct Hcases as [(err & ? & _)|(l & Ht & Hs & _)]; [done|].
  assert (transports s1 !! t = Some (serving_transport x (length (servers s)) l)) as Hx1.
  { rewrite Ht. apply list_lookup_insert_eq. by eapply lookup_lt_Some. }
  destruct (ListenAndServe_cases t _ lg a' s1 Hx1 Hlog) as (r & s' & Hr & _ & Hcases).
  rewrite Hsecond in Hr. injection Hr as <- <-.
  destruct Hcases as [(err & ? & _)|(l' & Ht' & _)]; [done|].
  set (x2 := serving_transport (serving_transport x (length (servers s)) l) (length (servers s1)) l') in *.
  assert (transports s2 !! t = Some x2) as Hx2.
  { rewrite Ht'. apply list_lookup_insert_eq. by eapply lookup_lt_Some. }
  assert (length (servers s) ≠ length (servers s1)) as Hne by (rewrite Hs, length_app; simpl; lia).
  destruct (Shutdown_law (length (servers s1)) (network s2)) as (e & n & Hsd & _ & Hother).
  rewrite Hsd in Hdown. injection Hdown as ->.
  rewrite (Shutdown_eq t x2 _ None n s2 Hx2 eq_refl Hsd).
  unfold mbind, M_bind, wg_Wait. erewrite M_bind_val by (by apply (deref_eq t x2)).
  unfold mbind, M_bind. cbn [x2 serving_transport wg]. rewrite Hwg. cbn [app for_each].
  unfold mbind, M_bind. unfold goroutine_end at 1. erewrite M_bind_val by done. cbn [network].
  by rewrite Hother, Hserving by done.
Qed.

(** ** Clones *)

Lemma Http_New_traced t x c tr rt s :
  transports s !! t = Some x → ho_Client (opts x) = Some c → ho_Tracer (opts x) = Some tr →
  http_clients s !! c = Some rt →
  ∃ t' s', Http_New t s = (Val t', s') ∧ transports s' !! t = Some x ∧
    http_clients s' !! c = Some (OtelTransport rt) ∧
    (ho_Client ∘ opts <$> transports s' !! t') = Some (Some c).
Proof.
  intros Hx Hc Htr Hrt. unfold Http_New. mstep (deref_eq _ _ _ Hx).
  unfold NewHttpTransport. rewrite Hc, Htr. eexists _, _. split; [done|]. cbn [transports http_clients].
  split_and!.
  - by apply lookup_app_l_Some.
  - by rewrite list_lookup_alter_eq, Hrt.
  - by rewrite list_lookup_middle.
Qed.

(** with a tracer, every clone made by [New] wraps the HTTP client that all
    clones share once more: after [n] clones a request passes through [n]
    additional tracing transports. *)
Theorem http_clones_wrap_shared_client t x c tr rt (k : nat) s
  (Hx : transports s !! t = Some x) (Hclient : ho_Client (opts x) = Some c)
  (Htracer : ho_Tracer (opts x) = Some tr) (Hrt : http_clients s !! c = Some rt) :
  ∃ ts s', for_each (λ _ : unit, Http_New t) (replicate k tt) s = (Val ts, s') ∧
    http_clients s' !! c = Some (Nat.iter k OtelTransport rt).
Proof.
  revert rt s Hx Hrt. induction k as [|k IH]; intros rt s Hx Hrt; [by eexists [], s|]. cbn [replicate for_each].
  destruct (Http_New_traced t x c tr rt s Hx Hclient Htracer Hrt) as (t' & s1 & Hn & Hx1 & Hrt1 & _). mstep Hn.
  destruct (IH _ s1 Hx1 Hrt1) as (ts & s2 & Hr & Hit). mstep Hr. eexists _, _. split; [done|].
  rewrite Hit. f_equal. clear. induction k as [|k IH]; [done|]. simpl. by rewrite IH.
Qed.

End HttpServer.

(** ** Witnesses *)

(** A network that accepts connections 300 ms after the start; it knows the
    servers that were shut down, the time and the deadline of the context.  A
    goroutine that slept runs again a millisecond late. *)
Notation sample_network := (list nat * Z * option Z)%type.

#[local] Instance sample_net : HttpNet string unit sample_network := {|
  net_Listen a := mret (inr a);
  tls_NewListener l _ := l;
  listener_Addr l := l;
  go_Serve _ _ := mret tt;
  Serve_result n srv := if bool_decide (srv ∈ n.1.1) then Some ServerClosed else None;
  server_Shutdown srv := λ '(closed, now, d), (Val None, (srv :: closed, now, d));
  DialContext _ _ := λ '(closed, now, d),
    (Val (if bool_decide (300 * Millisecond <= now) then None else Some (ErrorString "connection refused")),
     (closed, now, d));
  ctx_Err n := match n.2 with
    | Some d => if bool_decide (d <= n.1.2) then Some (ErrorString "context deadline exceeded") else None
    | None => None
    end;
  Sleep d := λ '(closed, now, dl), (Val tt, (closed, now + d + Millisecond, dl));
|}.

#[local] Program Instance sample_net_laws : NetLaws :=
  {| clock n := n.1.2; deadline n := n.2; late := Millisecond |}.
Next Obligation. intros [[c now] dl] d Hd Hle. simpl in *. subst dl. by rewrite bool_decide_true. Qed.
Next Obligation. intros d [[c now] dl] Hd. eexists. split; [done|]. cbn. split; [unfold Millisecond; lia|done]. Qed.
Next Obligation.
  intros cfg a [[c now] dl]. eexists _, _. split; [done|]. cbn. unfold Millisecond. split_and!; [lia|done|lia].
Qed.
Next Obligation. intros a n. by eexists _, _. Qed.
Next Obligation. intros srv l n. by eexists. Qed.
Next Obligation. done. Qed.
Next Obligation.
  intros srv [[c now] dl]. eexists _, _. split; [done|]. cbn. split; [intros _; by rewrite bool_decide_true by set_solver|].
  intros srv' Hne. by rewrite (bool_decide_ext (srv' ∈ srv :: c) (srv' ∈ c)) by set_solver.
Qed.

(** The server accepts by the fourth dial, whatever the context. *)
Definition sample_gas (n : sample_network) : nat := rounds (300 * Millisecond) n.

Lemma sample_ends k cfg a (n : sample_network) :
  300 * Millisecond - n.1.2 <= Z.of_nat k * (100 * Millisecond) → ends_within k cfg a n = true.
Proof.
  revert n. induction k as [|k IH]; intros [[c now] dl] Hk; cbn [ends_within DialContext sample_net fst snd] in *.
  - by rewrite bool_decide_true by lia.
  - case_bool_decide; [done|]. apply orb_true_iff. right. apply IH. cbn. unfold Millisecond in *. lia.
Qed.

#[local] Instance sample_wait_ends : WaitEnds sample_gas.
Proof.
  intros srv l cfg n n' _. right. exists (pred (sample_gas n')). split; [|apply Nat.lt_succ_diag_r].
  apply sample_ends. unfold sample_gas. destruct (rounds_enough (300 * Millisecond) n' _ (le_n _)) as [H H0].
  rewrite Nat2Z.inj_pred by done. exact H0.
Qed.

(** A second until the deadline, and no deadline at all. *)
Lemma waitForConnect_returns_witness :
  (∃ r n', waitForConnect (rounds Second ([], 0, Some Second)) "127.0.0.1:8080" None ([], 0, Some Second) = (Val r, n') ∧
    n'.1.2 <= Z.max 0 (Second + 100 * Millisecond + Millisecond) + Millisecond) ∧
  (∃ r n', waitForConnect 4 "127.0.0.1:8080" None ([], 0, None) = (Val r, n') ∧
    connect_result None "127.0.0.1:8080" r n').
Proof.
  split.
  - destruct (waitForConnect_returns (rounds Second ([], 0, Some Second)) "127.0.0.1:8080" None ([], 0, Some Second))
      as (_ & Hd & _).
    destruct (Hd Second) as (r & n' & Hr & _ & Hc); [discriminate|reflexivity|apply le_n|].
    exists r, n'. split; [exact Hr|exact Hc].
  - apply (waitForConnect_returns 4 "127.0.0.1:8080" None ([], 0, None)) with (k := 3%nat);
      [discriminate|vm_compute; reflexivity|lia].
Defined.

Notation sample_http := (http_state (L := string) (Cfg := unit) (N := sample_network) (P := unit) (Tr := string) (A := string)).

(** One transport with the default options, and one with a tracer. *)
Definition plain_options : HttpTransportOptions unit unit string string := mkHttpOptions None "" "" None None None.
Definition traced_options : HttpTransportOptions unit unit string string :=
  mkHttpOptions None "" "" None None (Some sample_tracer).

Definition two_transports : sample_http :=
  ((_ ← NewHttpTransport plain_options; NewHttpTransport traced_options)
     (mkHttpState [NilTransport] [] [] [] ([], 0, Some Second))).2.

Definition transport_at (t : nat) : HttpTransport := default zero_HttpTransport (transports two_transports !! t).

Definition serving_first : sample_http := (Http_ListenAndServe sample_gas 0 "127.0.0.1:8080" two_transports).2.
Definition serving_twice : sample_http := (Http_ListenAndServe sample_gas 0 "127.0.0.1:8081" serving_first).2.

Lemma http_serve_and_shutdown_witness :
  ∃ e s3, Http_Shutdown 0 serving_first = (Val e, s3) ∧ e = None ∧ wg <$> transports s3 !! 0%nat = Some [].
Proof.
  destruct (http_serve_and_shutdown sample_gas 0 (transport_at 0) slog_Default "127.0.0.1:8080" two_transports serving_first serving_first)
    as (_ & e & s3 & Hs & _ & He & Hwg); [reflexivity|reflexivity|reflexivity|vm_compute; reflexivity|reflexivity|].
  assert (e = None) as -> by (vm_compute in He; congruence).
  exists None, s3. split; [exact Hs|]. split; [reflexivity|]. apply Hwg. reflexivity.
Defined.

Lemma http_second_listen_blocks_shutdown_witness : (Http_Shutdown 0 serving_twice).1 = Diverged.
Proof.
  apply (http_second_listen_blocks_shutdown sample_gas 0 (transport_at 0) slog_Default "127.0.0.1:8080" "127.0.0.1:8081" two_transports serving_first
    serving_twice); [reflexivity|reflexivity|reflexivity|vm_compute; reflexivity|vm_compute; reflexivity| |];
    vm_compute; reflexivity.
Defined.

(** The client of the traced transport, after three clones. *)
Lemma http_clones_wrap_shared_client_witness :
  ∃ ts s', for_each (λ _ : unit, Http_New 1) (replicate 3 tt) two_transports = (Val ts, s') ∧
    http_clients s' !! 1%nat =
      Some (OtelTransport (OtelTransport (OtelTransport (OtelTransport DefaultTransport)))).
Proof.
  apply (http_clones_wrap_shared_client 1 (transport_at 1) 1 sample_tracer (OtelTransport DefaultTransport) 3 two_transports);
    reflexivity.
Defined.
