(* ===== verification/Server.v ===== *)
(** * The example server (cmd/server/main.go)

    [main]: the peer flag, the set-up of the transport, the instance and the
    group, the getter over the map [store], and the handlers of /set and
    /cache.  Command-line parsing, the listening socket, printing and signals
    are left out. *)

From S2P Require Import Prelude Errors Slices ByteView Sinks Picker MutexCache CacheIface Pb Group Recorder GroupCorrect Metrics Instance Md5 Url Http Tracer HttpServer.
From Stdlib Require Import Ascii.

Definition comma : ascii := ","%char.

(** ** Set-up *)

(** The loop over [strings.Split( *peerFlag, ",")]. *)
Definition parse_peers (addr peerFlag : string) : list Info :=
  (λ p, mkInfo p (bool_decide (p = addr))) <$> split_on comma peerFlag.

Section Main.
Context {L Cfg N P Tr A PM Mtr Ins : Type} `{!HttpNet L Cfg N}.

Notation hstate := (http_state (L := L) (Cfg := Cfg) (N := N) (P := P) (Tr := Tr) (A := A)).
Context `{!NetLaws (HttpNet0 := HttpNet0), !SortSlice, !Meter mutexCache Mtr Ins hstate}.
Context (fnv1_HashBytes64 : HashFn) (gas : N → nat).

#[local] Instance main_Transport : Transport nat hstate HttpClient := Http_Transport gas.

Notation InstanceState := (InstanceState (K := mutexCache) (H := nat) (R := HttpClient) (P := PM) (Mtr := Mtr)).

(** From the options to the group: [log.Fatal] ends [main] with the error. *)
Definition serve_group (peers : list Info) : M (InstanceState * hstate) (error + nat) :=
  err ← SetPeers fnv1_HashBytes64 peers;
  match err with
  | Some err => mret (inl err)
  | None => NewGroup (λ _, false) default_CacheFactory (newMutexCache 0) "cache1" (Z.shiftl 64 20) true
  end.

(** [transport.NewHttpTransport(transport.HttpTransportOptions{})] and
    [groupcache.New] with a logger and that transport. *)
Definition main_transport : M hstate nat := NewHttpTransport (mkHttpOptions None "" "" None None None).
Definition main_instance (self t : nat) : M hstate InstanceState :=
  New fnv1_HashBytes64 (mret t) default_CacheFactory self (mkInstanceOptions None 0 true (Some t) None None).

(** Runs on a new instance and keeps it. *)
Definition on_new_instance (i : InstanceState) (m : M (InstanceState * hstate) (error + nat))
    : M hstate ((error + nat) * InstanceState) := λ s,
  match m (i, s) with
  | (Val x, (i, s)) => (Val (x, i), s)
  | (Panicked, (_, s)) => (Panicked, s)
  | (Diverged, (_, s)) => (Diverged, s)
  end.

Definition main_setup (self : nat) (addr peerFlag : string) : M hstate ((error + nat) * InstanceState) :=
  t ← main_transport;
  i ← main_instance self t;
  on_new_instance i (serve_group (parse_peers addr peerFlag)).

(** ** The peer flag *)

Lemma http_add_peers (t : nat) ps p b (s : hstate) :
  ∃ p', add_peers (R := HttpClient) fnv1_HashBytes64 t ps p b s = (Val (inr (p', b || existsb IsSelf ps)), s).
Proof.
  revert p b. induction ps as [|info ps IH]; intros p b; cbn [add_peers existsb].
  - exists p. by rewrite orb_false_r.
  - destruct (IsSelf info).
    + destruct (IH (Picker.Add fnv1_HashBytes64 (SelfClient (mkNoOp (mkInfo (Address info) true))) p) true) as [p' Hp].
      exists p'. by rewrite orb_true_r.
    + mstep. cbv beta iota. cbn [orb]. apply IH.
Qed.

(** Clients are always made, so only the peer list can be refused. *)
Lemma http_SetPeers (t : nat) ps (i : InstanceState) (s : hstate) :
  io_Transport (i_opts i) = Some t →
  ∃ i', SetPeers fnv1_HashBytes64 ps (i, s)
    = (Val (if existsb IsSelf ps then None else Some missing_self), (i', s)).
Proof.
  intros Ht. unfold SetPeers. mstep. rewrite Ht.
  destruct (http_add_peers t ps (NewPicker fnv1_HashBytes64 (picker_options (i_opts i))) false s) as [p' Hp].
  erewrite M_bind_val by (unfold on_transport; by rewrite Hp). cbv beta iota. cbn [orb].
  destruct (existsb IsSelf ps); by eexists.
Qed.

Lemma parse_peers_self addr peerFlag :
  existsb IsSelf (parse_peers addr peerFlag) = bool_decide (addr ∈ split_on comma peerFlag).
Proof.
  unfold parse_peers. induction (split_on comma peerFlag) as [|p ps IH]; [done|]. cbn [fmap list_fmap existsb IsSelf].
  rewrite IH, <-bool_decide_or. apply bool_decide_ext. rewrite elem_of_cons. naive_solver.
Qed.

(** The server starts exactly when its own address is one of the
    comma-separated peers: then its instance serves the ring of those peers
    with itself marked and has the group "cache1"; otherwise [main] ends with
    the error of [SetPeers]. *)
Theorem server_starts_iff_listed self addr peerFlag (s : hstate) :
  ∃ r i s', main_setup self addr peerFlag s = (Val (r, i), s') ∧
    if bool_decide (addr ∈ split_on comma peerFlag) then
      ∃ g, r = inr g ∧ GetGroup i "cache1" = Some g ∧ serves fnv1_HashBytes64 i (parse_peers addr peerFlag)
    else r = inl missing_self.
Proof.
  unfold main_setup.
  destruct (NewHttpTransport_eq (mkHttpOptions None "" "" None None None) s) as (x & cl & Ht & _).
  erewrite M_bind_val by exact Ht. set (t := length (transports s)) in *.
  set (s1 := mkHttpState cl (transports s ++ [x]) (servers s) (logged s) (network s)).
  set (i := mkInstanceState ∅ [] (NewPicker fnv1_HashBytes64 (mkOptions None 0))
    (mkInstanceOptions None 0 true (Some t) (Some default_CacheFactory) None) : InstanceState).
  assert (∃ s2, main_instance self t s1 = (Val i, s2)) as [s2 Hi].
  { eexists. unfold main_instance, New, with_transport. cbn [io_Transport]. mstep. cbv beta iota.
    erewrite M_bind_val; [done|]. apply (update_eq t _ x). by apply list_lookup_middle. }
  mstep Hi. unfold on_new_instance, serve_group.
  destruct (SetPeers_cases fnv1_HashBytes64 t (parse_peers addr peerFlag) i s2 eq_refl)
    as (r & i' & s3 & Hset & Hres).
  destruct (http_SetPeers t (parse_peers addr peerFlag) i s2 eq_refl) as [i2 Hset2].
  rewrite Hset2 in Hset. injection Hset as Hr <- <-. rewrite parse_peers_self in *.
  mstep Hset2. case_bool_decide; subst r.
  - destruct Hres as (Hserves & _ & Hg & Hh & Ho). eexists _, _, _. split.
    + erewrite (NewGroup_free _ _ _ _ _ i2 s2 s2 _ _ None); [done|by rewrite Hg|by rewrite Ho|by rewrite Ho|].
      unfold metrics_outcome. by rewrite Ho.
    + eexists. split; [done|]. split; [unfold GetGroup; simpl; by rewrite lookup_insert_eq|exact Hserves].
  - eexists _, _, _. split; done.
Qed.

End Main.

(** ** The handlers *)

Section Handlers.
Context {K C V message : Type} `{!Cache K, !CacheLaws K, !Client C, !Proto message, !SortSlice}.
Context `{!EqDecision C, !Countable C, !MapRange string C, !MapRange C (list string), !GoOrder}.

(** The world of the server: the map [store], and everything else. *)
Abbreviation store_world := (gmap string string * V)%type.
Context `{!Peer C store_world}.

(** The hash function, the instance, the clock, and the context of a request. *)
Context (fnv1 : HashFn) (i : Instance K C) (clock : V → Time * V).
Context (request_ctx : option (store_world → option error)).

Notation Sink := (Sink (message := message)).

Definition server_Now (w : store_world) : Time * store_world :=
  let '(t, v) := clock w.2 in (t, (w.1, v)).

(** The getter: the value is cached for ten minutes. *)
Definition server_getter (key : string) (dest : Sink) : M (Mem * store_world) (option error * Sink) := λ '(m, w),
  match w.1 !! key with
  | None => (Val (Some (ErrorString "key not set"), dest), (m, w))
  | Some v =>
      let '(now, w) := server_Now w in
      match (b ← alloc (string_bytes v); SetBytes dest (Some b) (now + 600 * Second)) m with
      | (Val (dest, err), m) => (Val (err, dest), (m, w))
      | (Panicked, m) => (Panicked, (m, w))
      | (Diverged, m) => (Diverged, (m, w))
      end
  end.

#[local] Instance server_env : Env K C store_world message := {|
  fnv1_HashBytes64 := fnv1;
  inst := i;
  getter_Get := server_getter;
  time_Now := server_Now;
  ctx := request_ctx;
|}.

Notation St := (state K store_world).

(** /set: only the map of this process. *)
Definition handle_set (key value : string) : M St Response := λ s,
  (Val ok, mkSt (st_g s) (st_mem s) (<[key := value]> (st_w s).1, (st_w s).2)).

(** /cache *)
Definition handle_cache (key : string) : M St Response :=
  '(err, value) ← Group.Get key (Some (AllocatingByteSliceSink (Some None)));
  match err with
  | Some err => mret (http_Error (Error err) 404)
  | None =>
      s ← get_state;
      let b := match value with Some k => sink_variable k | None => None end in
      mret (mkResponse 200 (inr (contents (st_mem s) b ++ string_bytes newline)))
  end.

Notation instance_PickPeer := (instance_PickPeer (K := K) (C := C) (W := store_world) (message := message)).

Lemma server_Now_store w : (server_Now w).2.1 = w.1.
Proof. unfold server_Now. by destruct (clock w.2). Qed.

Lemma tick_store n (w : store_world) :
  (tick (K := K) (C := C) (W := store_world) (message := message) n w).1 = w.1.
Proof. induction n as [|n IH] in w |- *; [done|]. simpl. rewrite IH. apply server_Now_store. Qed.

(** What the getter delivers for a key of the map. *)
Lemma server_getter_found key value (dest : Sink) m (w : store_world) :
  w.1 !! key = Some value → (∀ m', accepts m' dest (string_bytes value)) →
  ∃ dest' m' e, server_getter key dest (m, w) = (Val (None, dest'), (m', (server_Now w).2)) ∧
    received dest (string_bytes value) e m' dest'.
Proof.
  intros Hv Hacc. unfold server_getter. rewrite Hv. destruct (server_Now w) as [now w'].
  destruct (alloc_new m (string_bytes value)) as [Hwf Hc].
  destruct (SetBytes_spec (m ++ [string_bytes value]) dest
    (Some (Slice (length m) 0 (length (string_bytes value)) (length (string_bytes value)))) (now + 600 * Second))
    as (k' & m' & Hs & Hr & _); [done|by rewrite Hc|].
  erewrite M_bind_val by done. rewrite Hs. rewrite Hc in Hr. eauto.
Qed.

(** The bytes a caller finds in its variable. *)
Lemma received_variable (d : option bytes) data e m' k' :
  received (AllocatingByteSliceSink (message := message) d) data e m' k' → contents m' (sink_variable k') = data.
Proof. intros (_ & _ & _ & Hd). destruct k'; try done. simpl in *. by destruct Hd as (c & -> & Hc). Qed.

(** C37: on the server that owns the key, with its cache on, a /cache request
    after a /set answers 200 with a value and a newline.  While neither cache
    holds the key unexpired, the value is the one that was set, it is the only
    one the caches can hold for the key then, and the main cache stores it when
    it has room.  But a /set does not reach the group: when the key is cached,
    /cache answers the cached value, whatever was set. *)
Theorem server_set_then_cache s σm σh key value
  (Hrep : rep s σm σh) (Hmax : 0 < maxCacheBytes (st_g s)) (Howner : (instance_PickPeer key).2 = false) :
  ∃ s1, handle_set key value s = (Val ok, s1) ∧
    (missing (message := message) (C := C) (K := K) σm σh (st_w s1) key → ∃ s2 σm' σh' v,
      handle_cache key s1 = (Val (mkResponse 200 (inr (string_bytes value ++ string_bytes newline))), s2) ∧
      rep s2 σm' σh' ∧ σm' ⊆ <[key := v]> σm ∧ σh' ⊆ σh ∧ view_bytes (st_mem s2) v = string_bytes value ∧
      (cache_room (mainCache (st_g s)) key v → σm' !! key = Some v)) ∧
    (∀ v, found (message := message) (C := C) (K := K) σm σh (st_w s) key = Some v → view_wf (st_mem s) v →
      ∃ s2, handle_cache key s1 =
        (Val (mkResponse 200 (inr (view_bytes (st_mem s) v ++ string_bytes newline))), s2)).
Proof.
  set (s1 := mkSt (st_g s) (st_mem s) (<[key := value]> (st_w s).1, (st_w s).2) : St). exists s1.
  set (sink := AllocatingByteSliceSink (message := message) (Some None)). split_and!; [done| |].
  - intros Hmiss. destruct (server_getter_found key value sink (st_mem s1)
      (tick (K := K) (C := C) (message := message) 4 (st_w s1))) as (k' & m' & e & Hg & Hrec).
    { rewrite tick_store. apply lookup_insert_eq. }
    { intros m'. by eexists. }
    destruct (Get_local_ok s1 σm σh key sink None k' m' _ Hrep Hmax Hmiss Howner Hg)
      as (s2 & σm' & σh' & Hget & Hr & Hh & Hm & _ & [Hsub Hroom] & _).
    exists s2, σm', σh', (View k'). split_and!; [|exact Hr|done|done| |exact Hroom].
    + unfold handle_cache. fold sink. mstep Hget. cbv beta iota. mstep.
      by rewrite Hm, (received_variable _ _ _ _ _ Hrec).
    + rewrite Hm. apply Hrec.
  - intros v Hfound Hwf. assert (found (message := message) (C := C) (K := K) σm σh (st_w s1) key = Some v) as Hf.
    { unfold found in *. simpl in *. unfold server_Now in *. simpl in *.
      destruct (clock (st_w s).2) as [t1 v1]. simpl in *. by destruct (clock v1). }
    destruct (Get_hit_ok s1 σm σh key sink v Hrep Hmax Hf Hwf)
      as (s2 & k' & _ & _ & Hget & Hrec & _); [by eexists|].
    exists s2. unfold handle_cache. fold sink. mstep Hget. cbv beta iota. mstep.
    by rewrite (received_variable _ _ _ _ _ Hrec).
Qed.

End Handlers.

(** ** Witnesses *)

Section Witness.

(** The server "a" of the cluster a, b, c; nothing else happens in its world. *)
#[local] Instance quiet_peer : Peer NoOpClient (gmap string string * unit) := NoOpClient_Peer.

Definition fresh_server : state mutexCache (gmap string string * unit) :=
  mkSt (st_g (sample_state "cache1")) [] (∅, tt).

Lemma server_set_then_cache_witness :
  ∃ s1 s2, handle_set "cherry" "red" fresh_server = (Val ok, s1) ∧
    handle_cache (message := list byte) fnv1_64 (sample_instance true) (λ v, (Second, v)) None "cherry" s1
      = (Val (mkResponse 200 (inr (string_bytes "red" ++ string_bytes newline))), s2).
Proof.
  destruct (server_set_then_cache (message := list byte) fnv1_64 (sample_instance true) (λ v, (Second, v)) None
    fresh_server ∅ ∅ "cherry" "red" (sample_rep "cache1")) as (s1 & Hs & Hnew & _);
    [reflexivity|vm_compute; reflexivity|].
  destruct Hnew as (s2 & _ & _ & _ & Hc & _); [by split|]. exists s1, s2. split; [exact Hs|exact Hc].
Defined.

#[local] Existing Instances sample_net sample_net_laws.

(** No metrics are configured. *)
#[local] Instance no_meter : Meter mutexCache unit unit sample_http := {|
  Int64ObservableCounter _ _ _ := mret (inl EOF);
  Int64ObservableUpDownCounter _ _ _ := mret (inl EOF);
  RegisterCallback _ _ _ := mret (Some EOF);
|}.

Lemma server_starts_iff_listed_witness :
  ∃ g i s', main_setup (PM := unit) (Mtr := unit) (Ins := unit) fnv1_64 sample_gas 0 "localhost:8081"
      "localhost:8080,localhost:8081" two_transports = (Val (inr g, i), s') ∧
    GetGroup i "cache1" = Some g.
Proof.
  destruct (server_starts_iff_listed (PM := unit) (Mtr := unit) (Ins := unit) fnv1_64 sample_gas 0 "localhost:8081"
    "localhost:8080,localhost:8081" two_transports) as (r & i & s' & Hs & Hr).
  rewrite bool_decide_true in Hr by (by apply (bool_decide_unpack _)).
  destruct Hr as (g & -> & Hg & _). exists g, i, s'. split; [exact Hs|exact Hg].
Defined.

End Witness.
